(* ===== verification/_CoqProject ===== *)
-Q . S2P
Prelude.v
Effects.v
AesGcm.v
Protocol.v
Utils.v
Keccak256.v
Merkle.v
MerkleSpec.v
Wire.v
Stream.v
WireSpec.v
Controllers.v
Operations.v
Tables.v
Flow.v
SenderSpec.v
ReceiverSpec.v
Integrity.v
Network.v
Honest.v
EndToEnd.v
ChunkSpec.v
Copy.v
Nodes.v
Store.v
Concurrent.v
Handles.v
Log.v
Mutex.v
Failures.v
P2P.v
P2PSpec.v
Timing.v
Relay.v
Mains.v
Scenarios.v
Demos.v
