(* ===== verification/Prelude.v ===== *)
(** * A verification of the file transfer over libp2p

    The program sends a file from one peer to another over one byte stream.
    The sender announces a header (number of chunks, file ID, name, size).  For
    each chunk of 32768 bytes the receiver asks for it; the sender answers with
    its AES-GCM ciphertext and a commitment (hash of key and plaintext); the
    receiver returns a ticket; only then the sender reveals the key; the
    receiver decrypts, checks the commitment and writes the plaintext to disk.
    At the end the sender sends the Merkle root of all chunks, which the
    receiver compares with its own before it acknowledges.  A client asks a
    server for a file (GET) or gives it one (POST) by a short request in front
    of the transfer.

    ** The parts and the files that model them

    - Protocol/ (protocol.go, state.go, session.go, fsm.go): [Protocol].
      [Chunk], [MetaData] and [Session] are records, [TransferState] has the
      source's states, the transition table and the step tables are
      association lists, [Run] is the driver loop.  [Log] adds the lines the
      methods log, [Mutex] the methods as the actions they perform under
      [Session.mu].
    - Protocol/stream.go: [Stream].  The Go interface is a class, [StreamSpec] a
      connection whose input is fixed, comes in any pieces and ends with
      [io.EOF] (narrower than the contract of [io.Reader]), [io.ReadFull] the
      standard library's loop over [Read].
    - Utils/utils.go: [Utils].  The Keccak-256 of golang.org/x/crypto is the
      parameter [LegacyKeccak256] with its documented output size
      ([LegacyKeccak256Spec]); [Keccak256] is an executable instance with
      published test vectors, used in the concrete runs only.  The AES-GCM of
      the Go standard library is an executable definition in [AesGcm].
    - Merkle/merkle.go: [Merkle]; its properties in [MerkleSpec].
    - Chunk/chunk.go: [Wire]; its properties in [WireSpec] and [ChunkSpec].
    - Controllers/controllers.go: [Controllers], one definition per step, the
      step tables, [SendFile] and [RecieveFile]; [Operations] bounds the
      operations a history of each of them can contain.
    - Server/server.go and Client/client.go: [Nodes], the stream handler and
      what the client does once its stream is open; [Concurrent], the server
      process with one thread per incoming stream, all on one disk; [Store],
      what the server is to its clients, a store of named files; [Handles],
      the files a transfer and a server have open, with failing operations and
      the finalizers of [os.File]; [Failures],
      a transfer over a connection that may break; [Mains], the two [main]
      functions.
    - P2P/host.go and relay/main.go: [P2P], [Relay] and the relay's [main] in
      [Mains], with go-libp2p and go-multiaddr as a parameter (class [Libp2p]);
      properties in [P2PSpec], [Timing], [Relay] and [Mains].
    - [Copy] is the abstract specification of a transfer, a block-wise copy,
      and the refinement; [Scenarios] and [Demos] are concrete runs and the
      instances of the theorems at concrete inputs.

    ** How effects are modelled

    [Effects]: a Go function with effects is a tree [prog] that returns, halts
    (panic, [log.Fatal]) or performs one operation (read the stream fully,
    write to it, draw random bytes, open, stat, read, create, write or close a
    file, read the clock) and goes on with the answer.  Go errors are values.
    A step returns the session as it leaves it, also on its error paths.
    The same trees are used in several ways:
    - [exec] and [partial]: every history of operations and answers the
      program can have, the answers being arbitrary except for what the Go
      documentation promises ([wf_event]).  So the peer, the disk and the
      random generator are arbitrary.  [wp] is the proof rule.
    - [run], an executable environment, for concrete runs ([Scenarios],
      [Demos]).
    - [Network]: two programs on two machines, connected by a reliable stream,
      interleaved by any schedule.
    - [Concurrent]: any number of programs in one process, sharing a disk; a
      halt of one ends all of them.
    - [Failures]: two programs on two machines and a connection that may break
      at any moment; afterwards what was under way may still arrive or be lost,
      and reads and writes fail.
    The mains call libp2p, print and start transfers; they are programs of a
    monad of their own ([M] in [Mains]) whose answers are arguments; the client
    runs its transfer, with an answer for every operation ([transfer_run]).  The
    process has a clock, a call takes any time ([duration]), and a context is
    its deadline; that a call which is given a context is back by its deadline
    is the named hypothesis [respects_deadlines].

    ** What is proved

    - Against an arbitrary peer ([Flow], [SenderSpec], [ReceiverSpec]): at every
      moment each side's conversation is a prefix of the protocol; a key is
      sent only right after the ticket for its chunk; everything written to
      disk is the plaintext of verified chunks in order; what a return of [nil]
      means; both sides end, the receiver never panics, no illegal transition
      is ever tried.
    - Refinement ([Copy]): whatever a network that delivers prefixes does, at
      every moment what the receiver has written is a reachable state of the
      block-wise copy of the sender's file; a sender that returned [nil] knows
      the whole file to be written.
    - Of the stream ([Stream]): however a connection of [StreamSpec] cuts its
      bytes into reads, [io.ReadFull] reads as if they came at once; this lemma
      justifies the operation [OReadFull].
    - Between two peers with a hostile network in between ([Integrity]): equal
      roots and numbers of chunks mean equal contents, or a concrete collision
      of the hash among the messages hashed.
    - Between two honest peers ([Network], [Honest], [EndToEnd], [Nodes]):
      every run under every schedule is finite and ends in the same final
      state, with the file transferred; the same for whole GET and POST
      requests.  [Honest] evaluates a side alone while the other one waits;
      [talks] alternates the two; the diamond property of [Network] extends
      the result from that one schedule to all.  [programs_end_to_end] starts
      from the two mains: once the server has registered its handler and the
      client has opened its stream, the protocols agree and the request is
      served under every schedule.
    - Of a store ([Store]): a server that serves any sequence of honest GET and
      POST requests is a finite map from names to contents, and what was posted
      is what a later GET brings.
    - Of a connection that breaks ([Failures]): the run is finite, both sides
      return and do not crash, the receiver's file is a prefix of the sender's,
      and a [nil] on either side means that it is all of it (for an empty file
      only the receiver's).
    - Of many streams at once ([Concurrent], [Demos]): each stream's history is
      one the handler has alone, and a file only one stream creates holds what
      that stream wrote; two uploads of one name can mix.
    - Of the mains ([Mains]): what each does in which order and every way it
      ends, with the answer of the call that made it end so; a client whose
      [SendFile] or [RecieveFile] returned ends the same way for an error as for
      [nil]; the client's thirty seconds cover the relays, the connection and
      the opening of the stream and not the transfer.
    - Of time ([Timing]): what the watch for a direct connection has printed at
      which second of its life, that a context which ends before the timeout,
      as the client's does, hides that the connection stays relayed, and when a
      reservation is renewed or a failed renewal tried again.
    - Of open files ([Handles]): no file is used that is not open or closed
      twice; a sender always closes its file, a receiver unless chunks are
      missing in it; the open files of a server are among those its streams have
      not closed, at most one each, and a stream that is over has left a file to
      its finalizer only after an upload with chunks missing.
    - Of the log ([Log]): line by line what a transfer logs, on success and on
      every failure, and that a receiver's log tells how much of the file is
      written.
    - Of the mutex ([Mutex]): the methods of a session are atomic, however
      goroutines that call them are interleaved; there is no deadlock.
    - Of memory ([Nodes]): how large a buffer a peer can make the handler and
      the client allocate for one read.
    - Of the parts: round trips, rejection of truncated and foreign bytes and
      unique readability of the messages ([WireSpec]); what the commitment,
      the leaf, the Merkle root and the file ID bind ([ChunkSpec],
      [MerkleSpec]); shape and height of the Merkle tree, by comparing its
      loops with a recursive definition; the cutting of a file into chunks and
      the 32-bit bounds of the metadata ([ChunkSpec]); completeness of the step
      tables and of the transition table ([Tables]).
    - Of the configuration ([P2PSpec], [Relay]): the identity survives restarts
      on disk and in the environment (with a base64 round trip), the relay list
      is cleaned, the watch for direct connections logs one of five sequences,
      a reservation that can be renewed never lapses, with the moments in
      [Timing].
    - What the code does not do as one would expect is stated as theorems too:
      a GET for a missing file ends the server with all its other streams,
      concurrent uploads of one name leave a file that is neither, file names
      from the peer are not checked, an upload that is given up does not close
      its file, sizes are cut to 32 bits, the Merkle root does not fix the
      number of leaves, an unreadable key file is replaced.

    Statements on hashes never assume that the hash has no collisions: they
    conclude with [collision_in], two different messages from an explicit list
    with the same hash.

    ** Bounds and fuel

    [Run] has fuel because a Go loop has no bound by itself.  The sender needs
    four and the receiver five iterations per chunk, and there are fewer than
    2^32 chunks, so [enough_fuel] (2^35) suffices; that the fuel is never used
    up is part of [SendFile_outcome] and [RecieveFile_outcome]; the results of
    [Handles] and [Log] hold for any fuel.  The loops of [BuildTree] have the number of leaves as fuel, which is proved enough.
    Integers have the width of the source: [u32], [u64] and [i64] are written
    out where Go converts or computes at that width.

    ** What is not modelled

    What a transfer prints besides the log of its state machine (the header, the
    roots, progress on the standard output); directories, permissions and path
    aliases on the disks of [Network], [Concurrent] and [Failures] (the theorems
    on arbitrary environments do not use those disks).  What a failed write leaves
    in a file is not modelled: [file_writes] are the successful writes, and the
    disks of [Network], [Concurrent] and [Failures] do not fail; failing
    operations are in the arbitrary environments and in [life_step] of
    [Handles].  The stream has no deadline in the
    code, so a transfer has no clock in the model: a silent peer is one that
    never steps.  The goroutines of [P2P] are programs of their own, and
    [Timing] takes their scheduling latency as zero.  go-libp2p, go-multiaddr and the Keccak-256 of
    golang.org/x/crypto are parameters.  Commented-out older versions in the
    sources are not code. *)

(** * Prelude: bytes, machine integers and shared automation *)

From stdpp Require Export base list gmap strings.
From Stdlib Require Export ZArith Lia.
From Stdlib Require Import Strings.Byte.

#[global] Open Scope Z_scope.
#[global] Set Default Proof Using "Type".

(** ** Bytes *)

(** A Go [[]byte] is a list of bytes; [nil] and the empty slice are the same
    list, which is how every use in the sources treats them. *)
Abbreviation byte := Byte.byte.
Abbreviation bytes := (list Byte.byte).

#[global] Instance byte_eq_decision : EqDecision byte := Byte.byte_eq_dec.

(** The conversion [byte(v)] of an unsigned integer keeps its low eight bits. *)
Definition z2b (z : Z) : byte :=
  default Byte.x00 (Byte.of_N (Z.to_N (z `mod` 256))).

(** The value of a byte as an integer. *)
Definition b2z (b : byte) : Z := Z.of_N (Byte.to_N b).

(** [len(b)] as a Go [int]. *)
Definition len {A} (l : list A) : Z := Z.of_nat (length l).

(** ** Fixed-width unsigned integers, kept as [Z] with the wrap-around written out *)

Definition u32 (z : Z) : Z := z `mod` 2 ^ 32.
Definition u64 (z : Z) : Z := z `mod` 2 ^ 64.

(** Conversion to [int64]: two's complement. *)
Definition i64 (z : Z) : Z := (z + 2 ^ 63) `mod` 2 ^ 64 - 2 ^ 63.

(** [x] is the value of a [uint32], respectively a [uint64]. *)
Definition is_u32 (x : Z) : Prop := 0 <= x < 2 ^ 32.
Definition is_u64 (x : Z) : Prop := 0 <= x < 2 ^ 64.

(** ** encoding/binary: BigEndian *)

(** [binary.BigEndian.PutUint32]: the four bytes stored in the buffer. *)
Definition PutUint32 (v : Z) : bytes :=
  [z2b (Z.shiftr v 24); z2b (Z.shiftr v 16); z2b (Z.shiftr v 8); z2b v].

(** [binary.BigEndian.Uint32] of a buffer of (at least) four bytes. *)
Definition Uint32 (b : bytes) : Z :=
  match b with
  | b0 :: b1 :: b2 :: b3 :: _ =>
      Z.lor (b2z b3) (Z.lor (Z.shiftl (b2z b2) 8)
        (Z.lor (Z.shiftl (b2z b1) 16) (Z.shiftl (b2z b0) 24)))
  | _ => 0
  end.

(** [binary.BigEndian.PutUint64]. *)
Definition PutUint64 (v : Z) : bytes :=
  PutUint32 (Z.shiftr v 32) ++ PutUint32 v.

(** ** Strings *)

(** [[]byte(s)] and [string(b)]: a Go string is its bytes. *)
Definition bytes_of_string (s : string) : bytes := String.list_byte_of_string s.
Definition string_of_bytes (b : bytes) : string := String.string_of_list_byte b.

(** ** Lemmas *)

Lemma b2z_range (b : byte) : 0 <= b2z b < 256.
Proof.
  unfold b2z. pose proof (Byte.to_N_bounded b). lia.
Qed.

Lemma b2z_inj (a b : byte) : b2z a = b2z b -> a = b.
Proof.
  unfold b2z. intros H%N2Z.inj.
  pose proof (Byte.of_to_N a); pose proof (Byte.of_to_N b). congruence.
Qed.

Lemma b2z_z2b (z : Z) : b2z (z2b z) = z `mod` 256.
Proof.
  unfold b2z, z2b.
  pose proof (Z.mod_pos_bound z 256 ltac:(lia)) as Hb.
  destruct (Byte.of_N _) as [b|] eqn:E; simpl.
  - apply Byte.to_of_N in E. rewrite E. lia.
  - apply Byte.of_N_None_iff in E. lia.
Qed.

Lemma z2b_b2z (b : byte) : z2b (b2z b) = b.
Proof.
  apply b2z_inj. rewrite b2z_z2b. apply Z.mod_small, b2z_range.
Qed.

Lemma len_nonneg {A} (l : list A) : 0 <= len l.
Proof. unfold len; lia. Qed.

Lemma len_app {A} (l k : list A) : len (l ++ k) = len l + len k.
Proof. unfold len. rewrite length_app. lia. Qed.

Lemma u32_small (x : Z) : is_u32 x -> u32 x = x.
Proof. apply Z.mod_small. Qed.

Lemma u32_range (x : Z) : is_u32 (u32 x).
Proof. apply Z.mod_pos_bound. lia. Qed.

Lemma u64_small (x : Z) : is_u64 x -> u64 x = x.
Proof. apply Z.mod_small. Qed.

Lemma i64_small (x : Z) : - 2 ^ 63 <= x < 2 ^ 63 -> i64 x = x.
Proof. intros Hx. unfold i64. rewrite Z.mod_small; lia. Qed.

Lemma u32_is_u64 (x : Z) : is_u32 x -> is_u64 x.
Proof. unfold is_u32, is_u64. lia. Qed.

(** Disjoint bit ranges: [lor] with a value shifted past it is an addition. *)
Lemma land_shiftl_low (a b n : Z) :
  0 <= n -> 0 <= a < 2 ^ n -> Z.land a (Z.shiftl b n) = 0.
Proof.
  intros Hn Ha. apply Z.bits_inj'. intros i Hi. rewrite Z.land_spec, Z.bits_0.
  destruct (Z.lt_ge_cases i n).
  - rewrite (Z.shiftl_spec_low b) by done. apply andb_false_r.
  - destruct (decide (a = 0)) as [->|]; [by rewrite Z.bits_0|].
    rewrite (Z.bits_above_log2 a i); [done|lia|].
    apply Z.log2_lt_pow2; [lia|]. apply Z.lt_le_trans with (2 ^ n); [lia|].
    apply Z.pow_le_mono_r; lia.
Qed.

Lemma lor_shiftl_add (a b n : Z) :
  0 <= n -> 0 <= a < 2 ^ n -> Z.lor a (Z.shiftl b n) = a + b * 2 ^ n.
Proof.
  intros Hn Ha. pose proof (land_shiftl_low a b n Hn Ha) as H0.
  rewrite <-Z.lxor_lor, <-Z.add_nocarry_lxor, Z.shiftl_mul_pow2 by done. done.
Qed.

(** The value decoded from four bytes, as a polynomial in 256. *)
Lemma Uint32_poly (b0 b1 b2 b3 : byte) (l : bytes) :
  Uint32 (b0 :: b1 :: b2 :: b3 :: l)
  = b2z b3 + b2z b2 * 2 ^ 8 + b2z b1 * 2 ^ 16 + b2z b0 * 2 ^ 24.
Proof.
  unfold Uint32.
  pose proof (b2z_range b0); pose proof (b2z_range b1);
  pose proof (b2z_range b2); pose proof (b2z_range b3).
  rewrite (Z.lor_assoc (b2z b3)), (lor_shiftl_add (b2z b3)) by lia.
  rewrite Z.lor_assoc, (lor_shiftl_add (_ + _)) by lia.
  rewrite lor_shiftl_add by lia. lia.
Qed.

Lemma Uint32_range (b : bytes) : is_u32 (Uint32 b).
Proof.
  destruct b as [|b0 [|b1 [|b2 [|b3 b]]]]; try (unfold is_u32; simpl; lia).
  rewrite Uint32_poly. unfold is_u32.
  pose proof (b2z_range b0); pose proof (b2z_range b1);
  pose proof (b2z_range b2); pose proof (b2z_range b3). lia.
Qed.

Lemma length_PutUint32 (v : Z) : length (PutUint32 v) = 4%nat.
Proof. done. Qed.

Lemma length_PutUint64 (v : Z) : length (PutUint64 v) = 8%nat.
Proof. done. Qed.

Lemma Uint32_PutUint32 (v : Z) (l : bytes) :
  is_u32 v -> Uint32 (PutUint32 v ++ l) = v.
Proof.
  intros Hv. unfold is_u32 in Hv. unfold PutUint32. simpl app.
  rewrite Uint32_poly, !b2z_z2b, !Z.shiftr_div_pow2 by lia.
  Z.div_mod_to_equations. lia.
Qed.

Lemma Uint32_PutUint32' (v : Z) : is_u32 v -> Uint32 (PutUint32 v) = v.
Proof. intros Hv. rewrite <-(app_nil_r (PutUint32 v)). by apply Uint32_PutUint32. Qed.

(** Four bytes are the encoding of the value they decode to. *)
Lemma PutUint32_Uint32 (b : bytes) : length b = 4%nat -> PutUint32 (Uint32 b) = b.
Proof.
  destruct b as [|b0 [|b1 [|b2 [|b3 [|]]]]]; intros [=].
  pose proof (b2z_range b0); pose proof (b2z_range b1);
  pose proof (b2z_range b2); pose proof (b2z_range b3).
  rewrite Uint32_poly. unfold PutUint32. rewrite !Z.shiftr_div_pow2 by lia.
  repeat f_equal; apply b2z_inj; rewrite b2z_z2b; Z.div_mod_to_equations; lia.
Qed.

Lemma PutUint32_inj (x y : Z) : is_u32 x -> is_u32 y -> PutUint32 x = PutUint32 y -> x = y.
Proof. intros Hx Hy H%(f_equal Uint32). by rewrite !Uint32_PutUint32' in H. Qed.

Lemma string_of_bytes_of_string (s : string) : string_of_bytes (bytes_of_string s) = s.
Proof. apply String.string_of_list_byte_of_string. Qed.

Lemma bytes_of_string_of_bytes (b : bytes) : bytes_of_string (string_of_bytes b) = b.
Proof. apply String.list_byte_of_string_of_list_byte. Qed.

(** *** Lists *)

Lemma take_app_len {A} (l k : list A) (n : nat) : n = length l -> take n (l ++ k) = l.
Proof. intros ->. apply take_app_length. Qed.

Lemma drop_app_len {A} (l k : list A) (n : nat) : n = length l -> drop n (l ++ k) = k.
Proof. intros ->. apply drop_app_length. Qed.

(** Two lists split at the same place. *)
Lemma app_inj_len {A} (l1 l2 k1 k2 : list A) :
  length l1 = length l2 -> l1 ++ k1 = l2 ++ k2 -> l1 = l2 /\ k1 = k2.
Proof. intros H. by apply app_inj_1. Qed.

(** ** Automation *)

Create HintDb bytes.
Create Rewrite HintDb bytes.
#[export] Hint Resolve length_PutUint32 length_PutUint64 u32_range Uint32_range
  b2z_range len_nonneg : bytes.
#[export] Hint Rewrite @length_app @length_cons @length_nil length_PutUint32
  length_PutUint64 @len_app : bytes.

#[global] Arguments PutUint32 : simpl never.
#[global] Arguments PutUint64 : simpl never.
#[global] Arguments Uint32 : simpl never.
#[global] Arguments z2b : simpl never.
#[global] Arguments b2z : simpl never.
#[global] Arguments u32 : simpl never.
#[global] Arguments u64 : simpl never.
#[global] Arguments i64 : simpl never.
#[global] Arguments bytes_of_string : simpl never.
#[global] Arguments string_of_bytes : simpl never.

(** Case analysis on every [if] and [match] of the goal, keeping equations. *)
Ltac split_matches :=
  repeat match goal with
  | |- context [match ?x with _ => _ end] => destruct x eqn:?; simplify_eq/=
  end.
