(* ===== verification/Effects.v ===== *)
(** * Effects: what the Go code does besides computing

    The functions of the repository read and write one byte stream, use files,
    the random generator and the clock, and return Go [error] values.  A Go
    function with such effects is a tree [prog]: it either returns, stops the
    process, or performs one operation [op] and continues with the answer.
    The same trees are run against an arbitrary environment (relation [exec],
    with the proof rule [wp]), against an executable environment ([run]), and,
    in [Network], against a peer. *)

From S2P Require Import Prelude.

(** ** Errors *)

(** Go error values: the sentinels of package [io], an error made by the
    operating system, the network or a library, and [fmt.Errorf] with its
    format and arguments. *)
Inductive error : Type :=
| EOF
| ErrUnexpectedEOF
| ErrExt (code : Z)
| Errorf (format : string) (args : list arg)
with arg : Type :=
| AUint (z : Z)
| AString (s : string)
| ABytes (b : bytes)
| AError (e : error).

(** The result pair [(value, error)] of a Go function whose value is only
    used when the error is [nil]. *)
Inductive res (A : Type) : Type :=
| Ok (a : A)
| Err (e : error).
Arguments Ok {A} a.
Arguments Err {A} e.

Definition is_Ok {A} (r : res A) : bool :=
  match r with Ok _ => true | Err _ => false end.

(** ** Operations *)

(** An open [*os.File]. *)
Abbreviation handle := nat.

(** The part of [os.FileInfo] the code uses: [Name()] and [Size()] (an [int64]). *)
Record FileInfo := mkFileInfo { fi_Name : string; fi_Size : Z }.

Inductive op : Type :=
| OReadFull (n : Z)                     (* io.ReadFull(conn, make([]byte, n)) *)
| OWrite (b : bytes)                    (* conn.Write(b) *)
| OClose                                (* conn.Close() *)
| OReset                                (* conn.Reset() *)
| ORand (n : Z)                         (* rand.Read / io.ReadFull(rand.Reader, _) *)
| ONow                                  (* time.Now().Unix() *)
| OOpenFile (path : string)             (* os.OpenFile(path, os.O_RDONLY, 0775) *)
| OStat (f : handle)                    (* file.Stat() *)
| OReadAt (f : handle) (n off : Z)      (* file.ReadAt(make([]byte, n), off) *)
| OMkdirAll (path : string)             (* os.MkdirAll(path, 0775) *)
| OCreate (path : string)               (* os.Create(path) *)
| OFileWrite (f : handle) (b : bytes)   (* file.Write(b) *)
| OFileClose (f : handle).              (* file.Close() *)

(** The answer of each operation. *)
Definition ans (o : op) : Type :=
  match o with
  | OReadFull _ | ORand _ => res bytes
  | OWrite _ | OMkdirAll _ | OFileWrite _ _ | OFileClose _ => option error
  | OClose | OReset => unit
  | ONow => Z
  | OOpenFile _ | OCreate _ => res handle
  | OStat _ => res FileInfo
  | OReadAt _ _ _ => bytes * option error
  end.

(** ** Programs *)

(** Ways a Go program stops without returning: a run-time panic, [log.Fatal]
    (which ends the whole process), and, in the model only, a loop that used
    up its fuel. *)
Inductive halt : Type :=
| Panic (why : string)
| Fatal (why : string)
| OutOfFuel.

Inductive prog (A : Type) : Type :=
| Ret (a : A)
| Halt (h : halt)
| Vis (o : op) (k : ans o -> prog A).
Arguments Ret {A} a.
Arguments Halt {A} h.
Arguments Vis {A} o k.

Fixpoint bind {A B} (p : prog A) (f : A -> prog B) : prog B :=
  match p with
  | Ret a => f a
  | Halt h => Halt h
  | Vis o k => Vis o (fun a => bind (k a) f)
  end.

(** Perform one operation and return its answer. *)
Definition perform (o : op) : prog (ans o) := Vis o Ret.

(** [defer d()]: the deferred call runs when the rest of the function returns and
    when it panics; [log.Fatal] exits without it. *)
Fixpoint defer {A B} (d : prog B) (p : prog A) : prog A :=
  match p with
  | Ret a => bind d (fun _ => Ret a)
  | Halt (Panic why) => bind d (fun _ => Halt (Panic why))
  | Halt h => Halt h
  | Vis o k => Vis o (fun a => defer d (k a))
  end.

Declare Scope go_scope.
Delimit Scope go_scope with go.
#[global] Open Scope go_scope.

Notation "'let!' x ':=' p 'in' q" := (bind p (fun x => q))
  (at level 10, x pattern, p at level 100, q at level 200,
   format "'[v' 'let!'  x  ':='  p  'in' '/' q ']'") : go_scope.

(** [if err != nil { return r }]: the value of a call, or the early return [r]
    computed from its error [e]. *)
Notation "'let?' x ':=' p 'orelse' e '=>' r 'in' q" :=
  (bind p (fun y => match y with Ok x => q | Err e => Ret r end))
  (at level 10, x pattern, e name, p at level 100, r at level 100, q at level 200,
   format "'[v' 'let?'  x  ':='  p  'orelse'  e  '=>'  r  'in' '/' q ']'") : go_scope.

(** The same for a call that returns only an error. *)
Notation "'check!' p 'orelse' e '=>' r 'in' q" :=
  (bind p (fun y => match y with None => q | Some e => Ret r end))
  (at level 10, e name, p at level 100, r at level 100, q at level 200,
   format "'[v' 'check!'  p  'orelse'  e  '=>'  r  'in' '/' q ']'") : go_scope.

(** [fmt.Errorf("...: %w", err)]. *)
Definition wrap (format : string) (e : error) : error := Errorf format [AError e].

(** ** Events *)

(** One performed operation together with its answer. *)
Inductive event : Type :=
| EvRead (n : Z) (r : res bytes)
| EvWrite (b : bytes) (e : option error)
| EvClose
| EvReset
| EvRand (n : Z) (r : res bytes)
| EvNow (t : Z)
| EvOpen (path : string) (r : res handle)
| EvStat (f : handle) (r : res FileInfo)
| EvReadAt (f : handle) (n off : Z) (d : bytes) (e : option error)
| EvMkdirAll (path : string) (e : option error)
| EvCreate (path : string) (r : res handle)
| EvFileWrite (f : handle) (b : bytes) (e : option error)
| EvFileClose (f : handle) (e : option error).

Definition event_of (o : op) : ans o -> event :=
  match o with
  | OReadFull n => EvRead n
  | OWrite b => EvWrite b
  | OClose => fun _ => EvClose
  | OReset => fun _ => EvReset
  | ORand n => EvRand n
  | ONow => EvNow
  | OOpenFile p => EvOpen p
  | OStat f => EvStat f
  | OReadAt f n off => fun r => EvReadAt f n off r.1 r.2
  | OMkdirAll p => EvMkdirAll p
  | OCreate p => EvCreate p
  | OFileWrite f b => EvFileWrite f b
  | OFileClose f => EvFileClose f
  end.

(** What the Go documentation promises of every answer: [io.ReadFull] and
    [rand.Read] fill the whole buffer when they return no error,
    [io.ReaderAt.ReadAt] returns at most the buffer and reports an error when
    it returns less, sizes and times are [int64] values, a file is not of
    negative size. *)
Definition wf_event (e : event) : Prop :=
  match e with
  | EvRead n (Ok b) => len b = n
  | EvRand n (Ok b) => len b = n
  | EvReadAt _ n _ d e => len d <= n /\ (len d < n -> e <> None)
  | EvStat _ (Ok i) => 0 <= fi_Size i < 2 ^ 63
  | EvNow t => - 2 ^ 63 <= t < 2 ^ 63
  | _ => True
  end.

(** ** Execution in an arbitrary environment *)

Inductive outcome (A : Type) : Type :=
| Done (a : A)
| Halted (h : halt).
Arguments Done {A} a.
Arguments Halted {A} h.

(** [exec p tr r]: in some environment [p] performs the events [tr] and ends
    with [r]. *)
Fixpoint exec {A} (p : prog A) (tr : list event) (r : outcome A) : Prop :=
  match p with
  | Ret a => tr = [] /\ r = Done a
  | Halt h => tr = [] /\ r = Halted h
  | Vis o k => exists a tr', wf_event (event_of o a) /\
      tr = event_of o a :: tr' /\ exec (k a) tr' r
  end.

(** [partial p tr]: [tr] is what [p] has performed at some moment of an
    execution in some environment. *)
Fixpoint partial {A} (p : prog A) (tr : list event) : Prop :=
  match p with
  | Ret _ | Halt _ => tr = []
  | Vis o k => tr = [] \/ exists a tr', wf_event (event_of o a) /\
      tr = event_of o a :: tr' /\ partial (k a) tr'
  end.

(** An executable environment: a state and an answer to every operation. *)
Definition environment (S : Type) : Type := forall o : op, S -> ans o * S.

Fixpoint run {S A} (env : environment S) (p : prog A) (s : S) : outcome A * list event * S :=
  match p with
  | Ret a => (Done a, [], s)
  | Halt h => (Halted h, [], s)
  | Vis o k =>
      let '(a, s1) := env o s in
      let '(r, tr, s2) := run env (k a) s1 in
      (r, event_of o a :: tr, s2)
  end.

(** The part of a history that is on the stream. *)
Definition is_wire (e : event) : bool :=
  match e with EvRead _ _ | EvWrite _ _ => true | _ => false end.

Definition wire (tr : list event) : list event := filter (fun e => is_wire e = true) tr.

(** The bytes of the successful writes to files, in order.  A write that returns an
    error is not counted; it may have left a part of its bytes in the file. *)
Definition file_writes (tr : list event) : list (handle * bytes) :=
  omap (fun e => match e with EvFileWrite f b None => Some (f, b) | _ => None end) tr.

(** The files created, in order, with their handles. *)
Definition creates (tr : list event) : list (string * handle) :=
  omap (fun e => match e with EvCreate p (Ok f) => Some (p, f) | _ => None end) tr.

(** No file was created or written. *)
Definition untouched (tr : list event) : Prop := file_writes tr = [] /\ creates tr = [].

(** The buffers successfully written to the stream, in order. *)
Definition sent (tr : list event) : list bytes :=
  omap (fun e => match e with EvWrite b None => Some b | _ => None end) tr.

(** ** Weakest preconditions over histories

    [wp I p Q tr]: after the history [tr], every execution of [p] keeps the
    history in [I] after each operation and ends in [Q]. *)
Fixpoint wp {A} (I : list event -> Prop) (p : prog A)
    (Q : outcome A -> list event -> Prop) (tr : list event) : Prop :=
  match p with
  | Ret a => Q (Done a) tr
  | Halt h => Q (Halted h) tr
  | Vis o k => forall a : ans o, wf_event (event_of o a) ->
      I (tr ++ [event_of o a]) /\ wp I (k a) Q (tr ++ [event_of o a])
  end.

(** The postcondition of a program that returns and does not halt. *)
Definition returns {A} (Q : A -> list event -> Prop) (r : outcome A) (tr : list event) : Prop :=
  match r with Done a => Q a tr | Halted _ => False end.

Lemma wp_bind {A B} I (p : prog A) (f : A -> prog B) Q tr :
  wp I p (returns (fun a tr' => wp I (f a) Q tr')) tr -> wp I (bind p f) Q tr.
Proof.
  revert tr. induction p as [a|h|o k IH]; intros tr; simpl; [done|done|].
  intros Hp a Ha. destruct (Hp a Ha) as [HI Hk]. auto.
Qed.

(** The same for a program that may halt. *)
Lemma wp_bind_halt {A B} I (p : prog A) (f : A -> prog B) Q tr :
  wp I p (fun r tr' => match r with Done a => wp I (f a) Q tr' | Halted h => Q (Halted h) tr' end) tr ->
  wp I (bind p f) Q tr.
Proof.
  revert tr. induction p as [a|h|o k IH]; intros tr; simpl; [done|done|].
  intros Hp a Ha. destruct (Hp a Ha) as [HI Hk]. auto.
Qed.

(** The safety predicate holds at the end. *)
Lemma wp_keep {A} (I : list event -> Prop) (p : prog A) Q tr :
  I tr -> wp I p Q tr -> wp I p (fun r tr' => I tr' /\ Q r tr') tr.
Proof.
  revert tr. induction p as [a|h|o k IH]; intros tr Htr; simpl; [done|done|].
  intros Hp a Ha. destruct (Hp a Ha). eauto.
Qed.

(** A program that runs after [tr0]. *)
Lemma wp_after {A} (I J : list event -> Prop) (p : prog A) Q Q' tr0 tr :
  (forall tr', I tr' -> J (tr0 ++ tr')) -> (forall r tr', Q r tr' -> Q' r (tr0 ++ tr')) ->
  wp I p Q tr -> wp J p Q' (tr0 ++ tr).
Proof.
  intros HJ HQ. revert tr. induction p as [a|h|o k IH]; intros tr; simpl; [apply HQ|apply HQ|].
  intros Hp a Ha. destruct (Hp a Ha) as [HI Hk]. rewrite <-app_assoc. auto.
Qed.

(** The deferred call after each way to end. *)
Lemma wp_defer {A B} I (d : prog B) (p : prog A) Q tr :
  wp I p (fun r tr' => match r with
    | Done a => wp I (bind d (fun _ => Ret a)) Q tr'
    | Halted (Panic why) => wp I (bind d (fun _ => Halt (Panic why))) Q tr'
    | Halted h => Q (Halted h) tr'
    end) tr ->
  wp I (defer d p) Q tr.
Proof.
  revert tr. induction p as [a|h|o k IH]; intros tr; simpl; [done|by destruct h|].
  intros Hp a Ha. destruct (Hp a Ha) as [HI Hk]. auto.
Qed.

Lemma wp_mono {A} I (p : prog A) Q Q' tr :
  wp I p Q tr -> (forall r tr', Q r tr' -> Q' r tr') -> wp I p Q' tr.
Proof.
  intros Hp HQ. revert tr Hp. induction p as [a|h|o k IH]; intros tr; simpl; eauto.
  intros Hp a Ha. destruct (Hp a Ha). eauto.
Qed.

(** A weaker safety predicate. *)
Lemma wp_weaken {A} (I I' : list event -> Prop) (p : prog A) Q tr :
  (forall tr', I tr' -> I' tr') -> wp I p Q tr -> wp I' p Q tr.
Proof.
  intros HI. revert tr. induction p as [a|h|o k IH]; intros tr; simpl; [done|done|].
  intros Hp a Ha. destruct (Hp a Ha). eauto.
Qed.

(** Histories only grow. *)
Lemma wp_prefix {A} (I : list event -> Prop) (p : prog A) Q tr0 tr :
  tr0 `prefix_of` tr -> wp I p Q tr ->
  wp (fun tr' => I tr' /\ tr0 `prefix_of` tr') p (fun r tr' => Q r tr' /\ tr0 `prefix_of` tr') tr.
Proof.
  revert tr. induction p as [a|h|o k IH]; intros tr Hpre Hp; simpl; [done|done|].
  intros a Ha. destruct (Hp a Ha) as [HI Hk].
  assert (tr0 `prefix_of` tr ++ [event_of o a]) by by apply prefix_app_r. auto.
Qed.

(** [wp] speaks about all executions and all their moments. *)
Lemma wp_exec {A} I (p : prog A) Q tr0 tr r :
  wp I p Q tr0 -> exec p tr r -> Q r (tr0 ++ tr).
Proof.
  revert tr0 tr. induction p as [a|h|o k IH]; intros tr0 tr; simpl.
  - intros HQ [-> ->]. by rewrite app_nil_r.
  - intros HQ [-> ->]. by rewrite app_nil_r.
  - intros Hp (a & tr' & Ha & -> & Hk). destruct (Hp a Ha) as [_ Hwp].
    specialize (IH a _ _ Hwp Hk). by rewrite <-app_assoc in IH.
Qed.

Lemma wp_partial {A} (I : list event -> Prop) (p : prog A) Q tr0 tr :
  I tr0 -> wp I p Q tr0 -> partial p tr -> I (tr0 ++ tr).
Proof.
  revert tr0 tr. induction p as [a|h|o k IH]; intros tr0 tr; simpl.
  - intros HI _ ->. by rewrite app_nil_r.
  - intros HI _ ->. by rewrite app_nil_r.
  - intros HI Hp [->|(a & tr' & Ha & -> & Hk)]; [by rewrite app_nil_r|].
    destruct (Hp a Ha) as [HI' Hwp].
    specialize (IH a _ _ HI' Hwp Hk). by rewrite <-app_assoc in IH.
Qed.

(** A program run in an executable environment with documented answers is one
    of its executions; every program is total there. *)
Lemma run_exec {S A} (env : environment S) (p : prog A) (s : S) :
  (forall o s, wf_event (event_of o (env o s).1)) ->
  exec p (run env p s).1.2 (run env p s).1.1.
Proof.
  intros Henv. revert s. induction p as [a|h|o k IH]; intros s; simpl; [done|done|].
  specialize (Henv o s). destruct (env o s) as [a s1] eqn:Ho. simpl in Henv.
  specialize (IH a s1). destruct (run env (k a) s1) as [[r tr] s2]. simpl in *.
  exists a, tr. auto.
Qed.

(** The same with the documented answers checked on the run itself. *)
Lemma run_exec_wf {S A} (env : environment S) (p : prog A) (s : S) :
  Forall wf_event (run env p s).1.2 -> exec p (run env p s).1.2 (run env p s).1.1.
Proof.
  revert s. induction p as [a|h|o k IH]; intros s; simpl; [done|done|].
  destruct (env o s) as [a s1] eqn:Ho. specialize (IH a s1).
  destruct (run env (k a) s1) as [[r tr] s2]. simpl in *.
  intros [Ha Htr]%Forall_cons. exists a, tr. auto.
Qed.

Lemma exec_partial {A} (p : prog A) tr1 tr2 r : exec p (tr1 ++ tr2) r -> partial p tr1.
Proof.
  revert tr1. induction p as [a|h|o k IH]; intros tr1; simpl.
  - intros [[-> _]%app_nil _]. done.
  - intros [[-> _]%app_nil _]. done.
  - intros (a & tr' & Ha & Heq & Hk). destruct tr1 as [|e tr1]; [by left|right].
    injection Heq as -> <-. exists a, tr1. split_and!; [done|done|]. by apply (IH a).
Qed.

#[global] Instance wf_event_dec e : Decision (wf_event e).
Proof.
  destruct e as [n [b|]| | | |n [b|]| | |f [i|]| | | | |]; simpl; apply _.
Defined.

Lemma run_bind {S A B} (env : environment S) (p : prog A) (f : A -> prog B) (s : S) :
  run env (bind p f) s =
  match run env p s with
  | (Done a, tr, s1) => let '(r, tr', s2) := run env (f a) s1 in (r, tr ++ tr', s2)
  | (Halted h, tr, s1) => (Halted h, tr, s1)
  end.
Proof.
  revert s. induction p as [a|h|o k IH]; intros s; simpl.
  - by destruct (run env (f a) s) as [[? ?] ?].
  - done.
  - destruct (env o s) as [a s1]. rewrite IH.
    destruct (run env (k a) s1) as [[[a'|h] tr] s2]; [|done].
    by destruct (run env (f a') s2) as [[? ?] ?].
Qed.

Lemma exec_bind {A B} (p : prog A) (f : A -> prog B) tr r :
  exec (bind p f) tr r <->
  (exists h, exec p tr (Halted h) /\ r = Halted h) \/
  (exists a tr1 tr2, exec p tr1 (Done a) /\ exec (f a) tr2 r /\ tr = tr1 ++ tr2).
Proof.
  revert tr. induction p as [a|h|o k IH]; intros tr; simpl.
  - split; [intros H; right; by exists a, [], tr|].
    intros [(h & [? ?] & ?)|(a' & tr1 & tr2 & [? ?] & ? & ?)]; by simplify_eq/=.
  - split; [intros [-> ->]; left; eauto|].
    intros [(h' & [? ?] & ?)|(a' & tr1 & tr2 & [? ?] & ? & ?)]; by simplify_eq/=.
  - split.
    + intros (a & tr' & Ha & -> & Hk). apply IH in Hk as [(h & Hh & ->)|(a' & tr1 & tr2 & H1 & H2 & ->)].
      * left. exists h. split; [|done]. eauto.
      * right. exists a', (event_of o a :: tr1), tr2. split; [eauto|done].
    + intros [(h & (a & tr' & Ha & -> & H) & ->)
             |(a' & ? & tr2 & (a & tr1 & Ha & -> & H1) & H2 & ->)].
      * exists a, tr'. rewrite IH. eauto 10.
      * exists a, (tr1 ++ tr2). rewrite IH. eauto 10.
Qed.

Lemma exec_defer {A B} (d : prog B) (p : prog A) tr r :
  exec (defer d p) tr r -> exists o tr1 tr2, exec p tr1 o /\ tr = tr1 ++ tr2 /\
    match o with
    | Done a => exec (bind d (fun _ => Ret a)) tr2 r
    | Halted (Panic why) => exec (bind d (fun _ => Halt (Panic why))) tr2 r
    | Halted h => tr2 = [] /\ r = Halted h
    end.
Proof.
  revert tr. induction p as [a|h|o k IH]; intros tr; simpl.
  - intros He. by exists (Done a), [], tr.
  - intros He. by exists (Halted h), [], tr; destruct h.
  - intros (a & tr' & Ha & -> & (o' & tr1 & tr2 & Hp & -> & Hd)%IH).
    exists o', (event_of o a :: tr1), tr2. split_and!; [eauto|done|done].
Qed.

(** ** Which operations a program uses *)

(** All operations of a program satisfy [P], and what it returns [Q]. *)
Fixpoint does {A} (P : op -> Prop) (Q : A -> Prop) (p : prog A) : Prop :=
  match p with
  | Ret a => Q a
  | Halt _ => True
  | Vis o k => P o /\ forall a, does P Q (k a)
  end.

Definition uses {A} (P : op -> Prop) (p : prog A) : Prop := does P (fun _ => True) p.

Lemma does_mono {A} (P P' : op -> Prop) (Q Q' : A -> Prop) p :
  (forall o, P o -> P' o) -> (forall a, Q a -> Q' a) -> does P Q p -> does P' Q' p.
Proof. intros HP HQ. induction p as [a|h|o k IH]; simpl; [auto|done|]. intros [Ho Hk]. auto. Qed.

Lemma does_bind {A B} P Q (Q' : B -> Prop) (p : prog A) (f : A -> prog B) :
  does P Q p -> (forall a, Q a -> does P Q' (f a)) -> does P Q' (bind p f).
Proof. induction p as [a|h|o k IH]; simpl; intros Hp Hf; [auto|done|]. destruct Hp. auto. Qed.

Lemma uses_bind {A B} P (Q : B -> Prop) (p : prog A) (f : A -> prog B) :
  uses P p -> (forall a, does P Q (f a)) -> does P Q (bind p f).
Proof. intros Hp Hf. by eapply does_bind. Qed.

Lemma does_defer {A B} P Q (d : prog B) (p : prog A) : uses P d -> does P Q p -> does P Q (defer d p).
Proof.
  intros Hd. induction p as [a|h|o k IH]; simpl; intros Hp; [by apply uses_bind| |].
  - destruct h; [by apply uses_bind|done..].
  - destruct Hp. auto.
Qed.

Lemma wp_uses {A} (I : list event -> Prop) P (p : prog A) tr :
  (forall tr o a, P o -> I tr -> I (tr ++ [event_of o a])) -> uses P p -> I tr ->
  wp I p (fun _ _ => True) tr.
Proof.
  intros HI. revert tr. induction p as [a|h|o k IH]; intros tr Hp Htr; [done|done|].
  destruct Hp as [Ho Hk]. intros a _. assert (I (tr ++ [event_of o a])) by auto. split; [done|]. by apply IH; [apply Hk|].
Qed.

(** ** A program in the course of its run *)

(** [p] has performed [tr] and is now [q]. *)
Inductive leads {A} (p : prog A) : list event -> prog A -> Prop :=
| leads_refl : leads p [] p
| leads_step tr o k a :
    leads p tr (Vis o k) -> wf_event (event_of o a) -> leads p (tr ++ [event_of o a]) (k a).

Lemma partial_nil {A} (p : prog A) : partial p [].
Proof. destruct p; simpl; auto. Qed.

Lemma leads_partial {A} (p q : prog A) tr : leads p tr q -> partial p tr.
Proof.
  intros Hl. rewrite <-(app_nil_r tr). generalize (partial_nil q). generalize (@nil event) as tr'.
  induction Hl as [|tr o k a Hl IH Hw]; intros tr' Hq; [done|].
  rewrite <-app_assoc. apply IH. right. by exists a, tr'.
Qed.

Lemma leads_exec {A} (p : prog A) tr q tr' r : leads p tr q -> exec q tr' r -> exec p (tr ++ tr') r.
Proof.
  intros Hl. revert tr'. induction Hl as [|tr o k a Hl IH Hw]; intros tr' Hq; [done|].
  rewrite <-app_assoc. apply IH. by exists a, tr'.
Qed.

Lemma leads_uses {A} P (p : prog A) tr q : uses P p -> leads p tr q -> uses P q.
Proof.
  intros Hp Hl. induction Hl as [|tr o k a Hl IH Hw]; [done|]. destruct IH as [_ Hk]. apply Hk.
Qed.

Lemma partial_ops {A} P (p : prog A) tr :
  uses P p -> partial p tr -> Forall (fun e => exists o a, e = event_of o a /\ P o) tr.
Proof.
  revert tr. induction p as [a|h|o k IH]; intros tr; [by intros _ ->|by intros _ ->|].
  intros [Ho Hk] [->|(a & tr' & _ & -> & Hp)]; [done|]. constructor; [eauto|]. by eapply IH; [apply Hk|].
Qed.

Lemma leads_ops {A} P (p : prog A) tr q :
  uses P p -> leads p tr q -> Forall (fun e => exists o a, e = event_of o a /\ P o) tr.
Proof. intros Hp Hl%leads_partial. by eapply partial_ops. Qed.

Lemma wire_app tr1 tr2 : wire (tr1 ++ tr2) = wire tr1 ++ wire tr2.
Proof. apply filter_app. Qed.

Lemma file_writes_app tr1 tr2 : file_writes (tr1 ++ tr2) = file_writes tr1 ++ file_writes tr2.
Proof. apply omap_app. Qed.

Lemma creates_app tr1 tr2 : creates (tr1 ++ tr2) = creates tr1 ++ creates tr2.
Proof. apply omap_app. Qed.

Lemma untouched_app tr1 tr2 : untouched (tr1 ++ tr2) <-> untouched tr1 /\ untouched tr2.
Proof. unfold untouched. rewrite file_writes_app, creates_app, !app_nil. tauto. Qed.

Lemma sent_app tr1 tr2 : sent (tr1 ++ tr2) = sent tr1 ++ sent tr2.
Proof. apply omap_app. Qed.

#[global] Arguments wire : simpl never.
