(* ===== verification/AesGcm.v ===== *)
(** * AesGcm: the crypto/aes and crypto/cipher calls of Utils

    [utils.EncryptChunk] and [utils.DecryptAndCheck] use [aes.NewCipher],
    [cipher.NewGCM], [Seal] and [Open] of the Go standard library.  They are
    modelled here as executable functions: the AES block cipher of FIPS 197
    with 128, 192 and 256 bit keys, and GCM of NIST SP 800-38D with a 96 bit
    nonce and a 128 bit tag (what [cipher.NewGCM] builds).  The published test
    vectors are evaluated at the end.  The rest of the development uses only
    the laws proved here: the round trip [Open_seal], its converse
    [Open_Ok_inv], and when the calls do not panic. *)

From S2P Require Import Prelude Effects.

(** ** The block cipher *)

Module Aes.

(** Multiplication by [x] in GF(2^8) modulo x^8 + x^4 + x^3 + x + 1. *)
Definition xtime (a : Z) : Z :=
  let b := Z.shiftl a 1 in
  if 256 <=? b then Z.lxor b 0x11b else b.

Fixpoint gmul_loop (n : nat) (a b : Z) : Z :=
  match n with
  | O => 0
  | S n => Z.lxor (if Z.odd b then a else 0) (gmul_loop n (xtime a) (Z.shiftr b 1))
  end.

Definition gmul (a b : Z) : Z := gmul_loop 8 a b.

(** The inverse in GF(2^8): the 254th power. *)
Definition ginv (a : Z) : Z :=
  let a2 := gmul a a in let a4 := gmul a2 a2 in let a8 := gmul a4 a4 in
  let a16 := gmul a8 a8 in let a32 := gmul a16 a16 in
  let a64 := gmul a32 a32 in let a128 := gmul a64 a64 in
  gmul a128 (gmul a64 (gmul a32 (gmul a16 (gmul a8 (gmul a4 a2))))).

Definition rotl8 (a n : Z) : Z :=
  Z.land (Z.lor (Z.shiftl a n) (Z.shiftr a (8 - n))) 255.

Definition sbox_entry (a : Z) : Z :=
  let b := ginv a in
  Z.lxor (Z.lxor (Z.lxor b (rotl8 b 1)) (Z.lxor (rotl8 b 2) (rotl8 b 3)))
    (Z.lxor (rotl8 b 4) 0x63).

(** The substitution table. *)
Definition sbox : list Z :=
  Eval vm_compute in (sbox_entry <$> (Z.of_nat <$> seq 0 256)).

Definition sub (a : Z) : Z := nth (Z.to_nat a) sbox 0.

Definition xor_list (a b : list Z) : list Z := zip_with Z.lxor a b.

(** The key schedule: the words [ws] computed so far, [i] the next index. *)
Fixpoint expand (n : nat) (nk i : nat) (rcon : Z) (ws : list (list Z)) : list (list Z) :=
  match n with
  | O => ws
  | S n =>
      let prev := nth (i - 1) ws [] in
      let back := nth (i - nk) ws [] in
      if Nat.eqb (i mod nk) 0 then
        let rot := drop 1 prev ++ take 1 prev in
        let w := xor_list (xor_list (sub <$> rot) [rcon; 0; 0; 0]) back in
        expand n nk (S i) (xtime rcon) (ws ++ [w])
      else
        let t := if Nat.ltb 6 nk && Nat.eqb (i mod nk) 4 then sub <$> prev else prev in
        expand n nk (S i) rcon (ws ++ [xor_list t back])
  end.

Fixpoint words (n : nat) (k : list Z) : list (list Z) :=
  match n with O => [] | S n => take 4 k :: words n (drop 4 k) end.

(** The round keys of a key of [4 * nk] bytes: [nk + 7] blocks. *)
Definition key_schedule (key : list Z) : list (list Z) :=
  let nk := (length key / 4)%nat in
  let ws := expand (4 * (nk + 7) - nk) nk nk 1 (words nk key) in
  (fun r => concat (take 4 (drop (4 * r) ws))) <$> seq 0 (nk + 7).

Definition shift_rows (s : list Z) : list Z :=
  (fun i => nth (4 * ((i / 4 + i mod 4) mod 4) + i mod 4)%nat s 0) <$> seq 0 16.

Definition mix_column (c : list Z) : list Z :=
  match c with
  | [a; b; c; d] =>
      [ Z.lxor (Z.lxor (xtime a) (Z.lxor (xtime b) b)) (Z.lxor c d);
        Z.lxor (Z.lxor a (xtime b)) (Z.lxor (Z.lxor (xtime c) c) d);
        Z.lxor (Z.lxor a b) (Z.lxor (xtime c) (Z.lxor (xtime d) d));
        Z.lxor (Z.lxor (Z.lxor (xtime a) a) b) (Z.lxor c (xtime d)) ]
  | _ => []
  end.

Definition mix_columns (s : list Z) : list Z :=
  concat ((fun i => mix_column (take 4 (drop (4 * i) s))) <$> seq 0 4).

Fixpoint rounds (rks : list (list Z)) (s : list Z) : list Z :=
  match rks with
  | [] => s
  | [last] => xor_list (shift_rows (sub <$> s)) last
  | rk :: rks => rounds rks (xor_list (mix_columns (shift_rows (sub <$> s))) rk)
  end.

(** [block.Encrypt(dst, src)]: the sixteen bytes of [dst]. *)
Definition Encrypt (rks : list (list Z)) (src : bytes) : bytes :=
  let s := match rks with
           | [] => b2z <$> src
           | rk :: rks => rounds rks (xor_list (b2z <$> src) rk)
           end in
  (fun i => z2b (nth i s 0)) <$> seq 0 16.

End Aes.

(** A [cipher.Block], given by its [Encrypt]. *)
Definition Block : Type := bytes -> bytes.

(** [aes.NewCipher]: AES-128, AES-192 or AES-256 by the length of the key. *)
Definition NewCipher (key : bytes) : res Block :=
  if decide (len key = 16 \/ len key = 24 \/ len key = 32)
  then Ok (let rks := Aes.key_schedule (b2z <$> key) in fun src => Aes.Encrypt rks src)
  else Err (Errorf "crypto/aes: invalid key size %d" [AUint (len key)]).

(** ** Galois/Counter Mode *)

Module Gcm.

(** The integer of a block of at most sixteen bytes, padded with zeros. *)
Definition block_z (b : bytes) : Z :=
  fold_left (fun acc i => acc * 256 + b2z (nth i b Byte.x00)) (seq 0 16) 0.

Definition z_block (z : Z) : bytes :=
  (fun i => z2b (Z.shiftr z (8 * (15 - Z.of_nat i)))) <$> seq 0 16.

(** Multiplication in GF(2^128), the most significant bit first. *)
Fixpoint mul_loop (n : nat) (x v acc : Z) : Z :=
  match n with
  | O => acc
  | S n =>
      let acc := if Z.testbit x (Z.of_nat n) then Z.lxor acc v else acc in
      let v := if Z.odd v then Z.lxor (Z.shiftr v 1) (Z.shiftl 0xe1 120) else Z.shiftr v 1 in
      mul_loop n x v acc
  end.

Definition mul (x y : Z) : Z := mul_loop 128 x y 0.

(** GHASH of the blocks of [data], from the accumulator [acc]. *)
Fixpoint ghash (n : nat) (h acc : Z) (data : bytes) : Z :=
  match n, data with
  | S n, _ :: _ => ghash n h (mul (Z.lxor acc (block_z (take 16 data))) h) (drop 16 data)
  | _, _ => acc
  end.

Definition xor_byte (a b : byte) : byte := z2b (Z.lxor (b2z a) (b2z b)).

Definition xor_bytes (a b : bytes) : bytes := zip_with xor_byte a b.

(** Counter mode from counter value [ctr]. *)
Fixpoint gctr (n : nat) (E : Block) (nonce : bytes) (ctr : Z) (data : bytes) : bytes :=
  match n, data with
  | S n, _ :: _ =>
      xor_bytes (take 16 data) (E (nonce ++ PutUint32 ctr))
      ++ gctr n E nonce (u32 (ctr + 1)) (drop 16 data)
  | _, _ => []
  end.

(** The tag of a ciphertext without additional data. *)
Definition tag (E : Block) (nonce ciphertext : bytes) : bytes :=
  let h := block_z (E (z_block 0)) in
  let s := ghash (length ciphertext) h 0 ciphertext in
  let s := mul (Z.lxor s (8 * len ciphertext)) h in
  xor_bytes (z_block s) (E (nonce ++ PutUint32 1)).

End Gcm.

Definition gcmStandardNonceSize : Z := 12.
Definition gcmTagSize : Z := 16.

(** The largest plaintext: (2^32 - 2) blocks. *)
Definition gcmMaxPlaintext : Z := (2 ^ 32 - 2) * 16.

(** [cipher.NewGCM(block)]; it fails only for a block size other than 16. *)
Definition NewGCM (block : Block) : res Block := Ok block.

(** Ciphertext and tag. *)
Definition seal (gcm : Block) (nonce plaintext : bytes) : bytes :=
  let c := Gcm.gctr (length plaintext) gcm nonce 2 plaintext in
  c ++ Gcm.tag gcm nonce c.

(** [gcm.Seal(nil, nonce, plaintext, nil)]. *)
Definition Seal (gcm : Block) (nonce plaintext : bytes) : prog bytes :=
  if decide (len nonce = gcmStandardNonceSize) then
    if decide (len plaintext <= gcmMaxPlaintext) then Ret (seal gcm nonce plaintext)
    else Halt (Panic "crypto/cipher: message too large for GCM")
  else Halt (Panic "crypto/cipher: incorrect nonce length given to GCM").

Definition errOpen : error := Errorf "cipher: message authentication failed" [].

(** [gcm.Open(nil, nonce, ciphertext, nil)]. *)
Definition Open (gcm : Block) (nonce ciphertext : bytes) : prog (res bytes) :=
  if decide (len nonce = gcmStandardNonceSize) then
    if decide (len ciphertext < gcmTagSize) then Ret (Err errOpen)
    else if decide (gcmMaxPlaintext + gcmTagSize < len ciphertext) then Ret (Err errOpen)
    else
      let n := (length ciphertext - 16)%nat in
      let c := take n ciphertext in
      if decide (Gcm.tag gcm nonce c = drop n ciphertext)
      then Ret (Ok (Gcm.gctr (length c) gcm nonce 2 c))
      else Ret (Err errOpen)
  else Halt (Panic "crypto/cipher: incorrect nonce length given to GCM").

(** ** Laws *)

Lemma lxor_byte_range (a b : byte) : 0 <= Z.lxor (b2z a) (b2z b) < 256.
Proof.
  pose proof (b2z_range a). pose proof (b2z_range b). split.
  - apply Z.lxor_nonneg. lia.
  - destruct (decide (Z.lxor (b2z a) (b2z b) = 0)) as [->|Hne]; [lia|].
    assert (0 <= Z.lxor (b2z a) (b2z b)) by (apply Z.lxor_nonneg; lia).
    apply (Z.log2_lt_pow2 _ 8); [lia|].
    eapply Z.le_lt_trans; [apply Z.log2_lxor; lia|].
    apply Z.max_lub_lt.
    + destruct (decide (b2z a = 0)) as [->|]; [done|]. apply Z.log2_lt_pow2; lia.
    + destruct (decide (b2z b = 0)) as [->|]; [done|]. apply Z.log2_lt_pow2; lia.
Qed.

Lemma xor_byte_involutive (a b : byte) : Gcm.xor_byte (Gcm.xor_byte a b) b = a.
Proof.
  apply b2z_inj. unfold Gcm.xor_byte.
  rewrite b2z_z2b, b2z_z2b, (Z.mod_small (Z.lxor (b2z a) _)) by apply lxor_byte_range.
  rewrite Z.lxor_assoc, Z.lxor_nilpotent, Z.lxor_0_r. apply Z.mod_small, b2z_range.
Qed.

Lemma xor_bytes_involutive (a b : bytes) :
  (length a <= length b)%nat -> Gcm.xor_bytes (Gcm.xor_bytes a b) b = a.
Proof.
  unfold Gcm.xor_bytes. revert b. induction a as [|x a IH]; intros [|y b] H; simpl in *; try done.
  - lia.
  - by rewrite xor_byte_involutive, IH by lia.
Qed.

Lemma length_xor_bytes (a b : bytes) :
  length (Gcm.xor_bytes a b) = Nat.min (length a) (length b).
Proof. apply length_zip_with. Qed.

(** A block cipher that returns sixteen bytes. *)
Definition block16 (E : Block) : Prop := forall src, length (E src) = 16%nat.

Lemma NewCipher_32 (key : bytes) :
  len key = 32 -> exists E, NewCipher key = Ok E /\ block16 E.
Proof.
  intros Hk. unfold NewCipher. rewrite decide_True by lia.
  eexists. split; [done|]. intros src. unfold Aes.Encrypt. by rewrite length_fmap, length_seq.
Qed.

Lemma NewCipher_block16 (key : bytes) (E : Block) : NewCipher key = Ok E -> block16 E.
Proof.
  unfold NewCipher. case_decide; intros [= <-]. intros src. unfold Aes.Encrypt.
  by rewrite length_fmap, length_seq.
Qed.

(** Two pieces with the lengths of a split at 16 are split at 16 again. *)
Lemma split16 {A} (d x r : list A) :
  length x = length (take 16 d) -> length r = length (drop 16 d) ->
  take 16 (x ++ r) = x /\ drop 16 (x ++ r) = r.
Proof.
  rewrite length_take, length_drop. intros Hx Hr.
  destruct (decide (16 <= length d)%nat).
  - by rewrite take_app_len, drop_app_len by lia.
  - assert (r = []) as -> by (apply length_zero_iff_nil; lia).
    rewrite app_nil_r, take_ge, drop_ge by lia. done.
Qed.

Section gcm.
Context (E : Block) (HE : block16 E).

Lemma gctr_step n nonce ctr data :
  data <> [] ->
  Gcm.gctr (S n) E nonce ctr data =
  Gcm.xor_bytes (take 16 data) (E (nonce ++ PutUint32 ctr))
  ++ Gcm.gctr n E nonce (u32 (ctr + 1)) (drop 16 data).
Proof. by destruct data. Qed.

Lemma length_xor_block data src :
  length (Gcm.xor_bytes (take 16 data) (E src)) = length (take 16 data).
Proof using HE. rewrite length_xor_bytes, HE, length_take. lia. Qed.

Lemma length_gctr n nonce ctr data :
  (length data <= n)%nat -> length (Gcm.gctr n E nonce ctr data) = length data.
Proof using HE.
  revert ctr data. induction n as [|n IH]; intros ctr data H.
  { by destruct data; simpl in *; [|lia]. }
  destruct (decide (data = [])) as [->|Hne]; [done|].
  rewrite gctr_step, length_app, length_xor_block, IH by (rewrite ?length_drop; done || lia).
  by rewrite <-length_app, take_drop.
Qed.

Lemma gctr_involutive n nonce ctr data :
  (length data <= n)%nat ->
  Gcm.gctr n E nonce ctr (Gcm.gctr n E nonce ctr data) = data.
Proof using HE.
  revert ctr data. induction n as [|n IH]; intros ctr data H.
  { by destruct data; simpl in *; [|lia]. }
  destruct (decide (data = [])) as [->|Hne]; [done|].
  rewrite (gctr_step n nonce ctr data) by done.
  set (x := Gcm.xor_bytes _ _). set (r := Gcm.gctr n E nonce _ _).
  assert (Hd : (length (drop 16 data) <= n)%nat).
  { rewrite length_drop. lia. }
  destruct (split16 data x r) as [Hx Hr].
  { apply length_xor_block. }
  { by apply length_gctr. }
  rewrite gctr_step, Hx, Hr.
  - unfold r, x. rewrite IH, xor_bytes_involutive; [apply take_drop| |done].
    rewrite HE, length_take. lia.
  - intros [Hnil _]%app_eq_nil. apply (f_equal length) in Hnil. unfold x in Hnil.
    rewrite length_xor_block, length_take in Hnil. destruct data; simpl in *; [done|lia].
Qed.

Lemma length_tag nonce c : length (Gcm.tag E nonce c) = 16%nat.
Proof using HE.
  unfold Gcm.tag. rewrite length_xor_bytes, HE. unfold Gcm.z_block.
  rewrite length_fmap, length_seq. done.
Qed.

Lemma len_seal nonce plaintext : len (seal E nonce plaintext) = len plaintext + 16.
Proof using HE.
  unfold seal. rewrite len_app. unfold len. rewrite length_tag, length_gctr by done. lia.
Qed.

(** Decryption inverts encryption. *)
Lemma Open_seal nonce plaintext :
  len nonce = 12 -> len plaintext <= gcmMaxPlaintext ->
  Open E nonce (seal E nonce plaintext) = Ret (Ok plaintext).
Proof using HE.
  intros Hn Hp. unfold Open, gcmTagSize. rewrite len_seal.
  pose proof (len_nonneg plaintext).
  rewrite decide_True, !decide_False by (unfold gcmStandardNonceSize; lia).
  unfold seal. set (c := Gcm.gctr _ _ _ _ _).
  assert (Hc : length c = length plaintext) by by apply length_gctr.
  assert (length (c ++ Gcm.tag E nonce c) - 16 = length c)%nat as ->.
  { rewrite length_app, length_tag. lia. }
  rewrite take_app_length, drop_app_length, decide_True by done.
  unfold c at 2. rewrite Hc, gctr_involutive by done. done.
Qed.

(** What opens was sealed: an accepted ciphertext is the encryption of the
    plaintext it opens to. *)
Lemma Open_Ok_inv nonce ciphertext plaintext :
  Open E nonce ciphertext = Ret (Ok plaintext) -> ciphertext = seal E nonce plaintext.
Proof using HE.
  unfold Open, gcmTagSize. repeat case_decide; intros [= <-].
  set (n := (length ciphertext - 16)%nat) in *.
  unfold seal. rewrite length_gctr by done. rewrite gctr_involutive by done.
  rewrite H2. symmetry. apply take_drop.
Qed.

Lemma Open_returns nonce ciphertext :
  len nonce = 12 -> exists r, Open E nonce ciphertext = Ret r.
Proof.
  intros Hn. unfold Open. rewrite decide_True by done. repeat case_decide; eauto.
Qed.

Lemma Seal_seal nonce plaintext :
  len nonce = 12 -> len plaintext <= gcmMaxPlaintext ->
  Seal E nonce plaintext = Ret (seal E nonce plaintext).
Proof. intros Hn Hp. unfold Seal. by rewrite !decide_True. Qed.

End gcm.

(** ** Test vectors *)

(** FIPS 197, appendix C.3 (AES-256). *)
Example aes256_fips197 :
  match NewCipher ((fun i => z2b (Z.of_nat i)) <$> seq 0 32) with
  | Ok E => b2z <$> E ((fun i => z2b (17 * Z.of_nat i)) <$> seq 0 16)
  | Err _ => []
  end = [0x8e; 0xa2; 0xb7; 0xca; 0x51; 0x67; 0x45; 0xbf;
         0xea; 0xfc; 0x49; 0x90; 0x4b; 0x49; 0x60; 0x89].
Proof. vm_compute. reflexivity. Qed.

(** GCM specification, test case 14 (AES-256, one zero block). *)
Example gcm_test_case_14 :
  match NewCipher (repeat Byte.x00 32) with
  | Ok E => b2z <$> seal E (repeat Byte.x00 12) (repeat Byte.x00 16)
  | Err _ => []
  end = [0xce; 0xa7; 0x40; 0x3d; 0x4d; 0x60; 0x6b; 0x6e;
         0x07; 0x4e; 0xc5; 0xd3; 0xba; 0xf3; 0x9d; 0x18;
         0xd0; 0xd1; 0xc8; 0xa7; 0x99; 0x99; 0x6b; 0xf0;
         0x26; 0x5b; 0x98; 0xb5; 0xd4; 0x8a; 0xb9; 0x19].
Proof. vm_compute. reflexivity. Qed.

#[global] Arguments NewCipher : simpl never.
#[global] Arguments Seal : simpl never.
#[global] Arguments Open : simpl never.
#[global] Arguments seal : simpl never.
