(* ===== verification/Protocol.v ===== *)
(** * Protocol: package protocol

    [MetaData], [Chunk] and the constants of Protocol/protocol.go, the transfer
    states and their transition table of Protocol/state.go, [Session] with its
    methods of Protocol/session.go, and the driver loop [Run] of
    Protocol/fsm.go.  The stream a session talks to ([Session.Conn]) is the one
    stream of the operations of [Effects].  The methods are functions here; that
    this is right under the mutex [Session.mu] is shown in [Mutex], and what
    they log is in [Log]. *)

From S2P Require Import Prelude Effects.

(** ** Protocol/protocol.go *)

Record MetaData := mkMetaData {
  md_Name : string;
  md_FileSize : Z;   (* uint32 *)
  md_Reps : Z;       (* uint32 *)
  md_FileID : bytes
}.

Record Chunk := mkChunk {
  c_FileID : bytes;
  c_Index : Z;       (* uint32 *)
  c_Length : Z;      (* uint32 *)
  c_Plaintext : bytes;
  c_Ciphertext : bytes;
  c_Key : bytes;
  c_Nonce : bytes;
  c_HResp : bytes;
  c_Leaf : bytes
}.

Definition NewChunk (fileID : bytes) (index : Z) (data : bytes) : Chunk :=
  {| c_FileID := fileID; c_Index := index; c_Length := u32 (len data);
     c_Plaintext := data; c_Ciphertext := []; c_Key := []; c_Nonce := [];
     c_HResp := []; c_Leaf := [] |}.

(** Assignments to one field of a chunk. *)
Definition set_Key (c : Chunk) (k : bytes) : Chunk :=
  {| c_FileID := c_FileID c; c_Index := c_Index c; c_Length := c_Length c;
     c_Plaintext := c_Plaintext c; c_Ciphertext := c_Ciphertext c; c_Key := k;
     c_Nonce := c_Nonce c; c_HResp := c_HResp c; c_Leaf := c_Leaf c |}.
Definition set_Nonce (c : Chunk) (n : bytes) : Chunk :=
  {| c_FileID := c_FileID c; c_Index := c_Index c; c_Length := c_Length c;
     c_Plaintext := c_Plaintext c; c_Ciphertext := c_Ciphertext c; c_Key := c_Key c;
     c_Nonce := n; c_HResp := c_HResp c; c_Leaf := c_Leaf c |}.
Definition set_Ciphertext (c : Chunk) (ct : bytes) : Chunk :=
  {| c_FileID := c_FileID c; c_Index := c_Index c; c_Length := c_Length c;
     c_Plaintext := c_Plaintext c; c_Ciphertext := ct; c_Key := c_Key c;
     c_Nonce := c_Nonce c; c_HResp := c_HResp c; c_Leaf := c_Leaf c |}.
Definition set_Plaintext (c : Chunk) (p : bytes) : Chunk :=
  {| c_FileID := c_FileID c; c_Index := c_Index c; c_Length := c_Length c;
     c_Plaintext := p; c_Ciphertext := c_Ciphertext c; c_Key := c_Key c;
     c_Nonce := c_Nonce c; c_HResp := c_HResp c; c_Leaf := c_Leaf c |}.
Definition set_HResp (c : Chunk) (h : bytes) : Chunk :=
  {| c_FileID := c_FileID c; c_Index := c_Index c; c_Length := c_Length c;
     c_Plaintext := c_Plaintext c; c_Ciphertext := c_Ciphertext c; c_Key := c_Key c;
     c_Nonce := c_Nonce c; c_HResp := h; c_Leaf := c_Leaf c |}.
Definition set_Leaf (c : Chunk) (l : bytes) : Chunk :=
  {| c_FileID := c_FileID c; c_Index := c_Index c; c_Length := c_Length c;
     c_Plaintext := c_Plaintext c; c_Ciphertext := c_Ciphertext c; c_Key := c_Key c;
     c_Nonce := c_Nonce c; c_HResp := c_HResp c; c_Leaf := l |}.

(** [HOST], [TYPE] and [FILE_TO_BE_TRANSFERRED] are of the TCP version and used nowhere. *)
Definition HOST : string := "0.0.0.0".
Definition PORT : string := "9001".
Definition TYPE : string := "tcp".
Definition FILE_TO_BE_TRANSFERRED : string :=
  "/home/tushar/Cipher/file_transfer_using_tcp/File_to_be_sent/trial.png".
Definition KeySize : Z := 32.
Definition NonceSize : Z := 12.
Definition HashSize : Z := 32.
Definition ChunkSize : Z := 32768.

(** ** Protocol/state.go *)

Inductive TransferState : Type :=
| StateIdle
| StateSendHeader
| StateReceiveHeader
| StateWaitingChunkRequest
| StateSendChunkResponse
| StateWaitingLotteryTicket
| StateSendKeyReveal
| StateSendChunkRequest
| StateWaitingChunkResponse
| StateSendLotteryTicket
| StateWaitingKeyReveal
| StateVerifyChunk
| StateVerifyMerkle
| StateFinished
| StateError.

#[global] Instance TransferState_eq_dec : EqDecision TransferState.
Proof. solve_decision. Defined.

(** Lookup in a Go map literal: the value of the key, if it has one. *)
Fixpoint map_get {A} (m : list (TransferState * A)) (k : TransferState) : option A :=
  match m with
  | [] => None
  | (k', v) :: m => if bool_decide (k' = k) then Some v else map_get m k
  end.

Definition validTransitions : list (TransferState * list TransferState) :=
  [ (StateIdle, [StateSendHeader; StateReceiveHeader]);
    (StateSendHeader, [StateWaitingChunkRequest; StateFinished]);
    (StateWaitingChunkRequest, [StateSendChunkResponse]);
    (StateSendChunkResponse, [StateWaitingLotteryTicket]);
    (StateWaitingLotteryTicket, [StateSendKeyReveal]);
    (StateSendKeyReveal, [StateWaitingChunkRequest; StateVerifyMerkle]);
    (StateReceiveHeader, [StateSendChunkRequest; StateFinished]);
    (StateSendChunkRequest, [StateWaitingChunkResponse]);
    (StateWaitingChunkResponse, [StateSendLotteryTicket]);
    (StateSendLotteryTicket, [StateWaitingKeyReveal]);
    (StateWaitingKeyReveal, [StateVerifyChunk]);
    (StateVerifyChunk, [StateSendChunkRequest; StateVerifyMerkle]);
    (StateVerifyMerkle, [StateFinished]);
    (StateFinished, []);
    (StateError, []) ].

Definition state_names : list (TransferState * string) :=
  [ (StateIdle, "Idle");
    (StateSendHeader, "SendHeader");
    (StateReceiveHeader, "ReceiveHeader");
    (StateWaitingChunkRequest, "WaitingChunkRequest");
    (StateSendChunkResponse, "SendChunkResponse");
    (StateWaitingLotteryTicket, "WaitingLotteryTicket");
    (StateSendKeyReveal, "SendKeyReveal");
    (StateSendChunkRequest, "SendChunkRequest");
    (StateWaitingChunkResponse, "WaitingChunkResponse");
    (StateSendLotteryTicket, "SendLotteryTicket");
    (StateWaitingKeyReveal, "WaitingKeyReveal");
    (StateVerifyChunk, "VerifyChunk");
    (StateVerifyMerkle, "VerifyMerkle");
    (StateFinished, "Finished");
    (StateError, "Error") ]%string.

Definition TransferState_String (t : TransferState) : string :=
  default "Unknown"%string (map_get state_names t).

(** ** Protocol/session.go *)

Inductive Role : Type := RoleSender | RoleReceiver.

Record Session := mkSession {
  s_state : TransferState;
  s_Role : Role;
  s_FileID : bytes;
  s_FileName : string;
  s_FileSize : Z;      (* uint64 *)
  s_ChunkSize : Z;     (* uint32 *)
  s_CurrentChunk : Z;  (* uint32 *)
  s_TotalChunks : Z;   (* uint32 *)
  s_File : option handle;
  s_PendingChunk : option Chunk;
  s_Leaves : list bytes
}.

(** Assignments to fields of a session. *)
Definition set_state (s : Session) (t : TransferState) : Session :=
  {| s_state := t; s_Role := s_Role s; s_FileID := s_FileID s; s_FileName := s_FileName s;
     s_FileSize := s_FileSize s; s_ChunkSize := s_ChunkSize s;
     s_CurrentChunk := s_CurrentChunk s; s_TotalChunks := s_TotalChunks s;
     s_File := s_File s; s_PendingChunk := s_PendingChunk s; s_Leaves := s_Leaves s |}.
Definition set_CurrentChunk (s : Session) (i : Z) : Session :=
  {| s_state := s_state s; s_Role := s_Role s; s_FileID := s_FileID s; s_FileName := s_FileName s;
     s_FileSize := s_FileSize s; s_ChunkSize := s_ChunkSize s;
     s_CurrentChunk := i; s_TotalChunks := s_TotalChunks s;
     s_File := s_File s; s_PendingChunk := s_PendingChunk s; s_Leaves := s_Leaves s |}.
Definition set_File (s : Session) (f : handle) : Session :=
  {| s_state := s_state s; s_Role := s_Role s; s_FileID := s_FileID s; s_FileName := s_FileName s;
     s_FileSize := s_FileSize s; s_ChunkSize := s_ChunkSize s;
     s_CurrentChunk := s_CurrentChunk s; s_TotalChunks := s_TotalChunks s;
     s_File := Some f; s_PendingChunk := s_PendingChunk s; s_Leaves := s_Leaves s |}.
(** [s.FileID], [s.FileName], [s.FileSize] and [s.TotalChunks] from a header. *)
Definition set_header (s : Session) (fileID : bytes) (name : string) (size reps : Z) : Session :=
  {| s_state := s_state s; s_Role := s_Role s; s_FileID := fileID; s_FileName := name;
     s_FileSize := size; s_ChunkSize := s_ChunkSize s;
     s_CurrentChunk := s_CurrentChunk s; s_TotalChunks := reps;
     s_File := s_File s; s_PendingChunk := s_PendingChunk s; s_Leaves := s_Leaves s |}.
Definition set_PendingChunk (s : Session) (c : option Chunk) : Session :=
  {| s_state := s_state s; s_Role := s_Role s; s_FileID := s_FileID s; s_FileName := s_FileName s;
     s_FileSize := s_FileSize s; s_ChunkSize := s_ChunkSize s;
     s_CurrentChunk := s_CurrentChunk s; s_TotalChunks := s_TotalChunks s;
     s_File := s_File s; s_PendingChunk := c; s_Leaves := s_Leaves s |}.
Definition set_Leaves (s : Session) (l : list bytes) : Session :=
  {| s_state := s_state s; s_Role := s_Role s; s_FileID := s_FileID s; s_FileName := s_FileName s;
     s_FileSize := s_FileSize s; s_ChunkSize := s_ChunkSize s;
     s_CurrentChunk := s_CurrentChunk s; s_TotalChunks := s_TotalChunks s;
     s_File := s_File s; s_PendingChunk := s_PendingChunk s; s_Leaves := l |}.

Definition NewSession (role : Role) : Session :=
  {| s_state := StateIdle; s_Role := role; s_FileID := []; s_FileName := ""%string;
     s_FileSize := 0; s_ChunkSize := ChunkSize; s_CurrentChunk := 0; s_TotalChunks := 0;
     s_File := None; s_PendingChunk := None; s_Leaves := [] |}.

Definition GetState (s : Session) : TransferState := s_state s.

(** [for _, st := range validTransitions[current] { if st == next ... }]; a key
    that is not in the map has no allowed next state. *)
Definition isAllowed (current next : TransferState) : bool :=
  existsb (fun st => bool_decide (st = next)) (default [] (map_get validTransitions current)).

Definition Transition (s : Session) (next : TransferState) : Session * option error :=
  if negb (isAllowed (s_state s) next)
  then (s, Some (Errorf "illegal transition %s -> %s"
                   [AString (TransferState_String (s_state s));
                    AString (TransferState_String next)]))
  else (set_state s next, None).

Definition AdvanceChunk (s : Session) : Session :=
  set_CurrentChunk s (u32 (s_CurrentChunk s + 1)).

Definition IsLastChunk (s : Session) : bool :=
  (0 <? s_TotalChunks s) && (s_CurrentChunk s =? u32 (s_TotalChunks s - 1)).

Definition Fail (s : Session) (err : error) : Session * error :=
  (set_state s StateError, err).

(** ** Protocol/fsm.go *)

(** A step gets the session and returns it as it leaves it, with the next
    state or an error. *)
Definition Step : Type := Session -> prog (Session * res TransferState).

Definition StepTable : Type := list (TransferState * Step).

(** One iteration of the loop of [Run]: the session, and the value returned
    when the iteration returns from [Run] ([Some None] is [return nil]). *)
Definition RunIter (s : Session) (steps : StepTable)
    : prog (Session * option (option error)) :=
  let current := GetState s in
  if bool_decide (current = StateFinished) then Ret (s, Some None) else
  if bool_decide (current = StateError) then
    Ret (s, Some (Some (Errorf "session is in error state" []))) else
  match map_get steps current with
  | None =>
      let '(s, e) := Fail s (Errorf "no step registered for state %s"
                               [AString (TransferState_String current)]) in
      Ret (s, Some (Some e))
  | Some step =>
      let! (s, r) := step s in
      match r with
      | Err err =>
          let '(s, e) := Fail s (Errorf "step %s failed: %w"
                                   [AString (TransferState_String current); AError err]) in
          Ret (s, Some (Some e))
      | Ok next =>
          match Transition s next with
          | (s, Some err) => let '(s, e) := Fail s err in Ret (s, Some (Some e))
          | (s, None) => Ret (s, None)
          end
      end
  end.

(** [Run]: the session at the end and the error returned ([None] is [nil]). *)
Fixpoint Run (fuel : nat) (s : Session) (steps : StepTable)
    : prog (Session * option error) :=
  match fuel with
  | O => Halt OutOfFuel
  | S fuel =>
      let! (s, r) := RunIter s steps in
      match r with
      | Some e => Ret (s, e)
      | None => Run fuel s steps
      end
  end.
