(* ===== verification/Utils.v ===== *)
(** * Utils: package utils

    Hashing, key generation, and the encryption and commitment check of a
    chunk (Utils/utils.go).  Keccak-256 comes from the module
    golang.org/x/crypto, so the hash of a message is a parameter: class
    [LegacyKeccak256] is the function computed by [sha3.NewLegacyKeccak256],
    class [LegacyKeccak256Spec] the documented size of its output. *)

From S2P Require Import Prelude Effects AesGcm Protocol.

(** The hash of everything written to a [sha3.NewLegacyKeccak256] hasher. *)
Class LegacyKeccak256 : Type := keccak256 : bytes -> bytes.

Class LegacyKeccak256Spec `{LegacyKeccak256} : Prop :=
  keccak256_size : forall m, len (keccak256 m) = 32.

Section utils.
Context `{LegacyKeccak256}.

(** [Keccak(data ...[]byte)]: each piece is written to the hasher in turn. *)
Definition Keccak (data : list bytes) : bytes := keccak256 (concat data).

Definition GenerateRandomKey : prog (res bytes) :=
  let? key := perform (ORand KeySize) orelse err => Err err in
  Ret (Ok key).

Definition ComputeResponseCommitment (chunk : Chunk) : bytes :=
  Keccak [c_Key chunk; c_Plaintext chunk].

(** The chunk after the call with [nil], or the error; a chunk is mutated only
    on the path that returns [nil] or after the nonce was drawn. *)
Definition EncryptChunk (chunk : Chunk) : prog (res Chunk) :=
  let NonceSize := NonceSize in
  match NewCipher (c_Key chunk) with
  | Err err => Ret (Err err)
  | Ok block =>
      match NewGCM block with
      | Err err => Ret (Err err)
      | Ok gcm =>
          let? nonce := perform (ORand NonceSize) orelse err => Err err in
          let chunk := set_Nonce chunk nonce in
          let! ciphertext := Seal gcm nonce (c_Plaintext chunk) in
          let chunk := set_Ciphertext chunk ciphertext in
          Ret (Ok chunk)
      end
  end.

Definition bytesEqual (a b : bytes) : bool := bool_decide (a = b).

(** The chunk as the call leaves it, and the plaintext or the error. *)
Definition DecryptAndCheck (chunk : Chunk) : prog (Chunk * res bytes) :=
  match NewCipher (c_Key chunk) with
  | Err err => Ret (chunk, Err err)
  | Ok block =>
      match NewGCM block with
      | Err err => Ret (chunk, Err err)
      | Ok gcm =>
          let? plaintext := Open gcm (c_Nonce chunk) (c_Ciphertext chunk)
            orelse err => (chunk, Err err) in
          let chunk := set_Plaintext chunk plaintext in
          let gotCommitment := ComputeResponseCommitment chunk in
          if negb (bytesEqual gotCommitment (c_HResp chunk)) then
            Ret (chunk, Err (Errorf
              "H_resp mismatch on chunk %d: sender revealed a key/plaintext that doesn't match its earlier commitment (got %x, want %x)"
              [AUint (c_Index chunk); ABytes gotCommitment; ABytes (c_HResp chunk)]))
          else Ret (chunk, Ok plaintext)
      end
  end.

(** ** Lemmas *)

Lemma Keccak_size `{!LegacyKeccak256Spec} ds : len (Keccak ds) = HashSize.
Proof. apply keccak256_size. Qed.

(** With a 32 byte key and a 12 byte nonce the check returns, and what it
    accepts is a ciphertext of the plaintext it returns, under the committed
    key and plaintext. *)
Lemma DecryptAndCheck_returns (c : Chunk) :
  len (c_Key c) = KeySize -> len (c_Nonce c) = NonceSize ->
  exists c' r, DecryptAndCheck c = Ret (c', r) /\
    forall pt, r = Ok pt -> c' = set_Plaintext c pt /\
      c_HResp c = Keccak [c_Key c; pt] /\
      exists E, NewCipher (c_Key c) = Ok E /\ c_Ciphertext c = seal E (c_Nonce c) pt.
Proof.
  intros Hk Hn. unfold DecryptAndCheck.
  destruct (NewCipher_32 _ Hk) as (E & HE & HE16). rewrite HE. cbn [NewGCM].
  destruct (Open_returns E (c_Nonce c) (c_Ciphertext c) Hn) as [[pt|e] HO]; rewrite HO; cbn [bind].
  - unfold bytesEqual. case_bool_decide as Heq; cbn [negb].
    + eexists _, _. split; [done|]. intros pt' [= <-]. split_and!; [done|by symmetry|].
      exists E. split; [done|]. by apply Open_Ok_inv.
    + eexists _, _. split; [done|]. done.
  - eexists _, _. split; [done|]. done.
Qed.

(** The honest case: a sealed chunk with its commitment is accepted. *)
Lemma DecryptAndCheck_sealed (c : Chunk) E pt :
  NewCipher (c_Key c) = Ok E -> len (c_Nonce c) = NonceSize -> len pt <= gcmMaxPlaintext ->
  c_Ciphertext c = seal E (c_Nonce c) pt -> c_HResp c = Keccak [c_Key c; pt] ->
  DecryptAndCheck c = Ret (set_Plaintext c pt, Ok pt).
Proof.
  intros HE Hn Hpt Hct Hh. unfold DecryptAndCheck. rewrite HE. cbn [NewGCM].
  rewrite Hct, Open_seal by (done || by eapply NewCipher_block16). cbn [bind].
  unfold bytesEqual. rewrite bool_decide_true by (by symmetry). done.
Qed.

End utils.

#[global] Arguments DecryptAndCheck : simpl never.
