(* ===== verification/Keccak256.v ===== *)
(** * Keccak256: an instance of the hash parameter

    Theorems of the development hold for every hash of 32 bytes.  This file
    shows that the parameter has the instance that is meant: Keccak-256 with
    the original padding (domain byte 0x01), as an executable function on
    1600-bit states of 25 lanes. *)

From S2P Require Import Prelude Utils.

Definition lane (s : list Z) (i : nat) : Z := nth i s 0.

Definition rotl64 (a n : Z) : Z := u64 (Z.lor (Z.shiftl a n) (Z.shiftr a (64 - n))).

(** The lane (x, y) is at x + 5y. *)
Definition at_xy (x y : nat) : nat := (x mod 5 + 5 * (y mod 5))%nat.

Definition rho_offsets : list Z :=
  [0; 1; 62; 28; 27; 36; 44; 6; 55; 20; 3; 10; 43; 25; 39; 41; 45; 15; 21; 8; 18; 2; 61; 56; 14].

Definition theta (s : list Z) : list Z :=
  let c x := foldr Z.lxor 0 ((fun y => lane s (at_xy x y)) <$> seq 0 5) in
  let cs := c <$> seq 0 5 in
  let d x := Z.lxor (lane cs ((x + 4) mod 5)) (rotl64 (lane cs ((x + 1) mod 5)) 1) in
  let ds := d <$> seq 0 5 in
  (fun i => Z.lxor (lane s i) (lane ds (i mod 5))) <$> seq 0 25.

(** The lane at (x, y) moves to (y, 2x + 3y), rotated; [i] is the new place. *)
Definition rho_pi (s : list Z) : list Z :=
  (fun i => let y := (i mod 5)%nat in
            let x := ((i / 5 + 2 * y) * 3 mod 5)%nat in
            rotl64 (lane s (at_xy x y)) (lane rho_offsets (at_xy x y))) <$> seq 0 25.

Definition chi (s : list Z) : list Z :=
  (fun i => let x := (i mod 5)%nat in let y := (i / 5)%nat in
            Z.lxor (lane s i) (Z.land (Z.lxor (lane s (at_xy (x + 1) y)) (2 ^ 64 - 1))
                                      (lane s (at_xy (x + 2) y)))) <$> seq 0 25.

Definition round_constants : list Z :=
  [0x1; 0x8082; 0x800000000000808A; 0x8000000080008000; 0x808B; 0x80000001; 0x8000000080008081;
   0x8000000000008009; 0x8A; 0x88; 0x80008009; 0x8000000A; 0x8000808B; 0x800000000000008B;
   0x8000000000008089; 0x8000000000008003; 0x8000000000008002; 0x8000000000000080; 0x800A;
   0x800000008000000A; 0x8000000080008081; 0x8000000000008080; 0x80000001; 0x8000000080008008].

Definition keccak_round (s : list Z) (rc : Z) : list Z :=
  match chi (rho_pi (theta s)) with
  | l0 :: s => Z.lxor l0 rc :: s
  | [] => []
  end.

Definition keccak_f (s : list Z) : list Z := foldl keccak_round s round_constants.

(** The value of bytes, the first one least significant. *)
Definition le_value (b : bytes) : Z := foldr (fun x acc => b2z x + 256 * acc) 0 b.

Definition le_bytes8 (z : Z) : bytes := (fun i => z2b (Z.shiftr z (8 * Z.of_nat i))) <$> seq 0 8.

Definition block_lanes (b : bytes) : list Z :=
  (fun i => le_value (take 8 (drop (8 * i) b))) <$> seq 0 25.

Definition rate : nat := 136.

Definition pad (m : bytes) : bytes :=
  let n := (rate - length m mod rate)%nat in
  if decide (n = 1)%nat then m ++ [Byte.x81]
  else m ++ [Byte.x01] ++ replicate (n - 2) Byte.x00 ++ [Byte.x80].

Fixpoint absorb (fuel : nat) (s : list Z) (m : bytes) : list Z :=
  match fuel with
  | O => s
  | S fuel => absorb fuel (keccak_f (zip_with Z.lxor s (block_lanes (take rate m)))) (drop rate m)
  end.

(** The hash: the number of blocks of the padded message bounds the loop. *)
Definition Keccak256 (m : bytes) : bytes :=
  let p := pad m in
  let s := absorb (length p / rate) (replicate 25 0) p in
  le_bytes8 (lane s 0) ++ le_bytes8 (lane s 1) ++ le_bytes8 (lane s 2) ++ le_bytes8 (lane s 3).

(** The published digests of the empty message and of abc. *)
Example Keccak256_empty :
  b2z <$> Keccak256 [] =
  [0xc5; 0xd2; 0x46; 0x01; 0x86; 0xf7; 0x23; 0x3c; 0x92; 0x7e; 0x7d; 0xb2; 0xdc; 0xc7; 0x03; 0xc0;
   0xe5; 0x00; 0xb6; 0x53; 0xca; 0x82; 0x27; 0x3b; 0x7b; 0xfa; 0xd8; 0x04; 0x5d; 0x85; 0xa4; 0x70].
Proof. vm_compute. reflexivity. Qed.

Example Keccak256_abc :
  b2z <$> Keccak256 [Byte.x61; Byte.x62; Byte.x63] =
  [0x4e; 0x03; 0x65; 0x7a; 0xea; 0x45; 0xa9; 0x4f; 0xc7; 0xd4; 0x7b; 0xa8; 0x26; 0xc8; 0xd6; 0x67;
   0xc0; 0xd1; 0xe6; 0xe3; 0x3a; 0x64; 0xa0; 0x36; 0xec; 0x44; 0xf5; 0x8f; 0xa1; 0x2d; 0x6c; 0x45].
Proof. vm_compute. reflexivity. Qed.

Definition Keccak256_instance : LegacyKeccak256 := Keccak256.

Lemma Keccak256_spec : @LegacyKeccak256Spec Keccak256_instance.
Proof. intros m. unfold Keccak256_instance, keccak256, Keccak256. by rewrite !len_app. Qed.
