(* ===== verification/Merkle.v ===== *)
(** * Merkle: package merkle

    The leaf of a chunk, the Merkle tree over a list of leaves as the list of
    its levels, and its root (Merkle/merkle.go).  The loops are the source's
    index loops; [pair_up] is the recursive reference of one level. *)

From S2P Require Import Prelude Effects Protocol Utils.

Section merkle.
Context `{LegacyKeccak256}.

Definition GenerateLeaf (chunk : Chunk) : bytes :=
  let index := PutUint32 (c_Index chunk) in
  Keccak [c_FileID chunk; index; c_Nonce chunk; c_Ciphertext chunk; c_HResp chunk].

(** The loop [for i := 0; i < len(current); i += 2] that appends to [next]. *)
Fixpoint level_loop (fuel : nat) (current : list bytes) (i : nat) (next : list bytes)
    : list bytes :=
  match fuel with
  | O => next
  | S fuel =>
      if decide (i < length current)%nat then
        let left := nth i current [] in
        let right := if decide (i + 1 < length current)%nat
                     then nth (i + 1) current [] else nth i current [] in
        level_loop fuel current (i + 2) (next ++ [Keccak [left; right]])
      else next
  end.

Definition next_level (current : list bytes) : list bytes :=
  level_loop (length current) current 0 [].

(** The loop [for len(current) > 1]: the levels above [current]. *)
Fixpoint levels_above (fuel : nat) (current : list bytes) : list (list bytes) :=
  match fuel with
  | O => []
  | S fuel =>
      if decide (1 < length current)%nat then
        let next := next_level current in
        next :: levels_above fuel next
      else []
  end.

(** Each level is at most half (rounded up) of the one below, so the number of
    leaves bounds the number of levels. *)
Definition BuildTree (leaves : list bytes) : list (list bytes) :=
  if decide (length leaves = 0)%nat then []
  else leaves :: levels_above (length leaves) leaves.

(** [None] is the panic of [lastLevel[0]] on an empty level; a tree without
    levels has the root [nil]. *)
Definition Root_of_tree (tree : list (list bytes)) : option bytes :=
  match last tree with
  | None => Some []
  | Some lastLevel => head lastLevel
  end.

(** ** The reference: one level by recursion *)

(** The messages hashed to get from a level to the next one. *)
Fixpoint pair_msgs (l : list bytes) : list bytes :=
  match l with
  | x :: y :: rest => (x ++ y) :: pair_msgs rest
  | [x] => [x ++ x]
  | [] => []
  end.

Definition pair_up (l : list bytes) : list bytes := keccak256 <$> pair_msgs l.

(** All messages hashed by [BuildTree], level by level. *)
Fixpoint tree_msgs (fuel : nat) (current : list bytes) : list bytes :=
  match fuel with
  | O => []
  | S fuel =>
      if decide (1 < length current)%nat
      then pair_msgs current ++ tree_msgs fuel (pair_up current) else []
  end.

Definition BuildTree_msgs (leaves : list bytes) : list bytes :=
  tree_msgs (length leaves) leaves.

(** Two different messages of [ms] with the same hash. *)
Definition collision_in (ms : list bytes) : Prop :=
  exists m m', m ∈ ms /\ m' ∈ ms /\ m <> m' /\ keccak256 m = keccak256 m'.

(** The root of a list of leaves as [BuildTree] and [Root_of_tree] compute it. *)
Definition merkle_root (leaves : list bytes) : option bytes := Root_of_tree (BuildTree leaves).

(** ** Lemmas *)

(** Induction two elements at a time. *)
Lemma list_ind2 {A} (P : list A -> Prop) :
  P [] -> (forall x, P [x]) -> (forall x y l, P l -> P (x :: y :: l)) -> forall l, P l.
Proof.
  intros H0 H1 H2. enough (forall l, P l /\ forall x, P (x :: l)) by naive_solver.
  induction l as [|x l [IH1 IH2]]; eauto.
Qed.

Lemma length_pair_msgs l : length (pair_msgs l) = ((length l + 1) / 2)%nat.
Proof.
  induction l as [|x|x y l IH] using list_ind2; [done|done|].
  cbn [pair_msgs length]. rewrite IH.
  replace (S (S (length l)) + 1)%nat with (1 * 2 + (length l + 1))%nat by lia.
  rewrite Nat.div_add_l by lia. done.
Qed.

Lemma length_pair_up l : length (pair_up l) = ((length l + 1) / 2)%nat.
Proof. unfold pair_up. by rewrite length_fmap, length_pair_msgs. Qed.

Lemma level_loop_pair_up fuel current i next :
  (length current <= fuel + i)%nat ->
  level_loop fuel current i next = next ++ pair_up (drop i current).
Proof.
  revert i next. induction fuel as [|fuel IH]; intros i next Hf.
  { simpl. rewrite drop_ge by lia. by rewrite app_nil_r. }
  simpl. case_decide as Hi; [|rewrite drop_ge by lia; by rewrite app_nil_r].
  rewrite IH by lia. rewrite <-app_assoc. f_equal.
  destruct (lookup_lt_is_Some_2 current i Hi) as [x Hx].
  rewrite (drop_S _ _ _ Hx), (nth_lookup_Some _ _ _ _ Hx).
  case_decide as Hi'.
  - destruct (lookup_lt_is_Some_2 current (i + 1) Hi') as [y Hy].
    rewrite (nth_lookup_Some _ _ _ _ Hy).
    replace (i + 1)%nat with (S i) in Hy by lia. rewrite (drop_S _ _ _ Hy).
    replace (i + 2)%nat with (S (S i)) by lia.
    unfold pair_up. simpl. unfold Keccak. simpl. by rewrite app_nil_r.
  - rewrite !drop_ge by lia. unfold pair_up. simpl. unfold Keccak. simpl. by rewrite app_nil_r.
Qed.

Lemma next_level_pair_up current : next_level current = pair_up current.
Proof. unfold next_level. rewrite level_loop_pair_up by lia. done. Qed.

Lemma levels_above_S fuel current :
  (1 < length current)%nat ->
  levels_above (S fuel) current = pair_up current :: levels_above fuel (pair_up current).
Proof. intros. simpl. rewrite decide_True by done. by rewrite next_level_pair_up. Qed.

(** The last level built has exactly one element. *)
Lemma levels_above_last fuel current :
  (0 < length current <= fuel)%nat ->
  exists r, last (current :: levels_above fuel current) = Some [r].
Proof.
  revert current. induction fuel as [|fuel IH]; intros current Hc; [lia|].
  destruct (decide (1 < length current)%nat) as [H1|H1].
  - rewrite levels_above_S by done.
    destruct (IH (pair_up current)) as [r Hr].
    { rewrite length_pair_up. split; [apply Nat.div_str_pos; lia|].
      enough ((length current + 1) / 2 < S fuel)%nat by lia.
      apply Nat.Div0.div_lt_upper_bound; lia. }
    exists r. by rewrite last_cons_cons.
  - destruct current as [|x [|]]; simpl in *; try lia. exists x. done.
Qed.

(** More fuel than leaves does not change the levels. *)
Lemma levels_above_fuel fuel fuel' current :
  (length current <= fuel)%nat -> (fuel <= fuel')%nat ->
  levels_above fuel' current = levels_above fuel current.
Proof.
  revert fuel' current. induction fuel as [|fuel IH]; intros fuel' current Hc Hf.
  { destruct current; [|simpl in *; lia]. by destruct fuel'. }
  destruct fuel' as [|fuel']; [lia|].
  destruct (decide (1 < length current)%nat) as [H1|H1].
  - rewrite !levels_above_S by done. f_equal. apply IH; [|lia].
    rewrite length_pair_up. enough ((length current + 1) / 2 < S fuel)%nat by lia.
    apply Nat.Div0.div_lt_upper_bound; lia.
  - simpl. by rewrite !decide_False.
Qed.

(** The root, by recursion on the levels. *)
Lemma merkle_root_nil : merkle_root [] = Some [].
Proof. done. Qed.

Lemma merkle_root_singleton x : merkle_root [x] = Some x.
Proof. done. Qed.

Lemma merkle_root_step l :
  (1 < length l)%nat -> merkle_root l = merkle_root (pair_up l).
Proof.
  intros H1. unfold merkle_root, BuildTree.
  assert (Hp : (0 < length (pair_up l) < length l)%nat).
  { rewrite length_pair_up. split; [apply Nat.div_str_pos; lia|].
    apply Nat.Div0.div_lt_upper_bound; lia. }
  rewrite !decide_False by lia. unfold Root_of_tree.
  destruct (length l) as [|n] eqn:Hn; [lia|].
  rewrite levels_above_S by lia. rewrite last_cons_cons.
  by rewrite (levels_above_fuel (length (pair_up l)) n) by lia.
Qed.

(** A property of leaf lists carried from each level to the next holds at the root. *)
Lemma level_induction (P : list bytes -> Prop) :
  P [] -> (forall x, P [x]) ->
  (forall l, (1 < length l)%nat -> P (pair_up l) -> P l) -> forall l, P l.
Proof.
  intros H0 H1 Hs l. remember (length l) as n eqn:Hn. revert l Hn.
  induction n as [n IH] using lt_wf_ind. intros l ->.
  destruct (decide (1 < length l)%nat) as [Hl|Hl].
  - apply Hs; [done|]. apply (IH (length (pair_up l))); [|done].
    rewrite length_pair_up. apply Nat.Div0.div_lt_upper_bound; lia.
  - destruct l as [|x [|]]; simpl in *; auto; lia.
Qed.

Lemma merkle_root_is_Some l : is_Some (merkle_root l).
Proof.
  induction l as [|x|l Hl IH] using level_induction; [by eexists..|].
  by rewrite merkle_root_step.
Qed.

Lemma pair_up_sizes `{!LegacyKeccak256Spec} l : Forall (fun h => len h = 32) (pair_up l).
Proof.
  unfold pair_up. apply Forall_forall. intros h (m & -> & _)%list_elem_of_fmap. apply keccak256_size.
Qed.

Lemma merkle_root_size `{!LegacyKeccak256Spec} l r :
  l <> [] -> Forall (fun h => len h = 32) l -> merkle_root l = Some r -> len r = 32.
Proof.
  induction l as [|x|l Hl IH] using level_induction; [done| |].
  - intros _ Hx. rewrite merkle_root_singleton. intros [= <-]. by inversion Hx.
  - intros _ _ Hr. rewrite merkle_root_step in Hr by done.
    apply IH; [|apply pair_up_sizes|done].
    intros Hnil%(f_equal length). rewrite length_pair_up in Hnil.
    enough (0 < (length l + 1) / 2)%nat by (simpl in *; lia). apply Nat.div_str_pos. lia.
Qed.

(** *** Binding *)

Lemma collision_in_mono ms ms' : (forall m, m ∈ ms -> m ∈ ms') -> collision_in ms -> collision_in ms'.
Proof. intros Hs (m & m' & Hm & Hm' & Hne & Heq). exists m, m'. auto. Qed.

(** Equal hashes of two lists of messages: the messages are equal, or two of
    them collide. *)
Lemma hashes_binding ms ms' :
  keccak256 <$> ms = keccak256 <$> ms' -> ms = ms' \/ collision_in (ms ++ ms').
Proof.
  revert ms'. induction ms as [|m ms IH]; intros [|m' ms'] Heq; try done; [by left|].
  simpl in Heq. injection Heq as Hm Hms.
  destruct (decide (m = m')) as [->|Hne].
  - destruct (IH ms' Hms) as [->|Hc]; [by left|right].
    revert Hc. apply collision_in_mono. set_solver.
  - right. exists m, m'. set_solver.
Qed.

(** The messages of a level determine the level, for hashes of one size. *)
Lemma pair_msgs_inj l l' :
  length l = length l' ->
  Forall (fun h => len h = 32) l -> Forall (fun h => len h = 32) l' ->
  pair_msgs l = pair_msgs l' -> l = l'.
Proof.
  revert l'. induction l as [|x|x y l IH] using list_ind2;
    intros [|x' [|y' l']] Hlen Hl Hl' Heq; simplify_eq/=; try done.
  - rewrite Forall_singleton in Hl, Hl'. unfold len in *.
    apply app_inj_len in H0 as [-> _]; [done|lia].
  - apply Forall_cons in Hl as [Hx [Hy Hl]%Forall_cons].
    apply Forall_cons in Hl' as [Hx' [Hy' Hl']%Forall_cons]. unfold len in *.
    apply app_inj_len in H0 as [-> ->]; [|lia]. by rewrite (IH l').
Qed.

Lemma tree_msgs_step l :
  (1 < length l)%nat ->
  BuildTree_msgs l = pair_msgs l ++ tree_msgs (length l - 1) (pair_up l).
Proof.
  intros Hl. unfold BuildTree_msgs. destruct (length l) as [|n] eqn:Hn; [lia|].
  cbn [tree_msgs]. rewrite decide_True by lia. repeat f_equal. lia.
Qed.

Lemma tree_msgs_fuel fuel fuel' l :
  (length l <= fuel)%nat -> (fuel <= fuel')%nat -> tree_msgs fuel' l = tree_msgs fuel l.
Proof.
  revert fuel' l. induction fuel as [|fuel IH]; intros fuel' l Hc Hf.
  { destruct l; [|simpl in *; lia]. by destruct fuel'. }
  destruct fuel' as [|fuel']; [lia|]. simpl. case_decide; [|done]. f_equal.
  apply IH; [|lia]. rewrite length_pair_up.
  enough ((length l + 1) / 2 < S fuel)%nat by lia. apply Nat.Div0.div_lt_upper_bound; lia.
Qed.

Lemma BuildTree_msgs_step l :
  (1 < length l)%nat -> BuildTree_msgs l = pair_msgs l ++ BuildTree_msgs (pair_up l).
Proof.
  intros Hl. rewrite tree_msgs_step by done. f_equal. apply tree_msgs_fuel; [done|].
  rewrite length_pair_up. enough ((length l + 1) / 2 < length l)%nat by lia.
  apply Nat.Div0.div_lt_upper_bound; lia.
Qed.

Lemma merkle_binding_lemma `{!LegacyKeccak256Spec} l l' :
  length l = length l' ->
  Forall (fun h => len h = 32) l -> Forall (fun h => len h = 32) l' ->
  merkle_root l = merkle_root l' ->
  l = l' \/ collision_in (BuildTree_msgs l ++ BuildTree_msgs l').
Proof.
  revert l'. induction l as [|x|l Hl IH] using level_induction; intros l' Hlen HF HF' Hr.
  - left. by destruct l'.
  - left. destruct l' as [|x' [|]]; try (simpl in Hlen; lia).
    rewrite !merkle_root_singleton in Hr. by injection Hr as ->.
  - rewrite (merkle_root_step l), (merkle_root_step l') in Hr by lia.
    rewrite (BuildTree_msgs_step l), (BuildTree_msgs_step l') by lia.
    destruct (IH (pair_up l')) as [Heq|Hc].
    { rewrite !length_pair_up. congruence. }
    { apply pair_up_sizes. }
    { apply pair_up_sizes. }
    { done. }
    + unfold pair_up in Heq. apply hashes_binding in Heq as [Heq|Hc].
      * left. by apply pair_msgs_inj.
      * right. revert Hc. apply collision_in_mono. set_solver.
    + right. revert Hc. apply collision_in_mono. set_solver.
Qed.

End merkle.
