(* ===== verification/MerkleSpec.v ===== *)
(** * MerkleSpec: what the Merkle tree promises

    The shape of the tree [BuildTree] makes, its height, what its root commits
    to, and the one thing it does not: how many leaves there are. *)

From S2P Require Import Prelude Effects Protocol Utils Merkle.

Section merkle_spec.
Context `{LegacyKeccak256}.

(** One level and the next. *)
Definition level_above (cur next : list bytes) : Prop :=
  next = pair_up cur /\ (1 < length cur)%nat /\ length next = ((length cur + 1) / 2)%nat.

Lemma levels_above_linked fuel current i cur next :
  (current :: levels_above fuel current) !! i = Some cur ->
  (current :: levels_above fuel current) !! S i = Some next -> level_above cur next.
Proof.
  revert current i. induction fuel as [|fuel IH]; intros current i; [by destruct i|].
  destruct (decide (1 < length current)%nat) as [H1|H1].
  - rewrite levels_above_S by done. destruct i as [|i]; [|apply IH].
    intros [= <-] [= <-]. split_and!; [done|done|apply length_pair_up].
  - cbn [levels_above]. rewrite decide_False by done. by destruct i.
Qed.

Lemma log2_up_half n : (1 < n)%nat -> Nat.log2_up n = S (Nat.log2_up ((n + 1) / 2)).
Proof.
  intros Hn. destruct (Nat.Even_or_Odd n) as [[m ->]|[m ->]].
  - replace (2 * m + 1)%nat with (1 + m * 2)%nat by lia. rewrite Nat.div_add by lia. simpl Nat.div.
    rewrite Nat.add_0_l. apply Nat.log2_up_double. lia.
  - replace (2 * m + 1 + 1)%nat with ((m + 1) * 2)%nat by lia. rewrite Nat.div_mul by lia.
    rewrite Nat.log2_up_succ_double, (Nat.log2_up_eqn (m + 1)) by lia.
    by replace (Nat.pred (m + 1)) with m by lia.
Qed.

Lemma length_levels_above fuel current :
  (0 < length current <= fuel)%nat -> length (levels_above fuel current) = Nat.log2_up (length current).
Proof.
  revert current. induction fuel as [|fuel IH]; intros current Hc; [lia|].
  destruct (decide (1 < length current)%nat) as [H1|H1].
  - rewrite levels_above_S, log2_up_half by done. cbn [length]. f_equal.
    rewrite IH; rewrite length_pair_up; [done|]. split; [apply Nat.div_str_pos; lia|].
    enough ((length current + 1) / 2 < S fuel)%nat by lia. apply Nat.Div0.div_lt_upper_bound; lia.
  - cbn [levels_above]. rewrite decide_False by done. by replace (length current) with 1%nat by lia.
Qed.

Lemma pair_msgs_odd_duplicate l x :
  Nat.Even (length l) -> pair_msgs (l ++ [x]) = pair_msgs (l ++ [x; x]).
Proof.
  induction l as [|y|y z l IH] using list_ind2; [done| |].
  - intros [m Hm]. simpl in Hm. lia.
  - intros [m Hm]. simpl in *. f_equal. apply IH. exists (m - 1)%nat. lia.
Qed.

(** ** Properties *)

(** C25: the tree [BuildTree] makes of at least one leaf: the lowest level is the
    leaves, every level is the hashes of the pairs of the level below (an odd
    last element paired with itself), and the top level is exactly the root
    [Root_of_tree] returns; the loop ends after as many rounds as the
    rounded-up binary logarithm of the number of leaves. *)
Theorem BuildTree_shape leaves :
  leaves <> [] ->
  head (BuildTree leaves) = Some leaves /\
  (forall i cur next, BuildTree leaves !! i = Some cur -> BuildTree leaves !! S i = Some next ->
     level_above cur next) /\
  (exists root, last (BuildTree leaves) = Some [root] /\ Root_of_tree (BuildTree leaves) = Some root) /\
  length (BuildTree leaves) = S (Nat.log2_up (length leaves)).
Proof.
  intros Hne. assert (Hl : (0 < length leaves)%nat) by (destruct leaves; simpl; [done|lia]).
  unfold BuildTree. rewrite decide_False by lia. split_and!; [done| | |].
  - intros i cur next. apply levels_above_linked.
  - destruct (levels_above_last (length leaves) leaves ltac:(lia)) as [r Hr].
    exists r. split; [done|]. unfold Root_of_tree. by rewrite Hr.
  - cbn [length]. by rewrite length_levels_above by lia.
Qed.

(** C24: the root commits to the leaves.  Equally many leaves with the same root
    are the same leaves, or two different messages hashed while building the
    two trees have the same hash. *)
Theorem merkle_binding `{!LegacyKeccak256Spec} l l' :
  length l = length l' ->
  Forall (fun h => len h = HashSize) l -> Forall (fun h => len h = HashSize) l' ->
  Root_of_tree (BuildTree l) = Root_of_tree (BuildTree l') ->
  l = l' \/ collision_in (BuildTree_msgs l ++ BuildTree_msgs l').
Proof. apply merkle_binding_lemma. Qed.

(** C26: the root does not commit to the number of leaves.  Repeating the last of
    three leaves or more, when their number is odd, gives a tree with the same
    root, without any collision of the hash.  (For one leaf it does not: the root
    of one leaf is the leaf.) *)
Theorem merkle_odd_duplicate l x :
  l <> [] -> Nat.Even (length l) ->
  Root_of_tree (BuildTree (l ++ [x])) = Root_of_tree (BuildTree (l ++ [x; x])).
Proof.
  intros Hne He. change (merkle_root (l ++ [x]) = merkle_root (l ++ [x; x])).
  rewrite (merkle_root_step (l ++ [x])), (merkle_root_step (l ++ [x; x]))
    by (rewrite length_app; destruct l; simpl; [done|lia]).
  unfold pair_up. by rewrite pair_msgs_odd_duplicate.
Qed.

End merkle_spec.
