(* ===== verification/Wire.v ===== *)
(** * Wire: package chunk

    The seven messages of Chunk/chunk.go.  For each message there is the byte
    sequence its Send function writes in one [conn.Write], the Send function,
    and its Read function as the sequence of [io.ReadFull] calls of the source.
    [Codec] states what a Read function promises about its Send function; the
    seven codecs discharge it. *)

From S2P Require Import Prelude Effects AesGcm Protocol Utils.

(** ** Chunk/chunk.go *)

Definition msgHeader : byte := Byte.x01.
Definition msgChunkRequest : byte := Byte.x02.
Definition msgChunkResponse : byte := Byte.x03.
Definition msgLotteryTicket : byte := Byte.x04.
Definition msgKeyReveal : byte := Byte.x05.
Definition msgMerkleRoot : byte := Byte.x06.
Definition msgFinalAck : byte := Byte.x07.

Definition readSentinel (want : byte) (what : string) : prog (option error) :=
  let? b := perform (OReadFull 1)
    orelse err => Some (Errorf "reading %s sentinel: %w" [AString what; AError err]) in
  let b0 := nth 0 b Byte.x00 in
  if negb (bool_decide (b0 = want)) then
    Ret (Some (Errorf "expected %s (0x%02x), got 0x%02x"
                 [AString what; AUint (b2z want); AUint (b2z b0)]))
  else Ret None.

(** *** Header *)

Definition headerBytes (header : MetaData) : bytes :=
  [msgHeader] ++ PutUint32 (md_Reps header) ++ md_FileID header
  ++ PutUint32 (u32 (len (bytes_of_string (md_Name header))))
  ++ bytes_of_string (md_Name header) ++ PutUint32 (md_FileSize header).

Definition SendHeader (header : MetaData) : prog (option error) :=
  perform (OWrite (headerBytes header)).

Definition ReadHeader : prog (res MetaData) :=
  check! readSentinel msgHeader "header" orelse err => Err err in
  let? buf := perform (OReadFull 4) orelse err => Err (wrap "reading reps: %w" err) in
  let reps := Uint32 buf in
  let? fileID := perform (OReadFull HashSize)
    orelse err => Err (wrap "reading fileID: %w" err) in
  let? buf := perform (OReadFull 4) orelse err => Err (wrap "reading name length: %w" err) in
  let? nameBuf := perform (OReadFull (Uint32 buf))
    orelse err => Err (wrap "reading name: %w" err) in
  let name := string_of_bytes nameBuf in
  let? buf := perform (OReadFull 4) orelse err => Err (wrap "reading filesize: %w" err) in
  Ret (Ok {| md_Name := name; md_FileSize := Uint32 buf; md_Reps := reps; md_FileID := fileID |}).

(** *** Chunk request *)

Definition chunkRequestBytes (index : Z) : bytes := [msgChunkRequest] ++ PutUint32 index.

Definition SendChunkRequest (index : Z) : prog (option error) :=
  perform (OWrite (chunkRequestBytes index)).

Definition ReadChunkRequest : prog (res Z) :=
  check! readSentinel msgChunkRequest "chunk request" orelse err => Err err in
  let? buf := perform (OReadFull 4) orelse err => Err err in
  Ret (Ok (Uint32 buf)).

(** *** Chunk response *)

Definition chunkResponseBytes (c : Chunk) : bytes :=
  [msgChunkResponse] ++ PutUint32 (c_Index c)
  ++ PutUint32 (u32 (len (c_Ciphertext c))) ++ c_Ciphertext c
  ++ c_Nonce c ++ c_HResp c.

Definition SendChunkResponse (c : Chunk) : prog (option error) :=
  perform (OWrite (chunkResponseBytes c)).

Definition ReadChunkResponse (fileID : bytes) : prog (res Chunk) :=
  check! readSentinel msgChunkResponse "chunk response" orelse err => Err err in
  let? buf := perform (OReadFull 4) orelse err => Err err in
  let index := Uint32 buf in
  let? buf := perform (OReadFull 4) orelse err => Err err in
  let? ciphertext := perform (OReadFull (Uint32 buf)) orelse err => Err err in
  let? nonce := perform (OReadFull NonceSize) orelse err => Err err in
  let? hresp := perform (OReadFull HashSize) orelse err => Err err in
  Ret (Ok {| c_FileID := fileID; c_Index := index; c_Length := u32 (len ciphertext);
             c_Plaintext := []; c_Ciphertext := ciphertext; c_Key := []; c_Nonce := nonce;
             c_HResp := hresp; c_Leaf := [] |}).

(** *** Lottery ticket *)

Definition lotteryTicketBytes (index : Z) : bytes := [msgLotteryTicket] ++ PutUint32 index.

Definition SendLotteryTicket (index : Z) : prog (option error) :=
  perform (OWrite (lotteryTicketBytes index)).

Definition ReadLotteryTicket : prog (res Z) :=
  check! readSentinel msgLotteryTicket "lottery ticket" orelse err => Err err in
  let? buf := perform (OReadFull 4) orelse err => Err err in
  Ret (Ok (Uint32 buf)).

(** *** Key reveal *)

Definition keyRevealBytes (index : Z) (key : bytes) : bytes :=
  [msgKeyReveal] ++ PutUint32 index ++ key.

Definition SendKeyReveal (index : Z) (key : bytes) : prog (option error) :=
  perform (OWrite (keyRevealBytes index key)).

Definition ReadKeyReveal : prog (res (Z * bytes)) :=
  check! readSentinel msgKeyReveal "key reveal" orelse err => Err err in
  let? buf := perform (OReadFull 4) orelse err => Err err in
  let index := Uint32 buf in
  let? key := perform (OReadFull KeySize) orelse err => Err err in
  Ret (Ok (index, key)).

(** *** Merkle root and final ack *)

Definition rootBytes (root : bytes) : bytes := [msgMerkleRoot] ++ root.

Definition SendRoot (root : bytes) : prog (option error) :=
  perform (OWrite (rootBytes root)).

Definition ReadRoot : prog (res bytes) :=
  check! readSentinel msgMerkleRoot "merkle root" orelse err => Err err in
  let? root := perform (OReadFull HashSize) orelse err => Err err in
  Ret (Ok root).

Definition finalAckBytes : bytes := [msgFinalAck].

Definition SendFinalAck : prog (option error) := perform (OWrite finalAckBytes).

Definition ReadFinalAck : prog (option error) := readSentinel msgFinalAck "final ack".

(** *** Helpers of the sender *)

(** A [nil] file returns [os.ErrInvalid] from its methods. *)
Definition ErrInvalid : error := Errorf "invalid argument" [].

Definition ReadChunkPlaintext (file : option handle) (index chunkSize : Z) : prog (res bytes) :=
  match file with
  | None => Ret (Err ErrInvalid)
  | Some file =>
      let! (buf, err) := perform (OReadAt file chunkSize (i64 (chunkSize * index))) in
      match err with
      | None | Some EOF => Ret (Ok buf)
      | Some err => Ret (Err err)
      end
  end.

Section build.
Context `{LegacyKeccak256}.

Definition BuildAndEncryptChunk (fileID : bytes) (index : Z) (plaintext : bytes)
    : prog (res Chunk) :=
  let c := NewChunk fileID index plaintext in
  let? key := GenerateRandomKey
    orelse err => Err (Errorf "generating key for chunk %d: %w" [AUint index; AError err]) in
  let c := set_Key c key in
  let? c := EncryptChunk c
    orelse err => Err (Errorf "encrypting chunk %d: %w" [AUint index; AError err]) in
  let c := set_HResp c (ComputeResponseCommitment c) in
  Ret (Ok c).

End build.

(** ** Reading a finished stream *)

(** [io.ReadFull] on a stream whose remaining bytes are [inb] and which then
    ends: the buffer filled, or [io.EOF] when nothing and
    [io.ErrUnexpectedEOF] when too little was left. *)
Definition read_closed (n : Z) (inb : bytes) : res bytes * bytes :=
  if decide (n <= len inb) then (Ok (take (Z.to_nat n) inb), drop (Z.to_nat n) inb)
  else (Err (if decide (inb = []) then EOF else ErrUnexpectedEOF), []).

(** The result of a program that only reads, and the bytes it leaves. *)
Fixpoint feed {A} (p : prog A) (inb : bytes) : option (A * bytes) :=
  match p with
  | Ret a => Some (a, inb)
  | Vis (OReadFull n) k => let '(r, inb') := read_closed n inb in feed (k r) inb'
  | _ => None
  end.

(** A reader only reads, and returns an error as soon as a read fails. *)
Fixpoint strict_reader {A} (p : prog (res A)) : Prop :=
  match p with
  | Ret _ => True
  | Vis (OReadFull n) k => 0 <= n /\
      (forall e, exists e', k (Err e) = Ret (Err e')) /\
      forall b, len b = n -> strict_reader (k (Ok b))
  | _ => False
  end.

(** What a Read function promises about the bytes of its Send function: it
    reads the encoding of a valid value back and stops there, and whatever it
    accepts is the encoding of the valid value it returns. *)
Record Codec (M : Type) := mkCodec {
  cd_encode : M -> bytes;
  cd_read : prog (res M);
  cd_valid : M -> Prop;
  cd_strict : strict_reader cd_read;
  cd_complete : forall m rest, cd_valid m ->
    feed cd_read (cd_encode m ++ rest) = Some (Ok m, rest);
  cd_sound : forall b m rest, feed cd_read b = Some (Ok m, rest) ->
    cd_valid m /\ b = cd_encode m ++ rest
}.
Arguments cd_encode {M} c.
Arguments cd_read {M} c.
Arguments cd_valid {M} c.
Arguments cd_strict {M} c.
Arguments cd_complete {M} c.
Arguments cd_sound {M} c.

(** ** Lemmas on readers *)

Lemma feed_bind {A B} (p : prog A) (f : A -> prog B) inb :
  feed (bind p f) inb = match feed p inb with Some (a, rest) => feed (f a) rest | None => None end.
Proof.
  revert inb. induction p as [a|h|o k IH]; intros inb; simpl; [done|done|].
  destruct o; try done. by destruct (read_closed n inb) as [r inb'].
Qed.

(** One successful read, forwards and backwards. *)
Lemma feed_read {A} n (k : ans (OReadFull n) -> prog A) b rest :
  len b = n -> feed (Vis (OReadFull n) k) (b ++ rest) = feed (k (Ok b)) rest.
Proof.
  intros Hb. simpl. unfold read_closed. rewrite len_app. pose proof (len_nonneg rest).
  rewrite decide_True by lia. unfold len in Hb.
  by rewrite take_app_len, drop_app_len by lia.
Qed.

Lemma feed_read_inv {A} n (k : ans (OReadFull n) -> prog (res A)) b m rest :
  strict_reader (Vis (OReadFull n) k) ->
  feed (Vis (OReadFull n) k) b = Some (Ok m, rest) ->
  exists b1 b2, b = b1 ++ b2 /\ len b1 = n /\ feed (k (Ok b1)) b2 = Some (Ok m, rest).
Proof.
  simpl. unfold read_closed. intros (Hn & Herr & _). case_decide as Hlen.
  - intros Hk. exists (take (Z.to_nat n) b), (drop (Z.to_nat n) b).
    split_and!; [by rewrite take_drop| |done]. unfold len in *. rewrite length_take. lia.
  - destruct (Herr (if decide (b = []) then EOF else ErrUnexpectedEOF)) as [e' ->]. done.
Qed.

(** A truncated encoding is refused: a strict reader that consumes exactly [b]
    returns an error on every proper prefix of [b]. *)
Lemma strict_reader_truncated {A} (p : prog (res A)) b1 b2 m :
  strict_reader p -> b2 <> [] -> feed p (b1 ++ b2) = Some (Ok m, []) ->
  exists e, feed p b1 = Some (Err e, []).
Proof.
  intros Hp Hb2. revert b1 Hp. induction p as [a|h|o k IH]; intros b1 Hp; [|done|].
  - intros [= _ [_ ?]%app_eq_nil]. done.
  - destruct o; try done. destruct Hp as (Hn & Herr & Hk). simpl. unfold read_closed.
    destruct (decide (n <= len b1)) as [Hb1|Hb1].
    + rewrite len_app. pose proof (len_nonneg b2). rewrite decide_True by lia.
      unfold len in *. rewrite take_app_le, drop_app_le by lia. apply IH.
      apply Hk. unfold len. rewrite length_take. lia.
    + intros _. destruct (Herr (if decide (b1 = []) then EOF else ErrUnexpectedEOF)) as [e' ->].
      eexists. done.
Qed.

(** Reading past the end of what a reader consumed leaves the rest. *)
Lemma feed_app {A} (p : prog (res A)) b m rest :
  strict_reader p -> feed p b = Some (Ok m, []) -> feed p (b ++ rest) = Some (Ok m, rest).
Proof.
  revert b. induction p as [a|h|o k IH]; intros b Hp; [|done|].
  - by intros [= -> ->].
  - destruct o; try done. intros (b1 & b2 & -> & Hb1 & Hk)%feed_read_inv; [|done].
    rewrite <-app_assoc, feed_read by done. apply IH; [|done]. by apply Hp.
Qed.

Section codec.
Context {M : Type} (cd : Codec M).

Lemma codec_inj m m' rest rest' :
  cd_valid cd m -> cd_valid cd m' ->
  cd_encode cd m ++ rest = cd_encode cd m' ++ rest' -> m = m' /\ rest = rest'.
Proof.
  intros Hm Hm' Heq. pose proof (cd_complete cd m rest Hm) as H.
  rewrite Heq, (cd_complete cd m' rest' Hm') in H. by injection H.
Qed.

Lemma codec_truncated m b1 b2 :
  cd_valid cd m -> cd_encode cd m = b1 ++ b2 -> b2 <> [] ->
  exists e, feed (cd_read cd) b1 = Some (Err e, []).
Proof.
  intros Hm Heq Hb2. eapply strict_reader_truncated; [apply cd_strict|done|].
  rewrite <-Heq, <-(app_nil_r (cd_encode cd m)). by apply cd_complete.
Qed.

End codec.

(** ** The seven codecs *)

Section sentinel.
Context {A : Type} (want : byte) (what : string) (k : prog (res A)).

Abbreviation after_sentinel :=
  (check! readSentinel want what orelse err => Err err in k).

Lemma strict_sentinel : strict_reader k -> strict_reader after_sentinel.
Proof.
  intros Hk. simpl. split_and!; [done|by eexists|].
  intros b _. by destruct (negb _).
Qed.

Lemma feed_sentinel b : feed after_sentinel (want :: b) = feed k b.
Proof.
  change (want :: b) with ([want] ++ b). cbn [readSentinel perform bind].
  rewrite feed_read by done. simpl. by rewrite bool_decide_true.
Qed.

Lemma sentinel_inv b m rest :
  strict_reader k -> feed after_sentinel b = Some (Ok m, rest) ->
  exists b2, b = want :: b2 /\ feed k b2 = Some (Ok m, rest).
Proof.
  intros Hk H. pose proof (strict_sentinel Hk) as Hs. unfold readSentinel, perform in *.
  cbn [bind] in H, Hs. apply feed_read_inv in H as (b1 & b2 & -> & Hb1 & H); [|done].
  destruct b1 as [|x [|]]; try (unfold len in Hb1; simpl in Hb1; lia).
  exists b2. simpl in H. case_bool_decide; [by subst|done].
Qed.

End sentinel.

(** Proves that a Read function is strict. *)
Ltac solve_strict :=
  repeat match goal with
  | |- True => exact I
  | |- strict_reader (bind (readSentinel _ _) _) => apply strict_sentinel
  | |- strict_reader _ => progress simpl
  | |- _ /\ _ => split
  | |- forall e, exists e', _ => intros ?; eexists; reflexivity
  | |- forall b, len b = _ -> _ => intros ? ?
  | |- 0 <= Uint32 _ => apply Uint32_range
  | |- 0 <= _ => done
  end.

(** One successful read, forwards. *)
Ltac read_fwd := cbn [perform bind]; rewrite feed_read; [cbn [bind]|].

(** One successful read, backwards: names the bytes read. *)
Ltac read_inv H b Hb :=
  cbn [perform bind] in H;
  apply feed_read_inv in H as (b & ? & -> & Hb & H); [|solve [solve_strict]];
  cbn [bind] in H.

Lemma len4 (b : bytes) : len b = 4 -> PutUint32 (Uint32 b) = b.
Proof. intros H. apply PutUint32_Uint32. unfold len in H. lia. Qed.

#[local] Hint Resolve Uint32_range : core.

(** [SendHeader] and [ReadHeader]. *)
Definition header_valid (h : MetaData) : Prop :=
  is_u32 (md_Reps h) /\ is_u32 (md_FileSize h) /\ len (md_FileID h) = HashSize /\
  len (bytes_of_string (md_Name h)) < 2 ^ 32.

Program Definition header_codec : Codec MetaData :=
  {| cd_encode := headerBytes; cd_read := ReadHeader; cd_valid := header_valid |}.
Next Obligation. unfold ReadHeader. solve_strict. Qed.
Next Obligation.
  intros h rest (Hr & Hs & Hf & Hn). unfold ReadHeader, headerBytes.
  rewrite <-!app_assoc. cbn [app]. rewrite feed_sentinel.
  set (name := bytes_of_string (md_Name h)) in *.
  assert (Hnl : is_u32 (len name)) by (split; [apply len_nonneg|done]).
  read_fwd; [|done]. read_fwd; [|done]. read_fwd; [|done].
  read_fwd; [|by rewrite Uint32_PutUint32', u32_small by (auto using u32_range)].
  read_fwd; [|done]. rewrite !Uint32_PutUint32' by done.
  unfold name. rewrite string_of_bytes_of_string. by destruct h.
Qed.
Next Obligation.
  intros b m rest H. unfold ReadHeader in H.
  apply sentinel_inv in H as (b0 & -> & H); [|solve_strict].
  read_inv H b1 H1. read_inv H b2 H2. read_inv H b3 H3. read_inv H b4 H4. read_inv H b5 H5.
  injection H as <- <-. unfold header_valid, headerBytes. cbn.
  rewrite bytes_of_string_of_bytes, H4, u32_small, !len4 by done.
  pose proof (Uint32_range b3) as [_ ?].
  split; [|by rewrite <-!app_assoc]. auto.
Qed.

(** [SendChunkRequest] and [ReadChunkRequest]. *)
Program Definition request_codec : Codec Z :=
  {| cd_encode := chunkRequestBytes; cd_read := ReadChunkRequest; cd_valid := is_u32 |}.
Next Obligation. unfold ReadChunkRequest. solve_strict. Qed.
Next Obligation.
  intros i rest Hi. unfold ReadChunkRequest, chunkRequestBytes.
  rewrite <-!app_assoc. cbn [app]. rewrite feed_sentinel.
  read_fwd; [|done]. by rewrite Uint32_PutUint32'.
Qed.
Next Obligation.
  intros b i rest H. unfold ReadChunkRequest in H.
  apply sentinel_inv in H as (b0 & -> & H); [|solve_strict].
  read_inv H b1 H1. injection H as <- <-. unfold chunkRequestBytes. cbn.
  rewrite len4 by done. auto.
Qed.

(** [SendLotteryTicket] and [ReadLotteryTicket]. *)
Program Definition ticket_codec : Codec Z :=
  {| cd_encode := lotteryTicketBytes; cd_read := ReadLotteryTicket; cd_valid := is_u32 |}.
Next Obligation. unfold ReadLotteryTicket. solve_strict. Qed.
Next Obligation.
  intros i rest Hi. unfold ReadLotteryTicket, lotteryTicketBytes.
  rewrite <-!app_assoc. cbn [app]. rewrite feed_sentinel.
  read_fwd; [|done]. by rewrite Uint32_PutUint32'.
Qed.
Next Obligation.
  intros b i rest H. unfold ReadLotteryTicket in H.
  apply sentinel_inv in H as (b0 & -> & H); [|solve_strict].
  read_inv H b1 H1. injection H as <- <-. unfold lotteryTicketBytes. cbn.
  rewrite len4 by done. auto.
Qed.

(** [SendKeyReveal] and [ReadKeyReveal]. *)
Program Definition key_codec : Codec (Z * bytes) :=
  {| cd_encode m := keyRevealBytes m.1 m.2; cd_read := ReadKeyReveal;
     cd_valid m := is_u32 m.1 /\ len m.2 = KeySize |}.
Next Obligation. unfold ReadKeyReveal. solve_strict. Qed.
Next Obligation.
  intros [i key] rest [Hi Hk]. unfold ReadKeyReveal, keyRevealBytes. cbn [fst snd] in *.
  rewrite <-!app_assoc. cbn [app]. rewrite feed_sentinel.
  read_fwd; [|done]. read_fwd; [|done]. by rewrite Uint32_PutUint32'.
Qed.
Next Obligation.
  intros b m rest H. unfold ReadKeyReveal in H.
  apply sentinel_inv in H as (b0 & -> & H); [|solve_strict].
  read_inv H b1 H1. read_inv H b2 H2. injection H as <- <-. unfold keyRevealBytes. cbn.
  rewrite len4 by done. split; [auto|]. by rewrite <-!app_assoc.
Qed.

(** [SendRoot] and [ReadRoot]. *)
Program Definition root_codec : Codec bytes :=
  {| cd_encode := rootBytes; cd_read := ReadRoot; cd_valid r := len r = HashSize |}.
Next Obligation. unfold ReadRoot. solve_strict. Qed.
Next Obligation.
  intros r rest Hr. unfold ReadRoot, rootBytes.
  rewrite <-!app_assoc. cbn [app]. rewrite feed_sentinel. by read_fwd.
Qed.
Next Obligation.
  intros b r rest H. unfold ReadRoot in H.
  apply sentinel_inv in H as (b0 & -> & H); [|solve_strict].
  read_inv H b1 H1. by injection H as <- <-.
Qed.

(** [SendFinalAck] and [ReadFinalAck]. *)
Definition read_ack : prog (res unit) :=
  check! ReadFinalAck orelse err => Err err in Ret (Ok ()).

Program Definition ack_codec : Codec unit :=
  {| cd_encode _ := finalAckBytes; cd_read := read_ack; cd_valid _ := True |}.
Next Obligation. unfold read_ack, ReadFinalAck. solve_strict. Qed.
Next Obligation.
  intros [] rest _. unfold read_ack, ReadFinalAck, finalAckBytes. cbn [app].
  by rewrite feed_sentinel.
Qed.
Next Obligation.
  intros b [] rest H. unfold read_ack, ReadFinalAck in H.
  apply sentinel_inv in H as (b0 & -> & H); [|solve_strict]. by injection H as <-.
Qed.

(** [SendChunkResponse] and [ReadChunkResponse], for a session with [fileID].  The
    values of this codec are chunks as [ReadChunkResponse] returns them: what the
    receiver knows before the key is revealed.  The sender writes them for a chunk
    that has a key, a plaintext and a leaf too; see [as_read] in [WireSpec]. *)
Definition response_valid (fileID : bytes) (c : Chunk) : Prop :=
  c_FileID c = fileID /\ is_u32 (c_Index c) /\ len (c_Ciphertext c) < 2 ^ 32 /\
  c_Length c = len (c_Ciphertext c) /\ len (c_Nonce c) = NonceSize /\
  len (c_HResp c) = HashSize /\ c_Plaintext c = [] /\ c_Key c = [] /\ c_Leaf c = [].

Program Definition response_codec (fileID : bytes) : Codec Chunk :=
  {| cd_encode := chunkResponseBytes; cd_read := ReadChunkResponse fileID;
     cd_valid := response_valid fileID |}.
Next Obligation. intros. unfold ReadChunkResponse. solve_strict. Qed.
Next Obligation.
  intros fileID [fid idx ln pt ct key nonce hresp leaf] rest (Hf & Hi & Hc & Hl & Hn & Hh & Hp & Hk & Hlf).
  cbn [c_FileID c_Index c_Length c_Plaintext c_Ciphertext c_Key c_Nonce c_HResp c_Leaf cd_read cd_encode] in *. subst.
  unfold ReadChunkResponse, chunkResponseBytes. cbn [c_Index c_Ciphertext c_Nonce c_HResp].
  rewrite <-!app_assoc. cbn [app]. rewrite feed_sentinel.
  assert (Hcl : is_u32 (len ct)) by (split; [apply len_nonneg|done]).
  read_fwd; [|done]. read_fwd; [|done].
  read_fwd; [|by rewrite Uint32_PutUint32', u32_small by (auto using u32_range)].
  read_fwd; [|done]. read_fwd; [|done].
  by rewrite Uint32_PutUint32', u32_small.
Qed.
Next Obligation.
  intros fileID b m rest H. unfold ReadChunkResponse in H.
  apply sentinel_inv in H as (b0 & -> & H); [|solve_strict].
  read_inv H b1 H1. read_inv H b2 H2. read_inv H b3 H3. read_inv H b4 H4. read_inv H b5 H5.
  injection H as <- <-. unfold response_valid, chunkResponseBytes. cbn.
  rewrite H3, u32_small, !len4 by done. pose proof (Uint32_range b2) as [_ ?].
  split; [by auto 10|]. by rewrite <-!app_assoc.
Qed.

#[global] Arguments headerBytes : simpl never.
#[global] Arguments chunkRequestBytes : simpl never.
#[global] Arguments chunkResponseBytes : simpl never.
#[global] Arguments lotteryTicketBytes : simpl never.
#[global] Arguments keyRevealBytes : simpl never.
#[global] Arguments rootBytes : simpl never.
#[global] Arguments finalAckBytes : simpl never.
