(* ===== verification/Stream.v ===== *)
(** * Stream: the connection as Protocol/stream.go sees it

    The rest of the development reads a stream by [io.ReadFull], one operation
    [OReadFull].  This file is the layer below: the interface [Stream] of
    Protocol/stream.go, the loop of [io.ReadFull] over [Read] calls that may
    return fewer bytes than asked for, and the proof that, on a connection whose
    input is fixed and ends with [io.EOF] ([StreamSpec]), no program that reads
    by [io.ReadFull] can tell how the bytes were cut.  It justifies the
    operation [OReadFull]; it says nothing of the programs of the repository in
    particular. *)

From S2P Require Import Prelude Effects Wire.

(** ** Protocol/stream.go *)

(** A connection with its state.  [Read n] is [Read(p)] with a buffer of [n]
    bytes: the bytes stored in [p] and the error; [Write] returns how many
    bytes were written. *)
Class Stream (S : Type) := {
  Read : Z -> S -> bytes * option error * S;
  Write : bytes -> S -> Z * option error * S;
  Close : S -> option error * S
}.

(** A well-behaved connection, for a peer that sends [b] and then closes.
    [holds s b k]: the bytes [b] are still to come and at most [k] calls of
    [Read] may return neither bytes nor an error; at most the buffer is filled;
    [io.EOF] comes after the last byte, alone or with the last bytes.  Reading
    does not change what a write does ([same_out]).  This is narrower than the
    contract of [io.Reader]: the only error of a read is [io.EOF], and what
    arrives does not depend on what is written. *)
Class StreamSpec (S : Type) `{Stream S} := {
  holds : S -> bytes -> nat -> Prop;
  same_out : S -> S -> Prop;
  Read_spec s b k n : holds s b k -> 0 <= n ->
    let '(d, err, s') := Read n s in
    exists b' k', b = d ++ b' /\ len d <= n /\ holds s' b' k' /\ (k' <= k)%nat /\
      (err = None \/ err = Some EOF /\ b' = []) /\
      (0 < n -> err = None -> d = [] -> (k' < k)%nat);
  Write_spec s b k w : holds s b k -> holds (Write w s).2 b k;
  Close_spec s b k : holds s b k -> holds (Close s).2 b k;
  same_out_refl s : same_out s s;
  same_out_Read s t n : same_out s t -> same_out (Read n s).2 t;
  same_out_Write s t w : same_out s t ->
    (Write w s).1 = (Write w t).1 /\ same_out (Write w s).2 (Write w t).2;
  same_out_Close s t : same_out s t ->
    (Close s).1 = (Close t).1 /\ same_out (Close s).2 (Close t).2
}.

(** ** io.ReadFull *)

Section readfull.
Context {S : Type} `{Stream S}.

(** The loop of [io.ReadAtLeast(r, buf, min)] with [min = len(buf) = n]: [buf]
    is what has been read so far. *)
Fixpoint readLoop (fuel : nat) (n : Z) (buf : bytes) (err : option error) (s : S)
    : option (bytes * option error * S) :=
  if decide (len buf < n /\ err = None) then
    match fuel with
    | O => None
    | Datatypes.S fuel =>
        let '(d, err, s) := Read (n - len buf) s in
        readLoop fuel n (buf ++ d) err s
    end
  else Some (buf, err, s).

(** [None] when the loop has used up its fuel. *)
Definition ReadFull (fuel : nat) (n : Z) (s : S) : option (res bytes * S) :=
  match readLoop fuel n [] None s with
  | None => None
  | Some (buf, err, s) =>
      Some (if decide (n <= len buf) then Ok buf
            else match err with
                 | Some EOF => Err (if decide (0 < len buf) then ErrUnexpectedEOF else EOF)
                 | Some err => Err err
                 | None => Ok buf
                 end, s)
  end.

(** ** Two environments *)

(** A program on a connection: reads go through [ReadFull], [local] answers
    what is not on the connection. *)
Definition stream_env {L} (fuel : nat) (local : environment L) : environment (S * L) :=
  fun o st =>
    let '(s, l) := st in
    match o return ans o * (S * L) with
    | OReadFull n =>
        match ReadFull fuel n s with
        | Some (r, s) => (r, (s, l))
        | None => (Err EOF, (s, l))
        end
    | OWrite b => let '(n, err, s) := Write b s in (err, (s, l))
    | OClose => let '(err, s) := Close s in (tt, (s, l))
    | o => let '(a, l) := local o l in (a, (s, l))
    end.

(** The same program when all that will arrive is there from the start, as one
    sequence of bytes. *)
Definition inbox_env {L} (local : environment L) : environment (S * bytes * L) :=
  fun o st =>
    let '(s, inb, l) := st in
    match o return ans o * (S * bytes * L) with
    | OReadFull n => let '(r, inb) := read_closed n inb in (r, (s, inb, l))
    | OWrite b => let '(n, err, s) := Write b s in (err, (s, inb, l))
    | OClose => let '(err, s) := Close s in (tt, (s, inb, l))
    | o => let '(a, l) := local o l in (a, (s, inb, l))
    end.

End readfull.

(** ** The loop *)

Section readfull_spec.
Context {S : Type} `{HS : StreamSpec S}.

(** The loop ends, has read a prefix of what was to come, all [n] bytes of it
    or everything up to the end, and leaves the rest. *)
Lemma readLoop_spec fuel n buf s b k t :
  holds s b k -> same_out s t -> 0 <= n -> len buf <= n -> (length b + k < fuel)%nat ->
  exists d b' k' err s', readLoop fuel n buf None s = Some (buf ++ d, err, s') /\
    b = d ++ b' /\ holds s' b' k' /\ (k' <= k)%nat /\ same_out s' t /\ len (buf ++ d) <= n /\
    (len (buf ++ d) = n \/ err = Some EOF /\ b' = []).
Proof.
  revert buf s b k. induction fuel as [|fuel IH]; intros buf s b k Hh Ho Hn Hbuf Hfuel; [lia|].
  cbn [readLoop]. case_decide as Hlt.
  2:{ exists [], b, k, None, s. rewrite app_nil_r. split_and!; try done; try lia.
      left. destruct (decide (len buf < n)); [|lia]. exfalso. by apply Hlt. }
  pose proof (Read_spec s b k (n - len buf) Hh ltac:(lia)) as HR.
  pose proof (same_out_Read s t (n - len buf) Ho) as Ho'.
  destruct (Read (n - len buf) s) as [[d err] s']. cbn [snd] in Ho'.
  destruct HR as (b1 & k1 & -> & Hd & Hh' & Hk & Herr & Hprog).
  rewrite length_app in Hfuel.
  assert (Hl : len (buf ++ d) <= n) by (rewrite len_app; lia).
  destruct Herr as [->|[-> ->]].
  - assert (Hfuel' : (length b1 + k1 < fuel)%nat).
    { destruct d as [|x d]; [|simpl in Hfuel; lia]. simpl in Hfuel.
      specialize (Hprog ltac:(lia) eq_refl eq_refl). lia. }
    destruct (IH (buf ++ d) s' b1 k1 Hh' Ho' Hn Hl Hfuel')
      as (d2 & b2 & k2 & err & s2 & -> & -> & Hh2 & Hk2 & Ho2 & Hl2 & Hend).
    exists (d ++ d2), b2, k2, err, s2. rewrite !app_assoc.
    split_and!; try done. lia.
  - exists d, [], k1, (Some EOF), s'. rewrite app_nil_r.
    destruct fuel; cbn [readLoop]; rewrite decide_False by (by intros [_ ?]); split_and!; auto.
Qed.

(** [io.ReadFull] reads what [read_closed] says, however the bytes come. *)
Lemma ReadFull_spec fuel n s b k t :
  holds s b k -> same_out s t -> (length b + k < fuel)%nat ->
  exists s' k', ReadFull fuel n s = Some ((read_closed n b).1, s') /\
    holds s' (read_closed n b).2 k' /\ (k' <= k)%nat /\ same_out s' t.
Proof.
  intros Hh Ho Hfuel. destruct (decide (0 <= n)) as [Hn|Hn].
  2:{ exists s, k. unfold ReadFull, read_closed. pose proof (len_nonneg b).
      rewrite (decide_True (P := n <= len b)) by lia. replace (Z.to_nat n) with 0%nat by lia.
      destruct fuel; cbn [readLoop]; rewrite decide_False by (unfold len; simpl; lia);
        by rewrite decide_True by (unfold len; simpl; lia). }
  destruct (readLoop_spec fuel n [] s b k t Hh Ho Hn ltac:(done) Hfuel)
    as (d & b' & k' & err & s' & Hl & -> & Hh' & Hk & Ho' & Hdn & Hend).
  unfold ReadFull. rewrite Hl. cbn [app] in *. exists s', k'. unfold read_closed.
  destruct Hend as [Hd|[-> ->]].
  - rewrite (decide_True (P := n <= len d)) by lia.
    rewrite decide_True by (rewrite len_app; pose proof (len_nonneg b'); lia).
    cbn [fst snd]. unfold len in Hd. by rewrite take_app_len, drop_app_len by lia.
  - rewrite !app_nil_r. case_decide as Hle.
    + cbn [fst snd]. unfold len in *. by rewrite take_ge, drop_ge by lia.
    + cbn [fst snd]. split_and!; try done. do 2 f_equal. destruct d as [|x d].
      * by rewrite decide_False by (unfold len; simpl; lia).
      * by rewrite decide_True by (unfold len; simpl; lia).
Qed.

(** What is left after a read is no longer than before. *)
Lemma read_closed_shorter n (b : bytes) : (length (read_closed n b).2 <= length b)%nat.
Proof. unfold read_closed. case_decide; simpl; [rewrite length_drop|]; lia. Qed.

(** Fragmentation is invisible.  On every connection of [StreamSpec], whatever the
    sizes of the pieces it delivers, with empty reads, with the end reported
    alone or together with the last bytes, every program that reads by
    [io.ReadFull] does the same and returns the same as if all the bytes the
    peer sends had been there from the start. *)
Lemma fragmentation_invisible {L A} (local : environment L) (p : prog A) fuel s b k l :
  holds s b k -> (length b + k < fuel)%nat ->
  (run (stream_env fuel local) p (s, l)).1 = (run (inbox_env local) p (s, b, l)).1.
Proof.
  intros Hh Hfuel. pose proof (same_out_refl s) as Ho. revert Ho. generalize s at 2 4 as t.
  revert s b k l Hh Hfuel.
  induction p as [a|h|o c IH]; intros s b k l Hh Hfuel t Ho; [done|done|].
  cbn [run].
  assert (Hnext : forall a s' b' k' l' t', holds s' b' k' -> (length b' + k' < fuel)%nat ->
    same_out s' t' ->
    (let '(r, tr, s2) := run (stream_env fuel local) (c a) (s', l') in (r, event_of o a :: tr, s2)).1 =
    (let '(r, tr, s2) := run (inbox_env local) (c a) (t', b', l') in (r, event_of o a :: tr, s2)).1).
  { intros a s' b' k' l' t' Hh' Hf' Ho'. pose proof (IH a s' b' k' l' Hh' Hf' t' Ho') as He.
    destruct (run (stream_env fuel local) _ _) as [[r1 tr1] x1].
    destruct (run (inbox_env local) _ _) as [[r2 tr2] x2]. cbn in *. by simplify_eq. }
  destruct o; cbn [stream_env inbox_env]; try (by destruct (local _ l) as [a' l']; eapply Hnext).
  - destruct (ReadFull_spec fuel n s b k t Hh Ho Hfuel) as (s' & k' & -> & Hh' & Hk & Ho').
    pose proof (read_closed_shorter n b). destruct (read_closed n b) as [r b']. cbn [fst snd] in *.
    apply (Hnext r s' b' k'); [done|lia|done].
  - destruct (same_out_Write s t b0 Ho) as [He Ho']. pose proof (Write_spec s b k b0 Hh) as Hh'.
    destruct (Write b0 s) as [[n1 e1] s1], (Write b0 t) as [[n2 e2] t2]. cbn in *. simplify_eq.
    by eapply Hnext.
  - destruct (same_out_Close s t Ho) as [He Ho']. pose proof (Close_spec s b k Hh) as Hh'.
    destruct (Close s) as [e1 s1], (Close t) as [e2 t2]. cbn in *. simplify_eq. by eapply Hnext.
Qed.

End readfull_spec.

(** ** A connection *)

(** A connection that delivers the pieces [c_in], at most one per [Read]; with
    [c_eager] it reports the end together with the last bytes. *)
Record Conn := mkConn { c_in : list bytes; c_eager : bool; c_out : bytes; c_closed : bool }.

Definition set_in (c : Conn) (l : list bytes) : Conn := mkConn l (c_eager c) (c_out c) (c_closed c).

#[global] Instance Conn_stream : Stream Conn := {
  Read n c :=
    match c_in c with
    | [] => ([], Some EOF, c)
    | d :: l =>
        let rest := drop (Z.to_nat n) d in
        let l := if decide (rest = []) then l else rest :: l in
        (take (Z.to_nat n) d, if c_eager c && bool_decide (l = []) then Some EOF else None, set_in c l)
    end;
  Write b c :=
    if c_closed c then (0, Some (Errorf "stream closed" []), c)
    else (len b, None, mkConn (c_in c) (c_eager c) (c_out c ++ b) false);
  Close c := (None, mkConn (c_in c) (c_eager c) (c_out c) true)
}.

#[global] Program Instance Conn_spec : StreamSpec Conn := {|
  holds c b k := b = concat (c_in c) /\ k = length (filter (fun d => d = []) (c_in c));
  same_out c c' := c_out c = c_out c' /\ c_closed c = c_closed c'
|}.
Next Obligation.
  intros [[|d l] eager out cl] b k n [-> ->] Hn; cbn.
  - exists [], 0%nat. split_and!; auto; done.
  - case_decide as Hr; cbn.
    + assert (d = take (Z.to_nat n) d) as Hd by (rewrite <-(take_drop (Z.to_nat n) d) at 1; by rewrite Hr, app_nil_r).
      rewrite <-Hd. assert (len d <= n) by (rewrite Hd; unfold len; rewrite length_take; lia).
      exists (concat l), (length (filter (fun d => d = []) l)).
      split_and!; [done|done|done|done|case_decide; [apply Nat.le_succ_diag_r|done]| |].
      * case_bool_decide as Hl; [subst l|]; destruct eager; auto.
      * intros _ _ ->. rewrite decide_True by done. apply Nat.lt_succ_diag_r.
    + exists (drop (Z.to_nat n) d ++ concat l), (length (filter (fun d => d = []) (drop (Z.to_nat n) d :: l))).
      cbn. rewrite (decide_False (P := drop _ _ = [])) by done.
      assert (d <> []) by (intros ->; by rewrite drop_nil in Hr).
      rewrite (decide_False (P := d = [])) by done.
      split_and!; [by rewrite app_assoc, take_drop|unfold len; rewrite length_take; lia|done|done|done| |].
      * left. by destruct eager.
      * intros Hpos _ Ht. destruct d; [done|]. destruct (Z.to_nat n) eqn:E; [lia|done].
Qed.
Next Obligation. intros c b k w Hh. cbn. by destruct (c_closed c). Qed.
Next Obligation. done. Qed.
Next Obligation. done. Qed.
Next Obligation. intros [[|d l] eager out cl] t n Ho; cbn in *; done. Qed.
Next Obligation. intros [i e o cl] [i' e' o' cl'] w [Ho Hc]; cbn in *. subst. by destruct cl'. Qed.
Next Obligation. intros [i e o cl] [i' e' o' cl'] [Ho Hc]; cbn in *. by subst. Qed.
