(* ===== verification/WireSpec.v ===== *)
(** * WireSpec: the seven messages together

    [message] is any of the seven messages of Chunk/chunk.go, [send] the Send
    function it is written with and [read_like] the Read function the peer
    reads it with.  What is sent is read back, except for the fields of a chunk
    that [SendChunkResponse] does not send ([as_read]); what is accepted was a
    message, what is cut short is refused, and a stream of messages has one
    reading. *)

From S2P Require Import Prelude Effects AesGcm Protocol Utils Wire.

Inductive message : Type :=
| MHeader (h : MetaData)
| MRequest (i : Z)
| MResponse (c : Chunk)
| MTicket (i : Z)
| MKey (i : Z) (key : bytes)
| MRoot (root : bytes)
| MAck.

Definition send (m : message) : prog (option error) :=
  match m with
  | MHeader h => SendHeader h
  | MRequest i => SendChunkRequest i
  | MResponse c => SendChunkResponse c
  | MTicket i => SendLotteryTicket i
  | MKey i key => SendKeyReveal i key
  | MRoot root => SendRoot root
  | MAck => SendFinalAck
  end.

(** The values a Send function is given: integers of their width, byte fields of
    their fixed sizes.  A chunk may have any key, plaintext, leaf and length. *)
Definition sendable (m : message) : Prop :=
  match m with
  | MHeader h => header_valid h
  | MRequest i | MTicket i => is_u32 i
  | MResponse c => is_u32 (c_Index c) /\ len (c_Ciphertext c) < 2 ^ 32 /\
      len (c_Nonce c) = NonceSize /\ len (c_HResp c) = HashSize
  | MKey i key => is_u32 i /\ len key = KeySize
  | MRoot root => len root = HashSize
  | MAck => True
  end.

(** What the peer reads, in a session with [fileID]: of a chunk only the index, the
    ciphertext, the nonce and the commitment are sent. *)
Definition as_read (fileID : bytes) (m : message) : message :=
  match m with
  | MResponse c => MResponse
      {| c_FileID := fileID; c_Index := c_Index c; c_Length := len (c_Ciphertext c); c_Plaintext := [];
         c_Ciphertext := c_Ciphertext c; c_Key := []; c_Nonce := c_Nonce c; c_HResp := c_HResp c; c_Leaf := [] |}
  | m => m
  end.

(** The values a Read function returns, in a session with [fileID]. *)
Definition message_valid (fileID : bytes) (m : message) : Prop :=
  match m with
  | MHeader h => header_valid h
  | MRequest i | MTicket i => is_u32 i
  | MResponse c => response_valid fileID c
  | MKey i key => is_u32 i /\ len key = KeySize
  | MRoot root => len root = HashSize
  | MAck => True
  end.

(** The reader of messages of the kind of [m]. *)
Definition read_like (fileID : bytes) (m : message) : prog (res message) :=
  match m with
  | MHeader _ => let? h := ReadHeader orelse e => Err e in Ret (Ok (MHeader h))
  | MRequest _ => let? i := ReadChunkRequest orelse e => Err e in Ret (Ok (MRequest i))
  | MResponse _ => let? c := ReadChunkResponse fileID orelse e => Err e in Ret (Ok (MResponse c))
  | MTicket _ => let? i := ReadLotteryTicket orelse e => Err e in Ret (Ok (MTicket i))
  | MKey _ _ => let? (i, key) := ReadKeyReveal orelse e => Err e in Ret (Ok (MKey i key))
  | MRoot _ => let? root := ReadRoot orelse e => Err e in Ret (Ok (MRoot root))
  | MAck => check! ReadFinalAck orelse e => Err e in Ret (Ok MAck)
  end.

(** The bytes of a message. *)
Definition encode (m : message) : bytes :=
  match m with
  | MHeader h => headerBytes h
  | MRequest i => chunkRequestBytes i
  | MResponse c => chunkResponseBytes c
  | MTicket i => lotteryTicketBytes i
  | MKey i key => keyRevealBytes i key
  | MRoot root => rootBytes root
  | MAck => finalAckBytes
  end.

Definition same_kind (m m' : message) : Prop := head (encode m) = head (encode m').

(** ** Lemmas *)

Lemma send_encode m : send m = Vis (OWrite (encode m)) Ret.
Proof. by destruct m. Qed.

Lemma sent_send m tr : exec (send m) tr (Done None) -> concat (sent tr) = encode m.
Proof.
  rewrite send_encode. simpl. intros (a & tr' & _ & -> & -> & [= <-]). simpl. apply app_nil_r.
Qed.

(** The seven codecs as one: each kind of message is a codec, up to the
    constructor. *)
Record kind := mkKind {
  kd_type : Type;
  kd_codec : Codec kd_type;
  kd_inj : kd_type -> message
}.

Definition kind_of (fileID : bytes) (m : message) : kind :=
  match m with
  | MHeader _ => mkKind _ header_codec MHeader
  | MRequest _ => mkKind _ request_codec MRequest
  | MResponse _ => mkKind _ (response_codec fileID) MResponse
  | MTicket _ => mkKind _ ticket_codec MTicket
  | MKey _ _ => mkKind _ key_codec (fun '(i, key) => MKey i key)
  | MRoot _ => mkKind _ root_codec MRoot
  | MAck => mkKind _ ack_codec (fun _ => MAck)
  end.

Lemma kind_inj fid m (x : kd_type (kind_of fid m)) :
  encode (kd_inj (kind_of fid m) x) = cd_encode (kd_codec (kind_of fid m)) x /\
  (message_valid fid (kd_inj (kind_of fid m) x) <-> cd_valid (kd_codec (kind_of fid m)) x) /\
  same_kind (kd_inj (kind_of fid m) x) m.
Proof. destruct m; try done. by destruct x. Qed.

Lemma kind_self fid m : exists x, m = kd_inj (kind_of fid m) x.
Proof.
  destruct m as [h|i|c|i|i key|root|]; [by exists h|by exists i|by exists c|by exists i
    |by exists (i, key)|by exists root|by exists tt].
Qed.

Lemma feed_read_like fid m b :
  feed (read_like fid m) b =
  match feed (cd_read (kd_codec (kind_of fid m))) b with
  | Some (Ok x, rest) => Some (Ok (kd_inj (kind_of fid m) x), rest)
  | Some (Err e, rest) => Some (Err e, rest)
  | None => None
  end.
Proof.
  destruct m; cbn [read_like kind_of kd_type kd_codec kd_inj cd_read header_codec request_codec
    response_codec ticket_codec key_codec root_codec ack_codec]; rewrite feed_bind;
    try (by destruct (feed _ b) as [[[x|e] r]|]).
  - by destruct (feed ReadKeyReveal b) as [[[[i' k']|e] r]|].
  - unfold read_ack. rewrite feed_bind. by destruct (feed ReadFinalAck b) as [[[e|] r]|].
Qed.

Lemma read_like_complete fid m rest :
  message_valid fid m -> feed (read_like fid m) (encode m ++ rest) = Some (Ok m, rest).
Proof.
  intros Hm. rewrite feed_read_like. destruct (kind_self fid m) as [x Hx].
  destruct (kind_inj fid m x) as (He & Hv & _). rewrite <-Hx in He, Hv. apply Hv in Hm.
  by rewrite He, cd_complete, <-Hx.
Qed.

Lemma read_like_sound fid m0 b m rest :
  feed (read_like fid m0) b = Some (Ok m, rest) ->
  message_valid fid m /\ same_kind m m0 /\ b = encode m ++ rest.
Proof.
  rewrite feed_read_like.
  destruct (feed (cd_read _) b) as [[[x|e] r]|] eqn:Hf; [|done|done]. intros [= <- <-].
  destruct (kind_inj fid m0 x) as (-> & Hv & Hk). apply cd_sound in Hf as [Hx ->].
  by rewrite Hv.
Qed.

(** What is sent is the encoding of what is read. *)
Lemma as_read_valid fid m : sendable m -> message_valid fid (as_read fid m).
Proof. destruct m; cbn; try done. intros (Hi & Hc & Hn & Hh). by split_and!. Qed.

Lemma encode_as_read fid m : encode (as_read fid m) = encode m.
Proof. by destruct m. Qed.

Lemma read_like_as_read fid m : read_like fid (as_read fid m) = read_like fid m.
Proof. by destruct m. Qed.

Lemma encode_prefix fid m m' rest rest' :
  message_valid fid m -> message_valid fid m' ->
  encode m ++ rest = encode m' ++ rest' -> m = m' /\ rest = rest'.
Proof.
  intros Hm Hm' Heq. assert (Hk : read_like fid m = read_like fid m').
  { apply (f_equal head) in Heq. by destruct m, m'. }
  pose proof (read_like_complete fid m rest Hm) as H1.
  rewrite Heq, Hk, (read_like_complete fid m' rest' Hm') in H1. by injection H1.
Qed.

(** ** Properties *)

(** C27: what a Send function writes, the Read function of the peer reads back,
    for each of the seven messages, and it leaves exactly the bytes that
    follow.  Of a chunk, whatever its key, plaintext, leaf and length are, the
    peer gets the index, the ciphertext with its length, the nonce and the
    commitment, under the file ID of its own session, and nothing else. *)
Theorem message_roundtrip fileID m tr rest :
  sendable m -> exec (send m) tr (Done None) ->
  feed (read_like fileID m) (concat (sent tr) ++ rest) = Some (Ok (as_read fileID m), rest).
Proof.
  intros Hm ->%sent_send. rewrite <-(encode_as_read fileID m), <-(read_like_as_read fileID m).
  by apply read_like_complete, as_read_valid.
Qed.

(** C28: a Read function accepts nothing but messages of its kind: when it
    returns a value, the bytes it consumed are exactly what the Send function
    writes for that value, and the value is within the bounds of its fields. *)
Theorem message_accepted fileID m0 b m rest :
  feed (read_like fileID m0) b = Some (Ok m, rest) ->
  message_valid fileID m /\ same_kind m m0 /\ b = encode m ++ rest.
Proof. apply read_like_sound. Qed.

(** C29: a message cut short is refused: when the stream ends inside a message that
    a Send function has written, the Read function returns an error, never a
    value, for each of the seven messages. *)
Theorem message_truncated fileID m tr b1 b2 :
  sendable m -> exec (send m) tr (Done None) ->
  concat (sent tr) = b1 ++ b2 -> b2 <> [] ->
  exists e, feed (read_like fileID m) b1 = Some (Err e, []).
Proof.
  intros Hm%(as_read_valid fileID) ->%sent_send. rewrite <-(encode_as_read fileID m), <-(read_like_as_read fileID m).
  generalize dependent (as_read fileID m). clear m. intros m Hm Hb Hb2. rewrite feed_read_like.
  destruct (kind_self fileID m) as [x Hx]. destruct (kind_inj fileID m x) as (He & Hv & _).
  rewrite <-Hx in He, Hv. rewrite He in Hb.
  destruct (codec_truncated _ x b1 b2 (proj1 Hv Hm) Hb Hb2) as [e ->]. by exists e.
Qed.

(** A stream has one reading: two sequences of messages with the same bytes
    are the same sequence. *)
Lemma stream_unambiguous fileID ms ms' :
  Forall (message_valid fileID) ms -> Forall (message_valid fileID) ms' ->
  ms ≫= encode = ms' ≫= encode -> ms = ms'.
Proof.
  intros Hms. revert ms'. induction Hms as [|m ms Hm Hms IH]; intros ms' Hms' Heq.
  - destruct ms' as [|m' ms']; [done|]. by destruct m'.
  - destruct Hms' as [|m' ms' Hm' Hms']; [by destruct m|]. cbn in Heq.
    apply (encode_prefix fileID) in Heq as [-> Heq]; [|done|done]. f_equal. by apply IH.
Qed.
