(* ===== verification/Controllers.v ===== *)
(** * Controllers: package controllers

    The steps of the sender and of the receiver, their step tables, and the
    entry points [SendFile] and [RecieveFile] (Controllers/controllers.go).
    A step returns the session with every assignment made before it returns,
    on its error paths too; [s.PendingChunk] is a pointer, so what
    [DecryptAndCheck] and a step assign to the chunk is stored back in the
    session.  What the state machine logs is in [Log]; the other printing has no
    counterpart. *)

From S2P Require Import Prelude Effects AesGcm Protocol Utils Merkle Wire.

Section controllers.
Context `{LegacyKeccak256}.

(** [fileInfo.Size()] is called before the error of [Stat] is looked at: on an
    error [fileInfo] is nil and the call panics.  The sum and the quotient are
    [int64] operations, and both fields are converted to [uint32]. *)
Definition PrepareMetadata (file : handle) : prog MetaData :=
  let! r := perform (OStat file) in
  match r with
  | Err _ => Halt (Panic "nil pointer dereference")
  | Ok fileInfo =>
      let filesize := fi_Size fileInfo in
      Ret {| md_Name := fi_Name fileInfo;
             md_FileSize := u32 filesize;
             md_Reps := u32 (Z.quot (i64 (i64 (filesize + ChunkSize) - 1)) ChunkSize);
             md_FileID := [] |}
  end.

Definition generateFileID (file : handle) : prog (res bytes) :=
  let! r := perform (OStat file) in
  match r with
  | Err _ => Halt (Fatal "Error reading stats of the file")
  | Ok info =>
      let filename := fi_Name info in
      let filesize := fi_Size info in
      let! timestamp := perform ONow in
      let sizeBytes := PutUint64 (u64 filesize) in
      let timeBytes := PutUint64 (u64 timestamp) in
      Ret (Ok (Keccak [bytes_of_string filename; sizeBytes; timeBytes]))
  end.

(** ** Sender *)

Definition stepSenderIdle : Step := fun s => Ret (s, Ok StateSendHeader).

Definition stepSenderSendHeader : Step := fun s =>
  let header := {| md_Name := s_FileName s;
                   md_FileSize := u32 (s_FileSize s);
                   md_Reps := s_TotalChunks s;
                   md_FileID := s_FileID s |} in
  check! SendHeader header orelse err => (s, Err (wrap "sending header: %w" err)) in
  if s_TotalChunks s =? 0 then Ret (s, Ok StateFinished)
  else Ret (s, Ok StateWaitingChunkRequest).

Definition stepSenderWaitChunkRequest : Step := fun s =>
  let? idx := ReadChunkRequest orelse err => (s, Err (wrap "reading chunk request: %w" err)) in
  if negb (idx =? s_CurrentChunk s) then
    Ret (s, Err (Errorf "out-of-order chunk request: want %d, got %d"
                   [AUint (s_CurrentChunk s); AUint idx]))
  else Ret (s, Ok StateSendChunkResponse).

Definition stepSenderSendChunkResponse : Step := fun s =>
  let? plaintext := ReadChunkPlaintext (s_File s) (s_CurrentChunk s) (s_ChunkSize s)
    orelse err => (s, Err (Errorf "reading chunk %d from disk: %w"
                             [AUint (s_CurrentChunk s); AError err])) in
  let? c := BuildAndEncryptChunk (s_FileID s) (s_CurrentChunk s) plaintext
    orelse err => (s, Err err) in
  check! SendChunkResponse c
    orelse err => (s, Err (Errorf "sending chunk response %d: %w"
                             [AUint (s_CurrentChunk s); AError err])) in
  let s := set_PendingChunk s (Some c) in
  Ret (s, Ok StateWaitingLotteryTicket).

Definition stepSenderWaitLotteryTicket : Step := fun s =>
  let? idx := ReadLotteryTicket orelse err => (s, Err (wrap "reading lottery ticket: %w" err)) in
  if negb (idx =? s_CurrentChunk s) then
    Ret (s, Err (Errorf "lottery ticket for wrong chunk: want %d, got %d"
                   [AUint (s_CurrentChunk s); AUint idx]))
  else Ret (s, Ok StateSendKeyReveal).

Definition stepSenderSendKeyReveal : Step := fun s =>
  match s_PendingChunk s with
  | None => Halt (Panic "nil pointer dereference")
  | Some c =>
      check! SendKeyReveal (s_CurrentChunk s) (c_Key c)
        orelse err => (s, Err (Errorf "sending key reveal %d: %w"
                                 [AUint (s_CurrentChunk s); AError err])) in
      let c := set_Leaf c (GenerateLeaf c) in
      let s := set_Leaves s (s_Leaves s ++ [c_Leaf c]) in
      let last := IsLastChunk s in
      let s := set_PendingChunk s None in
      if last then Ret (s, Ok StateVerifyMerkle)
      else Ret (AdvanceChunk s, Ok StateWaitingChunkRequest)
  end.

Definition stepSenderVerifyMerkle : Step := fun s =>
  match Root_of_tree (BuildTree (s_Leaves s)) with
  | None => Halt (Panic "index out of range")
  | Some root =>
      check! SendRoot root orelse err => (s, Err (wrap "sending merkle root: %w" err)) in
      check! ReadFinalAck orelse err => (s, Err (wrap "waiting for final ack: %w" err)) in
      Ret (s, Ok StateFinished)
  end.

Definition senderSteps : StepTable :=
  [ (StateIdle, stepSenderIdle);
    (StateSendHeader, stepSenderSendHeader);
    (StateWaitingChunkRequest, stepSenderWaitChunkRequest);
    (StateSendChunkResponse, stepSenderSendChunkResponse);
    (StateWaitingLotteryTicket, stepSenderWaitLotteryTicket);
    (StateSendKeyReveal, stepSenderSendKeyReveal);
    (StateVerifyMerkle, stepSenderVerifyMerkle) ].

(** The session [SendFile] starts. *)
Definition senderSession (file : handle) (header : MetaData) (fileID : bytes) : Session :=
  let s := NewSession RoleSender in
  let s := set_File s file in
  set_header s fileID (md_Name header) (md_FileSize header) (md_Reps header).

Definition SendFile (fuel : nat) (path : string) : prog (option error) :=
  let! r := perform (OOpenFile path) in
  match r with
  | Err _ => Halt (Fatal "Error reading the file:")
  | Ok file =>
      defer (perform (OFileClose file))
       (let! r := generateFileID file in
        match r with
        | Err err => Ret (Some (wrap "couldn't generate file ID: %w" err))
        | Ok fileID =>
            let! header := PrepareMetadata file in
            let! (s, err) := Run fuel (senderSession file header fileID) senderSteps in
            Ret err
        end)
  end.

(** ** Receiver *)

Definition stepReceiverIdle : Step := fun s => Ret (s, Ok StateReceiveHeader).

Definition stepReceiverReceiveHeader : Step := fun s =>
  let? header := ReadHeader orelse err => (s, Err (wrap "reading header: %w" err)) in
  let s := set_header s (md_FileID header) (md_Name header) (md_FileSize header) (md_Reps header) in
  let! _ := perform (OMkdirAll "./received/") in
  let? file := perform (OCreate ("./received/" +:+ md_Name header))
    orelse err => (s, Err (wrap "creating output file: %w" err)) in
  let s := set_File s file in
  if s_TotalChunks s =? 0 then
    check! perform (OFileClose file)
      orelse err => (s, Err (wrap "closing empty output file: %w" err)) in
    Ret (s, Ok StateFinished)
  else Ret (s, Ok StateSendChunkRequest).

Definition stepReceiverSendChunkRequest : Step := fun s =>
  check! SendChunkRequest (s_CurrentChunk s)
    orelse err => (s, Err (Errorf "sending chunk request %d: %w"
                             [AUint (s_CurrentChunk s); AError err])) in
  Ret (s, Ok StateWaitingChunkResponse).

Definition stepReceiverWaitChunkResponse : Step := fun s =>
  let? c := ReadChunkResponse (s_FileID s)
    orelse err => (s, Err (Errorf "reading chunk response %d: %w"
                             [AUint (s_CurrentChunk s); AError err])) in
  if negb (c_Index c =? s_CurrentChunk s) then
    Ret (s, Err (Errorf "out-of-order chunk response: want %d, got %d"
                   [AUint (s_CurrentChunk s); AUint (c_Index c)]))
  else
    let s := set_PendingChunk s (Some c) in
    Ret (s, Ok StateSendLotteryTicket).

Definition stepReceiverSendLotteryTicket : Step := fun s =>
  check! SendLotteryTicket (s_CurrentChunk s)
    orelse err => (s, Err (Errorf "sending lottery ticket %d: %w"
                             [AUint (s_CurrentChunk s); AError err])) in
  Ret (s, Ok StateWaitingKeyReveal).

Definition stepReceiverWaitKeyReveal : Step := fun s =>
  let? (idx, key) := ReadKeyReveal
    orelse err => (s, Err (Errorf "reading key reveal %d: %w"
                             [AUint (s_CurrentChunk s); AError err])) in
  if negb (idx =? s_CurrentChunk s) then
    Ret (s, Err (Errorf "key reveal for wrong chunk: want %d, got %d"
                   [AUint (s_CurrentChunk s); AUint idx]))
  else
    match s_PendingChunk s with
    | None => Halt (Panic "nil pointer dereference")
    | Some c =>
        let s := set_PendingChunk s (Some (set_Key c key)) in
        Ret (s, Ok StateVerifyChunk)
    end.

(** [s.File.Write] and [s.File.Close]. *)
Definition fileWrite (f : option handle) (b : bytes) : prog (option error) :=
  match f with None => Ret (Some ErrInvalid) | Some f => perform (OFileWrite f b) end.

Definition fileClose (f : option handle) : prog (option error) :=
  match f with None => Ret (Some ErrInvalid) | Some f => perform (OFileClose f) end.

Definition stepReceiverVerifyChunk : Step := fun s =>
  match s_PendingChunk s with
  | None => Halt (Panic "nil pointer dereference")
  | Some c =>
      let! (c, r) := DecryptAndCheck c in
      let s := set_PendingChunk s (Some c) in
      match r with
      | Err err => Ret (s, Err err)
      | Ok plaintext =>
          let c := set_Leaf c (GenerateLeaf c) in
          let s := set_PendingChunk s (Some c) in
          let s := set_Leaves s (s_Leaves s ++ [c_Leaf c]) in
          check! fileWrite (s_File s) plaintext
            orelse err => (s, Err (Errorf "writing chunk %d to disk: %w"
                                     [AUint (s_CurrentChunk s); AError err])) in
          let last := IsLastChunk s in
          let s := set_PendingChunk s None in
          if last then Ret (s, Ok StateVerifyMerkle)
          else Ret (AdvanceChunk s, Ok StateSendChunkRequest)
      end
  end.

(** The body of [stepReceiverVerifyMerkle], before its deferred [s.File.Close()]. *)
Definition verifyMerkleBody : Step := fun s =>
  let? remoteRoot := ReadRoot orelse err => (s, Err (wrap "reading merkle root: %w" err)) in
  match Root_of_tree (BuildTree (s_Leaves s)) with
  | None => Halt (Panic "index out of range")
  | Some localRoot =>
      if negb (bool_decide (localRoot = remoteRoot)) then
        Ret (s, Err (Errorf "merkle root mismatch: local=%x remote=%x"
                       [ABytes localRoot; ABytes remoteRoot]))
      else
        check! SendFinalAck orelse err => (s, Err (wrap "sending final ack: %w" err)) in
        Ret (s, Ok StateFinished)
  end.

Definition stepReceiverVerifyMerkle : Step := fun s =>
  defer (fileClose (s_File s)) (verifyMerkleBody s).

Definition receiverSteps : StepTable :=
  [ (StateIdle, stepReceiverIdle);
    (StateReceiveHeader, stepReceiverReceiveHeader);
    (StateSendChunkRequest, stepReceiverSendChunkRequest);
    (StateWaitingChunkResponse, stepReceiverWaitChunkResponse);
    (StateSendLotteryTicket, stepReceiverSendLotteryTicket);
    (StateWaitingKeyReveal, stepReceiverWaitKeyReveal);
    (StateVerifyChunk, stepReceiverVerifyChunk);
    (StateVerifyMerkle, stepReceiverVerifyMerkle) ].

Definition RecieveFile (fuel : nat) : prog (option error) :=
  let! (s, err) := Run fuel (NewSession RoleReceiver) receiverSteps in
  Ret err.

End controllers.
