(* ===== verification/Operations.v ===== *)
(** * Operations: what a transfer may ask of its environment

    The operations [SendFile] and [RecieveFile] can perform, whatever they are
    answered: which of them, and how large the buffers are.  Derived from the
    code of every step; the session invariant is that the size of a chunk stays
    [ChunkSize]. *)

From S2P Require Import Prelude Effects AesGcm Protocol Utils Merkle Wire Controllers.

(** The operations of a step, case by case. *)
Ltac solve_does :=
  repeat match goal with
  | |- True => exact I
  | |- _ /\ _ => split
  | |- forall _, _ => intros ?
  | |- does _ _ (bind _ _) => apply uses_bind
  | |- uses _ (bind _ _) => apply uses_bind
  | |- does _ _ (match ?x with _ => _ end) => destruct x
  | |- uses _ (match ?x with _ => _ end) => destruct x
  | |- does _ _ _ => progress cbn
  | |- uses _ _ => progress cbn
  | |- is_u32 (Uint32 _) => apply Uint32_range
  | |- _ => done
  end.

Section operations.
Context `{LegacyKeccak256}.

(** The sender: it reads at most four bytes at a time and leaves the disk as it is. *)
Definition sender_op (o : op) : Prop :=
  match o with
  | OReadFull n => 0 <= n <= 4
  | ORand n => 0 <= n <= KeySize
  | OReadAt _ n _ => n = ChunkSize
  | OWrite _ | ONow | OOpenFile _ | OStat _ | OFileClose _ => True
  | _ => False
  end.

(** The receiver: it draws no random bytes and reads no file. *)
Definition receiver_op (o : op) : Prop :=
  match o with
  | OReadFull n => is_u32 n
  | OWrite _ | OMkdirAll _ | OCreate _ | OFileWrite _ _ | OFileClose _ => True
  | _ => False
  end.

(** ** Steps *)

(** An invariant of the session that the steps keep and that does not depend on
    the state holds throughout [Run]. *)
Lemma does_Run P (Inv : Session -> Prop) fuel s (steps : StepTable) :
  (forall s st, Inv s -> Inv (set_state s st)) ->
  (forall st step s, map_get steps st = Some step -> Inv s -> does P (fun r => Inv r.1) (step s)) ->
  Inv s -> uses P (Run fuel s steps).
Proof.
  intros Hst Hs. revert s. induction fuel as [|n IH]; intros s Hc; [done|]. cbn [Run].
  apply (does_bind _ (fun r => Inv r.1)); [|intros [s' [e|]] Hc'; [done|by apply IH]].
  unfold RunIter. repeat case_bool_decide; [done|done|].
  destruct (map_get steps (GetState s)) as [step|] eqn:Hg; [|by apply Hst].
  eapply does_bind; [by eapply Hs|]. intros [s' [next|err]] Hc'; [|by apply Hst].
  unfold Transition. destruct (negb _); by apply Hst.
Qed.

Definition fixed_chunks (s : Session) : Prop := s_ChunkSize s = ChunkSize.

Lemma SendFile_ops fuel path : uses sender_op (SendFile fuel path).
Proof.
  unfold SendFile. apply uses_bind; [done|]. intros [f|e]; [|done]. apply does_defer; [done|].
  unfold generateFileID, PrepareMetadata.
  cbn [perform bind]. split; [done|]. intros [info|e]; [|done]. cbn [bind].
  split; [done|]. intros t. split; [done|]. intros [info'|e]; [|done]. cbn [bind].
  apply uses_bind; [|by intros [s err]]. apply (does_Run _ fixed_chunks); [done| |done].
  intros st step s Hg Hc. destruct st; cbn in Hg; try discriminate Hg; injection Hg as <-.
  - done.
  - unfold stepSenderSendHeader, SendHeader. solve_does.
  - unfold stepSenderWaitChunkRequest, ReadChunkRequest, readSentinel. solve_does.
  - unfold stepSenderSendChunkResponse, ReadChunkPlaintext, BuildAndEncryptChunk, GenerateRandomKey,
      EncryptChunk, SendChunkResponse, Seal. solve_does.
  - unfold stepSenderWaitLotteryTicket, ReadLotteryTicket, readSentinel. solve_does.
  - unfold stepSenderSendKeyReveal, SendKeyReveal. solve_does.
  - unfold stepSenderVerifyMerkle, SendRoot, ReadFinalAck, readSentinel. solve_does.
Qed.

Lemma RecieveFile_ops fuel : uses receiver_op (RecieveFile fuel).
Proof.
  unfold RecieveFile. apply uses_bind; [|by intros [s err]]. apply (does_Run _ fixed_chunks); [done| |done].
  intros st step s Hg Hc. destruct st; cbn in Hg; try discriminate Hg; injection Hg as <-.
  - done.
  - unfold stepReceiverReceiveHeader, ReadHeader, readSentinel. solve_does.
  - unfold stepReceiverSendChunkRequest, SendChunkRequest. solve_does.
  - unfold stepReceiverWaitChunkResponse, ReadChunkResponse, readSentinel. solve_does.
  - unfold stepReceiverSendLotteryTicket, SendLotteryTicket. solve_does.
  - unfold stepReceiverWaitKeyReveal, ReadKeyReveal, readSentinel. solve_does.
  - unfold stepReceiverVerifyChunk, DecryptAndCheck, Open, fileWrite. solve_does.
  - apply does_defer; [by unfold fileClose; destruct (s_File s)|].
    unfold verifyMerkleBody, ReadRoot, SendFinalAck, readSentinel. solve_does.
Qed.

End operations.
