(* ===== verification/Tables.v ===== *)
(** * Tables: the state machine by itself

    The transition table against the step tables of the sender and of the
    receiver, and the final state of [Run] for any step table. *)

From S2P Require Import Prelude Effects Protocol Utils Controllers.

(** A transition [Session.Transition] accepts. *)
Definition allowed (st st' : TransferState) : Prop := isAllowed st st' = true.

(** A set of states no accepted transition leaves. *)
Lemma rtc_closed (P : TransferState -> Prop) st st' :
  (forall x y, P x -> allowed x y -> P y) -> rtc allowed st st' -> P st -> P st'.
Proof. intros HP. induction 1; eauto. Qed.

(** The states of each side, once it has left Idle. *)
Definition sender_side (st : TransferState) : Prop :=
  match st with
  | StateSendHeader | StateWaitingChunkRequest | StateSendChunkResponse
  | StateWaitingLotteryTicket | StateSendKeyReveal | StateVerifyMerkle | StateFinished => True
  | _ => False
  end.

Definition receiver_side (st : TransferState) : Prop :=
  match st with
  | StateReceiveHeader | StateSendChunkRequest | StateWaitingChunkResponse
  | StateSendLotteryTicket | StateWaitingKeyReveal | StateVerifyChunk | StateVerifyMerkle
  | StateFinished => True
  | _ => False
  end.

Lemma sender_side_closed x y : sender_side x -> allowed x y -> sender_side y.
Proof. by destruct x, y. Qed.

Lemma receiver_side_closed x y : receiver_side x -> allowed x y -> receiver_side y.
Proof. by destruct x, y. Qed.

(** The last chunk is followed by the Merkle roots, and these by the end. *)
Lemma reach_Finished st : st <> StateError -> rtc allowed st StateFinished.
Proof.
  assert (HM : rtc allowed StateVerifyMerkle StateFinished) by (by apply rtc_once).
  assert (HK : rtc allowed StateSendKeyReveal StateFinished) by (eapply rtc_l; [|exact HM]; done).
  assert (HV : rtc allowed StateVerifyChunk StateFinished) by (eapply rtc_l; [|exact HM]; done).
  assert (HT : rtc allowed StateWaitingLotteryTicket StateFinished) by (eapply rtc_l; [|exact HK]; done).
  assert (HR : rtc allowed StateSendChunkResponse StateFinished) by (eapply rtc_l; [|exact HT]; done).
  assert (HW : rtc allowed StateWaitingKeyReveal StateFinished) by (eapply rtc_l; [|exact HV]; done).
  assert (HL : rtc allowed StateSendLotteryTicket StateFinished) by (eapply rtc_l; [|exact HW]; done).
  assert (HC : rtc allowed StateWaitingChunkResponse StateFinished) by (eapply rtc_l; [|exact HL]; done).
  assert (HH : rtc allowed StateSendHeader StateFinished) by (by apply rtc_once).
  destruct st; intros Hst; try done; try apply rtc_refl.
  - eapply rtc_l; [|exact HH]; done.
  - by apply rtc_once.
  - eapply rtc_l; [|exact HR]; done.
  - eapply rtc_l; [|exact HC]; done.
Qed.

(** ** Properties *)

(** The step tables are complete.  Every state the transition table lets a
    sender get to from its header has a step in the sender's table or is the
    final one, and likewise for the receiver: [Run] never ends with
    "no step registered".  No state is a dead end: from every state but Error
    there is a way to Finished, no accepted transition leads to Error, and none
    leaves Finished or Error. *)
Lemma step_tables_complete `{LegacyKeccak256} st :
  (rtc allowed StateSendHeader st -> st = StateFinished \/ is_Some (map_get senderSteps st)) /\
  (rtc allowed StateReceiveHeader st -> st = StateFinished \/ is_Some (map_get receiverSteps st)) /\
  (st <> StateError -> rtc allowed st StateFinished) /\
  ~ allowed st StateError /\ ~ allowed StateFinished st /\ ~ allowed StateError st.
Proof.
  split; [|split; [|split_and!; [apply reach_Finished|by destruct st..]]]; intros Hr.
  - apply (rtc_closed sender_side) in Hr; [|apply sender_side_closed|done].
    destruct st; try done; (by left) || (right; by eexists).
  - apply (rtc_closed receiver_side) in Hr; [|apply receiver_side_closed|done].
    destruct st; try done; (by left) || (right; by eexists).
Qed.

(** For every table of steps, [Run] leaves the session in Finished exactly
    when it returns [nil], and in Error when it returns an error. *)
Lemma Run_final_state fuel s steps tr s' e :
  exec (Run fuel s steps) tr (Done (s', e)) ->
  s_state s' = match e with None => StateFinished | Some _ => StateError end.
Proof.
  revert s tr. induction fuel as [|fuel IH]; intros s tr; [by intros [_ ?]|].
  cbn [Run]. rewrite exec_bind.
  intros [(h & _ & ?)|([s1 r] & tr1 & tr2 & Hi & Hk & _)]; [done|].
  destruct r as [e'|]; [|by eapply IH]. destruct Hk as [_ [= -> ->]].
  unfold RunIter, GetState in Hi.
  case_bool_decide as Hf; [by destruct Hi as [_ [= -> ->]]|].
  case_bool_decide as He; [by destruct Hi as [_ [= -> ->]]|].
  destruct (map_get steps (s_state s)) as [step|]; [|by destruct Hi as [_ [= -> ->]]].
  apply exec_bind in Hi as [(h & _ & ?)|([s2 r] & tr3 & tr4 & _ & Hk & _)]; [done|].
  destruct r as [next|err]; [|by destruct Hk as [_ [= -> ->]]].
  destruct (Transition s2 next) as [s3 [err|]]; destruct Hk as [_ [= Hs He']].
  by rewrite Hs, He'.
Qed.
