(* ===== verification/Flow.v ===== *)
(** * Flow: what is on the stream, and proof rules for steps and [Run]

    [flow] is the sequence of bytes an endpoint has sent and received, in the
    order it did so.  The rules: reading a message of a codec, writing, and
    running the state machine with an invariant and a measure. *)

From S2P Require Import Prelude Effects Protocol Wire.

(** ** The bytes on the stream, with their direction *)

Inductive dir : Type := Rx | Tx.

Definition tag (d : dir) (b : bytes) : list (dir * byte) := (fun x => (d, x)) <$> b.

Definition flow_event (e : event) : list (dir * byte) :=
  match e with
  | EvRead _ (Ok b) => tag Rx b
  | EvWrite b None => tag Tx b
  | _ => []
  end.

Definition flow (tr : list event) : list (dir * byte) := tr ≫= flow_event.

Definition is_read (e : event) : Prop := match e with EvRead _ _ => True | _ => False end.

(** An operation that is not on the stream. *)
Definition is_local (e : event) : Prop :=
  match e with EvRead _ _ | EvWrite _ _ => False | _ => True end.

Lemma flow_app tr1 tr2 : flow (tr1 ++ tr2) = flow tr1 ++ flow tr2.
Proof. apply bind_app. Qed.

Lemma flow_singleton e : flow [e] = flow_event e.
Proof. unfold flow. simpl. apply app_nil_r. Qed.

Lemma flow_local e : is_local e -> flow [e] = [].
Proof. rewrite flow_singleton. by destruct e. Qed.

Lemma tag_app d b b' : tag d (b ++ b') = tag d b ++ tag d b'.
Proof. apply fmap_app. Qed.

Lemma tag_inj d b b' : tag d b = tag d b' -> b = b'.
Proof. apply list_fmap_eq_inj. by intros x y [= ->]. Qed.

Lemma untouched_reads evs : Forall is_read evs -> untouched evs.
Proof.
  induction 1 as [|e evs He _ IH]; [done|]. change (e :: evs) with ([e] ++ evs).
  apply untouched_app. split; [by destruct e|done].
Qed.

#[global] Arguments flow : simpl never.
#[global] Arguments tag : simpl never.

Create Rewrite HintDb flow.
#[export] Hint Rewrite flow_app flow_singleton tag_app : flow.

(** ** Reading *)

(** A safety predicate that only writing to the stream can break. *)
Definition is_quiet (e : event) : Prop := match e with EvWrite _ _ => False | _ => True end.

Definition quiet_stable (I : list event -> Prop) : Prop :=
  forall tr e, is_quiet e -> I tr -> I (tr ++ [e]).

(** A safety predicate that does not depend on what is read. *)
Definition read_stable (I : list event -> Prop) : Prop :=
  forall tr n r, I tr -> I (tr ++ [EvRead n r]).

Lemma quiet_read_stable I : quiet_stable I -> read_stable I.
Proof. intros HI tr n r. by apply HI. Qed.

Lemma flow_quiet e : is_quiet e -> exists b, flow [e] = tag Rx b.
Proof.
  rewrite flow_singleton. destruct e as [n [b|err]| | | | | | | | | | | |]; intros He;
    try done; try (by exists []). by exists b.
Qed.

Lemma wp_strict_reader {A} I (p : prog (res A)) Q tr :
  strict_reader p -> read_stable I -> I tr ->
  (forall evs b a, Forall is_read evs -> flow evs = tag Rx b ->
     feed p b = Some (Ok a, []) -> I (tr ++ evs) -> Q (Done (Ok a)) (tr ++ evs)) ->
  (forall evs b e, Forall is_read evs -> flow evs = tag Rx b ->
     I (tr ++ evs) -> Q (Done (Err e)) (tr ++ evs)) ->
  wp I p Q tr.
Proof.
  intros Hp HI. revert tr. induction p as [r|h|o k IH]; intros tr Htr HOk HErr.
  - rewrite <-(app_nil_r tr) in Htr |- *. simpl. destruct r as [a|e].
    + by apply (HOk [] []).
    + by apply (HErr [] []).
  - done.
  - destruct o; try done. destruct Hp as (Hn & Herr & Hk). intros [b|e] Hwf; simpl in Hwf.
    + split; [by apply HI|]. apply IH; [by apply Hk|by apply HI| |].
      * intros evs b' a Hevs Hf Hfeed. rewrite <-app_assoc. simpl. intros Hs.
        apply (HOk _ (b ++ b')); [by constructor| | |done].
        { change (EvRead n (Ok b) :: evs) with ([EvRead n (Ok b)] ++ evs).
          rewrite flow_app, flow_singleton, Hf, tag_app. done. }
        by rewrite feed_read.
      * intros evs b' e Hevs Hf. rewrite <-app_assoc. simpl. intros Hs.
        apply (HErr _ (b ++ b')); [by constructor| |done].
        change (EvRead n (Ok b) :: evs) with ([EvRead n (Ok b)] ++ evs).
        rewrite flow_app, flow_singleton, Hf, tag_app. done.
    + split; [by apply HI|]. destruct (Herr e) as [e' ->]. simpl.
      apply (HErr _ []); [by repeat constructor|by rewrite flow_singleton|by apply HI].
Qed.

(** Reading a message: an accepted message is the bytes received. *)
Lemma wp_codec_read {M} I (cd : Codec M) Q tr :
  read_stable I -> I tr ->
  (forall evs m, Forall is_read evs -> cd_valid cd m ->
     flow evs = tag Rx (cd_encode cd m) -> I (tr ++ evs) -> Q (Done (Ok m)) (tr ++ evs)) ->
  (forall evs b e, Forall is_read evs -> flow evs = tag Rx b ->
     I (tr ++ evs) -> Q (Done (Err e)) (tr ++ evs)) ->
  wp I (cd_read cd) Q tr.
Proof.
  intros HI Htr HOk HErr. apply wp_strict_reader; [apply cd_strict|done|done| |done].
  intros evs b a Hevs Hf [Ha ->]%cd_sound Hs. rewrite app_nil_r in Hf. by apply HOk.
Qed.

(** ** Running the state machine *)

(** The error [Run] returns for a failed step. *)
Definition step_failed (e : error) : Prop :=
  exists st err, e = Errorf "step %s failed: %w" [AString (TransferState_String st); AError err].

(** What a step must do to keep an invariant [Inv] with a measure [mu]: the
    next state is an allowed one, the invariant holds there and the measure
    decreases. *)
Definition step_post (Inv : Session -> list event -> Prop) (mu : Session -> nat)
    (EInv : list event -> Prop) (s : Session)
    (r : Session * res TransferState) (tr : list event) : Prop :=
  match r with
  | (s', Ok next) => isAllowed (s_state s') next = true /\
      Inv (set_state s' next) tr /\ (mu (set_state s' next) < mu s)%nat
  | (_, Err _) => EInv tr
  end.

Definition run_post (Inv : Session -> list event -> Prop) (EInv : list event -> Prop)
    (r : Session * option error) (tr : list event) : Prop :=
  match r with
  | (s', None) => s_state s' = StateFinished /\ Inv s' tr
  | (s', Some e) => s_state s' = StateError /\ step_failed e /\ EInv tr
  end.

Section run_rule.
Context (I EInv : list event -> Prop) (steps : StepTable).
Context (Inv : Session -> list event -> Prop) (mu : Session -> nat).

Hypothesis Inv_running : forall s tr, Inv s tr -> s_state s <> StateError.
Hypothesis steps_ok : forall s tr, Inv s tr -> s_state s <> StateFinished ->
  exists step, map_get steps (s_state s) = Some step /\
    wp I (step s) (returns (step_post Inv mu EInv s)) tr.

Lemma wp_Run fuel s tr :
  Inv s tr -> (mu s < fuel)%nat -> wp I (Run fuel s steps) (returns (run_post Inv EInv)) tr.
Proof using Inv_running steps_ok.
  revert s tr. induction fuel as [|fuel IH]; intros s tr HInv Hmu; [lia|].
  cbn [Run]. apply wp_bind. unfold RunIter, GetState.
  case_bool_decide as Hfin; [done|]. rewrite bool_decide_false by eauto.
  destruct (steps_ok s tr HInv Hfin) as (step & -> & Hstep).
  apply wp_bind. eapply wp_mono; [apply Hstep|].
  intros [[s' [next|err]]|h] tr'; simpl; [| |done].
  - intros (Hal & HInv' & Hmu'). unfold Transition. rewrite Hal. simpl.
    apply IH; [done|lia].
  - intros HE. split_and!; [done| |done]. by exists (s_state s), err.
Qed.

End run_rule.

(** The counters in the middle of a transfer. *)
Lemma counters_at s n :
  s_TotalChunks s = n -> is_u32 n -> 0 <= s_CurrentChunk s < n ->
  IsLastChunk s = bool_decide (s_CurrentChunk s = n - 1) /\
  s_CurrentChunk (AdvanceChunk s) = s_CurrentChunk s + 1.
Proof.
  unfold is_u32. intros HT Hn Hk. split; [|apply u32_small; unfold is_u32; lia].
  unfold IsLastChunk. rewrite HT, u32_small, (proj2 (Z.ltb_lt 0 n)) by (unfold is_u32; lia). cbn [andb].
  by destruct (Z.eqb_spec (s_CurrentChunk s) (n - 1)) as [Hl|Hl]; [rewrite bool_decide_true|rewrite bool_decide_false].
Qed.

(** Fuel for [Run] with any number of chunks: at most five iterations per
    chunk and fewer than 2^32 chunks. *)
Definition enough_fuel (fuel : nat) : Prop := 2 ^ 35 <= Z.of_nat fuel.
