(* ===== verification/SenderSpec.v ===== *)
(** * SenderSpec: the sender against an arbitrary peer

    The conversation the sender may have, what holds of its session in each
    state, and the proof that every step keeps it, whatever the peer, the file
    system and the random generator answer. *)

From S2P Require Import Prelude Effects AesGcm Protocol Utils Merkle Wire Controllers Flow.

Section sender.
Context `{LegacyKeccak256}.

(** ** The conversation *)

(** A chunk as [BuildAndEncryptChunk] makes it. *)
Definition sealed_chunk (fileID : bytes) (i : Z) (c : Chunk) : Prop :=
  c_FileID c = fileID /\ c_Index c = i /\
  len (c_Key c) = KeySize /\ len (c_Nonce c) = NonceSize /\
  len (c_Plaintext c) <= ChunkSize /\
  c_HResp c = Keccak [c_Key c; c_Plaintext c] /\
  exists E, NewCipher (c_Key c) = Ok E /\
    c_Ciphertext c = seal E (c_Nonce c) (c_Plaintext c).

(** One round: the request for a chunk, its ciphertext and commitment, the
    ticket for it, its key. *)
Definition sender_round (c : Chunk) : list (dir * byte) :=
  tag Rx (chunkRequestBytes (c_Index c)) ++ tag Tx (chunkResponseBytes c)
  ++ tag Rx (lotteryTicketBytes (c_Index c)) ++ tag Tx (keyRevealBytes (c_Index c) (c_Key c)).

(** The header and the rounds of the chunks [cs]. *)
Definition sender_script (h : MetaData) (cs : list Chunk) : list (dir * byte) :=
  tag Tx (headerBytes h) ++ (cs ≫= sender_round).

(** [cs] are sealed chunks with the indices 0, 1, 2, ... *)
Definition sealed_chunks (fileID : bytes) (cs : list Chunk) : Prop :=
  forall i c, cs !! i = Some c -> sealed_chunk fileID (Z.of_nat i) c.

(** What the sender may have said and heard when it has just finished sending
    something (or has not started), and the chunks it has sent by then. *)
Inductive sender_point (h : MetaData) : list Chunk -> list (dir * byte) -> Prop :=
| sp_start : sender_point h [] []
| sp_rounds cs :
    sealed_chunks (md_FileID h) cs -> len cs <= md_Reps h ->
    sender_point h cs (sender_script h cs)
| sp_response cs c :
    sealed_chunks (md_FileID h) cs -> sealed_chunk (md_FileID h) (len cs) c ->
    len cs < md_Reps h ->
    sender_point h (cs ++ [c]) (sender_script h cs ++ tag Rx (chunkRequestBytes (len cs))
                    ++ tag Tx (chunkResponseBytes c))
| sp_root cs root :
    sealed_chunks (md_FileID h) cs -> len cs = md_Reps h -> 0 < md_Reps h ->
    merkle_root (GenerateLeaf <$> cs) = Some root ->
    sender_point h cs (sender_script h cs ++ tag Tx (rootBytes root)).

(** A chunk is what [ReadAt] returned, without an error other than the end of the
    file, for its place in the file. *)
Definition read_from_file (f : handle) (tr : list event) (c : Chunk) : Prop :=
  exists e, (e = None \/ e = Some EOF) /\
    EvReadAt f ChunkSize (ChunkSize * c_Index c) (c_Plaintext c) e ∈ tr.

(** The sender's conversation at any moment: such a point, with chunks read from
    the file [f], and then whatever bytes the peer has sent since. *)
Definition sender_conversation (h : MetaData) (f : handle) (tr : list event) : Prop :=
  exists cs f0 g, sender_point h cs f0 /\ flow tr = f0 ++ tag Rx g /\
    Forall (read_from_file f tr) cs.

(** Just before a key reveal for [i] is written, the last thing read was the
    lottery ticket for [i]. *)
Definition key_after_ticket (tr : list event) : Prop :=
  forall tr' i k e, tr = tr' ++ [EvWrite (keyRevealBytes i k) e] -> is_u32 i ->
    exists f, flow tr' = f ++ tag Rx (lotteryTicketBytes i).

(** What holds of the history at every moment. *)
Definition sender_safe (h : MetaData) (f : handle) (tr : list event) : Prop :=
  sender_conversation h f tr /\ key_after_ticket tr.

(** ** The session in each state *)

Definition sender_session (h : MetaData) (f : handle) (s : Session) : Prop :=
  s_File s = Some f /\ s_FileID s = md_FileID h /\ s_FileName s = md_Name h /\
  u32 (s_FileSize s) = md_FileSize h /\ s_TotalChunks s = md_Reps h /\
  s_ChunkSize s = ChunkSize /\ is_u32 (md_Reps h).

(** [cs] are the chunks whose keys have been revealed. *)
Definition sender_done (h : MetaData) (f : handle) (s : Session) (tr : list event)
    (cs : list Chunk) : Prop :=
  sealed_chunks (md_FileID h) cs /\ Forall (read_from_file f tr) cs /\
  s_Leaves s = GenerateLeaf <$> cs.

Definition sender_state (h : MetaData) (f : handle) (s : Session) (tr : list event) : Prop :=
  match s_state s with
  | StateIdle | StateSendHeader =>
      flow tr = [] /\ s_Leaves s = [] /\ s_CurrentChunk s = 0
  | StateWaitingChunkRequest => exists cs, sender_done h f s tr cs /\
      len cs = s_CurrentChunk s /\ s_CurrentChunk s < md_Reps h /\
      flow tr = sender_script h cs
  | StateSendChunkResponse => exists cs, sender_done h f s tr cs /\
      len cs = s_CurrentChunk s /\ s_CurrentChunk s < md_Reps h /\
      flow tr = sender_script h cs ++ tag Rx (chunkRequestBytes (len cs))
  | StateWaitingLotteryTicket => exists cs c, sender_done h f s tr cs /\
      len cs = s_CurrentChunk s /\ s_CurrentChunk s < md_Reps h /\
      sealed_chunk (md_FileID h) (len cs) c /\ read_from_file f tr c /\
      s_PendingChunk s = Some c /\
      flow tr = sender_script h cs ++ tag Rx (chunkRequestBytes (len cs))
                ++ tag Tx (chunkResponseBytes c)
  | StateSendKeyReveal => exists cs c, sender_done h f s tr cs /\
      len cs = s_CurrentChunk s /\ s_CurrentChunk s < md_Reps h /\
      sealed_chunk (md_FileID h) (len cs) c /\ read_from_file f tr c /\
      s_PendingChunk s = Some c /\
      flow tr = sender_script h cs ++ tag Rx (chunkRequestBytes (len cs))
                ++ tag Tx (chunkResponseBytes c) ++ tag Rx (lotteryTicketBytes (len cs))
  | StateVerifyMerkle => exists cs, sender_done h f s tr cs /\
      len cs = md_Reps h /\ 0 < md_Reps h /\ flow tr = sender_script h cs
  | StateFinished => exists cs, sender_done h f s tr cs /\ len cs = md_Reps h /\
      if decide (md_Reps h = 0) then flow tr = sender_script h []
      else exists root, merkle_root (GenerateLeaf <$> cs) = Some root /\
        flow tr = sender_script h cs ++ tag Tx (rootBytes root) ++ tag Rx finalAckBytes
  | _ => False
  end.

Definition sender_inv (h : MetaData) (f : handle) (s : Session) (tr : list event) : Prop :=
  sender_session h f s /\ sender_safe h f tr /\ sender_state h f s tr.

(** The number of iterations of [Run] left. *)
Definition sender_measure (s : Session) : nat :=
  let left := 4 * (s_TotalChunks s - s_CurrentChunk s) in
  Z.to_nat match s_state s with
  | StateIdle => left + 4
  | StateSendHeader => left + 3
  | StateWaitingChunkRequest => left + 2
  | StateSendChunkResponse => left + 1
  | StateWaitingLotteryTicket => left
  | StateSendKeyReveal => left - 1
  | StateVerifyMerkle => 2
  | StateFinished => 1
  | _ => 0
  end.

(** ** Lemmas on conversations *)

Lemma sealed_chunks_nil fid : sealed_chunks fid [].
Proof. by intros i c Hc. Qed.

Lemma sealed_chunks_snoc fid cs c :
  sealed_chunks fid cs -> sealed_chunk fid (len cs) c -> sealed_chunks fid (cs ++ [c]).
Proof.
  intros Hcs Hc i c' [Hi|[Hi Hi']]%lookup_app_Some; [by apply Hcs|].
  apply list_lookup_singleton_Some in Hi' as [Hz ->].
  assert (i = length cs) as -> by lia. done.
Qed.

Lemma sender_script_snoc h cs c :
  sender_script h (cs ++ [c]) = sender_script h cs ++ sender_round c.
Proof. unfold sender_script. rewrite bind_app. simpl. by rewrite app_nil_r, app_assoc. Qed.

Lemma read_from_file_mono f tr evs c : read_from_file f tr c -> read_from_file f (tr ++ evs) c.
Proof. intros (e & Herr & He). exists e. split; [done|]. set_solver. Qed.

Lemma sender_done_mono h f s tr evs cs :
  sender_done h f s tr cs -> sender_done h f s (tr ++ evs) cs.
Proof.
  intros (Hs & Hf & Hl). split_and!; [done| |done].
  eapply Forall_impl; [exact Hf|]. intros c. apply read_from_file_mono.
Qed.

Lemma sender_done_snoc h f s s' tr cs c :
  sender_done h f s tr cs -> sealed_chunk (md_FileID h) (len cs) c -> read_from_file f tr c ->
  s_Leaves s' = s_Leaves s ++ [GenerateLeaf c] -> sender_done h f s' tr (cs ++ [c]).
Proof.
  intros (Hs & Hf & Hl) Hc Hr Hl'. split_and!.
  - by apply sealed_chunks_snoc.
  - apply Forall_app. split; [done|]. by apply Forall_singleton.
  - by rewrite Hl', Hl, fmap_app.
Qed.

Lemma reads_from_file_mono f tr evs cs :
  Forall (read_from_file f tr) cs -> Forall (read_from_file f (tr ++ evs)) cs.
Proof. intros Hcs. eapply Forall_impl; [exact Hcs|]. intros c. apply read_from_file_mono. Qed.

Lemma sender_safe_quiet h f : quiet_stable (sender_safe h f).
Proof.
  intros tr e He [(cs & f0 & g & Hp & Hf & Hr) Hk]. split.
  - destruct (flow_quiet e He) as [b Hb]. exists cs, f0, (g ++ b).
    rewrite flow_app, Hf, Hb, tag_app, app_assoc.
    split_and!; [done|done|by apply reads_from_file_mono].
  - intros tr' i k err Heq. apply app_inj_2 in Heq as [_ Heq]; [|done]. by simplify_eq/=.
Qed.

(** Writing a message that leads to a point of the conversation. *)
Lemma conversation_write h f tr b e cs :
  sender_conversation h f tr -> sender_point h cs (flow tr ++ tag Tx b) ->
  Forall (read_from_file f tr) cs -> sender_conversation h f (tr ++ [EvWrite b e]).
Proof.
  intros (cs0 & f0 & g & Hp0 & Hf0 & Hr0) Hp Hr. unfold sender_conversation.
  rewrite flow_app, flow_singleton. destruct e; cbn [flow_event].
  - exists cs0, f0, g. rewrite app_nil_r. split_and!; [done|done|by apply reads_from_file_mono].
  - exists cs, (flow tr ++ tag Tx b), [].
    split_and!; [done|by rewrite app_nil_r|by apply reads_from_file_mono].
Qed.

(** Writing a message that is not a key reveal. *)
Lemma sender_safe_write h f tr b e x rest cs :
  sender_safe h f tr -> b = x :: rest -> x <> msgKeyReveal ->
  sender_point h cs (flow tr ++ tag Tx b) -> Forall (read_from_file f tr) cs ->
  sender_safe h f (tr ++ [EvWrite b e]).
Proof.
  intros [Hc Hk] Hb Hx Hp Hr. split; [by eapply conversation_write|].
  intros tr' i k err Heq. apply app_inj_2 in Heq as [_ Heq]; [|done]. by simplify_eq.
Qed.

(** Writing the key reveal of the chunk whose ticket was just read. *)
Lemma sender_safe_write_key h f tr i k e f0 cs :
  sender_safe h f tr -> is_u32 i -> flow tr = f0 ++ tag Rx (lotteryTicketBytes i) ->
  sender_point h cs (flow tr ++ tag Tx (keyRevealBytes i k)) -> Forall (read_from_file f tr) cs ->
  sender_safe h f (tr ++ [EvWrite (keyRevealBytes i k) e]).
Proof.
  intros [Hc Hk] Hi Hf Hp Hr. split; [by eapply conversation_write|].
  intros tr' i' k' err Heq Hi'. apply app_inj_2 in Heq as [<- Heq]; [|done].
  exists f0. rewrite Hf. do 2 f_equal.
  assert (PutUint32 i ++ k = PutUint32 i' ++ k') as Hb.
  { exact (f_equal (fun l => match l with EvWrite b _ :: _ => drop 1 b | _ => [] end) Heq). }
  by apply app_inj_len in Hb as [->%PutUint32_inj _].
Qed.

(** ** The steps *)

(** A quiet operation keeps the safety predicate. *)
Lemma wp_quiet {A} h f o (k : ans o -> prog A) Q tr :
  (forall a, is_quiet (event_of o a)) -> sender_safe h f tr ->
  (forall a, wf_event (event_of o a) -> sender_safe h f (tr ++ [event_of o a]) ->
     wp (sender_safe h f) (k a) Q (tr ++ [event_of o a])) ->
  wp (sender_safe h f) (Vis o k) Q tr.
Proof.
  intros Hq Hs Hk a Ha.
  assert (sender_safe h f (tr ++ [event_of o a])) by (by apply sender_safe_quiet). auto.
Qed.

Lemma wp_BuildAndEncryptChunk h f fid i pt Q tr :
  sender_safe h f tr -> len pt <= ChunkSize ->
  (forall evs c, flow evs = [] -> sealed_chunk fid i c -> c_Plaintext c = pt ->
     sender_safe h f (tr ++ evs) -> Q (Done (Ok c)) (tr ++ evs)) ->
  (forall evs e, sender_safe h f (tr ++ evs) -> Q (Done (Err e)) (tr ++ evs)) ->
  wp (sender_safe h f) (BuildAndEncryptChunk fid i pt) Q tr.
Proof.
  intros Hs Hpt HOk HErr. unfold BuildAndEncryptChunk, GenerateRandomKey. cbn [perform bind].
  apply wp_quiet; [done|done|]. intros [key|e] Hwf Hs1; cbn [bind]; [|by apply HErr].
  simpl in Hwf. destruct (NewCipher_32 key Hwf) as (E & HE & HE16).
  unfold EncryptChunk. cbn [c_Key set_Key]. rewrite HE. cbn [NewGCM perform bind].
  apply wp_quiet; [done|done|]. intros [nonce|e] Hwf' Hs2; cbn [bind].
  - simpl in Hwf'. cbn [c_Plaintext set_Nonce set_Key NewChunk].
    rewrite Seal_seal by (done || (unfold ChunkSize, gcmMaxPlaintext in *; lia)).
    cbn [bind wp]. rewrite <-app_assoc. apply HOk; [done| |done|by rewrite app_assoc].
    unfold sealed_chunk. cbn. split_and!; try done. by exists E.
  - cbn [wp]. rewrite <-app_assoc. apply HErr. by rewrite app_assoc.
Qed.

Section steps.
Context (h : MetaData) (f : handle).

Abbreviation step_ok step s :=
  (wp (sender_safe h f) (step s)
     (returns (step_post (sender_inv h f) sender_measure (sender_safe h f) s))).

Lemma sender_step_idle s tr :
  s_state s = StateIdle -> sender_inv h f s tr -> step_ok stepSenderIdle s tr.
Proof.
  intros Hst (Hss & Hsafe & Hs). unfold sender_state in Hs. rewrite Hst in Hs. simpl.
  split_and!.
  - by rewrite Hst.
  - done.
  - destruct Hss as (_ & _ & _ & _ & Ht & _ & Hu). unfold is_u32 in Hu.
    unfold sender_measure. rewrite Hst. simpl. destruct Hs as (_ & _ & Hc). lia.
Qed.

Lemma sender_step_header s tr :
  s_state s = StateSendHeader -> sender_inv h f s tr -> step_ok stepSenderSendHeader s tr.
Proof.
  intros Hst (Hss & Hsafe & Hs). unfold sender_state in Hs. rewrite Hst in Hs.
  destruct Hs as (Hf & Hl & Hc).
  pose proof Hss as (HF & HI & HN & HS & HT & HCS & HU). unfold is_u32 in HU.
  unfold stepSenderSendHeader.
  assert ({| md_Name := s_FileName s; md_FileSize := u32 (s_FileSize s);
             md_Reps := s_TotalChunks s; md_FileID := s_FileID s |} = h) as ->.
  { destruct h; simpl in *; congruence. }
  intros e _. assert (Hdone : sender_done h f s (tr ++ [EvWrite (headerBytes h) e]) []).
  { split_and!; [apply sealed_chunks_nil|done|done]. }
  assert (Hsafe' : sender_safe h f (tr ++ [EvWrite (headerBytes h) e])).
  { eapply (sender_safe_write _ _ _ _ _ _ _ []); [done|done|done| |done]. rewrite Hf. simpl.
    rewrite <-(app_nil_r (tag Tx _)). apply (sp_rounds h []); [apply sealed_chunks_nil|].
    unfold len. simpl. lia. }
  split; [done|]. simpl. destruct e as [e|]; [done|]. rewrite HT.
  assert (Hfl : flow (tr ++ [EvWrite (headerBytes h) None]) = sender_script h []).
  { rewrite flow_app, Hf, flow_singleton. simpl. unfold sender_script. simpl.
    by rewrite app_nil_r. }
  destruct (Z.eqb_spec (md_Reps h) 0) as [H0|H0]; simpl.
  - split_and!; [by rewrite Hst| |unfold sender_measure; rewrite Hst; simpl; lia].
    split_and!; [done|done|]. exists []. split_and!; [done|by unfold len; simpl|].
    by rewrite decide_True.
  - split_and!; [by rewrite Hst| |unfold sender_measure; rewrite Hst; simpl; lia].
    split_and!; [done|done|]. exists []. split_and!; [done|done|simpl; lia|done].
Qed.

(** Reading a message in a sender step. *)
Lemma wp_sender_read {M A} (cd : Codec M) (k : res M -> prog A) Q tr :
  sender_safe h f tr ->
  (forall evs m, cd_valid cd m -> flow evs = tag Rx (cd_encode cd m) ->
     sender_safe h f (tr ++ evs) -> wp (sender_safe h f) (k (Ok m)) Q (tr ++ evs)) ->
  (forall evs e, sender_safe h f (tr ++ evs) -> wp (sender_safe h f) (k (Err e)) Q (tr ++ evs)) ->
  wp (sender_safe h f) (bind (cd_read cd) k) Q tr.
Proof.
  intros Hs HOk HErr. apply wp_bind. apply wp_codec_read;
    [apply quiet_read_stable, sender_safe_quiet|done| |].
  - intros evs m _ Hv Hf Hs'. by apply HOk.
  - intros evs b e _ _ Hs'. by apply HErr.
Qed.

Lemma sender_step_request s tr :
  s_state s = StateWaitingChunkRequest -> sender_inv h f s tr ->
  step_ok stepSenderWaitChunkRequest s tr.
Proof.
  intros Hst (Hss & Hsafe & Hs). unfold sender_state in Hs. rewrite Hst in Hs.
  destruct Hs as (cs & Hd & Hcs & Hlt & Hf).
  pose proof Hss as (HF & HI & HN & HS & HT & HCS & HU).
  apply (wp_sender_read request_codec); [done| |done].
  intros evs i Hi Hfe Hs'. simpl in Hi, Hfe.
  destruct (Z.eqb_spec i (s_CurrentChunk s)) as [->|Hne]; simpl; [|done].
  split_and!; [by rewrite Hst| |unfold sender_measure; rewrite Hst; simpl; lia].
  split_and!; [done|done|]. exists cs. split_and!; [by apply sender_done_mono|done|done|].
  by rewrite flow_app, Hf, Hfe, Hcs.
Qed.

Lemma sender_step_response s tr :
  s_state s = StateSendChunkResponse -> sender_inv h f s tr ->
  step_ok stepSenderSendChunkResponse s tr.
Proof.
  intros Hst (Hss & Hsafe & Hs). unfold sender_state in Hs. rewrite Hst in Hs.
  destruct Hs as (cs & Hd & Hcs & Hlt & Hf).
  pose proof Hss as (HF & HI & HN & HS & HT & HCS & HU).
  unfold stepSenderSendChunkResponse, ReadChunkPlaintext. rewrite HF, HCS, HI. cbn [perform bind].
  pose proof (len_nonneg cs). unfold is_u32 in HU.
  rewrite (i64_small (ChunkSize * _)) by (unfold ChunkSize; lia).
  apply wp_quiet; [done|done|]. intros [pt e] Hwf Hs1. cbn [wf_event event_of fst snd] in *.
  apply wp_bind.
  destruct (match e with None | Some EOF => true | _ => false end) eqn:He.
  2:{ destruct e as [[]|]; done. }
  assert (match e with None | Some EOF => Ret (Ok pt) | Some err => Ret (Err err) end
          = Ret (Ok pt) :> prog (res bytes)) as -> by (by destruct e as [[]|]).
  cbn [wp returns]. apply wp_bind, wp_BuildAndEncryptChunk; [done|lia| |done].
  intros evs c Hfe Hc Hpt Hs2 e' _.
  assert (Hfl : flow ((tr ++ [EvReadAt f ChunkSize (ChunkSize * s_CurrentChunk s) pt e]) ++ evs)
                = sender_script h cs ++ tag Rx (chunkRequestBytes (len cs))).
  { by rewrite !flow_app, Hf, Hfe, flow_singleton, !app_nil_r. }
  assert (Hrc : forall evs', read_from_file f
    ((tr ++ [EvReadAt f ChunkSize (ChunkSize * s_CurrentChunk s) pt e]) ++ evs') c).
  { intros evs'. destruct Hc as (_ & Hci & _). exists e. rewrite Hci, Hpt.
    split; [destruct e as [[]|]; try done; auto|set_solver]. }
  assert (Hs3 : sender_safe h f (((tr ++ [EvReadAt f ChunkSize (ChunkSize * s_CurrentChunk s) pt e])
                  ++ evs) ++ [EvWrite (chunkResponseBytes c) e'])).
  { eapply (sender_safe_write _ _ _ _ _ _ _ (cs ++ [c])); [done|done|done| |].
    - rewrite Hfl, <-app_assoc. apply sp_response; [by apply Hd|by rewrite Hcs|lia].
    - apply Forall_app. split; [do 2 apply reads_from_file_mono; apply Hd|by apply Forall_singleton]. }
  split; [done|]. destruct e' as [e'|]; [done|]. simpl.
  split_and!; [by rewrite Hst| |unfold sender_measure; rewrite Hst; simpl; lia].
  split_and!; [done|done|]. exists cs, c. rewrite <-!app_assoc.
  split_and!; [by apply sender_done_mono|done|done|by rewrite Hcs| |done|].
  - rewrite app_assoc. apply Hrc.
  - rewrite !app_assoc, flow_app, Hfl, flow_singleton. done.
Qed.

Lemma sender_step_ticket s tr :
  s_state s = StateWaitingLotteryTicket -> sender_inv h f s tr ->
  step_ok stepSenderWaitLotteryTicket s tr.
Proof.
  intros Hst (Hss & Hsafe & Hs). unfold sender_state in Hs. rewrite Hst in Hs.
  destruct Hs as (cs & c & Hd & Hcs & Hlt & Hc & Hr & Hp & Hf).
  pose proof Hss as (HF & HI & HN & HS & HT & HCS & HU).
  apply (wp_sender_read ticket_codec); [done| |done].
  intros evs i Hi Hfe Hs'. simpl in Hi, Hfe.
  destruct (Z.eqb_spec i (s_CurrentChunk s)) as [->|Hne]; simpl; [|done].
  split_and!; [by rewrite Hst| |unfold sender_measure; rewrite Hst; simpl; lia].
  split_and!; [done|done|]. exists cs, c.
  split_and!; [by apply sender_done_mono|done|done|done|by apply read_from_file_mono|done|].
  rewrite flow_app, Hf, Hfe, Hcs. by rewrite <-!app_assoc.
Qed.

Lemma sender_step_key s tr :
  s_state s = StateSendKeyReveal -> sender_inv h f s tr ->
  step_ok stepSenderSendKeyReveal s tr.
Proof.
  intros Hst (Hss & Hsafe & Hs). unfold sender_state in Hs. rewrite Hst in Hs.
  destruct Hs as (cs & c & Hd & Hcs & Hlt & Hc & Hr & Hp & Hf).
  pose proof Hss as (HF & HI & HN & HS & HT & HCS & HU). unfold is_u32 in HU.
  pose proof (len_nonneg cs). pose proof Hc as (_ & Hci & _).
  unfold stepSenderSendKeyReveal. rewrite Hp. intros e _.
  assert (Hfk : flow tr ++ tag Tx (keyRevealBytes (s_CurrentChunk s) (c_Key c))
                = sender_script h (cs ++ [c])).
  { rewrite sender_script_snoc, Hf, <-!app_assoc. unfold sender_round. by rewrite Hci, Hcs. }
  assert (Hs1 : sender_safe h f (tr ++ [EvWrite (keyRevealBytes (s_CurrentChunk s) (c_Key c)) e])).
  { eapply (sender_safe_write_key _ _ _ _ _ _ _ (cs ++ [c]));
      [done|unfold is_u32; lia|rewrite Hf, Hcs; by rewrite !app_assoc| |].
    - rewrite Hfk. apply sp_rounds; [apply sealed_chunks_snoc; [by apply Hd|done]|].
      rewrite len_app. unfold len at 2. simpl. lia.
    - apply Forall_app. split; [apply Hd|by apply Forall_singleton]. }
  split; [done|]. destruct e as [e|]; [done|]. cbn [event_of].
  set (tr' := tr ++ _) in *.
  assert (Hf' : flow tr' = sender_script h (cs ++ [c])).
  { unfold tr'. by rewrite flow_app, flow_singleton. }
  assert (Hd' : forall s', s_Leaves s' = s_Leaves s ++ [GenerateLeaf c] ->
                  sender_done h f s' tr' (cs ++ [c])).
  { intros s' Hl. eapply sender_done_snoc; [by apply sender_done_mono|done|
      by apply read_from_file_mono|done]. }
  assert (Hlen : len (cs ++ [c]) = s_CurrentChunk s + 1).
  { rewrite len_app. unfold len at 2. simpl. lia. }
  set (s1 := set_Leaves _ _). destruct (counters_at s1 (md_Reps h)) as [-> Hadv]; [done|unfold is_u32; lia|cbn; lia|].
  case_bool_decide as Hlast; cbn in Hlast; cbn [wp returns step_post];
    (split_and!; [cbn; by rewrite Hst| |unfold sender_measure; rewrite Hst; cbn in Hadv |- *; lia]);
    (split_and!; [done|done|]); exists (cs ++ [c]).
  - split_and!; [by apply Hd'|lia|lia|done].
  - split_and!; [by apply Hd'|cbn in Hadv |- *; lia|cbn in Hadv |- *; lia|done].
Qed.

Lemma sender_step_merkle s tr :
  s_state s = StateVerifyMerkle -> sender_inv h f s tr ->
  step_ok stepSenderVerifyMerkle s tr.
Proof.
  intros Hst (Hss & Hsafe & Hs). unfold sender_state in Hs. rewrite Hst in Hs.
  destruct Hs as (cs & Hd & Hcs & Hlt & Hf). pose proof Hd as (Hsc & _ & Hl).
  unfold stepSenderVerifyMerkle. rewrite Hl.
  destruct (merkle_root_is_Some (GenerateLeaf <$> cs)) as [root Hroot].
  unfold merkle_root in Hroot. rewrite Hroot. intros e _.
  assert (Hs1 : sender_safe h f (tr ++ [EvWrite (rootBytes root) e])).
  { eapply (sender_safe_write _ _ _ _ _ _ _ cs); [done|done|done| |apply Hd].
    rewrite Hf. by apply sp_root. }
  split; [done|]. destruct e as [e|]; [done|]. cbn [event_of].
  set (tr' := tr ++ _) in *.
  enough (Hk : wp (sender_safe h f) (bind (cd_read ack_codec) (fun r =>
            match r with
            | Ok _ => Ret (s, Ok StateFinished)
            | Err err => Ret (s, Err (wrap "waiting for final ack: %w" err)) end))
            (returns (step_post (sender_inv h f) sender_measure (sender_safe h f) s)) tr').
  { cbn in Hk |- *. intros a Ha. destruct (Hk a Ha) as [HI' Hw]. split; [done|].
    destruct a as [b|]; [|done]. by destruct (negb _). }
  apply wp_sender_read; [done| |done].
  intros evs [] _ Hfe Hs'. simpl in Hfe. simpl.
  split_and!; [by rewrite Hst| |unfold sender_measure; rewrite Hst; simpl; lia].
  split_and!; [done|done|]. exists cs. unfold tr' in *.
  split_and!; [do 2 apply sender_done_mono; done|done|].
  rewrite decide_False by lia. exists root. split; [done|].
  rewrite !flow_app, Hfe, Hf, flow_singleton. by rewrite <-app_assoc.
Qed.

Lemma sender_steps_ok s tr :
  sender_inv h f s tr -> s_state s <> StateFinished ->
  exists step, map_get senderSteps (s_state s) = Some step /\ step_ok step s tr.
Proof.
  intros Hinv Hfin. pose proof Hinv as (_ & _ & Hs). unfold sender_state in Hs.
  destruct (s_state s) eqn:Hst; try done; eexists; (split; [reflexivity|]).
  - by apply sender_step_idle.
  - by apply sender_step_header.
  - by apply sender_step_request.
  - by apply sender_step_response.
  - by apply sender_step_ticket.
  - by apply sender_step_key.
  - by apply sender_step_merkle.
Qed.

Lemma sender_inv_running s tr : sender_inv h f s tr -> s_state s <> StateError.
Proof. intros (_ & _ & Hs) Hst. unfold sender_state in Hs. by rewrite Hst in Hs. Qed.

Lemma wp_Run_sender fuel s tr :
  sender_inv h f s tr -> (sender_measure s < fuel)%nat ->
  wp (sender_safe h f) (Run fuel s senderSteps)
    (returns (run_post (sender_inv h f) (sender_safe h f))) tr.
Proof. apply wp_Run; [apply sender_inv_running|apply sender_steps_ok]. Qed.

End steps.

(** ** [SendFile] *)

(** The header of a file: [PrepareMetadata] with the file ID. *)
Definition file_metadata (info : FileInfo) (fileID : bytes) : MetaData :=
  {| md_Name := fi_Name info; md_FileSize := u32 (fi_Size info);
     md_Reps := u32 (Z.quot (i64 (i64 (fi_Size info + ChunkSize) - 1)) ChunkSize);
     md_FileID := fileID |}.

(** The ID [generateFileID] makes of a file and the time. *)
Definition file_id (info : FileInfo) (t : Z) : bytes :=
  Keccak [bytes_of_string (fi_Name info); PutUint64 (u64 (fi_Size info)); PutUint64 (u64 t)].

(** A history of [SendFile]: nothing on the stream yet, or a sender's
    conversation for the header of the file it opened. *)
Definition sendfile_safe (path : string) (tr : list event) : Prop :=
  (flow tr = [] /\ Forall is_quiet tr) \/
  exists f info info0 t, EvOpen path (Ok f) ∈ tr /\ EvStat f (Ok info) ∈ tr /\
    EvStat f (Ok info0) ∈ tr /\ EvNow t ∈ tr /\
    sender_safe (file_metadata info (file_id info0 t)) f tr.

(** How [SendFile] ends. *)
Definition sendfile_post (path : string) (r : outcome (option error)) (tr : list event) : Prop :=
  match r with
  | Done None => exists f info info0 t s, EvOpen path (Ok f) ∈ tr /\ EvStat f (Ok info) ∈ tr /\
      EvStat f (Ok info0) ∈ tr /\ EvNow t ∈ tr /\
      s_state s = StateFinished /\ sender_inv (file_metadata info (file_id info0 t)) f s tr
  | Done (Some e) => step_failed e
  | Halted (Fatal _) => (exists e, EvOpen path (Err e) ∈ tr) \/ exists f e, EvStat f (Err e) ∈ tr
  | Halted (Panic _) => exists f e, EvStat f (Err e) ∈ tr
  | Halted OutOfFuel => False
  end.

Lemma sender_safe_start h f tr :
  flow tr = [] -> Forall is_quiet tr -> sender_safe h f tr.
Proof.
  intros Hf Hq. split.
  - exists [], [], []. rewrite Hf. split_and!; [apply sp_start|done|done].
  - intros tr' i k e ->. rewrite Forall_app, Forall_singleton in Hq. by destruct Hq.
Qed.

Lemma sendfile_quiet path tr e :
  flow tr = [] -> Forall is_quiet tr -> is_local e -> sendfile_safe path (tr ++ [e]).
Proof.
  intros Hf Hq He. left. split.
  - by rewrite flow_app, Hf, flow_local.
  - apply Forall_app. split; [done|]. apply Forall_singleton. by destruct e.
Qed.

Lemma sender_inv_start f info fid tr :
  flow tr = [] -> Forall is_quiet tr ->
  sender_inv (file_metadata info fid) f (senderSession f (file_metadata info []) fid) tr.
Proof.
  intros Hf Hq. split_and!.
  - split_and!; try done; [|apply u32_range]. apply u32_small, u32_range.
  - by apply sender_safe_start.
  - done.
Qed.

Lemma sender_measure_start f info fid fuel :
  enough_fuel fuel -> (sender_measure (senderSession f (file_metadata info []) fid) < fuel)%nat.
Proof.
  unfold enough_fuel, sender_measure. cbn [s_state senderSession set_header set_File NewSession
    s_TotalChunks s_CurrentChunk].
  pose proof (u32_range (Z.quot (i64 (i64 (fi_Size info + ChunkSize) - 1)) ChunkSize)) as [? ?].
  unfold file_metadata. cbn [md_Reps]. lia.
Qed.

(** The state machine and the deferred close, after the file has been opened and
    stat'ed. *)
Lemma wp_SendFile_run fuel path f info info0 t tr :
  enough_fuel fuel -> EvOpen path (Ok f) ∈ tr -> EvStat f (Ok info) ∈ tr ->
  EvStat f (Ok info0) ∈ tr -> EvNow t ∈ tr -> flow tr = [] -> Forall is_quiet tr ->
  wp (sendfile_safe path)
    (defer (perform (OFileClose f))
      (let! (s, err) := Run fuel (senderSession f (file_metadata info []) (file_id info0 t)) senderSteps in
       Ret err))
    (sendfile_post path) tr.
Proof.
  intros Hfuel HO HS HS0 HT Hf0 Hq. set (fid := file_id info0 t).
  apply wp_defer, wp_bind.
  assert (Hin : forall tr', tr `prefix_of` tr' -> EvOpen path (Ok f) ∈ tr' /\
    EvStat f (Ok info) ∈ tr' /\ EvStat f (Ok info0) ∈ tr' /\ EvNow t ∈ tr').
  { intros tr' [k ->]. set_solver. }
  pose proof (wp_Run_sender (file_metadata info fid) f fuel
    (senderSession f (file_metadata info []) fid) tr (sender_inv_start f info fid tr Hf0 Hq)
    (sender_measure_start f info fid fuel Hfuel)) as Hrun.
  apply (wp_prefix _ _ _ tr tr (reflexivity tr)) in Hrun.
  eapply wp_weaken; [|eapply wp_mono; [exact Hrun|]].
  { intros tr' [Hs Hpre]. right. exists f, info, info0, t. by destruct (Hin tr' Hpre) as (? & ? & ? & ?). }
  intros [[s' e]|hh] tr' [Hpost Hpre]; [|done]. destruct (Hin tr' Hpre) as (HO' & HS' & HS0' & HT').
  cbn [returns wp] in *. intros ce _. cbn [event_of].
  assert (Hsafe : sender_safe (file_metadata info fid) f tr') by (destruct e; apply Hpost).
  assert (Hsafe' : sender_safe (file_metadata info fid) f (tr' ++ [EvFileClose f ce])).
  { by apply sender_safe_quiet. }
  split; [right; exists f, info, info0, t; set_solver|].
  destruct e as [e|]; cbn; [by apply Hpost|]. destruct Hpost as [Hst (Hss & _ & Hstate)].
  exists f, info, info0, t, s'. split_and!; [set_solver..|done|].
  split_and!; [done|done|]. unfold sender_state in *. rewrite Hst in *.
  destruct Hstate as (cs & Hd & Hlen & Hfl). exists cs.
  rewrite flow_app, flow_local, app_nil_r by done.
  split_and!; [by apply sender_done_mono|done|done].
Qed.

Lemma wp_SendFile fuel path :
  enough_fuel fuel -> wp (sendfile_safe path) (SendFile fuel path) (sendfile_post path) [].
Proof.
  intros Hfuel. unfold SendFile. cbn [perform bind].
  intros [f|e] _; cbn [event_of app];
    (split; [apply (sendfile_quiet path []); by repeat constructor|]).
  2:{ left. exists e. set_solver. }
  unfold generateFileID. cbn [perform bind defer].
  intros [info0|e] _; cbn [event_of app];
    (split; [apply (sendfile_quiet path [_]); by repeat constructor|]).
  2:{ right. exists f, e. set_solver. }
  intros t _. cbn [event_of app].
  split; [apply (sendfile_quiet path [_;_]); by repeat constructor|].
  unfold PrepareMetadata. cbn [perform bind defer].
  intros [info|e] _; cbn [event_of app];
    (split; [apply (sendfile_quiet path [_;_;_]); by repeat constructor|]).
  2:{ intros ce _. cbn [event_of app].
      split; [apply (sendfile_quiet path [_;_;_;_]); by repeat constructor|].
      exists f, e. set_solver. }
  apply wp_SendFile_run; [done|set_solver..|done|by repeat constructor].
Qed.

(** ** Properties of [SendFile] *)

(** What has happened when the sender is done with the file [f] it opened:
    [cs] are the chunks it sent. *)
Definition sender_complete (path : string) (tr : list event) (f : handle) (info : FileInfo)
    (fileID : bytes) (cs : list Chunk) : Prop :=
  EvOpen path (Ok f) ∈ tr /\ EvStat f (Ok info) ∈ tr /\
  len cs = md_Reps (file_metadata info fileID) /\
  sealed_chunks fileID cs /\ Forall (read_from_file f tr) cs /\
  (cs = [] -> flow tr = tag Tx (headerBytes (file_metadata info fileID))) /\
  (cs <> [] -> exists root, merkle_root (GenerateLeaf <$> cs) = Some root /\
     flow tr = sender_script (file_metadata info fileID) cs
               ++ tag Tx (rootBytes root) ++ tag Rx finalAckBytes).

Section sendfile_properties.
Context (fuel : nat) (path : string) (tr : list event).
Hypothesis Hfuel : enough_fuel fuel.

Lemma sendfile_partial_safe : partial (SendFile fuel path) tr -> sendfile_safe path tr.
Proof using Hfuel.
  intros Hp. exact (wp_partial (sendfile_safe path) _ _ [] tr (or_introl (conj eq_refl (Forall_nil_2 _)))
    (wp_SendFile fuel path Hfuel) Hp).
Qed.

Lemma sendfile_speaks :
  partial (SendFile fuel path) tr ->
  flow tr = [] \/
  exists f info info0 t, EvOpen path (Ok f) ∈ tr /\ EvStat f (Ok info) ∈ tr /\
    EvStat f (Ok info0) ∈ tr /\ EvNow t ∈ tr /\
    sender_conversation (file_metadata info (file_id info0 t)) f tr.
Proof using Hfuel.
  intros [[Hf _]|(f & info & info0 & t & HO & HS & HS0 & HT & [Hc _])]%sendfile_partial_safe; [by left|right].
  by exists f, info, info0, t.
Qed.

(** C15: at every moment of every execution of [SendFile], whatever the peer,
    the file system and the random generator answer, what the sender has
    written is a prefix of the protocol: a header, then for each chunk in order
    a response to a request for exactly that chunk and its key after a ticket
    for exactly that chunk, then the Merkle root of the leaves of those chunks;
    every response is the encryption of what was read from the chunk's place in
    the file, with its commitment. *)
Theorem SendFile_conversation :
  partial (SendFile fuel path) tr ->
  flow tr = [] \/
  exists f info info0 t, EvOpen path (Ok f) ∈ tr /\ EvStat f (Ok info) ∈ tr /\
    EvStat f (Ok info0) ∈ tr /\ EvNow t ∈ tr /\
    sender_conversation (file_metadata info (file_id info0 t)) f tr.
Proof using Hfuel. apply sendfile_speaks. Qed.

(** C7: fair exchange on the sender's side.  Whenever [SendFile] writes the key
    reveal of chunk [i] to the stream, the bytes it read last are exactly the
    lottery ticket for chunk [i], whatever the peer does. *)
Theorem SendFile_key_after_ticket i key e :
  partial (SendFile fuel path) (tr ++ [EvWrite (keyRevealBytes i key) e]) -> is_u32 i ->
  exists conv, flow tr = conv ++ tag Rx (lotteryTicketBytes i).
Proof using Hfuel.
  intros Hp Hi.
  assert (Hs : sendfile_safe path (tr ++ [EvWrite (keyRevealBytes i key) e])).
  { apply (wp_partial (sendfile_safe path) _ _ [] _ (or_introl (conj eq_refl (Forall_nil_2 _)))
      (wp_SendFile fuel path Hfuel) Hp). }
  destruct Hs as [[_ Hq]|(f & info & info0 & t & _ & _ & _ & _ & [_ Hk])].
  - rewrite Forall_app, Forall_singleton in Hq. by destruct Hq.
  - by apply (Hk tr i key e).
Qed.

Lemma sendfile_completes :
  exec (SendFile fuel path) tr (Done None) ->
  exists f info info0 t cs, sender_complete path tr f info (file_id info0 t) cs /\
    EvStat f (Ok info0) ∈ tr /\ EvNow t ∈ tr.
Proof using Hfuel.
  intros He. pose proof (wp_exec _ _ _ [] _ _ (wp_SendFile fuel path Hfuel) He) as
    (f & info & info0 & t & s & HO & HS & HS0 & HT & Hst & Hinv).
  destruct Hinv as (_ & _ & Hs). unfold sender_state in Hs. rewrite Hst in Hs.
  destruct Hs as (cs & (Hsc & Hrf & _) & Hlen & Hfl). rewrite app_nil_l in *.
  exists f, info, info0, t, cs. unfold sender_complete. split_and!; try done.
  - intros ->. rewrite decide_True in Hfl by done. rewrite Hfl. unfold sender_script.
    apply app_nil_r.
  - intros Hne. rewrite decide_False in Hfl; [done|]. rewrite <-Hlen. unfold len.
    destruct cs; simpl; [done|lia].
Qed.

(** C17: when [SendFile] returns [nil], the complete conversation took place:
    one round for every chunk the header announced, with the chunk read from
    its place in the file, then (unless the file is empty) the Merkle root over
    all the chunks and the peer's final ack, and nothing else; the file ID is
    the hash of the name, the size and the time. *)
Theorem SendFile_success :
  exec (SendFile fuel path) tr (Done None) ->
  exists f info info0 t cs, sender_complete path tr f info (file_id info0 t) cs /\
    EvStat f (Ok info0) ∈ tr /\ EvNow t ∈ tr.
Proof using Hfuel. apply sendfile_completes. Qed.

(** The ways a process ends in [SendFile]: only before the first message. *)
Lemma sendfile_halts h :
  exec (SendFile fuel path) tr (Halted h) ->
  (exists e, tr = [EvOpen path (Err e)]) \/
  (exists f e, tr = [EvOpen path (Ok f); EvStat f (Err e)]) \/
  exists f info t e ce, tr = [EvOpen path (Ok f); EvStat f (Ok info); EvNow t; EvStat f (Err e); EvFileClose f ce].
Proof using Hfuel.
  unfold SendFile, generateFileID, PrepareMetadata. cbn [perform bind]. intros (a & tr1 & _ & -> & He).
  destruct a as [f|e]; [|destruct He as [-> _]; eauto].
  cbn [perform bind defer] in He. destruct He as (a & tr2 & _ & -> & He).
  destruct a as [info0|e]; [|destruct He as [-> _]; eauto].
  cbn [bind defer] in He. destruct He as (t & tr3 & _ & -> & a & tr4 & _ & -> & He).
  destruct a as [info|e]; cbn [bind defer] in He.
  2:{ destruct He as (ce & tr5 & _ & -> & -> & _). eauto 15. }
  exfalso. apply exec_defer in He as (o & tr5 & tr6 & He & _ & Ho).
  apply exec_bind in He as [(h' & He & _)|([s err] & ? & ? & _ & [_ ->] & _)].
  2:{ destruct Ho as (? & ? & _ & _ & _ & Ho). discriminate Ho. }
  set (fid := Keccak _) in He.
  pose proof (wp_Run_sender (file_metadata info fid) f fuel
    (senderSession f (file_metadata info []) fid) [] (sender_inv_start f info fid [] eq_refl (Forall_nil_2 _))
    (sender_measure_start f info fid fuel Hfuel)) as Hrun.
  exact (wp_exec _ _ _ _ _ _ Hrun He).
Qed.

(** C19: [SendFile] always ends.  It returns [nil], or the error of a failed
    step of the state machine (never an illegal transition or a missing step),
    unless the file cannot be opened or stat'ed: then the process exits
    through [log.Fatal] or panics. *)
Theorem SendFile_outcome r :
  exec (SendFile fuel path) tr r ->
  match r with
  | Done None => True
  | Done (Some e) => step_failed e
  | Halted (Fatal _) => (exists e, EvOpen path (Err e) ∈ tr) \/ exists f e, EvStat f (Err e) ∈ tr
  | Halted (Panic _) => exists f e, EvStat f (Err e) ∈ tr
  | Halted OutOfFuel => False
  end.
Proof using Hfuel.
  intros He. pose proof (wp_exec _ _ _ [] _ _ (wp_SendFile fuel path Hfuel) He) as Hp.
  destruct r as [[e|]|[]]; done.
Qed.

End sendfile_properties.

End sender.
