(* ===== verification/ReceiverSpec.v ===== *)
(** * ReceiverSpec: the receiver against an arbitrary peer

    The conversation the receiver may have, what it may write to its file, what
    holds of its session in each state, and the proof that every step keeps
    it, whatever the peer and the file system answer. *)

From S2P Require Import Prelude Effects AesGcm Protocol Utils Merkle Wire Controllers Flow.

Section receiver.
Context `{LegacyKeccak256}.

(** ** The conversation *)

(** A chunk that passed [DecryptAndCheck]: the ciphertext is the encryption of
    the plaintext under the revealed key, and the commitment sent with it is
    that of the key and the plaintext. *)
Definition verified_chunk (fileID : bytes) (i : Z) (c : Chunk) : Prop :=
  c_FileID c = fileID /\ c_Index c = i /\
  len (c_Key c) = KeySize /\ len (c_Nonce c) = NonceSize /\ len (c_HResp c) = HashSize /\
  len (c_Ciphertext c) < 2 ^ 32 /\
  c_HResp c = Keccak [c_Key c; c_Plaintext c] /\
  exists E, NewCipher (c_Key c) = Ok E /\
    c_Ciphertext c = seal E (c_Nonce c) (c_Plaintext c).

Definition verified_chunks (fileID : bytes) (cs : list Chunk) : Prop :=
  forall i c, cs !! i = Some c -> verified_chunk fileID (Z.of_nat i) c.

Definition receiver_round (c : Chunk) : list (dir * byte) :=
  tag Tx (chunkRequestBytes (c_Index c)) ++ tag Rx (chunkResponseBytes c)
  ++ tag Tx (lotteryTicketBytes (c_Index c)) ++ tag Rx (keyRevealBytes (c_Index c) (c_Key c)).

Definition receiver_script (h : MetaData) (cs : list Chunk) : list (dir * byte) :=
  tag Rx (headerBytes h) ++ (cs ≫= receiver_round).

(** What the receiver may have said and heard when it has just finished
    sending something, and the chunks it has verified by then. *)
Inductive receiver_point (h : MetaData) : list Chunk -> list (dir * byte) -> Prop :=
| rp_request cs :
    verified_chunks (md_FileID h) cs -> len cs < md_Reps h ->
    receiver_point h cs (receiver_script h cs ++ tag Tx (chunkRequestBytes (len cs)))
| rp_ticket cs c :
    verified_chunks (md_FileID h) cs -> len cs < md_Reps h ->
    response_valid (md_FileID h) c -> c_Index c = len cs ->
    receiver_point h cs (receiver_script h cs ++ tag Tx (chunkRequestBytes (len cs))
                      ++ tag Rx (chunkResponseBytes c) ++ tag Tx (lotteryTicketBytes (len cs)))
| rp_ack cs root :
    verified_chunks (md_FileID h) cs -> len cs = md_Reps h -> 0 < md_Reps h ->
    merkle_root (GenerateLeaf <$> cs) = Some root ->
    receiver_point h cs (receiver_script h cs ++ tag Rx (rootBytes root) ++ tag Tx finalAckBytes).

(** The receiver's conversation at any moment: it has sent nothing yet, or is
    at such a point, with the chunks verified by then written to the file, and
    has since received some bytes. *)
Definition receiver_conversation (tr : list event) : Prop :=
  (exists g, flow tr = tag Rx g) \/
  exists h f cs f0 g, header_valid h /\ receiver_point h cs f0 /\ flow tr = f0 ++ tag Rx g /\
    ((fun c => (f, c_Plaintext c)) <$> cs) `prefix_of` file_writes tr.

(** What is on the disk at any moment: nothing, or the plaintexts of verified
    chunks, in order, in the one file created, which is under ./received/ and has
    the announced name. *)
Definition receiver_writes (tr : list event) : Prop :=
  untouched tr \/
  exists h f cs, header_valid h /\ verified_chunks (md_FileID h) cs /\ len cs <= md_Reps h /\
    creates tr = [("./received/" +:+ md_Name h, f)] /\
    file_writes tr = (fun c => (f, c_Plaintext c)) <$> cs /\
    receiver_script h cs `prefix_of` flow tr.

Definition receiver_safe (tr : list event) : Prop :=
  receiver_conversation tr /\ receiver_writes tr.

(** ** The session in each state *)

Definition receiver_session (h : MetaData) (f : handle) (s : Session) (tr : list event) : Prop :=
  header_valid h /\ s_File s = Some f /\ s_FileID s = md_FileID h /\
  s_TotalChunks s = md_Reps h /\ creates tr = [("./received/" +:+ md_Name h, f)].

(** [cs] are the chunks verified and written. *)
Definition receiver_done (h : MetaData) (f : handle) (s : Session) (tr : list event)
    (cs : list Chunk) : Prop :=
  verified_chunks (md_FileID h) cs /\ s_Leaves s = GenerateLeaf <$> cs /\
  file_writes tr = (fun c => (f, c_Plaintext c)) <$> cs.

(** A round is open: [cs] are done, the next chunk is requested. *)
Definition receiver_open (h : MetaData) (f : handle) (s : Session) (tr : list event)
    (cs : list Chunk) : Prop :=
  receiver_session h f s tr /\ receiver_done h f s tr cs /\
  len cs = s_CurrentChunk s /\ s_CurrentChunk s < md_Reps h.

Definition receiver_state (s : Session) (tr : list event) : Prop :=
  match s_state s with
  | StateIdle | StateReceiveHeader =>
      flow tr = [] /\ untouched tr /\ s_Leaves s = [] /\ s_CurrentChunk s = 0
  | StateSendChunkRequest => exists h f cs, receiver_open h f s tr cs /\
      flow tr = receiver_script h cs
  | StateWaitingChunkResponse => exists h f cs, receiver_open h f s tr cs /\
      flow tr = receiver_script h cs ++ tag Tx (chunkRequestBytes (len cs))
  | StateSendLotteryTicket => exists h f cs c, receiver_open h f s tr cs /\
      s_PendingChunk s = Some c /\ response_valid (md_FileID h) c /\ c_Index c = len cs /\
      flow tr = receiver_script h cs ++ tag Tx (chunkRequestBytes (len cs))
                ++ tag Rx (chunkResponseBytes c)
  | StateWaitingKeyReveal => exists h f cs c, receiver_open h f s tr cs /\
      s_PendingChunk s = Some c /\ response_valid (md_FileID h) c /\ c_Index c = len cs /\
      flow tr = receiver_script h cs ++ tag Tx (chunkRequestBytes (len cs))
                ++ tag Rx (chunkResponseBytes c) ++ tag Tx (lotteryTicketBytes (len cs))
  | StateVerifyChunk => exists h f cs c key, receiver_open h f s tr cs /\
      s_PendingChunk s = Some (set_Key c key) /\ response_valid (md_FileID h) c /\
      c_Index c = len cs /\ len key = KeySize /\
      flow tr = receiver_script h cs ++ tag Tx (chunkRequestBytes (len cs))
                ++ tag Rx (chunkResponseBytes c) ++ tag Tx (lotteryTicketBytes (len cs))
                ++ tag Rx (keyRevealBytes (len cs) key)
  | StateVerifyMerkle => exists h f cs, receiver_session h f s tr /\
      receiver_done h f s tr cs /\ len cs = md_Reps h /\ 0 < md_Reps h /\
      flow tr = receiver_script h cs
  | StateFinished => exists h f cs e, receiver_session h f s tr /\
      receiver_done h f s tr cs /\ len cs = md_Reps h /\ EvFileClose f e ∈ tr /\
      if decide (md_Reps h = 0) then flow tr = receiver_script h []
      else exists root, merkle_root (GenerateLeaf <$> cs) = Some root /\
        flow tr = receiver_script h cs ++ tag Rx (rootBytes root) ++ tag Tx finalAckBytes
  | _ => False
  end.

Definition receiver_inv (s : Session) (tr : list event) : Prop :=
  receiver_safe tr /\ receiver_state s tr.

(** The number of iterations of [Run] left; before the header the number of
    chunks is only known to fit 32 bits. *)
Definition receiver_measure (s : Session) : nat :=
  let left := 5 * (s_TotalChunks s - s_CurrentChunk s) in
  Z.to_nat match s_state s with
  | StateIdle => 5 * 2 ^ 32 + 4
  | StateReceiveHeader => 5 * 2 ^ 32 + 3
  | StateSendChunkRequest => left + 2
  | StateWaitingChunkResponse => left + 1
  | StateSendLotteryTicket => left
  | StateWaitingKeyReveal => left - 1
  | StateVerifyChunk => left - 2
  | StateVerifyMerkle => 2
  | StateFinished => 1
  | _ => 0
  end.

(** ** Lemmas on conversations *)

Lemma verified_chunks_nil fid : verified_chunks fid [].
Proof. by intros i c Hc. Qed.

Lemma verified_chunks_snoc fid cs c :
  verified_chunks fid cs -> verified_chunk fid (len cs) c -> verified_chunks fid (cs ++ [c]).
Proof.
  intros Hcs Hc i c' [Hi|[Hi Hi']]%lookup_app_Some; [by apply Hcs|].
  apply list_lookup_singleton_Some in Hi' as [Hz ->].
  assert (i = length cs) as -> by lia. done.
Qed.

Lemma receiver_script_snoc h cs c :
  receiver_script h (cs ++ [c]) = receiver_script h cs ++ receiver_round c.
Proof. unfold receiver_script. rewrite bind_app. simpl. by rewrite app_nil_r, app_assoc. Qed.

Lemma creates_same tr evs : untouched evs -> creates (tr ++ evs) = creates tr.
Proof. intros [_ He]. by rewrite creates_app, He, app_nil_r. Qed.

Lemma receiver_session_mono h f s tr evs :
  untouched evs -> receiver_session h f s tr -> receiver_session h f s (tr ++ evs).
Proof.
  intros He (? & ? & ? & ? & ?). unfold receiver_session. rewrite creates_same by done. done.
Qed.

Lemma receiver_done_mono h f s tr evs cs :
  untouched evs -> receiver_done h f s tr cs -> receiver_done h f s (tr ++ evs) cs.
Proof.
  intros [He _] (Hv & Hl & Hw). split_and!; [done|done|]. by rewrite file_writes_app, He, app_nil_r.
Qed.

Lemma receiver_open_mono h f s tr evs cs :
  untouched evs -> receiver_open h f s tr cs -> receiver_open h f s (tr ++ evs) cs.
Proof.
  intros He (Hs & Hd & Hl & Hc). split_and!; try done;
    [by apply receiver_session_mono|by apply receiver_done_mono].
Qed.

Lemma receiver_writes_mono tr evs :
  untouched evs -> receiver_writes tr -> receiver_writes (tr ++ evs).
Proof.
  intros He [Hw|(h & f & cs & Hh & Hv & Hl & Hc & Hw & Hp)].
  - left. by apply untouched_app.
  - right. exists h, f, cs. split_and!; [done|done|done|by rewrite creates_same| |].
    + destruct He as [He _]. by rewrite file_writes_app, He, app_nil_r.
    + rewrite flow_app. by apply prefix_app_r.
Qed.

(** Anything but writing to the stream keeps the conversation. *)
Lemma receiver_conversation_quiet tr e :
  is_quiet e -> receiver_conversation tr -> receiver_conversation (tr ++ [e]).
Proof.
  intros Hq Hc. unfold receiver_conversation. rewrite flow_app, file_writes_app.
  destruct (flow_quiet e Hq) as [b ->].
  destruct Hc as [[g ->]|(h & f & cs & f0 & g & Hh & Hp & -> & Hw)].
  - left. exists (g ++ b). by rewrite tag_app.
  - right. exists h, f, cs, f0, (g ++ b).
    split_and!; [done|done|by rewrite tag_app, app_assoc|by apply prefix_app_r].
Qed.

(** Anything but writing to the stream or a file keeps the history safe. *)
Lemma receiver_safe_quiet tr e :
  is_quiet e -> untouched [e] -> receiver_safe tr -> receiver_safe (tr ++ [e]).
Proof.
  intros Hq He [Hc Hw]. split; [|by apply receiver_writes_mono].
  by apply receiver_conversation_quiet.
Qed.

Lemma receiver_safe_read : read_stable receiver_safe.
Proof. intros tr n r. by apply receiver_safe_quiet. Qed.

(** Writing a message that leads to a point of the conversation. *)
Lemma receiver_safe_write h f s tr b e cs :
  receiver_safe tr -> header_valid h -> receiver_point h cs (flow tr ++ tag Tx b) ->
  receiver_done h f s tr cs -> receiver_safe (tr ++ [EvWrite b e]).
Proof.
  intros [Hc Hw] Hh Hp (_ & _ & Hd). split; [|by apply receiver_writes_mono].
  unfold receiver_conversation. rewrite flow_app, file_writes_app, flow_singleton.
  destruct e; simpl; [by rewrite !app_nil_r|].
  right. exists h, f, cs, (flow tr ++ tag Tx b), [].
  split_and!; [done|done|by rewrite app_nil_r|]. by rewrite app_nil_r, Hd.
Qed.

(** Writing a chunk that was just verified to the file. *)
Lemma receiver_safe_fwrite h f s tr cs c e :
  receiver_safe tr -> receiver_session h f s tr -> receiver_done h f s tr cs ->
  verified_chunk (md_FileID h) (len cs) c -> len cs < md_Reps h ->
  flow tr = receiver_script h (cs ++ [c]) ->
  receiver_safe (tr ++ [EvFileWrite f (c_Plaintext c) e]).
Proof.
  intros [Hc Hw] (Hh & _ & _ & _ & Hcr) (Hv & _ & Hfw) Hvc Hlt Hf. split.
  { by apply receiver_conversation_quiet. }
  destruct e as [e|]; [by apply receiver_writes_mono|].
  right. exists h, f, (cs ++ [c]). split_and!.
  - done.
  - by apply verified_chunks_snoc.
  - rewrite len_app. unfold len at 2. simpl. lia.
  - by rewrite creates_app, Hcr.
  - by rewrite file_writes_app, Hfw, fmap_app.
  - rewrite flow_app, Hf. by apply prefix_app_r.
Qed.

(** ** The steps *)

Abbreviation rstep_ok step s :=
  (wp receiver_safe (step s)
     (returns (step_post receiver_inv receiver_measure receiver_safe s))).

(** A quiet operation keeps the history safe. *)
Lemma wp_receiver_quiet {A} o (k : ans o -> prog A) Q tr :
  (forall a, is_quiet (event_of o a) /\ untouched [event_of o a]) -> receiver_safe tr ->
  (forall a, receiver_safe (tr ++ [event_of o a]) ->
     wp receiver_safe (k a) Q (tr ++ [event_of o a])) ->
  wp receiver_safe (Vis o k) Q tr.
Proof.
  intros Hq Hs Hk a Ha. destruct (Hq a) as [Hq1 Hq2].
  assert (receiver_safe (tr ++ [event_of o a])) by (by apply receiver_safe_quiet). auto.
Qed.

(** Reading a message. *)
Lemma wp_receiver_read {M A} (cd : Codec M) (k : res M -> prog A) Q tr :
  receiver_safe tr ->
  (forall evs m, cd_valid cd m -> flow evs = tag Rx (cd_encode cd m) -> untouched evs ->
     receiver_safe (tr ++ evs) -> wp receiver_safe (k (Ok m)) Q (tr ++ evs)) ->
  (forall evs e, receiver_safe (tr ++ evs) -> wp receiver_safe (k (Err e)) Q (tr ++ evs)) ->
  wp receiver_safe (bind (cd_read cd) k) Q tr.
Proof.
  intros Hs HOk HErr. apply wp_bind. apply wp_codec_read; [apply receiver_safe_read|done| |].
  - intros evs m Hr Hv Hf Hs'. apply HOk; try done. by apply untouched_reads.
  - intros evs b e _ _ Hs'. by apply HErr.
Qed.

Lemma receiver_step_idle s tr :
  s_state s = StateIdle -> receiver_inv s tr -> rstep_ok stepReceiverIdle s tr.
Proof.
  intros Hst (Hsafe & Hs). unfold receiver_state in Hs. rewrite Hst in Hs. simpl.
  split_and!; [by rewrite Hst|done|]. unfold receiver_measure. rewrite Hst. simpl. lia.
Qed.

Lemma receiver_step_header s tr :
  s_state s = StateReceiveHeader -> receiver_inv s tr -> rstep_ok stepReceiverReceiveHeader s tr.
Proof.
  intros Hst (Hsafe & Hs). unfold receiver_state in Hs. rewrite Hst in Hs.
  destruct Hs as (Hf & Hw & Hl & Hc).
  apply (wp_receiver_read header_codec); [done| |done].
  intros evs h Hh Hfe Hwe Hs1. simpl in Hh, Hfe. cbn [perform bind].
  apply wp_receiver_quiet; [done|done|]. intros e0 Hs2. cbn [event_of].
  intros [f|e] _; cbn [event_of] in *; [|split; by apply receiver_safe_quiet].
  set (tr' := _ ++ [EvCreate _ _]) in *.
  assert (Hfl : flow tr' = receiver_script h []).
  { unfold tr'. rewrite !flow_app, Hf, Hfe, !flow_local by done. simpl.
    unfold receiver_script. simpl. by rewrite !app_nil_r. }
  assert (Hfw : file_writes tr' = []).
  { unfold tr'. destruct Hw as [Hw _], Hwe as [Hwe _]. by rewrite !file_writes_app, Hw, Hwe. }
  assert (Hcr : creates tr' = [("./received/" +:+ md_Name h, f)]).
  { unfold tr'. destruct Hw as [_ Hw], Hwe as [_ Hwe]. by rewrite !creates_app, Hw, Hwe. }
  pose proof Hh as (Hreps & _). unfold is_u32 in Hreps.
  assert (Hs3 : receiver_safe tr').
  { split; [apply receiver_conversation_quiet; [done|apply Hs2]|]. right. exists h, f, [].
    split_and!; [done|apply verified_chunks_nil|unfold len; simpl; lia|done|done|by rewrite Hfl]. }
  split; [done|]. clearbody tr'.
  cbn [s_TotalChunks set_File set_header].
  destruct (Z.eqb_spec (md_Reps h) 0) as [H0|H0].
  - apply wp_receiver_quiet; [done|done|]. intros [e|] Hs4; [done|]. cbn [event_of] in *. simpl.
    split_and!; [by rewrite Hst| |unfold receiver_measure; rewrite Hst; simpl; lia].
    split; [done|]. exists h, f, [], None.
    split_and!; [|split_and!|by unfold len; simpl|set_solver|].
    + by apply receiver_session_mono.
    + apply verified_chunks_nil.
    + done.
    + by rewrite file_writes_app, Hfw.
    + rewrite decide_True by done. by rewrite flow_app, flow_local, app_nil_r.
  - simpl. split_and!; [by rewrite Hst| |unfold receiver_measure; rewrite Hst; simpl; lia].
    split; [done|]. exists h, f, []. split; [|done].
    split_and!; [done|split_and!; [apply verified_chunks_nil|done|done]|done|simpl; lia].
Qed.

Lemma receiver_step_request s tr :
  s_state s = StateSendChunkRequest -> receiver_inv s tr ->
  rstep_ok stepReceiverSendChunkRequest s tr.
Proof.
  intros Hst (Hsafe & Hs). unfold receiver_state in Hs. rewrite Hst in Hs.
  destruct Hs as (h & f & cs & Ho & Hf). pose proof Ho as ((Hh & _) & (Hv & _) & Hcs & Hlt).
  pose proof Ho as ((_ & _ & _ & HT & _) & _).
  intros e _. cbn [event_of].
  assert (Hs1 : receiver_safe (tr ++ [EvWrite (chunkRequestBytes (s_CurrentChunk s)) e])).
  { apply (receiver_safe_write h f s _ _ _ cs); [done|done| |apply Ho].
    rewrite Hf, <-Hcs. apply rp_request; [done|lia]. }
  split; [done|]. destruct e as [e|]; [done|]. simpl.
  split_and!; [by rewrite Hst| |unfold receiver_measure; rewrite Hst; simpl; lia].
  split; [done|]. exists h, f, cs. split; [by apply receiver_open_mono|].
  by rewrite flow_app, Hf, flow_singleton, Hcs.
Qed.

Lemma receiver_step_response s tr :
  s_state s = StateWaitingChunkResponse -> receiver_inv s tr ->
  rstep_ok stepReceiverWaitChunkResponse s tr.
Proof.
  intros Hst (Hsafe & Hs). unfold receiver_state in Hs. rewrite Hst in Hs.
  destruct Hs as (h & f & cs & Ho & Hf).
  pose proof Ho as ((_ & _ & HI & HT & _) & _ & Hcs & Hlt).
  apply (wp_receiver_read (response_codec (s_FileID s))); [done| |done].
  intros evs c Hc Hfe Hwe Hs1. simpl in Hc, Hfe. rewrite HI in Hc.
  destruct (Z.eqb_spec (c_Index c) (s_CurrentChunk s)) as [Hi|Hne]; simpl; [|done].
  split_and!; [by rewrite Hst| |unfold receiver_measure; rewrite Hst; simpl; lia].
  split; [done|]. exists h, f, cs, c. split_and!; [by apply receiver_open_mono|done|done|lia|].
  rewrite flow_app, Hf, Hfe. by rewrite <-app_assoc.
Qed.

Lemma receiver_step_ticket s tr :
  s_state s = StateSendLotteryTicket -> receiver_inv s tr ->
  rstep_ok stepReceiverSendLotteryTicket s tr.
Proof.
  intros Hst (Hsafe & Hs). unfold receiver_state in Hs. rewrite Hst in Hs.
  destruct Hs as (h & f & cs & c & Ho & Hp & Hc & Hi & Hf).
  pose proof Ho as ((Hh & _ & _ & HT & _) & (Hv & _) & Hcs & Hlt).
  intros e _. cbn [event_of].
  assert (Hs1 : receiver_safe (tr ++ [EvWrite (lotteryTicketBytes (s_CurrentChunk s)) e])).
  { apply (receiver_safe_write h f s _ _ _ cs); [done|done| |apply Ho]. rewrite Hf, <-Hcs, <-!app_assoc.
    apply rp_ticket; [done|lia|done|done]. }
  split; [done|]. destruct e as [e|]; [done|]. simpl.
  split_and!; [by rewrite Hst| |unfold receiver_measure; rewrite Hst; simpl; lia].
  split; [done|]. exists h, f, cs, c. split_and!; [by apply receiver_open_mono|done|done|done|].
  rewrite flow_app, Hf, flow_singleton, Hcs. by rewrite <-!app_assoc.
Qed.

Lemma receiver_step_key s tr :
  s_state s = StateWaitingKeyReveal -> receiver_inv s tr ->
  rstep_ok stepReceiverWaitKeyReveal s tr.
Proof.
  intros Hst (Hsafe & Hs). unfold receiver_state in Hs. rewrite Hst in Hs.
  destruct Hs as (h & f & cs & c & Ho & Hp & Hc & Hi & Hf).
  pose proof Ho as ((_ & _ & _ & HT & _) & _ & Hcs & Hlt).
  apply (wp_receiver_read key_codec); [done| |done].
  intros evs [i key] [_ Hk] Hfe Hwe Hs1. simpl in Hk, Hfe.
  destruct (Z.eqb_spec i (s_CurrentChunk s)) as [->|Hne]; simpl; [|done]. rewrite Hp. simpl.
  split_and!; [by rewrite Hst| |unfold receiver_measure; rewrite Hst; simpl; lia].
  split; [done|]. exists h, f, cs, c, key.
  split_and!; [by apply receiver_open_mono|done|done|done|done|].
  rewrite flow_app, Hf, Hfe, Hcs. by rewrite <-!app_assoc.
Qed.

(** One more chunk verified and written. *)
Lemma receiver_done_snoc h f s s' tr cs c :
  receiver_done h f s tr cs -> verified_chunk (md_FileID h) (len cs) c ->
  s_Leaves s' = s_Leaves s ++ [GenerateLeaf c] ->
  receiver_done h f s' (tr ++ [EvFileWrite f (c_Plaintext c) None]) (cs ++ [c]).
Proof.
  intros (Hv & Hl0 & Hw) Hc Hl. split_and!.
  - by apply verified_chunks_snoc.
  - by rewrite Hl, Hl0, fmap_app.
  - by rewrite file_writes_app, Hw, fmap_app.
Qed.

Lemma receiver_session_same h f s s' tr e :
  creates [e] = [] -> receiver_session h f s tr -> s_File s' = s_File s -> s_FileID s' = s_FileID s ->
  s_TotalChunks s' = s_TotalChunks s -> receiver_session h f s' (tr ++ [e]).
Proof.
  intros He (Hh & HF & HI & HT & Hcr) E1 E2 E3. unfold receiver_session. rewrite E1, E2, E3.
  by rewrite creates_app, He, app_nil_r.
Qed.

Lemma receiver_step_verify s tr :
  s_state s = StateVerifyChunk -> receiver_inv s tr ->
  rstep_ok stepReceiverVerifyChunk s tr.
Proof.
  intros Hst (Hsafe & Hs). unfold receiver_state in Hs. rewrite Hst in Hs.
  destruct Hs as (h & f & cs & c & key & Ho & Hp & Hc & Hi & Hk & Hf).
  pose proof Ho as (Hses & Hd & Hcs & Hlt).
  pose proof Hses as (Hh & HF & HI & HT & Hcr). pose proof Hh as (Hreps & _).
  unfold is_u32 in Hreps. pose proof (len_nonneg cs).
  pose proof Hc as (Hfid & _ & Hctl & _ & Hn & Hhl & _).
  unfold stepReceiverVerifyChunk. rewrite Hp.
  destruct (DecryptAndCheck_returns (set_Key c key) Hk Hn) as (c' & r & -> & Hr). cbn [bind].
  destruct r as [pt|e]; [|done]. destruct (Hr pt eq_refl) as (-> & Hhr & E & HE & Hct).
  set (c1 := set_Plaintext (set_Key c key) pt) in *.
  assert (Hvc : verified_chunk (md_FileID h) (len cs) c1).
  { split_and!; try done. by exists E. }
  cbn [s_File set_Leaves set_PendingChunk]. rewrite HF. intros e _. cbn [event_of].
  assert (Hf1 : flow tr = receiver_script h (cs ++ [c1])).
  { rewrite receiver_script_snoc, Hf. unfold receiver_round. cbn. rewrite Hi.
    by rewrite <-?app_assoc. }
  assert (Hs1 : receiver_safe (tr ++ [EvFileWrite f pt e])).
  { apply (receiver_safe_fwrite h f s tr cs c1); try done. lia. }
  split; [done|]. destruct e as [e|]; [done|].
  set (tr' := tr ++ _) in *.
  assert (Hf' : flow tr' = receiver_script h (cs ++ [c1])).
  { unfold tr'. by rewrite flow_app, flow_local, app_nil_r. }
  assert (Hd' : forall s', s_Leaves s' = s_Leaves s ++ [GenerateLeaf c1] ->
                  receiver_done h f s' tr' (cs ++ [c1])).
  { intros s' Hl. by apply (receiver_done_snoc h f s). }
  assert (Hlen : len (cs ++ [c1]) = s_CurrentChunk s + 1).
  { rewrite len_app. unfold len at 2. simpl. lia. }
  assert (Hses' : forall s', s_File s' = s_File s -> s_FileID s' = s_FileID s ->
            s_TotalChunks s' = s_TotalChunks s -> receiver_session h f s' tr').
  { intros s'. by apply (receiver_session_same h f s). }
  set (s1 := set_Leaves _ _). destruct (counters_at s1 (md_Reps h)) as [-> Hadv]; [done|apply Hh|cbn; lia|].
  case_bool_decide as Hlast; cbn in Hlast; cbn [wp returns step_post];
    (split_and!; [cbn; by rewrite Hst| |unfold receiver_measure; rewrite Hst; cbn in Hadv |- *; lia]); (split; [done|]);
    exists h, f, (cs ++ [c1]).
  - split_and!; [by apply Hses'|by apply Hd'|lia|lia|done].
  - split; [|done]. split_and!; [by apply Hses'|by apply Hd'|cbn in Hadv |- *; lia|cbn in Hadv |- *; lia].
Qed.

Lemma receiver_step_merkle s tr :
  s_state s = StateVerifyMerkle -> receiver_inv s tr ->
  rstep_ok stepReceiverVerifyMerkle s tr.
Proof.
  intros Hst (Hsafe & Hs). unfold receiver_state in Hs. rewrite Hst in Hs.
  destruct Hs as (h & f & cs & Hses & Hd & Hcs & Hlt & Hf).
  pose proof Hses as (Hh & HF & _). pose proof Hd as (Hv & Hl & Hw).
  assert (Hclose : forall r tr', receiver_safe tr' ->
    (forall e, receiver_safe (tr' ++ [EvFileClose f e]) ->
      step_post receiver_inv receiver_measure receiver_safe s r (tr' ++ [EvFileClose f e])) ->
    wp receiver_safe (bind (fileClose (s_File s)) (fun _ => Ret r))
      (returns (step_post receiver_inv receiver_measure receiver_safe s)) tr').
  { intros r tr' Hs' Hr. rewrite HF. simpl. intros e _.
    assert (receiver_safe (tr' ++ [EvFileClose f e])) by by apply receiver_safe_quiet. auto. }
  unfold stepReceiverVerifyMerkle. apply wp_defer. unfold verifyMerkleBody.
  apply (wp_receiver_read root_codec); [done| |].
  2:{ intros evs e Hs1. by apply Hclose. }
  intros evs rr Hrr Hfe Hwe Hs1. simpl in Hfe. rewrite Hl.
  destruct (merkle_root_is_Some (GenerateLeaf <$> cs)) as [root Hroot].
  pose proof Hroot as Hroot'. unfold merkle_root in Hroot'. rewrite Hroot'.
  case_bool_decide as Heq; simpl negb; cbv iota; [|by apply Hclose]. subst rr.
  intros e _. cbn [event_of].
  assert (Hs2 : receiver_safe ((tr ++ evs) ++ [EvWrite finalAckBytes e])).
  { apply (receiver_safe_write h f s _ _ _ cs); [done|done| |by apply receiver_done_mono].
    rewrite flow_app, Hf, Hfe, <-app_assoc. by apply rp_ack. }
  split; [done|]. destruct e as [e|]; [by apply Hclose|]. apply Hclose; [done|].
  intros e Hs3. simpl.
  split_and!; [by rewrite Hst| |unfold receiver_measure; rewrite Hst; simpl; lia].
  split; [done|]. exists h, f, cs, e. split_and!.
  - do 3 (apply receiver_session_mono; [done|]). done.
  - do 3 (apply receiver_done_mono; [done|]). done.
  - done.
  - set_solver.
  - rewrite decide_False by lia. exists root. split; [done|].
    rewrite !flow_app, Hf, Hfe, flow_singleton, flow_local by done.
    by rewrite app_nil_r, <-app_assoc.
Qed.

Lemma receiver_steps_ok s tr :
  receiver_inv s tr -> s_state s <> StateFinished ->
  exists step, map_get receiverSteps (s_state s) = Some step /\ rstep_ok step s tr.
Proof.
  intros Hinv Hfin. pose proof Hinv as (_ & Hs). unfold receiver_state in Hs.
  destruct (s_state s) eqn:Hst; try done; eexists; (split; [reflexivity|]).
  - by apply receiver_step_idle.
  - by apply receiver_step_header.
  - by apply receiver_step_request.
  - by apply receiver_step_response.
  - by apply receiver_step_ticket.
  - by apply receiver_step_key.
  - by apply receiver_step_verify.
  - by apply receiver_step_merkle.
Qed.

Lemma receiver_inv_running s tr : receiver_inv s tr -> s_state s <> StateError.
Proof. intros (_ & Hs) Hst. unfold receiver_state in Hs. by rewrite Hst in Hs. Qed.

Lemma receiver_inv_start : receiver_inv (NewSession RoleReceiver) [].
Proof. split; [|done]. split; [left; by exists []|by left]. Qed.

(** ** Properties of [RecieveFile] *)

Definition recievefile_post (r : option error) (tr : list event) : Prop :=
  match r with
  | None => exists s, s_state s = StateFinished /\ receiver_inv s tr
  | Some e => step_failed e
  end.

Lemma wp_RecieveFile fuel :
  enough_fuel fuel -> wp receiver_safe (RecieveFile fuel) (returns recievefile_post) [].
Proof.
  intros Hfuel. apply wp_bind.
  eapply wp_mono; [apply (wp_Run receiver_safe receiver_safe receiverSteps receiver_inv
    receiver_measure); [apply receiver_inv_running|apply receiver_steps_ok|
    apply receiver_inv_start|]|].
  - unfold receiver_measure, enough_fuel in *. cbn [s_state NewSession]. lia.
  - intros [[s [e|]]|h] tr; simpl; [|by intros [? ?]; exists s|done]. by intros (_ & ? & _).
Qed.

(** What has happened when the receiver is done with the header [h] and the
    file [f] it created: [cs] are the chunks it received. *)
Definition receiver_complete (tr : list event) (h : MetaData) (f : handle)
    (cs : list Chunk) : Prop :=
  header_valid h /\ len cs = md_Reps h /\ verified_chunks (md_FileID h) cs /\
  creates tr = [("./received/" +:+ md_Name h, f)] /\ (exists e, EvFileClose f e ∈ tr) /\
  file_writes tr = (fun c => (f, c_Plaintext c)) <$> cs /\
  (cs = [] -> flow tr = tag Rx (headerBytes h)) /\
  (cs <> [] -> exists root, merkle_root (GenerateLeaf <$> cs) = Some root /\
     flow tr = receiver_script h cs ++ tag Rx (rootBytes root) ++ tag Tx finalAckBytes).

Section recievefile_properties.
Context (fuel : nat) (tr : list event).
Hypothesis Hfuel : enough_fuel fuel.

Lemma recievefile_safe : partial (RecieveFile fuel) tr -> receiver_safe tr.
Proof using Hfuel.
  intros Hp. apply (wp_partial receiver_safe _ _ [] tr (proj1 receiver_inv_start)
    (wp_RecieveFile fuel Hfuel) Hp).
Qed.

(** C8: data integrity at every moment.  Whatever the peer sends, everything
    [RecieveFile] has done to the disk so far is: nothing; or it created one file,
    under ./received/ for the announced name, and its successful writes are the
    plaintexts of the chunks 0, 1, 2, ... in order, each of which arrived as a response for its index,
    was acknowledged by a ticket, decrypted under the key revealed for its
    index and matched the commitment sent before the key. *)
Theorem RecieveFile_writes_verified :
  partial (RecieveFile fuel) tr ->
  untouched tr \/
  exists h f cs, header_valid h /\ verified_chunks (md_FileID h) cs /\ len cs <= md_Reps h /\
    creates tr = [("./received/" +:+ md_Name h, f)] /\
    file_writes tr = (fun c => (f, c_Plaintext c)) <$> cs /\
    receiver_script h cs `prefix_of` flow tr.
Proof using Hfuel. intros Hp. apply recievefile_safe, Hp. Qed.

(** C16: the receiver speaks the protocol at every moment and against any peer:
    it requests chunk [i] only after the chunks before [i] were verified and
    written to the file, sends the ticket for [i] only after a response for [i],
    and acknowledges only after all announced chunks were verified and written
    and the received root is the Merkle root of their leaves. *)
Theorem RecieveFile_conversation :
  partial (RecieveFile fuel) tr -> receiver_conversation tr.
Proof using Hfuel. intros Hp. apply recievefile_safe, Hp. Qed.

Lemma recievefile_completes :
  exec (RecieveFile fuel) tr (Done None) -> exists h f cs, receiver_complete tr h f cs.
Proof using Hfuel.
  intros He. pose proof (wp_exec _ _ _ [] _ _ (wp_RecieveFile fuel Hfuel) He) as (s & Hst & _ & Hs).
  unfold receiver_state in Hs. rewrite Hst in Hs.
  destruct Hs as (h & f & cs & e & (Hh & _ & _ & _ & Hcr) & (Hv & _ & Hw) & Hlen & Hcl & Hfl).
  rewrite app_nil_l in *. exists h, f, cs. unfold receiver_complete.
  split_and!; try done; [by exists e| |].
  - intros ->. rewrite decide_True in Hfl by done. rewrite Hfl. unfold receiver_script.
    apply app_nil_r.
  - intros Hne. rewrite decide_False in Hfl; [done|]. rewrite <-Hlen. unfold len.
    destruct cs; simpl; [done|lia].
Qed.

(** C18: when [RecieveFile] returns [nil], it received a valid header and all
    the chunks it announced, every one verified, the file holds exactly their
    plaintexts in order and was closed, and (unless there were no chunks) the
    root it received is the Merkle root of their leaves and was acknowledged. *)
Theorem RecieveFile_success :
  exec (RecieveFile fuel) tr (Done None) -> exists h f cs, receiver_complete tr h f cs.
Proof using Hfuel. apply recievefile_completes. Qed.

(** C20: [RecieveFile] always ends and never panics, whatever the peer sends: it
    returns [nil] or the error of a failed step of the state machine, never an
    illegal transition or a missing step. *)
Theorem RecieveFile_outcome r :
  exec (RecieveFile fuel) tr r ->
  r = Done None \/ exists e, r = Done (Some e) /\ step_failed e.
Proof using Hfuel.
  intros He. pose proof (wp_exec _ _ _ [] _ _ (wp_RecieveFile fuel Hfuel) He) as Hp.
  destruct r as [[e|]|h]; [right; by exists e|by left|done].
Qed.

End recievefile_properties.

End receiver.
