(* ===== verification/Integrity.v ===== *)
(** * Integrity: what the Merkle root and the commitments bind

    The chunks a sender sealed and the chunks a receiver verified are compared
    through the Merkle root alone: equal roots over equally many chunks mean
    equal file contents, unless two of the messages that were hashed on the two
    sides collide.  The list of those messages is given explicitly. *)

From S2P Require Import Prelude Effects AesGcm Protocol Utils Merkle Wire Controllers Flow.
From S2P Require Import SenderSpec ReceiverSpec.

Section integrity.
Context `{LegacyKeccak256}.

(** The message hashed by [GenerateLeaf]. *)
Definition leaf_msg (c : Chunk) : bytes :=
  c_FileID c ++ PutUint32 (c_Index c) ++ c_Nonce c ++ c_Ciphertext c ++ c_HResp c.

(** The message hashed by [ComputeResponseCommitment]. *)
Definition commit_msg (c : Chunk) : bytes := c_Key c ++ c_Plaintext c.

(** Every message hashed for the chunks [cs]. *)
Definition hashed_msgs (cs : list Chunk) : list bytes :=
  BuildTree_msgs (GenerateLeaf <$> cs) ++ (leaf_msg <$> cs) ++ (commit_msg <$> cs).

(** The sizes that make the hashed messages unambiguous. *)
Definition chunk_sizes (c : Chunk) : Prop :=
  len (c_FileID c) = HashSize /\ len (c_Nonce c) = NonceSize /\ len (c_HResp c) = HashSize /\
  len (c_Key c) = KeySize /\ c_HResp c = keccak256 (commit_msg c).

Lemma GenerateLeaf_msg c : GenerateLeaf c = keccak256 (leaf_msg c).
Proof. unfold GenerateLeaf, Keccak, leaf_msg. simpl. by rewrite app_nil_r. Qed.

Lemma GenerateLeaf_msgs (cs : list Chunk) : GenerateLeaf <$> cs = keccak256 <$> (leaf_msg <$> cs).
Proof. rewrite <-list_fmap_compose. apply list_fmap_ext. intros i c _. apply GenerateLeaf_msg. Qed.

(** The message of a leaf determines what the leaf commits to. *)
Lemma leaf_msg_inj c c' :
  chunk_sizes c -> chunk_sizes c' -> leaf_msg c = leaf_msg c' ->
  c_FileID c = c_FileID c' /\ PutUint32 (c_Index c) = PutUint32 (c_Index c') /\
  c_Nonce c = c_Nonce c' /\ c_Ciphertext c = c_Ciphertext c' /\ c_HResp c = c_HResp c'.
Proof.
  intros (Hf & Hn & Hh & _) (Hf' & Hn' & Hh' & _) Heq. unfold len, leaf_msg in *.
  apply app_inj_len in Heq as [-> Heq]; [|lia].
  apply app_inj_len in Heq as [-> Heq]; [|done].
  apply app_inj_len in Heq as [-> Heq]; [|lia].
  apply app_inj_2 in Heq as [-> ->]; [done|lia].
Qed.

Lemma fmap_pointwise {A B C} (P : A -> Prop) (f : A -> B) (g : A -> C) (l l' : list A) :
  (forall x y, P x -> P y -> f x = f y -> g x = g y) ->
  Forall P l -> Forall P l' -> f <$> l = f <$> l' -> g <$> l = g <$> l'.
Proof.
  intros Hfg Hl. revert l'. induction Hl as [|x l Hx Hl IH]; intros [|y l'] Hl' Heq; try done.
  simpl in *. injection Heq as Hxy Heq. apply Forall_cons in Hl' as [Hy Hl'].
  f_equal; auto.
Qed.

Lemma sealed_sizes `{!LegacyKeccak256Spec} fid cs :
  len fid = HashSize -> sealed_chunks fid cs -> Forall chunk_sizes cs.
Proof.
  intros Hfid Hcs. apply Forall_lookup. intros i c Hi.
  destruct (Hcs i c Hi) as (Hf & _ & Hk & Hn & _ & Hh & _).
  unfold chunk_sizes. rewrite Hf, Hh. split_and!; try done; [apply Keccak_size|].
  unfold Keccak, commit_msg. simpl. by rewrite app_nil_r.
Qed.

Lemma verified_sizes fid cs :
  len fid = HashSize -> verified_chunks fid cs -> Forall chunk_sizes cs.
Proof.
  intros Hfid Hcs. apply Forall_lookup. intros i c Hi.
  destruct (Hcs i c Hi) as (Hf & _ & Hk & Hn & Hl & _ & Hh & _).
  unfold chunk_sizes. rewrite Hf. split_and!; try done. rewrite Hh.
  unfold Keccak, commit_msg. simpl. by rewrite app_nil_r.
Qed.

(** Equal roots over chunks of the right sizes: equal contents or a collision. *)
Lemma root_determines_contents `{!LegacyKeccak256Spec} (cs cs' : list Chunk) :
  Forall chunk_sizes cs -> Forall chunk_sizes cs' -> length cs = length cs' ->
  merkle_root (GenerateLeaf <$> cs) = merkle_root (GenerateLeaf <$> cs') ->
  c_Plaintext <$> cs = c_Plaintext <$> cs' \/ collision_in (hashed_msgs cs ++ hashed_msgs cs').
Proof.
  intros Hcs Hcs' Hlen Hroot.
  assert (Hleaf : forall l, Forall (fun x => len x = 32) (GenerateLeaf <$> l)).
  { intros l. apply Forall_fmap, Forall_true. intros c. apply Keccak_size. }
  apply merkle_binding_lemma in Hroot as [Heq|Hc]; [| |by rewrite !length_fmap|done..].
  2:{ right. revert Hc. apply collision_in_mono. unfold hashed_msgs. set_solver. }
  rewrite !GenerateLeaf_msgs in Heq. apply hashes_binding in Heq as [Heq|Hc].
  2:{ right. revert Hc. apply collision_in_mono. unfold hashed_msgs. set_solver. }
  assert (Hh : keccak256 <$> (commit_msg <$> cs) = keccak256 <$> (commit_msg <$> cs')).
  { rewrite <-!list_fmap_compose. apply (fmap_pointwise chunk_sizes leaf_msg); [|done..].
    intros c c' Hc Hc' (_ & _ & _ & _ & Hhr)%leaf_msg_inj; [|done..].
    destruct Hc as (_ & _ & _ & _ & Hc), Hc' as (_ & _ & _ & _ & Hc'). simpl. congruence. }
  apply hashes_binding in Hh as [Hh|Hc].
  2:{ right. revert Hc. apply collision_in_mono. unfold hashed_msgs. set_solver. }
  left. apply (fmap_pointwise chunk_sizes commit_msg); [|done..].
  intros c c' (_ & _ & _ & Hk & _) (_ & _ & _ & Hk' & _) Hm. unfold commit_msg, len in *.
  by apply app_inj_len in Hm as [_ ->]; [|lia].
Qed.

(** ** Both ends of a transfer *)

(** A conversation that ends by a message in one direction and one in the other
    determines the last two messages. *)
Lemma flow_suffix_inj (f f' : list (dir * byte)) d d' (m m' a : bytes) :
  length m = length m' -> f ++ tag d m ++ tag d' a = f' ++ tag d m' ++ tag d' a -> m = m'.
Proof.
  intros Hl Heq. rewrite !app_assoc in Heq. apply app_inv_tail in Heq.
  apply app_inj_2 in Heq as [_ Heq]; [by apply tag_inj in Heq|].
  unfold tag. by rewrite !length_fmap.
Qed.

(** A message sent (received) is not a conversation that ends by receiving (sending). *)
Lemma flow_ends_neq (f : list (dir * byte)) d d' m r a :
  d <> d' -> a <> [] -> tag d m <> f ++ tag d r ++ tag d' a.
Proof.
  intros Hd Ha Heq. destruct (exists_last Ha) as (a0 & x & ->).
  assert (Hin : (d', x) ∈ tag d m).
  { rewrite Heq, tag_app. unfold tag at 3. set_solver. }
  unfold tag in Hin. apply list_elem_of_fmap in Hin as (y & [= -> _] & _). done.
Qed.

(** The leaves of chunks have the size of a hash, and so has their root. *)
Lemma leaves_root_size `{!LegacyKeccak256Spec} (cs : list Chunk) root :
  cs <> [] -> merkle_root (GenerateLeaf <$> cs) = Some root -> length (rootBytes root) = 33%nat.
Proof.
  intros Hne Hr. apply merkle_root_size in Hr.
  - unfold rootBytes, len in *. simpl. lia.
  - by destruct cs.
  - apply Forall_fmap, Forall_true. intros c. apply Keccak_size.
Qed.

(** C6: integrity across a hostile network.  A sender whose [SendFile] returned
    [nil] and a receiver whose [RecieveFile] returned [nil] are connected by a
    network that may have changed everything except that the root the receiver
    got is the root the sender sent and equally many chunks were transferred.
    Then the receiver's file holds exactly the plaintexts the sender read from
    its file, unless two of the messages hashed for these chunks collide. *)
Theorem transfer_integrity `{!LegacyKeccak256Spec} fuel fuel' path trS trR preS preR root :
  enough_fuel fuel -> enough_fuel fuel' ->
  exec (SendFile fuel path) trS (Done None) -> exec (RecieveFile fuel') trR (Done None) ->
  flow trS = preS ++ tag Tx (rootBytes root) ++ tag Rx finalAckBytes ->
  flow trR = preR ++ tag Rx (rootBytes root) ++ tag Tx finalAckBytes ->
  len root = HashSize ->
  exists fS info fid cs h fR cs',
    sender_complete path trS fS info fid cs /\ receiver_complete trR h fR cs' /\
    (md_Reps h = md_Reps (file_metadata info fid) ->
     file_writes trR = (fun c => (fR, c_Plaintext c)) <$> cs \/
     collision_in (hashed_msgs cs ++ hashed_msgs cs')).
Proof.
  intros Hf1 Hf2 HS HR HfS HfR Hroot.
  destruct (sendfile_completes _ _ _ Hf1 HS) as (fS & info & info0 & t & cs & HcS & _).
  destruct (recievefile_completes _ _ Hf2 HR) as (h & fR & cs' & HcR).
  pose proof HcS as (_ & _ & Hlen & Hsc & _ & HflS0 & HflS).
  pose proof HcR as (Hh & Hlen' & Hvc & _ & _ & Hw & HflR0 & HflR).
  exists fS, info, (file_id info0 t), cs, h, fR, cs'. split_and!; [done|done|].
  intros Hreps.
  assert (Hne : cs <> []).
  { intros Hnil. rewrite (HflS0 Hnil) in HfS. by apply flow_ends_neq in HfS. }
  assert (Hne' : cs' <> []).
  { intros Hnil. rewrite (HflR0 Hnil) in HfR. by apply flow_ends_neq in HfR. }
  destruct (HflS Hne) as (r & Hr & HfS'). destruct (HflR Hne') as (r' & Hr' & HfR').
  rewrite HfS in HfS'. rewrite HfR in HfR'.
  assert (Hr33 : length (rootBytes root) = 33%nat).
  { unfold rootBytes, len, HashSize in *. simpl. lia. }
  apply flow_suffix_inj in HfS'; [|by rewrite (leaves_root_size cs r)].
  apply flow_suffix_inj in HfR'; [|by rewrite (leaves_root_size cs' r')].
  unfold rootBytes in HfS', HfR'. apply app_inv_head in HfS' as <-. apply app_inv_head in HfR' as <-.
  destruct (root_determines_contents cs cs') as [Heq|Hc].
  - apply (sealed_sizes (file_id info0 t)); [apply Keccak_size|done].
  - apply (verified_sizes (md_FileID h)); [apply Hh|done].
  - unfold len in *. lia.
  - congruence.
  - left. rewrite Hw. change (fun c : Chunk => (fR, c_Plaintext c)) with (pair fR ∘ c_Plaintext).
    by rewrite !list_fmap_compose, Heq.
  - by right.
Qed.

End integrity.
