(* ===== verification/Network.v ===== *)
(** * Network: two endpoints over a reliable stream

    A machine ([World]: files, open handles, random bytes, clock) that answers
    the local operations, an endpoint ([party]: a program, its machine and the
    bytes that have arrived for it), and a system of two endpoints in which
    what one writes arrives in order at the other.  The endpoints run
    concurrently: a schedule may pick either one at each step, and an endpoint
    waits in [io.ReadFull] until enough bytes have arrived or its peer is over.
    The main result is that the schedule does not matter ([schedule_irrelevant]). *)

From S2P Require Import Prelude Effects.

(** ** A machine *)

Record World := mkWorld {
  w_files : gmap string bytes;
  w_handles : list (option (string * nat));   (* open files: path and offset *)
  w_rand : nat -> byte;                       (* the random bytes *)
  w_rpos : nat;                               (* how many have been drawn *)
  w_clock : Z
}.

(** The name of a file as [os.File.Stat] reports it: the last element of the
    path, without trailing slashes. *)
Definition slash : Ascii.ascii := Ascii.ascii_of_nat 47.

Fixpoint drop_slashes (l : list Ascii.ascii) : list Ascii.ascii :=
  match l with
  | c :: l' => if bool_decide (c = slash) then drop_slashes l' else l
  | [] => []
  end.

Fixpoint until_slash (l : list Ascii.ascii) : list Ascii.ascii :=
  match l with
  | c :: l' => if bool_decide (c = slash) then [] else c :: until_slash l'
  | [] => []
  end.

Definition basename (path : string) : string :=
  match drop_slashes (rev (String.list_ascii_of_string path)) with
  | [] => if bool_decide (path = "")%string then ""%string else "/"%string
  | l => String.string_of_list_ascii (rev (until_slash l))
  end.

Definition ErrNotExist : error := Errorf "file does not exist" [].
Definition ErrClosed : error := Errorf "file already closed" [].

Definition set_handles (w : World) (hs : list (option (string * nat))) : World :=
  {| w_files := w_files w; w_handles := hs; w_rand := w_rand w; w_rpos := w_rpos w;
     w_clock := w_clock w |}.
Definition set_files (w : World) (fs : gmap string bytes) : World :=
  {| w_files := fs; w_handles := w_handles w; w_rand := w_rand w; w_rpos := w_rpos w;
     w_clock := w_clock w |}.
Definition set_rpos (w : World) (n : nat) : World :=
  {| w_files := w_files w; w_handles := w_handles w; w_rand := w_rand w; w_rpos := n;
     w_clock := w_clock w |}.

(** The path, offset and contents of an open handle. *)
Definition open_file (w : World) (f : handle) : option (string * nat * bytes) :=
  '(p, off) ← mjoin (w_handles w !! f); c ← w_files w !! p; Some (p, off, c).

(** The answer of the machine to a local operation; [None] for an operation on
    the stream. *)
Definition world_answer (o : op) (w : World) : option (ans o * World) :=
  match o with
  | OReadFull _ | OWrite _ | OClose | OReset => None
  | ORand n => Some (Ok (w_rand w <$> seq (w_rpos w) (Z.to_nat n)),
                     set_rpos w (w_rpos w + Z.to_nat n))
  | ONow => Some (w_clock w, w)
  | OOpenFile p =>
      match w_files w !! p with
      | Some _ => Some (Ok (length (w_handles w)), set_handles w (w_handles w ++ [Some (p, 0%nat)]))
      | None => Some (Err ErrNotExist, w)
      end
  | OStat f =>
      match open_file w f with
      | Some (p, _, c) => Some (Ok {| fi_Name := basename p; fi_Size := len c |}, w)
      | None => Some (Err ErrClosed, w)
      end
  | OReadAt f n off =>
      match open_file w f with
      | Some (_, _, c) =>
          if decide (off < 0) then Some (([], Some (Errorf "negative offset" [])), w)
          else
            let d := take (Z.to_nat n) (drop (Z.to_nat off) c) in
            Some ((d, if decide (len d < n) then Some EOF else None), w)
      | None => Some (([], Some ErrClosed), w)
      end
  | OMkdirAll _ => Some (None, w)
  | OCreate p => Some (Ok (length (w_handles w)),
                       set_handles (set_files w (<[p := []]> (w_files w)))
                         (w_handles w ++ [Some (p, 0%nat)]))
  | OFileWrite f b =>
      match open_file w f with
      | Some (p, off, c) =>
          Some (None, set_handles
            (set_files w (<[p := take off c ++ b ++ drop (off + length b) c]> (w_files w)))
            (<[f := Some (p, off + length b)%nat]> (w_handles w)))
      | None => Some (Some ErrClosed, w)
      end
  | OFileClose f =>
      match w_handles w !! f with
      | Some (Some _) => Some (None, set_handles w (<[f := None]> (w_handles w)))
      | _ => Some (Some ErrClosed, w)
      end
  end.

(** ** An endpoint *)

Record party (A : Type) := mkParty {
  p_prog : prog A;
  p_world : World;
  p_inbox : bytes;
  p_closed : bool     (* it has closed its side of the stream *)
}.
Arguments mkParty {A} _ _ _ _.
Arguments p_prog {A} _.
Arguments p_world {A} _.
Arguments p_inbox {A} _.
Arguments p_closed {A} _.

(** Nothing more will arrive from this endpoint: it has returned, stopped or
    closed the stream. *)
Definition over {A} (x : party A) : bool :=
  p_closed x || match p_prog x with Vis _ _ => false | _ => true end.

Definition deliver {A} (x : party A) (b : bytes) : party A :=
  mkParty (p_prog x) (p_world x) (p_inbox x ++ b) (p_closed x).

(** One operation of an endpoint, with the bytes it sends; [None] when it is
    finished or has to wait.  [peer_over] tells that its peer is over. *)
Definition pstep {A} (x : party A) (peer_over : bool) : option (party A * bytes) :=
  match p_prog x with
  | Ret _ | Halt _ => None
  | Vis o k =>
      match o return (ans o -> prog A) -> option (party A * bytes) with
      | OReadFull n => fun k =>
          if decide (n <= len (p_inbox x)) then
            Some (mkParty (k (Ok (take (Z.to_nat n) (p_inbox x)))) (p_world x)
                    (drop (Z.to_nat n) (p_inbox x)) (p_closed x), [])
          else if peer_over then
            Some (mkParty (k (Err (if decide (p_inbox x = []) then EOF else ErrUnexpectedEOF)))
                    (p_world x) [] (p_closed x), [])
          else None
      | OWrite b => fun k =>
          if p_closed x
          then Some (mkParty (k (Some ErrClosed)) (p_world x) (p_inbox x) true, [])
          else Some (mkParty (k None) (p_world x) (p_inbox x) false, b)
      | OClose | OReset => fun k =>
          Some (mkParty (k tt) (p_world x) (p_inbox x) true, [])
      | o => fun k =>
          match world_answer o (p_world x) with
          | Some (a, w) => Some (mkParty (k a) w (p_inbox x) (p_closed x), [])
          | None => None
          end
      end k
  end.

(** ** Two endpoints *)

Record system (A B : Type) := mkSystem { left_end : party A; right_end : party B }.
Arguments mkSystem {A B} _ _.
Arguments left_end {A B} _.
Arguments right_end {A B} _.

Section system.
Context {A B : Type}.

Definition step_left (s : system A B) : option (system A B) :=
  match pstep (left_end s) (over (right_end s)) with
  | Some (l, b) => Some (mkSystem l (deliver (right_end s) b))
  | None => None
  end.

Definition step_right (s : system A B) : option (system A B) :=
  match pstep (right_end s) (over (left_end s)) with
  | Some (r, b) => Some (mkSystem (deliver (left_end s) b) r)
  | None => None
  end.

(** One step of either endpoint. *)
Inductive sys_step (s : system A B) : system A B -> Prop :=
| sys_left s' : step_left s = Some s' -> sys_step s s'
| sys_right s' : step_right s = Some s' -> sys_step s s'.

(** [n] steps, in some order of the two endpoints. *)
Inductive sys_steps : nat -> system A B -> system A B -> Prop :=
| sys_refl s : sys_steps 0 s s
| sys_cons n s1 s2 s3 : sys_step s1 s2 -> sys_steps n s2 s3 -> sys_steps (S n) s1 s3.

(** Neither endpoint can move. *)
Definition terminal (s : system A B) : Prop := step_left s = None /\ step_right s = None.

End system.

(** An executable scheduler: at each step prefer the endpoint the schedule
    names, and stop when neither can move. *)
Fixpoint run_system {A B} (fuel : nat) (sched : nat -> bool) (s : system A B) : system A B :=
  match fuel with
  | O => s
  | S fuel =>
      let first := if sched fuel then step_left s else step_right s in
      let second := if sched fuel then step_right s else step_left s in
      match first, second with
      | Some s', _ => run_system fuel sched s'
      | None, Some s' => run_system fuel sched s'
      | None, None => s
      end
  end.

(** ** The schedule does not matter *)

Section confluence.
Context {A B : Type}.

(** An endpoint that is over sends nothing more. *)
Lemma pstep_over_silent (x x' : party A) po b :
  pstep x po = Some (x', b) -> over x = true -> b = [] /\ over x' = true.
Proof.
  unfold pstep, over. destruct (p_prog x) as [a|h|o k]; [done|done|].
  rewrite orb_false_r. intros Hs Hc. rewrite Hc in Hs.
  destruct o; try (destruct (world_answer _ _) as [[a w]|]); repeat case_decide; simplify_eq/=; try done;
    destruct po; by simplify_eq/=.
Qed.

(** What an endpoint can do is not changed by bytes that arrive meanwhile, nor
    by its peer becoming over. *)
Lemma pstep_deliver (x x' : party A) po po' b d :
  pstep x po = Some (x', b) -> (po = true -> d = [] /\ po' = true) ->
  pstep (deliver x d) po' = Some (deliver x' d, b).
Proof.
  unfold pstep. cbn [p_prog deliver p_inbox p_world p_closed].
  destruct (p_prog x) as [a|h|o k]; [done|done|]. intros Hs Hpo.
  destruct o; try (destruct (world_answer _ _) as [[a w]|]); simplify_eq/=; try done.
  - case_decide as Hn.
    + rewrite decide_True by (rewrite len_app; pose proof (len_nonneg d); lia).
      simplify_eq/=. unfold len in Hn. rewrite take_app_le, drop_app_le by lia. done.
    + destruct po; [|done]. destruct (Hpo eq_refl) as [-> ->].
      rewrite app_nil_r, decide_False by done. simplify_eq/=. done.
  - destruct (p_closed x); by simplify_eq/=.
Qed.

Lemma deliver_nil (x : party A) : deliver x [] = x.
Proof. destruct x. unfold deliver. simpl. by rewrite app_nil_r. Qed.

End confluence.

Section confluence_system.
Context {A B : Type}.
Implicit Types s : system A B.

(** The two endpoints commute. *)
Lemma step_commute s s1 s2 :
  step_left s = Some s1 -> step_right s = Some s2 ->
  exists s3, step_right s1 = Some s3 /\ step_left s2 = Some s3.
Proof.
  unfold step_left, step_right. destruct s as [l r]. cbn [left_end right_end].
  destruct (pstep l (over r)) as [[l' b]|] eqn:Hl; [|done].
  destruct (pstep r (over l)) as [[r' c]|] eqn:Hr; [|done].
  intros [= <-] [= <-]. cbn [left_end right_end].
  rewrite (pstep_deliver r r' (over l) (over l') c b); [|done|].
  2:{ intros Ho. by apply (pstep_over_silent l l' (over r)). }
  rewrite (pstep_deliver l l' (over r) (over r') b c); [|done|].
  2:{ intros Ho. by apply (pstep_over_silent r r' (over l)). }
  by eexists.
Qed.

Lemma sys_step_diamond s s1 s2 :
  sys_step s s1 -> sys_step s s2 -> s1 = s2 \/ exists s3, sys_step s1 s3 /\ sys_step s2 s3.
Proof.
  intros [? H1|? H1] [? H2|? H2].
  - left. congruence.
  - right. destruct (step_commute _ _ _ H1 H2) as (s3 & ? & ?).
    exists s3. split; [by apply sys_right|by apply sys_left].
  - right. destruct (step_commute _ _ _ H2 H1) as (s3 & ? & ?).
    exists s3. split; [by apply sys_left|by apply sys_right].
  - left. congruence.
Qed.

Lemma terminal_no_step s s' : terminal s -> ~ sys_step s s'.
Proof. intros [Hl Hr] [? H|? H]; congruence. Qed.

(** One step towards a terminal system is one step less to go. *)
Lemma sys_steps_strip n s s1 t :
  sys_steps n s t -> terminal t -> sys_step s s1 ->
  exists n', n = S n' /\ sys_steps n' s1 t.
Proof.
  intros Hn Ht. revert s1. induction Hn as [s|n s s' t H1 Hn IH]; intros s1 Hs1.
  - by apply terminal_no_step in Hs1.
  - exists n. split; [done|]. destruct (sys_step_diamond _ _ _ H1 Hs1) as [->|(s3 & H3 & H3')]; [done|].
    destruct (IH Ht s3 H3) as (n' & -> & Hn'). by eapply sys_cons.
Qed.

Lemma sys_steps_bounded n m s s' t :
  sys_steps n s t -> terminal t -> sys_steps m s s' ->
  (m <= n)%nat /\ sys_steps (n - m) s' t.
Proof.
  intros Hn Ht Hm. revert n Hn. induction Hm as [s|m s s1 s' H1 Hm IH]; intros n Hn.
  - split; [lia|]. by replace (n - 0)%nat with n by lia.
  - destruct (sys_steps_strip _ _ _ _ Hn Ht H1) as (n' & -> & Hn').
    destruct (IH n' Hn') as [Hle Hs]. split; [lia|done].
Qed.

Lemma sys_steps_trans n m s1 s2 s3 :
  sys_steps n s1 s2 -> sys_steps m s2 s3 -> sys_steps (n + m) s1 s3.
Proof. induction 1; simpl; [done|]. intros. eapply sys_cons; eauto. Qed.

Lemma schedule_irrelevant n s t :
  sys_steps n s t -> terminal t ->
  (forall m s', sys_steps m s s' -> (m <= n)%nat /\ sys_steps (n - m) s' t) /\
  (forall m t', sys_steps m s t' -> terminal t' -> t' = t).
Proof.
  intros Hn Ht. split.
  - intros m s' Hm. by eapply sys_steps_bounded.
  - intros m t' Hm Ht'. destruct (sys_steps_bounded _ _ _ _ _ Hn Ht Hm) as [_ Hs].
    inversion Hs as [|? ? s2 ? H1]; [done|]. by apply terminal_no_step in H1.
Qed.

End confluence_system.
