(* ===== verification/Honest.v ===== *)
(** * Honest: running an endpoint while its peer waits

    [eval] runs a program on its machine as long as the bytes that have arrived
    suffice; [solo] is the same as steps of an endpoint; [sys_left_solo] and
    [sys_right_solo] make them steps of the system.  Then, for every step of
    the sender and of the receiver, what it does when its peer is the other
    one. *)

From S2P Require Import Prelude Effects AesGcm Protocol Utils Merkle Wire Controllers Flow Network.

(** ** Big steps *)

(** The answer to an operation when nothing has to be waited for: the answer,
    the machine, the bytes left and the bytes sent. *)
Definition respond (o : op) (w : World) (inb : bytes) : option (ans o * World * bytes * bytes) :=
  match o with
  | OReadFull n =>
      if decide (n <= len inb)
      then Some (Ok (take (Z.to_nat n) inb), w, drop (Z.to_nat n) inb, []) else None
  | OWrite b => Some (None, w, inb, b)
  | OClose | OReset => None
  | o => match world_answer o w with Some (a, w) => Some (a, w, inb, []) | None => None end
  end.

(** A whole program; [None] when it would have to wait. *)
Fixpoint eval {A} (p : prog A) (w : World) (inb : bytes)
    : option (outcome A * World * bytes * bytes) :=
  match p with
  | Ret a => Some (Done a, w, inb, [])
  | Halt h => Some (Halted h, w, inb, [])
  | Vis o k =>
      match respond o w inb with
      | Some (a, w1, inb1, b) =>
          match eval (k a) w1 inb1 with
          | Some (r, w2, inb2, c) => Some (r, w2, inb2, b ++ c)
          | None => None
          end
      | None => None
      end
  end.

(** Part of a program, one operation at a time. *)
Inductive solo {A} : prog A -> World -> bytes -> bytes -> prog A -> World -> bytes -> Prop :=
| solo_refl p w inb : solo p w inb [] p w inb
| solo_step o k w inb a w1 inb1 b c p' w' inb' :
    respond o w inb = Some (a, w1, inb1, b) -> solo (k a) w1 inb1 c p' w' inb' ->
    solo (Vis o k) w inb (b ++ c) p' w' inb'.

Lemma solo_trans {A} (p1 p2 p3 : prog A) w1 w2 w3 i1 i2 i3 b c :
  solo p1 w1 i1 b p2 w2 i2 -> solo p2 w2 i2 c p3 w3 i3 -> solo p1 w1 i1 (b ++ c) p3 w3 i3.
Proof.
  induction 1 as [|o k w inb a w1 inb1 b c' p' w' inb' H1 _ IH]; [done|].
  intros Hz. rewrite <-app_assoc. eapply solo_step; [done|]. by apply IH.
Qed.

Lemma solo_bind {A B} (p p' : prog A) (k : A -> prog B) w w' inb inb' out :
  solo p w inb out p' w' inb' -> solo (bind p k) w inb out (bind p' k) w' inb'.
Proof. induction 1; [apply solo_refl|]. simpl. by eapply solo_step. Qed.

Lemma solo_eval {A} (p : prog A) w inb a w' inb' out :
  eval p w inb = Some (Done a, w', inb', out) -> solo p w inb out (Ret a) w' inb'.
Proof.
  revert w inb out. induction p as [a0|h|o k IH]; intros w inb out He; [|done|].
  - injection He as -> -> -> <-. apply solo_refl.
  - simpl in He. destruct (respond o w inb) as [[[[a0 w1] inb1] b]|] eqn:Ho; [|done].
    destruct (eval (k a0) w1 inb1) as [[[[r w2] inb2] c]|] eqn:Hk; [|done].
    injection He as -> -> -> <-. eapply solo_step; [done|]. by apply IH.
Qed.

Lemma solo_defer {A B} (d : prog B) (p p' : prog A) w w' inb inb' out :
  solo p w inb out p' w' inb' -> solo (defer d p) w inb out (defer d p') w' inb'.
Proof. induction 1; [apply solo_refl|]. simpl. by eapply solo_step. Qed.

(** A place inside a larger program, such as the first part of a sequence or the
    body of a function with a deferred call. *)
Definition is_context {A B} (C : prog A -> prog B) : Prop :=
  forall p p' w w' inb inb' out,
    solo p w inb out p' w' inb' -> solo (C p) w inb out (C p') w' inb'.

(** A program run to its end, inside a larger one. *)
Lemma solo_eval_bind {A B} (p : prog A) (k : A -> prog B) w inb a w' inb' out :
  eval p w inb = Some (Done a, w', inb', out) -> solo (bind p k) w inb out (k a) w' inb'.
Proof. intros He%solo_eval. by apply (solo_bind p (Ret a) k) in He. Qed.

Lemma eval_bind {A B} (p : prog A) (k : A -> prog B) w inb :
  eval (bind p k) w inb =
  match eval p w inb with
  | Some (Done a, w1, inb1, b) =>
      match eval (k a) w1 inb1 with
      | Some (r, w2, inb2, c) => Some (r, w2, inb2, b ++ c)
      | None => None
      end
  | Some (Halted h, w1, inb1, b) => Some (Halted h, w1, inb1, b)
  | None => None
  end.
Proof.
  revert w inb. induction p as [a|h|o k0 IH]; intros w inb; simpl; [|done|].
  - by destruct (eval (k a) w inb) as [[[[? ?] ?] ?]|].
  - destruct (respond o w inb) as [[[[a0 w1] inb1] b]|]; [|done]. rewrite IH.
    destruct (eval (k0 a0) w1 inb1) as [[[[[a|h] w2] inb2] c]|]; [|done..].
    destruct (eval (k a) w2 inb2) as [[[[r w3] inb3] d]|]; [|done]. by rewrite app_assoc.
Qed.

Lemma eval_defer {A B} (d : prog B) (p : prog A) w inb a w1 inb1 b :
  eval p w inb = Some (Done a, w1, inb1, b) ->
  eval (defer d p) w inb =
  match eval (bind d (fun _ => Ret a)) w1 inb1 with
  | Some (r, w2, inb2, c) => Some (r, w2, inb2, b ++ c)
  | None => None
  end.
Proof.
  revert w inb b. induction p as [a0|h|o k IH]; intros w inb b He; [|done|].
  - injection He as -> -> -> <-. by destruct (eval _ w1 inb1) as [[[[? ?] ?] ?]|].
  - simpl in He |- *. destruct (respond o w inb) as [[[[a1 w2] inb2] c]|]; [|done].
    destruct (eval (k a1) w2 inb2) as [[[[r w3] inb3] e]|] eqn:Hk; [|done].
    injection He as -> -> -> <-. rewrite (IH _ _ _ _ Hk).
    destruct (eval _ w1 inb1) as [[[[r w4] inb4] e']|]; [|done]. by rewrite app_assoc.
Qed.

(** *** Steps of the system *)

(** Endpoints that have not closed the stream. *)
Abbreviation endpoint p w inb := (mkParty p w inb false).

Lemma pstep_respond {A} o (k : ans o -> prog A) w inb a w' inb' b po :
  respond o w inb = Some (a, w', inb', b) ->
  pstep (endpoint (Vis o k) w inb) po = Some (endpoint (k a) w' inb', b).
Proof.
  unfold pstep, respond. cbn [p_prog p_inbox p_world p_closed].
  destruct o; try (destruct (world_answer _ _) as [[? ?]|]); try done; intros; simplify_eq/=; try done.
  case_decide; by simplify_eq/=.
Qed.

Lemma sys_left_solo {A B} (p p' : prog A) w w' inb inb' out (r : party B) :
  solo p w inb out p' w' inb' ->
  exists n, sys_steps n (mkSystem (endpoint p w inb) r)
                        (mkSystem (endpoint p' w' inb') (deliver r out)).
Proof.
  intros Hs. revert r. induction Hs as [p w inb|o k w inb a w1 inb1 b c p' w' inb' H1 _ IH]; intros r.
  - exists 0%nat. rewrite deliver_nil. apply sys_refl.
  - destruct (IH (deliver r b)) as [n Hn]. exists (S n).
    eapply sys_cons; [apply sys_left; unfold step_left; cbn [left_end right_end];
      by rewrite (pstep_respond _ _ _ _ _ _ _ _ _ H1)|].
    unfold deliver in *. simpl in *. by rewrite app_assoc.
Qed.

Lemma sys_right_solo {A B} (p p' : prog B) w w' inb inb' out (l : party A) :
  solo p w inb out p' w' inb' ->
  exists n, sys_steps n (mkSystem l (endpoint p w inb))
                        (mkSystem (deliver l out) (endpoint p' w' inb')).
Proof.
  intros Hs. revert l. induction Hs as [p w inb|o k w inb a w1 inb1 b c p' w' inb' H1 _ IH]; intros l.
  - exists 0%nat. rewrite deliver_nil. apply sys_refl.
  - destruct (IH (deliver l b)) as [n Hn]. exists (S n).
    eapply sys_cons; [apply sys_right; unfold step_right; cbn [left_end right_end];
      by rewrite (pstep_respond _ _ _ _ _ _ _ _ _ H1)|].
    unfold deliver in *. simpl in *. by rewrite app_assoc.
Qed.

(** *** Reading and running *)

Lemma eval_reader {A} (p : prog (res A)) w b a rest :
  strict_reader p -> feed p b = Some (Ok a, rest) ->
  eval p w b = Some (Done (Ok a), w, rest, []).
Proof.
  revert b. induction p as [r|h|o k IH]; intros b Hp Hf; [|done|].
  - by injection Hf as -> ->.
  - destruct o; try done. destruct Hp as (Hn & Herr & Hk). simpl in Hf |- *.
    unfold read_closed in Hf. case_decide as Hlen.
    + assert (Hl : len (take (Z.to_nat n) b) = n) by (unfold len in *; rewrite length_take; lia).
      by rewrite (IH _ _ (Hk _ Hl) Hf).
    + destruct (Herr (if decide (b = []) then EOF else ErrUnexpectedEOF)) as [e' He].
      by rewrite He in Hf.
Qed.

Lemma eval_codec {M} (cd : Codec M) w m rest :
  cd_valid cd m -> eval (cd_read cd) w (cd_encode cd m ++ rest) = Some (Done (Ok m), w, rest, []).
Proof. intros Hm. apply eval_reader; [apply cd_strict|]. by apply cd_complete. Qed.

(** One iteration of [Run] whose step is interrupted once: it runs up to [p'],
    and later from [p'] to its end. *)
Lemma solo_Run_split {B} fuel s (steps : StepTable) (step : Step)
    (C : prog (Session * option error) -> prog B) w inb p' w' inb' out :
  is_context C -> s_state s <> StateFinished -> s_state s <> StateError ->
  map_get steps (s_state s) = Some step ->
  solo (step s) w inb out p' w' inb' ->
  exists P, solo (C (Run (S fuel) s steps)) w inb out P w' inb' /\
    forall s' next w1 inb1 w2 inb2 out2,
      eval p' w1 inb1 = Some (Done (s', Ok next), w2, inb2, out2) ->
      isAllowed (s_state s') next = true ->
      solo P w1 inb1 out2 (C (Run fuel (set_state s' next) steps)) w2 inb2.
Proof.
  intros HC Hf He Hst Hs. cbn [Run]. unfold RunIter, GetState.
  rewrite !bool_decide_false by done. rewrite Hst. eexists. split.
  - apply HC, solo_bind. by apply solo_bind.
  - intros s' next w1 inb1 w2 inb2 out2 Hev Hal. apply HC.
    apply (solo_eval_bind _
      (fun '(s, r) => match r with Some e => Ret (s, e) | None => Run fuel s steps end)
      w1 inb1 (set_state s' next, None)).
    rewrite eval_bind, Hev. unfold Transition. rewrite Hal. cbn. by rewrite app_nil_r.
Qed.

(** One iteration of [Run] whose step does not wait. *)
Lemma solo_Run {B} fuel s (steps : StepTable) (step : Step)
    (C : prog (Session * option error) -> prog B) w inb s' next w' inb' out :
  is_context C -> s_state s <> StateFinished -> s_state s <> StateError ->
  map_get steps (s_state s) = Some step ->
  eval (step s) w inb = Some (Done (s', Ok next), w', inb', out) ->
  isAllowed (s_state s') next = true ->
  solo (C (Run (S fuel) s steps)) w inb out
       (C (Run fuel (set_state s' next) steps)) w' inb'.
Proof.
  intros HC Hf He Hst Hev Hal.
  destruct (solo_Run_split fuel s steps step C w inb (step s) w inb [] HC Hf He Hst
    (solo_refl _ _ _)) as (P & Hs & HP).
  apply (solo_trans _ _ _ _ _ _ _ _ _ _ _ Hs). by eapply HP.
Qed.

(** [Run] returns in state Finished. *)
Lemma Run_Finished fuel s steps :
  s_state s = StateFinished -> Run (S fuel) s steps = Ret (s, None).
Proof. intros Hs. cbn [Run]. unfold RunIter, GetState. by rewrite Hs. Qed.
