(* ===== verification/EndToEnd.v ===== *)
(** * EndToEnd: [SendFile] and [RecieveFile] connected to each other

    Both endpoints run on their machines, connected by a reliable stream, under
    any schedule.  First what each step does when the other endpoint is the
    other side of the protocol, then a round of four messages, then the whole
    transfer. *)

From S2P Require Import Prelude Effects AesGcm Protocol Utils Merkle Wire Controllers Flow.
From S2P Require Import SenderSpec Network Honest.

(** ** Taking turns *)

(** A run in which the endpoints take turns, each going on as long as it likes
    with the bytes it has, and neither is over before the end. *)
Inductive talks {A B} : system A B -> system A B -> Prop :=
| talks_refl s : talks s s
| talks_left p p' q w w' wq inb inb' inbq out t :
    solo p w inb out p' w' inb' ->
    talks (mkSystem (endpoint p' w' inb') (endpoint q wq (inbq ++ out))) t ->
    talks (mkSystem (endpoint p w inb) (endpoint q wq inbq)) t
| talks_right p q q' w wq wq' inb inbq inbq' out t :
    solo q wq inbq out q' wq' inbq' ->
    talks (mkSystem (endpoint p w (inb ++ out)) (endpoint q' wq' inbq')) t ->
    talks (mkSystem (endpoint p w inb) (endpoint q wq inbq)) t.

Lemma talks_trans {A B} (s1 s2 s3 : system A B) : talks s1 s2 -> talks s2 s3 -> talks s1 s3.
Proof. induction 1; intros; [done|eapply talks_left; eauto|eapply talks_right; eauto]. Qed.

(** Taking turns is one of the schedules. *)
Lemma talks_steps {A B} (s t : system A B) : talks s t -> exists n, sys_steps n s t.
Proof.
  induction 1 as [s|p p' q w w' wq inb inb' inbq out t Hs _ [n IH]
                 |p q q' w wq wq' inb inbq inbq' out t Hs _ [n IH]].
  - exists 0%nat. apply sys_refl.
  - destruct (sys_left_solo _ _ _ _ _ _ _ (endpoint q wq inbq) Hs) as [m Hm].
    exists (m + n)%nat. by eapply sys_steps_trans.
  - destruct (sys_right_solo _ _ _ _ _ _ _ (endpoint p w inb) Hs) as [m Hm].
    exists (m + n)%nat. by eapply sys_steps_trans.
Qed.

(** The same turns, inside larger programs. *)
Definition inside {A B} (C : prog A -> prog B) (x : party A) : party B :=
  mkParty (C (p_prog x)) (p_world x) (p_inbox x) (p_closed x).

Lemma talks_inside {A B A' B'} (C : prog A -> prog A') (C' : prog B -> prog B') (s t : system A B) :
  is_context C -> is_context C' -> talks s t ->
  talks (mkSystem (inside C (left_end s)) (inside C' (right_end s)))
        (mkSystem (inside C (left_end t)) (inside C' (right_end t))).
Proof.
  intros HC HC'. induction 1 as [s|p p' q w w' wq inb inb' inbq out t Hs _ IH
                 |p q q' w wq wq' inb inbq inbq' out t Hs _ IH].
  - apply talks_refl.
  - eapply talks_left; [by apply HC|exact IH].
  - eapply talks_right; [by apply HC'|exact IH].
Qed.

(** Reading exactly one message. *)
Lemma eval_message {M A} (cd : Codec M) (k : res M -> prog A) w m :
  cd_valid cd m -> eval (bind (cd_read cd) k) w (cd_encode cd m) = eval (k (Ok m)) w [].
Proof.
  intros Hm. rewrite eval_bind. rewrite <-(app_nil_r (cd_encode cd m)), eval_codec by done.
  by destruct (eval (k (Ok m)) w []) as [[[[? ?] ?] ?]|].
Qed.

Section honest.
Context `{LegacyKeccak256}.

(** ** Sessions of the two sides *)

Definition snd_at (h : MetaData) (f : handle) (st : TransferState) (i : Z)
    (c : option Chunk) (lv : list bytes) : Session :=
  {| s_state := st; s_Role := RoleSender; s_FileID := md_FileID h; s_FileName := md_Name h;
     s_FileSize := md_FileSize h; s_ChunkSize := ChunkSize; s_CurrentChunk := i;
     s_TotalChunks := md_Reps h; s_File := Some f; s_PendingChunk := c; s_Leaves := lv |}.

Definition rcv_at (h : MetaData) (g : handle) (st : TransferState) (i : Z)
    (c : option Chunk) (lv : list bytes) : Session :=
  {| s_state := st; s_Role := RoleReceiver; s_FileID := md_FileID h; s_FileName := md_Name h;
     s_FileSize := md_FileSize h; s_ChunkSize := ChunkSize; s_CurrentChunk := i;
     s_TotalChunks := md_Reps h; s_File := Some g; s_PendingChunk := c; s_Leaves := lv |}.

(** What the receiver knows of a chunk after its response. *)
Definition received (c : Chunk) : Chunk :=
  {| c_FileID := c_FileID c; c_Index := c_Index c; c_Length := u32 (len (c_Ciphertext c));
     c_Plaintext := []; c_Ciphertext := c_Ciphertext c; c_Key := []; c_Nonce := c_Nonce c;
     c_HResp := c_HResp c; c_Leaf := [] |}.

(** The part of the file that is chunk [i]. *)
Definition chunk_of (content : bytes) (i : Z) : bytes :=
  take (Z.to_nat ChunkSize) (drop (Z.to_nat (ChunkSize * i)) content).

(** The chunks before chunk [i]. *)
Definition chunks_before (content : bytes) (i : Z) : bytes :=
  take (Z.to_nat (ChunkSize * i)) content.

(** The receiver's machine while it writes to [path]: [written] is there. *)
Definition writing (w w0 : World) (g : handle) (path : string) (written : bytes) : Prop :=
  w_handles w !! g = Some (Some (path, length written)) /\
  w_files w = <[path := written]> (w_files w0).

(** ** The steps *)

Lemma eval_BuildAndEncryptChunk fid i pt w inb :
  len pt <= ChunkSize ->
  exists c n, eval (BuildAndEncryptChunk fid i pt) w inb = Some (Done (Ok c), set_rpos w n, inb, [])
    /\ sealed_chunk fid i c /\ c_Plaintext c = pt.
Proof.
  intros Hpt. unfold BuildAndEncryptChunk, GenerateRandomKey. cbn [perform bind].
  cbn [eval respond world_answer].
  set (key := w_rand w <$> seq (w_rpos w) (Z.to_nat KeySize)).
  assert (Hkey : len key = KeySize) by (unfold len, key; by rewrite length_fmap, length_seq).
  destruct (NewCipher_32 key Hkey) as (E & HE & HE16).
  unfold EncryptChunk. cbn [bind c_Key set_Key]. rewrite HE. cbn [NewGCM perform bind].
  cbn [eval respond world_answer].
  set (nonce := w_rand _ <$> seq _ (Z.to_nat NonceSize)).
  assert (Hn : len nonce = NonceSize) by (unfold len, nonce; by rewrite length_fmap, length_seq).
  cbn [bind c_Plaintext set_Nonce set_Key NewChunk].
  rewrite Seal_seal by (done || (unfold ChunkSize, gcmMaxPlaintext in *; lia)).
  cbn [bind eval]. eexists _, _. split; [done|]. split; [|done].
  unfold sealed_chunk. cbn. split_and!; try done. by exists E.
Qed.

Section steps.
Context (h : MetaData).
Hypothesis Hh : header_valid h.

Lemma eval_sender_request f i c lv w :
  is_u32 i ->
  eval (stepSenderWaitChunkRequest (snd_at h f StateWaitingChunkRequest i c lv)) w (chunkRequestBytes i)
  = Some (Done (snd_at h f StateWaitingChunkRequest i c lv, Ok StateSendChunkResponse), w, [], []).
Proof.
  intros Hi. unfold stepSenderWaitChunkRequest.
  rewrite (eval_message request_codec) by done. cbn. by rewrite Z.eqb_refl.
Qed.

Lemma eval_sender_response f i lv w inb path off content :
  is_u32 i -> open_file w f = Some (path, off, content) ->
  exists c n,
    eval (stepSenderSendChunkResponse (snd_at h f StateSendChunkResponse i None lv)) w inb
    = Some (Done (snd_at h f StateSendChunkResponse i (Some c) lv, Ok StateWaitingLotteryTicket),
            set_rpos w n, inb, chunkResponseBytes c) /\
    sealed_chunk (md_FileID h) i c /\ c_Plaintext c = chunk_of content i.
Proof.
  intros [Hi0 Hi1] Hof. unfold stepSenderSendChunkResponse, ReadChunkPlaintext.
  cbn [s_File s_CurrentChunk s_ChunkSize s_FileID snd_at perform bind].
  rewrite i64_small by (unfold ChunkSize; lia).
  cbn [eval respond world_answer]. rewrite Hof, decide_False by (unfold ChunkSize; lia).
  unfold chunk_of. set (pt := take (Z.to_nat ChunkSize) _). cbn [bind].
  assert (Hpt : len pt <= ChunkSize).
  { unfold pt, len. rewrite length_take. unfold ChunkSize. lia. }
  clearbody pt. destruct (eval_BuildAndEncryptChunk (md_FileID h) i _ w inb Hpt) as (c & n & Hev & Hc & Hp).
  exists c, n. split; [|done].
  case_decide; cbn [bind]; rewrite eval_bind, Hev; cbn; by rewrite app_nil_r.
Qed.

Lemma eval_sender_ticket f i c lv w :
  is_u32 i ->
  eval (stepSenderWaitLotteryTicket (snd_at h f StateWaitingLotteryTicket i c lv)) w (lotteryTicketBytes i)
  = Some (Done (snd_at h f StateWaitingLotteryTicket i c lv, Ok StateSendKeyReveal), w, [], []).
Proof.
  intros Hi. unfold stepSenderWaitLotteryTicket.
  rewrite (eval_message ticket_codec) by done. cbn. by rewrite Z.eqb_refl.
Qed.

(** The number of the next chunk, and the state after the last one. *)
Definition next_chunk (i : Z) : Z := if decide (i = md_Reps h - 1) then i else i + 1.
Definition after_chunk (i : Z) (st : TransferState) : TransferState :=
  if decide (i = md_Reps h - 1) then StateVerifyMerkle else st.

Lemma IsLastChunk_at s i :
  s_TotalChunks s = md_Reps h -> s_CurrentChunk s = i -> 0 <= i < md_Reps h ->
  IsLastChunk s = bool_decide (i = md_Reps h - 1).
Proof using Hh.
  intros Ht <- Hi. by apply (counters_at s (md_Reps h) Ht (proj1 Hh)).
Qed.

Lemma eval_sender_key f i c lv w inb :
  0 <= i < md_Reps h ->
  eval (stepSenderSendKeyReveal (snd_at h f StateSendKeyReveal i (Some c) lv)) w inb
  = Some (Done (snd_at h f StateSendKeyReveal (next_chunk i) None (lv ++ [GenerateLeaf c]),
                Ok (after_chunk i StateWaitingChunkRequest)),
          w, inb, keyRevealBytes i (c_Key c)).
Proof using Hh.
  intros Hi. unfold stepSenderSendKeyReveal. cbn -[IsLastChunk AdvanceChunk].
  rewrite (IsLastChunk_at _ i) by done. unfold next_chunk, after_chunk.
  case_bool_decide.
  - rewrite !decide_True by done. cbn. by rewrite app_nil_r.
  - rewrite !decide_False by done. cbn. rewrite app_nil_r. destruct Hh as ([? ?] & _).
    unfold AdvanceChunk, snd_at. cbn. by rewrite u32_small by (unfold is_u32; lia).
Qed.

Lemma eval_receiver_request g i c lv w inb :
  eval (stepReceiverSendChunkRequest (rcv_at h g StateSendChunkRequest i c lv)) w inb
  = Some (Done (rcv_at h g StateSendChunkRequest i c lv, Ok StateWaitingChunkResponse),
          w, inb, chunkRequestBytes i).
Proof. cbn. by rewrite app_nil_r. Qed.

Lemma eval_receiver_ticket g i c lv w inb :
  eval (stepReceiverSendLotteryTicket (rcv_at h g StateSendLotteryTicket i c lv)) w inb
  = Some (Done (rcv_at h g StateSendLotteryTicket i c lv, Ok StateWaitingKeyReveal),
          w, inb, lotteryTicketBytes i).
Proof. cbn. by rewrite app_nil_r. Qed.

(** The response and the key of a sealed chunk arrive. *)
Lemma received_valid `{!LegacyKeccak256Spec} fid i c :
  sealed_chunk fid i c -> is_u32 i -> response_valid fid (received c).
Proof.
  intros (Hf & Hi & Hk & Hn & Hp & HR & E & HE & HC) Hu. unfold response_valid, received. cbn.
  assert (Hlen : len (c_Ciphertext c) = len (c_Plaintext c) + 16).
  { rewrite HC. by eapply len_seal, NewCipher_block16. }
  pose proof (len_nonneg (c_Plaintext c)). unfold ChunkSize in Hp.
  split_and!; try done; [by rewrite Hi|lia|rewrite u32_small; [done|unfold is_u32; lia]|].
  rewrite HR. apply Keccak_size.
Qed.

Lemma eval_receiver_response `{!LegacyKeccak256Spec} g i c lv w :
  sealed_chunk (md_FileID h) i c -> is_u32 i ->
  eval (stepReceiverWaitChunkResponse (rcv_at h g StateWaitingChunkResponse i None lv)) w
    (chunkResponseBytes c)
  = Some (Done (rcv_at h g StateWaitingChunkResponse i (Some (received c)) lv,
                Ok StateSendLotteryTicket), w, [], []).
Proof.
  intros Hc Hi. unfold stepReceiverWaitChunkResponse.
  pose proof Hc as (_ & Hci & _). pose proof (received_valid _ _ _ Hc Hi) as Hv.
  change (chunkResponseBytes c) with (cd_encode (response_codec (md_FileID h)) (received c)).
  change (ReadChunkResponse _) with (cd_read (response_codec (md_FileID h))).
  rewrite (eval_message (response_codec (md_FileID h))) by done.
  cbn. rewrite Hci, Z.eqb_refl. done.
Qed.

Lemma eval_receiver_key fid g i c c' lv w :
  sealed_chunk fid i c -> is_u32 i ->
  eval (stepReceiverWaitKeyReveal (rcv_at h g StateWaitingKeyReveal i (Some c') lv)) w
    (keyRevealBytes i (c_Key c))
  = Some (Done (rcv_at h g StateWaitingKeyReveal i (Some (set_Key c' (c_Key c))) lv,
                Ok StateVerifyChunk), w, [], []).
Proof.
  intros (_ & _ & Hk & _) Hi. unfold stepReceiverWaitKeyReveal.
  change (keyRevealBytes i (c_Key c)) with (cd_encode key_codec (i, c_Key c)).
  change ReadKeyReveal with (cd_read key_codec).
  rewrite (eval_message key_codec) by done. cbn. by rewrite Z.eqb_refl.
Qed.

(** Appending to the file. *)
Lemma respond_append w w0 g path written b inb :
  writing w w0 g path written ->
  exists w', respond (OFileWrite g b) w inb = Some (None, w', inb, []) /\
    writing w' w0 g path (written ++ b).
Proof.
  intros [Hg Hf]. cbn [respond world_answer].
  assert (Ho : open_file w g = Some (path, length written, written)).
  { unfold open_file. rewrite Hg. cbn. by rewrite Hf, lookup_insert_eq. }
  rewrite Ho. eexists. split; [done|]. split.
  - cbn. rewrite list_lookup_insert_eq by (by eapply lookup_lt_Some). by rewrite length_app.
  - cbn. rewrite Hf, insert_insert_eq. f_equal.
    by rewrite take_ge, drop_ge, app_nil_r by lia.
Qed.

Lemma eval_receiver_verify `{!LegacyKeccak256Spec} g i c lv w w0 inb path written :
  0 <= i < md_Reps h -> sealed_chunk (md_FileID h) i c -> writing w w0 g path written ->
  exists w',
    eval (stepReceiverVerifyChunk
      (rcv_at h g StateVerifyChunk i (Some (set_Key (received c) (c_Key c))) lv)) w inb
    = Some (Done (rcv_at h g StateVerifyChunk (next_chunk i) None (lv ++ [GenerateLeaf c]),
                  Ok (after_chunk i StateSendChunkRequest)), w', inb, []) /\
    writing w' w0 g path (written ++ c_Plaintext c).
Proof using Hh.
  intros Hi (Hf & Hci & Hk & Hn & Hp & HR & E & HE & HC) Hw.
  destruct (respond_append w w0 g path written (c_Plaintext c) inb Hw) as (w' & Hr & Hw').
  exists w'. split; [|done]. unfold stepReceiverVerifyChunk. cbn [s_PendingChunk rcv_at].
  rewrite (DecryptAndCheck_sealed _ E (c_Plaintext c));
    [|done|done|unfold ChunkSize, gcmMaxPlaintext in *; lia|done|done].
  cbn [bind]. cbn [s_File set_Leaves set_PendingChunk rcv_at fileWrite perform bind].
  cbn [eval]. rewrite Hr. rewrite (IsLastChunk_at _ i) by done.
  unfold next_chunk, after_chunk. case_bool_decide.
  - by rewrite !decide_True by done.
  - rewrite !decide_False by done. destruct Hh as ([? ?] & _).
    unfold AdvanceChunk, rcv_at. cbn. by rewrite u32_small by (unfold is_u32; lia).
Qed.

End steps.

(** ** A round *)

Section system.
Context `{Hspec : !LegacyKeccak256Spec} (h : MetaData) (f g : handle).
Context (CS CR : prog (Session * option error) -> prog (option error)).
Hypothesis HCS : is_context CS.
Hypothesis HCR : is_context CR.
Hypothesis Hh : header_valid h.

Definition both (fs : nat) (sS : Session) (wS : World) (iS : bytes)
    (fr : nat) (sR : Session) (wR : World) (iR : bytes) : system (option error) (option error) :=
  mkSystem (endpoint (CS (Run fs sS senderSteps)) wS iS)
           (endpoint (CR (Run fr sR receiverSteps)) wR iR).

(** One iteration of the sender, respectively of the receiver. *)
Lemma talks_sender step fs s wS iS s' next wS' iS' out fr sR wR iR t :
  s_state s <> StateFinished -> s_state s <> StateError ->
  map_get senderSteps (s_state s) = Some step ->
  eval (step s) wS iS = Some (Done (s', Ok next), wS', iS', out) ->
  isAllowed (s_state s') next = true ->
  talks (both fs (set_state s' next) wS' iS' fr sR wR (iR ++ out)) t ->
  talks (both (S fs) s wS iS fr sR wR iR) t.
Proof using HCS. intros ? ? ? ? ? Ht. eapply talks_left; [by eapply solo_Run|exact Ht]. Qed.

Lemma talks_receiver step fs sS wS iS fr s wR iR s' next wR' iR' out t :
  s_state s <> StateFinished -> s_state s <> StateError ->
  map_get receiverSteps (s_state s) = Some step ->
  eval (step s) wR iR = Some (Done (s', Ok next), wR', iR', out) ->
  isAllowed (s_state s') next = true ->
  talks (both fs sS wS (iS ++ out) fr (set_state s' next) wR' iR') t ->
  talks (both fs sS wS iS (S fr) s wR iR) t.
Proof using HCR. intros ? ? ? ? ? Ht. eapply talks_right; [by eapply solo_Run|exact Ht]. Qed.

Lemma transfer_round fs fr i lv wS path off content wR w0 rpath written :
  0 <= i < md_Reps h -> open_file wS f = Some (path, off, content) ->
  writing wR w0 g rpath written ->
  exists c n wR', writing wR' w0 g rpath (written ++ chunk_of content i) /\
    sealed_chunk (md_FileID h) i c /\
    talks
      (both (4 + fs) (snd_at h f StateWaitingChunkRequest i None lv) wS []
            (5 + fr) (rcv_at h g StateSendChunkRequest i None lv) wR [])
      (both fs (snd_at h f (after_chunk h i StateWaitingChunkRequest) (next_chunk h i) None
                  (lv ++ [GenerateLeaf c])) (set_rpos wS n) []
            fr (rcv_at h g (after_chunk h i StateSendChunkRequest) (next_chunk h i) None
                  (lv ++ [GenerateLeaf c])) wR' []).
Proof using All.
  intros Hi Hof Hw. destruct Hh as ([? ?] & _).
  assert (Hu : is_u32 i) by (unfold is_u32; lia).
  destruct (eval_sender_response h f i lv wS [] path off content Hu Hof) as (c & n & Hev & Hc & Hpt).
  destruct (eval_receiver_verify h Hh g i c lv wR w0 [] rpath written Hi Hc Hw) as (wR' & Hev' & Hw').
  rewrite Hpt in Hw'. exists c, n, wR'. split_and!; [done|done|].
  change (4 + fs)%nat with (S (S (S (S fs)))). change (5 + fr)%nat with (S (S (S (S (S fr))))).
  eapply talks_receiver; [done|done|done|apply eval_receiver_request|done|cbn [app]].
  eapply talks_sender; [done|done|done|by apply eval_sender_request|done|cbn [app]].
  eapply talks_sender; [done|done|done|exact Hev|done|cbn [app]].
  eapply talks_receiver; [done|done|done|by apply eval_receiver_response|done|cbn [app]].
  eapply talks_receiver; [done|done|done|apply eval_receiver_ticket|done|cbn [app]].
  eapply talks_sender; [done|done|done|by apply eval_sender_ticket|done|cbn [app]].
  eapply talks_sender; [done|done|done|by apply (eval_sender_key h Hh)| |cbn [app]].
  { cbn. unfold after_chunk. by case_decide. }
  eapply talks_receiver; [done|done|done|by eapply eval_receiver_key|done|cbn [app]].
  eapply talks_receiver; [done|done|done|exact Hev'| |cbn [app]].
  { cbn. unfold after_chunk. by case_decide. }
  apply talks_refl.
Qed.

Lemma chunks_before_next content i :
  0 <= i -> chunks_before content i ++ chunk_of content i = chunks_before content (i + 1).
Proof.
  intros Hi. unfold chunks_before, chunk_of. rewrite take_take_drop. f_equal.
  rewrite <-Z2Nat.inj_add by (unfold ChunkSize; lia). f_equal. lia.
Qed.

(** The leaves both sides have collected. *)
Definition leaves_ok (lv : list bytes) : Prop := Forall (fun b => len b = 32) lv.

(** One of the rounds that are left. *)
Lemma transfer_next k i fs fr lv wS path off content wR w0 rpath :
  0 <= i < md_Reps h -> open_file wS f = Some (path, off, content) ->
  writing wR w0 g rpath (chunks_before content i) -> leaves_ok lv ->
  exists n wR' lv', writing wR' w0 g rpath (chunks_before content (i + 1)) /\
    leaves_ok lv' /\ lv' <> [] /\
    talks
      (both (4 * S k + fs) (snd_at h f StateWaitingChunkRequest i None lv) wS []
            (5 * S k + fr) (rcv_at h g StateSendChunkRequest i None lv) wR [])
      (both (4 * k + fs) (snd_at h f (after_chunk h i StateWaitingChunkRequest) (next_chunk h i)
                            None lv') (set_rpos wS n) []
            (5 * k + fr) (rcv_at h g (after_chunk h i StateSendChunkRequest) (next_chunk h i)
                            None lv') wR' []).
Proof using All.
  intros Hi Hof Hw Hlv.
  replace (4 * S k + fs)%nat with (4 + (4 * k + fs))%nat by lia.
  replace (5 * S k + fr)%nat with (5 + (5 * k + fr))%nat by lia.
  destruct (transfer_round (4 * k + fs) (5 * k + fr) i lv wS path off content wR w0 rpath
    (chunks_before content i)) as (c & n & wR' & Hw' & Hc & Hr); [done|done|done|].
  rewrite chunks_before_next in Hw' by lia.
  exists n, wR', (lv ++ [GenerateLeaf c]). split_and!; [done| |by destruct lv|done].
  apply Forall_app. split; [done|]. apply Forall_singleton, Keccak_size.
Qed.

(** All rounds from chunk [i] on. *)
Lemma transfer_rounds k : forall i fs fr lv wS path off content wR w0 rpath,
  md_Reps h - i = Z.of_nat (S k) -> 0 <= i ->
  open_file wS f = Some (path, off, content) ->
  writing wR w0 g rpath (chunks_before content i) -> leaves_ok lv ->
  exists n wR' i' lv', writing wR' w0 g rpath (chunks_before content (md_Reps h)) /\
    leaves_ok lv' /\ lv' <> [] /\
    talks
      (both (4 * S k + fs) (snd_at h f StateWaitingChunkRequest i None lv) wS []
            (5 * S k + fr) (rcv_at h g StateSendChunkRequest i None lv) wR [])
      (both fs (snd_at h f StateVerifyMerkle i' None lv') (set_rpos wS n) []
            fr (rcv_at h g StateVerifyMerkle i' None lv') wR' []).
Proof using All.
  induction k as [|k IH]; intros i fs fr lv wS path off content wR w0 rpath Hk Hi Hof Hw Hlv.
  - destruct (transfer_next 0 i fs fr lv wS path off content wR w0 rpath)
      as (n & wR' & lv' & Hw' & Hl' & Hne & Hr); [lia|done|done|done|].
    unfold after_chunk, next_chunk in Hr. rewrite !decide_True in Hr by lia.
    replace (i + 1) with (md_Reps h) in Hw' by lia. by exists n, wR', i, lv'.
  - destruct (transfer_next (S k) i fs fr lv wS path off content wR w0 rpath)
      as (n & wR' & lv' & Hw' & Hl' & Hne & Hr); [lia|done|done|done|].
    unfold after_chunk, next_chunk in Hr. rewrite !decide_False in Hr by lia.
    destruct (IH (i + 1) fs fr lv' (set_rpos wS n) path off content wR' w0 rpath)
      as (n2 & wR2 & i2 & lv2 & Hw2 & Hl2 & Hne2 & Hr2); [lia|lia|done|done|done|].
    exists n2, wR2, i2, lv2. split_and!; [done|done|done|].
    eapply talks_trans; [exact Hr|exact Hr2].
Qed.

(** The Merkle root, the comparison and the final ack. *)
Lemma transfer_finish fs fr i lv wS wR w0 rpath written :
  leaves_ok lv -> lv <> [] -> writing wR w0 g rpath written ->
  exists wR', w_files wR' = <[rpath := written]> (w_files w0) /\
    talks
      (both (2 + fs) (snd_at h f StateVerifyMerkle i None lv) wS []
            (2 + fr) (rcv_at h g StateVerifyMerkle i None lv) wR [])
      (mkSystem (endpoint (CS (Ret (snd_at h f StateFinished i None lv, None))) wS [])
                (endpoint (CR (Ret (rcv_at h g StateFinished i None lv, None))) wR' [])).
Proof using All.
  intros Hlv Hne [Hg Hfiles]. destruct (merkle_root_is_Some lv) as [root Hroot].
  assert (Hsz : len root = HashSize) by by (by eapply merkle_root_size).
  unfold merkle_root in Hroot.
  exists (set_handles wR (<[g := None]> (w_handles wR))). split; [done|].
  destruct (solo_Run_split (S fs) (snd_at h f StateVerifyMerkle i None lv) senderSteps
    stepSenderVerifyMerkle CS wS [] (let! y := ReadFinalAck in match y with
       | None => Ret (snd_at h f StateVerifyMerkle i None lv, Ok StateFinished)
       | Some err => Ret (snd_at h f StateVerifyMerkle i None lv, Err (wrap "waiting for final ack: %w" err))
       end) wS [] (rootBytes root)) as (P & HP1 & HP2); [done|done|done|done| | ].
  { unfold stepSenderVerifyMerkle. cbn [s_Leaves snd_at]. rewrite Hroot. cbn [SendRoot perform bind].
    rewrite <-(app_nil_r (rootBytes root)) at 2. eapply solo_step; [done|apply solo_refl]. }
  eapply talks_left; [exact HP1|cbn [app]].
  assert (Hev : eval (stepReceiverVerifyMerkle (rcv_at h g StateVerifyMerkle i None lv)) wR (rootBytes root)
     = Some (Done (rcv_at h g StateVerifyMerkle i None lv, Ok StateFinished),
             set_handles wR (<[g := None]> (w_handles wR)), [], finalAckBytes)).
  { unfold stepReceiverVerifyMerkle.
    rewrite (eval_defer _ _ _ _ (rcv_at h g StateVerifyMerkle i None lv, Ok StateFinished)
      wR [] finalAckBytes); [cbn; by rewrite Hg|].
    unfold verifyMerkleBody. change ReadRoot with (cd_read root_codec).
    rewrite (eval_message root_codec) by done.
    cbn [s_Leaves rcv_at]. by rewrite Hroot, bool_decide_true by done. }
  eapply talks_right; [by eapply (solo_Run (S fr)); [..|exact Hev|]|cbn [app]].
  eapply talks_left; [apply (HP2 (snd_at h f StateVerifyMerkle i None lv) StateFinished wS finalAckBytes wS [] []);
    [by vm_compute|done]|].
  cbn [set_state]. rewrite !Run_Finished by done. apply talks_refl.
Qed.

End system.

(** ** The whole transfer *)

(** Where the state machine runs in [SendFile] and in [RecieveFile]. *)
Definition send_in (f : handle) (p : prog (Session * option error)) : prog (option error) :=
  defer (perform (OFileClose f)) (let! (s, err) := p in Ret err).

Definition recv_in (p : prog (Session * option error)) : prog (option error) :=
  let! (s, err) := p in Ret err.

Lemma send_in_context f : is_context (send_in f).
Proof. intros p p' w w' inb inb' out Hs. by apply solo_defer, solo_bind. Qed.

Lemma recv_in_context : is_context recv_in.
Proof. intros p p' w w' inb inb' out Hs. by apply solo_bind. Qed.

(** The header of a file, and the machine that has it open. *)
Definition header_of (path : string) (content : bytes) (w : World) : MetaData :=
  let info := {| fi_Name := basename path; fi_Size := len content |} in
  file_metadata info (file_id info (w_clock w)).

Definition opened (w : World) (path : string) : World :=
  set_handles w (w_handles w ++ [Some (path, 0%nat)]).

Lemma open_file_opened w path content :
  w_files w !! path = Some content ->
  open_file (opened w path) (length (w_handles w)) = Some (path, 0%nat, content).
Proof.
  intros Hp. unfold open_file, opened. cbn. rewrite lookup_app_r, Nat.sub_diag by lia. cbn.
  by rewrite Hp.
Qed.

Lemma SendFile_start fuel path content w :
  w_files w !! path = Some content ->
  solo (SendFile fuel path) w [] []
    (send_in (length (w_handles w))
       (Run fuel (snd_at (header_of path content w) (length (w_handles w)) StateIdle 0 None [])
          senderSteps)) (opened w path) [].
Proof.
  intros Hp. pose proof (open_file_opened w path content Hp) as Hof.
  unfold SendFile. cbn [perform bind].
  apply (solo_step (OOpenFile path) _ _ _ (Ok (length (w_handles w))) (opened w path) [] []).
  { cbn. by rewrite Hp. }
  unfold generateFileID. cbn [perform bind defer].
  eapply (solo_step (OStat _) _ _ _ (Ok _) (opened w path) [] []); [cbn; by rewrite Hof|].
  eapply (solo_step ONow _ _ _ _ (opened w path) [] []); [done|].
  unfold PrepareMetadata. cbn [perform bind defer].
  eapply (solo_step (OStat _) _ _ _ (Ok _) (opened w path) [] []); [cbn; by rewrite Hof|].
  apply solo_refl.
Qed.

(** The number of chunks of a file that is not too large. *)
Lemma Reps_of (content : bytes) fid name :
  len content <= (2 ^ 32 - 1) * ChunkSize ->
  md_Reps (file_metadata {| fi_Name := name; fi_Size := len content |} fid)
  = (len content + ChunkSize - 1) / ChunkSize.
Proof.
  intros Hc. pose proof (len_nonneg content). cbn [md_Reps file_metadata fi_Size].
  unfold ChunkSize in *. rewrite !i64_small by (rewrite ?i64_small; lia).
  rewrite Z.quot_div_nonneg by lia. apply u32_small. unfold is_u32.
  Z.div_mod_to_equations. lia.
Qed.

Lemma header_of_valid `{!LegacyKeccak256Spec} path content w :
  len (bytes_of_string (basename path)) < 2 ^ 32 -> header_valid (header_of path content w).
Proof.
  intros Hn. unfold header_valid, header_of. cbn [md_Reps md_FileSize md_FileID md_Name file_metadata
    fi_Name fi_Size]. split_and!; [apply u32_range|apply u32_range|apply Keccak_size|done].
Qed.

Lemma eval_sender_header h f w inb :
  header_valid h ->
  eval (stepSenderSendHeader (snd_at h f StateSendHeader 0 None [])) w inb
  = Some (Done (snd_at h f StateSendHeader 0 None [],
                Ok (if decide (md_Reps h = 0) then StateFinished else StateWaitingChunkRequest)),
          w, inb, headerBytes h).
Proof.
  intros (_ & Hs & _). unfold stepSenderSendHeader.
  cbn [s_FileName s_FileSize s_TotalChunks s_FileID snd_at]. rewrite u32_small by done.
  destruct h as [name size reps fid]. cbn -[Z.eqb].
  case_decide as Hd; [rewrite (proj2 (Z.eqb_eq _ _) Hd)|rewrite (proj2 (Z.eqb_neq _ _) Hd)];
    cbn; by rewrite app_nil_r.
Qed.

(** The receiver creates the file the header names. *)
Lemma eval_receiver_header h w :
  header_valid h -> let g := length (w_handles w) in
  let rpath := ("./received/" +:+ md_Name h)%string in
  exists w', eval (stepReceiverReceiveHeader (set_state (NewSession RoleReceiver) StateReceiveHeader))
      w (headerBytes h)
    = Some (Done (rcv_at h g StateReceiveHeader 0 None [],
                  Ok (if decide (md_Reps h = 0) then StateFinished else StateSendChunkRequest)),
            w', [], []) /\
    w_files w' = <[rpath := []]> (w_files w) /\
    (md_Reps h <> 0 -> writing w' w g rpath []).
Proof.
  intros Hh g rpath. unfold stepReceiverReceiveHeader.
  change (headerBytes h) with (cd_encode header_codec h).
  change ReadHeader with (cd_read header_codec). rewrite (eval_message header_codec) by done.
  cbn [set_header set_state NewSession perform bind eval respond world_answer
    s_TotalChunks set_File set_handles set_files w_files w_handles]. fold g rpath.
  assert (Hg : (w_handles w ++ [Some (rpath, 0%nat)]) !! g = Some (Some (rpath, 0%nat))).
  { unfold g. by rewrite lookup_app_r, Nat.sub_diag by lia. }
  case_decide as Hd.
  - rewrite (proj2 (Z.eqb_eq _ _) Hd). cbn [perform bind eval respond world_answer w_handles set_handles set_files].
    rewrite Hg. cbn [eval app]. eexists. by split_and!.
  - rewrite (proj2 (Z.eqb_neq _ _) Hd). cbn [eval app]. eexists. by split_and!.
Qed.

(** The system at the start: the sender's and the receiver's machine, nothing on
    the stream. *)
Definition transfer_start (fuelS fuelR : nat) (path : string) (wS wR : World)
    : system (option error) (option error) :=
  mkSystem (mkParty (SendFile fuelS path) wS [] false) (mkParty (RecieveFile fuelR) wR [] false).

(** Both sides have returned [nil], and the file has arrived. *)
Definition transferred (path : string) (content : bytes) (wS wR : World)
    (t : system (option error) (option error)) : Prop :=
  p_prog (left_end t) = Ret None /\ p_prog (right_end t) = Ret None /\
  w_files (p_world (left_end t)) = w_files wS /\
  w_files (p_world (right_end t)) = <["./received/" +:+ basename path := content]> (w_files wR).

(** From the start to the exchange of chunks. *)
Lemma transfer_header `{!LegacyKeccak256Spec} fs fr path content wS wR :
  w_files wS !! path = Some content -> len (bytes_of_string (basename path)) < 2 ^ 32 ->
  let h := header_of path content wS in
  let f := length (w_handles wS) in let g := length (w_handles wR) in
  exists w', w_files w' = <["./received/" +:+ basename path := []]> (w_files wR) /\
    (md_Reps h <> 0 -> writing w' wR g ("./received/" +:+ basename path) []) /\
    talks (transfer_start (2 + fs) (2 + fr) path wS wR)
      (both (send_in f) recv_in
        fs (snd_at h f (if decide (md_Reps h = 0) then StateFinished else StateWaitingChunkRequest)
             0 None []) (opened wS path) []
        fr (rcv_at h g (if decide (md_Reps h = 0) then StateFinished else StateSendChunkRequest)
             0 None []) w' []).
Proof.
  intros Hp Hn h f g.
  assert (Hh : header_valid h) by (by apply header_of_valid).
  destruct (eval_receiver_header h wR Hh) as (w' & Hev & Hf' & Hw').
  exists w'. split_and!; [done|done|].
  change (2 + fs)%nat with (S (S fs)). change (2 + fr)%nat with (S (S fr)).
  eapply talks_left; [by apply SendFile_start|cbn [app]]. fold h f.
  change (RecieveFile (S (S fr))) with
    (recv_in (Run (S (S fr)) (NewSession RoleReceiver) receiverSteps)).
  eapply (talks_sender (send_in f) recv_in (send_in_context f)); [done|done|done|done|done|cbn [app]].
  eapply (talks_sender (send_in f) recv_in (send_in_context f));
    [done|done|done|by apply eval_sender_header|by case_decide|cbn [app]].
  eapply (talks_receiver (send_in f) recv_in recv_in_context); [done|done|done|done|done|cbn [app]].
  eapply (talks_receiver (send_in f) recv_in recv_in_context);
    [done|done|done|exact Hev|by case_decide|cbn [app]].
  apply talks_refl.
Qed.

(** From the end of the state machines to the end. *)
Lemma transfer_end f sS sR w wR :
  is_Some (mjoin (w_handles w !! f)) ->
  exists w', w_files w' = w_files w /\
    talks (mkSystem (endpoint (send_in f (Ret (sS, None))) w []) (endpoint (recv_in (Ret (sR, None))) wR []))
            (mkSystem (endpoint (Ret None) w' []) (endpoint (Ret None) wR [])).
Proof.
  intros [x Hx]. exists (set_handles w (<[f := None]> (w_handles w))). split; [done|].
  eapply talks_left; [|cbn [app]; apply talks_refl].
  cbn [send_in perform bind defer]. eapply (solo_step (OFileClose f) _ _ _ None _ [] []); [|apply solo_refl].
  cbn. by destruct (w_handles w !! f) as [[|]|].
Qed.

(** The two ways through a transfer. *)
Section ways.
Context `{Hspec : !LegacyKeccak256Spec} (fuelS fuelR : nat) (path : string) (content : bytes).
Context (wS wR : World).
Hypothesis HfS : enough_fuel fuelS.
Hypothesis HfR : enough_fuel fuelR.
Hypothesis Hfile : w_files wS !! path = Some content.
Hypothesis Hsize : len content <= (2 ^ 32 - 1) * ChunkSize.
Hypothesis Hname : len (bytes_of_string (basename path)) < 2 ^ 32.

Abbreviation h := (header_of path content wS).
Abbreviation f := (length (w_handles wS)).

Definition transfer_ends : Prop :=
  exists wS' wR',
    talks (transfer_start fuelS fuelR path wS wR)
      (mkSystem (endpoint (Ret None) wS' []) (endpoint (Ret None) wR' [])) /\
    w_files wS' = w_files wS /\
    w_files wR' = <["./received/" +:+ basename path := content]> (w_files wR).

Lemma header_reps :
  md_Reps h = (len content + ChunkSize - 1) / ChunkSize /\ is_u32 (md_Reps h).
Proof using Hsize. split; [by apply Reps_of|apply u32_range]. Qed.

Lemma opened_handle : is_Some (mjoin (w_handles (opened wS path) !! f)).
Proof using Hfile.
  pose proof (open_file_opened wS path content Hfile) as Hof. unfold open_file in Hof.
  by destruct (mjoin _).
Qed.

(** An empty file. *)
Lemma transfer_empty : md_Reps h = 0 -> transfer_ends.
Proof using All.
  intros Hz. unfold enough_fuel in *.
  destruct (transfer_header (fuelS - 2) (fuelR - 2) path content wS wR Hfile Hname) as (w' & Hw' & _ & Hr).
  rewrite !decide_True in Hr by done.
  replace (2 + (fuelS - 2))%nat with fuelS in Hr by lia.
  replace (2 + (fuelR - 2))%nat with fuelR in Hr by lia.
  destruct (transfer_end f (snd_at h f StateFinished 0 None [])
    (rcv_at h (length (w_handles wR)) StateFinished 0 None []) _ w' opened_handle) as (w2 & Hw2 & Hr2).
  exists w2, w'. split; [eapply talks_trans; [exact Hr|]|].
  { replace (fuelS - 2)%nat with (S (fuelS - 3)) by lia.
    replace (fuelR - 2)%nat with (S (fuelR - 3)) by lia.
    unfold both. rewrite !Run_Finished by done. exact Hr2. }
  split; [done|]. rewrite Hw'. f_equal. symmetry. destruct header_reps as [Hreps _].
  rewrite Hz in Hreps. unfold ChunkSize, len in *. destruct content; [done|]. simpl in Hreps.
  Z.div_mod_to_equations. lia.
Qed.

(** At least one chunk. *)
Lemma transfer_nonempty : md_Reps h <> 0 -> transfer_ends.
Proof using All.
  intros Hz. unfold enough_fuel in *. destruct header_reps as [Hreps [Hr0 Hr1]].
  assert (Hh : header_valid h) by (by apply header_of_valid).
  set (k := Z.to_nat (md_Reps h - 1)).
  set (fs := (fuelS - (2 + 4 * S k + 2))%nat). set (fr := (fuelR - (2 + 5 * S k + 2))%nat).
  destruct (transfer_header (4 * S k + (2 + fs)) (5 * S k + (2 + fr)) path content wS wR Hfile Hname)
    as (w' & Hw' & Hwr & Hr).
  rewrite !decide_False in Hr by done.
  replace (2 + (4 * S k + (2 + fs)))%nat with fuelS in Hr by lia.
  replace (2 + (5 * S k + (2 + fr)))%nat with fuelR in Hr by lia.
  destruct (transfer_rounds h f (length (w_handles wR)) (send_in f) recv_in
    (send_in_context f) recv_in_context Hh k 0 (2 + fs) (2 + fr)
    [] (opened wS path) path 0 content w' wR ("./received/" +:+ basename path))
    as (n & w2 & i & lv & Hw2 & Hlv & Hne & Hr2);
    [lia|lia|by apply open_file_opened|by apply Hwr|constructor|].
  destruct (transfer_finish h f (length (w_handles wR)) (send_in f) recv_in
    (send_in_context f) recv_in_context Hh fs fr i lv
    (set_rpos (opened wS path) n) w2 wR _ _ Hlv Hne Hw2) as (w3 & Hw3 & Hr3).
  destruct (transfer_end f (snd_at h f StateFinished i None lv)
    (rcv_at h (length (w_handles wR)) StateFinished i None lv)
    (set_rpos (opened wS path) n) w3 opened_handle) as (w4 & Hw4 & Hr4).
  exists w4, w3. split; [eapply talks_trans; [exact Hr|eapply talks_trans; [exact Hr2|
    eapply talks_trans; [exact Hr3|exact Hr4]]]|].
  split; [done|]. rewrite Hw3. f_equal. unfold chunks_before. apply take_ge.
  clear -Hreps Hsize. unfold ChunkSize, len in *. Z.div_mod_to_equations. lia.
Qed.

Lemma transfer_talks : transfer_ends.
Proof using All. destruct (decide (md_Reps h = 0)); [by apply transfer_empty|by apply transfer_nonempty]. Qed.

End ways.

(** C2: a transfer works.  When the sender serves a file of at most
    (2^32-1) * 32768 bytes and the two endpoints are connected by a reliable
    stream, every run of the two processes, under every schedule, has at most
    [n] steps, can be continued to the same final system, and there both
    [SendFile] and [RecieveFile] have returned [nil], the file under
    ./received/ on the receiver's machine has exactly the contents of the
    sender's file, and no other file of either machine has changed. *)
Theorem transfer_correct `{!LegacyKeccak256Spec} fuelS fuelR path content wS wR :
  enough_fuel fuelS -> enough_fuel fuelR -> w_files wS !! path = Some content ->
  len content <= (2 ^ 32 - 1) * ChunkSize -> len (bytes_of_string (basename path)) < 2 ^ 32 ->
  exists n t, transferred path content wS wR t /\ terminal t /\
    forall m s, sys_steps m (transfer_start fuelS fuelR path wS wR) s ->
      (m <= n)%nat /\ sys_steps (n - m) s t.
Proof.
  intros HfS HfR Hp Hc Hn.
  destruct (transfer_talks fuelS fuelR path content wS wR HfS HfR Hp Hc Hn)
    as (wS' & wR' & [n Hr]%talks_steps & HS & HR).
  set (t := mkSystem _ _) in Hr. assert (Ht : transferred path content wS wR t) by done.
  assert (Hterm : terminal t).
  { destruct Ht as (Hl & Hrt & _). unfold terminal, step_left, step_right, pstep.
    by rewrite Hl, Hrt. }
  exists n, t. split_and!; [done|done|]. by apply (schedule_irrelevant n).
Qed.

End honest.
