(* ===== verification/ChunkSpec.v ===== *)
(** * ChunkSpec: chunks, commitments and metadata

    What [DecryptAndCheck] accepts, that it opens what [BuildAndEncryptChunk]
    sealed, that a commitment opens in one way, what a leaf and a file ID
    commit to, and how a file is cut into chunks. *)

From S2P Require Import Prelude Effects AesGcm Protocol Utils Merkle Wire Controllers Flow.
From S2P Require Import SenderSpec Integrity Network Honest EndToEnd.

Section chunk_spec.
Context `{LegacyKeccak256}.

(** ** Lemmas *)

Lemma exec_BuildAndEncryptChunk fid i pt tr c :
  len pt <= ChunkSize -> exec (BuildAndEncryptChunk fid i pt) tr (Done (Ok c)) ->
  sealed_chunk fid i c /\ c_Plaintext c = pt.
Proof.
  intros Hpt He.
  pose proof (wp_exec (sender_safe (mkMetaData "" 0 0 []) 0%nat) (BuildAndEncryptChunk fid i pt)
    (fun r _ => match r with Done (Ok c) => sealed_chunk fid i c /\ c_Plaintext c = pt | _ => True end)
    [] tr (Done (Ok c))) as Hw.
  apply Hw; [|done]. apply wp_BuildAndEncryptChunk; [by apply sender_safe_start|done|done|done].
Qed.

Lemma PutUint32_u32 v : PutUint32 v = PutUint32 (u32 v).
Proof.
  unfold PutUint32, u32. rewrite !Z.shiftr_div_pow2 by lia.
  assert (Hb : forall x y, x mod 256 = y mod 256 -> z2b x = z2b y).
  { intros x y Hxy. apply b2z_inj. by rewrite !b2z_z2b. }
  f_equal; [apply Hb|f_equal; [apply Hb|f_equal; [apply Hb|f_equal; apply Hb]]];
    Z.div_mod_to_equations; lia.
Qed.

Lemma PutUint64_inj (x y : Z) : PutUint64 (u64 x) = PutUint64 (u64 y) -> u64 x = u64 y.
Proof.
  unfold PutUint64. intros [Hh Hl]%app_inj_len; [|done].
  rewrite PutUint32_u32, (PutUint32_u32 (Z.shiftr (u64 y) 32)) in Hh.
  rewrite PutUint32_u32, (PutUint32_u32 (u64 y)) in Hl.
  apply PutUint32_inj in Hh, Hl; try apply u32_range.
  unfold u32, u64 in *. rewrite !Z.shiftr_div_pow2 in Hh by lia.
  Z.div_mod_to_equations. lia.
Qed.

Lemma u64_inj (x y : Z) : - 2 ^ 63 <= x < 2 ^ 63 -> - 2 ^ 63 <= y < 2 ^ 63 -> u64 x = u64 y -> x = y.
Proof. unfold u64. intros. Z.div_mod_to_equations. lia. Qed.

(** The message of a file ID determines what it is made of. *)
Definition file_id_msg (info : FileInfo) (t : Z) : bytes :=
  bytes_of_string (fi_Name info) ++ PutUint64 (u64 (fi_Size info)) ++ PutUint64 (u64 t).

Lemma file_id_msg_inj info info' t t' :
  0 <= fi_Size info < 2 ^ 63 -> 0 <= fi_Size info' < 2 ^ 63 ->
  - 2 ^ 63 <= t < 2 ^ 63 -> - 2 ^ 63 <= t' < 2 ^ 63 ->
  file_id_msg info t = file_id_msg info' t' -> info = info' /\ t = t'.
Proof.
  intros Hs Hs' Ht Ht' Heq. unfold file_id_msg in Heq.
  apply app_inj_2 in Heq as [Hn Heq]; [|done].
  apply app_inj_len in Heq as [Hsz Htm]; [|done].
  apply PutUint64_inj, u64_inj in Hsz, Htm; try lia.
  apply (f_equal string_of_bytes) in Hn. rewrite !string_of_bytes_of_string in Hn.
  destruct info, info'. simpl in *. by subst.
Qed.

Lemma eval_ReadChunkPlaintext w f path off content i inb :
  is_u32 i -> open_file w f = Some (path, off, content) ->
  eval (ReadChunkPlaintext (Some f) i ChunkSize) w inb
  = Some (Done (Ok (chunk_of content i)), w, inb, []).
Proof.
  intros [Hi0 Hi1] Hof. unfold ReadChunkPlaintext. cbn [perform bind].
  rewrite i64_small by (unfold ChunkSize; lia).
  cbn [eval respond world_answer]. rewrite Hof, decide_False by (unfold ChunkSize; lia).
  unfold chunk_of. set (pt := take (Z.to_nat ChunkSize) _). clearbody pt. by case_decide.
Qed.

Lemma concat_chunks content n :
  concat ((fun i => chunk_of content (Z.of_nat i)) <$> seq 0 n) = chunks_before content (Z.of_nat n).
Proof.
  induction n as [|n IH]; [done|].
  rewrite seq_S, fmap_app, concat_app, IH. cbn [fmap list_fmap concat]. rewrite app_nil_r, Nat.add_0_l.
  rewrite chunks_before_next by lia. f_equal. lia.
Qed.

(** ** Properties of commitments *)

(** C22: what [DecryptAndCheck] accepts.  With the key and nonce sizes of the
    protocol it always returns, and it returns the plaintext [pt] exactly when
    the ciphertext is the AES-GCM encryption of [pt] under the revealed key and
    the commitment sent earlier is that of this key and [pt]. *)
Theorem DecryptAndCheck_accepts c :
  len (c_Key c) = KeySize -> len (c_Nonce c) = NonceSize ->
  exists c' r, DecryptAndCheck c = Ret (c', r) /\
    forall pt, len pt <= gcmMaxPlaintext ->
      (r = Ok pt <-> c_HResp c = Keccak [c_Key c; pt] /\
         exists E, NewCipher (c_Key c) = Ok E /\ c_Ciphertext c = seal E (c_Nonce c) pt).
Proof.
  intros Hk Hn. destruct (DecryptAndCheck_returns c Hk Hn) as (c' & r & Hd & Hr).
  exists c', r. split; [done|]. intros pt Hpt. split.
  - intros Hok. destruct (Hr pt Hok) as (_ & ? & ?). done.
  - intros (Hh & E & HE & Hct). rewrite (DecryptAndCheck_sealed c E pt) in Hd by done.
    by injection Hd.
Qed.

(** Round trip.  A chunk the sender sealed, as the receiver has it after the
    response and the key, decrypts and checks to the plaintext it was made of,
    whatever random key and nonce were drawn. *)
Lemma seal_open_roundtrip fileID i pt tr c :
  len pt <= ChunkSize -> exec (BuildAndEncryptChunk fileID i pt) tr (Done (Ok c)) ->
  exists c', DecryptAndCheck (set_Key (received c) (c_Key c)) = Ret (c', Ok pt).
Proof.
  intros Hpt He. destruct (exec_BuildAndEncryptChunk _ _ _ _ _ Hpt He)
    as [(_ & _ & Hk & Hn & _ & HR & E & HE & HC) <-].
  eexists. apply (DecryptAndCheck_sealed _ E); [done|done| |done|done].
  unfold ChunkSize, gcmMaxPlaintext in *. lia.
Qed.

(** C23: a response opens in one way.  Two keys that both pass the check for the
    same response are the same key and give the same plaintext, or the two
    opened messages are a collision of the hash. *)
Theorem commitment_binding c key key' c1 c2 pt pt' :
  len (c_Nonce c) = NonceSize -> len key = KeySize -> len key' = KeySize ->
  DecryptAndCheck (set_Key c key) = Ret (c1, Ok pt) ->
  DecryptAndCheck (set_Key c key') = Ret (c2, Ok pt') ->
  (key = key' /\ pt = pt') \/ collision_in [key ++ pt; key' ++ pt'].
Proof.
  intros Hn Hk Hk' Hd Hd'.
  destruct (DecryptAndCheck_returns (set_Key c key) Hk Hn) as (d & r & Hd1 & Hr).
  destruct (DecryptAndCheck_returns (set_Key c key') Hk' Hn) as (d' & r' & Hd1' & Hr').
  rewrite Hd in Hd1. injection Hd1 as <- <-. rewrite Hd' in Hd1'. injection Hd1' as <- <-.
  destruct (Hr pt eq_refl) as (_ & Hh & _). destruct (Hr' pt' eq_refl) as (_ & Hh' & _).
  unfold Keccak in *. simpl in *. rewrite !app_nil_r in *.
  destruct (decide (key ++ pt = key' ++ pt')) as [Heq|Hne].
  - left. unfold len in *. by apply app_inj_len in Heq; [|lia].
  - right. exists (key ++ pt), (key' ++ pt'). split_and!; [set_solver|set_solver|done|congruence].
Qed.

(** A leaf commits to its chunk.  Two chunks with the sizes of the protocol
    and the same leaf have the same file ID, index, nonce, ciphertext and
    commitment, or the two hashed messages are a collision of the hash. *)
Lemma leaf_binding c c' :
  chunk_sizes c -> chunk_sizes c' -> GenerateLeaf c = GenerateLeaf c' ->
  (c_FileID c = c_FileID c' /\ u32 (c_Index c) = u32 (c_Index c') /\ c_Nonce c = c_Nonce c' /\
   c_Ciphertext c = c_Ciphertext c' /\ c_HResp c = c_HResp c') \/
  collision_in [leaf_msg c; leaf_msg c'].
Proof.
  intros Hc Hc' Hl. rewrite !GenerateLeaf_msg in Hl.
  destruct (decide (leaf_msg c = leaf_msg c')) as [Heq|Hne].
  - left. apply leaf_msg_inj in Heq as (? & Hi & ? & ? & ?); [|done|done].
    rewrite PutUint32_u32, (PutUint32_u32 (c_Index c')) in Hi.
    apply PutUint32_inj in Hi; [done|apply u32_range..].
  - right. exists (leaf_msg c), (leaf_msg c'). split_and!; [set_solver|set_solver|done|done].
Qed.

(** A file ID commits to the file's name, its size and the time: equal IDs
    come from the same three, or are a collision of the hash. *)
Lemma file_id_binding f f' info info' t t' id :
  exec (generateFileID f) [EvStat f (Ok info); EvNow t] (Done (Ok id)) ->
  exec (generateFileID f') [EvStat f' (Ok info'); EvNow t'] (Done (Ok id)) ->
  (info = info' /\ t = t') \/ collision_in [file_id_msg info t; file_id_msg info' t'].
Proof.
  assert (Hinv : forall f info t, exec (generateFileID f) [EvStat f (Ok info); EvNow t] (Done (Ok id)) ->
    0 <= fi_Size info < 2 ^ 63 /\ - 2 ^ 63 <= t < 2 ^ 63 /\ id = keccak256 (file_id_msg info t)).
  { clear. intros f info t. cbn. intros (r & tr & Hw & [= <- <-] & (t0 & tr' & Ht & [= <- <-] & _ & [= ->])).
    split; [exact Hw|]. split; [exact Ht|]. unfold Keccak, file_id_msg. cbn [concat]. by rewrite app_nil_r. }
  intros (Hs & Ht & Hid)%Hinv (Hs' & Ht' & Hid')%Hinv.
  destruct (decide (file_id_msg info t = file_id_msg info' t')) as [Heq|Hne].
  - left. by apply file_id_msg_inj.
  - right. eexists _, _. split_and!; [apply list_elem_of_here|
      apply list_elem_of_further, list_elem_of_here|done|congruence].
Qed.

(** ** Properties of the metadata and of the chunks of a file *)

(** C30: the metadata of a file.  [PrepareMetadata] panics when the file cannot
    be stat'ed; otherwise it returns the name, the low 32 bits of the size, and,
    for every size whose number of chunks fits a [uint32], the number of chunks
    of 32768 bytes, the last one possibly shorter.  Sizes beyond the fields are
    not refused: a file of 4 GiB or more is announced with a wrong size, and one
    of 2^47 bytes (2^32 chunks) as a file of no chunks, which the sender then
    reports as sent. *)
Theorem PrepareMetadata_spec f tr r :
  exec (PrepareMetadata f) tr r ->
  (exists e, tr = [EvStat f (Err e)] /\ r = Halted (Panic "nil pointer dereference")) \/
  exists info md, tr = [EvStat f (Ok info)] /\ r = Done md /\
    md_Name md = fi_Name info /\ md_FileSize md = fi_Size info mod 2 ^ 32 /\
    (fi_Size info <= (2 ^ 32 - 1) * ChunkSize ->
     (md_Reps md - 1) * ChunkSize < fi_Size info <= md_Reps md * ChunkSize) /\
    (2 ^ 32 <= fi_Size info -> md_FileSize md <> fi_Size info) /\
    (fi_Size info = 2 ^ 47 -> md_Reps md = 0).
Proof.
  cbn. intros (a & tr' & Hw & -> & He). destruct a as [info|e]; cbn in *; destruct He as [-> ->].
  - right. eexists info, _. split_and!; [done|done|done|done|..]; cbn.
    + intros Hs. unfold ChunkSize in *. rewrite !i64_small by (rewrite ?i64_small; lia).
      rewrite Z.quot_div_nonneg by lia. rewrite u32_small; unfold is_u32; Z.div_mod_to_equations; lia.
    + intros Hbig. pose proof (u32_range (fi_Size info)) as [? ?]. lia.
    + by intros ->.
  - left. by exists e.
Qed.

(** Cutting a file into chunks loses nothing.  Of a file whose number of
    chunks fits a [uint32], the read of every chunk the header announces
    succeeds, no chunk is empty, and the chunks together are the file. *)
Lemma chunks_of_file w f path off content fid inb :
  open_file w f = Some (path, off, content) -> len content <= (2 ^ 32 - 1) * ChunkSize ->
  let n := Z.to_nat (md_Reps (file_metadata (mkFileInfo (basename path) (len content)) fid)) in
  (forall i, (i < n)%nat ->
     eval (ReadChunkPlaintext (Some f) (Z.of_nat i) ChunkSize) w inb
     = Some (Done (Ok (chunk_of content (Z.of_nat i))), w, inb, []) /\
     0 < len (chunk_of content (Z.of_nat i)) <= ChunkSize) /\
  concat ((fun i => chunk_of content (Z.of_nat i)) <$> seq 0 n) = content.
Proof.
  intros Hof Hc. cbn zeta. rewrite Reps_of by done. pose proof (len_nonneg content).
  set (r := (len content + ChunkSize - 1) / ChunkSize).
  assert (Hr : 0 <= r < 2 ^ 32 /\ (r - 1) * ChunkSize < len content <= r * ChunkSize).
  { unfold r, ChunkSize in *. Z.div_mod_to_equations. lia. }
  split.
  - intros i Hi. split; [eapply eval_ReadChunkPlaintext; [|exact Hof]; unfold is_u32; lia|].
    unfold chunk_of, len, ChunkSize in *. rewrite length_take, length_drop. lia.
  - rewrite concat_chunks. unfold chunks_before. apply take_ge. unfold len, ChunkSize in *. lia.
Qed.

End chunk_spec.
