(* ===== verification/Copy.v ===== *)
(** * Copy: the transfer refines copying a file

    The abstract specification is a machine that copies a file block by block
    ([copy_step]).  The concrete system is a sender and a receiver, each at any
    moment of its run, joined by a network that delivers a prefix of what was
    sent and may stop at any time.  The abstraction of the system is what the
    receiver has written ([copied]).  Nothing is assumed of the hash here: the
    network does not alter bytes, and the argument is that the receiver decodes
    the sender's messages in the only way they can be decoded. *)

From S2P Require Import Prelude Effects AesGcm Protocol Utils Merkle Wire Controllers Flow.
From S2P Require Import SenderSpec ReceiverSpec Integrity Network Honest EndToEnd ChunkSpec.

(** ** The abstract machine *)

(** The next block of at most [ChunkSize] bytes is appended to an incomplete
    copy. *)
Inductive copy_step (content : bytes) (out : bytes) : bytes -> Prop :=
| copy_next :
    out `prefix_of` content -> out <> content ->
    copy_step content out (out ++ take (Z.to_nat ChunkSize) (drop (length out) content)).

(** ** The concrete system *)

(** The bytes of one direction of a conversation. *)
Definition of_dir (d : dir) (f : list (dir * byte)) : bytes :=
  omap (fun '(d', b) => match d, d' with Rx, Rx | Tx, Tx => Some b | _, _ => None end) f.

(** The network: what one side has received is a prefix of what the other has sent. *)
Definition hears (trR trS : list event) : Prop :=
  of_dir Rx (flow trR) `prefix_of` of_dir Tx (flow trS).

(** The file system of the sender: the file at [path] has the contents [content]
    and they do not change during the transfer; reads may fail. *)
Definition serves (path : string) (content : bytes) (tr : list event) : Prop :=
  forall f, EvOpen path (Ok f) ∈ tr ->
    (forall n off d e, EvReadAt f n off d e ∈ tr -> e = None \/ e = Some EOF ->
       d = take (Z.to_nat n) (drop (Z.to_nat off) content)) /\
    (forall info, EvStat f (Ok info) ∈ tr ->
       fi_Size info = len content /\ len (bytes_of_string (fi_Name info)) < 2 ^ 32).

(** The abstraction: what the receiver has written so far. *)
Definition copied (tr : list event) : bytes := concat (snd <$> file_writes tr).

(** The number of chunks of a file. *)
Definition chunk_count (content : bytes) : Z := (len content + ChunkSize - 1) / ChunkSize.

(** ** Directions *)

Lemma of_dir_app d f g : of_dir d (f ++ g) = of_dir d f ++ of_dir d g.
Proof. apply omap_app. Qed.

Lemma of_dir_same d b : of_dir d (tag d b) = b.
Proof.
  induction b as [|x b IH]; [done|]. change (tag d (x :: b)) with ((d, x) :: tag d b).
  unfold of_dir in *. cbn [omap list_omap]. destruct d; by rewrite IH.
Qed.

Lemma of_dir_other d d' b : d <> d' -> of_dir d (tag d' b) = [].
Proof.
  intros Hd. induction b as [|x b IH]; [done|]. change (tag d' (x :: b)) with ((d', x) :: tag d' b).
  unfold of_dir in *. cbn [omap list_omap]. by destruct d, d'.
Qed.

Create Rewrite HintDb of_dir.
#[local] Hint Rewrite of_dir_app of_dir_same : of_dir.

(** Simplifies the bytes of one direction. *)
Ltac dirs := autorewrite with of_dir; rewrite ?(of_dir_other Rx Tx), ?(of_dir_other Tx Rx) by done; cbn [app].

Lemma of_dir_flow_mono d tr tr' : of_dir d (flow tr) `prefix_of` of_dir d (flow (tr ++ tr')).
Proof. rewrite flow_app, of_dir_app. by apply prefix_app_r. Qed.

Lemma partial_prefix {A} (p : prog A) tr tr' : partial p (tr ++ tr') -> partial p tr.
Proof.
  revert tr. induction p as [a|h|o k IH]; intros tr; simpl.
  - by intros [-> _]%app_nil.
  - by intros [-> _]%app_nil.
  - intros [[-> _]%app_nil|(a & tr0 & Ha & Heq & Hk)]; [by left|].
    destruct tr as [|e tr]; [by left|right]. injection Heq as -> <-.
    exists a, tr. split_and!; [done|done|]. by apply (IH a).
Qed.

Section copy.
Context `{LegacyKeccak256, !LegacyKeccak256Spec}.

(** What a chunk costs in each direction. *)
Definition down_round (c : Chunk) : bytes :=
  chunkResponseBytes c ++ keyRevealBytes (c_Index c) (c_Key c).
Definition up_round (c : Chunk) : bytes :=
  chunkRequestBytes (c_Index c) ++ lotteryTicketBytes (c_Index c).

Lemma of_dir_rounds d (g : Chunk -> list (dir * byte)) (g' : Chunk -> bytes) cs :
  (forall c, of_dir d (g c) = g' c) -> of_dir d (cs ≫= g) = cs ≫= g'.
Proof.
  intros Hg. induction cs as [|c cs IH]; [done|]. cbn [mbind list_bind]. by rewrite of_dir_app, Hg, IH.
Qed.

Lemma sender_script_Tx h cs : of_dir Tx (sender_script h cs) = headerBytes h ++ (cs ≫= down_round).
Proof.
  unfold sender_script. dirs. f_equal. apply of_dir_rounds. intros c. unfold sender_round. by dirs.
Qed.

Lemma sender_script_Rx h cs : of_dir Rx (sender_script h cs) = cs ≫= up_round.
Proof.
  unfold sender_script. dirs. apply of_dir_rounds. intros c. unfold sender_round. dirs.
  by rewrite app_nil_r.
Qed.

Lemma receiver_script_Rx h cs : of_dir Rx (receiver_script h cs) = headerBytes h ++ (cs ≫= down_round).
Proof.
  unfold receiver_script. dirs. f_equal. apply of_dir_rounds. intros c. unfold receiver_round. by dirs.
Qed.

Lemma receiver_script_Tx h cs : of_dir Tx (receiver_script h cs) = cs ≫= up_round.
Proof.
  unfold receiver_script. dirs. apply of_dir_rounds. intros c. unfold receiver_round. dirs.
  by rewrite app_nil_r.
Qed.

(** ** Decoding *)

(** The same ciphertext under the same key and nonce is the same plaintext. *)
Lemma seal_inj E nonce pt pt' :
  block16 E -> len nonce = 12 -> len pt <= gcmMaxPlaintext -> len pt' <= gcmMaxPlaintext ->
  seal E nonce pt = seal E nonce pt' -> pt = pt'.
Proof.
  intros HE Hn Hp Hp' Heq. pose proof (Open_seal E HE nonce pt Hn Hp) as Ho.
  rewrite Heq, (Open_seal E HE nonce pt' Hn Hp') in Ho. by injection Ho.
Qed.

Lemma sealed_response fid i c :
  sealed_chunk fid i c -> is_u32 i -> response_valid fid (received c).
Proof using All.
  intros (Hf & Hi & Hk & Hn & Hp & Hh & E & HE & Hc) Hu.
  assert (Hl : len (c_Ciphertext c) < 2 ^ 32).
  { rewrite Hc, (len_seal E (NewCipher_block16 _ _ HE)). unfold ChunkSize in *. lia. }
  unfold response_valid. cbn. rewrite Hi. split_and!; try done.
  - apply u32_small. pose proof (len_nonneg (c_Ciphertext c)). unfold is_u32. lia.
  - rewrite Hh. apply Keccak_size.
Qed.

Lemma verified_response fid i c :
  verified_chunk fid i c -> is_u32 i -> response_valid fid (received c).
Proof.
  intros (Hf & Hi & Hk & Hn & Hh & Hl & _) Hu. unfold response_valid. cbn. rewrite Hi.
  split_and!; try done. apply u32_small. pose proof (len_nonneg (c_Ciphertext c)). unfold is_u32. lia.
Qed.

(** A response that was sent and one that was verified, with the key behind it,
    in the same bytes: the same plaintext. *)
Lemma same_round fid i c c' x y :
  sealed_chunk fid i c -> verified_chunk fid i c' -> is_u32 i ->
  down_round c' ++ x = chunkResponseBytes c ++ y ->
  keyRevealBytes i (c_Key c') ++ x = y /\
  (forall z, y = keyRevealBytes i (c_Key c) ++ z -> x = z /\ c_Plaintext c' = c_Plaintext c).
Proof using All.
  intros Hc Hc' Hu Heq. unfold down_round in Heq. rewrite <-app_assoc in Heq.
  pose proof (sealed_response _ _ _ Hc Hu) as Hv. pose proof (verified_response _ _ _ Hc' Hu) as Hv'.
  pose proof Hc' as (_ & Hi' & _). rewrite Hi' in Heq.
  change (chunkResponseBytes c') with (cd_encode (response_codec fid) (received c')) in Heq.
  change (chunkResponseBytes c) with (cd_encode (response_codec fid) (received c)) in Heq.
  apply codec_inj in Heq as [Hr Heq]; [|done|done]. split; [done|]. intros z ->.
  destruct Hc as (_ & _ & Hk & Hn & Hp & _ & E & HE & Hct).
  destruct Hc' as (_ & _ & Hk' & Hn' & _ & Hl' & _ & E' & HE' & Hct').
  change (keyRevealBytes i ?k) with (cd_encode key_codec (i, k)) in Heq.
  apply codec_inj in Heq as [Hkk ->]; [|done|done]. split; [done|].
  injection Hkk as Hkk. injection Hr as _ _ _ Hcc Hnn _.
  rewrite Hkk, HE in HE'. injection HE' as <-. rewrite Hct, Hct', Hnn in Hcc.
  pose proof (NewCipher_block16 _ _ HE) as HB. rewrite Hct', (len_seal E HB) in Hl'.
  apply (seal_inj E (c_Nonce c)); try done; [|unfold ChunkSize, gcmMaxPlaintext in *; lia].
  unfold gcmMaxPlaintext. lia.
Qed.

(** What follows the complete rounds of the sender: nothing, a response whose
    key was not sent, or the root. *)
Definition sender_tail (fid : bytes) (n : Z) (cs : list Chunk) (b : bytes) : Prop :=
  (cs = [] /\ (b = [] \/ exists root, b = rootBytes root)) \/
  exists c, cs = [c] /\ sealed_chunk fid n c /\ b = chunkResponseBytes c.

(** The rounds the receiver has accepted are rounds the sender has sent. *)
Lemma decode_rounds fid (i : nat) cs1 cs2 b cs' rest :
  (forall j c, cs1 !! j = Some c -> sealed_chunk fid (Z.of_nat (i + j)) c) ->
  (forall j c, cs' !! j = Some c -> verified_chunk fid (Z.of_nat (i + j)) c) ->
  sender_tail fid (Z.of_nat i + len cs1) cs2 b -> Z.of_nat i + len cs1 < 2 ^ 32 ->
  (cs' ≫= down_round) ++ rest = (cs1 ≫= down_round) ++ b ->
  (c_Plaintext <$> cs') `prefix_of` (c_Plaintext <$> cs1).
Proof using All.
  revert i cs1. induction cs' as [|c' cs' IH]; intros i cs1 Hs Hv Ht Hlt Heq; [apply prefix_nil|].
  pose proof (Hv 0%nat c' eq_refl) as Hv0. rewrite Nat.add_0_r in Hv0.
  cbn [mbind list_bind] in Heq. rewrite <-app_assoc in Heq. pose proof (len_nonneg cs1).
  assert (Hu : is_u32 (Z.of_nat i)) by (unfold is_u32; lia).
  destruct cs1 as [|c cs1]; cbn [mbind list_bind app] in Heq.
  - exfalso. destruct Ht as [[_ [->|[root ->]]]|(c & _ & Hc & ->)]; [done|done|].
    rewrite <-(app_nil_r (chunkResponseBytes c)) in Heq. unfold len in Hc. cbn in Hc. rewrite Z.add_0_r in Hc.
    by apply (same_round fid (Z.of_nat i)) in Heq as [Heq _].
  - pose proof (Hs 0%nat c eq_refl) as Hs0. rewrite Nat.add_0_r in Hs0.
    unfold down_round at 3 in Heq. pose proof Hs0 as (_ & Hi & _). rewrite Hi, <-!app_assoc in Heq.
    apply (same_round fid (Z.of_nat i)) in Heq as [_ Heq]; [|done..].
    destruct (Heq _ eq_refl) as [Heq' Hpt]. cbn [fmap list_fmap]. rewrite Hpt. apply prefix_cons.
    assert (Hl : len (c :: cs1) = 1 + len cs1) by (unfold len; simpl; lia).
    apply (IH (S i) cs1); [| | |lia|done].
    + intros j c0 Hj. replace (S i + j)%nat with (i + S j)%nat by lia. by apply Hs.
    + intros j c0 Hj. replace (S i + j)%nat with (i + S j)%nat by lia. by apply Hv.
    + by replace (Z.of_nat (S i) + len cs1) with (Z.of_nat i + len (c :: cs1)) by lia.
Qed.

(** The bytes a sender has sent at a point of its conversation. *)
Lemma sender_point_Tx h cs f0 :
  sender_point h cs f0 -> f0 = [] \/
  exists cs1 cs2 b, cs = cs1 ++ cs2 /\ sealed_chunks (md_FileID h) cs1 /\ len cs1 <= md_Reps h /\
    sender_tail (md_FileID h) (len cs1) cs2 b /\
    of_dir Tx f0 = headerBytes h ++ (cs1 ≫= down_round) ++ b.
Proof.
  intros [|cs' Hs Hl|cs' c Hs Hc Hl|cs' root Hs Hl Hp Hr]; [by left|right..].
  - exists cs', [], []. rewrite !app_nil_r, sender_script_Tx. split_and!; try done. left. auto.
  - exists cs', [c], (chunkResponseBytes c). dirs. rewrite sender_script_Tx, <-app_assoc.
    split_and!; [done|done|lia| |done]. right. eauto.
  - exists cs', [], (rootBytes root). dirs. rewrite sender_script_Tx, <-app_assoc, app_nil_r.
    split_and!; [done|done|lia| |done]. left. eauto.
Qed.

(** A receiver that has heard a header and complete rounds from the sender. *)
Lemma decode_sender h cs f0 h' cs' :
  header_valid h -> header_valid h' -> sender_point h cs f0 ->
  verified_chunks (md_FileID h') cs' -> of_dir Rx (receiver_script h' cs') `prefix_of` of_dir Tx f0 ->
  h' = h /\ (c_Plaintext <$> cs') `prefix_of` (c_Plaintext <$> cs).
Proof using All.
  intros Hh Hh' Hp Hv [rest Hrest]. rewrite receiver_script_Rx in Hrest.
  apply sender_point_Tx in Hp as [->|(cs1 & cs2 & b & -> & Hs & Hl & Ht & Htx)]; [done|].
  rewrite Htx, <-app_assoc in Hrest. symmetry in Hrest.
  change (headerBytes ?h) with (cd_encode header_codec h) in Hrest.
  apply codec_inj in Hrest as [-> Hrest]; [|done|done]. split; [done|].
  rewrite fmap_app. apply prefix_app_r.
  apply (decode_rounds (md_FileID h) 0 cs1 cs2 b cs' rest); [done|done|done| |done].
  destruct Hh as [[_ ?] _]. lia.
Qed.

(** ** The abstraction *)

Section system.
Context (fuelS fuelR : nat) (path : string) (content : bytes) (trS : list event).
Hypothesis HfS : enough_fuel fuelS.
Hypothesis HfR : enough_fuel fuelR.
Hypothesis Hsize : len content <= (2 ^ 32 - 1) * ChunkSize.
Hypothesis HS : partial (SendFile fuelS path) trS.
Hypothesis Hserves : serves path content trS.

(** What the sender has sent was read from the file. *)
Lemma sender_plaintexts h f cs f0 :
  EvOpen path (Ok f) ∈ trS -> sender_point h cs f0 -> Forall (read_from_file f trS) cs ->
  c_Plaintext <$> cs = (fun i => chunk_of content (Z.of_nat i)) <$> seq 0 (length cs).
Proof using Hserves.
  intros HO Hp Hr. destruct (Hserves f HO) as [Hread _].
  assert (Hs : sealed_chunks (md_FileID h) cs).
  { destruct Hp; [apply sealed_chunks_nil|done|by apply sealed_chunks_snoc|done]. }
  apply list_eq. intros i. rewrite !list_lookup_fmap.
  destruct (cs !! i) as [c|] eqn:Hi.
  - rewrite lookup_seq_lt by (by apply lookup_lt_Some in Hi).
    destruct (Hs i c Hi) as (_ & Hci & _). rewrite Forall_lookup in Hr.
    destruct (Hr i c Hi) as (e & He & Hin). rewrite Hci in Hin.
    cbn [fmap option_fmap option_map]. f_equal. unfold chunk_of. exact (Hread _ _ _ _ Hin He).
  - rewrite lookup_seq_ge by (by apply lookup_ge_None in Hi). done.
Qed.

Lemma chunk_count_bounds :
  0 <= chunk_count content < 2 ^ 32 /\
  (chunk_count content - 1) * ChunkSize < len content <= chunk_count content * ChunkSize.
Proof using Hsize.
  pose proof (len_nonneg content). unfold chunk_count, ChunkSize in *. Z.div_mod_to_equations. lia.
Qed.

(** The header the receiver got is the sender's, and its chunks are the file's. *)
Lemma decode_file trR h' cs' :
  hears trR trS -> header_valid h' -> verified_chunks (md_FileID h') cs' ->
  receiver_script h' cs' `prefix_of` flow trR ->
  (exists f info, EvOpen path (Ok f) ∈ trS /\ EvStat f (Ok info) ∈ trS /\ md_Name h' = fi_Name info) /\
  md_Reps h' = chunk_count content /\
  c_Plaintext <$> cs' = (fun i => chunk_of content (Z.of_nat i)) <$> seq 0 (length cs').
Proof using All.
  intros [more Hnet] Hh' Hv [rest Hscript]. rewrite Hscript, of_dir_app, <-app_assoc in Hnet.
  destruct (sendfile_speaks _ _ _ HfS HS) as [Hnil|(f & info & info0 & t & HO & HI & _ & _ & Hc)].
  { rewrite Hnil, receiver_script_Rx in Hnet. done. }
  destruct Hc as (cs & f0 & g & Hp & Hf & Hr). destruct (Hserves f HO) as [_ Hstat].
  destruct (Hstat info HI) as [Hsz Hnm].
  set (h := file_metadata info (file_id info0 t)) in *.
  assert (Hh : header_valid h).
  { unfold header_valid, h. cbn. split_and!; [apply u32_range|apply u32_range|apply Keccak_size|done]. }
  rewrite Hf in Hnet. revert Hnet. dirs. rewrite app_nil_r. intros Hnet.
  destruct (decode_sender h cs f0 h' cs') as [-> Hpre]; [done|done|done|done|by eexists|].
  rewrite (sender_plaintexts h f cs f0 HO Hp Hr) in Hpre. split_and!.
  - by exists f, info.
  - unfold h. destruct info as [name size]. cbn in Hsz. subst size. by apply Reps_of.
  - destruct Hpre as [k Hk]. pose proof (f_equal (take (length cs')) Hk) as Hk'.
    rewrite take_app_length' in Hk' by (by rewrite length_fmap).
    assert (Hle : (length cs' <= length cs)%nat).
    { apply (f_equal length) in Hk. rewrite length_app, !length_fmap, length_seq in Hk. lia. }
    rewrite <-Hk', <-fmap_take, take_seq. do 2 f_equal. lia.
Qed.

(** What the receiver has written are the first chunks of the file. *)
Lemma writes_are_chunks trR :
  partial (RecieveFile fuelR) trR -> hears trR trS ->
  file_writes trR = [] \/ exists f n, Z.of_nat n <= chunk_count content /\
    file_writes trR = (fun i => (f, chunk_of content (Z.of_nat i))) <$> seq 0 n.
Proof using All.
  intros HR Hnet. destruct (recievefile_safe _ _ HfR HR) as [_ [[Hw _]|(h & f & cs & Hh & Hv & Hl & _ & Hw & Hp)]];
    [by left|right].
  destruct (decode_file trR h cs Hnet Hh Hv Hp) as (_ & Hreps & Hpt). rewrite Hreps in Hl.
  exists f, (length cs). split; [done|]. rewrite Hw.
  change (fun c : Chunk => (f, c_Plaintext c)) with (pair f ∘ c_Plaintext).
  by rewrite list_fmap_compose, Hpt, <-list_fmap_compose.
Qed.

Lemma copied_chunks f n tr :
  file_writes tr = (fun i => (f, chunk_of content (Z.of_nat i))) <$> seq 0 n ->
  copied tr = chunks_before content (Z.of_nat n).
Proof. intros Hw. unfold copied. rewrite Hw, <-list_fmap_compose. apply concat_chunks. Qed.

Lemma copied_state trR :
  partial (RecieveFile fuelR) trR -> hears trR trS ->
  copied trR = chunks_before content (Z.of_nat (length (file_writes trR))) /\
  Z.of_nat (length (file_writes trR)) <= chunk_count content.
Proof using All.
  intros HR Hnet. pose proof chunk_count_bounds.
  destruct (writes_are_chunks trR HR Hnet) as [Hw|(f & n & Hn & Hw)].
  - rewrite Hw. unfold copied. rewrite Hw. split; [done|]. simpl. lia.
  - rewrite (copied_chunks f n trR Hw), Hw, length_fmap, length_seq. done.
Qed.

(** One more chunk is one step of the abstract machine. *)
Lemma chunk_copy_step n :
  Z.of_nat n < chunk_count content ->
  copy_step content (chunks_before content (Z.of_nat n)) (chunks_before content (Z.of_nat (S n))).
Proof using Hsize.
  intros Hn. pose proof chunk_count_bounds as [Hc0 [Hc1 Hc2]].
  assert (Hl : length (chunks_before content (Z.of_nat n)) = Z.to_nat (ChunkSize * Z.of_nat n)).
  { unfold chunks_before. rewrite length_take. unfold len, ChunkSize in *. lia. }
  replace (Z.of_nat (S n)) with (Z.of_nat n + 1) by lia. rewrite <-chunks_before_next by lia.
  unfold chunk_of at 1. rewrite <-Hl. apply copy_next.
  - unfold chunks_before. eexists. symmetry. apply take_drop.
  - intros Heq. apply (f_equal length) in Heq. rewrite Hl in Heq. unfold len, ChunkSize in *. lia.
Qed.

Lemma chunks_before_all : chunks_before content (chunk_count content) = content.
Proof using Hsize.
  pose proof chunk_count_bounds as [Hc0 [Hc1 Hc2]].
  unfold chunks_before. apply take_ge. unfold len, ChunkSize in *. lia.
Qed.

Lemma hears_prefix trR trR' : hears (trR ++ trR') trS -> hears trR trS.
Proof. intros Hn. unfold hears. etrans; [apply of_dir_flow_mono|exact Hn]. Qed.

(** One operation of the receiver is one step of the abstract machine or none. *)
Lemma copy_simulation tr e :
  partial (RecieveFile fuelR) (tr ++ [e]) -> hears (tr ++ [e]) trS ->
  copied (tr ++ [e]) = copied tr \/ copy_step content (copied tr) (copied (tr ++ [e])).
Proof using All.
  intros HR Hnet. destruct (copied_state _ HR Hnet) as [-> Hn].
  destruct (copied_state tr (partial_prefix _ _ _ HR) (hears_prefix _ _ Hnet)) as [-> _].
  rewrite file_writes_app, length_app in *.
  assert (Hle : length (file_writes [e]) = 0%nat \/ length (file_writes [e]) = 1%nat).
  { destruct e as [| | | | | | | | | | |f b [err|]|]; auto. }
  destruct Hle as [Hle|Hle]; rewrite Hle in *.
  - left. by rewrite Nat.add_0_r.
  - right. rewrite Nat.add_1_r. apply chunk_copy_step. lia.
Qed.

Lemma copied_reachable trR :
  partial (RecieveFile fuelR) trR -> hears trR trS -> rtc (copy_step content) [] (copied trR).
Proof using All.
  induction trR as [|e tr IH] using rev_ind; intros HR Hnet; [apply rtc_refl|].
  specialize (IH (partial_prefix _ _ _ HR) (hears_prefix _ _ Hnet)).
  destruct (copy_simulation tr e HR Hnet) as [->|Hs]; [done|]. by eapply rtc_r.
Qed.

(** A receiver that returned [nil] has the whole file. *)
Lemma receiver_nil_complete trR :
  exec (RecieveFile fuelR) trR (Done None) -> hears trR trS -> copied trR = content.
Proof using All.
  intros HR Hnet. assert (HP : partial (RecieveFile fuelR) trR).
  { apply (exec_partial _ trR [] (Done None)). by rewrite app_nil_r. }
  destruct (recievefile_completes _ _ HfR HR) as (h & f & cs & Hh & Hl & Hv & _ & _ & Hw & Hf0 & Hf1).
  assert (Hp : receiver_script h cs `prefix_of` flow trR).
  { destruct (decide (length cs = 0)%nat) as [Hz|Hz].
    - destruct cs; [|done]. rewrite (Hf0 eq_refl). unfold receiver_script. cbn. by rewrite app_nil_r.
    - destruct Hf1 as (root & _ & ->); [by intros ->|]. by apply prefix_app_r. }
  destruct (decode_file trR h cs Hnet Hh Hv Hp) as (_ & Hreps & _).
  destruct (copied_state trR HP Hnet) as [-> _]. rewrite Hw, length_fmap.
  unfold len in Hl. rewrite Hl, Hreps. apply chunks_before_all.
Qed.

(** C3: the transfer refines copying the file.  At every moment of every run of a
    sender and a receiver, whatever fails and whenever the network stops, what
    the receiver has written is a state the abstract machine can reach, every
    operation of the receiver is one step of that machine or none, and when
    [RecieveFile] returns [nil] the copy is complete. *)
Theorem transfer_refines_copy trR :
  partial (RecieveFile fuelR) trR -> hears trR trS ->
  rtc (copy_step content) [] (copied trR) /\
  (forall tr e tr', trR = tr ++ e :: tr' ->
     copied (tr ++ [e]) = copied tr \/ copy_step content (copied tr) (copied (tr ++ [e]))) /\
  (exec (RecieveFile fuelR) trR (Done None) -> copied trR = content).
Proof using All.
  intros HR Hnet. split_and!; [by apply copied_reachable| |by intros; apply receiver_nil_complete].
  intros tr e tr' ->. rewrite cons_middle, app_assoc in HR, Hnet.
  apply copy_simulation; [by eapply partial_prefix|by eapply hears_prefix].
Qed.

(** The lengths of what goes up. *)
Lemma length_up_rounds cs : length (cs ≫= up_round) = (10 * length cs)%nat.
Proof. induction cs as [|c cs IH]; [done|]. cbn [mbind list_bind]. rewrite length_app, IH. simpl. lia. Qed.

Lemma receiver_point_Tx h cs f0 :
  receiver_point h cs f0 -> (length (of_dir Tx f0) <= 10 * length cs + 10)%nat.
Proof.
  intros [cs' Hv Hl|cs' c Hv Hl Hr Hi|cs' root Hv Hl Hp Hr]; dirs;
    rewrite receiver_script_Tx, !length_app, length_up_rounds; simpl; lia.
Qed.

(** A sender that returned [nil] has heard of all the chunks being written. *)
Lemma sender_nil_count trR :
  exec (SendFile fuelS path) trS (Done None) ->
  partial (RecieveFile fuelR) trR -> hears trS trR ->
  chunk_count content <= Z.of_nat (length (file_writes trR)).
Proof using All.
  intros HSd HR Hback.
  destruct (sendfile_completes _ _ _ HfS HSd)
    as (f & info & info0 & t & cs & (HO & HI & Hlen & _ & _ & _ & Hfl) & _).
  destruct (Hserves f HO) as [_ Hstat]. destruct (Hstat info HI) as [Hsz _].
  destruct info as [name size]. cbn in Hsz. subst size. rewrite Reps_of in Hlen by done.
  fold (chunk_count content) in Hlen. rewrite <-Hlen. unfold len.
  destruct (decide (length cs = 0)%nat) as [Hz|Hz]; [lia|].
  destruct Hfl as (root & _ & Hfl); [by intros ->|].
  unfold hears in Hback. rewrite Hfl in Hback. revert Hback. dirs. rewrite sender_script_Rx.
  intros Hup%prefix_length. rewrite length_app, length_up_rounds in Hup.
  destruct (recievefile_safe _ _ HfR HR) as [[[g Hg]|(h & fR & cs' & f0 & g & _ & Hp & Hg & Hw)] _].
  - rewrite Hg in Hup. revert Hup. dirs. simpl. lia.
  - rewrite Hg in Hup. revert Hup. dirs. rewrite app_nil_r.
    pose proof (receiver_point_Tx _ _ _ Hp). apply prefix_length in Hw. rewrite length_fmap in Hw.
    simpl. lia.
Qed.

(** C10: what a return of [nil] tells the sender.  When [SendFile] has returned
    [nil] and what the sender heard is a prefix of what the receiver said, the
    receiver, which may still be running, has already written the whole file. *)
Theorem sender_nil_delivered trR :
  exec (SendFile fuelS path) trS (Done None) ->
  partial (RecieveFile fuelR) trR -> hears trR trS -> hears trS trR -> copied trR = content.
Proof using All.
  intros HSd HR Hnet Hback. destruct (copied_state trR HR Hnet) as [-> Hle].
  rewrite <-chunks_before_all at 2. f_equal. apply Z.le_antisymm; [done|by apply sender_nil_count].
Qed.

End system.

End copy.
