(* ===== verification/Nodes.v ===== *)
(** * Nodes: the stream handler of the server and the requests of the client

    [HandleStream] of Server/server.go, and [RequestFile] with the switch at
    the end of [main] of Client/client.go: a client and a server connected by
    one stream. *)

From S2P Require Import Prelude Effects AesGcm Protocol Utils Merkle Wire Controllers Operations Flow.
From S2P Require Import SenderSpec Network Honest EndToEnd.

Section nodes.
Context `{LegacyKeccak256}.

(** ** Server/server.go *)

(** The body of [HandleStream], before its deferred [s.Close()]. *)
Definition handleBody (fuel : nat) : prog unit :=
  let! r := perform (OReadFull 4) in
  match r with
  | Err _ => perform OReset
  | Ok buf =>
      let typ := Uint32 buf in
      let! r := perform (OReadFull 4) in
      match r with
      | Err _ => perform OReset
      | Ok buf =>
          let lengthOfPath := Uint32 buf in
          let! r := perform (OReadFull lengthOfPath) in
          match r with
          | Err _ => perform OReset
          | Ok pathBuf =>
              let path := string_of_bytes pathBuf in
              if typ =? 0 then let! _ := SendFile fuel path in Ret ()
              else if typ =? 1 then let! _ := RecieveFile fuel in Ret ()
              else Ret ()
          end
      end
  end.

Definition HandleStream (fuel : nat) : prog unit :=
  defer (perform OClose) (handleBody fuel).

(** ** Client/client.go *)

Definition requestBytes (path method : string) : bytes :=
  (if bool_decide (method = "GET"%string) then PutUint32 0 else [])
  ++ (if bool_decide (method = "POST"%string) then PutUint32 1 else [])
  ++ PutUint32 (u32 (len (bytes_of_string path))) ++ bytes_of_string path.

Definition RequestFile (path method : string) : prog unit :=
  let! r := perform (OWrite (requestBytes path method)) in
  match r with
  | Some _ => Halt (Fatal "Couldnt write the whattodoheaderBuffer")
  | None => Ret ()
  end.

(** [main] once the stream is open: the switch on the method and the deferred
    [s.Close()]. *)
Definition clientTransfer (fuel : nat) (method path : string) : prog unit :=
  defer (perform OClose)
   (if bool_decide (method = "POST"%string) then
      let! _ := RequestFile path method in
      let! _ := SendFile fuel path in Ret ()
    else if bool_decide (method = "GET"%string) then
      let! _ := RequestFile path method in
      let! _ := RecieveFile fuel in Ret ()
    else Ret ()).

(** ** The request *)

(** What the server does once it has read a request. *)
Definition serve (fuel : nat) (typ : Z) (path : string) : prog unit :=
  defer (perform OClose)
   (if typ =? 0 then let! _ := SendFile fuel path in Ret ()
    else if typ =? 1 then let! _ := RecieveFile fuel in Ret ()
    else Ret ()).

(** A whole transfer inside a process. *)
Definition node_in (p : prog (option error)) : prog unit :=
  defer (perform OClose) (let! _ := p in Ret ()).

Lemma node_in_context : is_context node_in.
Proof. intros p p' w w' inb inb' out Hs. by apply solo_defer, solo_bind. Qed.

(** The three reads of the request, while the client waits. *)
Lemma HandleStream_request fuel w typ path rest :
  is_u32 typ -> len (bytes_of_string path) < 2 ^ 32 ->
  solo (HandleStream fuel) w
    (PutUint32 typ ++ PutUint32 (u32 (len (bytes_of_string path))) ++ bytes_of_string path ++ rest)
    [] (serve fuel typ path) w rest.
Proof.
  intros Ht Hp. set (pb := bytes_of_string path) in *.
  assert (Hl : is_u32 (len pb)) by (split; [apply len_nonneg|done]).
  assert (Hread : forall n (b r : bytes), len b = n ->
    respond (OReadFull n) w (b ++ r) = Some (Ok b, w, r, [])).
  { intros n b r <-. cbn [respond]. rewrite decide_True by (rewrite len_app; pose proof (len_nonneg r); lia).
    by rewrite take_app_len, drop_app_len by (unfold len; lia). }
  unfold HandleStream, handleBody. cbn [perform bind defer].
  eapply (solo_step _ _ _ _ _ _ _ []); [by apply (Hread 4)|]. cbn [bind defer].
  eapply (solo_step _ _ _ _ _ _ _ []); [by apply (Hread 4)|]. cbn [bind defer].
  rewrite u32_small, !Uint32_PutUint32' by done.
  eapply (solo_step _ _ _ _ _ _ _ []); [by apply Hread|]. cbn [bind defer].
  unfold pb. rewrite string_of_bytes_of_string. apply solo_refl.
Qed.

(** A request as bytes on the stream. *)
Definition request_msg (typ : Z) (path : bytes) : bytes :=
  PutUint32 typ ++ PutUint32 (len path) ++ path.

(** The reads of a request that arrives, *)
Definition requested (typ : Z) (path : bytes) : list event :=
  [EvRead 4 (Ok (PutUint32 typ)); EvRead 4 (Ok (PutUint32 (len path))); EvRead (len path) (Ok path)].

(** and those of one that does not: the last read fails. *)
Inductive cut_short : list event -> Prop :=
| cut_type e : cut_short [EvRead 4 (Err e)]
| cut_length typ e : is_u32 typ -> cut_short [EvRead 4 (Ok (PutUint32 typ)); EvRead 4 (Err e)]
| cut_path typ n e : is_u32 typ -> is_u32 n ->
    cut_short [EvRead 4 (Ok (PutUint32 typ)); EvRead 4 (Ok (PutUint32 n)); EvRead n (Err e)].

Lemma requested_flow typ path : flow (requested typ path) = tag Rx (request_msg typ path).
Proof. unfold flow, requested, request_msg. cbn -[PutUint32]. by rewrite app_nil_r, !tag_app. Qed.

Lemma requested_reads typ path : Forall is_read (requested typ path).
Proof. by repeat constructor. Qed.

(** How [HandleStream] starts, whatever the peer sends. *)
Lemma HandleStream_starts fuel tr r :
  exec (HandleStream fuel) tr r ->
  (exists evs, cut_short evs /\ tr = evs ++ [EvReset; EvClose] /\ r = Done ()) \/
  exists typ path tr', is_u32 typ /\ is_u32 (len path) /\ tr = requested typ path ++ tr' /\
    exec (serve fuel typ (string_of_bytes path)) tr' r.
Proof.
  unfold HandleStream, handleBody. cbn -[Z.eqb SendFile RecieveFile].
  intros (a & tr1 & Hw1 & -> & He).
  destruct a as [b1|e1]; cbn -[Z.eqb SendFile RecieveFile] in Hw1, He.
  2:{ left. destruct He as ([] & ? & _ & -> & [] & ? & _ & -> & -> & ->).
      exists [EvRead 4 (Err e1)]. split; [constructor|done]. }
  pose proof (Uint32_range b1) as Hr1. rewrite <-(len4 b1 Hw1). destruct He as (a & tr2 & Hw2 & -> & He).
  destruct a as [b2|e2]; cbn -[Z.eqb SendFile RecieveFile] in Hw2, He.
  2:{ left. destruct He as ([] & ? & _ & -> & [] & ? & _ & -> & -> & ->).
      exists [EvRead 4 (Ok (PutUint32 (Uint32 b1))); EvRead 4 (Err e2)]. split; [by constructor|done]. }
  pose proof (Uint32_range b2) as Hr2. rewrite <-(len4 b2 Hw2). destruct He as (a & tr3 & Hw3 & -> & He).
  destruct a as [b3|e3]; cbn -[Z.eqb SendFile RecieveFile] in Hw3, He.
  2:{ left. destruct He as ([] & ? & _ & -> & [] & ? & _ & -> & -> & ->).
      exists [EvRead 4 (Ok (PutUint32 (Uint32 b1))); EvRead 4 (Ok (PutUint32 (Uint32 b2))); EvRead (Uint32 b2) (Err e3)].
      split; [by constructor|done]. }
  right. exists (Uint32 b1), b3, tr3. unfold requested. rewrite Hw3. by split_and!.
Qed.

(** How a process ends after a transfer: it closes the stream when the transfer
    returned and when it panicked, and exits at once on [log.Fatal]. *)
Definition node_ends (o : outcome (option error)) (tr : list event) (r : outcome unit) : Prop :=
  match o with
  | Done _ => tr = [EvClose] /\ r = Done ()
  | Halted (Panic why) => tr = [EvClose] /\ r = Halted (Panic why)
  | Halted h => tr = [] /\ r = Halted h
  end.

Lemma exec_node_in p tr r :
  exec (node_in p) tr r ->
  exists tr1 tr2 o, tr = tr1 ++ tr2 /\ exec p tr1 o /\ node_ends o tr2 r.
Proof.
  unfold node_in. intros (o & tr1 & tr2 & Hp & -> & Hd)%exec_defer.
  apply exec_bind in Hp as [(h & Hp & ->)|(x & tr3 & tr4 & Hp & [-> ->] & ->)].
  - exists tr1, tr2, (Halted h). split; [done|]. split; [done|]. destruct h; [|done..].
    by destruct Hd as ([] & ? & _ & -> & -> & ->).
  - exists tr3, tr2, (Done x). rewrite app_nil_r. split; [done|]. split; [done|].
    by destruct Hd as ([] & ? & _ & -> & -> & ->).
Qed.

(** ** Properties of the stream handler *)

(** C31: the stream handler, whatever the peer sends.  Either a read of the request
    failed (of the type, of the length or of the path), and then the handler
    resets and closes the stream and does nothing else; or it read exactly a
    request, a type and a path, and serves it: type 0 sends the file at that
    path, type 1 receives one, any other type does nothing, and the stream is
    closed at the end. *)
Theorem HandleStream_dispatch fuel tr r :
  exec (HandleStream fuel) tr r ->
  (exists evs, cut_short evs /\ tr = evs ++ [EvReset; EvClose] /\ r = Done ()) \/
  exists typ path tr1 tr2, is_u32 typ /\ is_u32 (len path) /\ tr = requested typ path ++ tr1 ++ tr2 /\
    (typ = 0 -> exists o, exec (SendFile fuel (string_of_bytes path)) tr1 o /\ node_ends o tr2 r) /\
    (typ = 1 -> exists o, exec (RecieveFile fuel) tr1 o /\ node_ends o tr2 r) /\
    (typ <> 0 -> typ <> 1 -> tr1 = [] /\ tr2 = [EvClose] /\ r = Done ()).
Proof.
  intros [Hs|(typ & path & tr' & Ht & Hl & -> & He)]%HandleStream_starts; [by left|right].
  unfold serve in He. destruct (Z.eqb_spec typ 0) as [->|H0].
  { apply exec_node_in in He as (tr1 & tr2 & o & -> & Hp & Ho).
    exists 0, path, tr1, tr2. split_and!; try done. eauto. }
  destruct (Z.eqb_spec typ 1) as [->|H1].
  { apply exec_node_in in He as (tr1 & tr2 & o & -> & Hp & Ho).
    exists 1, path, tr1, tr2. split_and!; try done. eauto. }
  destruct He as ([] & ? & _ & -> & -> & ->). by exists typ, path, [], [EvClose].
Qed.

(** The reads of a program. *)
Lemma reads_bounded {A} (B : Z -> Prop) (p : prog A) tr n r :
  uses (fun o => match o with OReadFull n => B n | _ => True end) p -> partial p tr -> EvRead n r ∈ tr -> B n.
Proof.
  intros Hp Htr Hin. pose proof (partial_ops _ _ _ Hp Htr) as Hops. rewrite Forall_forall in Hops.
  destruct (Hops _ Hin) as (o & a & He & Ho). destruct o; try discriminate He. by injection He as <- _.
Qed.

(** C33: the buffers a peer can ask for.  A sender never allocates more than four
    bytes to read from its peer; a server less than 4 GiB at a time, but
    for every size below that a peer gets it with the eight bytes of a type and a
    length, before it has sent any of the data. *)
Theorem read_buffers fuel path :
  (forall tr n r, partial (SendFile fuel path) tr -> EvRead n r ∈ tr -> 0 <= n <= 4) /\
  (forall tr n r, partial (HandleStream fuel) tr -> EvRead n r ∈ tr -> 0 <= n < 2 ^ 32) /\
  (forall n, 0 <= n < 2 ^ 32 -> exists tr, partial (HandleStream fuel) (tr ++ [EvRead n (Err EOF)]) /\
     length (flow tr) = 8%nat).
Proof.
  split_and!.
  - intros tr n r. apply (reads_bounded (fun n => 0 <= n <= 4)).
    eapply does_mono; [|done|apply SendFile_ops]. by intros [].
  - intros tr n r. apply (reads_bounded (fun n => 0 <= n < 2 ^ 32)).
    assert (HS : forall path', uses (fun o => match o with OReadFull n => 0 <= n < 2 ^ 32 | _ => True end) (SendFile fuel path')).
    { intros path'. eapply does_mono; [|done|apply SendFile_ops]. intros []; try done. cbn. lia. }
    assert (HR : uses (fun o => match o with OReadFull n => 0 <= n < 2 ^ 32 | _ => True end) (RecieveFile fuel)).
    { eapply does_mono; [|done|apply RecieveFile_ops]. by intros []. }
    unfold HandleStream, handleBody. apply does_defer; [done|].
    split; [done|]. intros [b1|e]; [|done]. split; [done|]. intros [b2|e]; [|done].
    split; [apply Uint32_range|]. intros [b3|e]; [|done]. cbn [bind].
    destruct (Uint32 b1 =? 0); [by apply uses_bind|]. destruct (Uint32 b1 =? 1); [by apply uses_bind|done].
  - intros n Hn. exists [EvRead 4 (Ok (PutUint32 0)); EvRead 4 (Ok (PutUint32 n))]. split; [|done].
    right. exists (Ok (PutUint32 0)), [EvRead 4 (Ok (PutUint32 n)); EvRead n (Err EOF)]. split_and!; [done|done|].
    right. exists (Ok (PutUint32 n)), [EvRead n (Err EOF)]. split_and!; [done|done|].
    cbn [bind defer]. rewrite Uint32_PutUint32' by done. right. exists (Err EOF), []. split_and!; [done|done|apply partial_nil].
Qed.

(** The name in a header is used as it is.  For every valid header, also one
    whose name contains ../ or slashes, the receiver creates (and truncates)
    the file whose path is ./received/ followed by that name. *)
Lemma received_path_unchecked h w :
  header_valid h ->
  exists s w' next, eval (stepReceiverReceiveHeader (set_state (NewSession RoleReceiver) StateReceiveHeader))
      w (headerBytes h) = Some (Done (s, Ok next), w', [], []) /\
    w_files w' = <["./received/" +:+ md_Name h := []]> (w_files w).
Proof.
  intros Hh. destruct (eval_receiver_header h w Hh) as (w' & He & Hf & _).
  by eexists _, w', _.
Qed.

(** ** A whole request *)

(** The two processes with an open stream between them: [l] is the sender. *)
Definition node_start (l r : prog unit) (wS wR : World) : system unit unit :=
  mkSystem (mkParty l wS [] false) (mkParty r wR [] false).

(** Both processes are done and have closed the stream; the file is there. *)
Definition exchanged (path : string) (content : bytes) (wS wR : World) (t : system unit unit) : Prop :=
  p_prog (left_end t) = Ret () /\ p_prog (right_end t) = Ret () /\
  p_closed (left_end t) = true /\ p_closed (right_end t) = true /\
  w_files (p_world (left_end t)) = w_files wS /\
  w_files (p_world (right_end t)) = <["./received/" +:+ basename path := content]> (w_files wR).

(** The transfer inside the two processes, then the two deferred closes. *)
Lemma transfer_and_close `{!LegacyKeccak256Spec} s fuelS fuelR path content wS wR :
  enough_fuel fuelS -> enough_fuel fuelR -> w_files wS !! path = Some content ->
  len content <= (2 ^ 32 - 1) * ChunkSize -> len (bytes_of_string (basename path)) < 2 ^ 32 ->
  talks s (node_start (node_in (SendFile fuelS path)) (node_in (RecieveFile fuelR)) wS wR) ->
  exists n t, exchanged path content wS wR t /\ terminal t /\
    forall m s', sys_steps m s s' -> (m <= n)%nat /\ sys_steps (n - m) s' t.
Proof.
  intros HfS HfR Hp Hc Hn Hs.
  destruct (transfer_talks fuelS fuelR path content wS wR HfS HfR Hp Hc Hn)
    as (wS' & wR' & Ht & HS & HR).
  apply (talks_inside _ _ _ _ node_in_context node_in_context) in Ht.
  destruct (talks_steps _ _ (talks_trans _ _ _ Hs Ht)) as [n Hn'].
  set (t := mkSystem (mkParty (Ret ()) wS' [] true) (mkParty (Ret ()) wR' [] true) : system unit unit).
  assert (Hterm : terminal t) by done.
  exists (n + 2)%nat, t. split_and!; [done|done|]. apply schedule_irrelevant; [|done].
  eapply sys_steps_trans; [exact Hn'|]. eapply sys_cons; [by apply sys_left|].
  eapply sys_cons; [by apply sys_right|]. apply sys_refl.
Qed.

(** A file name is no longer than its path. *)
Lemma length_until_slash l : (length (until_slash l) <= length l)%nat.
Proof. induction l as [|c l IH]; simpl; [lia|]. case_bool_decide; simpl; lia. Qed.

Lemma length_drop_slashes l : (length (drop_slashes l) <= length l)%nat.
Proof. induction l as [|c l IH]; simpl; [lia|]. case_bool_decide; simpl; lia. Qed.

Lemma len_bytes_of_string s :
  len (bytes_of_string s) = Z.of_nat (length (String.list_ascii_of_string s)).
Proof. unfold len, bytes_of_string, String.list_byte_of_string. by rewrite length_map. Qed.

Lemma len_basename path : len (bytes_of_string (basename path)) <= len (bytes_of_string path).
Proof.
  rewrite !len_bytes_of_string. unfold basename.
  pose proof (length_drop_slashes (rev (String.list_ascii_of_string path))) as Hd.
  destruct (drop_slashes _) as [|c l] eqn:Hl.
  - case_bool_decide as He; [subst; done|]. destruct path; [done|]. simpl. lia.
  - rewrite String.list_ascii_of_string_of_list_ascii, length_rev.
    pose proof (length_until_slash (c :: l)). rewrite length_rev in Hd. lia.
Qed.

Section request.
Context `{Hspec : !LegacyKeccak256Spec} (fuelS fuelR : nat) (path : string) (content : bytes).
Context (wS wR : World).
Hypothesis HfS : enough_fuel fuelS.
Hypothesis HfR : enough_fuel fuelR.
Hypothesis Hfile : w_files wS !! path = Some content.
Hypothesis Hsize : len content <= (2 ^ 32 - 1) * ChunkSize.
Hypothesis Hpath : len (bytes_of_string path) < 2 ^ 32.

(** GET: a client that requests a file the server has, and the server's stream
    handler, always end, whatever the schedule: both return and close the stream,
    and the client has the file under ./received/. *)
Lemma GET_correct :
  exists n t, exchanged path content wS wR t /\ terminal t /\
    forall m s, sys_steps m (node_start (HandleStream fuelS) (clientTransfer fuelR "GET" path) wS wR) s ->
      (m <= n)%nat /\ sys_steps (n - m) s t.
Proof using All.
  pose proof (len_basename path).
  apply (transfer_and_close _ fuelS fuelR); [done..|lia|].
  eapply talks_right; [|cbn [app]].
  - unfold clientTransfer, RequestFile. cbn -[requestBytes RecieveFile].
    eapply (solo_step (OWrite _)); [done|]. apply solo_refl.
  - eapply talks_left; [|apply talks_refl].
    pose proof (HandleStream_request fuelS wS 0 path [] ltac:(done) Hpath) as Hr.
    rewrite app_nil_r in Hr |- *. exact Hr.
Qed.

(** POST: the same for a client that sends its file to the server. *)
Lemma POST_correct :
  exists n t, exchanged path content wS wR t /\ terminal t /\
    forall m s, sys_steps m (node_start (clientTransfer fuelS "POST" path) (HandleStream fuelR) wS wR) s ->
      (m <= n)%nat /\ sys_steps (n - m) s t.
Proof using All.
  pose proof (len_basename path).
  apply (transfer_and_close _ fuelS fuelR); [done..|lia|].
  eapply talks_left; [|cbn [app]].
  - unfold clientTransfer, RequestFile. cbn -[requestBytes SendFile].
    eapply (solo_step (OWrite _)); [done|]. apply solo_refl.
  - eapply talks_right; [|apply talks_refl].
    pose proof (HandleStream_request fuelR wR 1 path [] ltac:(done) Hpath) as Hr.
    rewrite app_nil_r in Hr |- *. exact Hr.
Qed.

End request.

End nodes.
