(* ===== verification/Store.v ===== *)
(** * Store: a server as a store of files

    The abstract specification of a server: a map from paths to contents, GET
    looks a path up, POST stores under ./received/ and the last element of the
    client's path.  The concrete system is the server's machine and, one after
    another, clients that each run one request to its end under any schedule.
    The main result is that the two have the same histories. *)

From S2P Require Import Prelude Effects AesGcm Protocol Utils Merkle Wire Controllers Flow.
From S2P Require Import SenderSpec Network Honest EndToEnd Nodes.

(** ** The abstract store *)

Inductive request : Type := Get (path : string) | Post (path : string) (content : bytes).

Definition stored_as (path : string) : string := "./received/" +:+ basename path.

Abbreviation store := (gmap string bytes).

(** A request, its reply and the store after it. *)
Inductive store_step (st : store) : request -> option bytes -> store -> Prop :=
| st_get path content : st !! path = Some content -> store_step st (Get path) (Some content) st
| st_post path content : store_step st (Post path content) None (<[stored_as path := content]> st).

(** A history of requests with their replies. *)
Inductive store_run (st : store) : list (request * option bytes) -> store -> Prop :=
| sr_nil : store_run st [] st
| sr_cons rq reply st1 l st2 :
    store_step st rq reply st1 -> store_run st1 l st2 -> store_run st ((rq, reply) :: l) st2.

Lemma store_run_app st l1 l2 st2 :
  store_run st (l1 ++ l2) st2 -> exists st1, store_run st l1 st1 /\ store_run st1 l2 st2.
Proof.
  revert st. induction l1 as [|[rq reply] l1 IH]; intros st Hr; [exists st; split; [constructor|done]|].
  inversion Hr as [|? ? st1 ? ? H1 H2]; subst. destruct (IH _ H2) as (st3 & Ha & Hb).
  exists st3. split; [by eapply sr_cons|done].
Qed.

(** Requests that store nothing under [key]. *)
Lemma store_run_keeps st l st' key :
  store_run st l st' -> (forall p c r, (Post p c, r) ∈ l -> stored_as p <> key) -> st' !! key = st !! key.
Proof.
  induction 1 as [|st rq reply st1 l st2 H1 _ IH]; [done|]. intros Hk.
  rewrite IH by (intros p c r Hin; apply (Hk p c r); set_solver).
  destruct H1 as [|p c]; [done|]. apply lookup_insert_ne. apply (Hk p c None). set_solver.
Qed.

(** ** The server *)

Section server.
Context `{LegacyKeccak256} (fuel : nat).

(** One client: its request runs to its end under some schedule, and the server
    is still there.  The reply to a GET is the file the client has then. *)
Inductive exchange (w : World) : request -> option bytes -> World -> Prop :=
| ex_get path wC m t :
    sys_steps m (node_start (HandleStream fuel) (clientTransfer fuel "GET" path) w wC) t -> terminal t ->
    p_prog (left_end t) = Ret () ->
    exchange w (Get path) (w_files (p_world (right_end t)) !! stored_as path) (p_world (left_end t))
| ex_post path content wC m t :
    w_files wC !! path = Some content ->
    sys_steps m (node_start (clientTransfer fuel "POST" path) (HandleStream fuel) wC w) t -> terminal t ->
    p_prog (right_end t) = Ret () ->
    exchange w (Post path content) None (p_world (right_end t)).

Inductive served_all (w : World) : list (request * option bytes) -> World -> Prop :=
| sa_nil : served_all w [] w
| sa_cons rq reply w1 l w2 :
    exchange w rq reply w1 -> served_all w1 l w2 -> served_all w ((rq, reply) :: l) w2.

(** ** One request *)

(** An endpoint that has halted stays so. *)
Lemma left_halt_stays {A B} n (s t : system A B) h :
  sys_steps n s t -> p_prog (left_end s) = Halt h -> p_prog (left_end t) = Halt h.
Proof.
  induction 1 as [s|n s1 s2 s3 H12 _ IH]; [done|]. intros Hh. apply IH.
  destruct H12 as [s2 H12|s2 H12]; revert H12.
  - unfold step_left, pstep. by rewrite Hh.
  - unfold step_right. by destruct (pstep _ _) as [[r b]|]; [|done]; intros [= <-].
Qed.

(** A GET for a file that is not there ends the server. *)
Lemma missing_halts path w wC m t :
  len (bytes_of_string path) < 2 ^ 32 -> w_files w !! path = None ->
  sys_steps m (node_start (HandleStream fuel) (clientTransfer fuel "GET" path) w wC) t -> terminal t ->
  p_prog (left_end t) <> Ret ().
Proof.
  intros Hp Hn Hm Ht. set (s := node_start _ _ _ _) in Hm.
  assert (exists k s1 h, sys_steps k s s1 /\ p_prog (left_end s1) = Halt h) as (k & s1 & h & Hk & Hh).
  { assert (talks s (mkSystem (mkParty (serve fuel 0 path) w [] false)
      (mkParty (node_in (RecieveFile fuel)) wC [] false))) as [k Hk]%talks_steps.
    { eapply talks_right; [|cbn [app]].
      - unfold clientTransfer, RequestFile. cbn -[requestBytes RecieveFile].
        eapply (solo_step (OWrite _)); [done|]. apply solo_refl.
      - eapply talks_left; [|apply talks_refl].
        pose proof (HandleStream_request fuel w 0 path [] ltac:(done) Hp) as Hr.
        rewrite app_nil_r in Hr |- *. exact Hr. }
    eexists (k + 1)%nat, _, _. split; [eapply sys_steps_trans; [exact Hk|]|].
    - eapply sys_cons; [|apply sys_refl]. apply sys_left. unfold step_left, pstep, serve. cbn. by rewrite Hn.
    - done. }
  destruct (sys_steps_bounded _ _ _ _ _ Hm Ht Hk) as [_ Hst].
  by rewrite (left_halt_stays _ _ _ _ Hst Hh).
Qed.

Lemma terminal_stays {A B} n (t t' : system A B) : terminal t -> sys_steps n t t' -> t = t'.
Proof. intros Ht Hs. destruct Hs as [|n s1 s2 s3 H1]; [done|]. by apply terminal_no_step in H1. Qed.

Hypothesis Hfuel : enough_fuel fuel.
Context `{!LegacyKeccak256Spec}.

(** The bounds of the program: what fits into its 32-bit fields. *)
Definition small (content : bytes) : Prop := len content <= (2 ^ 32 - 1) * ChunkSize.
Definition request_ok (rq : request) : Prop :=
  match rq with
  | Get path => len (bytes_of_string path) < 2 ^ 32
  | Post path content => len (bytes_of_string path) < 2 ^ 32 /\ small content
  end.
Definition store_ok (st : store) : Prop := map_Forall (fun _ c => small c) st.

Lemma store_step_ok st rq reply st' : request_ok rq -> store_ok st -> store_step st rq reply st' -> store_ok st'.
Proof. intros Hrq Hst Hs. destruct Hs; [done|]. by apply map_Forall_insert_2; [apply Hrq|]. Qed.

Lemma exchange_sound w rq reply w' :
  request_ok rq -> store_ok (w_files w) -> exchange w rq reply w' ->
  store_step (w_files w) rq reply (w_files w').
Proof using All.
  intros Hrq Hst Hx. destruct Hx as [path wC m t Hm Ht Hret|path content wC m t Hc Hm Ht _].
  - destruct (w_files w !! path) as [content|] eqn:Hf; [|by destruct (missing_halts path w wC m t Hrq Hf Hm Ht)].
    destruct (GET_correct fuel fuel path content w wC Hfuel Hfuel Hf (Hst _ _ Hf) Hrq) as (n & t' & Hx & Ht' & Hall).
    destruct (Hall _ _ Hm) as [_ ->%(terminal_stays _ _ _ Ht)].
    destruct Hx as (_ & _ & _ & _ & -> & ->). unfold stored_as. rewrite lookup_insert_eq. by apply st_get.
  - destruct Hrq as [Hp Hs].
    destruct (POST_correct fuel fuel path content wC w Hfuel Hfuel Hc Hs Hp) as (n & t' & Hx & Ht' & Hall).
    destruct (Hall _ _ Hm) as [_ ->%(terminal_stays _ _ _ Ht)].
    destruct Hx as (_ & _ & _ & _ & _ & ->). apply st_post.
Qed.

Lemma exchange_complete w rq reply st :
  request_ok rq -> store_ok (w_files w) -> store_step (w_files w) rq reply st ->
  exists w', exchange w rq reply w' /\ w_files w' = st.
Proof using All.
  intros Hrq Hst Hs. destruct Hs as [path content Hf|path content].
  - destruct (GET_correct fuel fuel path content w w Hfuel Hfuel Hf (Hst _ _ Hf) Hrq)
      as (n & t & (Hl & _ & _ & _ & HfL & HfR) & Ht & Hall).
    destruct (Hall _ _ (sys_refl _)) as [_ Hrun]. exists (p_world (left_end t)). split; [|done].
    replace (Some content) with (w_files (p_world (right_end t)) !! stored_as path);
      [by eapply ex_get|by rewrite HfR, lookup_insert_eq].
  - destruct Hrq as [Hp Hsm]. set (wC := set_files w {[path := content]}).
    assert (Hc : w_files wC !! path = Some content) by (apply lookup_singleton_eq).
    destruct (POST_correct fuel fuel path content wC w Hfuel Hfuel Hc Hsm Hp)
      as (n & t & (_ & Hr & _ & _ & _ & HfR) & Ht & Hall).
    destruct (Hall _ _ (sys_refl _)) as [_ Hrun]. exists (p_world (right_end t)). split; [|done].
    by eapply ex_post.
Qed.

(** ** Histories *)

Lemma served_sound w l w' :
  store_ok (w_files w) -> Forall (fun x => request_ok x.1) l -> served_all w l w' ->
  store_run (w_files w) l (w_files w').
Proof using All.
  intros Hst Hl Hs. revert Hst Hl. induction Hs as [w|w rq reply w1 l w2 He Hs IH]; [by constructor|].
  intros Hst [Hrq Hl]%Forall_cons. pose proof (exchange_sound w rq reply w1 Hrq Hst He) as H1.
  eapply sr_cons; [exact H1|]. apply IH; [by eapply store_step_ok|done].
Qed.

Lemma served_complete w l st :
  store_ok (w_files w) -> Forall (fun x => request_ok x.1) l -> store_run (w_files w) l st ->
  exists w', served_all w l w' /\ w_files w' = st.
Proof using All.
  intros Hst Hl Hr. remember (w_files w) as st0 eqn:Hw. revert w Hw Hst Hl.
  induction Hr as [st|st rq reply st1 l st2 H1 _ IH]; intros w -> Hst Hl; [by exists w; split; [constructor|]|].
  apply Forall_cons in Hl as [Hrq Hl].
  destruct (exchange_complete w rq reply st1 Hrq Hst H1) as (w1 & He & Hf1).
  destruct (IH w1) as (w' & Hs & Hf'); [done|by eapply store_step_ok|done|].
  exists w'. split; [by eapply sa_cons|done].
Qed.

(** ** Properties *)

(** C5: a server is a store.  Whatever clients ask it one after another, with any
    schedule of each exchange: as long as the server lives, the replies and its
    files are those of the abstract store; and every history of the store is one
    of the server. *)
Theorem server_refines_store w l st :
  store_ok (w_files w) -> Forall (fun x => request_ok x.1) l ->
  (exists w', served_all w l w' /\ w_files w' = st) <-> store_run (w_files w) l st.
Proof using All.
  intros Hst Hl. split; [|by apply served_complete]. intros (w' & Hs & <-). by apply served_sound.
Qed.

(** C11: what was uploaded can be fetched.  A client's POST, then any requests that
    do not upload the same name again, then a GET of the path the upload was
    stored under: the reply is the uploaded contents, byte for byte. *)
Theorem post_then_get w l1 path content l2 reply w' :
  store_ok (w_files w) ->
  Forall (fun x => request_ok x.1) (l1 ++ (Post path content, None) :: l2 ++ [(Get (stored_as path), reply)]) ->
  served_all w (l1 ++ (Post path content, None) :: l2 ++ [(Get (stored_as path), reply)]) w' ->
  (forall p c r, (Post p c, r) ∈ l2 -> basename p <> basename path) ->
  reply = Some content.
Proof using All.
  intros Hst Hl Hs%served_sound Hk; [|done|done].
  apply store_run_app in Hs as (st1 & _ & Hr). inversion Hr as [|? ? st2 ? ? H1 Hr2]; subst.
  apply store_run_app in Hr2 as (st3 & Hr2 & Hr3). inversion Hr3 as [|? ? st4 ? ? H3 _]; subst.
  inversion H3 as [? c Hc|]; subst. rewrite (store_run_keeps _ _ _ _ Hr2) in Hc.
  - inversion H1; subst. by rewrite lookup_insert_eq in Hc.
  - intros p c' r Hin Heq. apply (Hk p c' r Hin). by apply (inj (String.append "./received/")).
Qed.

End server.
