(* ===== verification/Concurrent.v ===== *)
(** * Concurrent: one server process and all its streams

    libp2p calls [HandleStream] in a goroutine of its own for every stream a
    peer opens.  The goroutines share the disk of the machine and the process:
    [log.Fatal] or a panic in one of them ends all.  A server is the machine and
    the goroutines with their histories; its steps are interleaved in any
    order, and the peers may send anything. *)

From S2P Require Import Prelude Effects AesGcm Protocol Utils Merkle Wire Controllers Operations Flow.
From S2P Require Import SenderSpec ReceiverSpec Network Honest EndToEnd ChunkSpec Copy Nodes.

(** ** The process *)

Record thread := mkThread { t_prog : prog unit; t_hist : list event }.

Record server := mkServer { sv_world : World; sv_threads : list thread }.

(** A goroutine that has called [log.Fatal] or panicked: the process is gone. *)
Definition is_halted (p : prog unit) : bool := match p with Halt _ => true | _ => false end.

Definition alive (s : server) : Prop :=
  Forall (fun t => is_halted (t_prog t) = false) (sv_threads s).

(** Operations on the stream, answered by the peer. *)
Definition is_stream_op (o : op) : bool :=
  match o with OReadFull _ | OWrite _ | OClose | OReset => true | _ => false end.

(** Goroutine [i] has performed [o] and got [a]. *)
Definition advance (s : server) (w : World) (i : nat) (t : thread) (o : op) (k : ans o -> prog unit)
    (a : ans o) : server :=
  mkServer w (<[i := mkThread (k a) (t_hist t ++ [event_of o a])]> (sv_threads s)).

Section server.
Context `{LegacyKeccak256} (fuel : nat).

Definition accept (s : server) : server :=
  mkServer (sv_world s) (sv_threads s ++ [mkThread (HandleStream fuel) []]).

Inductive sv_step (s : server) : server -> Prop :=
| sv_accept : alive s -> sv_step s (accept s)
| sv_local i t o k a w :
    alive s -> sv_threads s !! i = Some t -> t_prog t = Vis o k ->
    world_answer o (sv_world s) = Some (a, w) -> wf_event (event_of o a) ->
    sv_step s (advance s w i t o k a)
| sv_stream i t o k a :
    alive s -> sv_threads s !! i = Some t -> t_prog t = Vis o k ->
    is_stream_op o = true -> wf_event (event_of o a) ->
    sv_step s (advance s (sv_world s) i t o k a).

(** An executable schedule: who moves next, or [None] for a new stream.
    [inboxes] are the bytes the peers send; what the server writes is accepted. *)
Definition sv_move (i : nat) (s : server) (inboxes : list bytes) : option (server * list bytes) :=
  t ← sv_threads s !! i;
  match t_prog t with
  | Vis o k =>
      match o return (ans o -> prog unit) -> option (server * list bytes) with
      | OReadFull n => fun k =>
          inb ← inboxes !! i;
          let '(r, inb') := read_closed n inb in
          if decide (wf_event (EvRead n r))
          then Some (advance s (sv_world s) i t (OReadFull n) k r, <[i := inb']> inboxes) else None
      | OWrite b => fun k => Some (advance s (sv_world s) i t (OWrite b) k None, inboxes)
      | OClose => fun k => Some (advance s (sv_world s) i t OClose k tt, inboxes)
      | OReset => fun k => Some (advance s (sv_world s) i t OReset k tt, inboxes)
      | o => fun k =>
          '(a, w) ← world_answer o (sv_world s);
          if decide (wf_event (event_of o a)) then Some (advance s w i t o k a, inboxes) else None
      end k
  | _ => None
  end.

#[global] Instance alive_dec s : Decision (alive s).
Proof. unfold alive. apply _. Defined.

Fixpoint play (sched : list (option nat)) (s : server) (inboxes : list bytes) : option server :=
  match sched with
  | [] => Some s
  | None :: sched => if decide (alive s) then play sched (accept s) inboxes else None
  | Some i :: sched =>
      if decide (alive s) then '(s', inboxes') ← sv_move i s inboxes; play sched s' inboxes' else None
  end.

Lemma sv_move_step i s inboxes s' inboxes' :
  alive s -> sv_move i s inboxes = Some (s', inboxes') -> sv_step s s'.
Proof.
  intros Ha. unfold sv_move. destruct (sv_threads s !! i) as [t|] eqn:Ht; [|done].
  cbn [mbind option_bind].
  destruct (t_prog t) as [a|h|o k] eqn:Hp; [done|done|].
  assert (Hlocal : forall a w, world_answer o (sv_world s) = Some (a, w) -> wf_event (event_of o a) ->
    sv_step s (advance s w i t o k a)) by (intros; by eapply sv_local).
  destruct o;
    try (destruct (world_answer _ _) as [[a w]|]; [|done]; cbn [mbind option_bind]; case_decide; [|done];
         intros [= <- <-]; by apply Hlocal).
  - destruct (inboxes !! i) as [inb|]; [|done]. cbn. destruct (read_closed n inb) as [r inb2].
    case_decide; [|done]. intros [= <- <-]. by apply (sv_stream s i t (OReadFull n)).
  - intros [= <- <-]. by apply (sv_stream s i t (OWrite b)).
  - intros [= <- <-]. by apply (sv_stream s i t OClose).
  - intros [= <- <-]. by apply (sv_stream s i t OReset).
Qed.

Lemma play_steps sched s inboxes s' : play sched s inboxes = Some s' -> rtc sv_step s s'.
Proof.
  revert s inboxes. induction sched as [|[i|] sched IH]; intros s inboxes; cbn.
  - by intros [= ->].
  - case_decide as Ha; [|done]. destruct (sv_move i s inboxes) as [[s1 inb1]|] eqn:Hm; [|done].
    intros Hp%IH. eapply rtc_l; [by eapply sv_move_step|done].
  - case_decide as Ha; [|done]. intros Hp%IH. eapply rtc_l; [by apply sv_accept|done].
Qed.

(** ** What a stream may do to the disk *)

(** A history that creates at most one file and writes only to that one. *)
Definition owned (tr : list event) : Prop :=
  untouched tr \/ exists p f, creates tr = [(p, f)] /\ Forall (fun x => x.1 = f) (file_writes tr).

Lemma owned_untouched tr0 tr : untouched tr0 -> owned tr -> owned (tr0 ++ tr).
Proof.
  intros Hu [Hn|(p & f & Hc & Hw)]; [left; by apply untouched_app|right].
  exists p, f. destruct Hu as [Hw0 Hc0]. by rewrite creates_app, file_writes_app, Hc0, Hw0.
Qed.

Lemma owned_quiet tr e : untouched [e] -> owned tr -> owned (tr ++ [e]).
Proof.
  intros He [Hn|(p & f & Hc & Hw)]; [left; by apply untouched_app|right].
  exists p, f. destruct He as [Hw0 Hc0]. by rewrite creates_app, file_writes_app, Hc0, Hw0, !app_nil_r.
Qed.

Lemma receiver_owned tr : receiver_safe tr -> owned tr.
Proof.
  intros [_ [Hu|(h & f & cs & _ & _ & _ & Hc & Hw & _)]]; [by left|right].
  eexists _, f. split; [exact Hc|]. rewrite Hw. apply Forall_fmap, Forall_true. done.
Qed.

(** A rule for the stream handler: what holds of a transfer after its request
    holds of the stream. *)
Lemma wp_handle (I Q : list event -> Prop) :
  (forall tr e, e = EvClose \/ e = EvReset -> (I tr -> I (tr ++ [e])) /\ (Q tr -> Q (tr ++ [e]))) ->
  (forall tr, Forall is_read tr -> I tr /\ Q tr) ->
  (forall path, is_u32 (len path) ->
     wp I (SendFile fuel (string_of_bytes path)) (fun r tr' => match r with Done _ => Q tr' | _ => True end)
       (requested 0 path)) ->
  (forall path, is_u32 (len path) ->
     wp I (RecieveFile fuel) (fun r tr' => match r with Done _ => Q tr' | _ => True end) (requested 1 path)) ->
  wp I (HandleStream fuel) (fun r tr' => match r with Done _ => Q tr' | _ => True end) [].
Proof.
  intros Hend Hstart Hsend Hrecv. unfold HandleStream. apply wp_defer.
  eapply wp_mono with (Q := fun r tr => I tr /\ match r with Done _ => Q tr | _ => True end).
  2:{ intros [a|[]] tr [HI HQ]; cbn; try done; intros [] _; cbn; (split; [|try done]); apply Hend; auto. }
  apply wp_keep; [by apply Hstart|]. unfold handleBody. cbn [perform bind].
  assert (Hread : forall n (k : ans (OReadFull n) -> prog unit) tr (Q' : outcome unit -> list event -> Prop),
    Forall is_read tr ->
    (forall b, len b = n -> wp I (k (Ok b)) Q' (tr ++ [EvRead n (Ok b)])) ->
    (forall e, k (Err e) = perform OReset) -> (forall tr', Q tr' -> Q' (Done tt) tr') ->
    wp I (Vis (OReadFull n) k) Q' tr).
  { intros n k tr Q' Hu HOk HErr HQ r Hwf. cbn [event_of].
    assert (Hr : Forall is_read (tr ++ [EvRead n r])) by (apply Forall_app; split; [done|by repeat constructor]).
    split; [by apply Hstart|]. destruct r as [b|e]; [by apply HOk|]. rewrite HErr. intros [] _.
    destruct (Hstart _ Hr). split; [|apply HQ]; apply Hend; auto. }
  apply Hread; [done| |done|done]. intros b1 H1. rewrite <-(len4 b1 H1), Uint32_PutUint32' by apply Uint32_range.
  apply Hread; [by repeat constructor| |done|done]. intros b2 H2.
  rewrite <-(len4 b2 H2), Uint32_PutUint32' by apply Uint32_range.
  apply Hread; [by repeat constructor| |done|done]. intros b3 H3.
  assert (Hl : is_u32 (len b3)) by (rewrite H3; apply Uint32_range).
  rewrite <-H3. cbn [app]. fold (requested (Uint32 b1) b3).
  destruct (Z.eqb_spec (Uint32 b1) 0) as [->|_]; [|destruct (Z.eqb_spec (Uint32 b1) 1) as [->|_]];
    [apply wp_bind_halt..|by apply Hstart, requested_reads].
  - eapply wp_mono; [by apply Hsend|by intros []].
  - eapply wp_mono; [by apply Hrecv|by intros []].
Qed.

(** Whatever the peer does, a stream creates at most one file and writes only
    to it. *)
Lemma wp_HandleStream : enough_fuel fuel -> wp owned (HandleStream fuel) (fun _ _ => True) [].
Proof.
  intros Hfuel. eapply wp_mono; [apply (wp_handle owned (fun _ => True))|done].
  - intros tr e He. split; [|done]. apply owned_quiet. by destruct He as [-> | ->].
  - intros tr Hr. split; [|done]. left. by apply untouched_reads.
  - intros path _. eapply wp_mono; [|by intros []]. apply (wp_weaken untouched); [by left|].
    apply (wp_uses untouched sender_op); [|apply SendFile_ops|by apply untouched_reads, requested_reads].
    intros tr' [] a Ho Hu; try done; by apply untouched_app.
  - intros path _. rewrite <-(app_nil_r (requested 1 path)). eapply wp_after; [| |by apply wp_RecieveFile].
    + intros tr' Hs. by apply owned_untouched, receiver_owned; [apply untouched_reads, requested_reads|].
    + by intros [].
Qed.

(** ** The disk and the histories *)

(** No other stream has created the file [p]. *)
Definition exclusive (hs : list (list event)) (i : nat) (p : string) : Prop :=
  forall j tr f, j <> i -> hs !! j = Some tr -> creates tr <> [(p, f)].

(** What holds of the machine and the histories of the streams: the handle a
    stream created is open for its file or closed, no two streams have the same
    handle, and the file of a stream that shares its name with no other one
    holds what the stream has written. *)
Record disk_inv (w : World) (hs : list (list event)) : Prop := {
  di_handle i tr p f : hs !! i = Some tr -> creates tr = [(p, f)] ->
    exists x, w_handles w !! f = Some x /\ (x = None \/ exists off, x = Some (p, off));
  di_unique i j tri trj p q f : hs !! i = Some tri -> hs !! j = Some trj ->
    creates tri = [(p, f)] -> creates trj = [(q, f)] -> i = j;
  di_content i tr p f : hs !! i = Some tr -> creates tr = [(p, f)] -> exclusive hs i p ->
    w_files w !! p = Some (copied tr) /\
    (w_handles w !! f = Some None \/ w_handles w !! f = Some (Some (p, length (copied tr))))
}.

(** A machine that has at most opened and closed files. *)
Definition mild (w w' : World) : Prop :=
  w_files w' = w_files w /\
  forall f x, w_handles w !! f = Some x -> w_handles w' !! f = Some x \/ w_handles w' !! f = Some None.

Lemma mild_refl w : mild w w.
Proof. split; auto. Qed.

(** What the machine does on an operation that touches no file. *)
Lemma answer_mild o a w w' :
  world_answer o w = Some (a, w') -> untouched [event_of o a] -> mild w w'.
Proof.
  intros Hw Hu. destruct o; cbn in Hw; try done.
  - injection Hw as <- <-. split; auto.
  - injection Hw as <- <-. apply mild_refl.
  - destruct (w_files w !! path); injection Hw as <- <-; [|apply mild_refl].
    split; [done|]. intros f x Hf. left. by apply lookup_app_l_Some.
  - destruct (open_file w f) as [[[p off] c]|]; injection Hw as <- <-; apply mild_refl.
  - destruct (open_file w f) as [[[p off'] c]|]; [case_decide|]; injection Hw as <- <-; apply mild_refl.
  - injection Hw as <- <-. apply mild_refl.
  - injection Hw as <- <-. by destruct Hu.
  - destruct (open_file w f) as [[[p off] c]|]; injection Hw as <- <-; [by destruct Hu|apply mild_refl].
  - destruct (w_handles w !! f) as [[x|]|] eqn:Hf; injection Hw as <- <-; try apply mild_refl.
    split; [done|]. intros g y Hg. cbn [w_handles set_handles].
    destruct (decide (g = f)) as [->|Hne]; [right|left; by rewrite list_lookup_insert_ne].
    apply list_lookup_insert_eq. by apply lookup_lt_Some in Hf.
Qed.

(** Creating a file and writing to one are the only other operations. *)
Lemma answer_touches o a w w' :
  world_answer o w = Some (a, w') ->
  untouched [event_of o a] \/
  (exists p, event_of o a = EvCreate p (Ok (length (w_handles w))) /\
     w' = set_handles (set_files w (<[p := []]> (w_files w))) (w_handles w ++ [Some (p, 0%nat)])) \/
  exists f b p off c, event_of o a = EvFileWrite f b None /\ open_file w f = Some (p, off, c) /\
    w' = set_handles (set_files w (<[p := take off c ++ b ++ drop (off + length b) c]> (w_files w)))
           (<[f := Some (p, (off + length b)%nat)]> (w_handles w)).
Proof.
  intros Hw. destruct o; try by left.
  - injection Hw as <- <-. right; left. eauto.
  - cbn in Hw. destruct (open_file w f) as [[[p off] c]|] eqn:Hof; injection Hw as <- <-; [|by left].
    right; right. eauto 10.
Qed.

Lemma copied_app tr tr' : copied (tr ++ tr') = copied tr ++ copied tr'.
Proof. unfold copied. by rewrite file_writes_app, fmap_app, concat_app. Qed.

Lemma copied_same tr evs : untouched evs -> copied (tr ++ evs) = copied tr.
Proof. intros [He _]. rewrite copied_app. unfold copied at 2. by rewrite He, app_nil_r. Qed.

(** The histories after an event that touches no file. *)
Lemma hist_same (hs : list (list event)) i tr evs j tr' :
  untouched evs -> hs !! i = Some tr -> <[i := tr ++ evs]> hs !! j = Some tr' ->
  exists tr0, hs !! j = Some tr0 /\ creates tr' = creates tr0 /\ copied tr' = copied tr0.
Proof.
  intros He Hi [(<- & <- & _)|[_ Hj]]%list_lookup_insert_Some; [|by exists tr'].
  exists tr. by rewrite creates_same, copied_same.
Qed.

Lemma exclusive_same hs i tr evs j p :
  untouched evs -> hs !! i = Some tr -> exclusive (<[i := tr ++ evs]> hs) j p -> exclusive hs j p.
Proof.
  intros He Hi Hx j' tr' f Hne Hj. destruct (decide (j' = i)) as [->|Hi'].
  - rewrite Hi in Hj. injection Hj as <-. rewrite <-(creates_same tr evs He).
    apply (Hx i); [done|]. apply list_lookup_insert_eq. by apply lookup_lt_Some in Hi.
  - apply (Hx j'); [done|]. by rewrite list_lookup_insert_ne by done.
Qed.

Lemma disk_mild w w' hs i tr evs :
  disk_inv w hs -> hs !! i = Some tr -> untouched evs -> mild w w' ->
  disk_inv w' (<[i := tr ++ evs]> hs).
Proof.
  intros [Hh Hu Hc] Hi He [Hf Hm]. split.
  - intros j tr' p f (tr0 & Hj & -> & _)%hist_same Hcr; [|done..].
    destruct (Hh _ _ _ _ Hj Hcr) as (x & Hx & Hp). destruct (Hm f x Hx); eauto.
  - intros j k trj trk p q f (tr1 & Hj & -> & _)%hist_same (tr2 & Hk & -> & _)%hist_same; [|done..].
    by eapply Hu.
  - intros j tr' p f (tr0 & Hj & -> & ->)%hist_same Hcr Hx; [|done..].
    apply exclusive_same in Hx; [|done..]. destruct (Hc _ _ _ _ Hj Hcr Hx) as [Hp Hhd].
    rewrite Hf. split; [done|]. destruct Hhd as [Hhd|Hhd]; destruct (Hm _ _ Hhd); auto.
Qed.

Lemma disk_accept w hs : disk_inv w hs -> disk_inv w (hs ++ [[]]).
Proof.
  intros [Hh Hu Hc].
  assert (Hl : forall i tr p f, (hs ++ [[]]) !! i = Some tr -> creates tr = [(p, f)] -> hs !! i = Some tr).
  { intros i tr p f [Hi|[_ Hi]]%lookup_app_Some Hcr; [done|].
    apply list_lookup_singleton_Some in Hi as [_ <-]. done. }
  split; eauto 10.
  intros i tr p f Hi Hcr Hx. eapply Hc; [by eapply Hl|done|].
  intros j tr' f' Hne Hj. apply (Hx j); [done|]. by apply lookup_app_l_Some.
Qed.

(** A history that creates a file had created none. *)
Lemma owned_create tr p f : owned tr -> owned (tr ++ [EvCreate p (Ok f)]) -> untouched tr.
Proof.
  intros [Hu|(q & g & Hq & _)] Ho; [done|]. destruct Ho as [[_ Ho]|(q' & g' & Ho & _)];
    rewrite creates_app, Hq in Ho; done.
Qed.

Lemma disk_create w hs i tr p :
  disk_inv w hs -> hs !! i = Some tr -> untouched tr ->
  disk_inv (set_handles (set_files w (<[p := []]> (w_files w))) (w_handles w ++ [Some (p, 0%nat)]))
    (<[i := tr ++ [EvCreate p (Ok (length (w_handles w)))]]> hs).
Proof.
  intros [Hh Hu Hc] Hi [Hw0 Hc0]. set (f0 := length (w_handles w)). set (tr1 := tr ++ _).
  assert (Hcr1 : creates tr1 = [(p, f0)]) by (unfold tr1; by rewrite creates_app, Hc0).
  assert (Hcp1 : copied tr1 = []) by (unfold tr1, copied; by rewrite file_writes_app, Hw0).
  assert (Hnew : (w_handles w ++ [Some (p, 0%nat)]) !! f0 = Some (Some (p, 0%nat))) by (by apply list_lookup_middle).
  assert (Hold : forall f x, w_handles w !! f = Some x -> (w_handles w ++ [Some (p, 0%nat)]) !! f = Some x /\ f <> f0).
  { intros f x Hf. split; [by apply lookup_app_l_Some|]. apply lookup_lt_Some in Hf. unfold f0. lia. }
  assert (Hlt : (i < length hs)%nat) by (by apply lookup_lt_Some in Hi).
  assert (Hne0 : forall j tr' q f, hs !! j = Some tr' -> creates tr' = [(q, f)] -> f <> f0 /\ j <> i).
  { intros j tr' q f Hj Hcr. destruct (Hh _ _ _ _ Hj Hcr) as (x & Hx & _). split; [by eapply Hold|].
    intros ->. rewrite Hi in Hj. injection Hj as <-. by rewrite Hc0 in Hcr. }
  assert (Hin : forall j tr' q f, <[i := tr1]> hs !! j = Some tr' -> creates tr' = [(q, f)] ->
    (j = i /\ tr' = tr1 /\ q = p /\ f = f0) \/ (j <> i /\ f <> f0 /\ hs !! j = Some tr')).
  { intros j tr' q f [(<- & <- & _)|[Hne Hj]]%list_lookup_insert_Some Hcr.
    - left. rewrite Hcr1 in Hcr. by simplify_eq.
    - right. destruct (Hne0 _ _ _ _ Hj Hcr). done. }
  split; cbn [w_handles w_files set_handles set_files].
  - intros j tr' q f Hj Hcr. destruct (Hin _ _ _ _ Hj Hcr) as [(-> & -> & -> & ->)|(_ & _ & Hj')]; [eauto|].
    destruct (Hh _ _ _ _ Hj' Hcr) as (x & Hx & Hp). destruct (Hold f x Hx). eauto.
  - intros j k trj trk q q' f Hj Hk Hcj Hck.
    destruct (Hin _ _ _ _ Hj Hcj) as [(-> & -> & -> & ->)|(_ & Hf & Hj')];
      destruct (Hin _ _ _ _ Hk Hck) as [(-> & -> & -> & ?)|(_ & ? & Hk')]; try done.
    by eapply Hu.
  - intros j tr' q f Hj Hcr Hx. destruct (Hin _ _ _ _ Hj Hcr) as [(-> & -> & -> & ->)|(Hji & Hf & Hj')].
    + rewrite Hcp1, lookup_insert_eq. auto.
    + assert (Hqp : q <> p).
      { intros ->. apply (Hx i tr1 f0); [done| |done]. by apply list_lookup_insert_eq. }
      rewrite lookup_insert_ne by done. destruct (Hc j tr' q f) as [Hp Hhd]; [done|done| |].
      { intros j' tr'' f' Hne Hj''. destruct (decide (j' = i)) as [->|Hii].
        - rewrite Hi in Hj''. injection Hj'' as <-. by rewrite Hc0.
        - apply (Hx j'); [done|]. by rewrite list_lookup_insert_ne. }
      split; [done|]. destruct Hhd as [Hhd|Hhd]; [left|right]; by apply Hold.
Qed.

(** A stream that writes to a file has created it. *)
Lemma owned_write tr f b : owned (tr ++ [EvFileWrite f b None]) -> exists p, creates tr = [(p, f)].
Proof.
  intros [[Hw _]|(p & g & Hc & Hw)]; rewrite file_writes_app in Hw.
  - by apply app_nil in Hw as [_ Hw].
  - exists p. rewrite creates_app, app_nil_r in Hc. apply Forall_app in Hw as [_ Hw].
    inversion_clear Hw as [|? ? Hf _]. cbn in Hf. by subst g.
Qed.

Lemma disk_write w hs i tr p f off c b :
  disk_inv w hs -> hs !! i = Some tr -> creates tr = [(p, f)] -> open_file w f = Some (p, off, c) ->
  disk_inv (set_handles (set_files w (<[p := take off c ++ b ++ drop (off + length b) c]> (w_files w)))
      (<[f := Some (p, (off + length b)%nat)]> (w_handles w)))
    (<[i := tr ++ [EvFileWrite f b None]]> hs).
Proof.
  intros [Hh Hu Hc] Hi Hcr Hof. set (tr1 := tr ++ _).
  assert (Hcr1 : creates tr1 = [(p, f)]) by (unfold tr1; by rewrite creates_app, Hcr).
  assert (Hcp1 : copied tr1 = copied tr ++ b).
  { unfold tr1. rewrite copied_app. unfold copied at 2. cbn. by rewrite app_nil_r. }
  assert (Hfl : (f < length (w_handles w))%nat).
  { destruct (Hh _ _ _ _ Hi Hcr) as (x & Hx & _). by apply lookup_lt_Some in Hx. }
  assert (Hin : forall j tr' q g, <[i := tr1]> hs !! j = Some tr' -> creates tr' = [(q, g)] ->
    (j = i /\ tr' = tr1 /\ q = p /\ g = f) \/ (j <> i /\ g <> f /\ hs !! j = Some tr')).
  { intros j tr' q g [(<- & <- & _)|[Hne Hj]]%list_lookup_insert_Some Hcg.
    - left. rewrite Hcr1 in Hcg. by simplify_eq.
    - right. split_and!; [done| |done]. intros ->. by apply Hne, (Hu _ _ _ _ _ _ _ Hi Hj Hcr Hcg). }
  assert (Hlt : (i < length hs)%nat) by (by apply lookup_lt_Some in Hi).
  assert (Hex : forall j q, exclusive (<[i := tr1]> hs) j q -> exclusive hs j q).
  { intros j q Hx j' tr' g Hne Hj'. destruct (decide (j' = i)) as [->|Hii].
    - rewrite Hi in Hj'. injection Hj' as <-. rewrite Hcr, <-Hcr1. apply (Hx i); [done|].
      by apply list_lookup_insert_eq.
    - apply (Hx j'); [done|]. by rewrite list_lookup_insert_ne. }
  split; cbn [w_handles w_files set_handles set_files].
  - intros j tr' q g Hj Hcg. destruct (Hin _ _ _ _ Hj Hcg) as [(-> & -> & -> & ->)|(_ & Hg & Hj')].
    + rewrite list_lookup_insert_eq by done. eauto.
    + rewrite list_lookup_insert_ne by done. eauto.
  - intros j k trj trk q q' g Hj Hk Hcj Hck.
    destruct (Hin _ _ _ _ Hj Hcj) as [(-> & -> & -> & ->)|(_ & Hg & Hj')];
      destruct (Hin _ _ _ _ Hk Hck) as [(-> & -> & -> & ?)|(_ & ? & Hk')]; try done.
    by eapply Hu.
  - intros j tr' q g Hj Hcg Hx. destruct (Hin _ _ _ _ Hj Hcg) as [(-> & -> & -> & ->)|(Hji & Hg & Hj')].
    + destruct (Hc _ _ _ _ Hi Hcr (Hex _ _ Hx)) as [Hp Hhd].
      unfold open_file in Hof. destruct Hhd as [Hhd|Hhd]; rewrite Hhd in Hof; cbn in Hof; [done|].
      rewrite Hp in Hof. cbn in Hof. injection Hof as <- <-.
      rewrite lookup_insert_eq, list_lookup_insert_eq, Hcp1 by done.
      rewrite take_ge, drop_ge, app_nil_r, length_app by lia. auto.
    + assert (Hqp : q <> p).
      { intros ->. apply (Hx i tr1 f); [done| |done]. by apply list_lookup_insert_eq. }
      rewrite lookup_insert_ne, list_lookup_insert_ne by done. eauto.
Qed.

(** ** Every reachable server *)

Definition histories (s : server) : list (list event) := t_hist <$> sv_threads s.

Record sv_inv (s : server) : Prop := {
  si_thread i t : sv_threads s !! i = Some t -> leads (HandleStream fuel) (t_hist t) (t_prog t);
  si_disk : disk_inv (sv_world s) (histories s)
}.

Lemma leads_owned tr q : enough_fuel fuel -> leads (HandleStream fuel) tr q -> owned tr.
Proof.
  intros Hfuel Hl%leads_partial.
  apply (wp_partial owned _ _ [] tr (or_introl (conj eq_refl eq_refl)) (wp_HandleStream Hfuel) Hl).
Qed.

(** The disk after one operation of the machine. *)
Lemma disk_local w hs i tr o a w' :
  disk_inv w hs -> hs !! i = Some tr -> owned tr -> owned (tr ++ [event_of o a]) ->
  world_answer o w = Some (a, w') -> disk_inv w' (<[i := tr ++ [event_of o a]]> hs).
Proof.
  intros Hd Hi Ho Ho' Hw. destruct (answer_touches o a w w' Hw) as [Hu|[(p & He & ->)|(f & b & p & off & c & He & Hof & ->)]].
  - eapply disk_mild; [done|done|done|by eapply answer_mild].
  - rewrite He in *. apply disk_create; [done|done|]. by eapply owned_create.
  - rewrite He in *. destruct (owned_write _ _ _ Ho') as [q Hq]. assert (q = p) as ->; [|by apply disk_write].
    destruct (di_handle _ _ Hd _ _ _ _ Hi Hq) as (x & Hx & Hp). unfold open_file in Hof.
    rewrite Hx in Hof. cbn in Hof. destruct Hp as [->|[off' ->]]; [done|]. cbn in Hof.
    destruct (w_files w !! q); cbn in Hof; by simplify_eq.
Qed.

(** One operation of a goroutine. *)
Lemma sv_inv_advance s w i t o k a :
  enough_fuel fuel -> sv_inv s -> sv_threads s !! i = Some t -> t_prog t = Vis o k ->
  wf_event (event_of o a) ->
  (world_answer o (sv_world s) = Some (a, w) \/ is_stream_op o = true /\ w = sv_world s) ->
  sv_inv (advance s w i t o k a).
Proof.
  intros Hfuel [Ht Hd] Hi Hp Hwf Ho. pose proof (Ht i t Hi) as Hl. rewrite Hp in Hl.
  pose proof (leads_step _ _ _ _ a Hl Hwf) as Hl'.
  assert (Hh : histories s !! i = Some (t_hist t)) by (unfold histories; by rewrite list_lookup_fmap, Hi).
  split; cbn [sv_threads sv_world advance].
  - intros j t' [(<- & <- & _)|[_ Hj]]%list_lookup_insert_Some; [done|by apply (Ht j)].
  - unfold histories. cbn [sv_threads advance]. rewrite list_fmap_insert. cbn [t_hist].
    destruct Ho as [Ho|[Ho ->]].
    + by eapply disk_local; [..|exact Ho]; eauto using leads_owned.
    + eapply disk_mild; [done|done| |apply mild_refl]. by destruct o.
Qed.

Lemma sv_inv_step s s' : enough_fuel fuel -> sv_inv s -> sv_step s s' -> sv_inv s'.
Proof.
  intros Hfuel Hs [Ha|i t o k a w Ha Hi Hp Hw Hwf|i t o k a Ha Hi Hp Ho Hwf].
  - destruct Hs as [Ht Hd]. split; cbn [accept sv_threads sv_world].
    + intros i t [Hi|[_ Hi]]%lookup_app_Some; [by apply (Ht i)|].
      apply list_lookup_singleton_Some in Hi as [_ <-]. apply leads_refl.
    + unfold histories. cbn [accept sv_threads]. rewrite fmap_app. by apply disk_accept.
  - apply sv_inv_advance; auto.
  - apply sv_inv_advance; auto.
Qed.

Lemma sv_inv_reachable w s : enough_fuel fuel -> rtc sv_step (mkServer w []) s -> sv_inv s.
Proof.
  intros Hfuel Hr. assert (Hs : sv_inv (mkServer w [])) by (by split; [|split]).
  revert Hs. induction Hr as [|s1 s2 s3 H12 _ IH]; [done|]. intros Hs. by eapply IH, sv_inv_step.
Qed.

(** ** Properties *)

(** C9: streams do not disturb each other's files.  However the goroutines of a
    server are interleaved, whatever the peers send and however many streams
    there are: every stream's history is one of [HandleStream] alone, so all
    that is proved of it holds here too; and when a stream has created a file
    that no other stream has created, the file holds exactly what that stream
    has written to it without an error. *)
Theorem concurrent_isolation w s i t :
  enough_fuel fuel -> rtc sv_step (mkServer w []) s -> sv_threads s !! i = Some t ->
  partial (HandleStream fuel) (t_hist t) /\
  forall p f, creates (t_hist t) = [(p, f)] -> exclusive (histories s) i p ->
    w_files (sv_world s) !! p = Some (copied (t_hist t)).
Proof.
  intros Hfuel Hr Hi. destruct (sv_inv_reachable w s Hfuel Hr) as [Ht Hd].
  split; [by eapply leads_partial, (Ht i)|]. intros p f Hc Hx.
  apply (di_content _ _ Hd i (t_hist t) p f); [|done|done]. unfold histories. by rewrite list_lookup_fmap, Hi.
Qed.

(** One more operation of the stream that came last. *)
Lemma sv_last w w' ts o k a h :
  alive (mkServer w ts) -> (world_answer o w = Some (a, w') \/ is_stream_op o = true /\ w' = w) ->
  wf_event (event_of o a) ->
  sv_step (mkServer w (ts ++ [mkThread (Vis o k) h])) (mkServer w' (ts ++ [mkThread (k a) (h ++ [event_of o a])])).
Proof.
  intros Ha Ho Hwf. set (s := mkServer w (ts ++ [mkThread (Vis o k) h])).
  assert (Has : alive s) by (apply Forall_app; split; [done|by apply Forall_singleton]).
  assert (Hi : sv_threads s !! length ts = Some (mkThread (Vis o k) h)) by (by apply list_lookup_middle).
  assert (Heq : mkServer w' (ts ++ [mkThread (k a) (h ++ [event_of o a])])
    = advance s w' (length ts) (mkThread (Vis o k) h) o k a).
  { unfold advance, s. cbn [sv_threads t_hist]. f_equal.
    by rewrite insert_app_r_alt, Nat.sub_diag by done. }
  rewrite Heq. destruct Ho as [Ho|[Ho ->]]; [by eapply sv_local|by eapply sv_stream].
Qed.

(** C32: one request stops the server.  At any moment of the life of a server,
    one peer that asks for a file the server does not have brings it to a state
    in which nothing can happen any more: all the other streams, whatever they
    were doing, stay as they are, and no new one is accepted. *)
Theorem missing_file_stops_server s path :
  alive s -> len (bytes_of_string path) < 2 ^ 32 -> w_files (sv_world s) !! path = None ->
  exists s' t, rtc sv_step s s' /\ sv_threads s' = sv_threads s ++ [t] /\
    sent (t_hist t) = [] /\ flow (t_hist t) = tag Rx (requestBytes path "GET") /\
    forall s'', ~ sv_step s' s''.
Proof.
  intros Ha Hp Hn. destruct s as [w ts]. cbn [sv_world sv_threads] in *.
  set (pb := bytes_of_string path) in *.
  assert (Hl : is_u32 (len pb)) by (split; [apply len_nonneg|done]).
  set (tr := [EvRead 4 (Ok (PutUint32 0)); EvRead 4 (Ok (PutUint32 (len pb)));
              EvRead (len pb) (Ok pb); EvOpen path (Err ErrNotExist)]).
  set (t := mkThread (Halt (Fatal "Error reading the file:")) tr).
  exists (mkServer w (ts ++ [t])), t. split_and!; [|done|done| |].
  - eapply rtc_l; [by apply sv_accept|]. unfold accept. cbn [sv_world sv_threads].
    eapply rtc_l; [apply (sv_last w w ts (OReadFull 4) _ (Ok (PutUint32 0))); [done|by right|done]|].
    eapply rtc_l; [apply (sv_last w w ts (OReadFull 4) _ (Ok (PutUint32 (len pb)))); [done|by right|done]|].
    cbn [defer bind]. rewrite !Uint32_PutUint32' by done.
    eapply rtc_l; [apply (sv_last w w ts (OReadFull (len pb)) _ (Ok pb)); [done|by right|done]|].
    cbn [defer bind]. unfold pb. rewrite string_of_bytes_of_string.
    eapply rtc_l; [apply (sv_last w w ts (OOpenFile path) _ (Err ErrNotExist)); [done| |done]|].
    { left. cbn. by rewrite Hn. }
    apply rtc_refl.
  - unfold requestBytes. cbn -[PutUint32]. fold pb. rewrite u32_small by done.
    unfold flow. cbn -[PutUint32]. by rewrite !tag_app, app_nil_r.
  - assert (Hdead : ~ alive (mkServer w (ts ++ [t]))).
    { intros [_ Hd]%Forall_app. by inversion_clear Hd. }
    intros s'' Hs. by destruct Hs.
Qed.

End server.
