(* ===== verification/Handles.v ===== *)
(** * Handles: the files a transfer has open

    Which files are open at a moment of a history, whether a history uses a file
    that is not open, and what is left open when a transfer, a stream or all the
    streams of a server are over.  A handle is released by [Close] whatever
    [Close] returns, and otherwise by the finalizer of its [os.File]. *)

From S2P Require Import Prelude Effects AesGcm Protocol Utils Merkle Wire Controllers Operations Flow.
From S2P Require Import SenderSpec ReceiverSpec Network Honest EndToEnd ChunkSpec Copy Nodes Concurrent.

(** ** Open files along a history *)

(** [l] without one [f], when [f] is in [l]. *)
Fixpoint list_remove (f : handle) (l : list handle) : option (list handle) :=
  match l with
  | [] => None
  | x :: l => if decide (f = x) then Some l else cons x <$> list_remove f l
  end.

Lemma list_remove_perm f l l' : list_remove f l = Some l' -> l ≡ₚ f :: l'.
Proof.
  revert l'. induction l as [|x l IH]; intros l'; cbn; [done|]. case_decide as Hx; [by intros [= <-]; subst|].
  intros (l1 & Hl & ->)%fmap_Some. rewrite (IH l1 Hl). apply Permutation_swap.
Qed.

(** The files open after an event, those open before being [open]; [None] when
    the event uses a file that is not open. *)
Definition track1 (open : list handle) (e : event) : option (list handle) :=
  match e with
  | EvOpen _ (Ok f) | EvCreate _ (Ok f) => Some (f :: open)
  | EvStat f _ | EvReadAt f _ _ _ _ | EvFileWrite f _ _ =>
      if decide (f ∈ open) then Some open else None
  | EvFileClose f _ => list_remove f open
  | _ => Some open
  end.

Fixpoint track (open : list handle) (tr : list event) : option (list handle) :=
  match tr with
  | [] => Some open
  | e :: tr => open' ← track1 open e; track open' tr
  end.

Lemma track_app open tr1 tr2 : track open (tr1 ++ tr2) = track open tr1 ≫= fun open' => track open' tr2.
Proof.
  revert open. induction tr1 as [|e tr1 IH]; intros open; [done|]. cbn.
  destruct (track1 open e); cbn; [apply IH|done].
Qed.

Lemma track_snoc open tr e open1 open2 :
  track open tr = Some open1 -> track1 open1 e = Some open2 -> track open (tr ++ [e]) = Some open2.
Proof. intros H1 H2. rewrite track_app, H1. cbn. by rewrite H2. Qed.

(** Events that have nothing to do with files. *)
Definition no_file (e : event) : Prop := forall open, track1 open e = Some open.

Lemma track_no_files open evs : Forall no_file evs -> track open evs = Some open.
Proof. induction 1 as [|e evs He _ IH]; [done|]. cbn. by rewrite He. Qed.

Lemma track_no_file open tr evs : Forall no_file evs -> track open (tr ++ evs) = track open tr.
Proof.
  intros Hn. rewrite track_app. destruct (track open tr) as [o|]; [|done]. by apply track_no_files.
Qed.

Lemma is_read_no_file e : is_read e -> no_file e.
Proof. by destruct e. Qed.

(** Every file used is open, and at most one is. *)
Definition one_open (tr : list event) : Prop :=
  exists open, track [] tr = Some open /\ (length open <= 1)%nat.

Lemma one_open_none tr : track [] tr = Some [] -> one_open tr.
Proof. intros Ht. exists []. split; [done|cbn; lia]. Qed.

Lemma one_open_one f tr : track [] tr = Some [f] -> one_open tr.
Proof. intros Ht. exists [f]. split; [done|cbn; lia]. Qed.

(** ** The sender *)

Section sender.
Context `{LegacyKeccak256}.

(** What [SendFile] does between opening and closing [f]. *)
Definition sender_file_op (f : handle) (o : op) : Prop :=
  match o with
  | OStat f' | OReadAt f' _ _ => f' = f
  | OReadFull _ | OWrite _ | ORand _ | ONow => True
  | _ => False
  end.

Lemma sender_body_ops f fuel s :
  s_File s = Some f -> uses (sender_file_op f) (Run fuel s senderSteps).
Proof.
  apply (does_Run _ (fun s => s_File s = Some f)); [done|].
  intros st step s' Hg Hf. destruct st; cbn in Hg; try discriminate Hg; injection Hg as <-.
  - done.
  - unfold stepSenderSendHeader, SendHeader. solve_does.
  - unfold stepSenderWaitChunkRequest, ReadChunkRequest, readSentinel. solve_does.
  - unfold stepSenderSendChunkResponse, ReadChunkPlaintext, BuildAndEncryptChunk, GenerateRandomKey,
      EncryptChunk, SendChunkResponse, Seal. rewrite Hf. solve_does.
  - unfold stepSenderWaitLotteryTicket, ReadLotteryTicket, readSentinel. solve_does.
  - unfold stepSenderSendKeyReveal, SendKeyReveal. solve_does.
  - unfold stepSenderVerifyMerkle, SendRoot, ReadFinalAck, readSentinel. solve_does.
Qed.

(** Those operations leave [f] open. *)
Lemma sender_file_op_track f tr o a :
  sender_file_op f o -> track [] tr = Some [f] -> track [] (tr ++ [event_of o a]) = Some [f].
Proof.
  intros Ho Ht. eapply track_snoc; [exact Ht|].
  destruct o; try done; cbn in Ho; subst; cbn; by rewrite decide_True by set_solver.
Qed.

Lemma wp_SendFile_handles fuel path :
  wp one_open (SendFile fuel path)
    (fun r tr => match r with Done _ | Halted (Panic _) => track [] tr = Some [] | _ => True end) [].
Proof.
  unfold SendFile. cbn [perform bind].
  intros [f|e] _; cbn [event_of]; [|split; [by apply one_open_none|done]].
  split; [by apply (one_open_one f)|]. apply wp_defer.
  eapply wp_mono with (Q := fun _ tr => track [] tr = Some [f] /\ True).
  - eapply wp_weaken with (I := fun tr => track [] tr = Some [f]); [by apply one_open_one|].
    apply (wp_keep _ _ (fun _ _ => True)); [done|].
    apply (wp_uses _ (sender_file_op f)); [intros tr o a; apply sender_file_op_track| |done].
    unfold generateFileID, PrepareMetadata. cbn [perform bind]. split; [done|].
    intros [info|e]; [|done]. cbn [bind]. split; [done|]. intros t. split; [done|].
    intros [info'|e]; [|done]. cbn [bind]. apply uses_bind; [by apply sender_body_ops|by intros []].
  - intros r tr [Ht _].
    assert (Hc : forall e, track [] (tr ++ [EvFileClose f e]) = Some []).
    { intros e. eapply track_snoc; [exact Ht|]. cbn. by rewrite decide_True. }
    destruct r as [a|[]]; cbn; try done; intros e _; (split; [by apply one_open_none|by apply Hc]).
Qed.

End sender.

(** ** The receiver *)

(** [wp] of a program by its operations. *)
Lemma wp_does {A} (J : list event -> Prop) P (Q : A -> Prop) (p : prog A) tr :
  (forall tr o a, P o -> J tr -> J (tr ++ [event_of o a])) -> does P Q p -> J tr ->
  wp J p (fun r tr' => J tr' /\ match r with Done a => Q a | Halted _ => True end) tr.
Proof.
  intros HJ. revert tr. induction p as [a|h|o k IH]; intros tr Hp Htr; [done|done|].
  destruct Hp as [Ho Hk]. intros a _. assert (J (tr ++ [event_of o a])) by auto.
  split; [done|]. by apply IH.
Qed.

(** Operations on the stream only. *)
Definition wire_op (o : op) : Prop := match o with OReadFull _ | OWrite _ => True | _ => False end.

Definition wire_event (e : event) : Prop := is_wire e = true.

Lemma wire_event_no_file e : wire_event e -> no_file e.
Proof. by destruct e. Qed.

Lemma wire_untouched evs : Forall wire_event evs -> untouched evs.
Proof.
  induction 1 as [|e evs He _ IH]; [done|]. apply (untouched_app [e]). split; [by destruct e|done].
Qed.

Lemma wp_wire {A} (Q : A -> Prop) (p : prog A) tr :
  does wire_op Q p -> one_open tr ->
  wp one_open p (fun r tr' => (exists evs, Forall wire_event evs /\ tr' = tr ++ evs) /\
                   match r with Done a => Q a | Halted _ => True end) tr.
Proof.
  intros Hp Ho. apply (wp_weaken (fun tr' => exists evs, Forall wire_event evs /\ tr' = tr ++ evs)).
  - intros tr' (evs & He & ->). destruct Ho as (open & Ht & Hl). exists open.
    rewrite track_no_file; [done|]. by eapply Forall_impl; [exact He|apply wire_event_no_file].
  - apply (wp_does _ wire_op); [|done|by exists []; rewrite app_nil_r].
    intros tr' o a Hw (evs & He & ->). exists (evs ++ [event_of o a]).
    rewrite <-app_assoc. split; [|done]. apply Forall_app. split; [done|]. apply Forall_singleton.
    by destruct o.
Qed.

Section receiver.
Context `{LegacyKeccak256}.

(** The header [h] has been received. *)
Definition heard (h : MetaData) (tr : list event) : Prop :=
  header_valid h /\ tag Rx (headerBytes h) `prefix_of` flow tr.

(** [f] was created for [h]. *)
Definition created_for (h : MetaData) (f : handle) (tr : list event) : Prop :=
  heard h tr /\ creates tr = [("./received/" +:+ md_Name h, f)].

(** The number of chunks written. *)
Definition written (tr : list event) : Z := len (file_writes tr).

(** What the receiver has open when it gives up: its file, when chunks are
    missing in it. *)
Definition left_open (tr : list event) : Prop :=
  (creates tr = [] /\ track [] tr = Some []) \/
  exists h f, created_for h f tr /\
    track [] tr = Some (if decide (written tr < md_Reps h) then [f] else []).

(** [f] is open for writing. *)
Definition writes_to (h : MetaData) (f : handle) (s : Session) (tr : list event) : Prop :=
  created_for h f tr /\ track [] tr = Some [f] /\ s_File s = Some f /\ s_TotalChunks s = md_Reps h.

Definition files_inv (s : Session) (tr : list event) : Prop :=
  match s_state s with
  | StateIdle | StateReceiveHeader =>
      flow tr = [] /\ untouched tr /\ track [] tr = Some [] /\ s_CurrentChunk s = 0
  | StateSendChunkRequest | StateWaitingChunkResponse | StateSendLotteryTicket
  | StateWaitingKeyReveal | StateVerifyChunk => exists h f, writes_to h f s tr /\
      written tr = s_CurrentChunk s /\ s_CurrentChunk s < md_Reps h
  | StateVerifyMerkle => exists h f, writes_to h f s tr /\ written tr = md_Reps h
  | StateFinished => exists h f, created_for h f tr /\ track [] tr = Some [] /\ written tr = md_Reps h
  | _ => False
  end.

Lemma created_for_wire h f tr evs : Forall wire_event evs -> created_for h f tr -> created_for h f (tr ++ evs).
Proof.
  intros He [[Hh Hp] Hc]. split; [split; [done|]|by rewrite creates_same by by apply wire_untouched].
  rewrite flow_app. by apply prefix_app_r.
Qed.

Lemma written_wire tr evs : Forall wire_event evs -> written (tr ++ evs) = written tr.
Proof.
  intros [He _]%wire_untouched. unfold written. by rewrite file_writes_app, He, app_nil_r.
Qed.

Lemma track_wire open tr evs : Forall wire_event evs -> track open (tr ++ evs) = track open tr.
Proof. intros He. apply track_no_file. by eapply Forall_impl; [exact He|apply wire_event_no_file]. Qed.

Lemma created_for_snoc h f tr e : creates [e] = [] -> created_for h f tr -> created_for h f (tr ++ [e]).
Proof.
  intros He [[Hh Hp] Hc]. split; [split; [done|]|by rewrite creates_app, He, app_nil_r].
  rewrite flow_app. by apply prefix_app_r.
Qed.

(** The file is closed. *)
Lemma close_file h f tr e :
  created_for h f tr -> track [] tr = Some [f] ->
  created_for h f (tr ++ [EvFileClose f e]) /\ track [] (tr ++ [EvFileClose f e]) = Some [] /\
  written (tr ++ [EvFileClose f e]) = written tr.
Proof.
  intros Hc Ht. split_and!; [by apply created_for_snoc| |unfold written; by rewrite file_writes_app, app_nil_r].
  eapply track_snoc; [exact Ht|]. cbn. by rewrite decide_True.
Qed.

(** A session that has the same file and counters. *)
Definition same_counters (s s' : Session) : Prop :=
  s_state s' = s_state s /\ s_File s' = s_File s /\ s_TotalChunks s' = s_TotalChunks s /\
  s_CurrentChunk s' = s_CurrentChunk s.

Lemma writes_to_wire h f s s' tr evs :
  Forall wire_event evs -> same_counters s s' -> writes_to h f s tr -> writes_to h f s' (tr ++ evs).
Proof.
  intros He (_ & HF & HT & _) (Hc & Ht & Hf & Hn). split_and!; [by apply created_for_wire| |by rewrite HF|by rewrite HT].
  by rewrite track_wire.
Qed.

Lemma writes_to_left_open h f s tr : writes_to h f s tr -> written tr < md_Reps h -> left_open tr.
Proof. intros (Hc & Ht & _) Hw. right. exists h, f. split; [done|]. by rewrite decide_True. Qed.

Lemma writes_to_one_open h f s tr : writes_to h f s tr -> one_open tr.
Proof. intros (_ & Ht & _). by apply (one_open_one f). Qed.

(** ** The steps of the receiver *)

Definition step_keeps (r : outcome (Session * res TransferState)) (tr : list event) : Prop :=
  match r with
  | Done (s', Ok next) => isAllowed (s_state s') next = true /\ files_inv (set_state s' next) tr
  | Done (_, Err _) => left_open tr
  | Halted _ => True
  end.

(** The states in which chunks are exchanged. *)
Definition exchanging (st : TransferState) : Prop :=
  match st with
  | StateSendChunkRequest | StateWaitingChunkResponse | StateSendLotteryTicket
  | StateWaitingKeyReveal | StateVerifyChunk => True
  | _ => False
  end.

Lemma files_exchanging s tr : exchanging (s_state s) ->
  files_inv s tr <-> exists h f, writes_to h f s tr /\ written tr = s_CurrentChunk s /\ s_CurrentChunk s < md_Reps h.
Proof. unfold files_inv. by destruct (s_state s). Qed.

(** A step that only talks. *)
Lemma wire_step_keeps (step : Step) s tr st' :
  exchanging (s_state s) -> exchanging st' -> isAllowed (s_state s) st' = true -> files_inv s tr ->
  does wire_op (fun '(s', r) => same_counters s s' /\ forall next, r = Ok next -> next = st') (step s) ->
  wp one_open (step s) step_keeps tr.
Proof.
  intros Hs Hst' Hal (h & f & Hw & Hn & Hlt)%files_exchanging Hd; [|done].
  eapply wp_mono; [apply wp_wire; [exact Hd|by eapply writes_to_one_open]|].
  intros [[s' r]|] tr' [(evs & He & ->) Hq]; [|done]. destruct Hq as [Hsame Hnext].
  pose proof (writes_to_wire h f s s' tr evs He Hsame Hw) as Hw'.
  assert (Hn' : written (tr ++ evs) = s_CurrentChunk s) by by rewrite written_wire.
  destruct Hsame as (Hst & _ & _ & Hcur). destruct r as [next|e]; cbn.
  - rewrite (Hnext next eq_refl), Hst. split; [done|]. apply files_exchanging; [done|].
    exists h, f. cbn. rewrite Hcur. done.
  - eapply writes_to_left_open; [exact Hw'|lia].
Qed.

Lemma files_step_header s tr :
  s_state s = StateReceiveHeader -> files_inv s tr -> wp one_open (stepReceiverReceiveHeader s) step_keeps tr.
Proof.
  intros Hst Hs. unfold files_inv in Hs. rewrite Hst in Hs. destruct Hs as (Hf & [Hw Hc] & Ht & H0).
  unfold stepReceiverReceiveHeader. apply wp_bind_halt.
  apply (wp_codec_read one_open header_codec); [|by apply one_open_none| |].
  { intros tr0 n r (open & Ho & Hl). exists open. by rewrite track_no_file by by repeat constructor. }
  2:{ intros evs b e He _ _. left. apply Forall_impl with (Q := wire_event) in He; [|by intros []].
      by rewrite creates_same, track_wire by eauto using wire_untouched. }
  intros evs h He Hh Hfl Hone. cbn [cd_valid cd_encode header_codec] in Hh, Hfl.
  apply Forall_impl with (Q := wire_event) in He; [|by intros []].
  cbn [perform bind]. intros e0 _. cbn [event_of].
  assert (Ht1 : track [] ((tr ++ evs) ++ [EvMkdirAll "./received/" e0]) = Some []).
  { rewrite track_no_file by by repeat constructor. by rewrite track_wire. }
  assert (Hc1 : creates ((tr ++ evs) ++ [EvMkdirAll "./received/" e0]) = []).
  { rewrite !creates_same; [done|by apply wire_untouched|done]. }
  split; [by apply one_open_none|]. intros [f|e] _; cbn [event_of].
  2:{ assert (Ht2 := track_snoc [] _ (EvCreate ("./received/" +:+ md_Name h) (Err e)) _ _ Ht1 eq_refl).
      split; [by apply one_open_none|]. left. by rewrite creates_app, Hc1. }
  set (tr1 := _ ++ [EvCreate _ _]).
  assert (Ht2 : track [] tr1 = Some [f]) by by eapply track_snoc.
  assert (Hcf : created_for h f tr1).
  { split; [split; [done|]|unfold tr1; by rewrite creates_app, Hc1].
    unfold tr1. rewrite !flow_app, Hf, Hfl. cbn. by repeat apply prefix_app_r. }
  assert (Hw1 : written tr1 = 0).
  { unfold tr1, written. rewrite !file_writes_app, Hw, (proj1 (wire_untouched evs He)). done. }
  split; [by apply (one_open_one f)|]. clearbody tr1. cbn [s_TotalChunks set_File set_header].
  assert (Hreps : is_u32 (md_Reps h)) by apply Hh. unfold is_u32 in Hreps.
  destruct (Z.eqb_spec (md_Reps h) 0) as [Hr|Hr].
  - cbn [perform bind]. intros e _. cbn [event_of].
    destruct (close_file h f tr1 e Hcf Ht2) as (Hcf3 & Ht3 & Hw3).
    split; [by apply one_open_none|]. destruct e as [e|]; cbn.
    + right. exists h, f. split; [done|]. by rewrite decide_False by lia.
    + split; [by rewrite Hst|]. exists h, f. split_and!; [done|done|lia].
  - cbn. split; [by rewrite Hst|]. exists h, f. cbn. rewrite H0. split_and!; [done|lia|lia].
Qed.

Lemma files_step_verify s tr :
  s_state s = StateVerifyChunk -> files_inv s tr -> wp one_open (stepReceiverVerifyChunk s) step_keeps tr.
Proof.
  intros Hst Hs. unfold files_inv in Hs. rewrite Hst in Hs. destruct Hs as (h & f & Hw & Hn & Hlt).
  pose proof Hw as (Hc & Ht & Hf & HT).
  assert (Hreps : is_u32 (md_Reps h)) by apply Hc. unfold is_u32 in Hreps.
  pose proof (len_nonneg (file_writes tr)) as H0. fold (written tr) in H0.
  unfold stepReceiverVerifyChunk. destruct (s_PendingChunk s) as [c|]; [|done]. apply wp_bind_halt.
  eapply wp_mono; [apply (wp_wire (fun _ => True)); [|by eapply writes_to_one_open]|].
  { unfold DecryptAndCheck, Open. solve_does. }
  intros [[c' r]|] tr' [(evs & He & ->) _]; [|done].
  assert (Hw' : forall s', same_counters s s' -> writes_to h f s' (tr ++ evs)).
  { intros s' Hss. by apply (writes_to_wire h f s). }
  assert (Hn' : written (tr ++ evs) = s_CurrentChunk s) by by rewrite written_wire.
  destruct r as [pt|e]; [|eapply writes_to_left_open; [by apply (Hw' s)|lia]].
  cbn [s_File set_Leaves set_PendingChunk]. rewrite Hf. cbn [fileWrite perform bind].
  set (tr0 := tr ++ evs) in *. intros e _. cbn [event_of].
  destruct (Hw' s) as (Hc1 & Ht1 & _); [done|]. clearbody tr0.
  assert (Ht2 : track [] (tr0 ++ [EvFileWrite f pt e]) = Some [f]).
  { eapply track_snoc; [exact Ht1|]. cbn. by rewrite decide_True by set_solver. }
  assert (Hc2 : created_for h f (tr0 ++ [EvFileWrite f pt e])) by by apply created_for_snoc.
  split; [by apply (one_open_one f)|].
  assert (Hlen : written (tr0 ++ [EvFileWrite f pt e]) = written tr0 + match e with None => 1 | Some _ => 0 end).
  { unfold written. rewrite file_writes_app, len_app. by destruct e. }
  destruct e as [e|].
  { right. exists h, f. split; [done|]. rewrite decide_True by lia. done. }
  set (s1 := set_Leaves _ _). destruct (counters_at s1 (md_Reps h)) as [-> Hadv]; [done|done|cbn; lia|].
  case_bool_decide as Hlast; cbn in Hlast; cbn; (split; [by rewrite Hst|]); exists h, f; (split; [by split_and!|]);
    [lia|cbn in Hadv |- *; lia].
Qed.

Lemma files_step_merkle s tr :
  s_state s = StateVerifyMerkle -> files_inv s tr -> wp one_open (stepReceiverVerifyMerkle s) step_keeps tr.
Proof.
  intros Hst Hs. unfold files_inv in Hs. rewrite Hst in Hs. destruct Hs as (h & f & Hw & Hn).
  unfold stepReceiverVerifyMerkle. apply wp_defer.
  eapply wp_mono; [apply (wp_wire (fun '(s', r) => same_counters s s' /\
    forall next, r = Ok next -> next = StateFinished)); [|by eapply writes_to_one_open]|].
  { unfold verifyMerkleBody, ReadRoot, SendFinalAck, readSentinel, same_counters. solve_does. all: naive_solver. }
  intros r tr' [(evs & He & ->) Hq].
  pose proof (created_for_wire h f tr evs He (proj1 Hw)) as Hc.
  assert (Ht : track [] (tr ++ evs) = Some [f]) by (rewrite track_wire by done; apply Hw).
  assert (Hn' : written (tr ++ evs) = md_Reps h) by by rewrite written_wire.
  destruct Hw as (_ & _ & -> & _). cbn [fileClose]. set (tr0 := tr ++ evs) in *. clearbody tr0.
  destruct r as [[s' r]|[]]; try done; intros e _;
    destruct (close_file h f tr0 e Hc Ht) as (H1 & H2 & H3); (split; [by apply one_open_none|]); [|done].
  destruct Hq as [(Hs' & _) Hnext]. destruct r as [next|err]; cbn.
  - rewrite (Hnext next eq_refl), Hs', Hst. split; [done|]. exists h, f. split_and!; [done|done|cbn; lia].
  - right. exists h, f. split; [done|]. by rewrite decide_False by (cbn; lia).
Qed.

Lemma files_step s tr :
  files_inv s tr -> s_state s <> StateFinished ->
  exists step, map_get receiverSteps (s_state s) = Some step /\ wp one_open (step s) step_keeps tr.
Proof.
  intros Hs Hfin. destruct (s_state s) eqn:Hst; try (unfold files_inv in Hs; by rewrite Hst in Hs);
    eexists; (split; [reflexivity|]).
  - unfold files_inv in Hs. rewrite Hst in Hs. cbn. by rewrite Hst.
  - by apply files_step_header.
  - apply (wire_step_keeps _ s tr StateWaitingChunkResponse); rewrite ?Hst; try done.
    unfold stepReceiverSendChunkRequest, SendChunkRequest, same_counters. solve_does. all: naive_solver.
  - apply (wire_step_keeps _ s tr StateSendLotteryTicket); rewrite ?Hst; try done.
    unfold stepReceiverWaitChunkResponse, ReadChunkResponse, readSentinel, same_counters. solve_does. all: naive_solver.
  - apply (wire_step_keeps _ s tr StateWaitingKeyReveal); rewrite ?Hst; try done.
    unfold stepReceiverSendLotteryTicket, SendLotteryTicket, same_counters. solve_does. all: naive_solver.
  - apply (wire_step_keeps _ s tr StateVerifyChunk); rewrite ?Hst; try done.
    unfold stepReceiverWaitKeyReveal, ReadKeyReveal, readSentinel, same_counters. solve_does. all: naive_solver.
  - by apply files_step_verify.
  - by apply files_step_merkle.
Qed.

(** What [RecieveFile] has open when it returns. *)
Definition receiver_left (r : option error) (tr : list event) : Prop :=
  left_open tr /\ (r = None -> track [] tr = Some []).

Lemma wp_Run_files fuel s tr :
  files_inv s tr ->
  wp one_open (Run fuel s receiverSteps)
    (fun r tr' => match r with Done (_, e) => receiver_left e tr' | Halted _ => True end) tr.
Proof.
  revert s tr. induction fuel as [|fuel IH]; intros s tr Hs; [done|]. cbn [Run]. apply wp_bind_halt.
  unfold RunIter, GetState. case_bool_decide as Hfin.
  { unfold files_inv in Hs. rewrite Hfin in Hs. destruct Hs as (h & f & Hc & Ht & Hw).
    split; [|done]. right. exists h, f. split; [done|]. by rewrite decide_False by lia. }
  case_bool_decide as Herr; [unfold files_inv in Hs; by rewrite Herr in Hs|].
  destruct (files_step s tr Hs Hfin) as (step & -> & Hstep). apply wp_bind_halt.
  eapply wp_mono; [exact Hstep|]. intros [[s' [next|err]]|hlt] tr'; [|by intros Hl|done].
  intros [Hal Hs']. unfold Transition. rewrite Hal. by apply IH.
Qed.

Lemma wp_RecieveFile_handles fuel :
  wp one_open (RecieveFile fuel)
    (fun r tr => match r with Done e => receiver_left e tr | Halted _ => True end) [].
Proof.
  apply wp_bind_halt. eapply wp_mono; [by apply wp_Run_files|]. by intros [[s e]|].
Qed.

End receiver.

(** ** A machine *)

(** The open files of a machine. *)
Definition open_files (w : World) : list handle :=
  filter (fun f => is_Some (mjoin (w_handles w !! f))) (seq 0 (length (w_handles w))).

Lemma elem_of_open_files w f : f ∈ open_files w <-> is_Some (mjoin (w_handles w !! f)).
Proof.
  unfold open_files. rewrite list_elem_of_filter, elem_of_seq. split; [by intros [? _]|].
  intros Hs. split; [done|]. destruct (w_handles w !! f) as [x|] eqn:Hf; [|by destruct Hs].
  apply lookup_lt_Some in Hf. lia.
Qed.

Lemma NoDup_open_files w : NoDup (open_files w).
Proof. apply NoDup_filter, NoDup_seq. Qed.

Lemma open_files_eq w l : NoDup l -> (forall f, f ∈ l <-> is_Some (mjoin (w_handles w !! f))) -> open_files w ≡ₚ l.
Proof.
  intros Hl Hf. apply NoDup_Permutation; [apply NoDup_open_files|done|].
  intros f. by rewrite Hf, elem_of_open_files.
Qed.

(** A new handle. *)
Lemma open_files_new w w' x :
  w_handles w' = w_handles w ++ [Some x] -> open_files w' ≡ₚ length (w_handles w) :: open_files w.
Proof.
  intros Hw. apply open_files_eq.
  - constructor; [|apply NoDup_open_files]. rewrite elem_of_open_files, lookup_ge_None_2 by done. by intros [].
  - intros f. rewrite elem_of_cons, elem_of_open_files, Hw. destruct (decide (f = length (w_handles w))) as [->|Hne].
    + rewrite list_lookup_middle by done. cbn. naive_solver eauto.
    + destruct (decide (f < length (w_handles w))%nat); [rewrite lookup_app_l by done; naive_solver|].
      rewrite !lookup_ge_None_2 by (rewrite ?length_app; cbn; lia). cbn. naive_solver.
Qed.

(** A handle that is set. *)
Lemma open_files_same w w' f x y :
  w_handles w !! f = Some (Some x) -> w_handles w' = <[f := Some y]> (w_handles w) ->
  open_files w' ≡ₚ open_files w.
Proof.
  intros Hf Hw. apply open_files_eq; [apply NoDup_open_files|]. intros g. rewrite elem_of_open_files, Hw.
  destruct (decide (f = g)) as [<-|Hne]; [|by rewrite list_lookup_insert_ne].
  rewrite list_lookup_insert_eq by (by eapply lookup_lt_Some). rewrite Hf. cbn. naive_solver eauto.
Qed.

Lemma open_files_close w w' f x :
  w_handles w !! f = Some (Some x) -> w_handles w' = <[f := None]> (w_handles w) ->
  open_files w ≡ₚ f :: open_files w'.
Proof.
  intros Hf Hw. apply open_files_eq.
  - constructor; [|apply NoDup_open_files]. rewrite elem_of_open_files, Hw.
    rewrite list_lookup_insert_eq by (by eapply lookup_lt_Some). by intros [].
  - intros g. rewrite elem_of_cons, elem_of_open_files, Hw.
    destruct (decide (f = g)) as [<-|Hne]; [rewrite Hf; cbn; naive_solver eauto|].
    rewrite list_lookup_insert_ne by done. naive_solver.
Qed.

(** One operation: the machine and the history agree. *)
Lemma answer_open_files o a w w' open open' :
  world_answer o w = Some (a, w') -> track1 open (event_of o a) = Some open' ->
  (forall f, f ∈ open -> f ∈ open_files w) -> open_files w' ++ open ≡ₚ open_files w ++ open'.
Proof.
  intros Hw Ht Hin. destruct o as [n|b| | |n| |p|f|f n off|p|p|f b|f]; cbn in Hw; try discriminate Hw.
  - injection Hw as <- <-. by injection Ht as <-.
  - injection Hw as <- <-. by injection Ht as <-.
  - destruct (w_files w !! p); injection Hw as <- <-; injection Ht as <-; [|done].
    erewrite (open_files_new w); [|reflexivity]. cbn. by rewrite Permutation_middle.
  - destruct (open_file w f) as [[[p off] c]|]; injection Hw as <- <-; cbn in Ht; case_decide; by simplify_eq.
  - destruct (open_file w f) as [[[p off'] c]|]; [case_decide|]; injection Hw as <- <-; cbn in Ht; case_decide; by simplify_eq.
  - injection Hw as <- <-. by injection Ht as <-.
  - injection Hw as <- <-. injection Ht as <-.
    erewrite (open_files_new w); [|reflexivity]. cbn. by rewrite Permutation_middle.
  - unfold open_file in Hw. destruct (w_handles w !! f) as [[[p off]|]|] eqn:Hf; cbn in Hw.
    2,3: injection Hw as <- <-; cbn in Ht; case_decide; by simplify_eq.
    destruct (w_files w !! p); cbn in Hw; injection Hw as <- <-; cbn in Ht; case_decide; simplify_eq; [|done].
    erewrite (open_files_same w); [done|exact Hf|reflexivity].
  - cbn in Ht. apply list_remove_perm in Ht. assert (Hf : f ∈ open_files w) by (apply Hin; rewrite Ht; set_solver).
    apply elem_of_open_files in Hf as [x Hx]. destruct (w_handles w !! f) as [[y|]|] eqn:Hf; try done.
    injection Hw as <- <-. rewrite (open_files_close w (set_handles w (<[f := None]> (w_handles w))) f y Hf eq_refl), Ht. cbn. by rewrite Permutation_middle.
Qed.

(** One list in a list of lists, replaced. *)
Lemma join_at {A} (ls : list (list A)) i l l' :
  ls !! i = Some l -> exists rest, mjoin ls ≡ₚ l ++ rest /\ mjoin (<[i := l']> ls) ≡ₚ l' ++ rest.
Proof.
  intros Hi. exists (mjoin (take i ls) ++ mjoin (drop (S i) ls)).
  rewrite <-(take_drop_middle ls i l Hi) at 1. rewrite insert_take_drop by (by eapply lookup_lt_Some).
  rewrite !join_app. cbn. split; solve_Permutation.
Qed.

(** A list in a list of lists without duplicates. *)
Lemma join_NoDup_unique {A} (ls : list (list A)) i j l l' x :
  NoDup (mjoin ls) -> ls !! i = Some l -> ls !! j = Some l' -> x ∈ l -> x ∈ l' -> i = j.
Proof.
  revert i j. induction ls as [|l0 ls IH]; intros i j Hn Hi Hj Hx Hx'; [done|].
  cbn in Hn. apply NoDup_app in Hn as (_ & Hd & Hn).
  assert (Hjoin : forall k l1, ls !! k = Some l1 -> x ∈ l1 -> x ∈ mjoin ls).
  { intros k l1 Hk Hl1. apply list_elem_of_join. exists l1. split; [done|]. by eapply list_elem_of_lookup_2. }
  destruct i as [|i], j as [|j]; cbn in Hi, Hj; simplify_eq; [done|..].
  - exfalso. by eapply (Hd x), Hjoin.
  - exfalso. by eapply (Hd x), Hjoin.
  - f_equal. by eapply IH.
Qed.

(** ** A stream of the server *)

Section server.
Context `{LegacyKeccak256} (fuel : nat).

(** An upload: the stream has received a request of type 1 and then the header
    [h], and created [f] for it. *)
Definition upload_of (h : MetaData) (f : handle) (tr : list event) : Prop :=
  header_valid h /\ (exists path, tag Rx (request_msg 1 path ++ headerBytes h) `prefix_of` flow tr) /\
  creates tr = [("./received/" +:+ md_Name h, f)].

(** What a stream that is over has not closed: nothing, or the file of an upload in
    which chunks are missing. *)
Definition stream_left (tr : list event) : Prop :=
  track [] tr = Some [] \/
  exists h f, upload_of h f tr /\ written tr < md_Reps h /\ track [] tr = Some [f].

(** A transfer after its request. *)
Lemma left_open_stream path tr : left_open tr -> stream_left (requested 1 path ++ tr).
Proof.
  intros [[_ Ht]|(h & f & [[Hh Hp] Hc] & Ht)]; unfold stream_left, written.
  all: rewrite track_app, (track_no_files _ (requested 1 path)) by by repeat constructor.
  - by left.
  - cbn [mbind option_bind]. rewrite Ht. case_decide as Hw; [right|by left]. exists h, f. split_and!; [| |done].
    + split; [done|]. split; [|exact Hc]. exists path. rewrite flow_app, requested_flow, tag_app. by apply prefix_app.
    + rewrite file_writes_app. exact Hw.
Qed.

Lemma stream_left_snoc tr e : no_file e -> untouched [e] -> stream_left tr -> stream_left (tr ++ [e]).
Proof.
  intros Hn [Hw Hc] Hs. unfold stream_left, written, upload_of.
  rewrite track_no_file by by apply Forall_singleton. rewrite creates_app, file_writes_app, Hc, Hw, !app_nil_r.
  destruct Hs as [Hs|(h & f & (Hh & (path & Hp) & Hcr) & Hs)]; [by left|right]. exists h, f.
  split; [|done]. split_and!; [done| |done]. exists path. rewrite flow_app. by apply prefix_app_r.
Qed.

Lemma one_open_after tr0 tr : Forall no_file tr0 -> one_open tr -> one_open (tr0 ++ tr).
Proof.
  intros H0 (open & Ht & Hl). exists open. split; [|done].
  by rewrite track_app, track_no_files.
Qed.

Lemma reads_no_file tr : Forall is_read tr -> Forall no_file tr.
Proof. intros Hr. by eapply Forall_impl; [exact Hr|apply is_read_no_file]. Qed.

Lemma wp_HandleStream_handles :
  wp one_open (HandleStream fuel)
    (fun r tr => match r with Done _ => stream_left tr | Halted _ => True end) [].
Proof.
  apply wp_handle.
  - intros tr e He. assert (Hn : no_file e) by (by destruct He as [-> | ->]).
    assert (Hu : untouched [e]) by (by destruct He as [-> | ->]). split; [|by apply stream_left_snoc].
    intros (open & Ht & Hl). exists open. by rewrite track_no_file by by apply Forall_singleton.
  - intros tr Hr%reads_no_file. split; [apply one_open_none|left]; by apply track_no_files.
  - intros path _. rewrite <-(app_nil_r (requested 0 path)). eapply wp_after; [| |apply wp_SendFile_handles].
    + intros tr'. by apply one_open_after, reads_no_file, requested_reads.
    + intros [e|] tr' Ht; [|done]. left.
      by rewrite track_app, (track_no_files _ (requested 0 path)) by by repeat constructor.
  - intros path _. rewrite <-(app_nil_r (requested 1 path)). eapply wp_after; [| |apply wp_RecieveFile_handles].
    + intros tr'. by apply one_open_after, reads_no_file, requested_reads.
    + intros [e|] tr' Ht; [|done]. apply left_open_stream, Ht.
Qed.

(** ** The life of a server *)

(** What a stream has opened and not closed. *)
Definition held (tr : list event) : list handle := default [] (track [] tr).

(** A goroutine that will not touch a file any more: it has returned, or only has
    its stream to close. *)
Definition done_with_files (p : prog unit) : Prop := uses (fun o => is_stream_op o = true) p.

(** An operation of the machine that failed. *)
Definition failed (o : op) : ans o -> Prop :=
  match o with
  | ORand _ | OOpenFile _ | OCreate _ | OStat _ => fun r => is_Ok r = false
  | OReadAt _ _ _ => fun r => r.2 <> None
  | OMkdirAll _ | OFileWrite _ _ => fun e => e <> None
  | _ => fun _ => False
  end.

(** The steps of [sv_step], and what it leaves out: any operation of the machine
    may fail, for lack of descriptors or of space, with no file opened or closed
    by it (a failed write may change the file); [Close] may return an error and
    releases the descriptor all the same; and the finalizer of an [os.File] may
    close, at any time, a file that its goroutine cannot use any more. *)
Inductive life_step (s : server) : server -> Prop :=
| life_sv s' : sv_step fuel s s' -> life_step s s'
| life_failed i t o k a w :
    alive s -> sv_threads s !! i = Some t -> t_prog t = Vis o k -> wf_event (event_of o a) ->
    failed o a -> open_files w = open_files (sv_world s) -> length (w_handles w) = length (w_handles (sv_world s)) ->
    life_step s (advance s w i t o k a)
| life_close i t f k a e w :
    alive s -> sv_threads s !! i = Some t -> t_prog t = Vis (OFileClose f) k ->
    world_answer (OFileClose f) (sv_world s) = Some (a, w) ->
    life_step s (advance s w i t (OFileClose f) k (Some e))
| life_finalizer t f :
    alive s -> t ∈ sv_threads s -> done_with_files (t_prog t) -> f ∈ held (t_hist t) ->
    life_step s (mkServer (set_handles (sv_world s) (<[f := None]> (w_handles (sv_world s)))) (sv_threads s)).

(** The open files of a server and the [gone] ones, closed by their finalizers, are
    those of its streams and those its machine had open before. *)
Record handles_inv (w0 : World) (gone : list handle) (s : server) : Prop := {
  hi_thread i t : sv_threads s !! i = Some t -> leads (HandleStream fuel) (t_hist t) (t_prog t);
  hi_files : open_files (sv_world s) ++ gone ≡ₚ open_files w0 ++ mjoin (held <$> histories s);
  hi_nodup : NoDup (open_files (sv_world s) ++ gone);
  hi_old f : f ∈ gone -> (f < length (w_handles (sv_world s)))%nat;
  hi_gone f : f ∈ gone -> exists i t, sv_threads s !! i = Some t /\ done_with_files (t_prog t) /\ f ∈ held (t_hist t)
}.

Lemma stream_one_open tr q : leads (HandleStream fuel) tr q -> one_open tr.
Proof.
  intros Hl%leads_partial. apply (wp_partial one_open _ _ [] tr) with (2 := wp_HandleStream_handles); [|done].
  by apply one_open_none.
Qed.

Lemma held_lookup s i t : sv_threads s !! i = Some t -> (held <$> histories s) !! i = Some (held (t_hist t)).
Proof. intros Hi. unfold histories. by rewrite !list_lookup_fmap, Hi. Qed.

(** No two streams hold the same file. *)
Lemma held_unique w0 gone s i j ti tj f :
  handles_inv w0 gone s -> sv_threads s !! i = Some ti -> sv_threads s !! j = Some tj ->
  f ∈ held (t_hist ti) -> f ∈ held (t_hist tj) -> i = j.
Proof.
  intros Hs Hi%held_lookup Hj%held_lookup. apply (join_NoDup_unique (held <$> histories s)); [|done|done].
  pose proof (hi_nodup _ _ _ Hs) as Hn. rewrite (hi_files _ _ _ Hs) in Hn. by apply NoDup_app in Hn as (_ & _ & ?).
Qed.

(** What a stream holds and may still use is open. *)
Lemma held_open w0 gone s i t f :
  handles_inv w0 gone s -> sv_threads s !! i = Some t -> ~ done_with_files (t_prog t) ->
  f ∈ held (t_hist t) -> f ∈ open_files (sv_world s).
Proof.
  intros Hs Hi Hd Hf. assert (Hin : f ∈ open_files (sv_world s) ++ gone).
  { rewrite (hi_files _ _ _ Hs). apply elem_of_app. right. apply list_elem_of_join. exists (held (t_hist t)).
    split; [done|]. by eapply list_elem_of_lookup_2, held_lookup. }
  apply elem_of_app in Hin as [|Hg]; [done|]. destruct (hi_gone _ _ _ Hs f Hg) as (j & tj & Hj & Hdj & Hfj).
  exfalso. apply Hd. assert (i = j) as <- by (by eapply held_unique). by simplify_eq.
Qed.

(** The machine after a step of a stream: its open files change as the stream's
    history says, and a new one is really new. *)
Definition moves (w w' : World) (open open' : list handle) : Prop :=
  open_files w' ++ open ≡ₚ open_files w ++ open' /\
  (forall f, f ∈ open_files w' -> f ∈ open_files w \/ (length (w_handles w) <= f)%nat) /\
  (length (w_handles w) <= length (w_handles w'))%nat.

Lemma moves_same w open : moves w w open open.
Proof. by split_and!; [|left|]. Qed.

(** What an operation does to the handles of the machine. *)
Lemma answer_handles o a w w' :
  world_answer o w = Some (a, w') ->
  w_handles w' = w_handles w \/ (exists x, w_handles w' = w_handles w ++ [Some x]) \/
  exists f x y, w_handles w !! f = Some (Some x) /\ w_handles w' = <[f := y]> (w_handles w).
Proof.
  intros Hw. destruct o as [n|b| | |n| |p|f|f n off|p|p|f b|f]; cbn in Hw; try discriminate Hw.
  1,2,6: injection Hw as _ <-; by left.
  - destruct (w_files w !! p); injection Hw as _ <-; [right; left; by eexists|by left].
  - destruct (open_file w f) as [[[p off] c]|]; injection Hw as _ <-; by left.
  - destruct (open_file w f) as [[[p off'] c]|]; [case_decide|]; injection Hw as _ <-; by left.
  - injection Hw as _ <-. right. left. by eexists.
  - unfold open_file in Hw. destruct (w_handles w !! f) as [[[p off]|]|] eqn:Hf; cbn in Hw;
      [|injection Hw as _ <-; by left..].
    destruct (w_files w !! p); cbn in Hw; injection Hw as _ <-; [|by left]. right. right. by eexists f, _, _.
  - destruct (w_handles w !! f) as [[x|]|] eqn:Hf; injection Hw as _ <-; [|by left..]. right. right. by eexists f, x, _.
Qed.

(** An operation the machine answers. *)
Lemma answer_moves o a w w' open open' :
  world_answer o w = Some (a, w') -> track1 open (event_of o a) = Some open' ->
  (forall f, f ∈ open -> f ∈ open_files w) -> moves w w' open open'.
Proof.
  intros Hw Ht Hin. split; [by eapply answer_open_files|].
  destruct (answer_handles o a w w' Hw) as [Hh|[[x Hh]|(f & x & y & Hf & Hh)]].
  - rewrite Hh. split; [|done]. intros f. rewrite !elem_of_open_files, Hh. by left.
  - rewrite Hh, length_app. split; [|lia]. intros f. rewrite !elem_of_open_files, Hh.
    destruct (decide (f < length (w_handles w))%nat); [rewrite lookup_app_l by done; by left|right; lia].
  - rewrite Hh, length_insert. split; [|done]. intros g. rewrite !elem_of_open_files, Hh.
    destruct (decide (g = f)) as [->|Hne]; [rewrite Hf; left; by eexists|]. rewrite list_lookup_insert_ne by done. by left.
Qed.

Lemma handles_advance w0 gone s w i t o k a :
  handles_inv w0 gone s -> sv_threads s !! i = Some t -> t_prog t = Vis o k -> wf_event (event_of o a) ->
  (forall open open', held (t_hist t) = open -> track1 open (event_of o a) = Some open' ->
     moves (sv_world s) w open open') ->
  handles_inv w0 gone (advance s w i t o k a).
Proof.
  intros Hs Hi Hp Hwf Hmove. pose proof Hs as [Ht Hf Hn Hold Hgone]. pose proof (Ht i t Hi) as Hl. rewrite Hp in Hl.
  pose proof (leads_step _ _ _ _ a Hl Hwf) as Hl'.
  destruct (stream_one_open _ _ Hl) as (open & Hop & _), (stream_one_open _ _ Hl') as (open' & Hop' & _).
  rewrite track_app, Hop in Hop'. cbn in Hop'.
  destruct (track1 open (event_of o a)) as [open1|] eqn:H1; [|done]. injection Hop' as ->.
  assert (Hheld : held (t_hist t) = open) by (unfold held; by rewrite Hop).
  assert (Hheld' : held (t_hist t ++ [event_of o a]) = open').
  { unfold held. rewrite track_app, Hop. cbn. by rewrite H1. }
  destruct (Hmove open open' Hheld H1) as (Hperm & Hnew & Hlen).
  split; cbn [sv_threads sv_world advance].
  - intros j t' [(<- & <- & _)|[_ Hj]]%list_lookup_insert_Some; [done|by apply (Ht j)].
  - unfold histories. cbn [sv_threads advance]. rewrite !list_fmap_insert. cbn [t_hist]. fold (histories s).
    pose proof (held_lookup s i t Hi) as Hh. rewrite Hheld in Hh. rewrite Hheld'.
    destruct (join_at _ _ _ open' Hh) as (rest & Hr & ->). rewrite Hr in Hf.
    apply (Permutation_app_inv_r open). transitivity ((open_files w ++ open) ++ gone); [solve_Permutation|].
    rewrite Hperm. transitivity ((open_files (sv_world s) ++ gone) ++ open'); [solve_Permutation|].
    rewrite Hf. solve_Permutation.
  - apply NoDup_app in Hn as (_ & Hd & Hg). apply NoDup_app. split_and!; [apply NoDup_open_files| |done].
    intros f [Hf'|Hf']%Hnew Hfg; [by apply (Hd f)|]. apply Hold in Hfg. lia.
  - intros f Hfg%Hold. lia.
  - intros f (j & tj & Hj & Hdj & Hfj)%Hgone. destruct (decide (j = i)) as [->|Hne].
    2:{ exists j, tj. by rewrite list_lookup_insert_ne. }
    assert (tj = t) as -> by congruence. rewrite Hp in Hdj. destruct Hdj as [Ho Hk].
    exists i, (mkThread (k a) (t_hist t ++ [event_of o a])). split_and!.
    + apply list_lookup_insert_eq. by eapply lookup_lt_Some.
    + apply Hk.
    + cbn [t_hist]. rewrite Hheld'. assert (open' = held (t_hist t)) as ->; [|done].
      rewrite Hheld. by destruct o; cbn in H1; simplify_eq.
Qed.

(** A goroutine in the middle of an operation of the machine. *)
Lemma not_done o (k : ans o -> prog unit) : is_stream_op o = false -> ~ done_with_files (Vis o k).
Proof. intros Ho [Hs _]. congruence. Qed.

(** The finalizer. *)
Lemma handles_finalizer w0 gone s t f :
  handles_inv w0 gone s -> t ∈ sv_threads s -> done_with_files (t_prog t) -> f ∈ held (t_hist t) ->
  exists gone', handles_inv w0 gone'
    (mkServer (set_handles (sv_world s) (<[f := None]> (w_handles (sv_world s)))) (sv_threads s)).
Proof.
  intros Hs [i Hi]%list_elem_of_lookup Hd Hf. pose proof Hs as [Ht Hfs Hn Hold Hgone].
  assert (Hin : f ∈ open_files (sv_world s) ++ gone).
  { rewrite Hfs. apply elem_of_app. right. apply list_elem_of_join. exists (held (t_hist t)).
    split; [done|]. by eapply list_elem_of_lookup_2, held_lookup. }
  set (w' := set_handles _ _). apply elem_of_app in Hin as [Hin|Hin].
  - pose proof Hin as [x Hx]%elem_of_open_files. destruct (w_handles (sv_world s) !! f) as [[y|]|] eqn:Hy; try done.
    pose proof (open_files_close (sv_world s) w' f y Hy eq_refl) as Hc.
    assert (Hperm : open_files w' ++ f :: gone ≡ₚ open_files (sv_world s) ++ gone) by (rewrite Hc; solve_Permutation).
    exists (f :: gone). split; cbn [sv_world sv_threads]; [done|by rewrite Hperm|by rewrite Hperm| |].
    + intros g [->|Hg]%elem_of_cons; cbn; rewrite length_insert; [by eapply lookup_lt_Some|by apply Hold].
    + intros g [->|Hg]%elem_of_cons; [by exists i, t|by apply Hgone].
  - assert (Hsame : open_files w' ≡ₚ open_files (sv_world s)).
    { apply open_files_eq; [apply NoDup_open_files|]. intros g. rewrite elem_of_open_files. cbn.
      destruct (decide (g = f)) as [->|Hne]; [|by rewrite list_lookup_insert_ne].
      rewrite list_lookup_insert_eq by by apply Hold. split; [|by intros []].
      intros Hg%elem_of_open_files. apply NoDup_app in Hn as (_ & Hdis & _). by apply Hdis in Hg. }
    exists gone. split; cbn [sv_world sv_threads]; [done|by rewrite Hsame|by rewrite Hsame| |done].
    intros g Hg. cbn. rewrite length_insert. by apply Hold.
Qed.

Lemma handles_step w0 gone s s' : handles_inv w0 gone s -> life_step s s' -> exists gone', handles_inv w0 gone' s'.
Proof.
  intros Hs [s1 [Ha|i t o k a w Ha Hi Hp Hw Hwf|i t o k a Ha Hi Hp Ho Hwf]
    |i t o k a w Ha Hi Hp Hwf Hfail Hsame Hlen|i t f k a e w Ha Hi Hp Hw|t f Ha Hin Hd Hf].
  - exists gone. destruct Hs as [Ht Hf Hn Hold Hg]. split; cbn [accept sv_threads sv_world]; [|..|done|].
    + intros i t [Hi|[_ Hi]]%lookup_app_Some; [by apply (Ht i)|].
      apply list_lookup_singleton_Some in Hi as [_ <-]. apply leads_refl.
    + unfold histories in *. cbn [accept sv_threads]. rewrite !fmap_app, join_app. cbn. by rewrite app_nil_r.
    + done.
    + intros f (i & t & Hi & Hr)%Hg. exists i, t. split; [by apply lookup_app_l_Some|done].
  - exists gone. eapply handles_advance; [done..|]. intros open open' Hop H1.
    eapply answer_moves; [exact Hw|exact H1|]. intros f Hf. rewrite <-Hop in Hf. eapply held_open; [done|done| |done].
    rewrite Hp. apply not_done. by destruct o.
  - exists gone. eapply handles_advance; [done..|]. intros open open' _ H1.
    assert (open' = open) as ->; [|apply moves_same]. by destruct o; cbn in H1; simplify_eq.
  - exists gone. eapply handles_advance; [done..|]. intros open open' _ H1.
    assert (open' = open) as ->.
    { destruct o; cbn in Hfail; try done; try (destruct a; [done|]); cbn in H1; try case_decide; by simplify_eq. }
    split_and!; [by rewrite Hsame|rewrite Hsame; by left|lia].
  - exists gone. eapply handles_advance; [done..|done|]. intros open open' Hop H1.
    eapply (answer_moves (OFileClose f) a); [exact Hw|exact H1|]. intros g Hg. rewrite <-Hop in Hg.
    eapply held_open; [done|done| |done]. rewrite Hp. by apply not_done.
  - by eapply handles_finalizer.
Qed.

Lemma handles_reachable w s : rtc life_step (mkServer w []) s -> exists gone, handles_inv w gone s.
Proof.
  intros Hr. assert (Hs : exists gone, handles_inv w gone (mkServer w [])).
  { exists []. split; [done|done| |..]; try (intros f Hf; by apply not_elem_of_nil in Hf).
    rewrite app_nil_r. apply NoDup_open_files. }
  revert Hs. generalize w at 1 3. induction Hr as [|s1 s2 s3 H12 _ IH]; [done|].
  intros w0 [gone Hs]. apply IH. by eapply handles_step.
Qed.

(** The steps of [sv_step] alone. *)
Lemma life_of_sv s s' : rtc (sv_step fuel) s s' -> rtc life_step s s'.
Proof. induction 1 as [|s1 s2 s3 H12 _ IH]; [done|]. eapply rtc_l; [by apply life_sv|done]. Qed.

End server.

(** ** Properties *)

(** C12: a transfer and its file.  At every moment, whatever the peer and the disk
    do, a sender and a receiver use only a file they have open, never have more
    than one open, and close none twice.  A [SendFile] that returns or panics
    has closed its file.  A [RecieveFile] that returns [nil] has closed its file
    too; one that returns an error has either created no file, or left the file
    it created open exactly when fewer chunks than announced are written to it. *)
Theorem file_handles `{LegacyKeccak256} fuel path tr :
  (partial (SendFile fuel path) tr \/ partial (RecieveFile fuel) tr ->
   exists open, track [] tr = Some open /\ (length open <= 1)%nat) /\
  (forall e, exec (SendFile fuel path) tr (Done e) -> track [] tr = Some []) /\
  (forall why, exec (SendFile fuel path) tr (Halted (Panic why)) -> track [] tr = Some []) /\
  (exec (RecieveFile fuel) tr (Done None) -> track [] tr = Some []) /\
  (forall e, exec (RecieveFile fuel) tr (Done (Some e)) ->
   (creates tr = [] /\ track [] tr = Some []) \/
   exists h f, created_for h f tr /\
     track [] tr = Some (if decide (written tr < md_Reps h) then [f] else [])).
Proof.
  pose proof (wp_SendFile_handles fuel path) as HS. pose proof (wp_RecieveFile_handles fuel) as HR.
  pose proof (one_open_none [] eq_refl) as H0. split_and!.
  - intros [Hp|Hp]; [exact (wp_partial _ _ _ _ _ H0 HS Hp)|exact (wp_partial _ _ _ _ _ H0 HR Hp)].
  - intros e He. exact (wp_exec _ _ _ _ _ _ HS He).
  - intros why He. exact (wp_exec _ _ _ _ _ _ HS He).
  - intros He. by apply (wp_exec _ _ _ _ _ _ HR He).
  - intros e He. apply (wp_exec _ _ _ _ _ _ HR He).
Qed.

(** C21: the open files of a server.  However its streams are interleaved, whatever
    the peers send, whichever operations of the machine fail and whenever
    finalizers run: the files open on its machine are among those that were open
    at its start, which stay open, and those its streams have opened and not
    closed, at most one each.  The file of a stream that may still use it is
    open.  A stream that is over has closed its file, unless it was an upload in
    which fewer chunks are written than the header it received after its request
    announced: that file is left to its finalizer. *)
Theorem server_handles `{LegacyKeccak256} fuel w s :
  rtc (life_step fuel) (mkServer w []) s ->
  open_files (sv_world s) ⊆+ open_files w ++ mjoin (held <$> histories s) /\
  open_files w ⊆ open_files (sv_world s) /\
  forall t, t ∈ sv_threads s -> (length (held (t_hist t)) <= 1)%nat /\
    (~ done_with_files (t_prog t) -> held (t_hist t) ⊆ open_files (sv_world s)) /\
    (t_prog t = Ret tt -> held (t_hist t) = [] \/
       exists h f, upload_of h f (t_hist t) /\ written (t_hist t) < md_Reps h /\ held (t_hist t) = [f]).
Proof.
  intros [gone Hs]%handles_reachable. pose proof Hs as [Ht Hf Hn _ Hg]. split_and!.
  - rewrite <-Hf. by apply submseteq_inserts_r.
  - intros f Hw. assert (Hin : f ∈ open_files (sv_world s) ++ gone) by (rewrite Hf; set_solver).
    apply elem_of_app in Hin as [|Hfg]; [done|exfalso]. destruct (Hg f Hfg) as (i & t & Hi & _ & Hh).
    rewrite Hf in Hn. apply NoDup_app in Hn as (_ & Hd & _). apply (Hd f Hw). apply list_elem_of_join.
    exists (held (t_hist t)). split; [done|]. by eapply list_elem_of_lookup_2, held_lookup.
  - intros t [i Hi]%list_elem_of_lookup. pose proof (Ht i t Hi) as Hl.
    destruct (stream_one_open _ _ _ Hl) as (open & Ho & Hlen). split_and!.
    + unfold held. by rewrite Ho.
    + intros Hd f Hin. by eapply held_open.
    + intros Hp. rewrite Hp in Hl.
      pose proof (leads_exec _ _ _ [] (Done tt) Hl (conj eq_refl eq_refl)) as He. rewrite app_nil_r in He.
      pose proof (wp_exec _ _ _ _ _ _ (wp_HandleStream_handles _) He) as [Hst|(h & f & Hu & Hw & Hst)];
        cbn [app] in *; unfold held; rewrite Hst; [by left|right]. by exists h, f.
Qed.
