(* ===== verification/Log.v ===== *)
(** * Log: the lines the state machine logs

    [Session.Transition] and [Session.Fail] print what they do with [log.Printf].
    Here they and the functions that lead to them return their lines too; the
    main results are that this changes nothing else, what the log of a transfer
    is line by line, and what it tells of the file. *)

From S2P Require Import Prelude Effects AesGcm Protocol Utils Merkle Wire Controllers Operations Flow.
From S2P Require Import SenderSpec ReceiverSpec Network Honest EndToEnd ChunkSpec Copy Nodes Concurrent Handles.

(** ** The lines *)

Inductive log_line : Type :=
| TransitionLine (chunk total : Z) (from to : TransferState)   (* "[Chunk %d/%d] %s -> %s" *)
| FailLine (from : TransferState) (err : error).               (* "[FSM] %s -> Error: %v" *)

(** [Session.Transition]: [s.CurrentChunk+1] is a [uint32]. *)
Definition Transition_log (s : Session) (next : TransferState) : Session * option error * list log_line :=
  if negb (isAllowed (s_state s) next)
  then (s, Some (Errorf "illegal transition %s -> %s"
                   [AString (TransferState_String (s_state s)); AString (TransferState_String next)]), [])
  else (set_state s next, None,
        [TransitionLine (u32 (s_CurrentChunk s + 1)) (s_TotalChunks s) (s_state s) next]).

(** [Session.Fail]. *)
Definition Fail_log (s : Session) (err : error) : Session * error * list log_line :=
  (set_state s StateError, err, [FailLine (s_state s) err]).

(** [Run] with the lines logged so far. *)
Fixpoint Run_log (fuel : nat) (s : Session) (steps : StepTable) (log : list log_line)
    : prog (Session * option error * list log_line) :=
  match fuel with
  | O => Halt OutOfFuel
  | S fuel =>
      let current := GetState s in
      if bool_decide (current = StateFinished) then Ret (s, None, log) else
      if bool_decide (current = StateError) then
        Ret (s, Some (Errorf "session is in error state" []), log) else
      match map_get steps current with
      | None =>
          let '(s, e, l) := Fail_log s (Errorf "no step registered for state %s"
                                          [AString (TransferState_String current)]) in
          Ret (s, Some e, log ++ l)
      | Some step =>
          let! (s, r) := step s in
          match r with
          | Err err =>
              let '(s, e, l) := Fail_log s (Errorf "step %s failed: %w"
                                              [AString (TransferState_String current); AError err]) in
              Ret (s, Some e, log ++ l)
          | Ok next =>
              match Transition_log s next with
              | (s, Some err, l) => let '(s, e, l') := Fail_log s err in Ret (s, Some e, log ++ l ++ l')
              | (s, None, l) => Run_log fuel s steps (log ++ l)
              end
          end
      end
  end.

(** ** Programs that do the same *)

(** The same operations, and results in [R]. *)
Inductive sim {A B} (R : A -> B -> Prop) : prog A -> prog B -> Prop :=
| sim_ret a b : R a b -> sim R (Ret a) (Ret b)
| sim_halt h : sim R (Halt h) (Halt h)
| sim_vis o k k' : (forall a, sim R (k a) (k' a)) -> sim R (Vis o k) (Vis o k').

Create HintDb sim.
#[local] Hint Constructors sim : sim.

Lemma sim_refl {A} (R : A -> A -> Prop) (p : prog A) : (forall a, R a a) -> sim R p p.
Proof. intros HR. induction p; auto with sim. Qed.

Lemma sim_bind {A A' B B'} (R : A -> A' -> Prop) (R' : B -> B' -> Prop) p p' f f' :
  sim R p p' -> (forall a a', R a a' -> sim R' (f a) (f' a')) -> sim R' (bind p f) (bind p' f').
Proof. intros Hp Hf. induction Hp; cbn; auto with sim. Qed.

Lemma sim_bind_bind {A A' B B' C'} (R : A -> A' -> Prop) (R' : B -> C' -> Prop) p p' f (f' : A' -> prog B') g' :
  sim R p p' -> (forall a a', R a a' -> sim R' (f a) (bind (f' a') g')) -> sim R' (bind p f) (bind (bind p' f') g').
Proof. intros Hp Hf. induction Hp; cbn; auto with sim. Qed.

Lemma sim_defer {A A' B} (R : A -> A' -> Prop) (d : prog B) p p' : sim R p p' -> sim R (defer d p) (defer d p').
Proof.
  intros Hp. induction Hp as [a b Hab|h|o k k' _ IH]; cbn; [|destruct h|]; auto with sim;
    (apply (sim_bind eq); [by apply sim_refl|auto with sim]).
Qed.

Lemma sim_exec {A B} (R : A -> B -> Prop) p q tr :
  sim R p q ->
  (forall a, exec p tr (Done a) -> exists b, R a b /\ exec q tr (Done b)) /\
  (forall b, exec q tr (Done b) -> exists a, R a b /\ exec p tr (Done a)) /\
  (forall h, exec p tr (Halted h) <-> exec q tr (Halted h)).
Proof.
  intros Hs. revert tr. induction Hs as [a b Hab|h|o k k' _ IH]; intros tr.
  - split_and!; cbn; naive_solver.
  - split_and!; cbn; naive_solver.
  - split_and!.
    + intros a (x & tr' & Hx & -> & (b & Hb & He)%(IH x)). exists b. split; [done|]. by exists x, tr'.
    + intros b (x & tr' & Hx & -> & (a & Ha & He)%(IH x)). exists a. split; [done|]. by exists x, tr'.
    + intros h. split; intros (x & tr' & Hx & -> & He%(IH x)); by exists x, tr'.
Qed.

(** The lines do not change what is done and returned. *)
Lemma Run_log_erases fuel s steps log :
  sim (fun x y => x.1 = y) (Run_log fuel s steps log) (Run fuel s steps).
Proof.
  revert s log. induction fuel as [|fuel IH]; intros s log; [constructor|].
  cbn [Run Run_log]. unfold RunIter. case_bool_decide; [by constructor|]. case_bool_decide; [by constructor|].
  destruct (map_get steps (GetState s)) as [step|]; [|by constructor].
  apply (sim_bind_bind eq); [by apply sim_refl|]. intros [s' r] _ <-.
  destruct r as [next|err]; [|by constructor]. unfold Transition_log, Transition.
  destruct (negb _); [by constructor|apply IH].
Qed.

(** ** A rule for [Run] with its log *)

Definition anything (tr : list event) : Prop := True.

Section run_log.
Context (steps : StepTable) (Inv : Session -> list log_line -> list event -> Prop).
Context (Post : option error -> list log_line -> list event -> Prop).

Definition logged_step (log : list log_line) (r : outcome (Session * res TransferState)) (tr : list event) : Prop :=
  match r with
  | Done (s', Ok next) => isAllowed (s_state s') next = true /\
      Inv (set_state s' next)
        (log ++ [TransitionLine (u32 (s_CurrentChunk s' + 1)) (s_TotalChunks s') (s_state s') next]) tr
  | Done (s', Err _) => forall e, Post (Some e) (log ++ [FailLine (s_state s') e]) tr
  | Halted _ => True
  end.

Hypothesis Inv_finished : forall s log tr, Inv s log tr -> s_state s = StateFinished -> Post None log tr.
Hypothesis Inv_step : forall s log tr, Inv s log tr -> s_state s <> StateFinished ->
  s_state s <> StateError /\ exists step, map_get steps (s_state s) = Some step /\
    wp anything (step s) (logged_step log) tr.

Lemma wp_Run_log fuel s log tr :
  Inv s log tr ->
  wp anything (Run_log fuel s steps log)
    (fun r tr' => match r with Done (_, e, log') => Post e log' tr' | Halted _ => True end) tr.
Proof using Inv_finished Inv_step.
  revert s log tr. induction fuel as [|fuel IH]; intros s log tr Hs; [done|]. cbn [Run_log]. unfold GetState.
  case_bool_decide as Hfin; [by eapply Inv_finished|].
  destruct (Inv_step s log tr Hs Hfin) as (Herr & step & -> & Hstep). rewrite bool_decide_false by done.
  apply wp_bind_halt. eapply wp_mono; [exact Hstep|].
  intros [[s' [next|err]]|h] tr'; [|by intros Hp; apply Hp|done].
  intros [Hal Hs']. unfold Transition_log. rewrite Hal. by apply IH.
Qed.

End run_log.

(** ** What the log of a transfer should be *)

(** A session as the log shows it: its state, current chunk and total. *)
Abbreviation position := (TransferState * Z * Z)%type.

(** The lines for a sequence of positions: a transition is logged with the
    counters the session has when it is made. *)
Fixpoint lines (l : list position) : list log_line :=
  match l with
  | (from, _, _) :: (((to, k, n) :: _) as l) => TransitionLine (k + 1) n from to :: lines l
  | _ => []
  end.

Lemma lines_snoc l st k n st' k' n' :
  lines (l ++ [(st, k, n); (st', k', n')]) = lines (l ++ [(st, k, n)]) ++ [TransitionLine (k' + 1) n' st st'].
Proof.
  induction l as [|[[st0 k0] n0] l IH]; [done|]. destruct l as [|[[st1 k1] n1] l]; [done|].
  cbn in *. by rewrite IH.
Qed.

(** [m] rounds of the states [cycle] from chunk [k] of [n] on, and the end. *)
Fixpoint rounds (cycle : list TransferState) (m : nat) (k n : Z) : list position :=
  match m with
  | O => [(StateVerifyMerkle, k - 1, n); (StateFinished, k - 1, n)]
  | S m => ((fun st => (st, k, n)) <$> cycle) ++ rounds cycle m (k + 1) n
  end.

Definition all_rounds (cycle : list TransferState) (n : Z) : list position :=
  if decide (n = 0) then [(StateFinished, 0, n)] else rounds cycle (Z.to_nat n) 0 n.

Definition sender_cycle : list TransferState :=
  [StateWaitingChunkRequest; StateSendChunkResponse; StateWaitingLotteryTicket; StateSendKeyReveal].

Definition receiver_cycle : list TransferState :=
  [StateSendChunkRequest; StateWaitingChunkResponse; StateSendLotteryTicket; StateWaitingKeyReveal;
   StateVerifyChunk].

(** The way of a sender and of a receiver through a transfer of [n] chunks; the
    receiver does not know [n] before it has the header. *)
Definition sender_visits (n : Z) : list position :=
  (StateIdle, 0, n) :: (StateSendHeader, 0, n) :: all_rounds sender_cycle n.

Definition receiver_visits (n : Z) : list position :=
  (StateIdle, 0, 0) :: (StateReceiveHeader, 0, 0) :: all_rounds receiver_cycle n.

(** The log of a transfer on the way [visits] that returned [e]: all of it and
    nothing else, or up to some point before its end and then a failure
    there, with the error returned. *)
Definition logs (visits : list position) (e : option error) (log : list log_line) : Prop :=
  exists past p rest, visits = past ++ p :: rest /\
    match e with
    | None => rest = [] /\ log = lines (past ++ [p])
    | Some err => rest <> [] /\ log = lines (past ++ [p]) ++ [FailLine p.1.1 err]
    end.

(** The session is at a position of its way, with the positions [rest] ahead. *)
Definition on_way (visits rest : list position) (s : Session) (log : list log_line) : Prop :=
  exists past, visits = past ++ (s_state s, s_CurrentChunk s, s_TotalChunks s) :: rest /\
    log = lines (past ++ [(s_state s, s_CurrentChunk s, s_TotalChunks s)]).

Lemma on_way_step visits rest rest' s s' next log :
  on_way visits rest s log -> s_state s' = s_state s -> 0 <= s_CurrentChunk s' < 2 ^ 32 - 1 ->
  rest = (next, s_CurrentChunk s', s_TotalChunks s') :: rest' ->
  on_way visits rest' (set_state s' next)
    (log ++ [TransitionLine (u32 (s_CurrentChunk s' + 1)) (s_TotalChunks s') (s_state s') next]).
Proof.
  intros (past & Hv & ->) Hst Hk ->. eexists (past ++ [_]). split; [by rewrite <-app_assoc|].
  cbn. rewrite <-app_assoc, Hst, u32_small by (unfold is_u32; lia). symmetry. apply lines_snoc.
Qed.

Lemma on_way_fails visits rest s s' log e :
  on_way visits rest s log -> s_state s' = s_state s -> rest <> [] ->
  logs visits (Some e) (log ++ [FailLine (s_state s') e]).
Proof. intros (past & Hv & ->) -> Hr. by eexists past, _, rest. Qed.

Lemma on_way_ends visits s log : on_way visits [] s log -> logs visits None log.
Proof. intros (past & Hv & ->). by eexists past, _, []. Qed.

(** What is ahead in the middle of a round. *)
Definition ahead (cycle : list TransferState) (st : TransferState) (k n : Z) : list position :=
  ((fun st => (st, k, n)) <$> match list_find (.= st) cycle with Some (i, _) => drop (S i) cycle | None => [] end)
  ++ rounds cycle (Z.to_nat (n - k - 1)) (k + 1) n.

Lemma last_round cycle n : 0 < n ->
  rounds cycle (Z.to_nat (n - (n - 1) - 1)) (n - 1 + 1) n =
  [(StateVerifyMerkle, n - 1, n); (StateFinished, n - 1, n)].
Proof.
  intros Hn. replace (n - (n - 1) - 1) with 0 by lia. change (Z.to_nat 0) with 0%nat. cbn [rounds].
  by replace (n - 1 + 1 - 1) with (n - 1) by lia.
Qed.

Lemma next_round cycle k n : 0 <= k < n - 1 ->
  rounds cycle (Z.to_nat (n - k - 1)) (k + 1) n =
  ((fun st => (st, k + 1, n)) <$> cycle) ++ rounds cycle (Z.to_nat (n - (k + 1) - 1)) (k + 1 + 1) n.
Proof.
  intros Hk. replace (Z.to_nat (n - k - 1)) with (S (Z.to_nat (n - (k + 1) - 1))) by lia. done.
Qed.

Lemma first_round cycle n : 0 < n ->
  all_rounds cycle n = ((fun st => (st, 0, n)) <$> cycle) ++ rounds cycle (Z.to_nat (n - 0 - 1)) (0 + 1) n.
Proof.
  intros Hn. unfold all_rounds. rewrite decide_False by lia.
  replace (Z.to_nat n) with (S (Z.to_nat (n - 0 - 1))) by lia. done.
Qed.

(** A session in the transfer of [n] chunks, after the header. *)
Definition in_rounds (cycle : list TransferState) (visits : list position) (n : Z) (s : Session)
    (log : list log_line) : Prop :=
  s_TotalChunks s = n /\ is_u32 n /\
  match s_state s with
  | StateVerifyMerkle => 0 <= s_CurrentChunk s < n /\ on_way visits [(StateFinished, s_CurrentChunk s, n)] s log
  | StateFinished => on_way visits [] s log
  | st => st ∈ cycle /\ 0 <= s_CurrentChunk s < n /\ on_way visits (ahead cycle st (s_CurrentChunk s) n) s log
  end.

(** What a step does to the way, and when it fails. *)
Definition way_step (Way : Session -> list log_line -> Prop) (Fails : list log_line -> option error -> Prop)
    (log : list log_line) (s : Session) (x : Session * res TransferState) : Prop :=
  s_state x.1 = s_state s /\
  match x.2 with
  | Ok next => isAllowed (s_state x.1) next = true /\
      Way (set_state x.1 next)
        (log ++ [TransitionLine (u32 (s_CurrentChunk x.1 + 1)) (s_TotalChunks x.1) (s_state x.1) next])
  | Err _ => forall e, Fails (log ++ [FailLine (s_state x.1) e]) (Some e)
  end.

Section rounds.
Context (cycle : list TransferState) (visits : list position) (n : Z).

Abbreviation round_step := (way_step (in_rounds cycle visits n) (fun log e => logs visits e log)).

(** A step inside a round. *)
Lemma round_talks (step : Step) s log st st' :
  in_rounds cycle visits n s log -> s_state s = st ->
  st <> StateVerifyMerkle -> st <> StateFinished -> st' <> StateVerifyMerkle -> st' <> StateFinished ->
  isAllowed st st' = true -> st' ∈ cycle ->
  (forall k, ahead cycle st k n = (st', k, n) :: ahead cycle st' k n) ->
  does (fun _ => True) (fun '(s', r) => same_counters s s' /\ forall next, r = Ok next -> next = st') (step s) ->
  does (fun _ => True) (round_step log s) (step s).
Proof.
  intros (HT & Hn & Hs) Hst Hv1 Hf1 Hv2 Hf2 Hal Hin Hah. rewrite Hst in Hs.
  assert (st ∈ cycle /\ 0 <= s_CurrentChunk s < n /\ on_way visits (ahead cycle st (s_CurrentChunk s) n) s log)
    as (_ & Hk & Hw) by (by destruct st). clear Hs. unfold is_u32 in Hn.
  apply does_mono; [done|]. intros [s' [next|err]] [(Hs' & _ & HT' & Hk') Hnext]; (split; [done|]); cbn.
  - rewrite (Hnext next eq_refl) in *. rewrite Hs', Hst. split; [done|].
    assert (Hw' : on_way visits (ahead cycle st' (s_CurrentChunk s') n) (set_state s' st')
      (log ++ [TransitionLine (u32 (s_CurrentChunk s' + 1)) (s_TotalChunks s') (s_state s') st'])).
    { eapply on_way_step; [exact Hw|done|lia|]. by rewrite Hah, HT', HT, Hk'. }
    rewrite Hs', Hst in Hw'. split; [cbn; lia|]. split; [done|]. cbn. rewrite Hk' in *. by destruct st'.
  - intros e. eapply on_way_fails; [exact Hw|done|]. by rewrite Hah.
Qed.

(** The first state of a round and the last. *)
Context (first last : TransferState).
Hypothesis first_ahead : forall k,
  ((fun st => (st, k, n)) <$> cycle) ++ rounds cycle (Z.to_nat (n - k - 1)) (k + 1) n
  = (first, k, n) :: ahead cycle first k n.
Hypothesis last_ahead : forall k, ahead cycle last k n = rounds cycle (Z.to_nat (n - k - 1)) (k + 1) n.
Hypothesis first_in : first ∈ cycle /\ first <> StateVerifyMerkle /\ first <> StateFinished.

Lemma in_rounds_first s log :
  s_TotalChunks s = n -> is_u32 n -> 0 <= s_CurrentChunk s < n -> s_state s = first ->
  on_way visits (ahead cycle first (s_CurrentChunk s) n) s log -> in_rounds cycle visits n s log.
Proof using All.
  intros HT Hn Hk Hst Hw. split; [done|]. split; [done|]. rewrite Hst.
  destruct first_in as (Hin & Hv & Hf). by destruct first.
Qed.

(** The step that ends a round. *)
Lemma round_ends (step : Step) s log :
  in_rounds cycle visits n s log -> s_state s = last -> last <> StateVerifyMerkle -> last <> StateFinished ->
  isAllowed last first = true -> isAllowed last StateVerifyMerkle = true ->
  does (fun _ => True) (fun '(s', r) => s_state s' = s_state s /\ s_TotalChunks s' = s_TotalChunks s /\
    forall next, r = Ok next ->
      if decide (s_CurrentChunk s = n - 1) then next = StateVerifyMerkle /\ s_CurrentChunk s' = s_CurrentChunk s
      else next = first /\ s_CurrentChunk s' = s_CurrentChunk s + 1) (step s) ->
  does (fun _ => True) (round_step log s) (step s).
Proof using All.
  intros (HT & Hn & Hs) Hst Hv Hf Hal Hal'. rewrite Hst in Hs.
  assert (last ∈ cycle /\ 0 <= s_CurrentChunk s < n /\ on_way visits (ahead cycle last (s_CurrentChunk s) n) s log)
    as (_ & Hk & Hw) by (by destruct last). clear Hs. rewrite last_ahead in Hw. unfold is_u32 in Hn.
  apply does_mono; [done|]. intros [s' [next|err]] (Hs' & HT' & Hnext); (split; [done|]); cbn.
  - specialize (Hnext next eq_refl). case_decide as Hlast; destruct Hnext as [-> Hk'].
    + rewrite Hlast, last_round in Hw by lia. split; [by rewrite Hs', Hst|].
      split; [cbn; lia|]. split; [done|]. cbn. split; [lia|]. rewrite Hk', Hlast.
      rewrite <-Hlast at 2. rewrite <-Hk'.
      eapply on_way_step; [exact Hw|done|lia|]. by rewrite Hk', HT', HT, Hlast.
    + rewrite next_round, first_ahead in Hw by lia. split; [by rewrite Hs', Hst|].
      apply in_rounds_first; [cbn; lia|done|cbn; lia|done|]. cbn [s_CurrentChunk set_state]. rewrite Hk'.
      rewrite <-Hk' at 2. eapply on_way_step; [exact Hw|done|lia|]. by rewrite Hk', HT', HT.
  - intros e. eapply on_way_fails; [exact Hw|done|]. destruct (Z.to_nat (n - s_CurrentChunk s - 1)); [done|].
    cbn. destruct first_in as (Hin & _). by destruct cycle; [apply elem_of_nil in Hin|].
Qed.

(** The step after the last round. *)
Lemma rounds_end (step : Step) s log :
  in_rounds cycle visits n s log -> s_state s = StateVerifyMerkle ->
  does (fun _ => True) (fun '(s', r) => same_counters s s' /\ forall next, r = Ok next -> next = StateFinished) (step s) ->
  does (fun _ => True) (round_step log s) (step s).
Proof.
  intros (HT & Hn & Hs) Hst. rewrite Hst in Hs. destruct Hs as [Hk Hw]. unfold is_u32 in Hn.
  apply does_mono; [done|]. intros [s' [next|err]] [(Hs' & _ & HT' & Hk') Hnext]; (split; [done|]); cbn.
  - rewrite (Hnext next eq_refl) in *. split; [by rewrite Hs', Hst|]. split; [cbn; lia|]. split; [done|].
    cbn. eapply on_way_step; [exact Hw|done|lia|]. by rewrite HT', HT, Hk'.
  - intros e. by eapply on_way_fails; [exact Hw|done|].
Qed.

(** The step that knows the number of chunks. *)
Lemma rounds_start s s' next log :
  on_way visits (all_rounds cycle n) s log -> is_u32 n -> s_state s' = s_state s -> s_CurrentChunk s' = 0 ->
  s_TotalChunks s' = n -> next = (if decide (n = 0) then StateFinished else first) ->
  in_rounds cycle visits n (set_state s' next)
    (log ++ [TransitionLine (u32 (s_CurrentChunk s' + 1)) (s_TotalChunks s') (s_state s') next]).
Proof using All.
  intros Hw Hn Hs' Hk HT ->. unfold is_u32 in Hn. case_decide as H0.
  - split; [cbn; lia|]. split; [done|]. cbn. eapply on_way_step; [exact Hw|done|lia|].
    unfold all_rounds. rewrite decide_True by done. by rewrite Hk, HT.
  - rewrite first_round, first_ahead in Hw by lia.
    apply in_rounds_first; [done|done|cbn; lia|done|]. cbn [s_CurrentChunk set_state].
    rewrite Hk at 1. eapply on_way_step; [exact Hw|done|lia|]. by rewrite Hk, HT.
Qed.

End rounds.

(** ** The log of a transfer *)

Section transfers.
Context `{LegacyKeccak256}.

Definition SendFile_log (fuel : nat) (path : string) : prog (option error * list log_line) :=
  let! r := perform (OOpenFile path) in
  match r with
  | Err _ => Halt (Fatal "Error reading the file:")
  | Ok file =>
      defer (perform (OFileClose file))
       (let! r := generateFileID file in
        match r with
        | Err err => Ret (Some (wrap "couldn't generate file ID: %w" err), [])
        | Ok fileID =>
            let! header := PrepareMetadata file in
            let! (s, err, log) := Run_log fuel (senderSession file header fileID) senderSteps [] in
            Ret (err, log)
        end)
  end.

Definition RecieveFile_log (fuel : nat) : prog (option error * list log_line) :=
  let! (s, err, log) := Run_log fuel (NewSession RoleReceiver) receiverSteps [] in
  Ret (err, log).

Lemma SendFile_log_erases fuel path : sim (fun x y => x.1 = y) (SendFile_log fuel path) (SendFile fuel path).
Proof.
  apply (sim_bind eq); [by apply sim_refl|]. intros [f|e] _ <-; [|constructor]. apply sim_defer.
  apply (sim_bind eq); [by apply sim_refl|]. intros [fid|e] _ <-; [|by constructor].
  apply (sim_bind eq); [by apply sim_refl|]. intros header _ <-.
  apply (sim_bind (fun x y => x.1 = y)); [apply Run_log_erases|].
  intros [[s e] log] [s' e']. cbn. intros [= <- <-]. by constructor.
Qed.

Lemma RecieveFile_log_erases fuel : sim (fun x y => x.1 = y) (RecieveFile_log fuel) (RecieveFile fuel).
Proof.
  apply (sim_bind (fun x y => x.1 = y)); [apply Run_log_erases|].
  intros [[s e] log] [s' e']. cbn. intros [= <- <-]. by constructor.
Qed.

(** *** The sender *)

Definition sender_way (n : Z) (s : Session) (log : list log_line) : Prop :=
  match s_state s with
  | StateIdle => s_CurrentChunk s = 0 /\ s_TotalChunks s = n /\ is_u32 n /\
      on_way (sender_visits n) ((StateSendHeader, 0, n) :: all_rounds sender_cycle n) s log
  | StateSendHeader => s_CurrentChunk s = 0 /\ s_TotalChunks s = n /\ is_u32 n /\
      on_way (sender_visits n) (all_rounds sender_cycle n) s log
  | _ => in_rounds sender_cycle (sender_visits n) n s log
  end.

(** A way through the rounds is one of the sender. *)
Lemma in_rounds_sender n s log : in_rounds sender_cycle (sender_visits n) n s log -> sender_way n s log.
Proof.
  intros Hs. unfold sender_way. destruct (s_state s) eqn:Hst; try done;
    destruct Hs as (_ & _ & Hs); rewrite Hst in Hs; destruct Hs as [Hin _]; set_solver.
Qed.

Lemma way_step_mono (Way Way' : Session -> list log_line -> Prop) Fails (step : Step) log s :
  (forall s log, Way s log -> Way' s log) ->
  does (fun _ => True) (way_step Way Fails log s) (step s) -> does (fun _ => True) (way_step Way' Fails log s) (step s).
Proof.
  intros HW. apply does_mono; [done|]. intros [s' [next|err]]; unfold way_step; cbn; naive_solver.
Qed.

Lemma all_rounds_cons cycle n : all_rounds cycle n <> [] \/ cycle = [].
Proof.
  unfold all_rounds. case_decide; [by left|]. destruct (Z.to_nat n); [by left|]. destruct cycle; [by right|by left].
Qed.

Lemma sender_header_way n s log :
  s_state s = StateSendHeader -> sender_way n s log ->
  does (fun _ => True) (way_step (sender_way n) (fun log e => logs (sender_visits n) e log) log s) (stepSenderSendHeader s).
Proof.
  intros Hst Hw. unfold sender_way in Hw. rewrite Hst in Hw. destruct Hw as (Hk & HT & Hn & Hw).
  unfold stepSenderSendHeader, SendHeader. cbn [perform bind]. split; [done|]. intros [e|]; cbn [bind].
  { split; [done|]. intros e'. eapply on_way_fails; [exact Hw|done|]. by destruct (all_rounds_cons sender_cycle n). }
  rewrite HT. pose proof (rounds_start sender_cycle (sender_visits n) n StateWaitingChunkRequest StateSendKeyReveal
    (fun _ => eq_refl) (fun _ => eq_refl) ltac:(split; [set_solver|done]) s s _ log Hw Hn eq_refl Hk HT eq_refl) as Hin.
  destruct (Z.eqb_spec n 0) as [H0|H0]; [rewrite decide_True in Hin by done|rewrite decide_False in Hin by done];
    (split; [done|split; [cbn; by rewrite Hst|]]); exact Hin.
Qed.

Lemma sender_way_steps n s log :
  sender_way n s log -> s_state s <> StateFinished ->
  s_state s <> StateError /\ exists step, map_get senderSteps (s_state s) = Some step /\
    does (fun _ => True) (way_step (sender_way n) (fun log e => logs (sender_visits n) e log) log s) (step s).
Proof.
  intros Hw Hfin. destruct (s_state s) eqn:Hst; try done.
  all: try (exfalso; unfold sender_way in Hw; rewrite Hst in Hw; destruct Hw as (_ & _ & Hw); rewrite Hst in Hw;
            destruct Hw as [Hin _]; set_solver).
  all: split; [done|]; eexists; (split; [reflexivity|]).
  2: by apply sender_header_way.
  { unfold sender_way in Hw. rewrite Hst in Hw. destruct Hw as (Hk & HT & Hn & Hw).
    split; [done|]. split; [cbn; by rewrite Hst|]. split_and!; [done|done|done|].
    eapply on_way_step; [exact Hw|done|cbn; lia|]. cbn. by rewrite Hk, HT. }
  all: assert (Hr : in_rounds sender_cycle (sender_visits n) n s log) by
    (unfold sender_way in Hw; by rewrite Hst in Hw).
  all: apply (way_step_mono _ _ _ _ _ _ (in_rounds_sender n)).
  - eapply round_talks with (st' := StateSendChunkResponse); [done|exact Hst|try done; try set_solver..].
    unfold stepSenderWaitChunkRequest, ReadChunkRequest, readSentinel, same_counters. solve_does. all: naive_solver.
  - eapply round_talks with (st' := StateWaitingLotteryTicket); [done|exact Hst|try done; try set_solver..].
    unfold stepSenderSendChunkResponse, ReadChunkPlaintext, BuildAndEncryptChunk, GenerateRandomKey,
      EncryptChunk, SendChunkResponse, Seal, same_counters. solve_does. all: naive_solver.
  - eapply round_talks with (st' := StateSendKeyReveal); [done|exact Hst|try done; try set_solver..].
    unfold stepSenderWaitLotteryTicket, ReadLotteryTicket, readSentinel, same_counters. solve_does. all: naive_solver.
  - eapply round_ends with (first := StateWaitingChunkRequest) (last := StateSendKeyReveal);
      [done|done|split; [set_solver|done]|done|exact Hst|done..|].
    destruct Hr as (HT & Hn & Hs). rewrite Hst in Hs. destruct Hs as (_ & Hk & _). 
    unfold stepSenderSendKeyReveal, SendKeyReveal. destruct (s_PendingChunk s) as [c|]; [|done].
    cbn [perform bind]. split; [done|]. intros [e|]; cbn [bind]; [done|].
    set (s1 := set_Leaves _ _). destruct (counters_at s1 n) as [-> Hadv]; [done|done|done|].
    case_bool_decide as Hl; cbn in Hl; cbn; (split_and!; [done|done|]); intros next [= <-];
      [by rewrite decide_True|by rewrite decide_False].
  - apply rounds_end; [done|done|].
    unfold stepSenderVerifyMerkle, SendRoot, ReadFinalAck, readSentinel, same_counters. solve_does. all: naive_solver.
Qed.

(** *** The receiver *)

Definition receiver_way (s : Session) (log : list log_line) : Prop :=
  match s_state s with
  | StateIdle => s_CurrentChunk s = 0 /\ s_TotalChunks s = 0 /\ log = []
  | StateReceiveHeader => s_CurrentChunk s = 0 /\ s_TotalChunks s = 0 /\
      log = lines [(StateIdle, 0, 0); (StateReceiveHeader, 0, 0)]
  | _ => exists n, in_rounds receiver_cycle (receiver_visits n) n s log
  end.

Definition receiver_fails (log : list log_line) (e : option error) : Prop :=
  exists n, is_u32 n /\ logs (receiver_visits n) e log.

Lemma in_rounds_receiver n s log :
  in_rounds receiver_cycle (receiver_visits n) n s log -> receiver_way s log.
Proof.
  intros Hs. unfold receiver_way. destruct (s_state s) eqn:Hst; try (by exists n);
    destruct Hs as (_ & _ & Hs); rewrite Hst in Hs; destruct Hs as [Hin _]; set_solver.
Qed.

Lemma receiver_round_way n (step : Step) log s :
  is_u32 n ->
  does (fun _ => True) (way_step (in_rounds receiver_cycle (receiver_visits n) n)
    (fun log e => logs (receiver_visits n) e log) log s) (step s) ->
  does (fun _ => True) (way_step receiver_way receiver_fails log s) (step s).
Proof.
  intros Hn. apply does_mono; [done|]. intros [s' [next|err]]; unfold way_step; cbn.
  - intros (Hs & Hal & Hin). split; [done|]. split; [done|]. by apply (in_rounds_receiver n).
  - intros [Hs Hl]. split; [done|]. intros e. by exists n.
Qed.

Lemma receiver_header_way s log :
  s_state s = StateReceiveHeader -> receiver_way s log ->
  does (fun _ => True) (way_step receiver_way receiver_fails log s) (stepReceiverReceiveHeader s).
Proof.
  intros Hst Hw. unfold receiver_way in Hw. rewrite Hst in Hw. destruct Hw as (Hk & HT & Hlog).
  assert (Hway : forall n, on_way (receiver_visits n) (all_rounds receiver_cycle n) s log).
  { intros n. exists [(StateIdle, 0, 0)]. by rewrite Hst, Hk, HT. }
  assert (Hfail : forall s' e, s_state s' = s_state s -> receiver_fails (log ++ [FailLine (s_state s') e]) (Some e)).
  { intros s' e Hs'. exists 0. split; [done|]. by eapply on_way_fails; [apply Hway|done|]. }
  unfold stepReceiverReceiveHeader.
  apply (does_bind _ (fun r => match r with Ok h => is_u32 (md_Reps h) | Err _ => True end)).
  { unfold ReadHeader, readSentinel. solve_does. }
  intros [h|e] Hreps; [|split; [done|]; intros e'; by apply Hfail]. cbn [perform bind]. split; [done|]. intros _.
  split; [done|]. intros [f|e]; [|split; [done|]; intros e'; by apply Hfail]. cbn [bind s_TotalChunks set_File set_header].
  assert (Hin : forall s' next, s_state s' = s_state s -> s_CurrentChunk s' = 0 -> s_TotalChunks s' = md_Reps h ->
    next = (if decide (md_Reps h = 0) then StateFinished else StateSendChunkRequest) ->
    receiver_way (set_state s' next)
      (log ++ [TransitionLine (u32 (s_CurrentChunk s' + 1)) (s_TotalChunks s') (s_state s') next])).
  { intros s' next H1 H2 H3 H4. apply (in_rounds_receiver (md_Reps h)).
    eapply (rounds_start receiver_cycle _ (md_Reps h) StateSendChunkRequest StateVerifyChunk); try done.
    split; [set_solver|done]. }
  destruct (Z.eqb_spec (md_Reps h) 0) as [H0|H0].
  - cbn [perform bind]. split; [done|]. intros [e|]; [split; [done|]; intros e'; by apply Hfail|].
    split; [done|]. split; [cbn; by rewrite Hst|]. apply Hin; [done|done|done|]. by rewrite decide_True.
  - split; [done|]. split; [cbn; by rewrite Hst|]. apply Hin; [done|done|done|]. by rewrite decide_False.
Qed.

Lemma receiver_way_steps s log :
  receiver_way s log -> s_state s <> StateFinished ->
  s_state s <> StateError /\ exists step, map_get receiverSteps (s_state s) = Some step /\
    does (fun _ => True) (way_step receiver_way receiver_fails log s) (step s).
Proof.
  intros Hw Hfin. destruct (s_state s) eqn:Hst; try done.
  all: try (exfalso; unfold receiver_way in Hw; rewrite Hst in Hw; destruct Hw as (n & _ & _ & Hw); rewrite Hst in Hw;
            destruct Hw as [Hin _]; set_solver).
  all: split; [done|]; eexists; (split; [reflexivity|]).
  2: by apply receiver_header_way.
  { unfold receiver_way in Hw. rewrite Hst in Hw. destruct Hw as (Hk & HT & ->).
    split; [done|]. split; [cbn; by rewrite Hst|]. cbn. by rewrite Hk, HT, Hst. }
  all: unfold receiver_way in Hw; rewrite Hst in Hw; destruct Hw as (n & Hr); assert (Hn : is_u32 n) by apply Hr.
  all: apply (receiver_round_way n); [done|].
  - eapply round_talks with (st' := StateWaitingChunkResponse); [done|exact Hst|try done; try set_solver..].
    unfold stepReceiverSendChunkRequest, SendChunkRequest, same_counters. solve_does. all: naive_solver.
  - eapply round_talks with (st' := StateSendLotteryTicket); [done|exact Hst|try done; try set_solver..].
    unfold stepReceiverWaitChunkResponse, ReadChunkResponse, readSentinel, same_counters. solve_does. all: naive_solver.
  - eapply round_talks with (st' := StateWaitingKeyReveal); [done|exact Hst|try done; try set_solver..].
    unfold stepReceiverSendLotteryTicket, SendLotteryTicket, same_counters. solve_does. all: naive_solver.
  - eapply round_talks with (st' := StateVerifyChunk); [done|exact Hst|try done; try set_solver..].
    unfold stepReceiverWaitKeyReveal, ReadKeyReveal, readSentinel, same_counters. solve_does. all: naive_solver.
  - eapply round_ends with (first := StateSendChunkRequest) (last := StateVerifyChunk);
      [done|done|split; [set_solver|done]|done|exact Hst|done..|].
    destruct Hr as (HT & _ & Hs). rewrite Hst in Hs. destruct Hs as (_ & Hk & _).
    unfold stepReceiverVerifyChunk. destruct (s_PendingChunk s) as [c|]; [|done].
    apply uses_bind; [unfold DecryptAndCheck, Open; solve_does|]. intros [c' [pt|e]]; [|done].
    cbn [s_File set_Leaves set_PendingChunk]. apply uses_bind; [by unfold fileWrite; destruct (s_File s)|].
    intros [e|]; [done|]. set (s1 := set_Leaves _ _).
    destruct (counters_at s1 n) as [-> Hadv]; [done|done|done|].
    case_bool_decide as Hl; cbn in Hl; cbn; (split_and!; [done|done|]); intros next [= <-];
      [by rewrite decide_True|by rewrite decide_False].
  - apply rounds_end; [done|done|]. apply does_defer; [by unfold fileClose; destruct (s_File s)|].
    unfold verifyMerkleBody, ReadRoot, SendFinalAck, readSentinel, same_counters. solve_does. all: naive_solver.
Qed.

(** *** The log and the file *)

(** The chunks the log reports as verified. *)
Definition is_verified_line (l : log_line) : bool :=
  match l with TransitionLine _ _ StateVerifyChunk _ => true | _ => false end.

Definition verified_lines (log : list log_line) : Z := len (filter (fun l => is_verified_line l = true) log).

Lemma verified_lines_snoc log l :
  verified_lines (log ++ [l]) = verified_lines log + (if is_verified_line l then 1 else 0).
Proof.
  unfold verified_lines. rewrite filter_app, len_app. f_equal. rewrite filter_cons.
  by destruct (is_verified_line l); [rewrite decide_True|rewrite decide_False].
Qed.

(** What a step writes to the file. *)
Definition step_writes (s : Session) (tr : list event) (r : outcome (Session * res TransferState)) (tr' : list event) : Prop :=
  match r with
  | Done (_, Ok _) => written tr' = written tr + (if decide (s_state s = StateVerifyChunk) then 1 else 0)
  | Done (_, Err _) => written tr' = written tr
  | Halted _ => True
  end.

Definition no_write_op (o : op) : Prop := match o with OFileWrite _ _ => False | _ => True end.

Lemma wp_no_write {A} (p : prog A) tr :
  uses no_write_op p -> wp anything p (fun _ tr' => written tr' = written tr) tr.
Proof.
  intros Hp. apply (wp_weaken (fun tr' => written tr' = written tr)); [done|].
  eapply wp_mono; [apply (wp_does _ no_write_op (fun _ => True)); [|exact Hp|done]|by intros r tr' [Hw _]].
  intros tr' o a Ho Hw. unfold written in *. rewrite file_writes_app, len_app, Hw.
  destruct o; try done; apply Z.add_0_r.
Qed.

Lemma receiver_step_writes s tr step :
  map_get receiverSteps (s_state s) = Some step -> wp anything (step s) (step_writes s tr) tr.
Proof.
  intros Hg. destruct (decide (s_state s = StateVerifyChunk)) as [Hv|Hv].
  - rewrite Hv in Hg. injection Hg as <-. unfold stepReceiverVerifyChunk.
    destruct (s_PendingChunk s) as [c|]; [|done]. apply wp_bind_halt.
    eapply wp_mono; [apply wp_no_write; unfold DecryptAndCheck, Open; solve_does|].
    intros [[c' [pt|e]]|h] tr' Hw; [|done|done]. cbn [s_File set_Leaves set_PendingChunk].
    unfold step_writes. destruct (s_File s) as [f|]; cbn [fileWrite perform bind]; [|done].
    intros e _. cbn [event_of]. split; [done|].
    assert (Hlen : written (tr' ++ [EvFileWrite f pt e]) = written tr + match e with None => 1 | Some _ => 0 end).
    { unfold written in *. rewrite file_writes_app, len_app, Hw. by destruct e. }
    destruct e as [e|]; [cbn; lia|]. destruct (IsLastChunk _); cbn; rewrite decide_True by done; done.
  - eapply wp_mono with (Q := fun _ tr' => written tr' = written tr).
    2:{ intros [[s' [next|e]]|h] tr' Hw; unfold step_writes; [|done|done]. rewrite decide_False by done. lia. }
    apply wp_no_write. destruct (s_state s); try done; cbn in Hg; try discriminate Hg; injection Hg as <-; try done.
    + unfold stepReceiverReceiveHeader, ReadHeader, readSentinel. solve_does.
    + unfold stepReceiverSendChunkRequest, SendChunkRequest. solve_does.
    + unfold stepReceiverWaitChunkResponse, ReadChunkResponse, readSentinel. solve_does.
    + unfold stepReceiverSendLotteryTicket, SendLotteryTicket. solve_does.
    + unfold stepReceiverWaitKeyReveal, ReadKeyReveal, readSentinel. solve_does.
    + apply does_defer; [by unfold fileClose; destruct (s_File s)|].
      unfold verifyMerkleBody, ReadRoot, SendFinalAck, readSentinel. solve_does.
Qed.

Lemma wp_and {A} (I : list event -> Prop) (p : prog A) Q Q' tr :
  wp I p Q tr -> wp I p Q' tr -> wp I p (fun r tr' => Q r tr' /\ Q' r tr') tr.
Proof.
  revert tr. induction p as [a|h|o k IH]; intros tr; cbn; [done|done|].
  intros H1 H2 a Ha. destruct (H1 a Ha), (H2 a Ha). auto.
Qed.

Lemma way_step_wp (Way : Session -> list log_line -> Prop) Fails (step : Step) log s tr :
  does (fun _ => True) (way_step Way Fails log s) (step s) ->
  wp anything (step s) (fun r _ => match r with Done x => way_step Way Fails log s x | Halted _ => True end) tr.
Proof.
  intros Hd. eapply wp_mono; [by apply (wp_does anything (fun _ => True) _ _ tr) in Hd|]. by intros r tr' [_ Hq].
Qed.

Lemma wp_sender_log fuel s n log tr :
  sender_way n s log ->
  wp anything (Run_log fuel s senderSteps log)
    (fun r _ => match r with Done (_, e, log') => logs (sender_visits n) e log' | Halted _ => True end) tr.
Proof.
  intros Hw. apply (wp_Run_log senderSteps (fun s log _ => sender_way n s log)
    (fun e log _ => logs (sender_visits n) e log)); [| |done]; clear.
  - intros s log _ Hw Hfin. unfold sender_way in Hw. rewrite Hfin in Hw. destruct Hw as (_ & _ & Hw).
    rewrite Hfin in Hw. by eapply on_way_ends.
  - intros s log tr Hw Hfin. destruct (sender_way_steps n s log Hw Hfin) as (Herr & step & Hg & Hd).
    split; [done|]. exists step. split; [done|]. eapply wp_mono; [by apply way_step_wp|].
    by intros [[s' [next|e]]|h] tr'; [intros [_ ?]..|].
Qed.

Lemma wp_SendFile_log fuel path :
  wp anything (SendFile_log fuel path)
    (fun r _ => match r with
       | Done (e, log) => exists n, is_u32 n /\ logs (sender_visits n) e log
       | Halted _ => True
       end) [].
Proof.
  unfold SendFile_log. cbn [perform bind]. intros [f|e] _; [|done]. split; [done|]. apply wp_defer.
  unfold generateFileID, PrepareMetadata. cbn [perform bind].
  intros [info|e] _; (split; [done|]); [|done]. cbn [bind]. intros t _. split; [done|].
  intros [info'|e] _; (split; [done|]); cbn [bind perform]; [|by intros e' _].
  apply wp_bind_halt. set (s := senderSession _ _ _).
  eapply wp_mono; [apply (wp_sender_log fuel s (s_TotalChunks s))|].
  - split_and!; [done|done|apply u32_range|]. by exists [].
  - intros [[[s' e] log]|h] tr' Hl; [|by destruct h; [intros e _|..]].
    cbn. intros e' _. split; [done|]. exists (s_TotalChunks s). split; [apply u32_range|done].
Qed.

Lemma wp_receiver_log fuel :
  wp anything (RecieveFile_log fuel)
    (fun r tr => match r with
       | Done (e, log) => receiver_fails log e /\ verified_lines log = written tr
       | Halted _ => True
       end) [].
Proof.
  apply wp_bind_halt. eapply wp_mono.
  - apply (wp_Run_log receiverSteps (fun s log tr => receiver_way s log /\ verified_lines log = written tr)
      (fun e log tr => receiver_fails log e /\ verified_lines log = written tr)); [| |done]; clear fuel.
    + intros s log tr [Hw Hv] Hfin. split; [|done]. unfold receiver_way in Hw. rewrite Hfin in Hw.
      destruct Hw as (n & _ & Hn & Hw). rewrite Hfin in Hw. exists n. split; [done|]. by eapply on_way_ends.
    + intros s log tr [Hw Hv] Hfin. destruct (receiver_way_steps s log Hw Hfin) as (Herr & step & Hg & Hd).
      split; [done|]. exists step. split; [done|].
      eapply wp_mono; [apply wp_and; [by apply way_step_wp|by apply receiver_step_writes]|].
      intros [[s' [next|e]]|h] tr'; cbn; [| |done]; intros [[Hs' Hway] Hwr].
      * destruct Hway as [Hal Hway]. split_and!; [done|done|].
        rewrite verified_lines_snoc, Hwr, Hv. cbn in Hs' |- *. rewrite Hs'. by destruct (s_state s).
      * intros e'. split; [apply Hway|]. rewrite verified_lines_snoc, Hwr, Hv. apply Z.add_0_r.
  - by intros [[[s e] log]|h] tr.
Qed.

(** C14: the log of a transfer.  Logging changes nothing of what [SendFile] and
    [RecieveFile] do and return.  The log of a sender that returns [nil] is the
    lines of a whole transfer of its [n] chunks, round by round, each with the
    number of its chunk; when it returns an error, it is the lines up to some
    point before the end and then the failure in the state reached there, with
    the error returned.  The same for the receiver, whose first line has no
    total yet; and the chunks its log reports as verified are as many as it has
    written to its file. *)
Theorem transfer_log fuel path tr :
  (forall e, exec (SendFile fuel path) tr (Done e) <-> exists log, exec (SendFile_log fuel path) tr (Done (e, log))) /\
  (forall e, exec (RecieveFile fuel) tr (Done e) <-> exists log, exec (RecieveFile_log fuel) tr (Done (e, log))) /\
  (forall e log, exec (SendFile_log fuel path) tr (Done (e, log)) ->
     exists n, is_u32 n /\ logs (sender_visits n) e log) /\
  (forall e log, exec (RecieveFile_log fuel) tr (Done (e, log)) ->
     (exists n, is_u32 n /\ logs (receiver_visits n) e log) /\ verified_lines log = written tr).
Proof.
  split_and!.
  - intros e. destruct (sim_exec _ _ _ tr (SendFile_log_erases fuel path)) as (H1 & H2 & _). split.
    + intros ([e' log] & Heq & He)%H2. exists log. by rewrite <-Heq.
    + intros (log & He). by destruct (H1 _ He) as (e' & <- & He').
  - intros e. destruct (sim_exec _ _ _ tr (RecieveFile_log_erases fuel)) as (H1 & H2 & _). split.
    + intros ([e' log] & Heq & He)%H2. exists log. by rewrite <-Heq.
    + intros (log & He). by destruct (H1 _ He) as (e' & <- & He').
  - intros e log He. exact (wp_exec _ _ _ [] _ _ (wp_SendFile_log fuel path) He).
  - intros e log He. exact (wp_exec _ _ _ [] _ _ (wp_receiver_log fuel) He).
Qed.

End transfers.
