(* ===== verification/Mutex.v ===== *)
(** * Mutex: the methods of a session under its lock

    [Session.mu] guards the methods of a session (Protocol/session.go).  Here a
    method is the sequence of its actions: it locks, loads and stores single
    fields, logs, and unlocks; goroutines that call methods of one session are
    interleaved action by action.  The main result is that this cannot be told
    from the calls being made one after another, which is how the other files
    use them. *)

From S2P Require Import Prelude Effects Protocol Log.

(** ** Actions *)

(** A session, what was logged, and whether the mutex is locked. *)
Record shared := mkShared { sh_session : Session; sh_log : list log_line; sh_locked : bool }.

Inductive action : Type :=
| ALock
| AUnlock
| ALoadState
| ALoadCurrentChunk
| ALoadTotalChunks
| AStoreState (st : TransferState)
| AStoreCurrentChunk (i : Z)
| APrintf (l : log_line).

Definition loaded (a : action) : Type :=
  match a with ALoadState => TransferState | ALoadCurrentChunk | ALoadTotalChunks => Z | _ => unit end.

(** The effect of an action; [None] when it has to wait ([Lock] of a locked
    mutex) or is a fatal error ([Unlock] of an unlocked one). *)
Definition act_on (a : action) (sh : shared) : option (loaded a * shared) :=
  let '(mkShared s log locked) := sh in
  match a with
  | ALock => if locked then None else Some (tt, mkShared s log true)
  | AUnlock => if locked then Some (tt, mkShared s log false) else None
  | ALoadState => Some (s_state s, sh)
  | ALoadCurrentChunk => Some (s_CurrentChunk s, sh)
  | ALoadTotalChunks => Some (s_TotalChunks s, sh)
  | AStoreState st => Some (tt, mkShared (set_state s st) log locked)
  | AStoreCurrentChunk i => Some (tt, mkShared (set_CurrentChunk s i) log locked)
  | APrintf l => Some (tt, mkShared s (log ++ [l]) locked)
  end.

Inductive method (A : Type) : Type :=
| MRet (a : A)
| MDo (a : action) (k : loaded a -> method A).
Arguments MRet {A} a.
Arguments MDo {A} a k.

Notation "'load!' x ':=' a 'in' m" := (MDo a (fun x => m))
  (at level 10, x name, a at level 100, m at level 200, format "'[v' 'load!'  x  ':='  a  'in' '/' m ']'") : go_scope.
Notation "'act!' a 'in' m" := (MDo a (fun _ => m))
  (at level 10, a at level 100, m at level 200, format "'[v' 'act!'  a  'in' '/' m ']'") : go_scope.

(** ** The methods *)

(** The results of the methods. *)
Inductive result : Type :=
| RState (st : TransferState)
| RError (e : option error)
| RUnit
| RBool (b : bool).

Definition GetState_m : method result :=
  act! ALock in load! st := ALoadState in act! AUnlock in MRet (RState st).

Definition Transition_m (next : TransferState) : method result :=
  act! ALock in
  load! st := ALoadState in
  if negb (isAllowed st next) then
    load! st := ALoadState in
    act! AUnlock in
    MRet (RError (Some (Errorf "illegal transition %s -> %s"
            [AString (TransferState_String st); AString (TransferState_String next)])))
  else
    load! cur := ALoadCurrentChunk in
    load! total := ALoadTotalChunks in
    load! st := ALoadState in
    act! APrintf (TransitionLine (u32 (cur + 1)) total st next) in
    act! AStoreState next in
    act! AUnlock in
    MRet (RError None).

Definition AdvanceChunk_m : method result :=
  act! ALock in load! cur := ALoadCurrentChunk in act! AStoreCurrentChunk (u32 (cur + 1)) in act! AUnlock in MRet RUnit.

(** [&&] does not evaluate its second operand when the first is false. *)
Definition IsLastChunk_m : method result :=
  act! ALock in
  load! total := ALoadTotalChunks in
  if 0 <? total then
    load! cur := ALoadCurrentChunk in
    load! total := ALoadTotalChunks in
    act! AUnlock in
    MRet (RBool (cur =? u32 (total - 1)))
  else
    act! AUnlock in MRet (RBool false).

Definition Fail_m (err : error) : method result :=
  act! ALock in
  load! st := ALoadState in
  act! APrintf (FailLine st err) in
  act! AStoreState StateError in
  act! AUnlock in
  MRet (RError (Some err)).

(** A call, as the actions of its method. *)
Inductive call : Type :=
| CGetState
| CTransition (next : TransferState)
| CAdvanceChunk
| CIsLastChunk
| CFail (err : error).

Definition body (c : call) : method result :=
  match c with
  | CGetState => GetState_m
  | CTransition next => Transition_m next
  | CAdvanceChunk => AdvanceChunk_m
  | CIsLastChunk => IsLastChunk_m
  | CFail err => Fail_m err
  end.

(** The same call in one go: the functions the other files use. *)
Definition atomically (c : call) (s : Session) (log : list log_line) : result * Session * list log_line :=
  match c with
  | CGetState => (RState (GetState s), s, log)
  | CTransition next => let '(s', e, l) := Transition_log s next in (RError e, s', log ++ l)
  | CAdvanceChunk => (RUnit, AdvanceChunk s, log)
  | CIsLastChunk => (RBool (IsLastChunk s), s, log)
  | CFail err => let '(s', e, l) := Fail_log s err in (RError (Some e), s', log ++ l)
  end.

(** ** Goroutines *)

(** The calls that have returned, with their results, the call that is running
    and what is left of it, and the calls to come. *)
Record goroutine := mkGoroutine {
  g_done : list (call * result);
  g_running : option (call * method result);
  g_calls : list call
}.

Record pool := mkPool { po_shared : shared; po_gs : list goroutine }.

Inductive g_step (sh : shared) : goroutine -> shared -> goroutine -> Prop :=
| gs_call done c cs :
    g_step sh (mkGoroutine done None (c :: cs)) sh (mkGoroutine done (Some (c, body c)) cs)
| gs_act done c a k x sh' cs :
    act_on a sh = Some (x, sh') ->
    g_step sh (mkGoroutine done (Some (c, MDo a k)) cs) sh' (mkGoroutine done (Some (c, k x)) cs)
| gs_return done c r cs :
    g_step sh (mkGoroutine done (Some (c, MRet r)) cs) sh (mkGoroutine (done ++ [(c, r)]) None cs).

Inductive pool_step (p : pool) : pool -> Prop :=
| ps_step i g sh' g' :
    po_gs p !! i = Some g -> g_step (po_shared p) g sh' g' ->
    pool_step p (mkPool sh' (<[i := g']> (po_gs p))).

Definition start (s : Session) (log : list log_line) (callss : list (list call)) : pool :=
  mkPool (mkShared s log false) ((fun cs => mkGoroutine [] None cs) <$> callss).

Definition g_over (g : goroutine) : Prop := g_running g = None /\ g_calls g = [].

(** An executable schedule: which goroutine moves next. *)
Definition g_move (sh : shared) (g : goroutine) : option (shared * goroutine) :=
  match g with
  | mkGoroutine done None (c :: cs) => Some (sh, mkGoroutine done (Some (c, body c)) cs)
  | mkGoroutine done None [] => None
  | mkGoroutine done (Some (c, MRet r)) cs => Some (sh, mkGoroutine (done ++ [(c, r)]) None cs)
  | mkGoroutine done (Some (c, MDo a k)) cs =>
      '(x, sh') ← act_on a sh; Some (sh', mkGoroutine done (Some (c, k x)) cs)
  end.

Fixpoint play_pool (sched : list nat) (p : pool) : option pool :=
  match sched with
  | [] => Some p
  | i :: sched =>
      g ← po_gs p !! i; '(sh', g') ← g_move (po_shared p) g;
      play_pool sched (mkPool sh' (<[i := g']> (po_gs p)))
  end.

Lemma g_move_step sh g sh' g' : g_move sh g = Some (sh', g') -> g_step sh g sh' g'.
Proof.
  destruct g as [done [[c [r|a k]]|] [|c' cs]]; cbn; try done; try (intros [= <- <-]; constructor).
  all: destruct (act_on a sh) as [[x sh1]|] eqn:Ha; cbn; [|done]; intros [= <- <-]; by constructor.
Qed.

Lemma play_pool_steps sched p p' : play_pool sched p = Some p' -> rtc pool_step p p'.
Proof.
  revert p. induction sched as [|i sched IH]; intros p; cbn; [by intros [= ->]|].
  destruct (po_gs p !! i) as [g|] eqn:Hi; [|done]. cbn.
  destruct (g_move (po_shared p) g) as [[sh' g']|] eqn:Hm; [|done]. cbn. intros Hp.
  eapply rtc_l; [by eapply ps_step, g_move_step|by apply IH].
Qed.

(** ** The specification *)

(** Calls of the goroutines made one after another, with their results. *)
Inductive sequential (s : Session) (log : list log_line) : list (nat * call * result) -> Session -> list log_line -> Prop :=
| seq_nil : sequential s log [] s log
| seq_snoc h s1 log1 i c r s2 log2 :
    sequential s log h s1 log1 -> atomically c s1 log1 = (r, s2, log2) ->
    sequential s log (h ++ [(i, c, r)]) s2 log2.

(** The calls of goroutine [i] in a sequence. *)
Definition calls_of (i : nat) (h : list (nat * call * result)) : list (call * result) :=
  omap (fun '(j, c, r) => if decide (j = i) then Some (c, r) else None) h.

(** ** A critical section alone *)

(** What is left of a method that holds the lock, run to its end without
    interruption; [None] when it would lock again or return without unlocking. *)
Fixpoint alone (m : method result) (s : Session) (log : list log_line) : option (result * Session * list log_line) :=
  match m with
  | MRet _ => None
  | MDo AUnlock k => match k tt with MRet r => Some (r, s, log) | _ => None end
  | MDo ALock k => None
  | MDo ALoadState k => alone (k (s_state s)) s log
  | MDo ALoadCurrentChunk k => alone (k (s_CurrentChunk s)) s log
  | MDo ALoadTotalChunks k => alone (k (s_TotalChunks s)) s log
  | MDo (AStoreState st) k => alone (k tt) (set_state s st) log
  | MDo (AStoreCurrentChunk i) k => alone (k tt) (set_CurrentChunk s i) log
  | MDo (APrintf l) k => alone (k tt) s (log ++ [l])
  end.

(** The critical section of a method that begins with [Lock]. *)
Definition after_lock (m : method result) : option (method result) :=
  match m with MDo ALock k => Some (k tt) | _ => None end.

(** Every method locks first, and then does in one go what its function does. *)
Lemma body_locks c : exists m, after_lock (body c) = Some m /\
  forall s log, alone m s log = Some (atomically c s log).
Proof.
  destruct c as [|next| | |err]; eexists; (split; [reflexivity|]); intros s log; cbn -[isAllowed]; try done.
  - unfold Transition_log. destruct (negb _); [|done]. by rewrite app_nil_r.
  - unfold IsLastChunk. by destruct (0 <? s_TotalChunks s).
Qed.

(** One action of a critical section. *)
Lemma alone_act a k s log x :
  alone (MDo a k) s log = Some x ->
  (exists y, act_on a (mkShared s log true) = Some (y, mkShared s log false) /\
     k y = MRet x.1.1 /\ x.1.2 = s /\ x.2 = log) \/
  exists y s' log', act_on a (mkShared s log true) = Some (y, mkShared s' log' true) /\
    alone (k y) s' log' = Some x.
Proof.
  destruct a; cbn; intros Ha; try done; try (right; by eauto).
  left. exists tt. destruct (k tt) as [r|]; [|done]. by injection Ha as <-.
Qed.

(** ** The invariant *)

(** The result of a call that has unlocked and not yet returned. *)
Definition pending (g : goroutine) : list (call * result) :=
  match g_running g with Some (c, MRet r) => [(c, r)] | _ => [] end.

Definition running_call (g : goroutine) : list call :=
  match g_running g with Some (c, _) => [c] | None => [] end.

(** Outside its critical section. *)
Definition outside (g : goroutine) : Prop :=
  match g_running g with Some (c, m) => m = body c \/ exists r, m = MRet r | None => True end.

Record pool_inv (s0 : Session) (log0 : list log_line) (callss : list (list call)) (p : pool)
    (h : list (nat * call * result)) (s1 : Session) (log1 : list log_line) (owner : option nat) : Prop := {
  pi_seq : sequential s0 log0 h s1 log1;
  pi_length : length (po_gs p) = length callss;
  pi_calls i g : po_gs p !! i = Some g ->
    calls_of i h = g_done g ++ pending g /\
    callss !! i = Some ((g_done g).*1 ++ running_call g ++ g_calls g);
  pi_outside i g : po_gs p !! i = Some g -> owner <> Some i -> outside g;
  pi_owner : match owner with
    | None => po_shared p = mkShared s1 log1 false
    | Some i => sh_locked (po_shared p) = true /\
        exists g c m, po_gs p !! i = Some g /\ g_running g = Some (c, m) /\
          alone m (sh_session (po_shared p)) (sh_log (po_shared p)) = Some (atomically c s1 log1)
    end
}.

Lemma pool_inv_start s log callss : pool_inv s log callss (start s log callss) [] s log None.
Proof.
  split; [constructor|by cbn; rewrite length_fmap| | |done].
  - intros i g Hi. cbn in Hi. rewrite list_lookup_fmap in Hi. destruct (callss !! i); [|done]. by injection Hi as <-.
  - intros i g Hi. cbn in Hi. rewrite list_lookup_fmap in Hi. destruct (callss !! i); [|done]. by injection Hi as <-.
Qed.

Lemma calls_of_snoc i h j c r :
  calls_of i (h ++ [(j, c, r)]) = calls_of i h ++ (if decide (j = i) then [(c, r)] else []).
Proof. unfold calls_of. rewrite omap_app. cbn. by case_decide. Qed.

(** ** Steps *)

Section step.
Context (s0 : Session) (log0 : list log_line) (callss : list (list call)).

Abbreviation inv := (pool_inv s0 log0 callss).

(** A step of a goroutine that has not the lock and does not take it. *)
Lemma inv_outside p h s1 log1 owner i g g' :
  inv p h s1 log1 owner -> po_gs p !! i = Some g -> owner <> Some i -> outside g' ->
  g_done g' ++ pending g' = g_done g ++ pending g ->
  (g_done g').*1 ++ running_call g' ++ g_calls g' = (g_done g).*1 ++ running_call g ++ g_calls g ->
  inv (mkPool (po_shared p) (<[i := g']> (po_gs p))) h s1 log1 owner.
Proof.
  intros [Hseq Hl Hc Ho Hw] Hi Hne Hout Hd Hcs. split; cbn.
  - done.
  - by rewrite length_insert.
  - intros j gj [(<- & <- & _)|[Hij Hj]]%list_lookup_insert_Some; [|by apply Hc].
    rewrite Hd, Hcs. by apply Hc.
  - intros j gj [(<- & <- & _)|[Hij Hj]]%list_lookup_insert_Some; [done|by apply Ho].
  - destruct owner as [k|]; [|done]. destruct Hw as (Hlk & gk & c & m & Hk & Hm). split; [done|].
    exists gk, c, m. split; [|done]. rewrite list_lookup_insert_ne by naive_solver. done.
Qed.

(** A goroutine takes the lock. *)
Lemma inv_locks p h s1 log1 i g c m :
  inv p h s1 log1 None -> po_gs p !! i = Some g -> g_running g = Some (c, body c) ->
  after_lock (body c) = Some m ->
  inv (mkPool (mkShared s1 log1 true) (<[i := mkGoroutine (g_done g) (Some (c, m)) (g_calls g)]> (po_gs p)))
    h s1 log1 (Some i).
Proof.
  intros [Hseq Hl Hc Ho Hw] Hi Hr Hm. destruct (body_locks c) as (m' & Hm' & Hal).
  rewrite Hm in Hm'. injection Hm' as <-.
  assert (Hp : pending g = []) by (unfold pending; rewrite Hr; by destruct c).
  assert (Hp' : pending (mkGoroutine (g_done g) (Some (c, m)) (g_calls g)) = []).
  { unfold pending. cbn. specialize (Hal s1 log1). by destruct m. }
  split; cbn.
  - done.
  - by rewrite length_insert.
  - intros j gj [(<- & <- & _)|[Hij Hj]]%list_lookup_insert_Some; [|by apply Hc].
    destruct (Hc i g Hi) as [H1 H2]. rewrite Hp', H1, Hp. split; [done|].
    rewrite H2. unfold running_call. by rewrite Hr.
  - intros j gj [(<- & <- & _)|[Hij Hj]]%list_lookup_insert_Some; [done|]. intros _. by apply (Ho j).
  - split; [done|]. eexists _, c, m. split; [by apply list_lookup_insert_eq, (lookup_lt_Some _ _ g)|]. done.
Qed.

(** The goroutine that has the lock goes on. *)
Lemma inv_continues p h s1 log1 i g c m m' s' log' :
  inv p h s1 log1 (Some i) -> po_gs p !! i = Some g -> g_running g = Some (c, m) ->
  pending g = [] -> alone m' s' log' = Some (atomically c s1 log1) ->
  inv (mkPool (mkShared s' log' true) (<[i := mkGoroutine (g_done g) (Some (c, m')) (g_calls g)]> (po_gs p)))
    h s1 log1 (Some i).
Proof.
  intros [Hseq Hl Hc Ho Hw] Hi Hr Hp Hal. split; cbn.
  - done.
  - by rewrite length_insert.
  - intros j gj [(<- & <- & _)|[Hij Hj]]%list_lookup_insert_Some; [|by apply Hc].
    destruct (Hc i g Hi) as [H1 H2]. rewrite H1, Hp. split; [unfold pending; cbn; by destruct m'|].
    rewrite H2. unfold running_call. by rewrite Hr.
  - intros j gj [(<- & <- & _)|[Hij Hj]]%list_lookup_insert_Some; [done|by apply Ho].
  - split; [done|]. eexists _, c, m'. split; [by apply list_lookup_insert_eq, (lookup_lt_Some _ _ g)|]. done.
Qed.

(** It unlocks: this is where its call takes effect. *)
Lemma inv_unlocks p h s1 log1 i g c m r s' log' :
  inv p h s1 log1 (Some i) -> po_gs p !! i = Some g -> g_running g = Some (c, m) ->
  pending g = [] -> atomically c s1 log1 = (r, s', log') ->
  inv (mkPool (mkShared s' log' false) (<[i := mkGoroutine (g_done g) (Some (c, MRet r)) (g_calls g)]> (po_gs p)))
    (h ++ [(i, c, r)]) s' log' None.
Proof.
  intros [Hseq Hl Hc Ho Hw] Hi Hr Hp Hat. split; cbn.
  - by eapply seq_snoc.
  - by rewrite length_insert.
  - intros j gj [(<- & <- & _)|[Hij Hj]]%list_lookup_insert_Some; rewrite calls_of_snoc.
    + rewrite decide_True by done. destruct (Hc i g Hi) as [H1 H2]. rewrite H1, Hp, app_nil_r. split; [done|].
      rewrite H2. unfold running_call. by rewrite Hr.
    + rewrite decide_False, app_nil_r by done. by apply Hc.
  - intros j gj [(<- & <- & _)|[Hij Hj]]%list_lookup_insert_Some; [right; by exists r|].
    intros _. apply (Ho j); [done|naive_solver].
  - done.
Qed.

Lemma inv_step p p' h s1 log1 owner :
  inv p h s1 log1 owner -> pool_step p p' -> exists h' s2 log2 owner', inv p' h' s2 log2 owner'.
Proof.
  intros Hinv [i g sh' g' Hi Hg]. pose proof Hinv as [_ _ _ Hout Hown].
  destruct (decide (owner = Some i)) as [->|Hne].
  - destruct Hown as (Hlk & g1 & c1 & m1 & Hi1 & Hr1 & Hal). rewrite Hi in Hi1. injection Hi1 as <-.
    destruct Hg as [done c cs|done c a k x sh1 cs Ha|done c r cs]; cbn in Hr1; simplify_eq.
    destruct (po_shared p) as [s log lk] eqn:Hsh. cbn in Hlk, Hal. subst lk.
    destruct (alone_act _ _ _ _ _ Hal) as [(y & Hy & Hk & Hs & Hl)|(y & s' & log' & Hy & Hal')];
      rewrite Hy in Ha; injection Ha as <- <-.
    + rewrite Hk. eexists _, s, log, None. eapply (inv_unlocks p h s1 log1 i (mkGoroutine done (Some (c1, MDo a k)) cs) c1 (MDo a k)); try done.
      destruct (atomically c1 s1 log1) as [[r s2] log2]. cbn in *. by subst.
    + exists h, s1, log1, (Some i). by eapply (inv_continues p h s1 log1 i (mkGoroutine done (Some (c1, MDo a k)) cs) c1 (MDo a k)).
  - specialize (Hout i g Hi Hne). destruct Hg as [done c cs|done c a k x sh1 cs Ha|done c r cs].
    + exists h, s1, log1, owner. eapply inv_outside; try done; [by left|]. unfold pending. cbn. by destruct c.
    + destruct Hout as [Hb|[r Hr]]; [|done]. destruct (body_locks c) as (m & Hm & _).
      rewrite <-Hb in Hm. destruct a; try done. injection Hm as <-. cbn in Ha.
      destruct owner as [j|].
      { destruct Hown as [Hlk _]. destruct (po_shared p) as [s log lk]. cbn in Hlk. by subst lk. }
      rewrite Hown in Ha. injection Ha as <- <-. exists h, s1, log1, (Some i).
      eapply (inv_locks p h s1 log1 i (mkGoroutine done (Some (c, MDo ALock k)) cs) c); [done|done|cbn; by rewrite Hb|by rewrite <-Hb].
    + exists h, s1, log1, owner. eapply inv_outside; try done; unfold pending, running_call; cbn.
      * by rewrite app_nil_r.
      * by rewrite fmap_app, <-app_assoc.
Qed.

Lemma inv_reachable p :
  rtc pool_step (start s0 log0 callss) p -> exists h s1 log1 owner, inv p h s1 log1 owner.
Proof.
  intros Hr. assert (Hi : exists h s1 log1 owner, inv (start s0 log0 callss) h s1 log1 owner).
  { eexists _, _, _, _. apply pool_inv_start. }
  revert Hi. induction Hr as [|p1 p2 p3 H12 _ IH]; [done|]. intros (h & s1 & log1 & owner & Hi).
  apply IH. by eapply inv_step.
Qed.

(** Nobody waits for ever: when no goroutine can go on, all are over. *)
Lemma inv_progress p h s1 log1 owner : inv p h s1 log1 owner -> nf pool_step p -> Forall g_over (po_gs p).
Proof.
  intros [_ _ _ Hout Hown] Hnf.
  assert (Hcan : forall i g sh' g', po_gs p !! i = Some g -> ~ g_step (po_shared p) g sh' g').
  { intros i g sh' g' Hi Hg. apply Hnf. eexists. by apply (ps_step p i g sh' g'). }
  destruct owner as [i|].
  - exfalso. destruct Hown as (Hlk & [done run cs] & c & m & Hi & Hr & Hal). cbn in Hr. subst run.
    destruct m as [r|a k]; [done|]. destruct (po_shared p) as [s log lk]. cbn in Hlk, Hal. subst lk.
    destruct (alone_act _ _ _ _ _ Hal) as [(y & Hy & _)|(y & s' & log' & Hy & _)];
      eapply (Hcan i _ _ _ Hi), gs_act, Hy.
  - apply Forall_lookup. intros i [done [[c m]|] cs] Hi; specialize (Hout i _ Hi ltac:(done)); cbn in Hout.
    + exfalso. destruct Hout as [->|[r ->]]; [|eapply (Hcan i _ _ _ Hi), gs_return].
      destruct (body_locks c) as (m & Hm & _). destruct (body c) as [|a k] eqn:Hb; [done|]. destruct a; try done.
      eapply (Hcan i _ _ _ Hi), gs_act. by rewrite Hown.
    + destruct cs as [|c cs]; [done|]. exfalso. eapply (Hcan i _ _ _ Hi), gs_call.
Qed.

End step.

(** ** Every run ends *)

(** At most [n] actions are left. *)
Fixpoint within (n : nat) (m : method result) : Prop :=
  match m with
  | MRet _ => True
  | MDo _ k => match n with O => False | S n => forall x, within n (k x) end
  end.

Lemma body_within c : within 8 (body c).
Proof.
  destruct c as [|next| | |err]; cbn -[isAllowed]; try done.
  - intros _ st. by destruct (negb _).
  - intros _ total. by destruct (0 <? total).
Qed.

(** A bound for the steps of a goroutine. *)
Definition steps_left (g : goroutine) (n : nat) : Prop :=
  match g_running g with
  | None => n = (10 * length (g_calls g))%nat
  | Some (_, m) => exists k, within k m /\ n = (1 + k + 10 * length (g_calls g))%nat
  end.

Lemma g_step_left sh g sh' g' n : g_step sh g sh' g' -> steps_left g n -> exists n', (n' < n)%nat /\ steps_left g' n'.
Proof.
  intros [done c cs|done c a k x sh1 cs _|done c r cs]; cbn.
  - intros ->. eexists. split; [|exists 8%nat; split; [apply body_within|done]]. lia.
  - intros ([|n'] & Hw & ->); [done|]. eexists. split; [|exists n'; split; [apply Hw|done]]. lia.
  - intros (n' & _ & ->). eexists. split; [|done]. lia.
Qed.

Lemma pool_sn_bound n p ns : Forall2 steps_left (po_gs p) ns -> (sum_list ns <= n)%nat -> sn pool_step p.
Proof.
  revert p ns. induction (lt_wf n) as [n _ IH]. intros p ns Hns Hn. constructor. intros p' [i g sh' g' Hi Hg].
  destruct (Forall2_lookup_l _ _ _ _ _ Hns Hi) as (m & Hm & Hl). destruct (g_step_left _ _ _ _ _ Hg Hl) as (m' & Hlt & Hl').
  assert (Hsum : (sum_list (<[i := m']> ns) < sum_list ns)%nat).
  { rewrite <-(take_drop_middle ns i m Hm) at 2. rewrite insert_take_drop by (by eapply lookup_lt_Some).
    rewrite !sum_list_with_app. cbn. lia. }
  apply (IH (sum_list (<[i := m']> ns)) ltac:(lia) _ (<[i := m']> ns)); [|done]. by apply Forall2_insert.
Qed.

Lemma pool_sn s log callss p : rtc pool_step (start s log callss) p -> sn pool_step p.
Proof.
  assert (Hs : sn pool_step (start s log callss)).
  { eapply (pool_sn_bound _ _ ((fun cs => (10 * length cs)%nat) <$> callss)); [|reflexivity].
    apply Forall2_fmap, Forall_Forall2_diag, Forall_true. by intros cs. }
  intros Hr. revert Hs. induction Hr as [|p1 p2 p3 H12 _ IH]; [done|]. intros Hs. by apply IH, (Acc_inv Hs).
Qed.

(** Goroutines that are over do not go on. *)
Lemma over_nf p : Forall g_over (po_gs p) -> nf pool_step p.
Proof.
  intros Ho [p' [i g sh' g' Hi Hg]]. destruct (Forall_lookup_1 _ _ _ _ Ho Hi) as [Hr Hc].
  by destruct Hg; simplify_eq/=.
Qed.

(** ** Property *)

(** C13: the methods of a session are atomic.  Any number of goroutines call methods
    of one session, each any calls one after another, and their loads, stores and
    log lines are interleaved in any way: every run ends, it does not end before
    every call has returned, and then the mutex is free and there is one order of
    all the calls, for each goroutine the order it made them in, in which the
    functions of [Protocol] and [Log], applied one after another, give the results
    every call returned, the session at the end, and the log. *)
Theorem session_linearizable s log callss p :
  rtc pool_step (start s log callss) p ->
  sn pool_step p /\
  (nf pool_step p -> exists h,
     sequential s log h (sh_session (po_shared p)) (sh_log (po_shared p)) /\
     sh_locked (po_shared p) = false /\ length (po_gs p) = length callss /\
     forall i g, po_gs p !! i = Some g ->
       g_over g /\ calls_of i h = g_done g /\ callss !! i = Some (g_done g).*1).
Proof.
  intros Hr. split; [by eapply pool_sn|]. intros Hnf.
  destruct (inv_reachable s log callss p Hr) as (h & s1 & log1 & owner & Hinv).
  pose proof (inv_progress _ _ _ _ _ _ _ _ Hinv Hnf) as Hover. destruct Hinv as [Hseq Hl Hc _ Hown].
  destruct owner as [i|].
  { exfalso. destruct Hown as (_ & g & c & m & Hi & Hrun & _).
    destruct (Forall_lookup_1 _ _ _ _ Hover Hi) as [Hn _]. by rewrite Hn in Hrun. }
  rewrite Hown. exists h. split_and!; [done|done|done|]. intros i g Hi.
  pose proof (Forall_lookup_1 _ _ _ _ Hover Hi) as Hg. split; [done|]. destruct Hg as [Hrun Hcs], (Hc i g Hi) as [H1 H2].
  unfold pending, running_call in *. rewrite Hrun, Hcs, ?app_nil_r in *. done.
Qed.
