(* ===== verification/Failures.v ===== *)
(** * Failures: a transfer over a connection that may break

    Two endpoints joined by a connection that may break at any moment.  While it
    holds, it is the reliable stream of [Network].  When it breaks, reads fail
    or still deliver what has arrived, writes fail or are lost; a write that
    fails may have delivered any part of its bytes.  The machines answer the
    local operations as in [Network]. *)

From S2P Require Import Prelude Effects AesGcm Protocol Utils Merkle Wire Controllers Operations Flow.
From S2P Require Import SenderSpec ReceiverSpec Network Honest EndToEnd ChunkSpec Copy Nodes Concurrent.

(** ** Endpoints *)

Record node (A : Type) := mkNode {
  n_prog : prog A;
  n_world : World;
  n_inbox : bytes;       (* arrived and not yet read *)
  n_closed : bool;
  n_hist : list event    (* what it has done *)
}.
Arguments mkNode {A} _ _ _ _ _.
Arguments n_prog {A} _.
Arguments n_world {A} _.
Arguments n_inbox {A} _.
Arguments n_closed {A} _.
Arguments n_hist {A} _.

Definition node_over {A} (x : node A) : bool :=
  n_closed x || match n_prog x with Vis _ _ => false | _ => true end.

(** [x] has performed [o] and got [a]. *)
Definition did {A} (x : node A) (w : World) (inb : bytes) (closed : bool) (o : op)
    (k : ans o -> prog A) (a : ans o) : node A :=
  mkNode (k a) w inb closed (n_hist x ++ [event_of o a]).

(** One operation of an endpoint: the endpoint after it, the bytes that reach
    the peer and whether the connection is broken afterwards. *)
Inductive node_step {A} (broken peer_over : bool) (x : node A) : node A -> bytes -> bool -> Prop :=
| ns_local o k a w :
    n_prog x = Vis o k -> world_answer o (n_world x) = Some (a, w) -> wf_event (event_of o a) ->
    node_step broken peer_over x (did x w (n_inbox x) (n_closed x) o k a) [] broken
| ns_read n k b rest :
    n_prog x = Vis (OReadFull n) k -> n_inbox x = b ++ rest -> len b = n ->
    node_step broken peer_over x (did x (n_world x) rest (n_closed x) (OReadFull n) k (Ok b)) [] broken
| ns_eof n k :
    n_prog x = Vis (OReadFull n) k -> len (n_inbox x) < n -> broken = false -> peer_over = true ->
    node_step broken peer_over x
      (did x (n_world x) [] (n_closed x) (OReadFull n) k
         (Err (if decide (n_inbox x = []) then EOF else ErrUnexpectedEOF))) [] false
| ns_read_fails n k e :
    n_prog x = Vis (OReadFull n) k -> broken = true ->
    node_step broken peer_over x (did x (n_world x) [] (n_closed x) (OReadFull n) k (Err e)) [] true
| ns_write b k :
    n_prog x = Vis (OWrite b) k -> broken = false -> n_closed x = false ->
    node_step broken peer_over x (did x (n_world x) (n_inbox x) false (OWrite b) k None) b false
| ns_write_fails b k b' e :
    n_prog x = Vis (OWrite b) k -> broken = false -> n_closed x = false -> b' `prefix_of` b ->
    node_step broken peer_over x (did x (n_world x) (n_inbox x) false (OWrite b) k (Some e)) b' true
| ns_write_lost b k r :
    n_prog x = Vis (OWrite b) k -> broken = true ->
    node_step broken peer_over x (did x (n_world x) (n_inbox x) (n_closed x) (OWrite b) k r) [] true
| ns_write_closed b k :
    n_prog x = Vis (OWrite b) k -> n_closed x = true ->
    node_step broken peer_over x (did x (n_world x) (n_inbox x) true (OWrite b) k (Some ErrClosed)) [] broken
| ns_close k :
    n_prog x = Vis OClose k ->
    node_step broken peer_over x (did x (n_world x) (n_inbox x) true OClose k tt) [] broken
| ns_reset k :
    n_prog x = Vis OReset k ->
    node_step broken peer_over x (did x (n_world x) (n_inbox x) true OReset k tt) [] true.

(** ** The connection *)

Record link (A B : Type) := mkLink { l_left : node A; l_right : node B; l_broken : bool }.
Arguments mkLink {A B} _ _ _.
Arguments l_left {A B} _.
Arguments l_right {A B} _.
Arguments l_broken {A B} _.

Definition arrive {A} (x : node A) (b : bytes) : node A :=
  mkNode (n_prog x) (n_world x) (n_inbox x ++ b) (n_closed x) (n_hist x).

Inductive link_step {A B} (s : link A B) : link A B -> Prop :=
| lk_left x b br :
    node_step (l_broken s) (node_over (l_right s)) (l_left s) x b br ->
    link_step s (mkLink x (arrive (l_right s) b) br)
| lk_right x b br :
    node_step (l_broken s) (node_over (l_left s)) (l_right s) x b br ->
    link_step s (mkLink (arrive (l_left s) b) x br)
| lk_break : l_broken s = false -> link_step s (mkLink (l_left s) (l_right s) true).

Definition link_start {A B} (p : prog A) (q : prog B) (wl wr : World) : link A B :=
  mkLink (mkNode p wl [] false []) (mkNode q wr [] false []) false.

(** An executable schedule: who moves next, and whether the connection fails it
    where it may; or the connection breaks. *)
Inductive move : Type := MoveLeft (fails : bool) | MoveRight (fails : bool) | Break.

Definition ErrReset : error := Errorf "stream reset" [].

Definition node_move {A} (fails broken peer_over : bool) (x : node A) : option (node A * bytes * bool) :=
  match n_prog x with
  | Vis o k =>
      match o return (ans o -> prog A) -> option (node A * bytes * bool) with
      | OReadFull n => fun k =>
          if broken && fails then Some (did x (n_world x) [] (n_closed x) (OReadFull n) k (Err ErrReset), [], true)
          else if decide (0 <= n <= len (n_inbox x)) then
            Some (did x (n_world x) (drop (Z.to_nat n) (n_inbox x)) (n_closed x) (OReadFull n) k
                    (Ok (take (Z.to_nat n) (n_inbox x))), [], broken)
          else if broken then Some (did x (n_world x) [] (n_closed x) (OReadFull n) k (Err ErrReset), [], true)
          else if decide (peer_over = true /\ len (n_inbox x) < n) then
            Some (did x (n_world x) [] (n_closed x) (OReadFull n) k
                    (Err (if decide (n_inbox x = []) then EOF else ErrUnexpectedEOF)), [], false)
          else None
      | OWrite b => fun k =>
          if broken then
            Some (did x (n_world x) (n_inbox x) (n_closed x) (OWrite b) k (if fails then Some ErrReset else None), [], true)
          else if n_closed x then
            Some (did x (n_world x) (n_inbox x) true (OWrite b) k (Some ErrClosed), [], false)
          else if fails then
            Some (did x (n_world x) (n_inbox x) false (OWrite b) k (Some ErrReset), b, true)
          else Some (did x (n_world x) (n_inbox x) false (OWrite b) k None, b, false)
      | OClose => fun k => Some (did x (n_world x) (n_inbox x) true OClose k tt, [], broken)
      | OReset => fun k => Some (did x (n_world x) (n_inbox x) true OReset k tt, [], true)
      | o => fun k =>
          '(a, w) ← world_answer o (n_world x);
          if decide (wf_event (event_of o a))
          then Some (did x w (n_inbox x) (n_closed x) o k a, [], broken) else None
      end k
  | _ => None
  end.

Fixpoint play_link {A B} (sched : list move) (s : link A B) : option (link A B) :=
  match sched with
  | [] => Some s
  | MoveLeft fails :: sched =>
      '(x, b, br) ← node_move fails (l_broken s) (node_over (l_right s)) (l_left s);
      play_link sched (mkLink x (arrive (l_right s) b) br)
  | MoveRight fails :: sched =>
      '(x, b, br) ← node_move fails (l_broken s) (node_over (l_left s)) (l_right s);
      play_link sched (mkLink (arrive (l_left s) b) x br)
  | Break :: sched => if l_broken s then None else play_link sched (mkLink (l_left s) (l_right s) true)
  end.

Lemma node_move_step {A} fails broken po (x x' : node A) b br :
  node_move fails broken po x = Some (x', b, br) -> node_step broken po x x' b br.
Proof.
  unfold node_move. destruct (n_prog x) as [a|h|o k] eqn:Hp; [done|done|].
  destruct o;
    try (destruct (world_answer _ _) as [[a w]|] eqn:Hw; [|done]; cbn [mbind option_bind]; case_decide; [|done];
         intros [= <- <- <-]; by apply ns_local).
  - destruct (broken && fails) eqn:Hbf.
    { apply andb_true_iff in Hbf as [-> _]. intros [= <- <- <-]. by apply ns_read_fails. }
    case_decide as Hn.
    { intros [= <- <- <-]. apply ns_read; [done|by rewrite take_drop|]. unfold len in *. rewrite length_take. lia. }
    destruct broken; [intros [= <- <- <-]; by apply ns_read_fails|].
    case_decide as Hpo; [|done]. intros [= <- <- <-]. by destruct Hpo; apply ns_eof.
  - destruct broken; [intros [= <- <- <-]; by apply ns_write_lost|].
    destruct (n_closed x) eqn:Hc; [intros [= <- <- <-]; by apply ns_write_closed|].
    destruct fails; intros [= <- <- <-]; [apply ns_write_fails; done|by apply ns_write].
  - intros [= <- <- <-]. by apply ns_close.
  - intros [= <- <- <-]. by apply ns_reset.
Qed.

Lemma play_link_steps {A B} sched (s s' : link A B) : play_link sched s = Some s' -> rtc link_step s s'.
Proof.
  revert s. induction sched as [|[f|f|] sched IH]; intros s; cbn.
  - by intros [= ->].
  - destruct (node_move _ _ _ _) as [[[x b] br]|] eqn:Hm; [|done]. cbn. intros Hp%IH.
    eapply rtc_l; [|exact Hp]. by eapply lk_left, node_move_step.
  - destruct (node_move _ _ _ _) as [[[x b] br]|] eqn:Hm; [|done]. cbn. intros Hp%IH.
    eapply rtc_l; [|exact Hp]. by eapply lk_right, node_move_step.
  - destruct (l_broken s) eqn:Hb; [done|]. intros Hp%IH. eapply rtc_l; [by apply lk_break|exact Hp].
Qed.

(** ** Every run is finite *)

(** What is left of a program after one operation. *)
Definition rest_of {A} (q p : prog A) : Prop :=
  match p with Vis o k => exists a, q = k a | _ => False end.

Lemma rest_of_wf {A} (p : prog A) : Acc rest_of p.
Proof.
  induction p as [a|h|o k IH]; constructor; intros q Hq; [done|done|]. destruct Hq as [a ->]. apply IH.
Qed.

Lemma node_step_prog {A} br po (x x' : node A) b br' :
  node_step br po x x' b br' -> rest_of (n_prog x') (n_prog x).
Proof. intros Hs. destruct Hs as [o k a w Hp|n k b r Hp|n k Hp|n k e Hp|b k Hp|b k b' e Hp|b k r Hp|b k Hp|k Hp|k Hp]; rewrite Hp; cbn; eauto. Qed.

Lemma link_sn {A B} (s : link A B) : sn link_step s.
Proof.
  remember (n_prog (l_left s)) as p eqn:Hp. remember (n_prog (l_right s)) as q eqn:Hq.
  revert q s Hp Hq. induction (rest_of_wf p) as [p _ IHl]. intros q.
  induction (rest_of_wf q) as [q _ IHr]. intros s Hp Hq. subst p q.
  assert (Hbr : forall s', n_prog (l_left s') = n_prog (l_left s) -> n_prog (l_right s') = n_prog (l_right s) ->
    (l_broken s' = false -> sn link_step (mkLink (l_left s') (l_right s') true)) -> sn link_step s').
  { intros s' Hl Hr Hb. constructor. intros s2 Hs. destruct Hs as [x b br Hs|x b br Hs|Hs].
    - apply node_step_prog in Hs. rewrite Hl in Hs. by eapply IHl; [exact Hs|..].
    - apply node_step_prog in Hs. rewrite Hr in Hs. eapply IHr; [exact Hs|by cbn|done].
    - by apply Hb. }
  apply Hbr; [done|done|]. intros _. by apply Hbr.
Qed.

(** ** What was sent *)

(** The history up to the first write that failed, as if that one had succeeded:
    the most that can have reached the peer. *)
Fixpoint attempted (tr : list event) : list event :=
  match tr with
  | [] => []
  | EvWrite b (Some _) :: _ => [EvWrite b None]
  | e :: tr => e :: attempted tr
  end.

Lemma attempted_cons e tr : (forall b err, e <> EvWrite b (Some err)) -> attempted (e :: tr) = e :: attempted tr.
Proof. destruct e as [|b [err|]| | | | | | | | | | |]; intros He; try done. by destruct (He b err). Qed.

Lemma attempted_cases e tr :
  (exists b err, e = EvWrite b (Some err) /\ attempted (e :: tr) = [EvWrite b None]) \/
  attempted (e :: tr) = e :: attempted tr.
Proof. destruct e as [|b [err|]| | | | | | | | | | |]; eauto. Qed.

Lemma attempted_app tr tr' : attempted tr `prefix_of` attempted (tr ++ tr').
Proof.
  induction tr as [|e tr IH]; [apply prefix_nil|]. cbn [app].
  destruct (attempted_cases e tr) as [(b & err & -> & _)|Heq]; [done|].
  destruct (attempted_cases e (tr ++ tr')) as [(b & err & -> & _)|Heq']; [done|].
  rewrite Heq, Heq'. by apply prefix_cons.
Qed.

(** Without a failed write nothing changes. *)
Lemma attempted_calm tr tr' : attempted tr = tr -> attempted (tr ++ tr') = tr ++ attempted tr'.
Proof.
  induction tr as [|e tr IH]; [done|]. cbn [app]. intros Hc.
  destruct (attempted_cases e tr) as [(b & err & -> & Heq)|Heq]; rewrite Heq in Hc; [done|].
  injection Hc as Hc. destruct (attempted_cases e (tr ++ tr')) as [(b & err & -> & _)|Heq']; [done|].
  by rewrite Heq', IH.
Qed.

Lemma attempted_elem e tr : e ∈ attempted tr -> e ∈ tr \/ exists b, e = EvWrite b None.
Proof.
  induction tr as [|e' tr IH]; [by left|].
  destruct (attempted_cases e' tr) as [(b & err & -> & Heq)|Heq]; rewrite Heq.
  - intros ->%list_elem_of_singleton. eauto.
  - intros [->|He]%elem_of_cons; [left; set_solver|]. destruct (IH He); [left; set_solver|by right].
Qed.

(** It is a history of the same program. *)
Lemma attempted_partial {A} (p : prog A) tr : partial p tr -> partial p (attempted tr).
Proof.
  revert tr. induction p as [a|h|o k IH]; intros tr Hp; [by rewrite Hp|by rewrite Hp|].
  destruct Hp as [->|(a & tr' & Hwf & -> & Hp)]; [by left|right].
  destruct (attempted_cases (event_of o a) tr') as [(b & err & He & Heq)|Heq]; rewrite Heq.
  - destruct o; try done. cbn in He. simplify_eq. exists None, []. split_and!; [done|done|apply partial_nil].
  - exists a, (attempted tr'). split_and!; [done|done|by apply IH].
Qed.

Lemma attempted_file_writes tr : file_writes (attempted tr) `prefix_of` file_writes tr.
Proof.
  induction tr as [|e tr IH]; [done|].
  destruct (attempted_cases e tr) as [(b & err & -> & Heq)|Heq]; rewrite Heq; [apply prefix_nil|].
  change (e :: attempted tr) with ([e] ++ attempted tr). change (e :: tr) with ([e] ++ tr).
  rewrite !file_writes_app. by apply prefix_app.
Qed.

(** ** What has arrived *)

Definition said (tr : list event) : bytes := of_dir Tx (flow (attempted tr)).

Definition heard_bytes {A} (x : node A) : bytes := of_dir Rx (flow (n_hist x)) ++ n_inbox x.

(** What has reached [x] is a part of what [y] sent, and all of it while the
    connection holds and [y] goes on. *)
Record arrives {A B} (x : node A) (y : node B) (br : bool) : Prop := {
  ar_prefix : heard_bytes x `prefix_of` said (n_hist y);
  ar_all : br = false -> node_over y = false ->
    attempted (n_hist y) = n_hist y /\ heard_bytes x = said (n_hist y)
}.

Lemma said_app tr e : said tr `prefix_of` said (tr ++ [e]).
Proof.
  unfold said. destruct (attempted_app tr [e]) as [k ->]. rewrite flow_app, of_dir_app. by apply prefix_app_r.
Qed.

(** The reader's part of one operation. *)
Lemma heard_step {A} br po (x x' : node A) b br' :
  node_step br po x x' b br' ->
  (heard_bytes x' = heard_bytes x \/ heard_bytes x' `prefix_of` heard_bytes x /\ (br' = true \/ po = true)) /\
  (br = true -> br' = true).
Proof.
  unfold heard_bytes. intros Hs.
  assert (Hlose : forall e, of_dir Rx (flow [e]) = [] ->
    of_dir Rx (flow (n_hist x ++ [e])) ++ [] `prefix_of` of_dir Rx (flow (n_hist x)) ++ n_inbox x).
  { intros e He. rewrite flow_app, of_dir_app, He, !app_nil_r. by apply prefix_app_r. }
  assert (Hkeep : forall e, of_dir Rx (flow [e]) = [] ->
    of_dir Rx (flow (n_hist x ++ [e])) ++ n_inbox x = of_dir Rx (flow (n_hist x)) ++ n_inbox x).
  { intros e He. by rewrite flow_app, of_dir_app, He, app_nil_r. }
  destruct Hs as [o k a w Hp Hw|n k b r Hp Hi|n k Hp|n k e Hp|b k Hp|b k b' e Hp|b k r Hp|b k Hp|k Hp|k Hp];
    cbn [did n_hist n_inbox event_of]; (split; [|congruence]).
  - left. apply Hkeep. by destruct o.
  - left. rewrite flow_app, flow_singleton, of_dir_app, Hi. cbn [flow_event]. by rewrite of_dir_same, <-app_assoc.
  - right. split; [by apply Hlose|by right].
  - right. split; [by apply Hlose|by left].
  - left. apply Hkeep. rewrite flow_singleton. by apply of_dir_other.
  - left. by apply Hkeep.
  - left. apply Hkeep. rewrite flow_singleton. destruct r; [done|by apply of_dir_other].
  - left. by apply Hkeep.
  - left. by apply Hkeep.
  - left. by apply Hkeep.
Qed.

(** The writer's part. *)
Lemma said_step {A B} br po (x x' : node A) (y : node B) b br' :
  node_step br po x x' b br' -> arrives y x br -> arrives (arrive y b) x' br'.
Proof.
  intros Hs [Hpre Hall].
  assert (Hb : heard_bytes (arrive y b) = heard_bytes y ++ b).
  { unfold heard_bytes. cbn [arrive n_hist n_inbox]. by rewrite app_assoc. }
  assert (Hover : forall o k, n_prog x = Vis o k -> node_over x = n_closed x).
  { intros o k Hp. unfold node_over. by rewrite Hp, orb_false_r. }
  (* an operation that sends nothing *)
  assert (Hquiet : forall o k a w inb cl, n_prog x = Vis o k -> n_closed x = cl \/ cl = true ->
    (br' = false -> br = false) -> b = [] -> of_dir Tx (flow [event_of o a]) = [] ->
    (br' = false -> cl = false -> attempted [event_of o a] = [event_of o a]) ->
    arrives (arrive y b) (did x w inb cl o k a) br').
  { intros o k a w inb cl Hp Hcl Hbr -> Htx Hat. split; rewrite Hb, app_nil_r; cbn [did n_hist].
    - etrans; [exact Hpre|apply said_app].
    - intros Hb' Ho. assert (cl = false) as ->.
      { unfold node_over in Ho. cbn [did n_closed] in Ho. by destruct cl. }
      destruct Hcl as [Hcl|]; [|done].
      destruct (Hall (Hbr Hb')) as [Hc Heq]; [by rewrite (Hover _ _ Hp)|].
      rewrite attempted_calm, Hat by done. split; [done|]. unfold said in *.
      rewrite attempted_calm, Hat, flow_app, of_dir_app, Htx, app_nil_r by done. by rewrite <-Hc. }
  destruct Hs as [o k a w Hp Hw|n k b r Hp Hi|n k Hp|n k e Hp|b k Hp Hbr Hcl|b k b' e Hp Hbr Hcl Hb'|b k r Hp|b k Hp|k Hp|k Hp].
  - apply Hquiet; auto; [by destruct o|]. intros _ _. by destruct o.
  - apply Hquiet; auto. rewrite flow_singleton. by apply of_dir_other.
  - by apply Hquiet; auto.
  - by apply Hquiet; auto.
  - destruct (Hall Hbr) as [Hc Heq]; [by rewrite (Hover _ _ Hp)|].
    assert (Hat : attempted (n_hist x ++ [EvWrite b None]) = n_hist x ++ [EvWrite b None]) by (by rewrite attempted_calm).
    assert (Hsaid : said (n_hist x ++ [EvWrite b None]) = said (n_hist x) ++ b).
    { unfold said. rewrite Hat, Hc, flow_app, flow_singleton, of_dir_app. cbn [flow_event]. by rewrite of_dir_same. }
    split; rewrite Hb, Heq; cbn [did n_hist event_of]; rewrite Hsaid; [done|]. intros _ _. by rewrite Hat.
  - destruct (Hall Hbr) as [Hc Heq]; [by rewrite (Hover _ _ Hp)|]. split; [|done].
    rewrite Hb, Heq. cbn [did n_hist event_of]. unfold said. rewrite attempted_calm, Hc by done.
    cbn [attempted]. rewrite flow_app, flow_singleton, of_dir_app. cbn [flow_event]. rewrite of_dir_same. by apply prefix_app.
  - split; rewrite Hb, app_nil_r; [|done]. cbn [did n_hist]. etrans; [exact Hpre|apply said_app].
  - apply Hquiet; auto. by intros _ [=].
  - by apply Hquiet; auto.
  - by apply Hquiet; auto.
Qed.

Lemma read_step {A B} br po (x x' : node A) (y : node B) b br' :
  node_step br po x x' b br' -> po = node_over y -> arrives x y br -> arrives x' (arrive y b) br'.
Proof.
  intros Hs -> [Hpre Hall]. destruct (heard_step _ _ _ _ _ _ Hs) as [Hh Hbr]. split; cbn [arrive n_hist].
  - destruct Hh as [->|[Hh _]]; [done|]. by etrans.
  - intros Hb' Ho. change (node_over (arrive y b)) with (node_over y) in Ho.
    destruct Hh as [->|[_ [?|?]]]; [|congruence..]. apply Hall; [|done]. destruct br; [|done]. by rewrite Hbr in Hb'.
Qed.

(** ** The sender's machine *)

Definition on_stream (e : event) : Prop :=
  match e with EvRead _ _ | EvWrite _ _ | EvClose | EvReset => True | _ => False end.

(** The local operations of [tr] are answered by a machine that goes from [w] to
    [w']. *)
Inductive on_machine : World -> list event -> World -> Prop :=
| mc_nil w : on_machine w [] w
| mc_local w o a w1 tr w' :
    world_answer o w = Some (a, w1) -> on_machine w1 tr w' -> on_machine w (event_of o a :: tr) w'
| mc_stream w e tr w' : on_stream e -> on_machine w tr w' -> on_machine w (e :: tr) w'.

Lemma on_machine_app w tr w1 tr' w2 : on_machine w tr w1 -> on_machine w1 tr' w2 -> on_machine w (tr ++ tr') w2.
Proof. induction 1; cbn [app]; [done|eauto using on_machine..]. Qed.

(** One event on a machine. *)
Definition answered (w : World) (e : event) (w' : World) : Prop :=
  on_stream e /\ w' = w \/ exists o a, e = event_of o a /\ world_answer o w = Some (a, w').

Lemma on_machine_inv w e tr w' : on_machine w (e :: tr) w' -> exists w1, answered w e w1 /\ on_machine w1 tr w'.
Proof.
  remember (e :: tr) as l eqn:Hl. intros Hm. destruct Hm as [w|w o a w1 tr0 w' Hw Hm|w e0 tr0 w' He Hm];
    [done| |]; injection Hl as <- <-; unfold answered; eauto 10.
Qed.

(** The paths of the open handles; the sender leaves files and clock alone. *)
Definition handle_path (p : string) (h : option (string * nat)) : Prop :=
  match h with Some (q, _) => q = p | None => True end.

Definition keeps_disk (w0 w : World) : Prop := w_files w = w_files w0 /\ w_clock w = w_clock w0.

(** What the history tells about the files behind the handles. *)
Definition event_true (fs : gmap string bytes) (paths : list string) (e : event) : Prop :=
  match e with
  | EvOpen p (Ok f) => paths !! f = Some p
  | EvReadAt f n off d err => err = None \/ err = Some EOF ->
      exists p c, paths !! f = Some p /\ fs !! p = Some c /\ d = take (Z.to_nat n) (drop (Z.to_nat off) c)
  | EvStat f (Ok info) =>
      exists p c, paths !! f = Some p /\ fs !! p = Some c /\ info = mkFileInfo (basename p) (len c)
  | _ => True
  end.

Lemma event_true_mono fs paths more e : event_true fs paths e -> event_true fs (paths ++ more) e.
Proof.
  assert (Hm : forall f (p : string), paths !! f = Some p -> (paths ++ more) !! f = Some p)
    by (intros; by apply lookup_app_l_Some).
  destruct e as [| | | | | |p [f|]|f [i|]|f n off d err| | | |]; cbn; try done; auto.
  - intros (p & c & Hp & ?). eauto.
  - intros He Herr. destruct (He Herr) as (p & c & Hp & ?). eauto.
Qed.

Lemma open_file_path w paths f p off c :
  Forall2 handle_path paths (w_handles w) -> open_file w f = Some (p, off, c) ->
  paths !! f = Some p /\ w_files w !! p = Some c.
Proof.
  intros HF. unfold open_file. destruct (w_handles w !! f) as [[[q o]|]|] eqn:Hf; cbn; [|done..].
  destruct (w_files w !! q) eqn:Hq; cbn; [|done]. intros [= -> -> ->].
  destruct (Forall2_lookup_r _ _ _ _ _ HF Hf) as (p' & Hp' & Hh). cbn in Hh. by subst.
Qed.

(** One operation of a program that leaves the disk alone. *)
Lemma sender_answer w o a w' paths :
  sender_op o -> world_answer o w = Some (a, w') -> Forall2 handle_path paths (w_handles w) ->
  keeps_disk w w' /\ exists more, Forall2 handle_path (paths ++ more) (w_handles w') /\
    event_true (w_files w) (paths ++ more) (event_of o a).
Proof.
  intros Ho Hw HF. unfold keeps_disk.
  assert (Hsame : w' = w -> event_true (w_files w) paths (event_of o a) ->
    (w_files w' = w_files w /\ w_clock w' = w_clock w) /\
    exists more, Forall2 handle_path (paths ++ more) (w_handles w') /\
      event_true (w_files w) (paths ++ more) (event_of o a)).
  { intros -> He. split; [done|]. exists []. by rewrite app_nil_r. }
  destruct o; try done; cbn in Hw.
  - injection Hw as <- <-. split; [done|]. exists []. by rewrite app_nil_r.
  - injection Hw as <- <-. by apply Hsame.
  - destruct (w_files w !! path) eqn:Hp; injection Hw as <- <-; [|by apply Hsame].
    split; [done|]. exists [path]. split; [by apply Forall2_app; [|repeat constructor]|].
    cbn [event_of event_true]. rewrite <-(Forall2_length _ _ _ HF). by apply list_lookup_middle.
  - destruct (open_file w f) as [[[p off] c]|] eqn:Hof; injection Hw as <- <-; apply Hsame; try done.
    destruct (open_file_path _ _ _ _ _ _ HF Hof). cbn. eauto.
  - destruct (open_file w f) as [[[p off'] c]|] eqn:Hof; [|injection Hw as <- <-; apply Hsame; [done|]; cbn; by intros [?|?]].
    destruct (open_file_path _ _ _ _ _ _ HF Hof).
    case_decide; injection Hw as <- <-; apply Hsame; try done; cbn; [by intros [?|?]|eauto].
  - destruct (w_handles w !! f) as [[h|]|] eqn:Hf; injection Hw as <- <-; try by apply Hsame.
    split; [done|]. exists []. rewrite app_nil_r. split; [|done]. cbn [w_handles set_handles].
    destruct (Forall2_lookup_r _ _ _ _ _ HF Hf) as (p & Hp & _).
    rewrite <-(list_insert_id paths f p) by done. by apply Forall2_insert.
Qed.

Lemma sender_machine w tr w' paths :
  on_machine w tr w' -> Forall (fun e => on_stream e \/ exists o a, e = event_of o a /\ sender_op o) tr ->
  Forall2 handle_path paths (w_handles w) ->
  keeps_disk w w' /\ exists more, Forall (event_true (w_files w) (paths ++ more)) tr.
Proof.
  revert w paths. induction tr as [|e tr IH]; intros w paths Hm Hops HF.
  - inversion Hm; subst. split; [done|]. by exists [].
  - apply on_machine_inv in Hm as (w1 & Ha & Hm). apply Forall_cons in Hops as [He Hops].
    destruct Ha as [[Hs ->]|(o & a & -> & Hw)].
    + destruct (IH w paths Hm Hops HF) as [Hk [more Ht]]. split; [done|]. exists more. constructor; [by destruct e|done].
    + assert (Ho : sender_op o).
      { destruct He as [He|(o' & a' & Heq & Ho')]; [by destruct o|].
        destruct o, o'; try done; cbn in *; by simplify_eq. }
      destruct (sender_answer w o a w1 paths Ho Hw HF) as [[Hf1 Hc1] (more & HF1 & Ht1)].
      destruct (IH w1 _ Hm Hops HF1) as [[Hf2 Hc2] [more' Ht]]. rewrite Hf1 in Ht.
      split; [split; congruence|]. exists (more ++ more'). rewrite app_assoc.
      constructor; [by apply event_true_mono|done].
Qed.

(** A machine that has the file serves it. *)
Lemma machine_serves w tr w' path content :
  on_machine w tr w' -> Forall (fun e => on_stream e \/ exists o a, e = event_of o a /\ sender_op o) tr ->
  w_files w !! path = Some content -> len (bytes_of_string (basename path)) < 2 ^ 32 ->
  serves path content tr /\ keeps_disk w w' /\
  (forall f info, EvOpen path (Ok f) ∈ tr -> EvStat f (Ok info) ∈ tr -> fi_Name info = basename path).
Proof.
  intros Hm Hops Hfile Hname.
  set (paths := (fun h : option (string * nat) => match h with Some (p, _) => p | None => ""%string end) <$> w_handles w).
  destruct (sender_machine w tr w' paths Hm Hops) as [Hk [more Ht]].
  { unfold paths. induction (w_handles w) as [|[[p o]|] hs IH]; by constructor. }
  rewrite Forall_forall in Ht.
  assert (Hstat : forall f info, EvOpen path (Ok f) ∈ tr -> EvStat f (Ok info) ∈ tr ->
    info = mkFileInfo (basename path) (len content)).
  { intros f info HO HS. pose proof (Ht _ HO) as HO'. destruct (Ht _ HS) as (p & c & Hp & Hc & ->).
    cbn in HO'. rewrite HO' in Hp. simplify_eq. done. }
  split_and!; [|done|].
  - intros f HO. pose proof (Ht _ HO) as HO'. cbn in HO'. split.
    + intros n off d e HR He. destruct (Ht _ HR He) as (p & c & Hp & Hc & ->). by simplify_eq.
    + intros info HS. by rewrite (Hstat f info HO HS).
  - intros f info HO HS. by rewrite (Hstat f info HO HS).
Qed.

(** A sender whose file is there does not halt. *)
Lemma machine_returns `{LegacyKeccak256} fuel path w tr w' h :
  enough_fuel fuel -> on_machine w tr w' -> is_Some (w_files w !! path) ->
  ~ exec (SendFile fuel path) tr (Halted h).
Proof.
  intros Hfuel Hm [c Hc] Hx.
  (* the machine after opening the file *)
  assert (Hopen : forall r tr', on_machine w (EvOpen path r :: tr') w' ->
    r = Ok (length (w_handles w)) /\ on_machine (opened w path) tr' w').
  { intros r tr' (w1 & [[? _]|(o & a & He & Hw)] & Hm')%on_machine_inv; [done|].
    destruct o; try discriminate He. cbn in He, Hw. simplify_eq. rewrite Hc in Hw. by simplify_eq. }
  assert (Hstat : forall r tr', on_machine (opened w path) (EvStat (length (w_handles w)) r :: tr') w' ->
    (exists info, r = Ok info) /\ on_machine (opened w path) tr' w').
  { intros r tr' (w1 & [[? _]|(o & a & He & Hw)] & Hm')%on_machine_inv; [done|].
    destruct o; try discriminate He. cbn in He. simplify_eq. cbn [world_answer] in Hw.
    rewrite (open_file_opened w path c) in Hw by done. by simplify_eq; eauto. }
  destruct (sendfile_halts _ _ _ Hfuel h Hx) as [[e ->]|[(f & e & ->)|(f & info & t & e & ce & ->)]].
  - by apply Hopen in Hm as [? _].
  - apply Hopen in Hm as [[= ->] Hm]. by apply Hstat in Hm as [[? ?] _].
  - apply Hopen in Hm as [[= ->] Hm]. apply Hstat in Hm as [_ Hm].
    apply on_machine_inv in Hm as (w1 & [[? _]|(o & a & He & Hw)] & Hm); [done|].
    destruct o; try discriminate He. cbn in Hw. simplify_eq.
    by apply Hstat in Hm as [[? ?] _].
Qed.

(** ** The receiver's machine *)

(** The files are those of the start, with what was written in the one that was
    created. *)
Definition received_disk (w0 w : World) (tr : list event) : Prop :=
  untouched tr /\ w_files w = w_files w0 \/
  exists p f, creates tr = [(p, f)] /\ w_files w = <[p := copied tr]> (w_files w0) /\
    (w_handles w !! f = Some None \/ w_handles w !! f = Some (Some (p, length (copied tr)))).

(** An operation that creates and writes no file. *)
Lemma received_disk_mild w0 w w' tr e :
  received_disk w0 w tr -> untouched [e] -> mild w w' -> received_disk w0 w' (tr ++ [e]).
Proof.
  intros Hd He [Hf Hm]. destruct Hd as [[Hu Hw]|(p & f & Hc & Hw & Hh)].
  - left. split; [by apply untouched_app|congruence].
  - right. exists p, f. rewrite creates_same, copied_same, Hf by done. split_and!; [done|done|].
    destruct Hh as [Hh|Hh]; destruct (Hm _ _ Hh); auto.
Qed.

Lemma received_disk_step w0 w w' tr o a :
  received_disk w0 w tr -> owned tr -> owned (tr ++ [event_of o a]) ->
  world_answer o w = Some (a, w') -> received_disk w0 w' (tr ++ [event_of o a]).
Proof.
  intros Hd Ho Ho' Hw. destruct (answer_touches o a w w' Hw) as [Hu|[(p & He & ->)|(f & b & p & off & c & He & Hof & ->)]].
  - eapply received_disk_mild; [done|done|by eapply answer_mild].
  - rewrite He in *. destruct (owned_create _ _ _ Ho Ho') as [Hw0 Hc0]. right. exists p, (length (w_handles w)).
    rewrite creates_app, Hc0. unfold copied. rewrite file_writes_app, Hw0. cbn.
    destruct Hd as [[_ Hf]|(p' & f & Hc & _)]; [|by rewrite Hc0 in Hc]. rewrite Hf. split_and!; [done|done|].
    right. by apply list_lookup_middle.
  - rewrite He in *. destruct (owned_write _ _ _ Ho') as [q Hq].
    destruct Hd as [[[_ Hu] _]|(p' & f' & Hc & Hf & Hh)]; [by rewrite Hu in Hq|].
    rewrite Hq in Hc. injection Hc as -> ->. unfold open_file in Hof.
    destruct Hh as [Hh|Hh]; rewrite Hh in Hof; cbn in Hof; [done|].
    rewrite Hf, lookup_insert_eq in Hof. cbn in Hof. injection Hof as <- <- <-.
    right. exists p', f'. cbn [w_files w_handles set_handles set_files].
    assert (Hcp : copied (tr ++ [EvFileWrite f' b None]) = copied tr ++ b).
    { rewrite copied_app. unfold copied at 2. cbn. by rewrite app_nil_r. }
    rewrite creates_app, Hq, Hcp, Hf, insert_insert_eq, take_ge, drop_ge, !app_nil_r, length_app by lia.
    split_and!; [done|done|]. right. apply list_lookup_insert_eq. by apply lookup_lt_Some in Hh.
Qed.

(** ** A file transfer over the connection *)

(** The sizes of the files and the clock are [int64] values. *)
Definition machine_ok (w : World) : Prop :=
  map_Forall (fun _ c => len c < 2 ^ 63) (w_files w) /\ - 2 ^ 63 <= w_clock w < 2 ^ 63.

(** Once the connection is broken an endpoint never waits. *)
Lemma sender_moves {A} po (x : node A) o k w0 :
  n_prog x = Vis o k -> sender_op o -> machine_ok w0 -> keeps_disk w0 (n_world x) ->
  exists x' b br, node_step true po x x' b br.
Proof.
  intros Hp Ho [Hsz Hcl] [Hf Hc].
  assert (Hlocal : forall a w, world_answer o (n_world x) = Some (a, w) -> wf_event (event_of o a) ->
    exists x' b br, node_step true po x x' b br) by (intros; do 3 eexists; by eapply ns_local).
  destruct o; try done.
  - do 3 eexists. by apply (ns_read_fails true po x n k EOF).
  - do 3 eexists. by apply (ns_write_lost true po x b k None).
  - eapply Hlocal; [done|]. cbn in *. unfold len. rewrite length_fmap, length_seq. lia.
  - eapply Hlocal; [done|]. cbn. by rewrite Hc.
  - cbn in Hlocal. destruct (w_files (n_world x) !! path); by eapply Hlocal.
  - cbn in Hlocal. destruct (open_file (n_world x) f) as [[[p off] c]|] eqn:Hof; eapply Hlocal; try done.
    unfold open_file in Hof. destruct (mjoin _) as [[q o']|]; [|done]. cbn in Hof.
    destruct (w_files (n_world x) !! q) as [c'|] eqn:Hq; [|done]. cbn in Hof. simplify_eq. rewrite Hf in Hq.
    split; [apply len_nonneg|exact (Hsz _ _ Hq)].
  - cbn in Ho. subst n. cbn in Hlocal.
    destruct (open_file (n_world x) f) as [[[p off'] c]|]; [|by eapply Hlocal].
    case_decide; eapply Hlocal; try done. cbn [event_of wf_event fst snd].
    assert (len (take (Z.to_nat ChunkSize) (drop (Z.to_nat off) c)) <= ChunkSize).
    { unfold len. rewrite length_take. unfold ChunkSize. lia. }
    split; [done|]. intros Hlt. by rewrite decide_True.
  - cbn in Hlocal. destruct (w_handles (n_world x) !! f) as [[h|]|]; by eapply Hlocal.
Qed.

Lemma receiver_moves {A} po (x : node A) o k :
  n_prog x = Vis o k -> receiver_op o -> exists x' b br, node_step true po x x' b br.
Proof.
  intros Hp Ho.
  assert (Hlocal : forall a w, world_answer o (n_world x) = Some (a, w) -> wf_event (event_of o a) ->
    exists x' b br, node_step true po x x' b br) by (intros; do 3 eexists; by eapply ns_local).
  destruct o; try done; cbn in Hlocal.
  - do 3 eexists. by apply (ns_read_fails true po x n k EOF).
  - do 3 eexists. by apply (ns_write_lost true po x b k None).
  - by eapply Hlocal.
  - by eapply Hlocal.
  - destruct (open_file (n_world x) f) as [[[p off] c]|]; by eapply Hlocal.
  - destruct (w_handles (n_world x) !! f) as [[h|]|]; by eapply Hlocal.
Qed.

(** One operation in the history of an endpoint. *)
Lemma node_step_history {A} (p : prog A) br po (x x' : node A) b br' :
  node_step br po x x' b br' -> leads p (n_hist x) (n_prog x) ->
  leads p (n_hist x') (n_prog x') /\
  exists o a k, n_prog x = Vis o k /\ n_hist x' = n_hist x ++ [event_of o a] /\
    (world_answer o (n_world x) = Some (a, n_world x') \/
     on_stream (event_of o a) /\ n_world x' = n_world x).
Proof.
  intros Hs Hl.
  destruct Hs as [o k a w Hp Hw|n k b r Hp Hi|n k Hp|n k e Hp|b k Hp|b k b' e Hp|b k r Hp|b k Hp|k Hp|k Hp];
    rewrite Hp in Hl; cbn [did n_prog n_hist n_world];
    (split; [by apply leads_step|]); eexists _, _, _; (split; [exact Hp|]); (split; [done|]); (by left) || by right.
Qed.

Section transfer.
Context `{LegacyKeccak256, !LegacyKeccak256Spec} (fuelS fuelR : nat) (path : string) (content : bytes).
Context (wS wR : World).
Hypothesis HfS : enough_fuel fuelS.
Hypothesis HfR : enough_fuel fuelR.
Hypothesis Hok : machine_ok wS.
Hypothesis Hfile : w_files wS !! path = Some content.
Hypothesis Hsize : len content <= (2 ^ 32 - 1) * ChunkSize.
Hypothesis Hpath : len (bytes_of_string path) < 2 ^ 32.

Record link_inv (s : link (option error) (option error)) : Prop := {
  li_sender : leads (SendFile fuelS path) (n_hist (l_left s)) (n_prog (l_left s));
  li_receiver : leads (RecieveFile fuelR) (n_hist (l_right s)) (n_prog (l_right s));
  li_machine : on_machine wS (n_hist (l_left s)) (n_world (l_left s));
  li_disk : received_disk wR (n_world (l_right s)) (n_hist (l_right s));
  li_down : arrives (l_right s) (l_left s) (l_broken s);
  li_up : arrives (l_left s) (l_right s) (l_broken s)
}.

Lemma receiver_leads_owned tr q : leads (RecieveFile fuelR) tr q -> owned tr.
Proof using HfR. intros Hl%leads_partial. by apply receiver_owned, (recievefile_safe fuelR). Qed.

Lemma link_inv_step s s' : link_inv s -> link_step s s' -> link_inv s'.
Proof using HfR.
  intros [HS HR Hm Hd Hdn Hup] Hs. destruct Hs as [x b br Hs|x b br Hs|Hs].
  - destruct (node_step_history _ _ _ _ _ _ _ Hs HS) as (HS' & o & a & k & _ & Hh & Hw).
    split; cbn [l_left l_right l_broken]; [done|done| |done|by eapply said_step|by eapply read_step].
    rewrite Hh. eapply on_machine_app; [exact Hm|]. destruct Hw as [Hw|[He ->]].
    + eapply mc_local; [exact Hw|apply mc_nil].
    + apply mc_stream; [done|apply mc_nil].
  - destruct (node_step_history _ _ _ _ _ _ _ Hs HR) as (HR' & o & a & k & _ & Hh & Hw).
    split; cbn [l_left l_right l_broken]; [done|done|done| |by eapply read_step|by eapply said_step].
    rewrite Hh. pose proof (receiver_leads_owned _ _ HR) as Ho.
    pose proof (receiver_leads_owned _ _ HR') as Ho'. rewrite Hh in Ho'.
    destruct Hw as [Hw|[He ->]]; [by eapply received_disk_step|].
    eapply received_disk_mild; [done| |apply mild_refl]. by destruct o.
  - split; cbn [l_left l_right l_broken]; try done; destruct Hdn, Hup; by split.
Qed.

Lemma link_inv_reachable s :
  rtc link_step (link_start (SendFile fuelS path) (RecieveFile fuelR) wS wR) s -> link_inv s.
Proof using HfR.
  intros Hr. assert (Hi : link_inv (link_start (SendFile fuelS path) (RecieveFile fuelR) wS wR)).
  { split; cbn; [apply leads_refl|apply leads_refl|apply mc_nil|by left|by split|by split]. }
  revert Hi. induction Hr as [|s1 s2 s3 H12 _ IH]; [done|]. intros Hi. by eapply IH, link_inv_step.
Qed.

Lemma serves_attempted tr : serves path content tr -> serves path content (attempted tr).
Proof.
  intros Hs f [HO|[b HO]]%attempted_elem; [|done]. destruct (Hs f HO) as [Hr Hst]. split.
  - intros n off d e [He|[b He]]%attempted_elem; [by apply Hr|done].
  - intros info [He|[b He]]%attempted_elem; [by apply Hst|done].
Qed.

(** What the sender's machine has told it. *)
Lemma sender_served s :
  link_inv s ->
  serves path content (n_hist (l_left s)) /\ keeps_disk wS (n_world (l_left s)) /\
  (forall f info, EvOpen path (Ok f) ∈ n_hist (l_left s) -> EvStat f (Ok info) ∈ n_hist (l_left s) ->
     fi_Name info = basename path).
Proof using Hfile Hpath.
  intros [HS _ Hm _ _ _]. apply machine_serves; [done| |done|].
  - eapply Forall_impl; [exact (leads_ops _ _ _ _ (SendFile_ops fuelS path) HS)|]. by right.
  - pose proof (len_basename path). lia.
Qed.

(** The most the sender can have sent, as a history of its own. *)
Lemma sender_attempt s :
  link_inv s ->
  partial (SendFile fuelS path) (attempted (n_hist (l_left s))) /\
  serves path content (attempted (n_hist (l_left s))) /\
  hears (n_hist (l_right s)) (attempted (n_hist (l_left s))).
Proof using Hfile Hpath.
  intros Hi. destruct (sender_served s Hi) as (Hserves & _ & _). destruct Hi as [HS _ _ _ [Hdn _] _].
  split_and!; [by eapply attempted_partial, leads_partial|by apply serves_attempted|].
  unfold hears, said, heard_bytes in *. etrans; [|exact Hdn]. by apply prefix_app_r.
Qed.

Abbreviation target := ("./received/" +:+ basename path).

(** The receiver's disk: nothing, or a state of the copy. *)
Lemma receiver_files s :
  link_inv s ->
  untouched (n_hist (l_right s)) /\ w_files (n_world (l_right s)) = w_files wR \/
  w_files (n_world (l_right s)) = <[target := copied (n_hist (l_right s))]> (w_files wR).
Proof using All.
  intros Hi. destruct (sender_attempt s Hi) as (HS & Hserves & Hnet).
  destruct (sender_served s Hi) as (_ & _ & Hname). destruct Hi as [_ HR _ Hd _ _]. apply leads_partial in HR.
  destruct Hd as [Hd|(p & f & Hc & Hf & _)]; [by left|right]. destruct (recievefile_safe _ _ HfR HR) as [_ [[_ Hu]|(h & g & cs & Hh & Hv & _ & Hcr & _ & Hpre)]];
    [by rewrite Hu in Hc|]. rewrite Hc in Hcr. injection Hcr as -> _.
  destruct (decode_file fuelS fuelR path content _ HfS HfR Hsize HS Hserves _ h cs Hnet Hh Hv Hpre)
    as ((f' & info & HO & HI & Hn) & _).
  apply attempted_elem in HO as [HO|[? ?]]; [|done]. apply attempted_elem in HI as [HI|[? ?]]; [|done].
  by rewrite Hf, Hn, (Hname f' info HO HI).
Qed.

(** An endpoint that returned [nil]. *)
Lemma nil_complete s :
  link_inv s -> n_prog (l_left s) = Ret None \/ n_prog (l_right s) = Ret None ->
  copied (n_hist (l_right s)) = content.
Proof using All.
  intros Hi Hnil. destruct (sender_attempt s Hi) as (HS & Hserves & Hnet).
  destruct (sender_served s Hi) as (Hserves0 & _ & _). destruct Hi as [HL HR _ _ _ [Hup _]].
  pose proof (leads_partial _ _ _ HR) as HRp. destruct Hnil as [Hnil|Hnil].
  - rewrite Hnil in HL. pose proof (leads_exec _ _ _ [] (Done None) HL (conj eq_refl eq_refl)) as Hx.
    rewrite app_nil_r in Hx.
    destruct (copied_state fuelS fuelR path content _ HfS HfR Hsize HS Hserves _ HRp Hnet) as [-> Hle].
    rewrite <-(chunks_before_all content Hsize) at 2. f_equal. apply Z.le_antisymm; [done|].
    etrans; [apply (sender_nil_count fuelS fuelR path content (n_hist (l_left s)) HfS HfR Hsize
      (leads_partial _ _ _ HL) Hserves0 (attempted (n_hist (l_right s))) Hx)|].
    + by apply attempted_partial.
    + unfold hears, said, heard_bytes in *. etrans; [|exact Hup]. by apply prefix_app_r.
    + pose proof (prefix_length _ _ (attempted_file_writes (n_hist (l_right s)))). lia.
  - rewrite Hnil in HR. pose proof (leads_exec _ _ _ [] (Done None) HR (conj eq_refl eq_refl)) as Hx.
    rewrite app_nil_r in Hx. by apply (receiver_nil_complete fuelS fuelR path content _ HfS HfR Hsize HS Hserves).
Qed.

(** Broken and at rest: both have returned. *)
Lemma broken_returns s :
  link_inv s -> l_broken s = true -> nf link_step s ->
  exists eS eR, n_prog (l_left s) = Ret eS /\ n_prog (l_right s) = Ret eR.
Proof using All.
  intros Hi Hb Hnf. destruct (sender_served s Hi) as (_ & Hk & _). destruct Hi as [HL HR Hm _ _ _].
  assert (HSp : exists eS, n_prog (l_left s) = Ret eS).
  { destruct (n_prog (l_left s)) as [eS|h|o k] eqn:Hp; [eauto|exfalso..].
    - apply (machine_returns fuelS path wS (n_hist (l_left s)) (n_world (l_left s)) h HfS Hm); [by eexists|].
      rewrite <-(app_nil_r (n_hist _)). by eapply leads_exec.
    - destruct (leads_uses _ _ _ _ (SendFile_ops fuelS path) HL) as [Ho _].
      destruct (sender_moves (node_over (l_right s)) _ o k wS Hp Ho Hok Hk) as (x & b & br & Hs).
      apply Hnf. eexists. apply lk_left. by rewrite Hb. }
  assert (HRp : exists eR, n_prog (l_right s) = Ret eR).
  { destruct (n_prog (l_right s)) as [eR|h|o k] eqn:Hp; [eauto|exfalso..].
    - pose proof (leads_exec _ _ _ [] (Halted h) HR (conj eq_refl eq_refl)) as Hx.
      exact (wp_exec _ _ _ [] _ _ (wp_RecieveFile fuelR HfR) Hx).
    - destruct (leads_uses _ _ _ _ (RecieveFile_ops fuelR) HR) as [Ho _].
      destruct (receiver_moves (node_over (l_left s)) _ o k Hp Ho) as (x & b & br & Hs).
      apply Hnf. eexists. apply lk_right. by rewrite Hb. }
  destruct HSp, HRp. eauto.
Qed.

(** C4: a transfer whose connection breaks.  Whenever the connection between a
    sender and a receiver breaks, whatever of the last messages gets lost: every
    run is finite, and when it comes to rest both sides have returned.  At every
    moment the sender's files are unchanged, and the receiver's are unchanged but
    for the one under the name of the file, which holds a state of the
    block-wise copy.  When the receiver has returned [nil], or the sender of a
    file that is not empty has, that is the whole file; the [nil] of a sender of
    an empty file does not tell that there is a file. *)
Theorem broken_connection s :
  rtc link_step (link_start (SendFile fuelS path) (RecieveFile fuelR) wS wR) s ->
  sn link_step s /\
  (l_broken s = true -> nf link_step s ->
     exists eS eR, n_prog (l_left s) = Ret eS /\ n_prog (l_right s) = Ret eR) /\
  w_files (n_world (l_left s)) = w_files wS /\
  (w_files (n_world (l_right s)) = w_files wR \/
   exists out, rtc (copy_step content) [] out /\
     w_files (n_world (l_right s)) = <["./received/" +:+ basename path := out]> (w_files wR)) /\
  (n_prog (l_left s) = Ret None /\ content <> [] \/ n_prog (l_right s) = Ret None ->
   w_files (n_world (l_right s)) = <["./received/" +:+ basename path := content]> (w_files wR)).
Proof using All.
  intros Hi%link_inv_reachable. destruct (sender_served s Hi) as (_ & [Hk _] & _).
  destruct (sender_attempt s Hi) as (HS & Hserves & Hnet).
  pose proof (leads_partial _ _ _ (li_receiver s Hi)) as HRp.
  split_and!; [apply link_sn|by apply broken_returns|done| |].
  - destruct (receiver_files s Hi) as [[_ Hf]|Hf]; [by left|right]. eexists. split; [|exact Hf].
    by apply (copied_reachable fuelS fuelR path content _ HfS HfR Hsize HS Hserves).
  - intros Hnil. destruct (receiver_files s Hi) as [[[Hw Hc] _]|Hf].
    + exfalso. destruct Hnil as [[Hn Hne]|Hn].
      * apply Hne. rewrite <-(nil_complete s Hi (or_introl Hn)). unfold copied. by rewrite Hw.
      * pose proof (li_receiver s Hi) as HR. rewrite Hn in HR.
        pose proof (leads_exec _ _ _ [] (Done None) HR (conj eq_refl eq_refl)) as Hx. rewrite app_nil_r in Hx.
        destruct (recievefile_completes _ _ HfR Hx) as (h & f & cs & _ & _ & _ & Hcr & _). by rewrite Hc in Hcr.
    + rewrite Hf, (nil_complete s Hi); [done|]. tauto.
Qed.

End transfer.
