(* ===== verification/P2P.v ===== *)
(** * P2P: package p2p and the configuration of the nodes

    Identity files, relay addresses, host construction, the watch for a direct
    connection and the renewal of relay reservations (P2P/host.go), and
    [splitNonEmpty] of Server/server.go and Client/client.go.  go-libp2p and
    go-multiaddr are parameters (class [Libp2p]); what they answer is an
    argument.  Files are a [Disk]. *)

From S2P Require Import Prelude Effects.

(** ** Go's strings package *)

(** [strings.Contains]. *)
Fixpoint Contains (s pat : string) : bool :=
  String.prefix pat s ||
  match s with EmptyString => false | String.String _ s' => Contains s' pat end.

Definition comma : byte := Byte.x2c.

(** [strings.Split(s, ",")]. *)
Fixpoint split_comma (s : bytes) : list bytes :=
  match s with
  | [] => [[]]
  | b :: s =>
      if decide (b = comma) then [] :: split_comma s
      else match split_comma s with
           | part :: parts => (b :: part) :: parts
           | [] => [[b]]
           end
  end.

(** The UTF-8 encodings of the runes of [unicode.IsSpace]. *)
Definition spaces : list bytes :=
  [[Byte.x09]; [Byte.x0a]; [Byte.x0b]; [Byte.x0c]; [Byte.x0d]; [Byte.x20];
   [Byte.xc2; Byte.x85]; [Byte.xc2; Byte.xa0]; [Byte.xe1; Byte.x9a; Byte.x80];
   [Byte.xe2; Byte.x80; Byte.x80]; [Byte.xe2; Byte.x80; Byte.x81]; [Byte.xe2; Byte.x80; Byte.x82];
   [Byte.xe2; Byte.x80; Byte.x83]; [Byte.xe2; Byte.x80; Byte.x84]; [Byte.xe2; Byte.x80; Byte.x85];
   [Byte.xe2; Byte.x80; Byte.x86]; [Byte.xe2; Byte.x80; Byte.x87]; [Byte.xe2; Byte.x80; Byte.x88];
   [Byte.xe2; Byte.x80; Byte.x89]; [Byte.xe2; Byte.x80; Byte.x8a]; [Byte.xe2; Byte.x80; Byte.xa8];
   [Byte.xe2; Byte.x80; Byte.xa9]; [Byte.xe2; Byte.x80; Byte.xaf]; [Byte.xe2; Byte.x81; Byte.x9f];
   [Byte.xe3; Byte.x80; Byte.x80]].

(** The rest of [s] after a prefix of the list [ps]. *)
Definition strip_one (ps : list bytes) (s : bytes) : option bytes :=
  head (omap (fun p => if decide (take (length p) s = p) then Some (drop (length p) s) else None) ps).

Fixpoint strip (fuel : nat) (ps : list bytes) (s : bytes) : bytes :=
  match fuel with
  | O => s
  | S fuel => match strip_one ps s with Some s' => strip fuel ps s' | None => s end
  end.

(** [strings.TrimSpace]: no more spaces than bytes can be removed on each side. *)
Definition TrimSpace (s : bytes) : bytes :=
  let s := strip (length s) spaces s in
  reverse (strip (length s) (reverse <$> spaces) (reverse s)).

(** ** Server/server.go and Client/client.go *)

Definition splitNonEmpty (csv : string) : list string :=
  if decide (csv = "") then []
  else string_of_bytes <$>
       filter (fun part => part <> []) (TrimSpace <$> split_comma (bytes_of_string csv)).

(** The client has its own copy, word for word. *)
Definition client_splitNonEmpty (csv : string) : list string :=
  if decide (csv = "") then []
  else string_of_bytes <$>
       filter (fun part => part <> []) (TrimSpace <$> split_comma (bytes_of_string csv)).

(** ** The library *)

Class Libp2p := {
  PrivKey : Type;
  PeerID : Type;
  Multiaddr : Type;
  AddrInfo : Type;
  Host : Type;
  UnmarshalPrivateKey : bytes -> res PrivKey;
  MarshalPrivateKey : PrivKey -> res bytes;
  NewMultiaddr : string -> res Multiaddr;
  AddrInfoFromP2pAddr : Multiaddr -> res AddrInfo;
  Multiaddr_String : Multiaddr -> string;
  ID_String : PeerID -> string;
  ai_ID : AddrInfo -> PeerID;
  ai_Addrs : AddrInfo -> list Multiaddr
}.

(** The documentation of [crypto.UnmarshalPrivateKey]: it converts what
    [crypto.MarshalPrivateKey] made back into the key. *)
Class Libp2pKeys `{Libp2p} : Prop :=
  marshal_roundtrip : forall k b, MarshalPrivateKey k = Ok b -> UnmarshalPrivateKey b = Ok k.

(** ** Files *)

(** Files, and what reading or writing a path fails with; a write that fails may
    leave something else in the file. *)
Record Disk := mkDisk {
  d_files : gmap string bytes;
  d_readErr : string -> option error;
  d_writeErr : string -> option (error * option bytes)
}.

Definition set_d_files (d : Disk) (fs : gmap string bytes) : Disk :=
  {| d_files := fs; d_readErr := d_readErr d; d_writeErr := d_writeErr d |}.

Definition ReadFile (d : Disk) (path : string) : res bytes :=
  match d_readErr d path with
  | Some e => Err e
  | None => match d_files d !! path with
            | Some b => Ok b
            | None => Err (Errorf "file does not exist" [])
            end
  end.

Definition WriteFile (d : Disk) (path : string) (b : bytes) : Disk * option error :=
  match d_writeErr d path with
  | Some (e, rest) => (set_d_files d (partial_alter (fun _ => rest) path (d_files d)), Some e)
  | None => (set_d_files d (<[path := b]> (d_files d)), None)
  end.

Section host.
Context `{Libp2p}.

(** ** Identity *)

(** [gen] is the answer of [crypto.GenerateKeyPair]. *)
Definition LoadOrCreateIdentity (gen : res PrivKey) (keyPath : string) (d : Disk)
    : Disk * res PrivKey :=
  match ReadFile d keyPath with
  | Ok data => (d, UnmarshalPrivateKey data)
  | Err _ =>
      match gen with
      | Err err => (d, Err err)
      | Ok priv =>
          match MarshalPrivateKey priv with
          | Err err => (d, Err err)
          | Ok data =>
              match WriteFile d keyPath data with
              | (d, Some err) => (d, Err err)
              | (d, None) => (d, Ok priv)
              end
          end
      end
  end.

Definition GenerateEphemeralIdentity (gen : res PrivKey) : res PrivKey := gen.

(** The name of the protocol streams are opened for. *)
Definition ProtocolID : string := "/file-transfer/1.0.0".

(** ** Relay addresses *)

Fixpoint relay_loop (addrs : list string) (infos : list AddrInfo) : res (list AddrInfo) :=
  match addrs with
  | [] => Ok infos
  | a :: addrs =>
      match NewMultiaddr a with
      | Err err => Err (Errorf "invalid relay multiaddr %q: %w" [AString a; AError err])
      | Ok maddr =>
          match AddrInfoFromP2pAddr maddr with
          | Err err => Err (Errorf "relay multiaddr %q is missing /p2p/<PeerID>: %w" [AString a; AError err])
          | Ok info => relay_loop addrs (infos ++ [info])
          end
      end
  end.

Definition StaticRelayAddrs (addrs : list string) : res (list AddrInfo) := relay_loop addrs [].

Definition CircuitAddr (relay : AddrInfo) (self : PeerID) : string :=
  match ai_Addrs relay with
  | [] => ""
  | a :: _ => Multiaddr_String a +:+ "/p2p/" +:+ ID_String (ai_ID relay) +:+ "/p2p-circuit/p2p/"
              +:+ ID_String self
  end.

Definition ClientListenAddrs : list string :=
  ["/ip4/0.0.0.0/tcp/0"; "/ip4/0.0.0.0/udp/0/quic-v1"]%string.

(** ** Host construction *)

(** The options of [libp2p.New] the code uses. *)
Inductive Option : Type :=
| Identity (priv : PrivKey)
| NATPortMap
| EnableRelay
| TransportTCP
| TransportQUIC
| TransportWS
| EnableHolePunching
| ListenAddrStrings (addrs : list string)
| NoListenAddrs
| EnableRelayService_InfiniteLimits
| ForceReachabilityPublic
| DisableRelay.

Definition hostOptions (priv : PrivKey) (listenAddrs : list string) : list Option :=
  [Identity priv; NATPortMap; EnableRelay; TransportTCP; TransportQUIC; TransportWS; EnableHolePunching]
  ++ [if decide (0 < length listenAddrs)%nat then ListenAddrStrings listenAddrs else NoListenAddrs].

(** [sub] is the answer of the event bus, with the identifications that arrive:
    the peer and the addresses it reports. *)
Inductive IdentifyLog : Type :=
| CouldntSubscribe (err : error)
| Identified (p : PeerID) (listenAddrs : list Multiaddr).

Definition LogIdentifyEvents (sub : res (list (PeerID * list Multiaddr))) : list IdentifyLog :=
  match sub with
  | Err err => [CouldntSubscribe err]
  | Ok evts => (fun '(p, addrs) => Identified p addrs) <$> evts
  end.

(** ** Direct and relayed connections *)

Definition isRelayedAddr (addr : Multiaddr) : bool := Contains (Multiaddr_String addr) "/p2p-circuit".

Inductive ConnKind : Type := NoConn | Relayed | Direct.

(** The loop over the connections. *)
Fixpoint best_loop (conns : list Multiaddr) : ConnKind :=
  match conns with
  | [] => Relayed
  | c :: conns => if negb (isRelayedAddr c) then Direct else best_loop conns
  end.

(** [conns] are the remote addresses of the open connections to the peer. *)
Definition connKindToPeer (conns : list Multiaddr) : ConnKind :=
  if decide (length conns = 0)%nat then NoConn else best_loop conns.

(** What the select of [WatchForDirectUpgrade] may receive, with the connections
    open at that moment, and the lines it logs, one constructor for each
    [log.Printf] (the peer and the addresses they print are left out). *)
Inductive WatchEvent : Type :=
| CtxDone
| Deadline (conns : list Multiaddr)
| Tick (conns : list Multiaddr).

Inductive WatchLog : Type := StartHolePunch | EndHolePunch | ConnectedDirectly | TimedOut | KnownAddrs.

(** The goroutine: the lines logged for the events received, and whether it has
    returned. *)
Fixpoint watch (announcedRelayed : bool) (evs : list WatchEvent) : list WatchLog * bool :=
  match evs with
  | [] => ([], false)
  | CtxDone :: _ => ([], true)
  | Deadline conns :: _ =>
      if negb announcedRelayed then ([], true)
      else match connKindToPeer conns with
           | Direct => ([], true)
           | _ => ([TimedOut; KnownAddrs], true)
           end
  | Tick conns :: evs =>
      match connKindToPeer conns with
      | Relayed =>
          if negb announcedRelayed
          then let '(log, r) := watch true evs in (StartHolePunch :: log, r)
          else watch announcedRelayed evs
      | Direct => if announcedRelayed then ([EndHolePunch], true) else ([ConnectedDirectly], true)
      | NoConn => watch announcedRelayed evs
      end
  end.

Definition WatchForDirectUpgrade (evs : list WatchEvent) : list WatchLog * bool := watch false evs.

(** ** Keeping a reservation *)

(** Durations are [int64] nanoseconds. *)
Definition Second : Z := 1000000000.

(** [time.Until], by [Time.Sub]: a difference that does not fit a [Duration] is
    the largest or the smallest one. *)
Definition Until (now t : Z) : Z := Z.max (- 2 ^ 63) (Z.min (2 ^ 63 - 1) (t - now)).

(** The first sleep of an iteration, at time [now]; the subtraction of two
    durations wraps. *)
Definition renewal_wait (now expiration : Z) : Z :=
  let wait := i64 (Until now expiration - 30 * Second) in
  if decide (wait < 5 * Second) then 5 * Second else wait.

(** One iteration of [keepReservationAlive]: [answer] is the new expiration or
    the error, and the call takes [d] (its context ends it after 15 seconds); a
    sleep takes the time asked for.  The times at which the request starts
    and ends, the time of the next iteration and the expiration it uses. *)
Definition renewal (now expiration : Z) (answer : res Z) (d : Z) : Z * Z * Z * Z :=
  let start := now + renewal_wait now expiration in
  let stop := start + d in
  match answer with
  | Err _ => (start, stop, stop + 10 * Second, expiration)
  | Ok expiration' => (start, stop, stop, expiration')
  end.

(** The iterations for a sequence of answers: for each one, the expiration that
    was valid and the times its request started and ended. *)
Fixpoint keepReservationAlive (now expiration : Z) (answers : list (res Z * Z)) : list (Z * Z * Z) :=
  match answers with
  | [] => []
  | (answer, d) :: answers =>
      let '(start, stop, now', expiration') := renewal now expiration answer d in
      (expiration, start, stop) :: keepReservationAlive now' expiration' answers
  end.

End host.
