(* ===== verification/P2PSpec.v ===== *)
(** * P2PSpec: what the configuration of the nodes promises

    The identity is stable, the relay list is cleaned, the watch logs one of
    five sequences, and a reservation that can be renewed never lapses. *)

From S2P Require Import Prelude Effects P2P.

(** ** Trimming and splitting *)

(** No prefix of the list [ps]. *)
Definition no_prefix (ps : list bytes) (s : bytes) : Prop := forall p, p ∈ ps -> take (length p) s <> p.

Lemma strip_one_None ps s : strip_one ps s = None <-> no_prefix ps s.
Proof.
  unfold strip_one, no_prefix. induction ps as [|p ps IH]; simpl; [set_solver|].
  case_decide as Hp; simpl.
  - split; [done|]. intros Hn. exfalso. apply (Hn p); [set_solver|done].
  - rewrite IH. split; [|set_solver]. intros Hn p' [->|Hin]%elem_of_cons; auto.
Qed.

Lemma strip_one_Some ps s s' :
  strip_one ps s = Some s' -> exists p, p ∈ ps /\ s = p ++ s'.
Proof.
  unfold strip_one. induction ps as [|p ps IH]; simpl; [done|].
  case_decide as Hp; simpl.
  - intros [= <-]. exists p. split; [set_solver|]. rewrite <-Hp at 1. by rewrite take_drop.
  - intros (p' & ? & ?)%IH. exists p'. set_solver.
Qed.

(** Stripping with as much fuel as bytes strips everything, and leaves a suffix. *)
Lemma strip_done fuel ps s :
  Forall (fun p => p <> []) ps -> (length s <= fuel)%nat ->
  no_prefix ps (strip fuel ps s) /\ exists pre, s = pre ++ strip fuel ps s.
Proof.
  intros Hps. revert s. induction fuel as [|fuel IH]; intros s Hs; simpl.
  - split; [|by exists []]. destruct s; [|simpl in Hs; lia]. intros p Hp Heq.
    rewrite take_nil in Heq. rewrite Forall_forall in Hps. by apply (Hps p).
  - destruct (strip_one ps s) as [s'|] eqn:Ho.
    + apply strip_one_Some in Ho as (p & Hp & ->).
      assert (p <> []) by (rewrite Forall_forall in Hps; auto).
      rewrite length_app in Hs. destruct p as [|b p]; [done|]. simpl in Hs.
      destruct (IH s') as [Hn (pre & Hpre)]; [lia|]. split; [done|].
      exists ((b :: p) ++ pre). by rewrite <-app_assoc, <-Hpre.
    + apply strip_one_None in Ho. split; [done|]. by exists [].
Qed.

Lemma strip_id fuel ps s : no_prefix ps s -> strip fuel ps s = s.
Proof. intros Hn%strip_one_None. destruct fuel; simpl; [done|]. by rewrite Hn. Qed.

(** A prefix of bytes without a prefix of the list has none. *)
Lemma no_prefix_app ps s t : no_prefix ps (s ++ t) -> no_prefix ps s.
Proof.
  intros Hn p Hp Heq. apply (Hn p Hp). rewrite take_app_le; [done|].
  apply (f_equal length) in Heq. rewrite length_take in Heq. lia.
Qed.

(** No space at either end. *)
Definition trimmed (s : bytes) : Prop :=
  no_prefix spaces s /\ no_prefix (reverse <$> spaces) (reverse s).

Lemma TrimSpace_trimmed s : trimmed (TrimSpace s).
Proof.
  unfold TrimSpace. set (s1 := strip (length s) spaces s).
  destruct (strip_done (length s) spaces s) as [Hn _]; [by repeat constructor|lia|].
  fold s1 in Hn.
  destruct (strip_done (length s1) (reverse <$> spaces) (reverse s1)) as [Hr (pre & Hpre)];
    [by repeat constructor|by rewrite length_reverse|].
  split; [|by rewrite reverse_involutive].
  apply (f_equal reverse) in Hpre. rewrite reverse_involutive, reverse_app in Hpre.
  rewrite Hpre in Hn. by apply no_prefix_app in Hn.
Qed.

Lemma TrimSpace_id s : trimmed s -> TrimSpace s = s.
Proof. intros [Hl Hr]. unfold TrimSpace. rewrite (strip_id _ spaces), strip_id by done. apply reverse_involutive. Qed.

Lemma TrimSpace_infix s : exists pre post, s = pre ++ TrimSpace s ++ post.
Proof.
  unfold TrimSpace. set (s1 := strip (length s) spaces s).
  destruct (strip_done (length s) spaces s) as [_ (pre & Hpre)]; [by repeat constructor|lia|].
  fold s1 in Hpre.
  destruct (strip_done (length s1) (reverse <$> spaces) (reverse s1)) as [_ (post & Hpost)];
    [by repeat constructor|by rewrite length_reverse|].
  exists pre, (reverse post). rewrite <-reverse_app, <-Hpost, reverse_involutive. done.
Qed.

Lemma split_comma_free p : comma ∉ p -> split_comma p = [p].
Proof.
  induction p as [|b p IH]; [done|]. intros [Hb Hp]%not_elem_of_cons. simpl.
  rewrite decide_False by congruence. by rewrite IH.
Qed.

Lemma split_comma_cons p s : comma ∉ p -> split_comma (p ++ comma :: s) = p :: split_comma s.
Proof.
  induction p as [|b p IH]; intros Hp; [done|]. apply not_elem_of_cons in Hp as [Hb Hp]. simpl.
  rewrite decide_False by congruence. by rewrite IH.
Qed.

Lemma split_comma_parts s p : p ∈ split_comma s -> comma ∉ p.
Proof.
  revert p. induction s as [|b s IH]; intros p; simpl.
  { intros [->|Hp]%elem_of_cons; [apply not_elem_of_nil|by apply not_elem_of_nil in Hp]. }
  case_decide as Hb.
  { intros [->|Hp]%elem_of_cons; [apply not_elem_of_nil|by apply IH]. }
  destruct (split_comma s) as [|q qs].
  { intros [->|Hp]%elem_of_cons; [|by apply not_elem_of_nil in Hp].
    apply not_elem_of_cons. split; [done|apply not_elem_of_nil]. }
  intros [->|Hp]%elem_of_cons; [|apply IH; by apply elem_of_cons; right].
  apply not_elem_of_cons. split; [done|]. apply IH, elem_of_cons. by left.
Qed.

(** An entry as the code wants it: not empty, without commas, without spaces
    around it. *)
Definition clean (e : string) : Prop :=
  bytes_of_string e <> [] /\ (comma ∉ bytes_of_string e) /\ trimmed (bytes_of_string e).

Lemma bytes_of_string_app s t :
  bytes_of_string (s +:+ t) = bytes_of_string s ++ bytes_of_string t.
Proof.
  unfold bytes_of_string, String.list_byte_of_string. rewrite <-map_app. f_equal.
  induction s as [|c s IH]; simpl; [done|]. by f_equal.
Qed.

Lemma split_comma_concat l :
  l <> [] -> Forall clean l ->
  split_comma (bytes_of_string (String.concat "," l)) = bytes_of_string <$> l.
Proof.
  intros Hne Hl. induction Hl as [|e l (Hee & Hc & Ht) Hl IH]; [done|].
  destruct l as [|e' l].
  - simpl. by apply split_comma_free.
  - change (String.concat "," (e :: e' :: l)) with (e +:+ ("," +:+ String.concat "," (e' :: l))).
    rewrite !bytes_of_string_app. change (bytes_of_string ",") with [comma].
    cbn [app]. rewrite split_comma_cons by done. rewrite IH by done. done.
Qed.

(** ** Watching *)

Section spec.
Context `{Libp2p}.

Lemma watch_announced evs : (watch true evs).1 ∈ [[]; [EndHolePunch]; [TimedOut; KnownAddrs]].
Proof.
  induction evs as [|[|conns|conns] evs IH]; simpl; [set_solver|set_solver| |].
  - destruct (connKindToPeer conns); set_solver.
  - destruct (connKindToPeer conns); [done|done|set_solver].
Qed.

Lemma best_loop_Direct conns :
  best_loop conns = Direct <-> exists c, c ∈ conns /\ isRelayedAddr c = false.
Proof.
  induction conns as [|c conns IH]; simpl; [set_solver|].
  destruct (isRelayedAddr c) eqn:Hc; simpl.
  - rewrite IH. split; [set_solver|].
    intros (c' & [->|Hin]%elem_of_cons & Hf); [congruence|eauto].
  - split; [|done]. intros _. exists c. set_solver.
Qed.

Lemma best_loop_kinds conns : best_loop conns = Direct \/ best_loop conns = Relayed.
Proof. induction conns as [|c conns IH]; simpl; [by right|]. destruct (isRelayedAddr c); auto. Qed.

Lemma connKindToPeer_Direct conns :
  connKindToPeer conns = Direct <-> exists c, c ∈ conns /\ isRelayedAddr c = false.
Proof.
  rewrite <-best_loop_Direct. unfold connKindToPeer. case_decide as Hl; [|done].
  by destruct conns.
Qed.

(** ** Relays *)

(** All addresses or none: the first bad one is reported. *)
Lemma relay_loop_spec addrs infos infos' :
  relay_loop addrs infos = Ok infos' ->
  exists new, infos' = infos ++ new /\
    Forall2 (fun a info => exists m, NewMultiaddr a = Ok m /\ AddrInfoFromP2pAddr m = Ok info) addrs new.
Proof.
  revert infos. induction addrs as [|a addrs IH]; intros infos; simpl.
  - intros [= <-]. exists []. by rewrite app_nil_r.
  - destruct (NewMultiaddr a) as [m|] eqn:Hm; [|done].
    destruct (AddrInfoFromP2pAddr m) as [info|] eqn:Hi; [|done].
    intros (new & -> & Hnew)%IH. exists (info :: new). rewrite <-app_assoc.
    split; [done|]. constructor; [by exists m|done].
Qed.

Lemma prefix_app_string s t : String.prefix s (s +:+ t) = true.
Proof. induction s as [|c s IH]; simpl; [by destruct t|]. by destruct (Ascii.ascii_dec c c). Qed.

Lemma Contains_app s pat t : Contains (s +:+ (pat +:+ t)) pat = true.
Proof.
  induction s as [|c s IH].
  - change ("" +:+ (pat +:+ t)) with (pat +:+ t).
    destruct (pat +:+ t) eqn:Hpt; cbn [Contains]; by rewrite <-Hpt, prefix_app_string.
  - change (String.String c s +:+ (pat +:+ t)) with (String.String c (s +:+ (pat +:+ t))).
    cbn [Contains]. rewrite IH. apply orb_true_r.
Qed.

Lemma append_assoc_string s t u : (s +:+ t) +:+ u = s +:+ (t +:+ u).
Proof.
  induction s as [|c s IH]; [done|].
  change (String.String c ((s +:+ t) +:+ u) = String.String c (s +:+ (t +:+ u))). by rewrite IH.
Qed.

(** The address a server prints for a relay is recognised as a relayed one. *)
Lemma CircuitAddr_relayed relay self :
  ai_Addrs relay <> [] -> Contains (CircuitAddr relay self) "/p2p-circuit" = true.
Proof.
  unfold CircuitAddr. destruct (ai_Addrs relay) as [|a addrs]; [done|]. intros _.
  pose proof (Contains_app (Multiaddr_String a +:+ ("/p2p/" +:+ ID_String (ai_ID relay)))
    "/p2p-circuit" ("/p2p/" +:+ ID_String self)) as Hc.
  rewrite !append_assoc_string in Hc. exact Hc.
Qed.

(** ** Renewing *)

(** Every renewal succeeds within its 15 seconds and is granted for at least 35. *)
Fixpoint granted (now expiration : Z) (answers : list (res Z * Z)) : Prop :=
  match answers with
  | [] => True
  | (answer, d) :: answers =>
      exists expiration', answer = Ok expiration' /\ 0 <= d <= 15 * Second /\
        let stop := now + renewal_wait now expiration + d in
        stop + 35 * Second <= expiration' < 2 ^ 62 /\ granted stop expiration' answers
  end.

Lemma renewal_wait_early now expiration :
  0 <= now -> now + 35 * Second <= expiration < 2 ^ 62 ->
  now + renewal_wait now expiration = expiration - 30 * Second /\ 5 * Second <= renewal_wait now expiration.
Proof.
  intros Hn He. unfold renewal_wait, Until, Second in *. rewrite !i64_small by lia.
  case_decide; lia.
Qed.

(** ** Properties *)

(** C39: the identity is stable.  When [LoadOrCreateIdentity] returns a key and
    nothing but the absence of the key file kept it from being read, every later
    call on the files it left returns the same key and changes nothing, whatever
    key pair would be generated.  Any other error of reading replaces the
    identity: a key file that exists but cannot be read at the moment is
    overwritten by a fresh key, which is returned. *)
Theorem identity_stable `{!Libp2pKeys} gen keyPath d d' k :
  LoadOrCreateIdentity gen keyPath d = (d', Ok k) ->
  (d_readErr d keyPath = None -> forall gen', LoadOrCreateIdentity gen' keyPath d' = (d', Ok k)) /\
  (forall e, d_readErr d keyPath = Some e ->
     gen = Ok k /\ exists data, MarshalPrivateKey k = Ok data /\ d_files d' !! keyPath = Some data).
Proof.
  unfold LoadOrCreateIdentity at 1. destruct (ReadFile d keyPath) as [data|err] eqn:Hd.
  - intros [= <- Hk]. split.
    + intros _ gen'. unfold LoadOrCreateIdentity. by rewrite Hd, Hk.
    + intros e He. unfold ReadFile in Hd. by rewrite He in Hd.
  - destruct gen as [priv|]; [|done]. destruct (MarshalPrivateKey priv) as [data|] eqn:Hm; [|done].
    unfold WriteFile. destruct (d_writeErr d keyPath) as [[err' rest]|]; [done|].
    intros [= <- <-]. cbn [d_files set_d_files]. split.
    + intros Hr gen'. unfold LoadOrCreateIdentity, ReadFile. cbn [d_readErr set_d_files d_files].
      rewrite Hr, lookup_insert_eq. by rewrite (marshal_roundtrip _ _ Hm).
    + intros e _. split; [done|]. exists data. split; [done|]. apply lookup_insert_eq.
Qed.

(** The list of relays.  Every entry [splitNonEmpty] returns is clean: not
    empty, without commas, without surrounding white space; and a list of
    clean entries joined by commas is split back into the same list. *)
Lemma splitNonEmpty_spec csv l :
  Forall clean (splitNonEmpty csv) /\ (Forall clean l -> splitNonEmpty (String.concat "," l) = l).
Proof.
  split.
  - unfold splitNonEmpty. case_decide; [constructor|]. apply Forall_fmap, Forall_forall.
    intros p [Hne (q & -> & Hq)%list_elem_of_fmap]%list_elem_of_filter. unfold compose, clean.
    rewrite bytes_of_string_of_bytes. split_and!; [done| |apply TrimSpace_trimmed].
    apply split_comma_parts in Hq. destruct (TrimSpace_infix q) as (pre & post & Heq).
    rewrite Heq in Hq. by apply not_elem_of_app in Hq as [_ [? _]%not_elem_of_app].
  - intros Hl. destruct (decide (l = [])) as [->|Hne]; [done|].
    unfold splitNonEmpty. rewrite split_comma_concat by done.
    rewrite decide_False.
    2:{ intros Hempty. pose proof (split_comma_concat l Hne Hl) as Hs. rewrite Hempty in Hs.
        destruct Hl as [|e l (Hee & _) _]; [done|]. destruct l; simpl in Hs; [|done].
        injection Hs as Hs. by rewrite <-Hs in Hee. }
    clear Hne. induction Hl as [|e l (Hee & Hc & Ht) Hl IH]; [done|].
    cbn [fmap list_fmap]. rewrite TrimSpace_id by done. rewrite filter_cons_True by done.
    cbn [fmap list_fmap]. rewrite string_of_bytes_of_string. by f_equal.
Qed.

(** What the watch for a direct connection logs.  Whatever connections come
    and go, it is one of: nothing; a direct connection; a relayed connection
    alone, followed by a direct one, or followed by the timeout.  A direct
    connection is reported only for a peer with an address that is not
    relayed. *)
Lemma watch_log evs :
  (WatchForDirectUpgrade evs).1 ∈
    [[]; [ConnectedDirectly]; [StartHolePunch]; [StartHolePunch; EndHolePunch]; [StartHolePunch; TimedOut; KnownAddrs]] /\
  forall conns, connKindToPeer conns = Direct <-> exists c, c ∈ conns /\ isRelayedAddr c = false.
Proof.
  split; [|intros; apply connKindToPeer_Direct].
  unfold WatchForDirectUpgrade. induction evs as [|[|conns|conns] evs IH]; simpl; [set_solver|set_solver|set_solver|].
  destruct (connKindToPeer conns); [done| |set_solver].
  pose proof (watch_announced evs) as Ha. destruct (watch true evs) as [log r]. simpl in *.
  set_solver.
Qed.

(** A reservation does not lapse.  As long as every renewal succeeds within
    its 15 seconds and is granted for at least 35 seconds, each request starts
    30 seconds and is answered at least 15 seconds before the reservation it
    renews expires. *)
Lemma reservation_never_lapses now expiration answers :
  0 <= now -> now + 35 * Second <= expiration < 2 ^ 62 -> granted now expiration answers ->
  Forall (fun '(expiration, start, stop) =>
      start = expiration - 30 * Second /\ stop <= expiration - 15 * Second)
    (keepReservationAlive now expiration answers).
Proof.
  revert now expiration. induction answers as [|[answer d] answers IH]; intros now expiration Hn He; [constructor|].
  intros (expiration' & -> & Hd & Hg & Hrest). cbn [keepReservationAlive renewal].
  destruct (renewal_wait_early now expiration Hn He) as [Hw Hw5].
  constructor; [unfold Second in *; lia|]. apply IH; [unfold Second in *; lia|done|done].
Qed.

End spec.
