(* ===== verification/Timing.v ===== *)
(** * Timing: the watch for a direct connection and the renewals, by the clock

    The select of [WatchForDirectUpgrade] waits for its context, its deadline and
    a ticker of 300 ms.  Here the events it receives are derived from the times
    at which the three fire and from the connections that are open then.  The
    goroutine is taken to run at once when something fires, and its own work to
    take no time; when several fire together the select may take any of them. *)

From S2P Require Import Prelude Effects P2P P2PSpec.

Definition Millisecond : Z := 1000000.

(** The period of the ticker. *)
Definition period : Z := 300 * Millisecond.

(** ** A reference for what is logged *)

#[global] Instance ConnKind_eq_dec : EqDecision ConnKind.
Proof. solve_decision. Defined.

(** The lines for the kinds of connection at the ticks and at the deadline: what
    happened first, and how it ended. *)
Definition report (ticks : list ConnKind) (at_deadline : ConnKind) : list WatchLog :=
  match list_find (.= Direct) ticks with
  | Some (i, _) => if decide (Relayed ∈ take i ticks) then [StartHolePunch; EndHolePunch] else [ConnectedDirectly]
  | None =>
      if decide (Relayed ∈ ticks)
      then StartHolePunch :: (if decide (at_deadline = Direct) then [] else [TimedOut; KnownAddrs]) else []
  end.

(** The log of a watch that has announced a relayed connection, and of one that
    has not. *)
Definition report_from (announced : bool) (ticks : list ConnKind) (at_deadline : ConnKind) : list WatchLog :=
  if announced then
    match list_find (.= Direct) ticks with
    | Some _ => [EndHolePunch]
    | None => if decide (at_deadline = Direct) then [] else [TimedOut; KnownAddrs]
    end
  else report ticks at_deadline.

Lemma report_cons announced x ticks d :
  report_from announced (x :: ticks) d =
  match x with
  | Direct => [if announced then EndHolePunch else ConnectedDirectly]
  | Relayed => (if announced then [] else [StartHolePunch]) ++ report_from true ticks d
  | NoConn => report_from announced ticks d
  end.
Proof.
  unfold report_from, report. cbn [list_find]. destruct x.
  - rewrite decide_False by done. destruct announced; destruct (list_find (.= Direct) ticks) as [[i y]|]; cbn;
      repeat case_decide; set_solver.
  - rewrite decide_False by done. destruct announced; destruct (list_find (.= Direct) ticks) as [[i y]|]; cbn;
      rewrite ?decide_True by set_solver; done.
  - rewrite decide_True by done. by destruct announced.
Qed.

(** ** The events *)

Section watch.
Context `{Libp2p}.

(** [done_at] is when the context is done, if ever, and [timeout] when the deadline fires,
    both counted from the start of the goroutine; [conns t] are the connections
    open at time [t]. *)
Context (done_at : option Z) (timeout : Z) (conns : Z -> list Multiaddr).

(** The context is not done before [t]. *)
Definition not_before (t : Z) : Prop := match done_at with Some c => t <= c | None => True end.

(** What the select receives from its [k]-th tick on. *)
Inductive received_from : Z -> list WatchEvent -> Prop :=
| rf_ctx k c :
    done_at = Some c -> c <= timeout -> c <= k * period -> received_from k [CtxDone]
| rf_deadline k :
    not_before timeout -> timeout <= k * period -> received_from k [Deadline (conns timeout)]
| rf_tick k evs :
    not_before (k * period) -> k * period <= timeout -> received_from (k + 1) evs ->
    received_from k (Tick (conns (k * period)) :: evs).

Definition kind_at (t : Z) : ConnKind := connKindToPeer (conns t).

(** The kinds at [n] ticks from the [k]-th on. *)
Definition kinds_from (k : Z) (n : nat) : list ConnKind :=
  (fun i => kind_at ((k + Z.of_nat i) * period)) <$> seq 0 n.

Lemma kinds_from_S k n : kinds_from k (S n) = kind_at (k * period) :: kinds_from (k + 1) n.
Proof.
  unfold kinds_from. cbn [seq fmap list_fmap]. f_equal; [by rewrite Z.add_0_r|].
  rewrite <-seq_shift, <-list_fmap_compose. apply list_fmap_ext. intros i x _. cbn. f_equal. lia.
Qed.

(** ** What is logged *)

(** The watch without a context: it takes [n] ticks and then the deadline, unless
    a direct connection ends it before. *)
Lemma watch_no_ctx k evs announced :
  done_at = None -> received_from k evs ->
  exists n : nat, (k + Z.of_nat n - 1) * period <= Z.max timeout ((k - 1) * period) /\
    timeout <= (k + Z.of_nat n) * period /\ length evs = S n /\
    watch announced evs = (report_from announced (kinds_from k n) (kind_at timeout), true).
Proof.
  intros Hd Hr. revert announced. induction Hr as [k c Hc|k Hn Ht|k evs Hn Ht Hr IH]; intros announced.
  - congruence.
  - exists 0%nat. split_and!; [lia|lia|done|]. cbn. unfold kind_at.
    destruct announced; [|done]. by destruct (connKindToPeer _).
  - destruct (IH true) as (n & Hn1 & Hn2 & Hlen & _). exists (S n).
    split_and!; [unfold period, Millisecond in *; lia|lia|by rewrite <-Hlen|].
    rewrite kinds_from_S, report_cons. cbn [watch]. unfold kind_at at 1.
    assert (Hex : forall b, watch b evs = (report_from b (kinds_from (k + 1) n) (kind_at timeout), true)).
    { intros b. destruct (IH b) as (n' & _ & _ & Hlen' & ->). assert (n' = n) as -> by lia. done. }
    destruct (connKindToPeer (conns (k * period))); [apply Hex| |by destruct announced].
    destruct announced; cbn [negb]; [apply Hex|]. by rewrite Hex.
Qed.

(** A context that is done before the deadline hides the timeout. *)
Lemma watch_ctx_hides k evs announced c :
  done_at = Some c -> c < timeout -> received_from k evs ->
  ~ (TimedOut ∈ (watch announced evs).1) /\ (watch announced evs).2 = true.
Proof.
  intros Hd Hc Hr. revert announced. induction Hr as [k c' Hc'|k Hn Ht|k evs Hn Ht Hr IH]; intros announced; cbn.
  - set_solver.
  - unfold not_before in Hn. rewrite Hd in Hn. lia.
  - destruct (IH announced) as [H1 H2]. destruct (IH true) as [H3 H4].
    destruct (connKindToPeer _); [done| |destruct announced; set_solver].
    destruct announced; [done|]. cbn [negb]. destruct (watch true evs) as [log r]. cbn in *. set_solver.
Qed.

Lemma received_exists n k :
  done_at = None -> timeout <= (k + Z.of_nat n) * period -> exists evs, received_from k evs.
Proof.
  intros Hd. revert k. induction n as [|n IH]; intros k Ht.
  - exists [Deadline (conns timeout)]. apply rf_deadline; [unfold not_before; by rewrite Hd|lia].
  - destruct (decide (timeout <= k * period)).
    + exists [Deadline (conns timeout)]. by apply rf_deadline; [unfold not_before; rewrite Hd|].
    + destruct (IH (k + 1)) as [evs Hr]; [lia|]. eexists. apply rf_tick; [by unfold not_before; rewrite Hd|lia|exact Hr].
Qed.

(** A context that is done together with the deadline: either may end the watch. *)
Lemma received_tie n k last :
  done_at = Some timeout -> last ∈ [CtxDone; Deadline (conns timeout)] -> timeout <= (k + Z.of_nat n) * period ->
  exists m, received_from k (((fun i => Tick (conns ((k + Z.of_nat i) * period))) <$> seq 0 m) ++ [last]) /\
    (k * period < timeout -> m <> 0%nat).
Proof.
  intros Hd Hl. revert k. induction n as [|n IH]; intros k Ht.
  1: assert (Hk : timeout <= k * period) by lia.
  2: destruct (decide (timeout <= k * period)) as [Hk|Hk].
  1,2: exists 0%nat; (split; [|lia]);
    apply elem_of_cons in Hl as [->| ->%list_elem_of_singleton];
    [by apply (rf_ctx _ timeout)|by apply rf_deadline; [unfold not_before; rewrite Hd|]].
  destruct (IH (k + 1)) as (m & Hm & _); [lia|]. exists (S m). split; [|done].
  cbn [seq fmap list_fmap app]. rewrite Z.add_0_r. apply rf_tick; [unfold not_before; rewrite Hd; lia|lia|].
  rewrite <-seq_shift, <-list_fmap_compose. erewrite list_fmap_ext; [exact Hm|].
  intros i x _. cbn. do 2 f_equal. lia.
Qed.

(** The lines at the end of a watch whose peer was relayed all the time. *)
Definition last_lines (last : WatchEvent) : list WatchLog := match last with CtxDone => [] | _ => [TimedOut; KnownAddrs] end.

Lemma watch_relayed_on m (ts : nat -> Z) last :
  (forall t, kind_at t = Relayed) -> last = CtxDone \/ last = Deadline (conns timeout) ->
  (watch true (((fun i => Tick (conns (ts i))) <$> seq 0 m) ++ [last])).1 = last_lines last.
Proof.
  unfold kind_at. intros Hr Hl. revert ts. induction m as [|m IH]; intros ts.
  - destruct Hl as [->| ->]; cbn; [done|]. by rewrite Hr.
  - cbn [seq fmap list_fmap app watch]. rewrite Hr, <-seq_shift, <-list_fmap_compose. apply (IH (fun i => ts (S i))).
Qed.

Lemma watch_relayed m (ts : nat -> Z) last :
  (forall t, kind_at t = Relayed) -> last = CtxDone \/ last = Deadline (conns timeout) -> m <> 0%nat ->
  (watch false (((fun i => Tick (conns (ts i))) <$> seq 0 m) ++ [last])).1 = StartHolePunch :: last_lines last.
Proof.
  intros Hr Hl Hm. destruct m as [|m]; [done|]. cbn [seq fmap list_fmap app watch].
  pose proof (watch_relayed_on m (fun i => ts (S i)) last Hr Hl) as Hw. unfold kind_at in Hr.
  rewrite Hr, <-seq_shift, <-list_fmap_compose. unfold compose. destruct (watch true _) as [log r]. cbn in *. by subst.
Qed.

End watch.

Lemma renewal_wait_bounds now expiration :
  0 <= now -> 0 <= expiration < 2 ^ 62 -> now < 2 ^ 62 ->
  5 * Second <= renewal_wait now expiration /\ expiration - 30 * Second <= now + renewal_wait now expiration.
Proof.
  intros Hn He Hu. unfold renewal_wait, Until, Second. rewrite !i64_small by lia. case_decide; lia.
Qed.

Section properties.
Context `{Libp2p}.

(** C37: the server's watch, which has no context that ends.  Something always
    ends it at its timeout at the latest, after at most one tick per 300 ms; and
    what it has logged then is the report on the kinds of connection at those
    ticks and at the timeout: the first direct connection, after a relayed one or
    not, or a relayed connection that stayed so. *)
Theorem watch_report timeout (conns : Z -> list Multiaddr) :
  0 <= timeout ->
  (exists evs, received_from None timeout conns 1 evs) /\
  forall evs, received_from None timeout conns 1 evs ->
    exists n : nat, Z.of_nat n * period <= timeout <= (Z.of_nat n + 1) * period /\ length evs = S n /\
      WatchForDirectUpgrade evs = (report (kinds_from conns 1 n) (kind_at conns timeout), true).
Proof.
  intros Ht. split.
  - apply (received_exists None timeout conns (Z.to_nat timeout)); [done|]. unfold period, Millisecond. lia.
  - intros evs Hr. destruct (watch_no_ctx None timeout conns 1 evs false eq_refl Hr) as (n & H1 & H2 & Hl & Hw).
    exists n. split_and!; [lia|lia|done|exact Hw].
Qed.

(** The client's watch, whose context ends with its timeout.  When the context
    is done before the deadline, a peer that stays relayed is never reported as
    timed out; and when both end at the same time, it may be reported or not. *)
Lemma client_watch_silent timeout (conns : Z -> list Multiaddr) :
  period < timeout ->
  (forall c evs, c < timeout -> received_from (Some c) timeout conns 1 evs ->
     ~ (TimedOut ∈ (WatchForDirectUpgrade evs).1)) /\
  ((forall t, kind_at conns t = Relayed) ->
   exists evs evs', received_from (Some timeout) timeout conns 1 evs /\
     received_from (Some timeout) timeout conns 1 evs' /\
     (WatchForDirectUpgrade evs).1 = [StartHolePunch; TimedOut; KnownAddrs] /\ (WatchForDirectUpgrade evs').1 = [StartHolePunch]).
Proof.
  intros Ht. split.
  - intros c evs Hc Hr. by apply (watch_ctx_hides (Some c) timeout conns 1 evs false c).
  - intros Hr. assert (Hfar : timeout <= (1 + Z.of_nat (Z.to_nat timeout)) * period) by (unfold period, Millisecond in *; lia).
    assert (Hend : forall last, last = CtxDone \/ last = Deadline (conns timeout) -> exists evs,
      received_from (Some timeout) timeout conns 1 evs /\
      (WatchForDirectUpgrade evs).1 = StartHolePunch :: last_lines last).
    { intros last Hl. destruct (received_tie (Some timeout) timeout conns (Z.to_nat timeout) 1 last eq_refl) with (2 := Hfar) as (m & Hm & Hm0);
        [set_solver|]. eexists. split; [exact Hm|]. apply (watch_relayed timeout); [done|done|]. apply Hm0. lia. }
    destruct (Hend (Deadline (conns timeout))) as (evs & H1 & H2); [by right|].
    destruct (Hend CtxDone) as (evs' & H3 & H4); [by left|]. exists evs, evs'. done.
Qed.

(** A renewal that fails is tried again.  While the clock is below 2^62 ns and
    every call ends within its 15 seconds, no request starts earlier than 30
    seconds before the reservation expires, and the one after a failed request is
    for the same reservation and starts 15 seconds after the failure. *)
Lemma failed_renewal_retried now expiration (answers : list (res Z * Z)) :
  0 <= now -> 0 <= expiration < 2 ^ 62 ->
  Forall (fun '(answer, d) => 0 <= d <= 15 * Second /\ forall e, answer = Ok e -> 0 <= e < 2 ^ 62) answers ->
  Forall (fun '(_, _, stop) => stop < 2 ^ 62) (keepReservationAlive now expiration answers) ->
  Forall (fun '(e, start, _) => e - 30 * Second <= start) (keepReservationAlive now expiration answers) /\
  forall i e start stop err d e' start' stop',
    keepReservationAlive now expiration answers !! i = Some (e, start, stop) ->
    answers !! i = Some (Err err, d) ->
    keepReservationAlive now expiration answers !! S i = Some (e', start', stop') ->
    e' = e /\ start' = stop + 15 * Second.
Proof.
  revert now expiration. induction answers as [|[answer d] answers IH]; intros now expiration Hn He; [done|].
  intros [[Hd Ha] Has]%Forall_cons. cbn [keepReservationAlive].
  destruct (renewal now expiration answer d) as [[[start stop] now'] expiration'] eqn:Hr.
  intros [Hstop Hstops]%Forall_cons.
  assert (Hs : expiration - 30 * Second <= start /\ 0 <= start /\ stop = start + d).
  { unfold renewal in Hr. assert (start = now + renewal_wait now expiration /\ stop = start + d) as [-> ->]
      by (destruct answer; by simplify_eq).
    assert (5 * Second <= renewal_wait now expiration) by (unfold renewal_wait; case_decide; lia).
    pose proof (renewal_wait_bounds now expiration Hn He). unfold Second in *. lia. }
  assert (Hnext : 0 <= now' /\ 0 <= expiration' < 2 ^ 62 /\
    (forall err, answer = Err err -> expiration' = expiration /\ now' = stop + 10 * Second)).
  { unfold renewal in Hr. destruct answer as [e|err]; simplify_eq.
    - split_and!; [unfold Second in *; lia|by apply (Ha _ eq_refl)|by apply (Ha _ eq_refl)|done].
    - split_and!; [unfold Second in *; lia|lia|lia|done]. }
  destruct Hnext as (Hn' & He' & Herr).
  destruct (IH now' expiration' Hn' He' Has Hstops) as [IH1 IH2]. split; [constructor; [lia|done]|].
  intros [|i] e s st err d' e' s' st'; cbn [lookup list_lookup]; [|by apply IH2].
  intros [= <- <- <-] [= -> <-] Hnx. destruct (Herr err eq_refl) as [-> ->].
  destruct answers as [|[answer' d2] answers]; [done|]. cbn [keepReservationAlive] in Hnx.
  destruct (renewal _ expiration answer' d2) as [[[s2 st2] n2] e2] eqn:Hr2. cbn in Hnx. injection Hnx as <- <- <-.
  assert (s2 = stop + 10 * Second + renewal_wait (stop + 10 * Second) expiration) as ->
    by (unfold renewal in Hr2; destruct answer'; by simplify_eq).
  cbn [keepReservationAlive] in Hstops. rewrite Hr2 in Hstops.
  split; [done|]. unfold renewal_wait, Until, Second in *. rewrite !i64_small by lia.
  rewrite decide_True by lia. lia.
Qed.

(** C38: the renewals of a reservation.  As long as every renewal succeeds within
    its 15 seconds and is granted for at least 35 seconds, each request starts 30
    seconds and is answered at least 15 seconds before the reservation it renews
    expires: the reservation never lapses.  And while the clock is below 2^62 ns,
    whichever renewals fail, no request starts earlier than 30 seconds before
    the reservation expires, and the one after a failed request is for the same
    reservation and starts 15 seconds after the failure. *)
Theorem reservation_renewals now expiration (answers : list (res Z * Z)) :
  0 <= now -> now + 35 * Second <= expiration < 2 ^ 62 ->
  (granted now expiration answers ->
   Forall (fun '(expiration, start, stop) =>
      start = expiration - 30 * Second /\ stop <= expiration - 15 * Second)
    (keepReservationAlive now expiration answers)) /\
  (Forall (fun '(answer, d) => 0 <= d <= 15 * Second /\ forall e, answer = Ok e -> 0 <= e < 2 ^ 62) answers ->
   Forall (fun '(_, _, stop) => stop < 2 ^ 62) (keepReservationAlive now expiration answers) ->
   Forall (fun '(e, start, _) => e - 30 * Second <= start) (keepReservationAlive now expiration answers) /\
   forall i e start stop err d e' start' stop',
     keepReservationAlive now expiration answers !! i = Some (e, start, stop) ->
     answers !! i = Some (Err err, d) ->
     keepReservationAlive now expiration answers !! S i = Some (e', start', stop') ->
     e' = e /\ start' = stop + 15 * Second).
Proof.
  intros Hn He. split; [by apply reservation_never_lapses|].
  apply failed_renewal_retried; [done|unfold Second in *; lia].
Qed.

End properties.
