(* ===== verification/Relay.v ===== *)
(** * Relay: the identity and the options of the relay

    [loadIdentity] and the configuration in [main] of relay/main.go, with the
    base64 encoding of the Go standard library. *)

From S2P Require Import Prelude Effects P2P.

(** ** encoding/base64: StdEncoding *)

Definition alphabet : bytes :=
  bytes_of_string "ABCDEFGHIJKLMNOPQRSTUVWXYZabcdefghijklmnopqrstuvwxyz0123456789+/".

Definition padChar : byte := Byte.x3d.

Definition enc6 (v : Z) : byte := nth (Z.to_nat (Z.land v 63)) alphabet Byte.x00.

(** The value of a character of the alphabet. *)
Definition decodeMap (c : byte) : option Z :=
  fst <$> head (filter (fun '(_, c') => c' = c) (zip (Z.of_nat <$> seq 0 64) alphabet)).

Fixpoint EncodeToString (src : bytes) : bytes :=
  match src with
  | x :: y :: z :: rest =>
      let val := Z.lor (b2z z) (Z.shiftl (Z.lor (b2z y) (Z.shiftl (b2z x) 8)) 8) in
      [enc6 (Z.shiftr val 18); enc6 (Z.shiftr val 12); enc6 (Z.shiftr val 6); enc6 val]
      ++ EncodeToString rest
  | [x; y] =>
      let val := Z.lor (Z.shiftl (b2z y) 8) (Z.shiftl (b2z x) 16) in
      [enc6 (Z.shiftr val 18); enc6 (Z.shiftr val 12); enc6 (Z.shiftr val 6); padChar]
  | [x] =>
      let val := Z.shiftl (b2z x) 16 in
      [enc6 (Z.shiftr val 18); enc6 (Z.shiftr val 12); padChar; padChar]
  | [] => []
  end.

Definition CorruptInputError (off : Z) : error :=
  Errorf "illegal base64 data at input byte %d" [AUint off].

Definition is_newline (c : byte) : bool := bool_decide (c = Byte.x0a \/ c = Byte.x0d).

Fixpoint skip_newlines (src : bytes) (si : Z) : bytes * Z :=
  match src with
  | c :: rest => if is_newline c then skip_newlines rest (si + 1) else (src, si)
  | [] => ([], si)
  end.

(** The bytes of a quantum of [dlen] characters. *)
Definition quantum (dbuf : list Z) : bytes :=
  let d i := nth i dbuf 0 in
  let val := Z.lor (d 3%nat) (Z.shiftl (Z.lor (d 2%nat) (Z.shiftl
               (Z.lor (d 1%nat) (Z.shiftl (d 0%nat) 6)) 6)) 6) in
  take (length dbuf - 1) [z2b (Z.shiftr val 16); z2b (Z.shiftr val 8); z2b val].

(** The end of the input after padding: nothing but newlines may follow. *)
Definition finish (rest : bytes) (si : Z) (dbuf : list Z) (out : bytes) : bytes * option error :=
  let '(rest, si) := skip_newlines rest si in
  (out ++ quantum dbuf, match rest with [] => None | _ => Some (CorruptInputError si) end).

(** [DecodeString], one character at a time: [si] is the position, [dbuf] the
    characters of the current quantum. *)
Fixpoint decode_loop (src : bytes) (si : Z) (dbuf : list Z) (out : bytes) : bytes * option error :=
  match src with
  | [] => (out, match dbuf with [] => None | _ => Some (CorruptInputError (si - len dbuf)) end)
  | c :: rest =>
      match decodeMap c with
      | Some v =>
          let dbuf := dbuf ++ [v] in
          if decide (length dbuf = 4%nat)
          then decode_loop rest (si + 1) [] (out ++ quantum dbuf)
          else decode_loop rest (si + 1) dbuf out
      | None =>
          if is_newline c then decode_loop rest (si + 1) dbuf out
          else if negb (bool_decide (c = padChar)) then (out, Some (CorruptInputError si))
          else
            match length dbuf with
            | 0%nat | 1%nat => (out, Some (CorruptInputError si))
            | 2%nat =>
                match skip_newlines rest (si + 1) with
                | ([], si) => (out, Some (CorruptInputError si))
                | (c :: rest, si) =>
                    if negb (bool_decide (c = padChar)) then (out, Some (CorruptInputError (si - 1)))
                    else finish rest (si + 1) dbuf out
                end
            | _ => finish rest (si + 1) dbuf out
            end
      end
  end.

Definition DecodeString (s : string) : res bytes :=
  match decode_loop (bytes_of_string s) 0 [] [] with
  | (out, None) => Ok out
  | (_, Some err) => Err err
  end.

(** ** relay/main.go *)

Section relay.
Context `{Libp2p}.

(** [os.Getenv] of an unset variable is empty. *)
Definition Getenv (env : gmap string string) (name : string) : string := default ""%string (env !! name).

(** The disk, the key or the error, and the base64 line that is printed. *)
Definition loadIdentity (env : gmap string string) (gen : res PrivKey) (keyPath : string) (d : Disk)
    : Disk * res PrivKey * option string :=
  let b64 := Getenv env "RELAY_PRIVKEY_B64" in
  if negb (bool_decide (b64 = ""%string)) then
    match DecodeString b64 with
    | Err err => (d, Err (wrap "bad RELAY_PRIVKEY_B64: %w" err), None)
    | Ok data => (d, UnmarshalPrivateKey data, None)
    end
  else
    match LoadOrCreateIdentity gen keyPath d with
    | (d, Err err) => (d, Err err, None)
    | (d, Ok priv) =>
        match MarshalPrivateKey priv with
        | Err err => (d, Err err, None)
        | Ok data => (d, Ok priv, Some (string_of_bytes (EncodeToString data)))
        end
    end.

(** The address the relay listens on. *)
Definition relayListenAddr (env : gmap string string) : string :=
  let port := Getenv env "PORT" in
  let port := if bool_decide (port = ""%string) then "4001"%string else port in
  "/ip4/0.0.0.0/tcp/" +:+ port +:+ "/ws".

End relay.

(** ** The base64 round trip *)

Lemma decodeMap_enc6 v : decodeMap (enc6 v) = Some (v mod 64).
Proof.
  assert (Hall : forallb (fun v => bool_decide (decodeMap (nth v alphabet Byte.x00) = Some (Z.of_nat v)))
    (seq 0 64) = true) by (vm_compute; reflexivity).
  unfold enc6. change 63 with (Z.ones 6). rewrite Z.land_ones by lia. change (2 ^ 6) with 64.
  pose proof (Z.mod_pos_bound v 64 ltac:(lia)) as Hv.
  rewrite forallb_forall in Hall. specialize (Hall (Z.to_nat (v mod 64))).
  rewrite bool_decide_eq_true in Hall. rewrite Hall; [f_equal; lia|]. apply in_seq. lia.
Qed.

Lemma decode_step src si dbuf out v :
  decode_loop (enc6 v :: src) si dbuf out =
  if decide (length dbuf = 3%nat) then decode_loop src (si + 1) [] (out ++ quantum (dbuf ++ [v mod 64]))
  else decode_loop src (si + 1) (dbuf ++ [v mod 64]) out.
Proof.
  cbn [decode_loop]. rewrite decodeMap_enc6, length_app. cbn [length].
  destruct (decide (length dbuf = 3%nat)) as [->|Hn]; [done|]. by rewrite decide_False by lia.
Qed.

(** Three bytes as four values of six bits, and back. *)
Lemma quantum_value a b c d :
  0 <= a < 64 -> 0 <= b < 64 -> 0 <= c < 64 -> 0 <= d < 64 ->
  Z.lor d (Z.shiftl (Z.lor c (Z.shiftl (Z.lor b (Z.shiftl a 6)) 6)) 6)
  = d + (c + (b + a * 2 ^ 6) * 2 ^ 6) * 2 ^ 6.
Proof. intros. rewrite !lor_shiftl_add by lia. done. Qed.

Lemma z2b_eq (z : Z) (x : byte) : z mod 256 = b2z x -> z2b z = x.
Proof. intros Hz. apply b2z_inj. by rewrite b2z_z2b. Qed.

(** The four values of a number of 24 bits. *)
Lemma quantum_split val :
  0 <= val < 2 ^ 24 ->
  quantum [Z.shiftr val 18 mod 64; Z.shiftr val 12 mod 64; Z.shiftr val 6 mod 64; val mod 64]
  = [z2b (Z.shiftr val 16); z2b (Z.shiftr val 8); z2b val].
Proof.
  intros Hv. unfold quantum. cbn [nth length Nat.sub take].
  rewrite quantum_value by (apply Z.mod_pos_bound; lia).
  rewrite !(Z.shiftr_div_pow2 val) by lia.
  assert (Heq : val mod 64 + ((val / 2 ^ 6) mod 64 + ((val / 2 ^ 12) mod 64
    + (val / 2 ^ 18) mod 64 * 2 ^ 6) * 2 ^ 6) * 2 ^ 6 = val).
  { Z.div_mod_to_equations. lia. }
  by rewrite Heq, !Z.shiftr_div_pow2 by lia.
Qed.

Lemma quantum_bytes x y z :
  let val := b2z z + (b2z y + b2z x * 256) * 256 in
  0 <= val < 2 ^ 24 /\ [z2b (Z.shiftr val 16); z2b (Z.shiftr val 8); z2b val] = [x; y; z].
Proof.
  cbn zeta. pose proof (b2z_range x); pose proof (b2z_range y); pose proof (b2z_range z).
  split; [lia|]. rewrite !Z.shiftr_div_pow2 by lia.
  rewrite (z2b_eq _ x), (z2b_eq _ y), (z2b_eq _ z); [done|Z.div_mod_to_equations; lia..].
Qed.

Lemma list_ind3 {A} (P : list A -> Prop) :
  P [] -> (forall x, P [x]) -> (forall x y, P [x; y]) ->
  (forall x y z l, P l -> P (x :: y :: z :: l)) -> forall l, P l.
Proof.
  intros H0 H1 H2 H3.
  enough (forall l, P l /\ (forall x, P (x :: l)) /\ forall x y, P (x :: y :: l)) by naive_solver.
  induction l as [|x l (IH1 & IH2 & IH3)]; eauto 10.
Qed.

(** What a shorter last quantum decodes to. *)
Lemma quantum_last1 x :
  quantum [Z.shiftr (Z.shiftl (b2z x) 16) 18 mod 64; Z.shiftr (Z.shiftl (b2z x) 16) 12 mod 64] = [x].
Proof.
  destruct (quantum_bytes x Byte.x00 Byte.x00) as [Hv Hq]. cbn zeta in *.
  change (b2z Byte.x00) with 0 in *. rewrite Z.shiftl_mul_pow2 by lia.
  replace (0 + (0 + b2z x * 256) * 256) with (b2z x * 2 ^ 16) in * by lia.
  set (val := b2z x * 2 ^ 16) in *.
  transitivity (take 1 (quantum [Z.shiftr val 18 mod 64; Z.shiftr val 12 mod 64;
    Z.shiftr val 6 mod 64; val mod 64])).
  - assert (Z.shiftr val 6 mod 64 = 0 /\ val mod 64 = 0) as [-> ->]; [|done].
    rewrite Z.shiftr_div_pow2 by lia. subst val. Z.div_mod_to_equations. lia.
  - by rewrite quantum_split, Hq.
Qed.

Lemma quantum_last2 x y :
  let val := Z.lor (Z.shiftl (b2z y) 8) (Z.shiftl (b2z x) 16) in
  quantum [Z.shiftr val 18 mod 64; Z.shiftr val 12 mod 64; Z.shiftr val 6 mod 64] = [x; y].
Proof.
  cbn zeta. destruct (quantum_bytes x y Byte.x00) as [Hv Hq]. cbn zeta in *.
  change (b2z Byte.x00) with 0 in *. pose proof (b2z_range y).
  rewrite Z.shiftl_mul_pow2, lor_shiftl_add by lia.
  replace (0 + (b2z y + b2z x * 256) * 256) with (b2z y * 2 ^ 8 + b2z x * 2 ^ 16) in * by lia.
  set (val := b2z y * 2 ^ 8 + b2z x * 2 ^ 16) in *.
  transitivity (take 2 (quantum [Z.shiftr val 18 mod 64; Z.shiftr val 12 mod 64;
    Z.shiftr val 6 mod 64; val mod 64])).
  - assert (val mod 64 = 0) as ->; [|done]. subst val. Z.div_mod_to_equations. lia.
  - by rewrite quantum_split, Hq.
Qed.

Lemma quantum_full x y z :
  let val := Z.lor (b2z z) (Z.shiftl (Z.lor (b2z y) (Z.shiftl (b2z x) 8)) 8) in
  quantum [Z.shiftr val 18 mod 64; Z.shiftr val 12 mod 64; Z.shiftr val 6 mod 64; val mod 64] = [x; y; z].
Proof.
  cbn zeta. pose proof (b2z_range y); pose proof (b2z_range z).
  rewrite !lor_shiftl_add by lia. change (2 ^ 8) with 256.
  destruct (quantum_bytes x y z) as [Hv Hq].
  by rewrite quantum_split, Hq.
Qed.

(** Padding at the end. *)
Lemma decode_pad2 si a b out : decode_loop [padChar; padChar] si [a; b] out = (out ++ quantum [a; b], None).
Proof. reflexivity. Qed.

Lemma decode_pad1 si a b c out : decode_loop [padChar] si [a; b; c] out = (out ++ quantum [a; b; c], None).
Proof. reflexivity. Qed.

Lemma decode_encode b : forall si out, decode_loop (EncodeToString b) si [] out = (out ++ b, None).
Proof.
  induction b as [|x|x y|x y z b IH] using list_ind3; intros si out; cbn [EncodeToString].
  - simpl. by rewrite app_nil_r.
  - rewrite !decode_step. rewrite !decide_False by (simpl; lia). cbn [app].
    by rewrite decode_pad2, quantum_last1.
  - cbv zeta. rewrite !decode_step. rewrite !decide_False by (simpl; lia). cbn [app].
    by rewrite decode_pad1, quantum_last2.
  - cbv zeta. cbn [app]. rewrite !decode_step.
    rewrite !decide_False, decide_True by (simpl; lia). cbn [app].
    by rewrite quantum_full, IH, <-app_assoc.
Qed.

(** ** Properties *)

(** The relay's identity can be moved to the environment.  The line
    [loadIdentity] prints, set as RELAY_PRIVKEY_B64, gives the same key on any
    later start, whatever is on the disk then, and the disk is not touched. *)
Lemma loadIdentity_portable `{Libp2pKeys} env env' gen gen' keyPath d d' d2 k line :
  loadIdentity env gen keyPath d = (d', Ok k, Some line) ->
  line <> ""%string -> env' !! "RELAY_PRIVKEY_B64"%string = Some line ->
  loadIdentity env' gen' keyPath d2 = (d2, Ok k, None).
Proof.
  unfold loadIdentity at 1. destruct (negb _); [by destruct (DecodeString _)|].
  destruct (LoadOrCreateIdentity gen keyPath d) as [d1 [priv|err]]; [|done].
  destruct (MarshalPrivateKey priv) as [data|] eqn:Hm; [|done].
  intros [= -> -> <-] Hl He. unfold loadIdentity.
  assert (Getenv env' "RELAY_PRIVKEY_B64" = string_of_bytes (EncodeToString data)) as ->
    by (unfold Getenv; by rewrite He).
  rewrite bool_decide_false by done. cbn [negb]. unfold DecodeString.
  rewrite bytes_of_string_of_bytes, decode_encode. cbn [app].
  by rewrite (marshal_roundtrip _ _ Hm).
Qed.
