(* ===== verification/Mains.v ===== *)
(** * Mains: the three programs

    [main] of Server/server.go, Client/client.go and relay/main.go, and [NewHost]
    of P2P/host.go, which both nodes call.  A main is a function of what the
    libraries and the operating system answer ([Answers]) and of the process
    (environment, key files, clock); it yields the actions it performs, in
    order, and how it ends.  Every action takes some time; a call gets the
    deadline of its context. *)

From S2P Require Import Prelude Effects AesGcm Protocol Utils Wire Controllers Flow SenderSpec ReceiverSpec.
From S2P Require Import Network Honest EndToEnd Nodes P2P P2PSpec Relay.

(** ** strings.ToUpper *)

Definition upper_byte (b : byte) : byte :=
  if decide (97 <= b2z b <= 122) then z2b (b2z b - 32) else b.

(** Two runes outside ASCII have an upper case in ASCII: the long s and the
    dotless i.  All others stay outside ASCII and are kept as they are here: a
    string with one of them is none of the methods the client compares with. *)
Fixpoint to_upper (s : bytes) : bytes :=
  match s with
  | Byte.xc5 :: Byte.xbf :: s => Byte.x53 :: to_upper s
  | Byte.xc4 :: Byte.xb1 :: s => Byte.x49 :: to_upper s
  | b :: s => upper_byte b :: to_upper s
  | [] => []
  end.

Definition ToUpper (s : string) : string := string_of_bytes (to_upper (bytes_of_string s)).

(** The characters of the printed lines that a string literal cannot hold. *)
Definition newline : string := string_of_bytes [Byte.x0a].
Definition quote : string := string_of_bytes [Byte.x22].

(** The deadline of a context: [None] for [context.Background()]. *)
Abbreviation Ctx := (option Z).

Section mains.
Context `{Libp2p} `{LegacyKeccak256}.

(** ** What a main does *)

Inductive Action : Type :=
| Println (line : string)                          (* fmt.Println and fmt.Printf *)
| Sleep (d : Z)
| New (opts : list Option)                         (* libp2p.New *)
| GoLogIdentifyEvents (h : Host)
| Connect (h : Host) (info : AddrInfo)
| Reserve (h : Host) (relay : AddrInfo)            (* circuit.Reserve *)
| RelayUnreachable (relay : AddrInfo) (err : error)  (* could not connect to relay *)
| RelayRefused (relay : AddrInfo) (err : error)    (* could not reserve slot on relay *)
| RelayReserved (relay : AddrInfo) (expiration : Z)  (* reserved a slot on relay *)
| GoKeepReservationAlive (relay : AddrInfo) (expiration : Z)
| SetStreamHandler (h : Host) (proto : string) (handler : prog unit)
| Notify (h : Host)                                (* h.Network().Notify(&connLogger{h: h}) *)
| GoWatchForDirectUpgrade (h : Host) (p : PeerID) (timeout : Z)
| NewStream (h : Host) (p : PeerID) (proto : string)
| Transfer (p : prog unit)                         (* on the stream opened last *)
| HostClose (h : Host).

(** What the calls answer.  A call that takes a context is answered for it and
    for the time at which the call ends. *)
Record Answers := {
  an_gen : res PrivKey;                            (* crypto.GenerateKeyPair *)
  an_new : list Option -> res Host;
  an_ID : Host -> PeerID;
  an_Addrs : Host -> list Multiaddr;
  an_connect : Ctx -> Z -> nat -> option error;    (* h.Connect to the relay at a position *)
  an_reserve : Ctx -> Z -> nat -> res Z;           (* circuit.Reserve on it: the expiration *)
  an_dial : Ctx -> Z -> AddrInfo -> option error;  (* h.Connect to the server *)
  an_stream : Ctx -> Z -> PeerID -> string -> option error;    (* h.NewStream *)
  an_op : forall o : op, list event -> ans o;      (* an operation of the transfer, after a history *)
  an_signal : option string                        (* the signal that arrives, if any *)
}.

(** What package context is for: a call does not succeed after the deadline of
    its context. *)
Record respects_deadlines (an : Answers) : Prop := {
  rd_connect c t i : c < t -> an_connect an (Some c) t i <> None;
  rd_reserve c t i e : c < t -> an_reserve an (Some c) t i <> Ok e;
  rd_dial c t info : c < t -> an_dial an (Some c) t info <> None;
  rd_stream c t p proto : c < t -> an_stream an (Some c) t p proto <> None
}.

(** A transfer run with these answers: how it ends and what it has performed. *)
Definition transfer_run (an : Answers) (p : prog unit) : outcome unit * list event :=
  (run (fun o tr => (an_op an o tr, tr ++ [event_of o (an_op an o tr)])) p []).1.

(** Its operations were answered as the Go documentation promises. *)
Definition transfer_wf (an : Answers) (p : prog unit) : Prop := Forall wf_event (transfer_run an p).2.

Lemma transfer_run_exec an p : transfer_wf an p -> exec p (transfer_run an p).2 (transfer_run an p).1.
Proof. apply run_exec_wf. Qed.

(** How a main ends: it returns, calls [os.Exit] or [log.Fatal], panics, or still
    waits for a signal. *)
Inductive Ended : Type :=
| Exited (code : Z)
| FatalError (msg : string) (err : option error)
| Panicked (why : string)
| Waiting.

Record Process := mkProcess {
  pr_env : gmap string string;
  pr_disk : Disk;
  pr_acts : list Action;
  pr_clock : Z;
  pr_pace : nat -> Z      (* how long each action takes *)
}.

(** The time an action takes: a sleep at least what it asks for. *)
Definition duration (a : Action) (d : Z) : Z :=
  match a with Sleep s => Z.max 0 (Z.max s d) | _ => Z.max 0 d end.

Definition add_act (s : Process) (a : Action) : Process :=
  mkProcess (pr_env s) (pr_disk s) (pr_acts s ++ [a])
    (pr_clock s + duration a (pr_pace s (length (pr_acts s)))) (pr_pace s).

(** A computation of a main: the process it leaves, and its value or the way
    the process ended. *)
Definition M (A : Type) : Type := Process -> Process * (A + Ended).

#[global] Instance M_ret : MRet M := fun A a s => (s, inl a).
#[global] Instance M_bind : MBind M := fun A B f p s =>
  match p s with
  | (s, inl a) => f a s
  | (s, inr e) => (s, inr e)
  end.

Definition act (a : Action) : M unit := fun s => (add_act s a, inl tt).

Definition now : M Z := fun s => (s, inl (pr_clock s)).

Definition stop {A} (e : Ended) : M A := fun s => (s, inr e).

(** [if err != nil { log.Fatal(msg, err) }]. *)
Definition or_fatal {A} (msg : string) (r : res A) : M A :=
  match r with Ok a => mret a | Err err => stop (FatalError msg (Some err)) end.

Definition ok_or_fatal (msg : string) (e : option error) : M unit :=
  match e with None => mret tt | Some err => stop (FatalError msg (Some err)) end.

Definition getenv (name : string) : M string := fun s => (s, inl (Getenv (pr_env s) name)).

(** [defer d()]: not on [os.Exit] and [log.Fatal]. *)
Definition deferring (d : Action) (p : M unit) : M unit := fun s =>
  match p s with
  | (s, inl tt) => act d s
  | (s, inr (Panicked why)) => ((act d s).1, inr (Panicked why))
  | (s, inr e) => (s, inr e)
  end.

Fixpoint each {A} (f : A -> M unit) (l : list A) : M unit :=
  match l with [] => mret tt | a :: l => f a ≫= fun _ => each f l end.

(** ** The parts the mains share *)

Section answers.
Context (an : Answers) (fuel : nat).

(** [p2p.LoadOrCreateIdentity] on the disk of the process. *)
Definition load_identity (keyPath : string) : M (res PrivKey) := fun s =>
  let '(d, r) := LoadOrCreateIdentity (an_gen an) keyPath (pr_disk s) in
  (mkProcess (pr_env s) d (pr_acts s) (pr_clock s) (pr_pace s), inl r).

(** ** NewHost of P2P/host.go *)

(** The loop over the relays, from the one at position [i] on. *)
Fixpoint reserve_loop (ctx : Ctx) (h : Host) (i : nat) (staticRelays : list AddrInfo) : M unit :=
  match staticRelays with
  | [] => mret tt
  | relay :: rest =>
      act (Connect h relay) ≫= fun _ =>
      now ≫= fun t =>
      match an_connect an ctx t i with
      | Some err => act (RelayUnreachable relay err) ≫= fun _ => reserve_loop ctx h (S i) rest
      | None =>
          act (Reserve h relay) ≫= fun _ =>
          now ≫= fun t =>
          match an_reserve an ctx t i with
          | Err err => act (RelayRefused relay err) ≫= fun _ => reserve_loop ctx h (S i) rest
          | Ok expiration =>
              act (RelayReserved relay expiration) ≫= fun _ =>
              act (GoKeepReservationAlive relay expiration) ≫= fun _ =>
              reserve_loop ctx h (S i) rest
          end
      end
  end.

(** [LogIdentifyEvents(h)] starts its goroutine. *)
Definition NewHost (ctx : Ctx) (priv : PrivKey) (listenAddrs : list string) (staticRelays : list AddrInfo)
    : M (res Host) :=
  let opts := hostOptions priv listenAddrs in
  act (New opts) ≫= fun _ =>
  match an_new an opts with
  | Err err => mret (Err err)
  | Ok h =>
      act (GoLogIdentifyEvents h) ≫= fun _ =>
      reserve_loop ctx h 0 staticRelays ≫= fun _ =>
      mret (Ok h)
  end.

(** [p2p.StaticRelayAddrs(splitNonEmpty(os.Getenv("RELAY_ADDRS")))], with the
    [splitNonEmpty] of the program. *)
Definition static_relays (split : string -> list string) : M (list AddrInfo) :=
  csv ← getenv "RELAY_ADDRS";
  or_fatal "bad RELAY_ADDRS: " (StaticRelayAddrs (split csv)).

(** The addresses of the host, as they are given to the other side. *)
Definition print_addrs (h : Host) : M unit :=
  each (fun addr => act (Println ("  " +:+ Multiaddr_String addr +:+ "/p2p/" +:+ ID_String (an_ID an h))))
    (an_Addrs an h).

(** [sig := <-sigCh; fmt.Println(sig)]. *)
Definition wait_for_signal : M unit :=
  match an_signal an with
  | None => stop Waiting
  | Some sig => act (Println sig)
  end.

(** ** Server/server.go *)

(** [connLogger.Connected]; its other methods do nothing. *)
Definition connLogger_Connected (h : Host) (remotePeer : PeerID) : M unit :=
  act (GoWatchForDirectUpgrade h remotePeer (15 * Second)).

Definition serverListenAddrs : list string :=
  ["/ip4/0.0.0.0/tcp/" +:+ PORT; "/ip4/0.0.0.0/udp/" +:+ PORT +:+ "/quic-v1"]%string.

(** The circuit addresses of the server through its relays. *)
Definition print_relays (h : Host) (staticRelays : list AddrInfo) : M unit :=
  each (fun relay =>
      let addr := CircuitAddr relay (an_ID an h) in
      if bool_decide (addr = ""%string) then mret tt else act (Println ("  " +:+ addr)))
    staticRelays.

(** [main] after the host exists. *)
Definition server_body (h : Host) (staticRelays : list AddrInfo) : M unit :=
  act (Println ("Server PeerID: " +:+ ID_String (an_ID an h))) ≫= fun _ =>
  act (Println "Server is listening on:") ≫= fun _ =>
  act (Sleep (15 * Second)) ≫= fun _ =>
  print_addrs h ≫= fun _ =>
  print_relays h staticRelays ≫= fun _ =>
  act (Println (newline +:+ "Give one of the addresses above (with /p2p/<PeerID>) to the client.")) ≫= fun _ =>
  act (SetStreamHandler h ProtocolID (HandleStream fuel)) ≫= fun _ =>
  act (Notify h) ≫= fun _ =>
  wait_for_signal ≫= fun _ =>
  act (Println (newline +:+ "Shutting down.")).

Definition server_identityKeyPath : string := "server_identity.key".

Definition server_main : M unit :=
  r ← load_identity server_identityKeyPath;
  priv ← or_fatal "couldn't load/create identity: " r;
  staticRelays ← static_relays splitNonEmpty;
  r ← NewHost None priv serverListenAddrs staticRelays;
  h ← or_fatal "libp2p host creation failed: " r;
  deferring (HostClose h) (server_body h staticRelays).

(** ** Client/client.go *)

(** [main] after the host exists, up to and with the transfer; [clientTransfer]
    is the switch on the method and the deferred [s.Close()]. *)
Definition client_body (ctx : Ctx) (h : Host) (method path targetAddr : string) : M unit :=
  maddr ← or_fatal "invalid server multiaddr: " (NewMultiaddr targetAddr);
  info ← or_fatal "couldn't extract peer info from multiaddr: " (AddrInfoFromP2pAddr maddr);
  act (Connect h info) ≫= fun _ =>
  now ≫= fun t =>
  ok_or_fatal "libp2p connection wasnt established : " (an_dial an ctx t info) ≫= fun _ =>
  act (Println ("libp2p connection established with " +:+ ID_String (ai_ID info))) ≫= fun _ =>
  act (GoWatchForDirectUpgrade h (ai_ID info) (10 * Second)) ≫= fun _ =>
  act (Sleep (3 * Second)) ≫= fun _ =>
  act (NewStream h (ai_ID info) ProtocolID) ≫= fun _ =>
  now ≫= fun t =>
  ok_or_fatal "couldn't open stream: " (an_stream an ctx t (ai_ID info) ProtocolID) ≫= fun _ =>
  let p := clientTransfer fuel method path in
  act (Transfer p) ≫= fun _ =>
  match (transfer_run an p).1 with
  | Done _ => mret tt
  | Halted (Fatal why) => stop (FatalError why None)
  | Halted (Panic why) => stop (Panicked why)
  | Halted OutOfFuel => stop Waiting
  end.

(** [args] is [os.Args]. *)
Definition client_main (args : list string) : M unit :=
  match args with
  | _ :: arg1 :: path :: targetAddr :: _ =>
      let method := ToUpper arg1 in
      priv ← or_fatal "couldn't generate client identity: " (GenerateEphemeralIdentity (an_gen an));
      staticRelays ← static_relays client_splitNonEmpty;
      now ≫= fun t =>
      let ctx := Some (t + 30 * Second) in
      r ← NewHost ctx priv ClientListenAddrs staticRelays;
      h ← or_fatal "libp2p host creation failed: " r;
      deferring (HostClose h) (client_body ctx h method path targetAddr)
  | _ =>
      act (Println "Usage: client <GET|POST> <path> <server-multiaddr>") ≫= fun _ =>
      act (Println ("Example: client GET /remote/path/file.png " +:+ quote
                    +:+ "/ip4/1.2.3.4/tcp/9001/p2p/12D3KooW..." +:+ quote)) ≫= fun _ =>
      stop (Exited 1)
  end.

(** ** relay/main.go *)

Definition relayOptions (priv : PrivKey) (env : gmap string string) : list Option :=
  [Identity priv; ListenAddrStrings [relayListenAddr env]; EnableRelayService_InfiniteLimits;
   ForceReachabilityPublic; DisableRelay].

(** The lines [loadIdentity] prints for a key from the disk. *)
Definition key_lines (b64 : string) : list Action :=
  [Println "No RELAY_PRIVKEY_B64 set — generated/loaded identity from disk instead.";
   Println "To keep this PeerID stable across Render restarts/redeploys, copy the";
   Println "following into a Render env var named RELAY_PRIVKEY_B64 (mark it Secret):";
   Println b64; Println ""].

(** [loadIdentity] on the process. *)
Definition relay_identity (keyPath : string) : M (res PrivKey) := fun s =>
  let '(d, r, line) := loadIdentity (pr_env s) (an_gen an) keyPath (pr_disk s) in
  let s := mkProcess (pr_env s) d (pr_acts s) (pr_clock s) (pr_pace s) in
  match line with
  | Some b64 => (each act (key_lines b64) ≫= fun _ => mret r) s
  | None => (s, inl r)
  end.

Definition relay_body (h : Host) : M unit :=
  act (Println ("Relay PeerID: " +:+ ID_String (an_ID an h))) ≫= fun _ =>
  act (Println "Relay listening on:") ≫= fun _ =>
  print_addrs h ≫= fun _ =>
  act (Println (newline +:+
    "Give one of the addresses above (with /p2p/<PeerID>) to both peer nodes as a static relay candidate.")) ≫= fun _ =>
  wait_for_signal ≫= fun _ =>
  act (Println (newline +:+ "Shutting down relay.")).

Definition relay_new (priv : PrivKey) : M Host := fun s =>
  let opts := relayOptions priv (pr_env s) in
  (act (New opts) ≫= fun _ => or_fatal "relay host creation failed: " (an_new an opts)) s.

Definition relay_identityKeyPath : string := "relay_identity.key".

Definition relay_main : M unit :=
  r ← relay_identity relay_identityKeyPath;
  priv ← or_fatal "couldn't load/create relay identity: " r;
  h ← relay_new priv;
  deferring (HostClose h) (relay_body h).

(** ** Straight runs *)

Fixpoint add_acts (s : Process) (l : list Action) : Process :=
  match l with [] => s | a :: l => add_acts (add_act s a) l end.

(** [p] performs [l] and returns [a], respectively ends with [e]. *)
Definition ran {A} (p : M A) (l : list Action) (a : A) : Prop := forall s, p s = (add_acts s l, inl a).
Definition ends {A} (p : M A) (l : list Action) (e : Ended) : Prop := forall s, p s = (add_acts s l, inr e).

Lemma add_acts_app s l l' : add_acts (add_acts s l) l' = add_acts s (l ++ l').
Proof. revert s. induction l as [|a l IH]; intros s; cbn [add_acts app]; [done|]. apply IH. Qed.

Lemma add_acts_acts s l : pr_acts (add_acts s l) = pr_acts s ++ l.
Proof.
  revert s. induction l as [|a l IH]; intros s; cbn [add_acts]; [by rewrite app_nil_r|].
  rewrite IH. cbn [pr_acts add_act]. by rewrite <-app_assoc.
Qed.

Lemma add_acts_env s l : pr_env (add_acts s l) = pr_env s.
Proof. revert s. induction l as [|a l IH]; intros s; cbn [add_acts]; [done|]. by rewrite IH. Qed.

Lemma add_acts_disk s l : pr_disk (add_acts s l) = pr_disk s.
Proof. revert s. induction l as [|a l IH]; intros s; cbn [add_acts]; [done|]. by rewrite IH. Qed.

(** Time passes. *)
Lemma add_acts_clock s l : pr_clock s <= pr_clock (add_acts s l).
Proof.
  revert s. induction l as [|a l IH]; intros s; cbn [add_acts]; [lia|]. etrans; [|apply IH]. cbn [pr_clock add_act].
  unfold duration. destruct a; lia.
Qed.

Lemma sleep_clock s d : pr_clock s + d <= pr_clock (add_act s (Sleep d)).
Proof. cbn [pr_clock add_act duration]. lia. Qed.

Lemma ran_ret {A} (a : A) : ran (mret a) [] a.
Proof. done. Qed.

Lemma ran_act a : ran (act a) [a] tt.
Proof. done. Qed.

Lemma ran_bind {A B} (p : M A) (f : A -> M B) l a l' b :
  ran p l a -> ran (f a) l' b -> ran (p ≫= f) (l ++ l') b.
Proof. intros Hp Hf s. unfold mbind, M_bind. by rewrite Hp, Hf, add_acts_app. Qed.

Lemma ends_bind {A B} (p : M A) (f : A -> M B) l a l' e :
  ran p l a -> ends (f a) l' e -> ends (p ≫= f) (l ++ l') e.
Proof. intros Hp Hf s. unfold mbind, M_bind. by rewrite Hp, Hf, add_acts_app. Qed.

Lemma ends_bind_stop {A B} (p : M A) (f : A -> M B) l e : ends p l e -> ends (p ≫= f) l e.
Proof. intros Hp s. unfold mbind, M_bind. by rewrite Hp. Qed.

Lemma ends_stop {A} e : ends (@stop A e) [] e.
Proof. done. Qed.

Lemma ran_each {A} (f : A -> M unit) (g : A -> list Action) l :
  (forall a, ran (f a) (g a) tt) -> ran (each f l) (l ≫= g) tt.
Proof.
  intros Hf. induction l as [|a l IH]; [apply ran_ret|]. cbn [each mbind list_bind]. by eapply ran_bind.
Qed.

Lemma each_act {A} (k : A -> M unit) (f : A -> Action) l :
  (forall a, ran (k a) [f a] tt) -> ran (each k l) (f <$> l) tt.
Proof.
  intros Hk. replace (f <$> l) with (l ≫= fun a => [f a]); [by apply ran_each|].
  induction l as [|a l IH]; [done|]. cbn. by rewrite IH.
Qed.

(** What [NewHost] does with its relays, from the one at position [i] on, in the
    process [s]: every answer is the one of the call at the time it ends.  A relay
    that cannot be used does not affect the others, and exactly the reservations
    that were granted are kept alive. *)
Inductive relay_phase (ctx : Ctx) (h : Host) : nat -> Process -> list AddrInfo -> list Action -> Prop :=
| rp_done i s : relay_phase ctx h i s [] []
| rp_unreachable i s relay err rest l :
    an_connect an ctx (pr_clock (add_acts s [Connect h relay])) i = Some err ->
    relay_phase ctx h (S i) (add_acts s [Connect h relay; RelayUnreachable relay err]) rest l ->
    relay_phase ctx h i s (relay :: rest) ([Connect h relay; RelayUnreachable relay err] ++ l)
| rp_refused i s relay err rest l :
    an_connect an ctx (pr_clock (add_acts s [Connect h relay])) i = None ->
    an_reserve an ctx (pr_clock (add_acts s [Connect h relay; Reserve h relay])) i = Err err ->
    relay_phase ctx h (S i) (add_acts s [Connect h relay; Reserve h relay; RelayRefused relay err]) rest l ->
    relay_phase ctx h i s (relay :: rest) ([Connect h relay; Reserve h relay; RelayRefused relay err] ++ l)
| rp_reserved i s relay expiration rest l :
    an_connect an ctx (pr_clock (add_acts s [Connect h relay])) i = None ->
    an_reserve an ctx (pr_clock (add_acts s [Connect h relay; Reserve h relay])) i = Ok expiration ->
    relay_phase ctx h (S i) (add_acts s [Connect h relay; Reserve h relay; RelayReserved relay expiration;
      GoKeepReservationAlive relay expiration]) rest l ->
    relay_phase ctx h i s (relay :: rest)
      ([Connect h relay; Reserve h relay; RelayReserved relay expiration; GoKeepReservationAlive relay expiration] ++ l).

Lemma reserve_loop_runs ctx h i relays s :
  exists l, relay_phase ctx h i s relays l /\ reserve_loop ctx h i relays s = (add_acts s l, inl tt).
Proof.
  revert i s. induction relays as [|relay rest IH]; intros i s; [exists []; split; [constructor|done]|].
  cbn [reserve_loop]. unfold mbind, M_bind, act, now.
  destruct (an_connect an ctx _ i) as [err|] eqn:Hc.
  { destruct (IH (S i) (add_acts s [Connect h relay; RelayUnreachable relay err])) as (l & Hl & Hr).
    eexists. split; [by apply rp_unreachable|exact Hr]. }
  destruct (an_reserve an ctx _ i) as [expiration|err] eqn:Hv.
  - destruct (IH (S i) (add_acts s [Connect h relay; Reserve h relay; RelayReserved relay expiration;
      GoKeepReservationAlive relay expiration])) as (l & Hl & Hr).
    eexists. split; [by apply rp_reserved|exact Hr].
  - destruct (IH (S i) (add_acts s [Connect h relay; Reserve h relay; RelayRefused relay err])) as (l & Hl & Hr).
    eexists. split; [by apply rp_refused|exact Hr].
Qed.

(** The lines [print_relays] prints. *)
Definition relay_lines (h : Host) (staticRelays : list AddrInfo) : list Action :=
  staticRelays ≫= fun relay =>
    let addr := CircuitAddr relay (an_ID an h) in
    if bool_decide (addr = ""%string) then [] else [Println ("  " +:+ addr)].

Lemma print_relays_ran h relays : ran (print_relays h relays) (relay_lines h relays) tt.
Proof. apply ran_each. intros relay. cbn zeta. by case_bool_decide; [apply ran_ret|]. Qed.

(** The start of a host: up to its relays, and with them. *)
Definition host_new (priv : PrivKey) (listenAddrs : list string) (h : Host) : list Action :=
  [New (hostOptions priv listenAddrs); GoLogIdentifyEvents h].

Definition host_start (priv : PrivKey) (listenAddrs : list string) (h : Host) (l : list Action) : list Action :=
  host_new priv listenAddrs h ++ l.

Lemma NewHost_runs ctx priv listenAddrs relays s :
  match an_new an (hostOptions priv listenAddrs) with
  | Err err => NewHost ctx priv listenAddrs relays s
      = (add_acts s [New (hostOptions priv listenAddrs)], inl (Err err))
  | Ok h => exists l, relay_phase ctx h 0 (add_acts s (host_new priv listenAddrs h)) relays l /\
      NewHost ctx priv listenAddrs relays s = (add_acts s (host_start priv listenAddrs h l), inl (Ok h))
  end.
Proof.
  unfold NewHost, mbind, M_bind, act, mret, M_ret. destruct (an_new an _) as [h|err]; [|done].
  destruct (reserve_loop_runs ctx h 0 relays (add_acts s (host_new priv listenAddrs h)))
    as (l & Hl & Hr). exists l. split; [done|].
  change (add_act (add_act s (New (hostOptions priv listenAddrs))) (GoLogIdentifyEvents h))
    with (add_acts s (host_new priv listenAddrs h)).
  by rewrite Hr.
Qed.

(** ** The server *)

(** What the server does between the creation of its host and serving. *)
Definition server_intro (h : Host) (relays : list AddrInfo) : list Action :=
  [Println ("Server PeerID: " +:+ ID_String (an_ID an h)); Println "Server is listening on:";
   Sleep (15 * Second)]
  ++ ((fun addr => Println ("  " +:+ Multiaddr_String addr +:+ "/p2p/" +:+ ID_String (an_ID an h))) <$> an_Addrs an h)
  ++ relay_lines h relays
  ++ [Println (newline +:+ "Give one of the addresses above (with /p2p/<PeerID>) to the client.")].

Definition serving (h : Host) : list Action :=
  [SetStreamHandler h ProtocolID (HandleStream fuel); Notify h].

Lemma server_body_runs h relays :
  match an_signal an with
  | None => ends (server_body h relays) (server_intro h relays ++ serving h) Waiting
  | Some sig => ran (server_body h relays)
      (server_intro h relays ++ serving h ++ [Println sig; Println (newline +:+ "Shutting down.")]) tt
  end.
Proof.
  unfold server_body, server_intro, serving, wait_for_signal.
  destruct (an_signal an) as [sig|]; rewrite <-!app_assoc; cbn [app].
  - do 3 (apply (ran_bind _ _ [_] tt); [done|]). eapply ran_bind; [by apply each_act|].
    eapply ran_bind; [apply print_relays_ran|]. do 3 (apply (ran_bind _ _ [_] tt); [done|]).
    by apply (ran_bind _ _ [_] tt).
  - do 3 (apply (ends_bind _ _ [_] tt); [done|]). eapply ends_bind; [by apply each_act|].
    eapply ends_bind; [apply print_relays_ran|]. do 3 (apply (ends_bind _ _ [_] tt); [done|]).
    apply ends_bind_stop, ends_stop.
Qed.

(** The circuit address of every relay with an address is printed. *)
Lemma relay_line_printed h relays relay :
  relay ∈ relays -> ai_Addrs relay <> [] -> Println ("  " +:+ CircuitAddr relay (an_ID an h)) ∈ relay_lines h relays.
Proof.
  intros Hin Ha. apply list_elem_of_bind. exists relay. split; [|done]. cbn zeta.
  rewrite bool_decide_false; [by apply list_elem_of_singleton|]. intros Hc.
  pose proof (CircuitAddr_relayed relay (an_ID an h) Ha) as Hr. by rewrite Hc in Hr.
Qed.

#[local] Opaque server_intro serving.

(** The relays a process is configured with. *)
Definition configured_relays (s : Process) : res (list AddrInfo) :=
  StaticRelayAddrs (splitNonEmpty (Getenv (pr_env s) "RELAY_ADDRS")).

(** The server's process once it has loaded or created its key. *)
Definition identified (s : Process) : Process :=
  mkProcess (pr_env s) (LoadOrCreateIdentity (an_gen an) server_identityKeyPath (pr_disk s)).1
    (pr_acts s) (pr_clock s) (pr_pace s).

(** A server that serves: its host, its key and its relays; what it did before
    and after it registered the handler. *)
Definition served (s s' : Process) (r : unit + Ended) (priv : PrivKey) (relays : list AddrInfo) (h : Host)
    (tail : list Action) : Prop :=
  (LoadOrCreateIdentity (an_gen an) server_identityKeyPath (pr_disk s)).2 = Ok priv /\
  configured_relays s = Ok relays /\ an_new an (hostOptions priv serverListenAddrs) = Ok h /\
  exists l, relay_phase None h 0 (add_acts (identified s) (host_new priv serverListenAddrs h)) relays l /\
    pr_acts s' = pr_acts s ++ host_start priv serverListenAddrs h l ++ server_intro h relays ++ serving h ++ tail.

Lemma server_main_runs s s' r :
  server_main s = (s', r) ->
  (exists msg err, r = inr (FatalError msg (Some err)) /\
     (pr_acts s' = pr_acts s \/ exists opts, pr_acts s' = pr_acts s ++ [New opts])) \/
  exists priv relays h tail, served s s' r priv relays h tail /\
    match an_signal an with
    | None => r = inr Waiting /\ tail = []
    | Some sig => r = inl tt /\ tail = [Println sig; Println (newline +:+ "Shutting down."); HostClose h]
    end.
Proof.
  unfold server_main, static_relays, served, configured_relays, identified.
  unfold mbind, M_bind, load_identity, getenv, or_fatal, mret, M_ret, stop.
  destruct (LoadOrCreateIdentity _ _ _) as [d [priv|err]]; cbn [pr_env pr_disk pr_acts fst snd].
  2:{ intros [= <- <-]. left. eauto 10. }
  destruct (StaticRelayAddrs _) as [relays|err]; cbn [pr_acts].
  2:{ intros [= <- <-]. left. eauto 10. }
  pose proof (NewHost_runs None priv serverListenAddrs relays (mkProcess (pr_env s) d (pr_acts s) (pr_clock s) (pr_pace s))) as Hh.
  destruct (an_new an _) as [h|err] eqn:Hn.
  2:{ rewrite Hh. intros [= <- <-]. left. cbn. eauto 10. }
  destruct Hh as (l & Hl & Hh). rewrite Hh. unfold deferring.
  pose proof (server_body_runs h relays) as Hb.
  destruct (an_signal an) as [sig|]; rewrite Hb; unfold act; intros [= <- <-]; right.
  - exists priv, relays, h, [Println sig; Println (newline +:+ "Shutting down."); HostClose h].
    split; [|done]. split_and!; [done|done|done|]. exists l. split; [done|].
    cbn [pr_acts add_act]. rewrite !add_acts_acts. cbn [pr_acts add_act]. by rewrite <-!app_assoc.
  - exists priv, relays, h, []. split; [|done]. split_and!; [done|done|done|]. exists l. split; [done|].
    rewrite !add_acts_acts. cbn [pr_acts add_act]. by rewrite app_nil_r, <-!app_assoc.
Qed.

#[local] Transparent server_intro serving.

(** ** The client *)

Definition client_dials (h : Host) (info : AddrInfo) (p : prog unit) : list Action :=
  [Connect h info; Println ("libp2p connection established with " +:+ ID_String (ai_ID info));
   GoWatchForDirectUpgrade h (ai_ID info) (10 * Second); Sleep (3 * Second);
   NewStream h (ai_ID info) ProtocolID; Transfer p].

(** The end of a client's main, by the outcome of its transfer. *)
Definition client_end (h : Host) (o : outcome unit) (l : list Action) (r : unit + Ended) : Prop :=
  match o with
  | Done _ => l = [HostClose h] /\ r = inl tt
  | Halted (Panic why) => l = [HostClose h] /\ r = inr (Panicked why)
  | Halted (Fatal why) => l = [] /\ r = inr (FatalError why None)
  | Halted OutOfFuel => l = [] /\ r = inr Waiting
  end.

(** A client that ends before its transfer. *)
Definition no_transfer (l : list Action) : Prop := forall p, Transfer p ∉ l.

Lemma no_transfer_Forall l :
  Forall (fun a => match a with Transfer _ => False | _ => True end) l -> no_transfer l.
Proof. intros Hl p Hp. rewrite Forall_forall in Hl. exact (Hl _ Hp). Qed.

(** A client that has its stream: when it dialled and when the stream was open. *)
Definition dialled (ctx : Ctx) (s : Process) (h : Host) (info : AddrInfo) : Prop :=
  an_dial an ctx (pr_clock (add_acts s [Connect h info])) info = None /\
  an_stream an ctx (pr_clock (add_acts s (take 5 (client_dials h info (Ret tt))))) (ai_ID info) ProtocolID = None.

(** A client that cannot get to its transfer though it has a host: what it did,
    and the message and the error it exits with. *)
Inductive dial_fails (ctx : Ctx) (s : Process) (h : Host) (targetAddr : string)
    : list Action -> string -> error -> Prop :=
| df_addr err :
    NewMultiaddr targetAddr = Err err ->
    dial_fails ctx s h targetAddr [] "invalid server multiaddr: " err
| df_info maddr err :
    NewMultiaddr targetAddr = Ok maddr -> AddrInfoFromP2pAddr maddr = Err err ->
    dial_fails ctx s h targetAddr [] "couldn't extract peer info from multiaddr: " err
| df_dial maddr info err :
    NewMultiaddr targetAddr = Ok maddr -> AddrInfoFromP2pAddr maddr = Ok info ->
    an_dial an ctx (pr_clock (add_acts s [Connect h info])) info = Some err ->
    dial_fails ctx s h targetAddr [Connect h info] "libp2p connection wasnt established : " err
| df_stream maddr info err :
    NewMultiaddr targetAddr = Ok maddr -> AddrInfoFromP2pAddr maddr = Ok info ->
    an_dial an ctx (pr_clock (add_acts s [Connect h info])) info = None ->
    an_stream an ctx (pr_clock (add_acts s (take 5 (client_dials h info (Ret tt))))) (ai_ID info) ProtocolID
      = Some err ->
    dial_fails ctx s h targetAddr (take 5 (client_dials h info (Ret tt))) "couldn't open stream: " err.

Lemma dial_fails_no_transfer ctx s h targetAddr l msg err :
  dial_fails ctx s h targetAddr l msg err -> no_transfer l.
Proof. intros Hf. apply no_transfer_Forall. destruct Hf; by repeat constructor. Qed.

Lemma client_body_runs ctx h method path targetAddr s :
  (exists l msg err, dial_fails ctx s h targetAddr l msg err /\
     client_body ctx h method path targetAddr s = (add_acts s l, inr (FatalError msg (Some err)))) \/
  exists maddr info, NewMultiaddr targetAddr = Ok maddr /\ AddrInfoFromP2pAddr maddr = Ok info /\
    dialled ctx s h info /\
    exists l r, client_end h (transfer_run an (clientTransfer fuel method path)).1 l r /\
      deferring (HostClose h) (client_body ctx h method path targetAddr) s
      = (add_acts s (client_dials h info (clientTransfer fuel method path) ++ l), r).
Proof.
  unfold deferring, client_body.
  unfold mbind, M_bind, or_fatal, ok_or_fatal, mret, M_ret, stop, now, act.
  destruct (NewMultiaddr targetAddr) as [maddr|err] eqn:Hm; [|left; eexists [], _, err; split; [by apply df_addr|done]].
  destruct (AddrInfoFromP2pAddr maddr) as [info|err] eqn:Hi; [|left; eexists [], _, err; split; [by eapply df_info|done]].
  destruct (an_dial an ctx _ info) as [err|] eqn:Hd; [left; eexists _, _, err; split; [by eapply df_dial|done]|].
  destruct (an_stream an ctx _ _ _) as [err|] eqn:Hs; [left; eexists _, _, err; split; [by eapply df_stream|done]|].
  right. exists maddr, info. split_and!; [done|done|exact (conj Hd Hs)|].
  destruct (transfer_run an _).1 as [[]|[why|why|]].
  - by exists [HostClose h], (inl tt).
  - by exists [HostClose h], (inr (Panicked why)).
  - by exists [], (inr (FatalError why None)).
  - by exists [], (inr Waiting).
Qed.

(** The grace period between the dial and the stream: a stream open within 30
    seconds was dialled within 27. *)
Lemma dial_budget s h info c :
  pr_clock (add_acts s (take 5 (client_dials h info (Ret tt)))) <= c + 30 * Second ->
  pr_clock s <= c + 27 * Second /\ pr_clock (add_acts s [Connect h info]) <= c + 27 * Second.
Proof.
  unfold client_dials. cbn [take add_acts]. set (s2 := add_act s (Connect h info)). intros Hopen.
  assert (pr_clock s <= pr_clock s2) by (apply (add_acts_clock s [Connect h info])).
  set (s3 := add_act (add_act s2 _) _) in Hopen.
  assert (pr_clock s2 <= pr_clock s3) by (apply (add_acts_clock s2 [_; _])).
  pose proof (sleep_clock s3 (3 * Second)).
  pose proof (add_acts_clock (add_act s3 (Sleep (3 * Second))) [NewStream h (ai_ID info) ProtocolID]) as Hns.
  cbn [add_acts] in Hns. unfold Second in *. lia.
Qed.

(** The context of a client that starts now. *)
Definition client_ctx (s : Process) : Ctx := Some (pr_clock s + 30 * Second).

(** A client that has its host: [start] is what it has done, up to and with the
    last of its relays. *)
Definition hosted (s : Process) (relays : list AddrInfo) (h : Host) (start : list Action) : Prop :=
  exists priv ls, GenerateEphemeralIdentity (an_gen an) = Ok priv /\ configured_relays s = Ok relays /\
    an_new an (hostOptions priv ClientListenAddrs) = Ok h /\
    relay_phase (client_ctx s) h 0 (add_acts s (host_new priv ClientListenAddrs h)) relays ls /\
    start = host_start priv ClientListenAddrs h ls.

(** A client that ends by [log.Fatal] before its transfer: what it did, and the
    message and the error it exits with. *)
Inductive client_fails (s : Process) (targetAddr : string) : list Action -> string -> error -> Prop :=
| cf_identity err :
    GenerateEphemeralIdentity (an_gen an) = Err err ->
    client_fails s targetAddr [] "couldn't generate client identity: " err
| cf_relays priv err :
    GenerateEphemeralIdentity (an_gen an) = Ok priv -> configured_relays s = Err err ->
    client_fails s targetAddr [] "bad RELAY_ADDRS: " err
| cf_host priv relays err :
    GenerateEphemeralIdentity (an_gen an) = Ok priv -> configured_relays s = Ok relays ->
    an_new an (hostOptions priv ClientListenAddrs) = Err err ->
    client_fails s targetAddr [New (hostOptions priv ClientListenAddrs)] "libp2p host creation failed: " err
| cf_dial relays h start l msg err :
    hosted s relays h start -> dial_fails (client_ctx s) (add_acts s start) h targetAddr l msg err ->
    client_fails s targetAddr (start ++ l) msg err.

(** What a client that gets to its transfer has done: [start] are its actions up
    to the dial. *)
Definition transfers (s s' : Process) (r : unit + Ended) (arg1 path targetAddr : string) (start : list Action) : Prop :=
  exists relays h maddr info l,
    hosted s relays h start /\
    NewMultiaddr targetAddr = Ok maddr /\ AddrInfoFromP2pAddr maddr = Ok info /\
    dialled (client_ctx s) (add_acts s start) h info /\
    client_end h (transfer_run an (clientTransfer fuel (ToUpper arg1) path)).1 l r /\
    pr_acts s' = pr_acts s ++ start ++ client_dials h info (clientTransfer fuel (ToUpper arg1) path) ++ l.

(** A relay phase only connects, reserves, and reports it. *)
Lemma relay_phase_no_transfer ctx h i s relays l : relay_phase ctx h i s relays l -> no_transfer l.
Proof. intros Hl. apply no_transfer_Forall. induction Hl; repeat constructor; done. Qed.

Lemma no_transfer_app l l' : no_transfer l -> no_transfer l' -> no_transfer (l ++ l').
Proof. intros Hl Hl' p [Hp|Hp]%elem_of_app; [by apply (Hl p)|by apply (Hl' p)]. Qed.

Lemma client_fails_no_transfer s targetAddr l msg err : client_fails s targetAddr l msg err -> no_transfer l.
Proof.
  intros [| | |relays h start ? ? ? (priv & ls & _ & _ & _ & Hls%relay_phase_no_transfer & ->) Hf%dial_fails_no_transfer];
    try (apply no_transfer_Forall; by repeat constructor).
  apply no_transfer_app; [|done]. apply no_transfer_app; [|done]. apply no_transfer_Forall. by repeat constructor.
Qed.

(** What a client with too few arguments prints. *)
Definition usage : list Action :=
  [Println "Usage: client <GET|POST> <path> <server-multiaddr>";
   Println ("Example: client GET /remote/path/file.png " +:+ quote
            +:+ "/ip4/1.2.3.4/tcp/9001/p2p/12D3KooW..." +:+ quote)].

Lemma usage_no_transfer : no_transfer usage.
Proof. apply no_transfer_Forall. by repeat constructor. Qed.

Lemma client_main_runs args s s' r :
  client_main args s = (s', r) ->
  ((length args < 4)%nat /\ r = inr (Exited 1) /\ pr_acts s' = pr_acts s ++ usage \/
   exists arg0 arg1 path targetAddr rest l msg err, args = arg0 :: arg1 :: path :: targetAddr :: rest /\
     client_fails s targetAddr l msg err /\ r = inr (FatalError msg (Some err)) /\ pr_acts s' = pr_acts s ++ l) \/
  exists arg0 arg1 path targetAddr rest start, args = arg0 :: arg1 :: path :: targetAddr :: rest /\
    transfers s s' r arg1 path targetAddr start.
Proof.
  intros Hm. destruct args as [|arg0 [|arg1 [|path [|targetAddr rest]]]];
    try (injection Hm as <- <-; left; left; split_and!; [simpl; lia|done|cbn; by rewrite <-app_assoc]).
  assert (Hfatal : forall l msg err, client_fails s targetAddr l msg err -> add_acts s l = s' ->
    inr (FatalError msg (Some err)) = r ->
    exists arg0' arg1' path' targetAddr' rest' l msg err,
     arg0 :: arg1 :: path :: targetAddr :: rest = arg0' :: arg1' :: path' :: targetAddr' :: rest' /\
     client_fails s targetAddr' l msg err /\ r = inr (FatalError msg (Some err)) /\ pr_acts s' = pr_acts s ++ l).
  { intros l msg err Hf <- <-. rewrite add_acts_acts. eauto 20. }
  revert Hm. unfold client_main, static_relays. change client_splitNonEmpty with splitNonEmpty.
  unfold mbind, M_bind, getenv, now.
  destruct (GenerateEphemeralIdentity (an_gen an)) as [priv|err] eqn:Hg; cbn [or_fatal].
  2:{ intros [= ??]. left. right. eapply (Hfatal []); [by apply cf_identity|done..]. }
  unfold mret at 1, M_ret at 1.
  destruct (StaticRelayAddrs _) as [relays|err] eqn:Hr; cbn [or_fatal].
  2:{ intros [= ??]. left. right. eapply (Hfatal []); [by eapply cf_relays|done..]. }
  unfold mret at 1, M_ret at 1. pose proof (NewHost_runs (client_ctx s) priv ClientListenAddrs relays s) as Hh.
  unfold client_ctx in Hh. destruct (an_new an _) as [h|err] eqn:Hn.
  2:{ rewrite Hh. intros [= ??]. left. right.
      eapply (Hfatal [New (hostOptions priv ClientListenAddrs)]); [by eapply cf_host|done..]. }
  destruct Hh as (ls & Hls & Hh). rewrite Hh. cbn [or_fatal]. unfold mret at 1, M_ret at 1.
  set (start := host_start priv ClientListenAddrs h ls).
  assert (Hhost : hosted s relays h start) by (by exists priv, ls).
  destruct (client_body_runs (client_ctx s) h (ToUpper arg1) path targetAddr (add_acts s start))
    as [(l & msg & err & Hf & He)|(maddr & info & Hma & Hai & Hd & l & r0 & Hend & Hb)].
  - unfold client_ctx in He. unfold deferring. rewrite He. intros [= ??]. left. right.
    eapply (Hfatal (start ++ l)); [by eapply cf_dial|by rewrite <-add_acts_app|done].
  - unfold client_ctx in Hb. rewrite Hb. intros [<- <-]%pair_equal_spec. right.
    exists arg0, arg1, path, targetAddr, rest, start. split; [done|].
    exists relays, h, maddr, info, l. split_and!; try done.
    by rewrite (add_acts_acts (add_acts s start)), (add_acts_acts s start), <-app_assoc.
Qed.

(** How a client's main ends once its stream is open: what it performs on the
    stream and on its files, the action after the transfer, and the end.  A
    transfer that returns, with an error or with [nil], lets [main] return. *)
Inductive client_ends (h : Host) (method path : string) : list event -> list Action -> unit + Ended -> Prop :=
| ce_unknown :
    method <> "GET"%string -> method <> "POST"%string ->
    client_ends h method path [EvClose] [HostClose h] (inl tt)
| ce_request err :
    method = "GET"%string \/ method = "POST"%string ->
    client_ends h method path [EvWrite (requestBytes path method) (Some err)] []
      (inr (FatalError "Couldnt write the whattodoheaderBuffer" None))
| ce_received tr err :
    method = "GET"%string -> exec (RecieveFile fuel) tr (Done err) ->
    client_ends h method path (EvWrite (requestBytes path method) None :: tr ++ [EvClose]) [HostClose h] (inl tt)
| ce_sent tr err :
    method = "POST"%string -> exec (SendFile fuel path) tr (Done err) ->
    client_ends h method path (EvWrite (requestBytes path method) None :: tr ++ [EvClose]) [HostClose h] (inl tt)
| ce_fatal tr why :
    method = "POST"%string -> exec (SendFile fuel path) tr (Halted (Fatal why)) ->
    (exists e, EvOpen path (Err e) ∈ tr) \/ (exists f e, EvStat f (Err e) ∈ tr) ->
    client_ends h method path (EvWrite (requestBytes path method) None :: tr) [] (inr (FatalError why None))
| ce_panic tr why :
    method = "POST"%string -> exec (SendFile fuel path) tr (Halted (Panic why)) ->
    (exists f e, EvStat f (Err e) ∈ tr) ->
    client_ends h method path (EvWrite (requestBytes path method) None :: tr ++ [EvClose]) [HostClose h]
      (inr (Panicked why)).

(** The request, and what follows it when it could be written. *)
Lemma exec_RequestFile path method (p : prog unit) tr o :
  exec (let! _ := RequestFile path method in p) tr o ->
  (exists err, tr = [EvWrite (requestBytes path method) (Some err)] /\
     o = Halted (Fatal "Couldnt write the whattodoheaderBuffer")) \/
  exists tr', tr = EvWrite (requestBytes path method) None :: tr' /\ exec p tr' o.
Proof.
  unfold RequestFile. cbn [perform bind exec event_of]. intros ([err|] & tr' & _ & -> & He); cbn [bind exec] in He.
  - destruct He as [-> ->]. eauto.
  - eauto.
Qed.

(** The outcome of a transfer inside a process and the [s.Close()] after it. *)
Lemma exec_close (p : prog unit) tr r :
  exec (defer (perform OClose) p) tr r -> exists tr1, exec p tr1 r /\
    tr = tr1 ++ match r with Done _ | Halted (Panic _) => [EvClose] | _ => [] end.
Proof.
  intros (o & tr1 & tr2 & He & -> & Hd)%exec_defer. destruct o as [[]|[why|why|]]; cbn [perform bind exec] in Hd.
  1,2: destruct Hd as ([] & tr' & _ & -> & -> & ->); eauto.
  all: destruct Hd as [-> ->]; exists tr1; by rewrite ?app_nil_r.
Qed.

Lemma exec_ignored (p : prog (option error)) tr o :
  exec (let! _ := p in Ret tt) tr o ->
  (exists err, exec p tr (Done err) /\ o = Done tt) \/ exists h, exec p tr (Halted h) /\ o = Halted h.
Proof.
  intros [(h & He & ->)|(err & tr1 & tr2 & He & [-> ->] & ->)]%exec_bind; [by right; exists h|].
  left. exists err. by rewrite app_nil_r.
Qed.

(** The end of [clientTransfer], by what [SendFile] and [RecieveFile] return. *)
Lemma clientTransfer_ends h method path tr o l r :
  enough_fuel fuel -> exec (clientTransfer fuel method path) tr o -> client_end h o l r ->
  client_ends h method path tr l r.
Proof.
  intros Hfuel (tr1 & He & ->)%exec_close Hend. revert He.
  case_bool_decide as Hpost; [|case_bool_decide as Hget].
  - intros [(err & -> & ->)|(tr2 & -> & [(err & He & ->)|(hl & He & ->)]%exec_ignored)]%exec_RequestFile.
    + destruct Hend as [-> ->]. apply ce_request. by right.
    + destruct Hend as [-> ->]. cbn [app]. by eapply ce_sent.
    + pose proof (wp_exec _ _ _ [] _ _ (wp_SendFile fuel path Hfuel) He) as Hp. cbn [app sendfile_post] in Hp.
      destruct hl as [why|why|]; [| |done]; destruct Hend as [-> ->].
      * cbn [app]. by apply ce_panic.
      * rewrite app_nil_r. by apply ce_fatal.
  - intros [(err & -> & ->)|(tr2 & -> & [(err & He & ->)|(hl & He & ->)]%exec_ignored)]%exec_RequestFile.
    + destruct Hend as [-> ->]. apply ce_request. by left.
    + destruct Hend as [-> ->]. cbn [app]. by eapply ce_received.
    + destruct (wp_exec _ _ _ [] _ _ (wp_RecieveFile fuel Hfuel) He).
  - intros [-> ->]. destruct Hend as [-> ->]. by apply ce_unknown.
Qed.

(** ** The relay *)

Lemma relay_body_acts h : exists l, forall s, (relay_body h s).1 = add_acts s l.
Proof.
  destruct (an_signal an) as [sig|] eqn:Hsig.
  - assert (exists l, ran (relay_body h) l tt) as [l Hl]; [|exists l; intros s; by rewrite Hl].
    eexists. unfold relay_body, wait_for_signal. rewrite Hsig. do 2 (eapply ran_bind; [apply ran_act|]).
    eapply ran_bind; [by apply each_act|]. do 2 (eapply ran_bind; [apply ran_act|]). apply ran_act.
  - assert (exists l, ends (relay_body h) l Waiting) as [l Hl]; [|exists l; intros s; by rewrite Hl].
    eexists. unfold relay_body, wait_for_signal. rewrite Hsig. do 2 (eapply ends_bind; [apply ran_act|]).
    eapply ends_bind; [by apply each_act|]. eapply ends_bind; [apply ran_act|].
    apply ends_bind_stop, ends_stop.
Qed.

(** What the relay prints before its host. *)
Definition key_prelude (line : option string) : list Action :=
  match line with Some b64 => key_lines b64 | None => [] end.

Lemma relay_identity_runs keyPath s d r line :
  loadIdentity (pr_env s) (an_gen an) keyPath (pr_disk s) = (d, r, line) ->
  relay_identity keyPath s
  = (add_acts (mkProcess (pr_env s) d (pr_acts s) (pr_clock s) (pr_pace s)) (key_prelude line), inl r).
Proof. intros Hld. unfold relay_identity. rewrite Hld. by destruct line. Qed.

(** A relay that has a key: what it prints and the options of its host. *)
Lemma relay_main_acts s d k line :
  loadIdentity (pr_env s) (an_gen an) relay_identityKeyPath (pr_disk s) = (d, Ok k, line) ->
  forall s' r, relay_main s = (s', r) ->
  (exists tl, pr_acts s' = pr_acts s ++ key_prelude line ++ New (relayOptions k (pr_env s)) :: tl) /\ pr_disk s' = d.
Proof.
  intros Hld s' r. unfold relay_main. unfold mbind at 1, M_bind at 1. rewrite (relay_identity_runs _ _ _ _ _ Hld).
  set (s1 := add_acts _ _).
  assert (Hs1 : pr_env s1 = pr_env s /\ pr_disk s1 = d /\ pr_acts s1 = pr_acts s ++ key_prelude line).
  { unfold s1. by rewrite add_acts_env, add_acts_disk, add_acts_acts. }
  destruct Hs1 as (He & Hd & Ha). cbn [or_fatal]. unfold mbind, M_bind, mret, M_ret, relay_new, mbind, M_bind, act.
  rewrite He. destruct (an_new an (relayOptions k (pr_env s))) as [h|err]; cbn [or_fatal].
  2:{ unfold stop. intros [= <- <-]. cbn [pr_acts pr_disk add_act]. rewrite Ha. split; [|done].
      exists []. by rewrite <-app_assoc. }
  unfold mret, M_ret, deferring. destruct (relay_body_acts h) as [l Hl].
  set (s2 := add_act s1 _). specialize (Hl s2). destruct (relay_body h s2) as [s3 res]. cbn [fst] in Hl. subst s3.
  assert (Hs2 : pr_acts s2 = pr_acts s ++ key_prelude line ++ [New (relayOptions k (pr_env s))] /\ pr_disk s2 = d).
  { unfold s2. cbn [pr_acts pr_disk add_act]. by rewrite Ha, <-app_assoc. }
  destruct Hs2 as [Ha2 Hd2].
  assert (Hfin : forall l', s' = add_acts s2 l' ->
    (exists tl, pr_acts s' = pr_acts s ++ key_prelude line ++ New (relayOptions k (pr_env s)) :: tl) /\ pr_disk s' = d).
  { intros l' ->. rewrite add_acts_acts, add_acts_disk, Ha2. split; [|done]. exists l'. by rewrite <-!app_assoc. }
  assert (Hclose : add_act (add_acts s2 l) (HostClose h) = add_acts s2 (l ++ [HostClose h])) by (by rewrite <-add_acts_app).
  destruct res as [[]|[]]; unfold act; rewrite ?Hclose; intros [= <- _]; by eapply Hfin.
Qed.

(** ** Properties *)

(** C34: what the server's main does.  It ends by [log.Fatal] before it has a host,
    when its key, a relay address or the host fails, having done nothing else;
    or it serves: with one host for its key and addresses it waits 15 seconds,
    prints its addresses, then registers the stream handler and the logger, and
    waits for a signal, after which it closes the host.  Among the addresses is
    the circuit address through every relay, also through a relay on which no
    reservation could be made. *)
Theorem server_main_spec s s' r :
  server_main s = (s', r) ->
  (exists msg err, r = inr (FatalError msg (Some err)) /\
     (pr_acts s' = pr_acts s \/ exists opts, pr_acts s' = pr_acts s ++ [New opts])) \/
  exists priv relays h tail, served s s' r priv relays h tail /\
    (forall relay, relay ∈ relays -> ai_Addrs relay <> [] ->
       Println ("  " +:+ CircuitAddr relay (an_ID an h)) ∈ server_intro h relays) /\
    match an_signal an with
    | None => r = inr Waiting /\ tail = []
    | Some sig => r = inl tt /\ tail = [Println sig; Println (newline +:+ "Shutting down."); HostClose h]
    end.
Proof.
  intros [Hf|(priv & relays & h & tail & Hs & Ht)]%server_main_runs; [by left|right].
  exists priv, relays, h, tail. split_and!; [done| |done].
  intros relay Hin Ha. pose proof (relay_line_printed h relays relay Hin Ha) as Hl.
  unfold server_intro. rewrite !elem_of_app. tauto.
Qed.

(** C35: what the client's main does.  With fewer than three arguments ([args] has
    the name of the program in front) it prints how
    to use it and exits with status 1.  Otherwise it ends by [log.Fatal] with the
    error of the first call that failed before the transfer (its key, a relay
    address, its host, the server's address, the dial, the stream), having done
    what comes before that call; or it dials the peer named in its third
    argument, opens one stream to it for the protocol of the program and runs
    the transfer there, with the method in upper case.  When [SendFile] or
    [RecieveFile] returns, with an error as with [nil], [main] closes the stream
    and the host and returns normally: only a request that cannot be written, or
    a file that cannot be opened or stat'ed, ends the process in another way. *)
Theorem client_main_spec args s s' r :
  enough_fuel fuel -> client_main args s = (s', r) ->
  ((length args < 4)%nat -> r = inr (Exited 1) /\ pr_acts s' = pr_acts s ++ usage) /\
  forall arg0 arg1 path targetAddr rest, args = arg0 :: arg1 :: path :: targetAddr :: rest ->
    transfer_wf an (clientTransfer fuel (ToUpper arg1) path) ->
    (exists l msg err, client_fails s targetAddr l msg err /\
       r = inr (FatalError msg (Some err)) /\ pr_acts s' = pr_acts s ++ l) \/
    exists start relays h maddr info l, hosted s relays h start /\
      NewMultiaddr targetAddr = Ok maddr /\ AddrInfoFromP2pAddr maddr = Ok info /\
      dialled (client_ctx s) (add_acts s start) h info /\
      pr_acts s' = pr_acts s ++ start ++ client_dials h info (clientTransfer fuel (ToUpper arg1) path) ++ l /\
      client_ends h (ToUpper arg1) path (transfer_run an (clientTransfer fuel (ToUpper arg1) path)).2 l r.
Proof.
  intros Hfuel Hm. apply client_main_runs in Hm as [[(Hlen & -> & Hacts)|Hf]|Htr].
  - split; [done|]. intros * ->. simpl in Hlen. lia.
  - destruct Hf as (? & ? & ? & ? & ? & l & msg & err & -> & Hf & Hr & Hacts). split; [simpl; lia|].
    intros * [= <- <- <- <- <-] _. left. by exists l, msg, err.
  - destruct Htr as (? & ? & path0 & ? & ? & start & -> & relays & h & maddr & info & l & Hh & Hma & Hai & Hd & Hend & Hacts).
    split; [simpl; lia|]. intros * [= <- <- <- <- <-] Hwf. right.
    exists start, relays, h, maddr, info, l. split_and!; [done|done|done|done|exact Hacts|].
    eapply clientTransfer_ends; [done|by apply transfer_run_exec|exact Hend].
Qed.

(** C36: the client's 30 seconds.  Its one context covers the relays, the dial, the
    three seconds of grace and the opening of the stream.  When calls do not
    succeed after the deadline of their context, a client that begins its
    transfer has been through all the relays of RELAY_ADDRS, connecting and
    reserving, before it dialled the peer of its third argument, connects to no
    peer and reserves on none after that, and that dial had succeeded within 27
    seconds of its start: relays that keep it waiting for longer keep it from its
    server, although the server may be reached without them. *)
Theorem client_budget args s s' r p :
  respects_deadlines an -> client_main args s = (s', r) -> pr_acts s = [] -> Transfer p ∈ pr_acts s' ->
  exists arg0 arg1 path targetAddr args' relays start h maddr info rest,
    args = arg0 :: arg1 :: path :: targetAddr :: args' /\
    hosted s relays h start /\
    NewMultiaddr targetAddr = Ok maddr /\ AddrInfoFromP2pAddr maddr = Ok info /\
    pr_acts s' = start ++ Connect h info :: rest /\
    Forall (fun a => match a with Connect _ _ | Reserve _ _ => False | _ => True end) rest /\
    an_dial an (client_ctx s) (pr_clock (add_acts s (start ++ [Connect h info]))) info = None /\
    pr_clock (add_acts s start) <= pr_clock s + 27 * Second /\
    pr_clock (add_acts s (start ++ [Connect h info])) <= pr_clock s + 27 * Second.
Proof.
  intros Hrd [[(_ & _ & Hacts)|(? & ? & ? & ? & ? & l & ? & ? & _ & Hf & _ & Hacts)]
    |(arg0 & arg1 & path & addr & args' & start & Hargs & Htr)]%client_main_runs Hs Hp.
  { exfalso. apply (usage_no_transfer p). by rewrite Hacts, Hs in Hp. }
  { exfalso. apply (client_fails_no_transfer _ _ _ _ _ Hf p). by rewrite Hacts, Hs in Hp. }
  destruct Htr as (relays & h & maddr & info & l & Hh & Hma & Hai & [Hdial Hst] & Hend & Hacts).
  rewrite add_acts_app in Hdial.
  eexists arg0, arg1, path, addr, args', relays, start, h, maddr, info, _.
  split_and!; [exact Hargs|exact Hh|exact Hma|exact Hai|rewrite Hacts, Hs; reflexivity| |exact Hdial| |].
  { repeat constructor. destruct (transfer_run an _).1 as [|[]]; destruct Hend as [-> _]; by repeat constructor. }
  all: rewrite <-?add_acts_app; apply (dial_budget (add_acts s start) h info (pr_clock s)), Z.le_ngt; intros Hlt;
    by apply (rd_stream an Hrd _ _ (ai_ID info) ProtocolID Hlt).
Qed.

End answers.

(** C40: the relay's identity can be moved to the environment.  When the relay
    starts without RELAY_PRIVKEY_B64, it prints a line among others and starts
    its host with some key; started with that line as RELAY_PRIVKEY_B64, whatever
    is on the disk then and whatever key pair would be generated, its host has
    the same key, and the disk is not touched. *)
Theorem relay_identity_portable `{!Libp2pKeys} an an2 s s' r line k env rest s2 s2' r2 :
  relay_main an s = (s', r) -> pr_acts s = [] ->
  pr_acts s' = key_lines line ++ New (relayOptions k env) :: rest -> line <> ""%string ->
  pr_env s2 !! "RELAY_PRIVKEY_B64"%string = Some line -> pr_acts s2 = [] -> relay_main an2 s2 = (s2', r2) ->
  head (pr_acts s2') = Some (New (relayOptions k (pr_env s2))) /\ pr_disk s2' = pr_disk s2.
Proof.
  intros Hrun Hs Hacts Hl He Hs2.
  assert (Hkey : exists d, loadIdentity (pr_env s) (an_gen an) relay_identityKeyPath (pr_disk s) = (d, Ok k, Some line)).
  { destruct (loadIdentity (pr_env s) (an_gen an) relay_identityKeyPath (pr_disk s)) as [[d [k0|err]] ln] eqn:Hld.
    - destruct (relay_main_acts an s d k0 ln Hld s' r Hrun) as [[tl Htl] _]. rewrite Hs, Hacts in Htl. cbn [app] in Htl.
      destruct ln as [b64|]; [|done]. cbn [key_prelude] in Htl.
      assert (b64 = line /\ k0 = k) as [-> ->]; [|by exists d]. by unfold key_lines in Htl; simplify_eq/=.
    - revert Hrun. unfold relay_main. unfold mbind at 1, M_bind at 1. rewrite (relay_identity_runs _ _ _ _ _ _ Hld).
      cbn [or_fatal]. unfold mbind, M_bind, stop. intros [= <- _].
      rewrite add_acts_acts in Hacts. cbn [pr_acts] in Hacts. rewrite Hs in Hacts. by destruct ln. }
  destruct Hkey as [d Hkey]. intros Hrun2.
  pose proof (loadIdentity_portable _ (pr_env s2) _ (an_gen an2) _ _ _ (pr_disk s2) _ _ Hkey Hl He) as Hld2.
  destruct (relay_main_acts an2 s2 _ _ _ Hld2 s2' r2 Hrun2) as [[tl Htl] Hd]. by rewrite Htl, Hs2.
Qed.

(** ** The two programs together *)

(** The handler a server has registered. *)
Lemma served_handler an fuel s s' r priv relays h tail h' proto hdl :
  served an fuel s s' r priv relays h tail -> pr_acts s = [] ->
  Forall (fun a => match a with SetStreamHandler _ _ _ => False | _ => True end) tail ->
  SetStreamHandler h' proto hdl ∈ pr_acts s' -> proto = ProtocolID /\ hdl = HandleStream fuel.
Proof.
  intros (_ & _ & _ & ls & Hls & Hacts) Hs Htail Hin. rewrite Hacts, Hs in Hin. cbn [app] in Hin.
  set (other := fun a : Action => match a with SetStreamHandler _ _ _ => False | _ => True end) in *.
  assert (Hno : forall l, Forall other l -> ~ SetStreamHandler h' proto hdl ∈ l).
  { intros l Hl Hp. rewrite Forall_forall in Hl. exact (Hl _ Hp). }
  apply elem_of_cons in Hin as [|Hin]; [done|]. apply elem_of_cons in Hin as [|Hin]; [done|].
  apply elem_of_app in Hin as [Hin|Hin].
  { exfalso. revert Hin. apply Hno. clear -Hls. by induction Hls; repeat constructor. }
  apply elem_of_app in Hin as [Hin|Hin].
  { exfalso. revert Hin. apply Hno. unfold server_intro. apply Forall_app. split; [by repeat constructor|].
    apply Forall_app. split; [by apply Forall_fmap, Forall_true|].
    apply Forall_app. split; [|by repeat constructor].
    apply Forall_forall. intros a (relay & Ha & _)%list_elem_of_bind. revert Ha. cbn zeta.
    case_bool_decide; [intros Ha; by apply not_elem_of_nil in Ha|]. by intros ->%list_elem_of_singleton. }
  apply elem_of_app in Hin as [Hin|Hin]; [|exfalso; revert Hin; by apply Hno].
  apply elem_of_cons in Hin as [Heq|Hin]; [by injection Heq|].
  apply list_elem_of_singleton in Hin. done.
Qed.

(** The stream and the transfer of a client. *)
Lemma transfers_stream an fuel s s' r arg1 path targetAddr start h peer proto p :
  transfers an fuel s s' r arg1 path targetAddr start -> pr_acts s = [] ->
  NewStream h peer proto ∈ pr_acts s' -> Transfer p ∈ pr_acts s' ->
  proto = ProtocolID /\ p = clientTransfer fuel (ToUpper arg1) path.
Proof.
  intros (relays & h0 & maddr & info & l & (priv & ls & _ & _ & _ & Hls & ->) & _ & _ & _ & Hend & Hacts) Hs.
  rewrite Hacts, Hs. cbn [app].
  assert (Hl : l = [] \/ l = [HostClose h0]) by (destruct (transfer_run an _).1 as [|[]]; destruct Hend; auto).
  assert (Hin : forall a, a ∈ host_start priv ClientListenAddrs h0 ls
      ++ client_dials h0 info (clientTransfer fuel (ToUpper arg1) path) ++ l ->
    match a with
    | NewStream _ _ proto => proto = ProtocolID
    | Transfer p => p = clientTransfer fuel (ToUpper arg1) path
    | _ => True
    end).
  { apply Forall_forall. apply Forall_app. split; [repeat constructor; clear -Hls; by induction Hls; repeat constructor|].
    apply Forall_app. split; [by repeat constructor|]. destruct Hl as [->| ->]; by repeat constructor. }
  intros H1 H2. split; [exact (Hin _ H1)|exact (Hin _ H2)].
Qed.

Section together.
Context `{!LegacyKeccak256Spec} (anS anC : Answers) (fuelS fuelC : nat) (args : list string).
Context (sS sS' sC sC' : Process) (rS rC : unit + Ended).
Hypothesis HfS : enough_fuel fuelS.
Hypothesis HfC : enough_fuel fuelC.
Hypothesis Hserver : server_main anS fuelS sS = (sS', rS).
Hypothesis Hclient : client_main anC fuelC args sC = (sC', rC).
Hypothesis Hnew : pr_acts sS = [] /\ pr_acts sC = [].

(** C1: the two programs together.  When a server has registered a handler and a
    client, started with a method, a path and an address, has opened a stream
    and begun a transfer, then the stream is for the protocol the handler is
    registered for; and the client's transfer and the server's handler, joined
    by that stream and interleaved in any way, always end: for GET in upper or
    lower case with the server's file on the client, for POST with the client's
    file on the server. *)
Theorem programs_end_to_end hS proto hdl hC peer proto' p :
  SetStreamHandler hS proto hdl ∈ pr_acts sS' ->
  NewStream hC peer proto' ∈ pr_acts sC' -> Transfer p ∈ pr_acts sC' ->
  proto = proto' /\
  exists arg0 arg1 path targetAddr rest, args = arg0 :: arg1 :: path :: targetAddr :: rest /\
    forall wS wC content,
      len content <= (2 ^ 32 - 1) * ChunkSize -> len (bytes_of_string path) < 2 ^ 32 ->
      (ToUpper arg1 = "GET" -> w_files wS !! path = Some content ->
       exists n t, exchanged path content wS wC t /\ terminal t /\
         forall m s, sys_steps m (node_start hdl p wS wC) s -> (m <= n)%nat /\ sys_steps (n - m) s t) /\
      (ToUpper arg1 = "POST" -> w_files wC !! path = Some content ->
       exists n t, exchanged path content wC wS t /\ terminal t /\
         forall m s, sys_steps m (node_start p hdl wC wS) s -> (m <= n)%nat /\ sys_steps (n - m) s t).
Proof using All.
  destruct Hnew as [HnS HnC]. intros Hh Hst Ht.
  apply server_main_runs in Hserver as [(msg & err & _ & Hacts)|(priv & relays & h & tail & Hs & Htail)].
  { exfalso. rewrite HnS in Hacts. destruct Hacts as [Hacts|[opts Hacts]]; rewrite Hacts in Hh.
    - by apply not_elem_of_nil in Hh.
    - by apply list_elem_of_singleton in Hh. }
  assert (Hot : Forall (fun a => match a with SetStreamHandler _ _ _ => False | _ => True end) tail).
  { destruct (an_signal anS); destruct Htail as [_ ->]; by repeat constructor. }
  destruct (served_handler _ _ _ _ _ _ _ _ _ _ _ _ Hs HnS Hot Hh) as [-> ->].
  apply client_main_runs in Hclient as [[(_ & _ & Hacts)|(arg0 & arg1 & path & addr & rest & l & msg & err & _ & Hf & _ & Hacts)]
    |(arg0 & arg1 & path & addr & rest & start & -> & Htr)].
  { exfalso. rewrite Hacts, HnC in Ht. by apply (usage_no_transfer p). }
  { exfalso. rewrite Hacts, HnC in Ht. by apply (client_fails_no_transfer _ _ _ _ _ _ Hf p). }
  destruct (transfers_stream _ _ _ _ _ _ _ _ _ _ _ _ _ Htr HnC Hst Ht) as [-> ->].
  split; [done|]. exists arg0, arg1, path, addr, rest. split; [done|].
  intros wS wC content Hsz Hp. split; intros -> Hf; [by apply GET_correct|by apply POST_correct].
Qed.

End together.

End mains.
