(* ===== verification/Scenarios.v ===== *)
(** * Scenarios: concrete runs

    A server with a small file, a client, the hash instantiated by Keccak-256:
    the two sides of a transfer run to their ends by evaluation, and the
    theorems of the development are applied to these runs. *)

From S2P Require Import Prelude Effects AesGcm Protocol Utils Keccak256 Merkle MerkleSpec Wire WireSpec.
From S2P Require Import Controllers Tables Flow SenderSpec ReceiverSpec Integrity Network Honest EndToEnd.
From S2P Require Import ChunkSpec Nodes P2P P2PSpec Relay.

#[local] Existing Instance Keccak256_instance.
#[local] Existing Instance Keccak256_spec.

(** ** A machine as an environment *)

(** The answer to an operation a machine does not answer. *)
Definition no_answer (o : op) : ans o :=
  match o with
  | OReadFull _ | ORand _ | OOpenFile _ | OCreate _ | OStat _ => Err EOF
  | OWrite _ | OMkdirAll _ | OFileWrite _ _ | OFileClose _ => None
  | OClose | OReset => tt
  | ONow => 0
  | OReadAt _ _ _ => ([], Some EOF)
  end.

(** A machine and the bytes its peer has sent; what it writes is accepted. *)
Definition machine : environment (World * bytes) := fun o s =>
  let '(w, inb) := s in
  match o return ans o * (World * bytes) with
  | OReadFull n => let '(r, inb') := read_closed n inb in (r, (w, inb'))
  | OWrite b => (None, s)
  | OClose | OReset => (tt, s)
  | o => match world_answer o w with
         | Some (a, w') => (a, (w', inb))
         | None => (no_answer o, s)
         end
  end.

(** ** The runs *)

Definition hello : bytes := bytes_of_string "hello".

Definition server_world : World :=
  {| w_files := {[ "dir/a.txt" := hello ]}; w_handles := []; w_rand := fun i => z2b (Z.of_nat i);
     w_rpos := 0; w_clock := 1700000000 |}.

Definition client_world : World :=
  {| w_files := ∅; w_handles := []; w_rand := fun _ => Byte.x00; w_rpos := 0; w_clock := 0 |}.

(** What a receiver of one chunk sends. *)
Definition receiver_says : bytes := chunkRequestBytes 0 ++ lotteryTicketBytes 0 ++ finalAckBytes.

Definition sender_run (fuel : nat) := run machine (SendFile fuel "dir/a.txt") (server_world, receiver_says).
Definition sender_trace : list event := (sender_run 12).1.2.

Definition receiver_run (fuel : nat) :=
  run machine (RecieveFile fuel) (client_world, concat (sent sender_trace)).
Definition receiver_trace : list event := (receiver_run 12).1.2.

(** A number that is large enough as fuel. *)
Lemma large_fuel : {n : nat | forall k, enough_fuel (k + n)}.
Proof. exists (Z.to_nat (2 ^ 35)). intros k. unfold enough_fuel. lia. Qed.

Definition large : nat := proj1_sig large_fuel.

Lemma large_enough k : enough_fuel (k + large).
Proof. exact (proj2_sig large_fuel k). Qed.

(** The runs do not use their fuel up. *)
Lemma sender_run_fuel n : sender_run (12 + n) = sender_run 12.
Proof. vm_compute. reflexivity. Qed.

Lemma receiver_run_fuel n : receiver_run (12 + n) = receiver_run 12.
Proof. vm_compute. reflexivity. Qed.

Lemma sender_trace_wf : Forall wf_event sender_trace.
Proof. apply (bool_decide_unpack _). vm_compute. exact I. Qed.

Lemma receiver_trace_wf : Forall wf_event receiver_trace.
Proof. apply (bool_decide_unpack _). vm_compute. exact I. Qed.

Lemma sender_exec n : exec (SendFile (12 + n) "dir/a.txt") sender_trace (Done None).
Proof.
  pose proof (run_exec_wf machine (SendFile (12 + n) "dir/a.txt") (server_world, receiver_says)) as He.
  change (run machine _ _) with (sender_run (12 + n)) in He. rewrite sender_run_fuel in He.
  exact (He sender_trace_wf).
Qed.

Lemma receiver_exec n : exec (RecieveFile (12 + n)) receiver_trace (Done None).
Proof.
  pose proof (run_exec_wf machine (RecieveFile (12 + n)) (client_world, concat (sent sender_trace))) as He.
  change (run machine _ _) with (receiver_run (12 + n)) in He. rewrite receiver_run_fuel in He.
  exact (He receiver_trace_wf).
Qed.

Lemma sender_partial k n : partial (SendFile (12 + n) "dir/a.txt") (take k sender_trace).
Proof.
  apply (exec_partial _ _ (drop k sender_trace) (Done None)). rewrite take_drop. apply sender_exec.
Qed.

Lemma receiver_partial k n : partial (RecieveFile (12 + n)) (take k receiver_trace).
Proof.
  apply (exec_partial _ _ (drop k receiver_trace) (Done None)). rewrite take_drop. apply receiver_exec.
Qed.

(** ** The transfer *)

Definition demo_root : bytes :=
  match sender_trace !! 14%nat with Some (EvWrite b _) => drop 1 b | _ => [] end.

Lemma transfer_correct_witness :
  exists n t, transferred "dir/a.txt" hello server_world client_world t /\ terminal t /\
    forall m s, sys_steps m (transfer_start (0 + large) (0 + large) "dir/a.txt" server_world client_world) s ->
      (m <= n)%nat /\ sys_steps (n - m) s t.
Proof.
  apply transfer_correct; [apply large_enough|apply large_enough|reflexivity|by vm_compute|by vm_compute].
Defined.

Lemma transfer_integrity_witness :
  exists fS info fid cs h fR cs',
    sender_complete "dir/a.txt" sender_trace fS info fid cs /\ receiver_complete receiver_trace h fR cs' /\
    (md_Reps h = md_Reps (file_metadata info fid) ->
     file_writes receiver_trace = (fun c => (fR, c_Plaintext c)) <$> cs \/
     collision_in (hashed_msgs cs ++ hashed_msgs cs')).
Proof.
  apply (transfer_integrity (12 + large) (12 + large) "dir/a.txt" sender_trace receiver_trace
    (take 171 (flow sender_trace)) (take 171 (flow receiver_trace)) demo_root).
  - apply large_enough.
  - apply large_enough.
  - apply sender_exec.
  - apply receiver_exec.
  - vm_compute. reflexivity.
  - vm_compute. reflexivity.
  - vm_compute. reflexivity.
Defined.

(** ** The sender *)

(** The history up to the key reveal, without and with it. *)
Definition before_key : list event := take 13 sender_trace.
Definition demo_key : bytes :=
  match sender_trace !! 13%nat with Some (EvWrite b _) => drop 5 b | _ => [] end.

Lemma before_key_next :
  before_key ++ [EvWrite (keyRevealBytes 0 demo_key) None] = take 14 sender_trace.
Proof. vm_compute. reflexivity. Qed.

Lemma SendFile_conversation_witness :
  flow before_key = [] \/
  exists f info info0 t, EvOpen "dir/a.txt" (Ok f) ∈ before_key /\ EvStat f (Ok info) ∈ before_key /\
    EvStat f (Ok info0) ∈ before_key /\ EvNow t ∈ before_key /\
    sender_conversation (file_metadata info (file_id info0 t)) f before_key.
Proof.
  apply (SendFile_conversation (12 + large) "dir/a.txt" before_key (large_enough 12)
    (sender_partial 13 large)).
Defined.

Lemma SendFile_key_after_ticket_witness :
  is_u32 0 /\ exists conv, flow before_key = conv ++ tag Rx (lotteryTicketBytes 0).
Proof.
  split; [done|].
  apply (SendFile_key_after_ticket (12 + large) "dir/a.txt" before_key (large_enough 12) 0 demo_key None);
    [|done].
  rewrite before_key_next. exact (sender_partial 14 large).
Defined.

Lemma SendFile_success_witness :
  exists f info info0 t cs, sender_complete "dir/a.txt" sender_trace f info (file_id info0 t) cs /\
    EvStat f (Ok info0) ∈ sender_trace /\ EvNow t ∈ sender_trace.
Proof.
  apply (SendFile_success (12 + large) _ _ (large_enough 12) (sender_exec large)).
Defined.

(** A file that cannot be opened. *)
Lemma SendFile_outcome_witness :
  (exists e, EvOpen "none" (Err e) ∈ [EvOpen "none" (Err ErrNotExist)]) \/
  exists f e, EvStat f (Err e) ∈ [EvOpen "none" (Err ErrNotExist)].
Proof.
  apply (SendFile_outcome (0 + large) "none" _ (large_enough 0) (Halted (Fatal "Error reading the file:"))).
  cbn -[large]. by exists (Err ErrNotExist), [].
Defined.

(** ** The receiver *)

(** The history up to the first write to the file. *)
Definition after_write : list event := take 20 receiver_trace.

Lemma RecieveFile_writes_verified_witness :
  untouched after_write \/
  exists h f cs, header_valid h /\ verified_chunks (md_FileID h) cs /\ len cs <= md_Reps h /\
    creates after_write = [("./received/" +:+ md_Name h, f)] /\
    file_writes after_write = (fun c => (f, c_Plaintext c)) <$> cs /\
    receiver_script h cs `prefix_of` flow after_write.
Proof.
  exact (RecieveFile_writes_verified (12 + large) after_write (large_enough 12) (receiver_partial 20 large)).
Defined.

Lemma RecieveFile_conversation_witness : receiver_conversation after_write.
Proof.
  exact (RecieveFile_conversation (12 + large) after_write (large_enough 12) (receiver_partial 20 large)).
Defined.

Lemma RecieveFile_success_witness : exists h f cs, receiver_complete receiver_trace h f cs.
Proof. exact (RecieveFile_success (12 + large) _ (large_enough 12) (receiver_exec large)). Defined.

Lemma RecieveFile_outcome_witness :
  @Done (option error) None = Done None \/ exists e, @Done (option error) None = Done (Some e) /\ step_failed e.
Proof.
  exact (RecieveFile_outcome (12 + large) receiver_trace (large_enough 12) _ (receiver_exec large)).
Defined.

(** ** Messages *)

Definition demo_header : MetaData :=
  {| md_Name := "a.txt"; md_FileSize := 5; md_Reps := 1; md_FileID := replicate 32 Byte.x07 |}.

Lemma demo_header_valid fid : message_valid fid (MHeader demo_header).
Proof. by vm_compute. Qed.

Lemma demo_send m : exec (send m) [EvWrite (encode m) None] (Done None).
Proof. rewrite send_encode. by exists None, []. Qed.

Lemma message_accepted_witness :
  message_valid [] (MTicket 3) /\ same_kind (MTicket 3) (MTicket 0) /\
  [Byte.x04; Byte.x00; Byte.x00; Byte.x00; Byte.x03; Byte.xff] = encode (MTicket 3) ++ [Byte.xff].
Proof. apply (message_accepted [] (MTicket 0)). vm_compute. reflexivity. Defined.

(** ** Merkle trees *)

Definition demo_leaves : list bytes :=
  [replicate 32 Byte.x01; replicate 32 Byte.x02; replicate 32 Byte.x03].

Lemma BuildTree_shape_witness :
  head (BuildTree demo_leaves) = Some demo_leaves /\
  (forall i cur next, BuildTree demo_leaves !! i = Some cur ->
     BuildTree demo_leaves !! S i = Some next -> level_above cur next) /\
  (exists root, last (BuildTree demo_leaves) = Some [root] /\
    Root_of_tree (BuildTree demo_leaves) = Some root) /\
  length (BuildTree demo_leaves) = 3%nat.
Proof. apply BuildTree_shape. discriminate. Defined.

Lemma merkle_binding_witness :
  demo_leaves = demo_leaves \/ collision_in (BuildTree_msgs demo_leaves ++ BuildTree_msgs demo_leaves).
Proof. apply merkle_binding; [reflexivity|by repeat constructor|by repeat constructor|reflexivity]. Defined.

Lemma merkle_odd_duplicate_witness :
  Root_of_tree (BuildTree (take 2 demo_leaves ++ [replicate 32 Byte.x03]))
  = Root_of_tree (BuildTree (take 2 demo_leaves ++ [replicate 32 Byte.x03; replicate 32 Byte.x03])).
Proof. apply merkle_odd_duplicate; [discriminate|by exists 1%nat]. Defined.

(** ** Chunks *)

Definition demo_id : bytes := md_FileID demo_header.
Definition demo_build := run machine (BuildAndEncryptChunk demo_id 0 hello) (server_world, []).
Definition demo_chunk : Chunk :=
  match demo_build.1.1 with Done (Ok c) => c | _ => NewChunk [] 0 [] end.

(** The chunk as the receiver checks it. *)
Definition demo_received : Chunk := set_Key (received demo_chunk) (c_Key demo_chunk).

Lemma demo_build_exec :
  exec (BuildAndEncryptChunk demo_id 0 hello) demo_build.1.2 (Done (Ok demo_chunk)).
Proof.
  assert (Hr : demo_build.1.1 = Done (Ok demo_chunk)) by (vm_compute; reflexivity).
  rewrite <-Hr. apply run_exec_wf. apply (bool_decide_unpack _). vm_compute. exact I.
Qed.

(** The response for the chunk without its last byte. *)
Lemma message_truncated_witness :
  exists e, feed (read_like demo_id (MResponse demo_chunk)) (removelast (encode (MResponse demo_chunk))) = Some (Err e, []).
Proof.
  apply (message_truncated demo_id (MResponse demo_chunk) [EvWrite (encode (MResponse demo_chunk)) None]
    _ (drop (length (encode (MResponse demo_chunk)) - 1) (encode (MResponse demo_chunk)))).
  - split; [by vm_compute|]. split; [by vm_compute|]. split; by vm_compute.
  - apply demo_send.
  - vm_compute. reflexivity.
  - vm_compute. discriminate.
Defined.

(** The chunk a sender has built, with its key, its plaintext and its leaf. *)
Lemma message_roundtrip_witness :
  c_Plaintext demo_chunk = hello /\ c_Key demo_chunk <> [] /\ c_Length demo_chunk <> len (c_Ciphertext demo_chunk) /\
  feed (read_like demo_id (MResponse demo_chunk))
    (concat (sent [EvWrite (encode (MResponse demo_chunk)) None]) ++ [Byte.xff])
  = Some (Ok (as_read demo_id (MResponse demo_chunk)), [Byte.xff]).
Proof.
  split; [vm_compute; reflexivity|]. split; [vm_compute; discriminate|]. split; [vm_compute; discriminate|].
  apply (message_roundtrip demo_id (MResponse demo_chunk)); [|apply demo_send].
  split; [by vm_compute|]. split; [by vm_compute|]. split; by vm_compute.
Defined.

Lemma demo_opens : DecryptAndCheck demo_received = Ret (set_Plaintext demo_received hello, Ok hello).
Proof. vm_compute. reflexivity. Qed.

Lemma DecryptAndCheck_accepts_witness :
  exists c' r, DecryptAndCheck demo_received = Ret (c', r) /\
    forall pt, len pt <= gcmMaxPlaintext ->
      (r = Ok pt <-> c_HResp demo_received = Keccak [c_Key demo_received; pt] /\
         exists E, NewCipher (c_Key demo_received) = Ok E /\
           c_Ciphertext demo_received = seal E (c_Nonce demo_received) pt).
Proof. apply DecryptAndCheck_accepts; vm_compute; reflexivity. Defined.

Lemma commitment_binding_witness :
  (c_Key demo_chunk = c_Key demo_chunk /\ hello = hello) \/
  collision_in [c_Key demo_chunk ++ hello; c_Key demo_chunk ++ hello].
Proof.
  exact (commitment_binding (received demo_chunk) (c_Key demo_chunk) (c_Key demo_chunk) _ _ hello hello
    ltac:(vm_compute; reflexivity) ltac:(vm_compute; reflexivity) ltac:(vm_compute; reflexivity)
    demo_opens demo_opens).
Defined.

Definition demo_info : FileInfo := {| fi_Name := "a.txt"; fi_Size := 5 |}.

Lemma PrepareMetadata_spec_witness :
  (exists e, [EvStat 0 (Ok demo_info)] = [EvStat 0 (Err e)] /\
     Done {| md_Name := "a.txt"; md_FileSize := 5; md_Reps := 1; md_FileID := [] |}
     = Halted (Panic "nil pointer dereference")) \/
  exists info md, [EvStat 0 (Ok demo_info)] = [EvStat 0 (Ok info)] /\
    Done {| md_Name := "a.txt"; md_FileSize := 5; md_Reps := 1; md_FileID := [] |} = Done md /\
    md_Name md = fi_Name info /\ md_FileSize md = fi_Size info mod 2 ^ 32 /\
    (fi_Size info <= (2 ^ 32 - 1) * ChunkSize ->
     (md_Reps md - 1) * ChunkSize < fi_Size info <= md_Reps md * ChunkSize) /\
    (2 ^ 32 <= fi_Size info -> md_FileSize md <> fi_Size info) /\
    (fi_Size info = 2 ^ 47 -> md_Reps md = 0).
Proof.
  apply PrepareMetadata_spec. exists (Ok demo_info), []. split; [done|]. by split.
Defined.

(** ** The stream handler *)

(** A request that ends after its type. *)
Definition short_request : list event :=
  [EvRead 4 (Ok (PutUint32 0)); EvRead 4 (Err EOF); EvReset; EvClose].

Lemma short_request_exec fuel : exec (HandleStream fuel) short_request (Done ()).
Proof.
  exists (Ok (PutUint32 0)), (drop 1 short_request). split; [done|]. split; [done|].
  exists (Err EOF), [EvReset; EvClose]. split; [done|]. split; [done|].
  exists tt, [EvClose]. split; [done|]. split; [done|]. exists tt, []. by split_and!.
Qed.

(** A GET of a file that is not there. *)
Definition missing_get : list event :=
  requested 0 (bytes_of_string "none") ++ [EvOpen "none" (Err ErrNotExist)].

Lemma missing_get_exec fuel : exec (HandleStream fuel) missing_get (Halted (Fatal "Error reading the file:")).
Proof.
  exists (Ok (PutUint32 0)), (drop 1 missing_get). split; [done|]. split; [done|].
  exists (Ok (PutUint32 4)), (drop 2 missing_get). split; [done|]. split; [done|].
  exists (Ok (bytes_of_string "none")), (drop 3 missing_get). split; [done|]. split; [done|].
  exists (Err ErrNotExist), []. split; [done|]. split; [done|]. done.
Qed.

(** A request that is cut short and one that is served. *)
Lemma HandleStream_dispatch_witness :
  (exists evs, cut_short evs /\ short_request = evs ++ [EvReset; EvClose]) /\
  exists typ path tr1 tr2, typ = 0 /\ missing_get = requested typ path ++ tr1 ++ tr2 /\
    exists o, exec (SendFile 9 (string_of_bytes path)) tr1 o /\ node_ends o tr2 (Halted (Fatal "Error reading the file:")).
Proof.
  split.
  - destruct (HandleStream_dispatch 9 short_request (Done ()) (short_request_exec 9))
      as [(evs & Hc & He & _)|(typ & path & tr1 & tr2 & _ & _ & He & _)]; [by exists evs|].
    exfalso. unfold short_request, requested in He. discriminate He.
  - destruct (HandleStream_dispatch 9 missing_get _ (missing_get_exec 9))
      as [(evs & _ & _ & Hr)|(typ & path & tr1 & tr2 & Ht & _ & He & H0 & _)]; [discriminate Hr|].
    assert (typ = 0) as ->.
    { assert (Hu : Uint32 (PutUint32 0) = Uint32 (PutUint32 typ)) by
        (apply (f_equal (fun l => match l with EvRead _ (Ok b) :: _ => Uint32 b | _ => 0 end) He)).
      rewrite !Uint32_PutUint32' in Hu by done. by symmetry. }
    exists 0, path, tr1, tr2. split; [reflexivity|]. split; [exact He|]. by apply H0.
Defined.

Definition traversal_header : MetaData :=
  {| md_Name := "../../etc/x"; md_FileSize := 5; md_Reps := 1; md_FileID := replicate 32 Byte.x07 |}.

(** A name with ../ is created outside of ./received/. *)
Example traversal_created :
  exists s w' next,
    eval (stepReceiverReceiveHeader (set_state (NewSession RoleReceiver) StateReceiveHeader))
      client_world (headerBytes traversal_header) = Some (Done (s, Ok next), w', [], []) /\
    w_files w' = <["./received/../../etc/x" := []]> (w_files client_world).
Proof. apply (received_path_unchecked traversal_header client_world). by vm_compute. Qed.

(** ** An error leaves the file open *)

(** A peer that sends a header and goes away. *)
Definition lost_run (fuel : nat) :=
  run machine (RecieveFile fuel) (client_world, headerBytes demo_header).
Definition lost_trace : list event := (lost_run 12).1.2.

(** The receiver does not close its file on an error.  When the peer goes
    away after the header, [RecieveFile] returns an error although the file it
    created is still open. *)
Example RecieveFile_leaves_file_open n :
  exists e, exec (RecieveFile (12 + n)) lost_trace (Done (Some e)) /\
    (exists f, EvCreate "./received/a.txt" (Ok f) ∈ lost_trace) /\
    forall f e', EvFileClose f e' ∉ lost_trace.
Proof.
  assert (Hrun : run machine (RecieveFile (12 + n)) (client_world, headerBytes demo_header) = lost_run 12)
    by (vm_compute; reflexivity).
  pose proof (run_exec_wf machine (RecieveFile (12 + n)) (client_world, headerBytes demo_header)) as He.
  rewrite Hrun in He. specialize (He ltac:(apply (bool_decide_unpack _); vm_compute; exact I)).
  eexists. split; [exact He|]. split.
  - exists 0%nat. apply (list_elem_of_lookup_2 _ 7). vm_compute. reflexivity.
  - intros f e' Hin.
    assert (Hno : Forall (fun e => match e with EvFileClose _ _ => False | _ => True end) lost_trace)
      by (vm_compute; repeat constructor).
    rewrite Forall_forall in Hno. exact (Hno _ Hin).
Qed.

(** ** The configuration of the nodes *)

(** A library in which a key is its bytes and an address its text. *)
Definition plain_libp2p : Libp2p :=
  {| PrivKey := bytes; PeerID := string; Multiaddr := string; AddrInfo := string * list string;
     Host := unit; UnmarshalPrivateKey := Ok; MarshalPrivateKey := Ok;
     NewMultiaddr := Ok; AddrInfoFromP2pAddr a := Ok (a, [a]); Multiaddr_String a := a;
     ID_String i := i; ai_ID := fst; ai_Addrs := snd |}.

Lemma plain_keys : @Libp2pKeys plain_libp2p.
Proof. intros k b [= ->]. reflexivity. Qed.

Definition empty_disk : Disk := mkDisk ∅ (fun _ => None) (fun _ => None).
Definition key_disk : Disk := mkDisk {[ "server_identity.key" := hello ]} (fun _ => None) (fun _ => None).

Lemma identity_stable_witness :
  (d_readErr empty_disk "server_identity.key" = None -> forall gen',
     @LoadOrCreateIdentity plain_libp2p gen' "server_identity.key" key_disk = (key_disk, Ok hello)) /\
  (forall e, d_readErr empty_disk "server_identity.key" = Some e ->
     Ok hello = Ok hello /\ exists data, @MarshalPrivateKey plain_libp2p hello = Ok data /\
       d_files key_disk !! "server_identity.key" = Some data).
Proof.
  apply (@identity_stable plain_libp2p plain_keys (Ok hello) "server_identity.key" empty_disk key_disk hello).
  reflexivity.
Defined.

(** A key file that cannot be read at the moment is overwritten. *)
Definition locked_disk : Disk :=
  mkDisk {[ "server_identity.key" := hello ]} (fun _ => Some (ErrExt 13)) (fun _ => None).

Example locked_key_replaced :
  d_files (@LoadOrCreateIdentity plain_libp2p (Ok demo_id) "server_identity.key" locked_disk).1
    !! "server_identity.key" = Some demo_id.
Proof. reflexivity. Qed.

