(* ===== verification/Demos.v ===== *)
(** * Demos: concrete runs of the stream layer, the server process and the mains

    The theorems on fragmentation, copying, concurrent streams and the three
    programs applied to small runs, and a run of two concurrent uploads of the
    same name. *)

From S2P Require Import Prelude Effects AesGcm Protocol Utils Keccak256 Merkle Wire Stream.
From S2P Require Import Controllers Flow SenderSpec ReceiverSpec Network Honest EndToEnd.
From S2P Require Import ChunkSpec Copy Nodes Store Concurrent Handles Log Mutex Failures P2P P2PSpec Timing Relay Mains Scenarios.

#[local] Existing Instance Keccak256_instance.
#[local] Existing Instance Keccak256_spec.

(** ** Fragmentation *)

(** A machine without a stream. *)
Definition disk_env : environment World := fun o w =>
  match world_answer o w with Some (a, w') => (a, w') | None => (no_answer o, w) end.

(** What the sender of the demo sends, one byte at a time, with an empty read in
    front and the end together with the last byte. *)
Definition demo_bytes : bytes := concat (sent sender_trace).
Definition bytewise : Conn := mkConn ([] :: ((fun b => [b]) <$> demo_bytes)) true [] false.

(** The receiver cannot tell. *)
Example bytewise_same :
  holds bytewise demo_bytes 1 /\
  (run (stream_env 1000 disk_env) (RecieveFile 12) (bytewise, client_world)).1
  = (run (inbox_env disk_env) (RecieveFile 12) (bytewise, demo_bytes, client_world)).1.
Proof.
  assert (Hh : holds bytewise demo_bytes 1) by (split; vm_compute; reflexivity).
  split; [exact Hh|].
  apply (fragmentation_invisible disk_env (RecieveFile 12) 1000 bytewise demo_bytes 1 client_world Hh).
  apply (bool_decide_unpack _). vm_compute. exact I.
Qed.

(** The byte-wise run ends well. *)
Example bytewise_received :
  (run (stream_env 1000 disk_env) (RecieveFile 12) (bytewise, client_world)).1.1 = Done None.
Proof. vm_compute. reflexivity. Qed.

(** ** Copying *)

(** An event of the sender's machine shows the file as it is. *)
Definition serves_event (content : bytes) (e : event) : Prop :=
  match e with
  | EvReadAt _ n off d _ => d = take (Z.to_nat n) (drop (Z.to_nat off) content)
  | EvStat _ (Ok info) => fi_Size info = len content /\ len (bytes_of_string (fi_Name info)) < 2 ^ 32
  | _ => True
  end.

Lemma serves_events path content tr : Forall (serves_event content) tr -> serves path content tr.
Proof.
  intros Htr f _. rewrite Forall_forall in Htr. split.
  - intros n off d e He _. exact (Htr _ He).
  - intros info Hi. exact (Htr _ Hi).
Qed.

#[global] Instance serves_event_dec content e : Decision (serves_event content e).
Proof. destruct e as [| | | | | | |f [i|]| | | | |]; simpl; apply _. Defined.

Lemma demo_serves : serves "dir/a.txt" hello sender_trace.
Proof. apply serves_events, (bool_decide_unpack _). vm_compute. exact I. Qed.

Lemma demo_hears : hears receiver_trace sender_trace.
Proof. unfold hears. apply (bool_decide_unpack _). vm_compute. exact I. Qed.

Lemma demo_hears_back : hears sender_trace receiver_trace.
Proof. unfold hears. apply (bool_decide_unpack _). vm_compute. exact I. Qed.

Lemma sender_partial_all n : partial (SendFile (12 + n) "dir/a.txt") sender_trace.
Proof. apply (exec_partial _ sender_trace [] (Done None)). rewrite app_nil_r. apply sender_exec. Qed.

Lemma receiver_partial_all n : partial (RecieveFile (12 + n)) receiver_trace.
Proof. apply (exec_partial _ receiver_trace [] (Done None)). rewrite app_nil_r. apply receiver_exec. Qed.

Lemma transfer_refines_copy_witness :
  rtc (copy_step hello) [] (copied receiver_trace) /\
  (forall tr e tr', receiver_trace = tr ++ e :: tr' ->
     copied (tr ++ [e]) = copied tr \/ copy_step hello (copied tr) (copied (tr ++ [e]))) /\
  (exec (RecieveFile (12 + large)) receiver_trace (Done None) -> copied receiver_trace = hello).
Proof.
  apply (transfer_refines_copy (12 + large) (12 + large) "dir/a.txt" hello sender_trace).
  - apply large_enough.
  - apply large_enough.
  - by vm_compute.
  - apply sender_partial_all.
  - apply demo_serves.
  - apply receiver_partial_all.
  - apply demo_hears.
Defined.

Lemma sender_nil_delivered_witness : copied receiver_trace = hello.
Proof.
  apply (sender_nil_delivered (12 + large) (12 + large) "dir/a.txt" hello sender_trace).
  - apply large_enough.
  - apply large_enough.
  - by vm_compute.
  - apply sender_partial_all.
  - apply demo_serves.
  - apply sender_exec.
  - apply receiver_partial_all.
  - apply demo_hears.
  - apply demo_hears_back.
Defined.

(** ** Streams of one server *)

(** What a client that uploads [content] as a.txt sends. *)
Definition upload (content : bytes) : bytes :=
  let w := {| w_files := {[ "a.txt" := content ]}; w_handles := []; w_rand := w_rand server_world;
              w_rpos := 0; w_clock := 1700000000 |} in
  requestBytes "a.txt" "POST"
  ++ concat (sent (run machine (SendFile 12 "a.txt") (w, receiver_says)).1.2).

Definition hi : bytes := bytes_of_string "hi!".

(** The first upload gets as far as its file, then the second; then the first
    goes on to its end, then the second. *)
Definition race (n : nat) : option server :=
  play (12 + n) ([None; None] ++ replicate 11 (Some 0%nat) ++ replicate 11 (Some 1%nat)
                 ++ replicate 17 (Some 0%nat) ++ replicate 17 (Some 1%nat))
    (mkServer client_world []) [upload hello; upload hi].

(** What is compared of a server at the end of a run. *)
Definition observed (s : server) : list (prog unit * bytes * bool) * option bytes :=
  ((fun t => (t_prog t, copied (t_hist t), bool_decide (finalAckBytes ∈ sent (t_hist t)))) <$> sv_threads s,
   w_files (sv_world s) !! "./received/a.txt").

Lemma observed_run (o : option server) l c :
  observed <$> o = Some (l, c) -> exists s, o = Some s /\ (observed s).1 = l /\
    w_files (sv_world s) !! "./received/a.txt" = c.
Proof. destruct o as [s|]; intros Ho; [|discriminate]. injection Ho as <- <-. eauto. Qed.

Lemma observed_two s p0 c0 a0 p1 c1 a1 :
  (observed s).1 = [(p0, c0, a0); (p1, c1, a1)] ->
  exists t0 t1, sv_threads s = [t0; t1] /\ (t_prog t0 = p0 /\ t_prog t1 = p1) /\
    (copied (t_hist t0) = c0 /\ copied (t_hist t1) = c1) /\
    (bool_decide (finalAckBytes ∈ sent (t_hist t0)) = a0 /\ bool_decide (finalAckBytes ∈ sent (t_hist t1)) = a1).
Proof.
  unfold observed. destruct (sv_threads s) as [|t0 [|t1 [|]]]; intros Ht; try discriminate.
  cbn [fst fmap list_fmap] in Ht. injection Ht as <- <- <- <- <- <-. by exists t0, t1.
Qed.

Lemma race_observed n :
  observed <$> race n = Some ([(Ret (), hello, true); (Ret (), hi, true)], Some (bytes_of_string "hi!lo")).
Proof. vm_compute. reflexivity. Qed.

(** Two uploads of the same name mix.  Two clients upload different files
    under one name at the same time; both transfers verify every chunk and the
    Merkle root, both are acknowledged and both streams end normally, and the
    file on the server is neither of the two files. *)
Example concurrent_posts_mix n :
  exists s t0 t1, rtc (sv_step (12 + n)) (mkServer client_world []) s /\ sv_threads s = [t0; t1] /\
    t_prog t0 = Ret () /\ t_prog t1 = Ret () /\
    finalAckBytes ∈ sent (t_hist t0) /\ finalAckBytes ∈ sent (t_hist t1) /\
    copied (t_hist t0) = hello /\ copied (t_hist t1) = hi /\
    w_files (sv_world s) !! "./received/a.txt" = Some (bytes_of_string "hi!lo").
Proof.
  destruct (observed_run _ _ _ (race_observed n)) as (s & Hr & Ht & Hw).
  destruct (observed_two _ _ _ _ _ _ _ Ht) as (t0 & t1 & Hs & [Hp0 Hp1] & [Hc0 Hc1] & [Ha0 Ha1]).
  exists s, t0, t1. apply bool_decide_eq_true in Ha0, Ha1.
  split_and!; [exact (play_steps _ _ _ _ _ Hr)|exact Hs|exact Hp0|exact Hp1|exact Ha0|exact Ha1|exact Hc0|exact Hc1|exact Hw].
Qed.

(** One upload alone. *)
Definition alone (n : nat) : option server :=
  play (12 + n) (None :: replicate 28 (Some 0%nat)) (mkServer client_world []) [upload hello].

Lemma alone_observed n : observed <$> alone n = Some ([(Ret (), hello, true)], Some hello).
Proof. vm_compute. reflexivity. Qed.

Definition alone_server (n : nat) : server := default (mkServer client_world []) (alone n).

Definition alone_thread : thread := default (mkThread (Ret ()) []) (sv_threads (alone_server 0) !! 0%nat).

Lemma alone_steps n : rtc (sv_step (12 + n)) (mkServer client_world []) (alone_server n).
Proof.
  destruct (observed_run _ _ _ (alone_observed n)) as (s & Hr & _).
  unfold alone_server. rewrite Hr. exact (play_steps _ _ _ _ _ Hr).
Qed.

Lemma alone_threads n : sv_threads (alone_server n) = [alone_thread].
Proof. vm_compute. reflexivity. Qed.

Lemma exclusive_one s p : length (sv_threads s) = 1%nat -> exclusive (histories s) 0 p.
Proof.
  intros Hl j tr f Hj Htr. apply lookup_lt_Some in Htr. unfold histories in Htr.
  rewrite length_fmap, Hl in Htr. lia.
Qed.

Lemma concurrent_isolation_witness :
  creates (t_hist alone_thread) = [("./received/a.txt", 0%nat)] /\
  partial (HandleStream (12 + large)) (t_hist alone_thread) /\
  w_files (sv_world (alone_server large)) !! "./received/a.txt" = Some (copied (t_hist alone_thread)).
Proof.
  assert (Hc : creates (t_hist alone_thread) = [("./received/a.txt", 0%nat)]) by (vm_compute; reflexivity).
  split; [exact Hc|].
  destruct (concurrent_isolation (12 + large) client_world (alone_server large) 0 alone_thread) as [Hp Hf].
  - apply large_enough.
  - apply alone_steps.
  - by rewrite alone_threads.
  - split; [exact Hp|]. apply (Hf _ 0%nat Hc). apply exclusive_one. rewrite alone_threads. reflexivity.
Defined.

Lemma missing_file_stops_server_witness :
  exists s' t, rtc (sv_step 12) (mkServer server_world []) s' /\ sv_threads s' = [] ++ [t] /\
    sent (t_hist t) = [] /\ flow (t_hist t) = tag Rx (requestBytes "none" "GET") /\
    forall s'', ~ sv_step 12 s' s''.
Proof.
  apply (missing_file_stops_server 12 (mkServer server_world []) "none");
    [apply Forall_nil_2|by vm_compute|reflexivity].
Defined.

(** ** A server as a store *)

(** A download, an upload and the download of what was uploaded. *)
Definition requests : list (request * option bytes) :=
  [(Get "dir/a.txt", Some hello)] ++ (Post "x/b.txt" hi, None) :: [] ++ [(Get (stored_as "x/b.txt"), Some hi)].

Definition stored : gmap string bytes := <[stored_as "x/b.txt" := hi]> (w_files server_world).

Lemma small_by_size c : len c <= 1000 -> small c.
Proof. unfold small, ChunkSize. lia. Qed.

Lemma demo_store_ok : store_ok (w_files server_world).
Proof. apply map_Forall_singleton, small_by_size. by vm_compute. Qed.

Lemma demo_requests_ok : Forall (fun x => request_ok x.1) requests.
Proof. repeat constructor; by vm_compute. Qed.

Lemma demo_store_run : store_run (w_files server_world) requests stored.
Proof.
  apply (sr_cons _ _ _ (w_files server_world)); [by apply st_get|].
  apply (sr_cons _ _ _ stored); [apply st_post|].
  apply (sr_cons _ _ _ stored); [by apply st_get|apply sr_nil].
Qed.

Lemma server_refines_store_witness :
  exists w', served_all (0 + large) server_world requests w' /\ w_files w' = stored.
Proof.
  apply (server_refines_store (0 + large) (large_enough 0) server_world requests stored demo_store_ok demo_requests_ok).
  exact demo_store_run.
Defined.

Lemma post_then_get_witness :
  exists w' reply, served_all (0 + large) server_world
    ([(Get "dir/a.txt", Some hello)] ++ (Post "x/b.txt" hi, None) :: [] ++ [(Get (stored_as "x/b.txt"), reply)]) w' /\
    reply = Some hi.
Proof.
  destruct (served_complete (0 + large) (large_enough 0) server_world requests stored
    demo_store_ok demo_requests_ok demo_store_run) as (w' & Hs & _).
  exists w', (Some hi). split; [exact Hs|].
  apply (post_then_get (0 + large) (large_enough 0) server_world [(Get "dir/a.txt", Some hello)] "x/b.txt" hi []
    (Some hi) w').
  - exact demo_store_ok.
  - exact demo_requests_ok.
  - exact Hs.
  - intros p c r Hin. by apply not_elem_of_nil in Hin.
Defined.

(** ** The programs *)

#[local] Existing Instance plain_libp2p.

(** A peer that is reached through a relay all the time. *)
Definition always_relayed : Z -> list Multiaddr := fun _ => ["/p2p-circuit"%string].

Lemma watch_report_witness :
  (exists evs, received_from None (15 * Second) always_relayed 1 evs) /\
  forall evs, received_from None (15 * Second) always_relayed 1 evs ->
    exists n : nat, Z.of_nat n * period <= 15 * Second <= (Z.of_nat n + 1) * period /\ length evs = S n /\
      WatchForDirectUpgrade evs
      = (report (kinds_from always_relayed 1 n) (kind_at always_relayed (15 * Second)), true).
Proof. apply (watch_report (15 * Second) always_relayed). by vm_compute. Defined.

(** The client's watch may report the timeout or not. *)
Example client_watch_either :
  exists evs evs', received_from (Some (10 * Second)) (10 * Second) always_relayed 1 evs /\
    received_from (Some (10 * Second)) (10 * Second) always_relayed 1 evs' /\
    (WatchForDirectUpgrade evs).1 = [StartHolePunch; TimedOut; KnownAddrs] /\ (WatchForDirectUpgrade evs').1 = [StartHolePunch].
Proof. apply (client_watch_silent (10 * Second) always_relayed); [by vm_compute|done]. Qed.

(** A renewal that fails and one that succeeds, and two that succeed. *)
Definition demo_renewals : list (res Z * Z) := [(Err EOF, Second); (Ok (7200 * Second), Second)].
Definition good_renewals : list (res Z * Z) := [(Ok (7200 * Second), Second); (Ok (10800 * Second), 0)].

Lemma reservation_renewals_witness :
  Forall (fun '(expiration, start, stop) =>
      start = expiration - 30 * Second /\ stop <= expiration - 15 * Second)
    (keepReservationAlive 0 (3600 * Second) good_renewals) /\
  keepReservationAlive 0 (3600 * Second) demo_renewals
  = [(3600 * Second, 3570 * Second, 3571 * Second); (3600 * Second, 3586 * Second, 3587 * Second)] /\
  3586 * Second = 3571 * Second + 15 * Second.
Proof.
  assert (He : 0 + 35 * Second <= 3600 * Second < 2 ^ 62) by (unfold Second; lia).
  split; [|split; [reflexivity|]].
  - apply (reservation_renewals 0 (3600 * Second) good_renewals); [done|exact He|].
    exists (7200 * Second). split; [done|]. split; [by vm_compute|]. split; [by vm_compute|].
    exists (10800 * Second). split; [done|]. split; [by vm_compute|]. by vm_compute.
  - apply (reservation_renewals 0 (3600 * Second) demo_renewals) with (i := 0%nat) (e := 3600 * Second)
      (start := 3570 * Second) (err := EOF) (d := Second) (e' := 3600 * Second) (stop' := 3587 * Second).
    + done.
    + exact He.
    + apply Forall_cons. split; [split; [unfold Second; lia|discriminate]|].
      apply Forall_singleton. split; [unfold Second; lia|]. intros e [= <-]. unfold Second. lia.
    + apply (bool_decide_unpack _). vm_compute. exact I.
    + vm_compute. reflexivity.
    + reflexivity.
    + vm_compute. reflexivity.
Defined.

(** A call that ends before the deadline of its context. *)
Definition in_time (c : Ctx) (t : Z) : bool := match c with Some c => bool_decide (t <= c) | None => true end.
Definition ErrDeadline : error := Errorf "context deadline exceeded" [].

(** A peer that takes everything and sends nothing, and a machine without files. *)
Definition silent_peer (o : op) (_ : list event) : ans o :=
  match o with
  | OReadFull _ | ORand _ => Err EOF
  | OWrite _ | OMkdirAll _ | OFileWrite _ _ | OFileClose _ => None
  | OClose | OReset => tt
  | ONow => 0
  | OOpenFile _ | OCreate _ => Err ErrNotExist
  | OStat _ => Err ErrNotExist
  | OReadAt _ _ _ => ([], Some EOF)
  end.

(** Everything works that ends in time, but the server sends nothing; a signal
    arrives. *)
Definition good_answers : Answers :=
  {| an_gen := Ok hello; an_new := fun _ => Ok tt; an_ID := fun _ => "S"%string;
     an_Addrs := fun _ => ["/ip4/1.2.3.4/tcp/9001"%string]; 
     an_connect := fun c t _ => if in_time c t then None else Some ErrDeadline;
     an_reserve := fun c t _ => if in_time c t then Ok (3600 * Second) else Err ErrDeadline;
     an_dial := fun c t _ => if in_time c t then None else Some ErrDeadline;
     an_stream := fun c t _ _ => if in_time c t then None else Some ErrDeadline;
     an_op := silent_peer; an_signal := Some "interrupt"%string |}.

(** The relay cannot be reached. *)
Definition lonely_answers : Answers :=
  {| an_gen := Ok hello; an_new := fun _ => Ok tt; an_ID := fun _ => "S"%string;
     an_Addrs := fun _ => []; an_connect := fun _ _ _ => Some EOF; an_reserve := fun _ _ _ => Err EOF;
     an_dial := fun _ _ _ => None; an_stream := fun _ _ _ _ => None; an_op := silent_peer;
     an_signal := None |}.

Definition demo_process : Process :=
  mkProcess {[ "RELAY_ADDRS" := " relay1 "%string ]} empty_disk [] 0 (fun _ => Second).

Lemma server_main_spec_witness :
  let s' := (server_main lonely_answers 12 demo_process).1 in
  let r := (server_main lonely_answers 12 demo_process).2 in
  (exists msg err, r = inr (FatalError msg (Some err)) /\
     (pr_acts s' = pr_acts demo_process \/ exists opts, pr_acts s' = pr_acts demo_process ++ [New opts])) \/
  exists priv relays h tail, served lonely_answers 12 demo_process s' r priv relays h tail /\
    (forall relay, relay ∈ relays -> ai_Addrs relay <> [] ->
       Println ("  " +:+ CircuitAddr relay (an_ID lonely_answers h)) ∈ server_intro lonely_answers h relays) /\
    match an_signal lonely_answers with
    | None => r = inr Waiting /\ tail = []
    | Some sig => r = inl tt /\ tail = [Println sig; Println (newline +:+ "Shutting down."); HostClose h]
    end.
Proof. apply (server_main_spec lonely_answers 12 demo_process). apply surjective_pairing. Defined.

(** The address through the relay is printed although there is no reservation. *)
Example unreserved_relay_printed :
  Forall (fun a => match a with GoKeepReservationAlive _ _ => False | _ => True end)
    (pr_acts (server_main lonely_answers 12 demo_process).1) /\
  Println "  relay1/p2p/relay1/p2p-circuit/p2p/S" ∈ pr_acts (server_main lonely_answers 12 demo_process).1.
Proof.
  split; [by repeat constructor|]. apply (list_elem_of_lookup_2 _ 7). vm_compute. reflexivity.
Qed.

Definition demo_args : list string := ["client"; "get"; "dir/a.txt"; "addr"]%string.

Lemma silent_get_wf n : transfer_wf good_answers (clientTransfer (12 + n) (ToUpper "get") "dir/a.txt").
Proof. unfold transfer_wf. apply (bool_decide_unpack _). vm_compute. exact I. Qed.

Lemma silent_receive n : exists e, exec (RecieveFile (12 + n)) [EvRead 1 (Err EOF)] (Done (Some e)).
Proof. eexists. exists (Err EOF), []. split; [done|]. split; [reflexivity|]. vm_compute. split; reflexivity. Qed.

(** The server sends nothing: [RecieveFile] fails and the client ends normally. *)
Lemma client_main_spec_witness :
  let s' := (client_main good_answers (12 + large) demo_args demo_process).1 in
  let r := (client_main good_answers (12 + large) demo_args demo_process).2 in
  exists start relays h maddr info l tr e, hosted good_answers demo_process relays h start /\
    NewMultiaddr "addr" = Ok maddr /\ AddrInfoFromP2pAddr maddr = Ok info /\
    dialled good_answers (client_ctx demo_process) (add_acts demo_process start) h info /\
    pr_acts s' = pr_acts demo_process ++ start
      ++ client_dials h info (clientTransfer (12 + large) "GET" "dir/a.txt") ++ l /\
    client_ends (12 + large) h "GET" "dir/a.txt" tr l r /\
    exec (RecieveFile (12 + large)) [EvRead 1 (Err EOF)] (Done (Some e)) /\ r = inl tt.
Proof.
  destruct (client_main_spec good_answers (12 + large) demo_args demo_process
    (client_main good_answers (12 + large) demo_args demo_process).1
    (client_main good_answers (12 + large) demo_args demo_process).2 (large_enough 12)) as [_ Hspec].
  - apply surjective_pairing.
  - assert (Hr : (client_main good_answers (12 + large) demo_args demo_process).2 = inl tt) by reflexivity.
    destruct (Hspec "client" "get" "dir/a.txt" "addr" [] eq_refl (silent_get_wf large))%string
      as [(l & msg & err & _ & Hf & _)|(start & relays & h & maddr & info & l & H1 & H2 & H3 & H4 & H5 & H6)].
    + exfalso. rewrite Hr in Hf. discriminate Hf.
    + destruct (silent_receive large) as [e He]. eexists start, relays, h, maddr, info, l, _, e.
      split_and!; [exact H1|exact H2|exact H3|exact H4|exact H5|exact H6|exact He|exact Hr].
Defined.

(** With an argument missing it exits with status 1. *)
Example client_usage :
  (client_main good_answers 12 (take 3 demo_args) demo_process).2 = inr (Exited 1) /\
  pr_acts (client_main good_answers 12 (take 3 demo_args) demo_process).1 = usage.
Proof. split; reflexivity. Qed.

Lemma programs_end_to_end_witness :
  ToUpper "get" = "GET"%string /\
  ProtocolID = ProtocolID /\
  exists arg0 arg1 path targetAddr rest, demo_args = arg0 :: arg1 :: path :: targetAddr :: rest /\
    forall wS wC content,
      len content <= (2 ^ 32 - 1) * ChunkSize -> len (bytes_of_string path) < 2 ^ 32 ->
      (ToUpper arg1 = "GET"%string -> w_files wS !! path = Some content ->
       exists n t, exchanged path content wS wC t /\ terminal t /\
         forall m s, sys_steps m (node_start (HandleStream (12 + large))
             (clientTransfer (12 + large) "GET" "dir/a.txt") wS wC) s -> (m <= n)%nat /\ sys_steps (n - m) s t) /\
      (ToUpper arg1 = "POST"%string -> w_files wC !! path = Some content ->
       exists n t, exchanged path content wC wS t /\ terminal t /\
         forall m s, sys_steps m (node_start (clientTransfer (12 + large) "GET" "dir/a.txt")
             (HandleStream (12 + large)) wC wS) s -> (m <= n)%nat /\ sys_steps (n - m) s t).
Proof.
  split; [reflexivity|].
  apply (programs_end_to_end good_answers good_answers (12 + large) (12 + large) demo_args demo_process
    (server_main good_answers (12 + large) demo_process).1 demo_process
    (client_main good_answers (12 + large) demo_args demo_process).1
    (server_main good_answers (12 + large) demo_process).2
    (client_main good_answers (12 + large) demo_args demo_process).2
    (large_enough 12) (large_enough 12) (surjective_pairing _) (surjective_pairing _) (conj eq_refl eq_refl)
    tt ProtocolID (HandleStream (12 + large)) tt "addr"%string ProtocolID
    (clientTransfer (12 + large) "GET" "dir/a.txt")).
  - apply (list_elem_of_lookup_2 _ 12). reflexivity.
  - apply (list_elem_of_lookup_2 _ 10). reflexivity.
  - apply (list_elem_of_lookup_2 _ 11). reflexivity.
Defined.

Lemma good_in_time : respects_deadlines good_answers.
Proof. split; intros; cbn; rewrite bool_decide_false by lia; discriminate. Qed.

Lemma client_budget_witness :
  exists arg0 arg1 path targetAddr args' relays start h maddr info rest,
    demo_args = arg0 :: arg1 :: path :: targetAddr :: args' /\
    hosted good_answers demo_process relays h start /\
    NewMultiaddr targetAddr = Ok maddr /\ AddrInfoFromP2pAddr maddr = Ok info /\
    pr_acts (client_main good_answers 12 demo_args demo_process).1 = start ++ Connect h info :: rest /\
    Forall (fun a => match a with Connect _ _ | Reserve _ _ => False | _ => True end) rest /\
    an_dial good_answers (client_ctx demo_process)
      (pr_clock (add_acts demo_process (start ++ [Connect h info]))) info = None /\
    pr_clock (add_acts demo_process start) <= pr_clock demo_process + 27 * Second /\
    pr_clock (add_acts demo_process (start ++ [Connect h info])) <= pr_clock demo_process + 27 * Second.
Proof.
  apply (client_budget good_answers 12 demo_args demo_process
    (client_main good_answers 12 demo_args demo_process).1
    (client_main good_answers 12 demo_args demo_process).2 (clientTransfer 12 "GET" "dir/a.txt")).
  - exact good_in_time.
  - apply surjective_pairing.
  - reflexivity.
  - apply (list_elem_of_lookup_2 _ 11). reflexivity.
Defined.

(** A relay that takes 40 seconds keeps the client from its transfer. *)
Definition slow_process : Process :=
  mkProcess {[ "RELAY_ADDRS" := " relay1 "%string ]} empty_disk [] 0 (fun i => if decide (i = 2%nat) then 40 * Second else Second).

Example slow_relay_blocks :
  (client_main good_answers 12 demo_args slow_process).2
  = inr (FatalError "libp2p connection wasnt established : " (Some ErrDeadline)).
Proof. vm_compute. reflexivity. Qed.

(** A relay without RELAY_PRIVKEY_B64, and the line it prints. *)
Definition relay_process : Process := mkProcess ∅ empty_disk [] 0 (fun _ => Second).
Definition moved_process : Process :=
  mkProcess {[ "RELAY_PRIVKEY_B64" := "aGVsbG8="%string ]} key_disk [] 0 (fun _ => Second).

Lemma relay_identity_portable_witness :
  head (pr_acts (relay_main lonely_answers moved_process).1)
  = Some (New (relayOptions hello (pr_env moved_process))) /\
  pr_disk (relay_main lonely_answers moved_process).1 = pr_disk moved_process.
Proof.
  apply (@relay_identity_portable plain_libp2p plain_keys good_answers lonely_answers relay_process
    (relay_main good_answers relay_process).1 (relay_main good_answers relay_process).2
    "aGVsbG8="%string hello ∅ (drop 6 (pr_acts (relay_main good_answers relay_process).1))
    moved_process _ (relay_main lonely_answers moved_process).2).
  - apply surjective_pairing.
  - reflexivity.
  - reflexivity.
  - discriminate.
  - reflexivity.
  - reflexivity.
  - apply surjective_pairing.
Defined.

(** ** Broken connections *)

Definition demo_start (n : nat) : link (option error) (option error) :=
  link_start (SendFile (12 + n) "dir/a.txt") (RecieveFile (12 + n)) server_world client_world.

(** The whole transfer up to the final ack, whose write fails after the ack has
    reached the sender. *)
Definition lost_ack : list move :=
  replicate 5 (MoveLeft false) ++ replicate 9 (MoveRight false) ++ replicate 6 (MoveLeft false)
  ++ replicate 7 (MoveRight false) ++ replicate 4 (MoveLeft false) ++ replicate 6 (MoveRight false)
  ++ [MoveRight true; MoveRight false; MoveLeft false; MoveLeft false].

Definition link_observed (s : link (option error) (option error)) :=
  (n_prog (l_left s), n_prog (l_right s), l_broken s, w_files (n_world (l_right s)) !! "./received/a.txt").

Lemma lost_ack_run n : exists e, link_observed <$> play_link lost_ack (demo_start n)
  = Some (Ret None, Ret (Some e), true, Some hello).
Proof. eexists. vm_compute. reflexivity. Qed.

Lemma link_observed_run o pl pr br c :
  link_observed <$> o = Some (pl, pr, br, c) -> exists s, o = Some s /\ n_prog (l_left s) = pl /\
    n_prog (l_right s) = pr /\ l_broken s = br /\ w_files (n_world (l_right s)) !! "./received/a.txt" = c.
Proof. destruct o as [s|]; intros Ho; [|discriminate]. injection Ho as <- <- <- <-. eauto 10. Qed.

(** The ack that got through although its write failed: the sender returns [nil],
    the receiver an error, and the file is there. *)
Lemma broken_connection_witness :
  exists s e, rtc link_step (demo_start large) s /\ l_broken s = true /\
    n_prog (l_left s) = Ret None /\ n_prog (l_right s) = Ret (Some e) /\
    sn link_step s /\
    w_files (n_world (l_right s)) = <["./received/" +:+ basename "dir/a.txt" := hello]> (w_files client_world).
Proof.
  destruct (lost_ack_run large) as [e He].
  destruct (link_observed_run _ _ _ _ _ He) as (s & Hs & Hl & Hr & Hb & _).
  exists s, e. pose proof (play_link_steps _ _ _ Hs) as Hrun.
  destruct (broken_connection (12 + large) (12 + large) "dir/a.txt" hello server_world client_world
    (large_enough 12) (large_enough 12)) with (s := s) as (Hsn & _ & _ & _ & Hnil).
  - unfold machine_ok. apply (bool_decide_unpack _). vm_compute. exact I.
  - reflexivity.
  - by vm_compute.
  - by vm_compute.
  - exact Hrun.
  - split_and!; [exact Hrun|exact Hb|exact Hl|exact Hr|exact Hsn|]. apply Hnil. left. split; [exact Hl|]. vm_compute. discriminate.
Defined.

(** A sender of an empty file waits for no ack: it returns [nil] though the
    receiver gets nothing and creates no file. *)
Example empty_file_unconfirmed n :
  let w := set_files server_world {[ "dir/a.txt" := [] ]} in
  let s := link_start (SendFile (12 + n) "dir/a.txt") (RecieveFile (12 + n)) w client_world in
  exists e, link_observed <$> play_link (replicate 6 (MoveLeft false) ++ [Break; MoveRight true]) s
    = Some (Ret None, Ret (Some e), true, None).
Proof. eexists. vm_compute. reflexivity. Qed.

(** ** Open files and logs *)

(** The upload whose peer goes away after the header, with its log. *)
Definition lost_log_run := run machine (RecieveFile_log 12) (client_world, headerBytes demo_header).

Lemma lost_exec e : (lost_run 12).1.1 = Done e -> exec (RecieveFile 12) lost_trace (Done e).
Proof.
  intros <-. apply run_exec_wf, (bool_decide_unpack _). vm_compute. exact I.
Qed.

Lemma file_handles_witness :
  exists e h f, exec (RecieveFile 12) lost_trace (Done (Some e)) /\ created_for h f lost_trace /\
    track [] lost_trace = Some [f].
Proof.
  destruct (lost_run 12).1.1 as [[e|]|] eqn:Hr; [|exfalso; vm_compute in Hr; discriminate Hr..].
  pose proof (lost_exec _ Hr) as He. destruct (file_handles 12 "" lost_trace) as (_ & _ & _ & _ & Hf).
  destruct (Hf e He) as [[Hc _]|(h & f & Hc & Ht)]; [exfalso; vm_compute in Hc; discriminate Hc|].
  exists e, h, f. split_and!; [exact He|exact Hc|]. rewrite Ht. case_decide; [reflexivity|].
  exfalso. vm_compute in Ht. discriminate Ht.
Defined.

(** A server with one upload whose peer goes away after the header. *)
Definition cut_upload (n : nat) : option server :=
  play (12 + n) (None :: replicate 14 (Some 0%nat)) (mkServer client_world []) [take 63 (upload hello)].

Definition cut_server (n : nat) : server := default (mkServer client_world []) (cut_upload n).

Definition cut_thread : thread := default (mkThread (Ret ()) []) (sv_threads (cut_server 0) !! 0%nat).

Lemma cut_threads n : sv_threads (cut_server n) = [cut_thread].
Proof. vm_compute. reflexivity. Qed.

Lemma cut_steps n : rtc (life_step (12 + n)) (mkServer client_world []) (cut_server n).
Proof.
  unfold cut_server. destruct (cut_upload n) as [s|] eqn:Hs; [exact (life_of_sv _ _ _ (play_steps _ _ _ _ _ Hs))|].
  exfalso. vm_compute in Hs. discriminate Hs.
Qed.

(** Its stream is over and holds the file of an upload with its chunk missing. *)
Lemma server_handles_witness :
  t_prog cut_thread = Ret tt /\ open_files (sv_world (cut_server 0)) = [0%nat] /\
  open_files (sv_world (cut_server 0)) ⊆+ open_files client_world ++ mjoin (held <$> histories (cut_server 0)) /\
  exists h f, upload_of h f (t_hist cut_thread) /\ written (t_hist cut_thread) < md_Reps h /\
    held (t_hist cut_thread) = [f].
Proof.
  assert (Hp : t_prog cut_thread = Ret tt) by (vm_compute; reflexivity).
  destruct (server_handles (12 + 0) client_world (cut_server 0) (cut_steps 0)) as (Hsub & _ & Hts).
  split_and!; [exact Hp|vm_compute; reflexivity|exact Hsub|].
  destruct (Hts cut_thread) as (_ & _ & Hend).
  - rewrite cut_threads. apply list_elem_of_here.
  - destruct (Hend Hp) as [Hh|Hh]; [|exact Hh]. exfalso. vm_compute in Hh. discriminate Hh.
Defined.

(** The finalizer may close it. *)
Example cut_finalized : exists s, life_step 12 (cut_server 0) s /\ open_files (sv_world s) = [].
Proof.
  eexists. split.
  - apply (life_finalizer 12 (cut_server 0) cut_thread 0%nat).
    + unfold alive. rewrite cut_threads. by repeat constructor.
    + rewrite cut_threads. apply list_elem_of_here.
    + assert (Hp : t_prog cut_thread = Ret tt) by (vm_compute; reflexivity). by rewrite Hp.
    + assert (Hh : held (t_hist cut_thread) = [0%nat]) by (vm_compute; reflexivity). rewrite Hh. apply list_elem_of_here.
  - vm_compute. reflexivity.
Qed.

(** Its log: the second line has the total already, the last is the failure. *)
Definition lost_log : list log_line :=
  match lost_log_run.1.1 with Done (_, log) => log | Halted _ => [] end.

Example lost_log_lines : exists e, lost_log =
  [TransitionLine 1 0 StateIdle StateReceiveHeader;
   TransitionLine 1 1 StateReceiveHeader StateSendChunkRequest;
   TransitionLine 1 1 StateSendChunkRequest StateWaitingChunkResponse;
   FailLine StateWaitingChunkResponse e].
Proof. eexists. vm_compute. reflexivity. Qed.

Lemma transfer_log_witness :
  exists e, exec (RecieveFile_log 12) lost_trace (Done (Some e, lost_log)) /\
    (exists n, is_u32 n /\ logs (receiver_visits n) (Some e) lost_log) /\
    verified_lines lost_log = written lost_trace.
Proof.
  assert (He : exists e, exec (RecieveFile_log 12) lost_trace (Done (Some e, lost_log))).
  { assert (Hr : exists e, lost_log_run.1.1 = Done (Some e, lost_log)) by (eexists; vm_compute; reflexivity).
    destruct Hr as [e Hr]. exists e. rewrite <-Hr.
    assert (Ht : lost_trace = lost_log_run.1.2) by (vm_compute; reflexivity). rewrite Ht.
    apply run_exec_wf, (bool_decide_unpack _). vm_compute. exact I. }
  destruct He as [e He]. exists e. split; [exact He|].
  destruct (transfer_log 12 "" lost_trace) as (_ & _ & _ & Hlog). exact (Hlog _ _ He).
Defined.

(** ** Goroutines on one session *)

(** Two goroutines advance the chunk of one session, interleaved; the second has to
    wait for the lock. *)
Definition two_callers : pool :=
  start (NewSession RoleSender) [] [[CAdvanceChunk; CTransition StateSendHeader]; [CAdvanceChunk]].

Definition two_schedule : list nat :=
  [0; 1; 1; 1; 1; 1; 0; 0; 1; 0; 0; 0]%nat ++ replicate 10 0%nat.

Lemma session_linearizable_witness :
  exists p h, play_pool two_schedule two_callers = Some p /\ s_CurrentChunk (sh_session (po_shared p)) = 2 /\
    sequential (NewSession RoleSender) [] h (sh_session (po_shared p)) (sh_log (po_shared p)) /\
    sh_log (po_shared p) = [TransitionLine 3 0 StateIdle StateSendHeader].
Proof.
  destruct (play_pool two_schedule two_callers) as [p|] eqn:Hp; [|exfalso; vm_compute in Hp; discriminate Hp].
  pose proof (play_pool_steps _ _ _ Hp) as Hr.
  assert (Hs : s_CurrentChunk (sh_session (po_shared p)) = 2 /\
    sh_log (po_shared p) = [TransitionLine 3 0 StateIdle StateSendHeader] /\ Forall g_over (po_gs p)).
  { clear Hr. vm_compute in Hp. injection Hp as <-. cbn. split_and!; [reflexivity..|]. repeat constructor. }
  destruct Hs as (Hc & Hl & Ho).
  destruct (session_linearizable _ _ _ p Hr) as [_ Hnf]. destruct (Hnf (over_nf p Ho)) as (h & Hh & _).
  exists p, h. split_and!; [reflexivity|exact Hc|exact Hh|exact Hl].
Defined.
